(* ===== verification/_CoqProject ===== *)
-Q . S2P
Prelude.v
Backend.v
Pool.v
GoStrings.v
GoStrconv.v
GoNet.v
Config.v
Flags.v
Yaml.v
YamlFacts.v
YamlPrint.v
GoBase64.v
Kubeconfig.v
State.v
Discovery.v
Prober.v
Health.v
Proxy.v
ProxyFacts.v
ProxyProps.v
Metrics.v
Main.v
Pipe.v
System.v
Program.v
