(* ===== verification/Prelude.v ===== *)
(** * local-apiserver-lb

    A model of the node-local load balancer for Kubernetes apiservers, and what it
    guarantees.  The program accepts TCP clients on one loopback address and pipes
    each to a control plane it considers healthy.  Everything under src/cmd and
    src/internal that decides something is modelled; the list of files below says
    where.

    ** How the program fits together

    A [Pool] (backend/pool.go) owns the [Backend]s (backend/backend.go), objects that
    all other parts share by pointer: the proxy (proxy/proxy.go) asks the pool for
    candidates, dials them and registers its connections with a backend; the health
    checker (health/checker.go) probes every backend through a prober
    (health/prober.go), feeds the fall/rise machine and drains a backend that goes
    down; discovery (discovery/discovery.go) reads the cluster's endpoints through the
    same candidates, with credentials of a kubeconfig (kubeconfig/), replaces the
    pool's list and saves it (discovery/state.go); metrics (metrics/metrics.go) reads
    it all.  main.go parses the command line (config/config.go), checks the
    configuration (config/validate.go), chooses the first list and starts the rest.

    ** How it is modelled

    Pointers.  A [Heap] holds the shared objects: backends, tracked connections and
    sockets, each under a [loc].  Code that reads and writes it is a program
    [prog Heap A], which may panic ([None]: a nil dereference, an index out of range,
    a division by zero); Go errors are values.  [runs m h a h'] is one run.

    Integers.  [uint64] counters wrap with [uint64_add], [int] counters with
    [int_add]; both are numbers [Z].  Strings are byte strings.

    Goroutines.  An atomic action is one critical section or one atomic counter, with
    the local work around it.  Where goroutines interleave (the health checker, the
    proxy, a pipe) the state holds a program counter for each, [step_fun] takes one
    action of one of them, [reachable] is any sequence of actions, and other components
    act on the shared heap in between.  A method with several critical sections
    ([Candidates], [HealthyCount], [DrainAll]) is a program for those who use it in one
    go, and a sequence of actions, one for each backend or connection, where goroutines
    interleave; [drain_steps], [count_steps] and [pollOnce_emulated] relate the two.  System.v runs
    the components together on one heap and one pool, and shows that each then takes a
    run of its own model, so what is proved of a component holds in the program.

    Maps ranged over.  [MapRange] gives an order for each range over a map, any order;
    theorems hold for all of them.

    The outside.  Files, DNS, dials, HTTP answers, certificates and JSON are arguments
    of the definitions ([FS], [lookup], [Env], [Network], [StateCodec]); a theorem
    assumes nothing of them that it does not state.

    ** Files

    - Prelude.v: integers, programs, loops, pointers, stable sorting, rotations, runs.
    - Backend.v, [internal/backend/backend.go]: [Backend], its connections, [Track],
      [Close], [DrainAll], [ReportHealth]; the heap invariant [wf_heap].
    - Pool.v, [internal/backend/pool.go]: strategies behind the class [Picker] with its
      laws [PickerLaws], [NewPool], [Candidates], [SetAddrs]; the invariant [wf_pool].
    - GoStrings.v, GoStrconv.v, GoNet.v, GoBase64.v: what is used of Go's strings,
      strconv, time.ParseDuration, net and encoding/base64.
    - Config.v, [internal/config/validate.go]: [Validate], [ValidateServers].
    - Flags.v, [internal/config/config.go]: the declared flags, [Parse] over a model of
      the flag package, [splitServers], and what a command line means.
    - Yaml.v, YamlFacts.v, YamlPrint.v, [internal/kubeconfig/yaml.go]: lexer, parser,
      their invariants, and a printer they invert.
    - Kubeconfig.v, [internal/kubeconfig/kubeconfig.go]: [Load] and what it accepts.
    - State.v, [internal/discovery/state.go]: [LoadState], and [saveState] with every
      state of the disk it goes through.
    - Discovery.v, [internal/discovery/discovery.go]: [fetch], [apply], [pollOnce], [Run].
    - Prober.v, [internal/health/prober.go]: the two probers of the class [Prober].
    - Health.v, [internal/health/checker.go]: the checker as a transition system.
    - Proxy.v, ProxyFacts.v, ProxyProps.v, [internal/proxy/proxy.go]: the server as a
      transition system, its invariants ([books], [safe], [life]), its theorems.
    - Pipe.v, the functions [pipe] and [copyThenCloseWrite] of the same file: the bytes.
    - Metrics.v, [internal/metrics/metrics.go]: the handlers and a reader of the text.
    - Main.v, [cmd/local-apiserver-lb/main.go] and [internal/version/version.go]: start-up.
    - System.v: the server, the checker and the poller on shared state ([step_fun],
      [poll_step]), the invariant [sound], the projections to each component's model.
    - Program.v: a round of Discovery.v as a run of the poller of System.v, and what
      holds of everything [setup] starts.

    ** What is shown

    - Backends.  The fall/rise machine marks a backend down exactly after [fall]
      failures with no run of [rise] successes since, for every history of probes;
      draining closes exactly the backend's connections; tracking and closing are
      inverse, once.
    - Pool.  No backend is lost or repeated by [Candidates]; round robin is fair across
      the wrap of its counter; least-conn sorts stably; [SetAddrs] keeps the objects
      that stay.
    - The program.  From any command line with which it starts, under every
      interleaving, no goroutine panics or is stuck; the pool is always a valid list; a
      removed backend, once drained, stays without connections unless a handler had
      picked it, whatever happens during the drain; [Shutdown] begins only after the signal.
    - Command line.  [Parse] accepts exactly the command lines that spell its flags; a
      configuration written out parses back; no number overflows.
    - Configuration.  [Validate] and [ValidateServers] accept exactly the configurations
      described; no accepted entry leads back to the listener, given canonical ports.
    - Kubeconfig.  The parser ends on every input, panics only on input nested without
      bound by a named pattern, builds only trees with distinct keys, and reads back
      whatever the printer writes; what [Load] returns comes from the current context,
      and a kubeadm file is accepted.
    - Discovery.  Only non-empty, valid, new lists are applied; the pool is never empty;
      saving is atomic; any number of rounds preserves it.
    - Health.  One live monitor per backend; a cancelled monitor never reports;
      best-effort messages alternate; a probe counts what its mode requires.
    - Proxy.  Nothing leaks under any interleaving; every handler returns; [Shutdown]
      stops the accept loop, closes the registered clients and can always return; the
      first candidate that accepts a dial is used.
    - Bytes.  What is written to one peer is a prefix of what the other sent, under any
      chunking and any failure; without failures everything and its end is passed on and
      neither direction stops the other; the pipe ends once both sides have.
    - Metrics and start-up.  /metrics reads back; /readyz tells the pool's health; the
      program starts exactly on valid input, on the saved list if it is valid; a
      saved list survives a restart.
    - Lemmas about runs the code allows and its comments do not mention are in
      YamlFacts.v, Yaml.v, Discovery.v, Health.v, Config.v, Pipe.v and at the end of ProxyProps.v.

    ** Fuel and bounds

    Loops over lists are structural or folds.  The YAML parser's recursion and the
    string scanners take fuel given by the length of their input, which the theorem
    [parseYAMLTree_total] and the lemmas of GoStrings.v show to be enough;
    [ParseDuration] takes the length of its string, each turn of its loop reading at
    least one byte.  [pipe_finishes] bounds the actions of a pipe by what is unread.  Twenty
    digits are enough for every 64-bit number.  The number of live handlers is
    assumed to be below 2^63 where the wait group is read back as a count.

    ** Not modelled

    Log lines and their levels, except the two whose order is a claim; usage texts;
    time, which only decides when a step is taken; TLS, HTTP and JSON beyond their
    results; the scheduler (a goroutine that can act may be left waiting, and liveness
    is stated as bounds on its own actions); signals other than the one that stops the
    program; deployment files and tests.  [clean paths] only are routed by the metrics
    mux.  Three methods are coarser than the code: [Track] counts and registers a
    connection in one action, [Close] unregisters it and closes its socket in one, and
    least-conn reads the counts it sorts by at one moment. *)
From Stdlib Require Import ZArith.
From stdpp Require Export base list gmap strings numbers sorting.

#[global] Open Scope Z_scope.
#[global] Open Scope stdpp_scope.
#[export] Set Default Goal Selector "!".

(** ** Machine integers

    Go's [uint64] and [int] (64 bits on both platforms the Makefile builds)
    wrap around silently.  Values are kept as [Z] and every addition the source
    performs on them goes through one of these two functions. *)

Definition uint64_add (a b : Z) : Z := (a + b) mod 2 ^ 64.
Definition int_add (a b : Z) : Z := (a + b + 2 ^ 63) mod 2 ^ 64 - 2 ^ 63.

Definition is_uint64 (z : Z) : Prop := 0 <= z < 2 ^ 64.
Definition max_int : Z := 2 ^ 63 - 1.

Lemma uint64_add_range a b : is_uint64 (uint64_add a b).
Proof. apply Z.mod_pos_bound. lia. Qed.

Lemma uint64_add_small a b : 0 <= a + b < 2 ^ 64 → uint64_add a b = a + b.
Proof. intros. by apply Z.mod_small. Qed.

(** Taking a ticket: [counter.Add(1) - 1] is the counter's old value. *)
Lemma uint64_ticket a : uint64_add (uint64_add a 1) (-1) = a mod 2 ^ 64.
Proof. unfold uint64_add. rewrite Zplus_mod_idemp_l. f_equal. lia. Qed.

Lemma int_add_small a b : - 2 ^ 63 <= a + b <= max_int → int_add a b = a + b.
Proof. unfold int_add, max_int. intros. rewrite Z.mod_small; lia. Qed.

(** ** Programs that read and write a state and may panic

    [prog S A] is code that threads a state [S], returns an [A], and may stop
    with a run-time panic ([None]): a nil dereference, an index out of range, a
    division by zero.  Go errors are ordinary values and are not [None]. *)

Definition prog (S A : Type) : Type := S → option (A * S).

#[global] Instance prog_ret S : MRet (prog S) := λ A a s, Some (a, s).
#[global] Instance prog_bind S : MBind (prog S) := λ A B f m s,
  match m s with Some (a, s') => f a s' | None => None end.

Definition panic {S A} : prog S A := λ _, None.
Definition get {S} : prog S S := λ s, Some (s, s).
Definition put {S} (s : S) : prog S unit := λ _, Some (tt, s).
Definition modify {S} (f : S → S) : prog S unit := λ s, Some (tt, f s).

(** Lifting a partial read: a missing value is a panic. *)
Definition deref {S A} (f : S → option A) : prog S A :=
  λ s, match f s with Some a => Some (a, s) | None => None end.

(** A [for _, x := range l] loop over a slice. *)
Fixpoint for_each {S A} (f : A → prog S unit) (l : list A) : prog S unit :=
  match l with
  | [] => mret tt
  | x :: l' => f x ;; for_each f l'
  end.

(** The same loop when its body also updates local variables. *)
Fixpoint for_fold {S A B} (f : B → A → prog S B) (b : B) (l : list A) : prog S B :=
  match l with
  | [] => mret b
  | x :: l' => b' ← f b x; for_fold f b' l'
  end.

(** [runs m s a s']: from [s], [m] returns [a] in state [s'] without panicking. *)
Definition runs {S A} (m : prog S A) (s : S) (a : A) (s' : S) : Prop := m s = Some (a, s').

Section prog_lemmas.
Context {S : Type}.

Lemma runs_ret {A} (a : A) (s : S) : runs (mret a) s a s.
Proof. done. Qed.

Lemma runs_bind {A B} (m : prog S A) (f : A → prog S B) s a s' b s'' :
  runs m s a s' → runs (f a) s' b s'' → runs (m ≫= f) s b s''.
Proof. unfold runs, mbind, prog_bind. by intros ->. Qed.

Lemma runs_bind_inv {A B} (m : prog S A) (f : A → prog S B) s b s'' :
  runs (m ≫= f) s b s'' → ∃ a s', runs m s a s' ∧ runs (f a) s' b s''.
Proof.
  unfold runs, mbind, prog_bind.
  destruct (m s) as [[a s']|] eqn:E; [|done]. eauto.
Qed.

Lemma runs_deref {A} (f : S → option A) s a : f s = Some a → runs (deref f) s a s.
Proof. unfold runs, deref. by intros ->. Qed.

Lemma deref_inv {A} (f : S → option A) s a s' : runs (deref f) s a s' → f s = Some a ∧ s' = s.
Proof. unfold runs, deref. destruct (f s); [|done]. by intros [= -> <-]. Qed.

Lemma runs_for_each_nil {A} (f : A → prog S unit) s : runs (for_each f []) s tt s.
Proof. done. Qed.

Lemma runs_for_each_cons {A} (f : A → prog S unit) x l s s' s'' :
  runs (f x) s tt s' → runs (for_each f l) s' tt s'' → runs (for_each f (x :: l)) s tt s''.
Proof. intros H1 H2. by eapply runs_bind. Qed.

(** Loop rule: an invariant indexed by the elements already handled. *)
Lemma runs_for_each {A} (f : A → prog S unit) (I : list A → S → Prop) l s :
  I [] s →
  (∀ pre x post t, l = pre ++ x :: post → I pre t →
     ∃ t', runs (f x) t tt t' ∧ I (pre ++ [x]) t') →
  ∃ s', runs (for_each f l) s tt s' ∧ I l s'.
Proof.
  intros H0 Hstep.
  assert (Hgen : ∀ post pre t, l = pre ++ post → I pre t →
    ∃ s', runs (for_each f post) t tt s' ∧ I l s').
  { induction post as [|x post IH]; intros pre t -> HI.
    - exists t. rewrite app_nil_r. by split.
    - destruct (Hstep pre x post t) as (t' & Hr & HI'); [done..|].
      destruct (IH (pre ++ [x]) t') as (s' & Hr' & Hs'); [by rewrite <- app_assoc|done|].
      exists s'. split; [by eapply runs_for_each_cons|done]. }
  by apply (Hgen l [] s).
Qed.

(** The loop rule with local variables. *)
Lemma runs_for_fold {A B} (f : B → A → prog S B) (I : list A → B → S → Prop) l b s :
  I [] b s →
  (∀ pre x post c t, l = pre ++ x :: post → I pre c t →
     ∃ c' t', runs (f c x) t c' t' ∧ I (pre ++ [x]) c' t') →
  ∃ b' s', runs (for_fold f b l) s b' s' ∧ I l b' s'.
Proof.
  intros H0 Hstep.
  assert (Hgen : ∀ post pre c t, l = pre ++ post → I pre c t →
    ∃ b' s', runs (for_fold f c post) t b' s' ∧ I l b' s').
  { induction post as [|x post IH]; intros pre c t -> HI.
    - exists c, t. rewrite app_nil_r. by split.
    - destruct (Hstep pre x post c t) as (c' & t' & Hr & HI'); [done..|].
      destruct (IH (pre ++ [x]) c' t') as (b' & s' & Hr' & Hs');
        [by rewrite <- app_assoc|done|].
      exists b', s'. split; [by eapply runs_bind|done]. }
  by apply (Hgen l []).
Qed.

(** Reading the state element by element leaves it alone. *)
Lemma runs_mapM_read {A B} (f : A → prog S B) (g : A → B) l s :
  Forall (λ x, runs (f x) s (g x) s) l → runs (mapM f l) s (map g l) s.
Proof.
  induction 1 as [|x l Hx _ IH]; [done|]. simpl.
  eapply runs_bind; [done|]. by eapply runs_bind.
Qed.
End prog_lemmas.

Create HintDb go.
#[export] Hint Resolve runs_ret runs_bind runs_deref runs_for_each_nil runs_for_each_cons : go.

(** ** Pointers

    Heap objects are named by [positive]s; a fresh pointer is one above every
    pointer in use. *)

Abbreviation loc := positive.

Definition fresh_loc {A} (m : gmap loc A) : loc :=
  Pos.succ (map_fold (λ k _ acc, Pos.max k acc) 1%positive m).

Lemma fresh_loc_gt {A} (m : gmap loc A) k : is_Some (m !! k) → (k < fresh_loc m)%positive.
Proof.
  unfold fresh_loc. rewrite Pos.lt_succ_r. revert k.
  apply (map_fold_weak_ind (λ r m, ∀ k, is_Some (m !! k) → (k <= r)%positive)).
  - intros k [x Hk]. by rewrite lookup_empty in Hk.
  - intros i x m' r Hi IH k [y Hk].
    destruct (decide (i = k)) as [->|Hne]; [lia|].
    rewrite lookup_insert_ne in Hk by done.
    specialize (IH k (mk_is_Some _ _ Hk)). lia.
Qed.

Lemma fresh_loc_None {A} (m : gmap loc A) : m !! fresh_loc m = None.
Proof.
  destruct (m !! fresh_loc m) eqn:E; [|done].
  pose proof (fresh_loc_gt m (fresh_loc m) (mk_is_Some _ _ E)). lia.
Qed.
#[export] Hint Resolve fresh_loc_None : go.

(** Ranging over a Go map visits its keys in an unspecified order.  Code that
    ranges over a map is written against this interface, so that its theorems
    hold whatever order the run time picks. *)

Class MapRange := {
  map_range : gset loc → list loc;
  map_range_perm X : map_range X ≡ₚ elements X
}.

(** One order the run time may pick, for concrete runs. *)
Definition range_elements : MapRange := {|
  map_range X := elements X;
  map_range_perm X := Permutation_refl _
|}.

Lemma elem_of_map_range `{MapRange} X x : x ∈ map_range X ↔ x ∈ X.
Proof. by rewrite map_range_perm, elem_of_elements. Qed.

Lemma NoDup_map_range `{MapRange} X : NoDup (map_range X).
Proof. rewrite map_range_perm. apply NoDup_elements. Qed.

Lemma length_map_range `{MapRange} X : length (map_range X) = size X.
Proof. by rewrite map_range_perm. Qed.

(** ** Lists *)

Lemma length_filter_le {A} (P : A → Prop) `{∀ x, Decision (P x)} (l : list A) :
  (length (filter P l) <= length l)%nat.
Proof. induction l as [|x l IH]; [done|]. rewrite filter_cons. case_decide; simpl; lia. Qed.

(** *** Stable sorting

    [sort.SliceStable] with a comparison of integer keys: equal elements keep
    their order. *)
Section stable_sort.
Context {A : Type} (key : A → Z).

Fixpoint insert_stable (x : A) (l : list A) : list A :=
  match l with
  | [] => [x]
  | y :: l' => if key y <? key x then y :: insert_stable x l' else x :: y :: l'
  end.

Definition stable_sort (l : list A) : list A := foldr insert_stable [] l.

Lemma insert_stable_perm x l : insert_stable x l ≡ₚ x :: l.
Proof.
  induction l as [|y l IH]; [done|]. simpl. destruct (_ <? _); [|done].
  rewrite IH. apply Permutation_swap.
Qed.

Lemma stable_sort_perm l : stable_sort l ≡ₚ l.
Proof. induction l as [|x l IH]; [done|]. simpl. by rewrite insert_stable_perm, IH. Qed.

Lemma insert_stable_sorted x l :
  StronglySorted (λ y z, key y <= key z) l →
  StronglySorted (λ y z, key y <= key z) (insert_stable x l).
Proof.
  induction 1 as [|y l Hs IH Hy]; simpl; [by repeat constructor|].
  destruct (Z.ltb_spec (key y) (key x)); constructor; try done.
  - rewrite insert_stable_perm. constructor; [lia|done].
  - by constructor.
  - constructor; [lia|]. eapply Forall_impl; [done|]. simpl. lia.
Qed.

Lemma stable_sort_sorted l : StronglySorted (λ y z, key y <= key z) (stable_sort l).
Proof. induction l; simpl; [constructor|by apply insert_stable_sorted]. Qed.

Lemma insert_stable_filter k x l :
  filter (λ y, key y = k) (insert_stable x l) = filter (λ y, key y = k) (x :: l).
Proof.
  induction l as [|y l IH]; [done|]. simpl. destruct (Z.ltb_spec (key y) (key x)); [|done].
  rewrite !filter_cons, IH, filter_cons. repeat case_decide; (done || lia).
Qed.

(** Elements with the same key come out in the order they went in. *)
Lemma stable_sort_stable k l :
  filter (λ y, key y = k) (stable_sort l) = filter (λ y, key y = k) l.
Proof.
  induction l as [|x l IH]; [done|]. simpl stable_sort.
  by rewrite insert_stable_filter, !filter_cons, IH.
Qed.
End stable_sort.

Lemma insert_stable_map {A B} (g : A → B) (key : B → Z) x l :
  insert_stable key (g x) (map g l) = map g (insert_stable (λ y, key (g y)) x l).
Proof. induction l as [|y l IH]; [done|]. simpl. destruct (_ <? _); simpl; by rewrite ?IH. Qed.

Lemma stable_sort_map {A B} (g : A → B) (key : B → Z) l :
  stable_sort key (map g l) = map g (stable_sort (λ x, key (g x)) l).
Proof.
  induction l as [|x l IH]; [done|]. simpl. rewrite <- insert_stable_map. by f_equal.
Qed.

(** *** Rotations *)

(** Reading a list cyclically from an offset succeeds and is a rotation. *)
Lemma mapM_rotate {A} (start : nat) (l : list A) :
  mapM (λ i, l !! ((start + i) `mod` length l)%nat) (seq 0 (length l)) = Some (rotate start l).
Proof.
  apply mapM_Some, Forall2_same_length_lookup_2; [by rewrite length_seq, length_rotate|].
  intros i j y [-> Hj]%lookup_seq Hy. apply lookup_rotate_r_Some in Hy as [Hy _].
  rewrite <- Hy. f_equal. unfold rotate_nat_add.
  by rewrite <- Nat2Z.inj_add, <- Nat2Z.inj_mod, Nat2Z.id.
Qed.

Lemma rotate_perm {A} n (l : list A) : rotate n l ≡ₚ l.
Proof. unfold rotate. by rewrite Permutation_app_comm, take_drop. Qed.

(** The element a cyclic read finds at position [i]. *)
Definition cyclic `{Inhabited A} (start : nat) (l : list A) (i : nat) : A :=
  l !!! ((start + i) `mod` length l)%nat.

Lemma cyclic_turn `{Inhabited A} (start : nat) (l : list A) :
  cyclic start l <$> seq 0 (length l) = rotate start l.
Proof.
  pose proof (mapM_rotate start l) as Hm. apply mapM_Some in Hm.
  apply list_eq_Forall2, Forall2_fmap_l. eapply Forall2_impl; [done|].
  intros i y Hi. by apply list_lookup_total_correct.
Qed.

Lemma cyclic_add `{Inhabited A} (start : nat) (l : list A) i :
  cyclic start l (length l + i) = cyclic start l i.
Proof.
  unfold cyclic. f_equal.
  replace (start + (length l + i))%nat with (start + i + 1 * length l)%nat by lia.
  apply Nat.Div0.mod_add.
Qed.

(** Cyclic reading for [k] whole turns visits every element [k] times. *)
Lemma cyclic_turns `{Inhabited A} (start k : nat) (l : list A) :
  cyclic start l <$> seq 0 (k * length l) ≡ₚ concat (replicate k l).
Proof.
  induction k as [|k IH]; [done|]. simpl.
  rewrite seq_app, fmap_app, cyclic_turn, rotate_perm. f_equiv.
  rewrite <- IH. pose proof (fmap_add_seq (length l) 0 (k * length l)) as Hs.
  rewrite Nat.add_0_r in Hs. rewrite Nat.add_0_l, <- Hs, <- list_fmap_compose.
  apply reflexive_eq, list_fmap_ext. intros _ i _. apply cyclic_add.
Qed.

Lemma head_rotate `{Inhabited A} n (l : list A) :
  l ≠ [] → head (rotate n l) = Some (cyclic n l 0).
Proof.
  intros Hne. assert (length l ≠ 0%nat) by (by destruct l).
  pose proof (Nat.mod_upper_bound n (length l)).
  unfold rotate, cyclic. rewrite Nat.add_0_r. destruct (lookup_lt_is_Some_2 l (n `mod` length l)) as [x Hx]; [lia|].
  rewrite (drop_S _ _ _ Hx). simpl. by rewrite (list_lookup_total_correct _ _ _ Hx).
Qed.

(** [trail x l]: how many times [x] is repeated at the end of [l]. *)
Fixpoint lead {A} `{EqDecision A} (x : A) (l : list A) : nat :=
  match l with
  | y :: l' => if decide (y = x) then S (lead x l') else 0%nat
  | [] => 0%nat
  end.
Definition trail {A} `{EqDecision A} (x : A) (l : list A) : nat := lead x (reverse l).

(** [no_run n x l]: [l] contains no [n] consecutive [x]s. *)
Definition no_run {A} (n : nat) (x : A) (l : list A) : Prop :=
  ∀ l1 l2, l ≠ l1 ++ replicate n x ++ l2.

Section trail.
Context {A : Type} `{EqDecision A}.
Implicit Types (x y : A) (l : list A).

Lemma trail_snoc x y l : trail x (l ++ [y]) = if decide (y = x) then S (trail x l) else 0%nat.
Proof. unfold trail. by rewrite reverse_snoc. Qed.

Lemma trail_snoc_eq x l : trail x (l ++ [x]) = S (trail x l).
Proof. rewrite trail_snoc. by case_decide. Qed.

Lemma trail_snoc_ne x y l : y ≠ x → trail x (l ++ [y]) = 0%nat.
Proof. intros. rewrite trail_snoc. by case_decide. Qed.

Lemma trail_replicate n x l : (n <= trail x (l ++ replicate n x))%nat.
Proof.
  induction n as [|n IH]; [lia|].
  rewrite replicate_S_end, app_assoc, trail_snoc_eq. lia.
Qed.

Lemma trail_split n x l : (n <= trail x l)%nat → ∃ l', l = l' ++ replicate n x.
Proof.
  revert l. induction n as [|n IH]; intros l Hn; [exists l; by rewrite app_nil_r|].
  destruct l as [|y l _] using rev_ind; [unfold trail in Hn; simpl in Hn; lia|].
  rewrite trail_snoc in Hn. case_decide as Hd; [subst y|lia].
  destruct (IH l) as [l' ->]; [lia|].
  exists l'. by rewrite replicate_S_end, app_assoc.
Qed.

Lemma trail_app_le x l1 l2 : (trail x l2 <= trail x (l1 ++ l2))%nat.
Proof.
  destruct (trail_split (trail x l2) x l2) as [l' Hl]; [done|].
  rewrite Hl at 2. rewrite app_assoc. apply trail_replicate.
Qed.

(** A different element cuts the count. *)
Lemma trail_app_cut x y l1 l2 : y ≠ x → trail x ((l1 ++ [y]) ++ l2) = trail x l2.
Proof.
  intros Hy. induction l2 as [|z l2 IH] using rev_ind.
  - rewrite app_nil_r. by apply trail_snoc_ne.
  - rewrite app_assoc, !trail_snoc. by rewrite IH.
Qed.

Lemma no_run_nil n x : (0 < n)%nat → no_run n x [].
Proof. intros Hn l1 l2 E. destruct l1, n; simplify_eq/=; lia. Qed.

Lemma no_run_snoc n x y l :
  no_run n x (l ++ [y]) ↔ no_run n x l ∧ (trail x (l ++ [y]) < n)%nat.
Proof.
  split.
  - intros H. split.
    + intros l1 l2 ->. apply (H l1 (l2 ++ [y])). by rewrite <- !app_assoc.
    + destruct (decide (n <= trail x (l ++ [y]))%nat) as [Hle|]; [|lia].
      destruct (trail_split _ _ _ Hle) as [l' Hl]. exfalso.
      apply (H l' []). by rewrite Hl, app_nil_r.
  - intros [H Ht] l1 l2 E. destruct l2 as [|z l2 _] using rev_ind.
    + rewrite app_nil_r in E. rewrite E in Ht. pose proof (trail_replicate n x l1). lia.
    + rewrite !app_assoc in E. apply app_inj_tail in E as [-> ->].
      apply (H l1 l2). by rewrite app_assoc.
Qed.
End trail.

(** ** Tactics *)

(** Split conjunctions and existentials of the context, substitute equations. *)
Ltac go_destruct :=
  repeat match goal with
  | H : _ ∧ _ |- _ => destruct H
  | H : ∃ _, _ |- _ => destruct H
  | H : _ * _ |- _ => destruct H
  end; simplify_eq/=.

(** Execute a straight-line [prog] whose reads are in the context. *)
Ltac go_run :=
  repeat first
    [ progress simplify_eq/=
    | match goal with
      | H : ?f = Some _ |- context [match ?f with _ => _ end] => rewrite H
      | H : ?f = None |- context [match ?f with _ => _ end] => rewrite H
      end ].
