(* ===== verification/Backend.v ===== *)
(** Package backend, file backend.go: one upstream apiserver, its fall/rise
    health state, its in-flight connections and its counters. *)
From S2P Require Import Prelude.

(** ** Data *)

(** The counters are [atomic.Uint64]: they wrap at [2 ^ 64]. *)
Record Stats := mkStats {
  ConnsTotal : Z;
  DialErrors : Z;
  CheckFailures : Z;
  Drained : Z
}.

(** [fails] and [rises] are Go [int]s; [conns] is the key set of
    [map[net.Conn]struct{}], whose keys are pointers to [trackedConn]s. *)
Record Backend := mkBackend {
  addr : string;
  healthy : bool;
  fails : Z;
  rises : Z;
  conns : gset loc;
  stats : Stats
}.

Record trackedConn := mkTracked {
  tc_Conn : loc;
  tc_backend : loc;
  tc_once : bool  (** whether [once.Do] has run *)
}.

(** What the program observes of a [net.Conn]: whether it has been closed,
    whether its write side has been shut down, and whether its dynamic type
    has a [CloseWrite] method. *)
Record netConn := mkConn {
  nc_closed : bool;
  nc_wclosed : bool;
  nc_CloseWrite : bool
}.

#[export] Instance netConn_eq_dec : EqDecision netConn.
Proof. solve_decision. Defined.

Inductive connError := ErrClosed | ErrNoCloseWrite.

(** The objects behind the pointers of this package. *)
Record Heap := mkHeap {
  h_backend : gmap loc Backend;
  h_tracked : gmap loc trackedConn;
  h_conn : gmap loc netConn
}.

(** ** Field updates *)

Definition set_streaks (f r : Z) (b : Backend) : Backend :=
  mkBackend (addr b) (healthy b) f r (conns b) (stats b).
Definition set_healthy (v : bool) (b : Backend) : Backend :=
  mkBackend (addr b) v (fails b) (rises b) (conns b) (stats b).
Definition set_conns (X : gset loc) (b : Backend) : Backend :=
  mkBackend (addr b) (healthy b) (fails b) (rises b) X (stats b).
Definition set_stats (f : Stats → Stats) (b : Backend) : Backend :=
  mkBackend (addr b) (healthy b) (fails b) (rises b) (conns b) (f (stats b)).

Definition add_ConnsTotal (n : Z) (s : Stats) : Stats :=
  mkStats (uint64_add (ConnsTotal s) n) (DialErrors s) (CheckFailures s) (Drained s).
Definition add_DialErrors (n : Z) (s : Stats) : Stats :=
  mkStats (ConnsTotal s) (uint64_add (DialErrors s) n) (CheckFailures s) (Drained s).
Definition add_CheckFailures (n : Z) (s : Stats) : Stats :=
  mkStats (ConnsTotal s) (DialErrors s) (uint64_add (CheckFailures s) n) (Drained s).
Definition add_Drained (n : Z) (s : Stats) : Stats :=
  mkStats (ConnsTotal s) (DialErrors s) (CheckFailures s) (uint64_add (Drained s) n).

Definition set_once (t : trackedConn) : trackedConn :=
  mkTracked (tc_Conn t) (tc_backend t) true.
Definition nc_close (c : netConn) : netConn := mkConn true (nc_wclosed c) (nc_CloseWrite c).
Definition nc_close_write (c : netConn) : netConn := mkConn (nc_closed c) true (nc_CloseWrite c).

(** ** Reading and writing the heap *)

Definition load_backend (l : loc) : prog Heap Backend := deref (λ h, h_backend h !! l).
Definition load_tracked (l : loc) : prog Heap trackedConn := deref (λ h, h_tracked h !! l).
Definition load_conn (l : loc) : prog Heap netConn := deref (λ h, h_conn h !! l).

Definition alter_backend (f : Backend → Backend) (l : loc) (h : Heap) : Heap :=
  mkHeap (alter f l (h_backend h)) (h_tracked h) (h_conn h).
Definition alter_tracked (f : trackedConn → trackedConn) (l : loc) (h : Heap) : Heap :=
  mkHeap (h_backend h) (alter f l (h_tracked h)) (h_conn h).
Definition alter_conn (f : netConn → netConn) (l : loc) (h : Heap) : Heap :=
  mkHeap (h_backend h) (h_tracked h) (alter f l (h_conn h)).

(** Assigning through a pointer dereferences it first. *)
Definition update_backend (f : Backend → Backend) (l : loc) : prog Heap unit :=
  load_backend l ;; modify (alter_backend f l).
Definition update_tracked (f : trackedConn → trackedConn) (l : loc) : prog Heap unit :=
  load_tracked l ;; modify (alter_tracked f l).
Definition update_conn (f : netConn → netConn) (l : loc) : prog Heap unit :=
  load_conn l ;; modify (alter_conn f l).

Definition alloc_tracked (t : trackedConn) : prog Heap loc := λ h,
  let l := fresh_loc (h_tracked h) in
  Some (l, mkHeap (h_backend h) (<[l := t]> (h_tracked h)) (h_conn h)).

Definition alloc_backend (b : Backend) : prog Heap loc := λ h,
  let l := fresh_loc (h_backend h) in
  Some (l, mkHeap (<[l := b]> (h_backend h)) (h_tracked h) (h_conn h)).

(** A connection the operating system hands out (an accepted client, a dialed
    backend): open in both directions. *)
Definition alloc_conn (has_CloseWrite : bool) : prog Heap loc := λ h,
  let c := fresh_loc (h_conn h) in
  Some (c, mkHeap (h_backend h) (h_tracked h)
             (<[c := mkConn false false has_CloseWrite]> (h_conn h))).

Definition empty_heap : Heap := mkHeap ∅ ∅ ∅.

(** ** Operations *)

Definition New (a : string) : Backend :=
  mkBackend a true 0 0 ∅ (mkStats 0 0 0 0).

Definition Addr (l : loc) : prog Heap string := b ← load_backend l; mret (addr b).

Definition Healthy (l : loc) : prog Heap bool := b ← load_backend l; mret (healthy b).

(** [ReportHealth]: the counter update before the lock, then the locked
    fall/rise state machine. *)
Definition count_probe (ok : bool) (b : Backend) : Backend :=
  if ok then b else set_stats (add_CheckFailures 1) b.

Definition fall_rise (ok : bool) (fall rise : Z) (b : Backend) : Backend * bool :=
  if healthy b then
    if ok then (set_streaks 0 (rises b) b, false)
    else
      let b1 := set_streaks (int_add (fails b) 1) (rises b) b in
      if fails b1 <? fall then (b1, false)
      else (set_streaks 0 0 (set_healthy false b1), true)
  else
    if negb ok then (set_streaks (fails b) 0 b, false)
    else
      let b1 := set_streaks (fails b) (int_add (rises b) 1) b in
      if rises b1 <? rise then (b1, false)
      else (set_streaks 0 0 (set_healthy true b1), true).

Definition report_health (ok : bool) (fall rise : Z) (b : Backend) : Backend * bool :=
  fall_rise ok fall rise (count_probe ok b).

Definition ReportHealth (l : loc) (ok : bool) (fall rise : Z) : prog Heap bool :=
  update_backend (count_probe ok) l ;;
  b ← load_backend l;
  update_backend (λ b, (fall_rise ok fall rise b).1) l ;;
  mret (fall_rise ok fall rise b).2.

Definition Track (l : loc) (c : loc) : prog Heap loc :=
  update_backend (set_stats (add_ConnsTotal 1)) l ;;
  tc ← alloc_tracked (mkTracked c l false);
  update_backend (λ b, set_conns ({[tc]} ∪ conns b) b) l ;;
  mret tc.

Definition ActiveConns (l : loc) : prog Heap Z :=
  b ← load_backend l; mret (Z.of_nat (size (conns b))).

(** [Close] of the underlying connection: a second call reports an error. *)
Definition conn_Close (c : loc) : prog Heap (option connError) :=
  nc ← load_conn c;
  if nc_closed nc then mret (Some ErrClosed)
  else update_conn nc_close c ;; mret None.

(** [trackedConn.Close]. *)
Definition Close (tc : loc) : prog Heap (option connError) :=
  t ← load_tracked tc;
  (if tc_once t then mret tt
   else update_tracked set_once tc ;;
        update_backend (λ b, set_conns (conns b ∖ {[tc]}) b) (tc_backend t)) ;;
  conn_Close (tc_Conn t).

(** [trackedConn.CloseWrite]. *)
Definition CloseWrite (tc : loc) : prog Heap (option connError) :=
  t ← load_tracked tc;
  nc ← load_conn (tc_Conn t);
  if nc_CloseWrite nc then
    if nc_closed nc then mret (Some ErrClosed)
    else update_conn nc_close_write (tc_Conn t) ;; mret None
  else mret (Some ErrNoCloseWrite).

(** [DrainAll]: the snapshot under the lock, the closes outside it, the counter.  The
    other goroutines can get in between. *)
Definition snapshot_conns `{MapRange} (l : loc) : prog Heap (list loc) :=
  b ← load_backend l; mret (map_range (conns b)).
Definition close_one (tc : loc) : prog Heap unit := Close tc ;; mret tt.
Definition count_drained (n : nat) (l : loc) : prog Heap unit :=
  update_backend (set_stats (add_Drained (Z.of_nat n))) l.

Definition DrainAll `{MapRange} (l : loc) : prog Heap Z :=
  cs ← snapshot_conns l;
  for_each close_one cs ;;
  count_drained (length cs) l ;;
  mret (Z.of_nat (length cs)).

(** One failed dial, as the proxy counts it. *)
Definition count_dial_error (l : loc) : prog Heap unit :=
  update_backend (set_stats (add_DialErrors 1)) l.

(** Feeding a history of probe results to one backend. *)
Definition probes (fall rise : Z) (b : Backend) (h : list bool) : Backend :=
  foldl (λ b ok, (report_health ok fall rise b).1) b h.

(** What the thresholds promise: a backend is out of service exactly when some
    [fall] consecutive probes failed and no [rise] consecutive probes have
    succeeded since. *)
Definition down_spec (fall rise : nat) (h : list bool) : Prop :=
  ∃ h1 h2, h = h1 ++ replicate fall false ++ h2 ∧ no_run rise true h2.

(** ** The fall/rise state machine *)

Section fall_rise.
Context (fall rise : Z).
Context (Hfall : 1 <= fall <= max_int) (Hrise : 1 <= rise <= max_int).
Let F := Z.to_nat fall.
Let R := Z.to_nat rise.

Lemma probes_snoc b h ok :
  probes fall rise b (h ++ [ok]) = (report_health ok fall rise (probes fall rise b h)).1.
Proof. unfold probes. by rewrite foldl_app. Qed.

Lemma down_spec_snoc_healthy h ok :
  ¬ down_spec F R h → (trail false (h ++ [ok]) < F)%nat → ¬ down_spec F R (h ++ [ok]).
Proof.
  intros Hn Ht (h1 & h2 & E & Hr). destruct h2 as [|y h2 _] using rev_ind.
  - rewrite app_nil_r in E. rewrite E in Ht. pose proof (trail_replicate F false h1). lia.
  - rewrite !app_assoc in E. apply app_inj_tail in E as [-> ->].
    apply Hn. exists h1, h2. rewrite <- app_assoc. split; [done|].
    by apply no_run_snoc in Hr as [? _].
Qed.

Lemma down_spec_start h : (F <= trail false h)%nat → down_spec F R h.
Proof.
  intros [l ->]%trail_split. exists l, []. rewrite app_nil_r. split; [done|].
  apply no_run_nil. lia.
Qed.

(** The failures that take a backend down end in a failure, so the successes
    counted afterwards all come later. *)
Lemma trail_true_after_fall h1 h2 :
  trail true (h1 ++ replicate F false ++ h2) = trail true h2.
Proof.
  assert (∃ n, F = S n) as [n HF] by (exists (pred F); lia).
  rewrite HF, replicate_S_end, (app_assoc h1), (app_assoc h1). by apply trail_app_cut.
Qed.

Lemma down_spec_snoc_down h ok :
  down_spec F R h → (trail true (h ++ [ok]) < R)%nat → down_spec F R (h ++ [ok]).
Proof.
  intros (h1 & h2 & -> & Hr) Ht. exists h1, (h2 ++ [ok]).
  rewrite <- !app_assoc. split; [done|]. apply no_run_snoc. split; [done|].
  by rewrite <- !app_assoc, trail_true_after_fall in Ht.
Qed.

Lemma not_down_spec_after_rise h : (R <= trail true h)%nat → ¬ down_spec F R h.
Proof.
  intros Ht (h1 & h2 & -> & Hr). rewrite trail_true_after_fall in Ht.
  apply trail_split in Ht as [l ->]. apply (Hr l []). by rewrite app_nil_r.
Qed.

(** The invariant relating a backend to the history it was fed. *)
Record tracks (h : list bool) (b : Backend) : Prop := {
  tracks_down : healthy b = false ↔ down_spec F R h;
  tracks_fails : fails b = if healthy b then Z.of_nat (trail false h) else 0;
  tracks_rises : rises b = if healthy b then 0 else Z.of_nat (trail true h);
  tracks_fall : fails b < fall;
  tracks_rise : rises b < rise
}.

Lemma tracks_new a : tracks [] (New a).
Proof.
  split; simpl; try done; try lia. split; [done|].
  intros (h1 & h2 & E & _). destruct h1; [|done]. destruct F eqn:?; simplify_eq/=. lia.
Qed.

Lemma tracks_step h b ok : tracks h b → tracks (h ++ [ok]) (report_health ok fall rise b).1.
Proof.
  intros [Hd Hf Hr Hlf Hlr].
  destruct b as [a hl f r cs st]; simpl in *.
  unfold report_health, fall_rise, count_probe.
  destruct hl, ok; simpl in *; subst.
  - split; simpl; rewrite ?trail_snoc_ne by done; try lia.
    split; [done|]. intros H. exfalso. revert H. apply down_spec_snoc_healthy.
    + by rewrite <- Hd.
    + rewrite trail_snoc_ne by done. lia.
  - unfold max_int in *. rewrite int_add_small by (unfold max_int; lia).
    destruct (Z.ltb_spec (Z.of_nat (trail false h) + 1) fall) as [Hlt|Hge]; split; simpl;
      rewrite ?trail_snoc_eq, ?trail_snoc_ne by done; try lia.
    + split; [done|]. intros H. exfalso. revert H. apply down_spec_snoc_healthy.
      * by rewrite <- Hd.
      * rewrite trail_snoc_eq. lia.
    + split; [|done]. intros _. apply down_spec_start. rewrite trail_snoc_eq. lia.
  - unfold max_int in *. rewrite int_add_small by (unfold max_int; lia).
    destruct (Z.ltb_spec (Z.of_nat (trail true h) + 1) rise) as [Hlt|Hge]; split; simpl;
      rewrite ?trail_snoc_eq, ?trail_snoc_ne by done; try lia.
    + split; [|done]. intros _. apply down_spec_snoc_down; [by apply Hd|].
      rewrite trail_snoc_eq. lia.
    + split; [done|]. intros H. exfalso. revert H. apply not_down_spec_after_rise.
      rewrite trail_snoc_eq. lia.
  - split; simpl; rewrite ?trail_snoc_ne by done; try lia.
    split; [|done]. intros _. apply down_spec_snoc_down; [by apply Hd|].
    rewrite trail_snoc_ne by done. lia.
Qed.

Lemma tracks_probes a h : tracks h (probes fall rise (New a) h).
Proof.
  induction h as [|ok h IH] using rev_ind; [apply tracks_new|].
  rewrite probes_snoc. by apply tracks_step.
Qed.
End fall_rise.

(** C7. The fall/rise machine meets its declared meaning: after any history of
    probe results, a backend created by [New] is unhealthy exactly when [fall]
    consecutive probes failed at some point and [rise] consecutive probes have
    not succeeded since; and its counters stay below the thresholds, so the
    [int] increments never overflow. *)
Theorem ReportHealth_fall_rise (fall rise : Z) (a : string) (h : list bool)
    (Hfall : 1 <= fall <= max_int) (Hrise : 1 <= rise <= max_int) :
  let b := probes fall rise (New a) h in
  (healthy b = false ↔ down_spec (Z.to_nat fall) (Z.to_nat rise) h) ∧
  0 <= fails b < fall ∧ 0 <= rises b < rise.
Proof.
  cbv zeta. destruct (tracks_probes fall rise Hfall Hrise a h) as [Hd Hf Hr Hlf Hlr].
  split; [done|]. destruct (healthy _); lia.
Qed.

Lemma ReportHealth_fall_rise_witness :
  healthy (probes 2 2 (New "10.0.0.1:6443") [false; false; true; false; true]) = false ∧
  down_spec 2 2 [false; false; true; false; true].
Proof.
  assert (E : healthy (probes 2 2 (New "10.0.0.1:6443") [false; false; true; false; true]) = false)
    by reflexivity.
  split; [exact E|].
  apply (ReportHealth_fall_rise 2 2 "10.0.0.1:6443" [false; false; true; false; true]);
    [unfold max_int; lia | unfold max_int; lia | exact E].
Defined.

(** ** The heap invariant *)

(** [conns] holds exactly the tracked connections whose [Close] has not run
    yet, and a tracked connection that has left it has its socket closed. *)
Record wf_heap (h : Heap) : Prop := {
  wf_conns : ∀ l b tc, h_backend h !! l = Some b →
    tc ∈ conns b ↔
    ∃ t, h_tracked h !! tc = Some t ∧ tc_backend t = l ∧ tc_once t = false;
  wf_tracked_backend : ∀ tc t, h_tracked h !! tc = Some t →
    is_Some (h_backend h !! tc_backend t);
  wf_tracked_conn : ∀ tc t, h_tracked h !! tc = Some t →
    ∃ nc, h_conn h !! tc_Conn t = Some nc ∧ (tc_once t = true → nc_closed nc = true)
}.

(** The effect of closing one tracked connection. *)
Definition close_heap (tc : loc) (t : trackedConn) (h : Heap) : Heap :=
  alter_conn nc_close (tc_Conn t)
    (alter_backend (λ b, set_conns (conns b ∖ {[tc]}) b) (tc_backend t)
      (alter_tracked set_once tc h)).

(** The sockets under a set of tracked connections. *)
Definition sockets_of (h : Heap) (X : gset loc) : gset loc :=
  set_omap (λ tc, tc_Conn <$> h_tracked h !! tc) X.

(** [h'] is [h] after closing the tracked connections [X] of backend [l]. *)
Record closed_set (l : loc) (X : gset loc) (h h' : Heap) : Prop := {
  cs_backend : ∀ l', h_backend h' !! l' =
    (if decide (l' = l) then (λ b, set_conns (conns b ∖ X) b) <$> h_backend h !! l'
     else h_backend h !! l');
  cs_tracked : ∀ tc, h_tracked h' !! tc =
    (if decide (tc ∈ X) then set_once <$> h_tracked h !! tc else h_tracked h !! tc);
  cs_conn : ∀ c, h_conn h' !! c =
    (if decide (c ∈ sockets_of h X) then nc_close <$> h_conn h !! c else h_conn h !! c)
}.

Lemma alter_unchanged {A} (f : A → A) (m : gmap loc A) i x :
  m !! i = Some x → f x = x → alter f i m = m.
Proof. intros Hi Hf. apply alter_id. intros y Hy. by simplify_eq. Qed.

Lemma set_conns_id b tc : tc ∉ conns b → set_conns (conns b ∖ {[tc]}) b = b.
Proof.
  intros Htc. assert (conns b ∖ {[tc]} = conns b) as -> by (clear -Htc; set_solver). by destruct b.
Qed.

Lemma update_backend_runs f l h b :
  h_backend h !! l = Some b → runs (update_backend f l) h tt (alter_backend f l h).
Proof. unfold runs, update_backend, load_backend, deref, mbind, prog_bind. by intros ->. Qed.

Lemma update_conn_runs f l h nc :
  h_conn h !! l = Some nc → runs (update_conn f l) h tt (alter_conn f l h).
Proof. unfold runs, update_conn, load_conn, deref, mbind, prog_bind. by intros ->. Qed.

Lemma update_tracked_runs f l h t :
  h_tracked h !! l = Some t → runs (update_tracked f l) h tt (alter_tracked f l h).
Proof. unfold runs, update_tracked, load_tracked, deref, mbind, prog_bind. by intros ->. Qed.
#[export] Hint Resolve update_backend_runs update_conn_runs update_tracked_runs : go.

Lemma conn_Close_runs c h nc :
  h_conn h !! c = Some nc →
  runs (conn_Close c) h (if nc_closed nc then Some ErrClosed else None) (alter_conn nc_close c h).
Proof.
  intros Hc. unfold conn_Close. eapply runs_bind; [by apply runs_deref|].
  destruct (nc_closed nc) eqn:E.
  - unfold runs, mret, prog_ret. do 2 f_equal. unfold alter_conn.
    rewrite (alter_unchanged _ _ _ nc) by (try done; destruct nc; simplify_eq/=; done).
    by destruct h.
  - eapply runs_bind; [by eapply update_conn_runs|done].
Qed.

(** Closing twice, or closing a connection whose socket is already closed, has
    the same effect on the heap as closing it once. *)
Lemma Close_runs h tc t :
  wf_heap h → h_tracked h !! tc = Some t →
  ∃ e, runs (Close tc) h e (close_heap tc t h).
Proof.
  intros Hwf Ht. unfold Close, close_heap.
  destruct (wf_tracked_conn _ Hwf _ _ Ht) as (nc & Hnc & _).
  destruct (wf_tracked_backend _ Hwf _ _ Ht) as [b Hb].
  eexists. eapply runs_bind; [by apply runs_deref|].
  eapply runs_bind; [|by apply conn_Close_runs].
  destruct (tc_once t) eqn:Ho.
  - unfold runs, mret, prog_ret. do 2 f_equal. destruct h as [hb ht hc].
    unfold alter_backend, alter_tracked; simpl in *. f_equal.
    + symmetry. eapply alter_unchanged; [done|]. apply set_conns_id.
      rewrite (wf_conns _ Hwf) by done. intros (t' & Ht' & _ & Ho'). simpl in *. congruence.
    + symmetry. eapply alter_unchanged; [done|]. by destruct t; simplify_eq/=.
  - eapply runs_bind; [by eapply update_tracked_runs|]. by eapply update_backend_runs.
Qed.

Lemma nc_close_closed nc : nc_closed (nc_close nc) = true.
Proof. done. Qed.

Lemma close_heap_wf h tc t :
  wf_heap h → h_tracked h !! tc = Some t → wf_heap (close_heap tc t h).
Proof.
  intros Hwf Ht. split; simpl.
  - intros l b tc'. rewrite lookup_alter_Some. intros [(<- & b0 & Hb0 & ->)|[Hne Hb]]; simpl.
    + rewrite elem_of_difference, (wf_conns _ Hwf), elem_of_singleton by done.
      setoid_rewrite lookup_alter_Some. split.
      * intros [(t' & Ht' & Hl & Ho) Htc]. exists t'. auto.
      * intros (t' & [(-> & t0 & H1 & ->)|[Hn Ht']] & Hl & Ho); [done|]. eauto.
    + rewrite (wf_conns _ Hwf) by done. setoid_rewrite lookup_alter_Some. split.
      * intros (t' & Ht' & Hl & Ho). exists t'. split; [|done]. right. split; [|done].
        intros ->. naive_solver.
      * intros (t' & [(-> & t0 & H1 & ->)|[Hn Ht']] & Hl & Ho); [done|]. eauto.
  - intros tc' t'. rewrite lookup_alter_Some, lookup_alter_is_Some.
    intros [(-> & t0 & H1 & ->)|[Hn Ht']]; simpl; eauto using wf_tracked_backend.
  - intros tc' t' Ht'. assert (∃ t0, h_tracked h !! tc' = Some t0 ∧ tc_Conn t' = tc_Conn t0 ∧
      (tc_once t' = true → tc_once t0 = true ∨ tc_Conn t0 = tc_Conn t)) as (t0 & H0 & Hc & Ho).
    { apply lookup_alter_Some in Ht' as [(-> & t0 & H1 & ->)|[Hn Ht']]; [|by eauto 10].
      exists t0. naive_solver. }
    destruct (wf_tracked_conn _ Hwf _ _ H0) as (nc & Hnc & Hcl). rewrite Hc.
    destruct (decide (tc_Conn t0 = tc_Conn t)) as [Heq|Hne].
    + exists (nc_close nc). rewrite <- Heq, lookup_alter_eq, Hnc. done.
    + exists nc. rewrite lookup_alter_ne by done. naive_solver.
Qed.

Lemma elem_of_sockets_of h X c :
  c ∈ sockets_of h X ↔ ∃ tc t, tc ∈ X ∧ h_tracked h !! tc = Some t ∧ tc_Conn t = c.
Proof.
  unfold sockets_of. rewrite elem_of_set_omap. setoid_rewrite fmap_Some. naive_solver.
Qed.

Lemma sockets_of_insert h tc t X :
  h_tracked h !! tc = Some t → sockets_of h ({[tc]} ∪ X) = {[tc_Conn t]} ∪ sockets_of h X.
Proof.
  intros Ht. apply set_eq. intros c.
  rewrite elem_of_union, elem_of_singleton, !elem_of_sockets_of. set_solver.
Qed.

Lemma closed_set_empty l h : closed_set l ∅ h h.
Proof.
  split; intros; case_decide as Hd; try done.
  destruct (h_backend h !! l') as [b|]; [|done].
  simpl. f_equal. rewrite difference_empty_L. by destruct b.
Qed.

Lemma closed_set_tracked l X h h' tc t' :
  closed_set l X h h' → h_tracked h' !! tc = Some t' →
  ∃ t, h_tracked h !! tc = Some t ∧ tc_Conn t = tc_Conn t' ∧ tc_backend t = tc_backend t'.
Proof.
  intros Hcs. rewrite (cs_tracked _ _ _ _ Hcs). case_decide; [|by eauto].
  intros (t & Ht & ->)%fmap_Some. by exists t.
Qed.

Lemma closed_set_step l X h h' tc t :
  closed_set l X h h' → h_tracked h' !! tc = Some t → tc_backend t = l →
  closed_set l ({[tc]} ∪ X) h (close_heap tc t h').
Proof.
  intros Hcs Ht Hl. pose proof (closed_set_tracked _ _ _ _ _ _ Hcs Ht) as (t0 & Ht0 & Hc & Hb).
  split; unfold close_heap, alter_conn, alter_backend, alter_tracked; cbn [h_backend h_tracked h_conn].
  - intros l'. rewrite lookup_alter, Hl, !(cs_backend _ _ _ _ Hcs).
    destruct (decide (l = l')) as [<-|Hne].
    + rewrite !decide_True by done. destruct (h_backend h !! l) as [b|]; [|done].
      unfold set_conns; simpl. do 2 f_equal. clear. set_solver.
    + by rewrite !decide_False.
  - intros tc'. rewrite lookup_alter, !(cs_tracked _ _ _ _ Hcs).
    destruct (decide (tc = tc')) as [<-|Hne].
    + rewrite (decide_True (P := tc ∈ {[tc]} ∪ X)) by set_solver.
      rewrite Ht0. by case_decide.
    + by rewrite (decide_ext (tc' ∈ {[tc]} ∪ X) (tc' ∈ X)) by set_solver.
  - intros c. rewrite (sockets_of_insert _ _ _ _ Ht0), lookup_alter, !(cs_conn _ _ _ _ Hcs), Hc.
    destruct (decide (tc_Conn t = c)) as [<-|Hne].
    + rewrite (decide_True (P := tc_Conn t ∈ {[tc_Conn t]} ∪ _)) by set_solver.
      case_decide; [|done]. by destruct (h_conn h !! tc_Conn t).
    + by rewrite (decide_ext (c ∈ {[tc_Conn t]} ∪ sockets_of h X) (c ∈ sockets_of h X)) by set_solver.
Qed.

Lemma set_stats_wf l f h :
  wf_heap h → wf_heap (alter_backend (set_stats f) l h).
Proof.
  intros [H1 H2 H3]. split; simpl; [|intros tc t; rewrite lookup_alter_is_Some; by eauto|done].
  intros l' b tc. rewrite lookup_alter_Some.
  intros [(<- & b0 & Hb0 & ->)|[_ Hb]]; [exact (H1 _ _ tc Hb0)|exact (H1 _ _ tc Hb)].
Qed.

(** ** Draining *)

Section drain.
Context `{MapRange}.

Lemma snapshot_conns_runs l h b : h_backend h !! l = Some b → runs (snapshot_conns l) h (map_range (conns b)) h.
Proof. intros Hb. by eapply runs_bind; [by apply runs_deref|]. Qed.

Lemma close_one_runs tc h t : wf_heap h → h_tracked h !! tc = Some t → runs (close_one tc) h tt (close_heap tc t h).
Proof. intros Hwf Ht. destruct (Close_runs _ _ _ Hwf Ht) as [e He]. by eapply runs_bind. Qed.

Lemma count_drained_runs n l h b : h_backend h !! l = Some b →
  runs (count_drained n l) h tt (alter_backend (set_stats (add_Drained (Z.of_nat n))) l h).
Proof. intros Hb. by eapply update_backend_runs. Qed.

Lemma close_loop l h b :
  wf_heap h → h_backend h !! l = Some b →
  ∃ h', runs (for_each close_one (map_range (conns b))) h tt h' ∧
        wf_heap h' ∧ closed_set l (conns b) h h'.
Proof.
  intros Hwf Hb.
  destruct (runs_for_each close_one
    (λ pre t, wf_heap t ∧ closed_set l (list_to_set pre) h t) (map_range (conns b)) h)
    as (h' & Hr & Hwf' & Hcs).
  - split; [done|]. apply closed_set_empty.
  - intros pre tc post h1 Hl [Hwf1 Hcs].
    assert (tc ∈ conns b) as Hin by (apply elem_of_map_range; rewrite Hl; set_solver).
    rewrite (wf_conns _ Hwf) in Hin by done. destruct Hin as (t0 & Ht0 & Hl0 & _).
    assert (∃ t, h_tracked h1 !! tc = Some t ∧ tc_backend t = l) as (t & Ht & Hlt).
    { rewrite (cs_tracked _ _ _ _ Hcs), Ht0. case_decide; simpl; eauto. }
    exists (close_heap tc t h1). split; [by apply close_one_runs|]. split; [by apply close_heap_wf|].
    rewrite list_to_set_app_L, (union_comm_L (list_to_set pre)). simpl. rewrite union_empty_r_L.
    by apply closed_set_step.
  - exists h'. split; [done|]. split; [done|].
    replace (conns b) with (list_to_set (C := gset loc) (map_range (conns b))); [done|].
    apply set_eq. intros x. by rewrite elem_of_list_to_set, elem_of_map_range.
Qed.

Lemma DrainAll_runs l h b :
  wf_heap h → h_backend h !! l = Some b →
  ∃ h1, wf_heap h1 ∧ closed_set l (conns b) h h1 ∧
    let n := Z.of_nat (size (conns b)) in
    runs (DrainAll l) h n (alter_backend (set_stats (add_Drained n)) l h1).
Proof.
  intros Hwf Hb. destruct (close_loop l h b Hwf Hb) as (h1 & Hr & Hwf1 & Hcs).
  exists h1. split; [done|]. split; [done|]. cbv zeta. unfold DrainAll.
  eapply runs_bind; [by apply snapshot_conns_runs|]. eapply runs_bind; [exact Hr|].
  rewrite length_map_range. eapply runs_bind; [|done].
  eapply count_drained_runs. by rewrite (cs_backend _ _ _ _ Hcs), decide_True, Hb.
Qed.
End drain.

(** ** Tracking and closing one connection *)

Definition track_heap (l c tc : loc) (h : Heap) : Heap :=
  mkHeap (alter (λ b, set_conns ({[tc]} ∪ conns b) (set_stats (add_ConnsTotal 1) b)) l (h_backend h))
         (<[tc := mkTracked c l false]> (h_tracked h)) (h_conn h).

Lemma Track_runs l c h b :
  h_backend h !! l = Some b →
  runs (Track l c) h (fresh_loc (h_tracked h)) (track_heap l c (fresh_loc (h_tracked h)) h).
Proof.
  intros Hb. unfold Track. eapply runs_bind; [by eapply update_backend_runs|].
  eapply runs_bind; [done|].
  eapply runs_bind; [eapply update_backend_runs; simpl; by rewrite lookup_alter_eq, Hb|].
  unfold runs, mret, prog_ret, alter_backend, track_heap. simpl. do 3 f_equal.
  apply alter_alter_eq.
Qed.

Lemma track_heap_wf l c h b nc :
  wf_heap h → h_backend h !! l = Some b → h_conn h !! c = Some nc →
  wf_heap (track_heap l c (fresh_loc (h_tracked h)) h).
Proof.
  intros Hwf Hb Hc. pose proof (fresh_loc_None (h_tracked h)) as Hfresh. split; simpl.
  - intros l' b' tc. rewrite lookup_alter_Some.
    assert (∀ t, h_tracked h !! tc = Some t → tc ≠ fresh_loc (h_tracked h)) by congruence.
    setoid_rewrite lookup_insert_Some.
    intros [(<- & b0 & Hb0 & ->)|[Hne Hb']]; simpl.
    + rewrite elem_of_union, elem_of_singleton, (wf_conns _ Hwf) by done. split.
      * intros [->|(t & Ht & Hl & Ho)]; [by eauto 10|]. exists t. split; [|done]. right.
        split; [|done]. intros E. by eapply H.
      * intros (t & [[-> <-]|[Hn Ht]] & Hl & Ho); [by left|]. right. eauto.
    + rewrite (wf_conns _ Hwf) by done. split.
      * intros (t & Ht & Hl & Ho). exists t. split; [|done]. right.
        split; [|done]. intros E. by eapply H.
      * intros (t & [[_ <-]|[Hn Ht]] & Hl & Ho); [done|]. eauto.
  - intros tc t. rewrite lookup_insert_Some, lookup_alter_is_Some.
    intros [[_ <-]|[_ Ht]]; [simpl; by rewrite Hb|]. by eapply wf_tracked_backend.
  - intros tc t. rewrite lookup_insert_Some. intros [[_ <-]|[_ Ht]]; [by exists nc|].
    by eapply wf_tracked_conn.
Qed.

Lemma empty_heap_wf : wf_heap empty_heap.
Proof. by split. Qed.

Lemma alloc_backend_wf h a :
  wf_heap h →
  wf_heap (mkHeap (<[fresh_loc (h_backend h) := New a]> (h_backend h)) (h_tracked h) (h_conn h)).
Proof.
  intros Hwf. pose proof (fresh_loc_None (h_backend h)) as Hfresh. split; simpl.
  - intros l b tc. rewrite lookup_insert_Some. intros [[<- <-]|[Hne Hb]]; simpl.
    + split; [set_solver|]. intros (t & Ht & Hl & Ho).
      destruct (wf_tracked_backend _ Hwf _ _ Ht) as [b Hb]. congruence.
    + by apply (wf_conns _ Hwf).
  - intros tc t Ht. apply lookup_insert_is_Some'. right. by eapply wf_tracked_backend.
  - apply (wf_tracked_conn _ Hwf).
Qed.

Lemma alloc_conn_wf h cw :
  wf_heap h →
  wf_heap (mkHeap (h_backend h) (h_tracked h)
             (<[fresh_loc (h_conn h) := mkConn false false cw]> (h_conn h))).
Proof.
  intros Hwf. pose proof (fresh_loc_None (h_conn h)) as Hfresh. split; simpl.
  - apply (wf_conns _ Hwf).
  - apply (wf_tracked_backend _ Hwf).
  - intros tc t Ht. destruct (wf_tracked_conn _ Hwf _ _ Ht) as (nc & Hnc & Ho).
    exists nc. split; [|done]. rewrite lookup_insert_ne; congruence.
Qed.
#[export] Hint Resolve empty_heap_wf alloc_backend_wf alloc_conn_wf track_heap_wf close_heap_wf
  set_stats_wf : go.


(** A small concrete heap: two backends, the first with two connections in
    flight and the second with one. *)
Definition demo_backend (a : string) (h : Heap) : Heap :=
  mkHeap (<[fresh_loc (h_backend h) := New a]> (h_backend h)) (h_tracked h) (h_conn h).
Definition demo_conn (h : Heap) : Heap :=
  mkHeap (h_backend h) (h_tracked h) (<[fresh_loc (h_conn h) := mkConn false false true]> (h_conn h)).
Definition demo_track (l c : loc) (h : Heap) : Heap :=
  track_heap l c (fresh_loc (h_tracked h)) h.
Definition demo_heap : Heap :=
  demo_track 3 4 (demo_conn (demo_track 2 3 (demo_conn (demo_track 2 2 (demo_conn
    (demo_backend "10.0.0.2:6443" (demo_backend "10.0.0.1:6443" empty_heap))))))).

Lemma demo_heap_wf : wf_heap demo_heap.
Proof.
  do 3 (eapply track_heap_wf; [apply alloc_conn_wf|by vm_compute|by vm_compute]).
  do 2 apply alloc_backend_wf. apply empty_heap_wf.
Qed.

(** C27. [DrainAll] closes every in-flight connection of its backend and nothing
    else: it returns how many there were, leaves the backend with none and its
    [Drained] counter advanced by that number, closes exactly the sockets under
    those connections, and leaves every other backend untouched, whatever order
    the map is ranged over and without ever panicking. *)
Theorem DrainAll_closes_all `{MapRange} (l : loc) (h : Heap) (b : Backend)
    (Hwf : wf_heap h) (Hb : h_backend h !! l = Some b) :
  let n := Z.of_nat (size (conns b)) in
  ∃ h' b', runs (DrainAll l) h n h' ∧ wf_heap h' ∧
    h_backend h' !! l = Some b' ∧ conns b' = ∅ ∧
    stats b' = add_Drained n (stats b) ∧ healthy b' = healthy b ∧
    (∀ l', l' ≠ l → h_backend h' !! l' = h_backend h !! l') ∧
    (∀ c, h_conn h' !! c =
       (if decide (c ∈ sockets_of h (conns b)) then nc_close <$> h_conn h !! c
        else h_conn h !! c)).
Proof.
  cbv zeta. destruct (DrainAll_runs l h b Hwf Hb) as (h1 & Hwf1 & Hcs & Hr).
  assert (h_backend h1 !! l = Some (set_conns (conns b ∖ conns b) b)) as Hb1
    by (by rewrite (cs_backend _ _ _ _ Hcs), decide_True, Hb).
  eexists _, _. split; [exact Hr|]. split; [by apply set_stats_wf|].
  split; [cbn [h_backend alter_backend]; by rewrite lookup_alter_eq, Hb1|].
  repeat split; simpl.
  - apply difference_diag_L.
  - intros l' Hne. rewrite lookup_alter_ne by done. by rewrite (cs_backend _ _ _ _ Hcs), decide_False.
  - intros c. apply (cs_conn _ _ _ _ Hcs).
Qed.

Lemma DrainAll_closes_all_witness :
  ∃ h' b', h_backend h' !! 2%positive = Some b' ∧ conns b' = ∅ ∧ Drained (stats b') = 2.
Proof.
  destruct (h_backend demo_heap !! 2%positive) as [b|] eqn:Hb; [|by vm_compute in Hb].
  destruct (@DrainAll_closes_all range_elements 2%positive demo_heap b demo_heap_wf Hb)
    as (h' & b' & _ & _ & Hb' & Hc & Hs & _).
  exists h', b'. split; [exact Hb'|]. split; [exact Hc|].
  rewrite Hs. vm_compute in Hb. injection Hb as <-. by vm_compute.
Defined.

(** Tracking registers a connection exactly once and closing it unregisters
    it exactly once: [Track] counts the connection and adds a pointer that no
    backend knew; [Close] on it restores the connection set, closes the socket,
    and a second [Close] changes nothing and reports an error. *)
Theorem Track_Close (l c : loc) (h : Heap) (b : Backend) (nc : netConn)
    (Hwf : wf_heap h) (Hb : h_backend h !! l = Some b) (Hc : h_conn h !! c = Some nc) :
  ∃ tc h1 h2 e,
    runs (Track l c) h tc h1 ∧ wf_heap h1 ∧ tc ∉ conns b ∧
    h_backend h1 !! l = Some (set_conns ({[tc]} ∪ conns b) (set_stats (add_ConnsTotal 1) b)) ∧
    runs (ActiveConns l) h1 (Z.of_nat (size (conns b)) + 1) h1 ∧
    runs (Close tc) h1 e h2 ∧ wf_heap h2 ∧
    h_backend h2 !! l = Some (set_stats (add_ConnsTotal 1) b) ∧
    h_conn h2 !! c = Some (nc_close nc) ∧
    runs (Close tc) h2 (Some ErrClosed) h2.
Proof.
  set (tc := fresh_loc (h_tracked h)).
  assert (tc ∉ conns b) as Hnew.
  { rewrite (wf_conns _ Hwf) by done. intros (t & Ht & _). subst tc.
    pose proof (fresh_loc_None (h_tracked h)). congruence. }
  pose proof (Track_runs l c h b Hb) as Hr. fold tc in Hr.
  pose proof (track_heap_wf l c h b nc Hwf Hb Hc) as Hwf1. fold tc in Hwf1.
  assert (h_tracked (track_heap l c tc h) !! tc = Some (mkTracked c l false)) as Ht1
    by apply lookup_insert_eq.
  assert (h_backend (track_heap l c tc h) !! l =
    Some (set_conns ({[tc]} ∪ conns b) (set_stats (add_ConnsTotal 1) b))) as Hb1
    by (simpl; by rewrite lookup_alter_eq, Hb).
  destruct (Close_runs _ _ _ Hwf1 Ht1) as [e He].
  pose proof (close_heap_wf _ _ _ Hwf1 Ht1) as Hwf2.
  set (h2 := close_heap tc (mkTracked c l false) (track_heap l c tc h)) in *.
  assert (h_conn h2 !! c = Some (nc_close nc)) as Hc2 by (simpl; by rewrite lookup_alter_eq, Hc).
  exists tc, (track_heap l c tc h), h2, e. repeat (split; [done|]).
  split. { unfold ActiveConns. eapply runs_bind; [by apply runs_deref|]. unfold runs, mret, prog_ret.
    simpl. do 2 f_equal. rewrite size_union, size_singleton by (clear -Hnew; set_solver). lia. }
  repeat (split; [done|]).
  split. { unfold h2; simpl. rewrite !lookup_alter_eq, Hb; simpl. f_equal.
    unfold set_conns, set_stats; simpl. f_equal. clear -Hnew; set_solver. }
  split; [done|]. unfold Close.
  eapply runs_bind; [apply runs_deref; unfold h2; simpl; by rewrite lookup_alter_eq, lookup_insert_eq|].
  simpl. eapply runs_bind; [done|]. unfold conn_Close.
  by eapply runs_bind; [by apply runs_deref|].
Qed.

Lemma Track_Close_witness :
  ∃ tc h1, runs (Track 2 4) demo_heap tc h1 ∧ runs (ActiveConns 2) h1 3 h1.
Proof.
  destruct (h_backend demo_heap !! 2%positive) as [b|] eqn:Hb; [|by vm_compute in Hb].
  destruct (h_conn demo_heap !! 4%positive) as [nc|] eqn:Hc; [|by vm_compute in Hc].
  destruct (Track_Close 2 4 demo_heap b nc demo_heap_wf Hb Hc)
    as (tc & h1 & h2 & e & Hr & _ & _ & _ & Ha & _).
  exists tc, h1. split; [exact Hr|]. vm_compute in Hb. injection Hb as <-. exact Ha.
Defined.
