(* ===== verification/Pool.v ===== *)
(** Package backend, file pool.go: the backend set and the balancing
    strategies that order it. *)
From S2P Require Import Prelude Backend.

(** ** The strategy interface *)

(** The [Picker] interface.  [Order] may update the picker and read the
    backends; it is given the healthy ones. *)
Class Picker (P : Type) := {
  Name : P → string;
  Order : P → list loc → prog Heap (P * list loc)
}.

Definition allocated (h : Heap) (l : loc) : Prop := is_Some (h_backend h !! l).

(** The contract written above the interface: the returned slice contains every
    input backend exactly once; and a strategy only reads the backends.  Clients are
    proved against it. *)
Class PickerLaws (P : Type) `{Picker P} := {
  Order_spec : ∀ (p : P) (hs : list loc) (h : Heap),
    hs ≠ [] → Forall (allocated h) hs →
    ∃ p' out, runs (Order p hs) h (p', out) h ∧ out ≡ₚ hs;
  Order_reads : ∀ (p : P) (hs : list loc) (h : Heap) r h', runs (Order p hs) h r h' → h' = h
}.

(** ** The strategies *)

Record roundRobin := mkRoundRobin { next : Z }.
Record leastConn := mkLeastConn { rr : roundRobin }.

(** [start := int((r.next.Add(1) - 1) % uint64(n))], then one pass over the
    slice; an empty slice divides by zero. *)
Definition roundRobin_Order (r : roundRobin) (healthy : list loc) :
    prog Heap (roundRobin * list loc) :=
  let n := length healthy in
  let next' := uint64_add (next r) 1 in
  if (n =? 0)%nat then panic
  else
    let start := Z.to_nat (uint64_add next' (-1) mod Z.of_nat n) in
    out ← deref (λ _, mapM (λ i, healthy !! ((start + i) `mod` n)%nat) (seq 0 n));
    mret (mkRoundRobin next', out).

#[export] Instance roundRobin_Picker : Picker roundRobin := {|
  Name _ := "round-robin";
  Order := roundRobin_Order
|}.

(** The rotated copy, stably sorted by the number of in-flight connections. *)
Definition leastConn_Order (l : leastConn) (healthy : list loc) :
    prog Heap (leastConn * list loc) :=
  '(rr', out) ← roundRobin_Order (rr l) healthy;
  keyed ← mapM (λ b, n ← ActiveConns b; mret (n, b)) out;
  mret (mkLeastConn rr', (stable_sort fst keyed).*2).

#[export] Instance leastConn_Picker : Picker leastConn := {|
  Name _ := "least-conn";
  Order := leastConn_Order
|}.

(** A value of the interface type holds one of the two. *)
Inductive anyPicker :=
  | PickRoundRobin (r : roundRobin)
  | PickLeastConn (l : leastConn).

#[export] Instance anyPicker_Picker : Picker anyPicker := {|
  Name p := match p with PickRoundRobin r => Name r | PickLeastConn l => Name l end;
  Order p healthy :=
    match p with
    | PickRoundRobin r => '(r', out) ← Order r healthy; mret (PickRoundRobin r', out)
    | PickLeastConn l => '(l', out) ← Order l healthy; mret (PickLeastConn l', out)
    end
|}.

Definition newPicker (name : string) : option anyPicker :=
  if decide (name = "round-robin") then Some (PickRoundRobin (mkRoundRobin 0))
  else if decide (name = "least-conn") then Some (PickLeastConn (mkLeastConn (mkRoundRobin 0)))
  else None.

(** ** The pool *)

Record Pool (P : Type) := mkPool { backends : list loc; picker : P }.
Arguments mkPool {P} _ _.
Arguments backends {P} _.
Arguments picker {P} _.

(** [None] is the error for an unknown strategy name. *)
Definition NewPool (addrs : list string) (pickerName : string) :
    prog Heap (option (Pool anyPicker)) :=
  match newPicker pickerName with
  | None => mret None
  | Some pk =>
      bs ← for_fold (λ bs a, b ← alloc_backend (New a); mret (bs ++ [b])) [] addrs;
      mret (Some (mkPool bs pk))
  end.

(** The bodies of the loops of [HealthyCount] and [Candidates]. *)
Definition count_healthy (n : Z) (b : loc) : prog Heap Z :=
  ok ← Healthy b; mret (if (ok : bool) then n + 1 else n).
Definition add_healthy (hs : list loc) (b : loc) : prog Heap (list loc) :=
  ok ← Healthy b; mret (if (ok : bool) then hs ++ [b] else hs).

Section pool.
Context {P : Type} `{Picker P}.

(** A snapshot of the backend list. *)
Definition Backends (p : Pool P) : list loc := backends p.

Definition HealthyCount (p : Pool P) : prog Heap Z := for_fold count_healthy 0 (Backends p).

(** [Candidates] reads the list, then one backend after the other, and asks the
    strategy last; the other goroutines can get in between. *)
Definition order_healthy (p : Pool P) (all healthy : list loc) : prog Heap (Pool P * (list loc * bool)) :=
  match healthy with
  | [] => mret (p, (all, true))
  | _ =>
      '(pk, order) ← Order (picker p) healthy;
      mret (mkPool (backends p) pk, (order, false))
  end.

Definition Candidates (p : Pool P) : prog Heap (Pool P * (list loc * bool)) :=
  let all := Backends p in
  healthy ← for_fold add_healthy [] all;
  order_healthy p all healthy.

(** [current[b.Addr()] = b] for every backend, in order. *)
Definition current_map (bs : list loc) : prog Heap (gmap string loc) :=
  for_fold (λ m b, a ← Addr b; mret (<[a := b]> m)) ∅ bs.

Definition SetAddrs (p : Pool P) (addrs : list string) :
    prog Heap (Pool P * (list loc * list loc)) :=
  current ← current_map (backends p);
  '(nxt, added, keep) ← for_fold (λ '(nxt, added, keep) a,
      '(nxt', added') ←
        match (current : gmap string loc) !! a with
        | Some b => mret (nxt ++ [b], added)
        | None => b ← alloc_backend (New a); mret (nxt ++ [b], added ++ [b])
        end;
      mret (nxt', added', ({[a]} ∪ keep) : gset string)) ([], [], ∅) addrs;
  removed ← for_fold (λ r b, a ← Addr b;
                       mret (if decide (a ∈ keep) then r else r ++ [b])) [] (backends p);
  mret (mkPool nxt (picker p), (added, removed)).
End pool.

(** ** Round robin *)

Lemma roundRobin_Order_runs r hs h :
  hs ≠ [] →
  runs (Order r hs) h
    (mkRoundRobin (uint64_add (next r) 1),
     rotate (Z.to_nat ((next r mod 2 ^ 64) mod Z.of_nat (length hs))) hs) h.
Proof.
  intros Hne. unfold Order, roundRobin_Picker, roundRobin_Order.
  destruct hs as [|x hs]; [done|]. rewrite uint64_ticket.
  eapply runs_bind; [by apply runs_deref, mapM_rotate|]. done.
Qed.

Lemma roundRobin_Order_reads (r : roundRobin) hs h v h' : runs (Order r hs) h v h' → h' = h.
Proof.
  unfold Order, roundRobin_Picker, roundRobin_Order. destruct (_ =? _)%nat; [done|].
  intros (out & h1 & Hr & [= _ <-])%runs_bind_inv. by apply deref_inv in Hr as [_ ->].
Qed.

#[export] Instance roundRobin_laws : PickerLaws roundRobin.
Proof.
  split; [|apply roundRobin_Order_reads].
  intros p hs h Hne _. eexists _, _. split; [by apply roundRobin_Order_runs|apply rotate_perm].
Qed.

(** ** Least connections *)

(** The number of in-flight connections [ActiveConns] reports. *)
Definition active (h : Heap) (l : loc) : Z :=
  match h_backend h !! l with Some b => Z.of_nat (size (conns b)) | None => 0 end.

Lemma ActiveConns_runs h l : allocated h l → runs (ActiveConns l) h (active h l) h.
Proof.
  intros [b Hb]. unfold ActiveConns, active. rewrite Hb.
  by eapply runs_bind; [by apply runs_deref|].
Qed.

Lemma Healthy_runs h l b : h_backend h !! l = Some b → runs (Healthy l) h (healthy b) h.
Proof. intros Hb. by eapply runs_bind; [by apply runs_deref|]. Qed.

Lemma Addr_runs h l b : h_backend h !! l = Some b → runs (Addr l) h (addr b) h.
Proof. intros Hb. by eapply runs_bind; [by apply runs_deref|]. Qed.
#[export] Hint Resolve ActiveConns_runs Healthy_runs Addr_runs : go.

Lemma leastConn_Order_runs l hs h :
  hs ≠ [] → Forall (allocated h) hs →
  runs (Order l hs) h
    (mkLeastConn (mkRoundRobin (uint64_add (next (rr l)) 1)),
     stable_sort (active h)
       (rotate (Z.to_nat ((next (rr l) mod 2 ^ 64) mod Z.of_nat (length hs))) hs)) h.
Proof.
  intros Hne Hall. unfold Order at 1, leastConn_Picker, leastConn_Order.
  eapply runs_bind; [by apply roundRobin_Order_runs|]. simpl.
  set (rot := rotate _ hs).
  eapply runs_bind.
  - apply (runs_mapM_read _ (λ b, (active h b, b))). subst rot. rewrite rotate_perm.
    eapply Forall_impl; [exact Hall|]. intros b Hb. simpl.
    by eapply runs_bind; [by apply ActiveConns_runs|].
  - rewrite stable_sort_map. unfold runs, mret, prog_ret. do 3 f_equal.
    simpl. rewrite <- list_fmap_compose. by apply list_fmap_id.
Qed.

Lemma leastConn_Order_reads (l : leastConn) hs h v h' : runs (Order l hs) h v h' → h' = h.
Proof.
  intros ([rr' out] & h1 & ->%roundRobin_Order_reads & (keyed & h2 & Hk & [= _ <-])%runs_bind_inv)%runs_bind_inv.
  clear l. revert keyed Hk. induction out as [|b out IH]; intros keyed Hk; [by injection Hk as _ ->|].
  apply runs_bind_inv in Hk as (x & h1 & (n & h3 & (bk & h4 & [_ ->]%deref_inv & [= _ <-])%runs_bind_inv &
    [= _ <-])%runs_bind_inv & (xs & h5 & Hk & [= _ <-])%runs_bind_inv).
  by eapply IH.
Qed.

#[export] Instance leastConn_laws : PickerLaws leastConn.
Proof.
  split; [|apply leastConn_Order_reads].
  intros p hs h Hne Hall. eexists _, _. split; [by apply leastConn_Order_runs|].
  by rewrite stable_sort_perm, rotate_perm.
Qed.

#[export] Instance anyPicker_laws : PickerLaws anyPicker.
Proof.
  split; [|by intros [r|l] hs h v h' ([p' out] & h1 & Hr & [= _ <-])%runs_bind_inv; apply Order_reads in Hr].
  intros [r|l] hs h Hne Hall.
  - destruct (Order_spec r hs h Hne Hall) as (r' & out & Hr & Hp).
    exists (PickRoundRobin r'), out. split; [|done]. by eapply runs_bind.
  - destruct (Order_spec l hs h Hne Hall) as (l' & out & Hr & Hp).
    exists (PickLeastConn l'), out. split; [|done]. by eapply runs_bind.
Qed.

(** ** Candidates *)

Definition is_healthy (h : Heap) (l : loc) : bool :=
  match h_backend h !! l with Some b => healthy b | None => false end.

Definition healthy_of (h : Heap) (bs : list loc) : list loc :=
  filter (λ l, is_healthy h l = true) bs.

Lemma is_healthy_Some h l b : h_backend h !! l = Some b → is_healthy h l = healthy b.
Proof. unfold is_healthy. by intros ->. Qed.

Lemma healthy_of_allocated h bs : Forall (allocated h) bs → Forall (allocated h) (healthy_of h bs).
Proof.
  rewrite !Forall_forall. intros Hall x [_ Hx]%list_elem_of_filter. by apply Hall.
Qed.

Lemma count_healthy_runs n h l : allocated h l →
  runs (count_healthy n l) h (if is_healthy h l then n + 1 else n) h.
Proof. intros [b Hb]. eapply runs_bind; [by apply Healthy_runs|]. by rewrite (is_healthy_Some _ _ _ Hb). Qed.
Lemma add_healthy_runs hs h l : allocated h l →
  runs (add_healthy hs l) h (if is_healthy h l then hs ++ [l] else hs) h.
Proof. intros [b Hb]. eapply runs_bind; [by apply Healthy_runs|]. by rewrite (is_healthy_Some _ _ _ Hb). Qed.

(** Loops over the backend list that only read it. *)
Section read_loops.
Context (h : Heap) (bs : list loc) (Hall : Forall (allocated h) bs).

Lemma read_loop {B} (f : B → loc → prog Heap B) (g : list loc → B) :
  (∀ pre l, allocated h l → runs (f (g pre) l) h (g (pre ++ [l])) h) →
  runs (for_fold f (g []) bs) h (g bs) h.
Proof.
  intros Hstep.
  destruct (runs_for_fold f (λ pre c t, t = h ∧ c = g pre) bs (g []) h)
    as (b' & s' & Hr & -> & ->); [done| |done].
  intros pre x post c t Hbs [-> ->].
  rewrite Hbs, Forall_app, Forall_cons in Hall. destruct Hall as (_ & Hx & _).
  eexists _, h. split; [by eapply Hstep|done].
Qed.

Lemma healthy_of_snoc pre l :
  healthy_of h (pre ++ [l]) = if is_healthy h l then healthy_of h pre ++ [l] else healthy_of h pre.
Proof.
  unfold healthy_of. rewrite filter_app, filter_cons, filter_nil. destruct (is_healthy h l); simpl; by rewrite ?app_nil_r.
Qed.

Lemma healthy_loop : runs (for_fold add_healthy [] bs) h (healthy_of h bs) h.
Proof.
  apply (read_loop _ (healthy_of h)). intros pre l Hl. rewrite healthy_of_snoc. by apply add_healthy_runs.
Qed.

Lemma healthy_count_loop : runs (for_fold count_healthy 0 bs) h (Z.of_nat (length (healthy_of h bs))) h.
Proof.
  apply (read_loop _ (λ pre, Z.of_nat (length (healthy_of h pre)))). intros pre l Hl.
  pose proof (count_healthy_runs (Z.of_nat (length (healthy_of h pre))) h l Hl) as Hr.
  rewrite healthy_of_snoc. destruct (is_healthy h l); [|done]. rewrite length_app, Nat2Z.inj_add. exact Hr.
Qed.
End read_loops.

Section candidates.
Context {P : Type} `{PickerLaws P}.

Lemma HealthyCount_runs (p : Pool P) h :
  Forall (allocated h) (backends p) →
  runs (HealthyCount p) h (Z.of_nat (length (healthy_of h (backends p)))) h.
Proof. apply healthy_count_loop. Qed.

(** The last step of [Candidates], whatever list it collected. *)
Lemma order_healthy_runs (p : Pool P) (all hs : list loc) h : Forall (allocated h) hs →
  ∃ p' out degraded, runs (order_healthy p all hs) h (p', (out, degraded)) h ∧ backends p' = backends p ∧
    (degraded = true ↔ hs = []) ∧ out ≡ₚ (if degraded then all else hs) ∧ (degraded = true → out = all).
Proof.
  intros Hall. destruct hs as [|x l]; [by exists p, all, true|].
  destruct (Order_spec (picker p) (x :: l) h) as (pk & out & Ho & Hp); [done..|].
  exists (mkPool (backends p) pk), out, false. by split; [by eapply runs_bind|].
Qed.

Lemma order_healthy_reads (p : Pool P) (all hs : list loc) h p' out h' :
  order_healthy p all hs h = Some (p', out, h') → h' = h ∧ backends p' = backends p.
Proof.
  destruct hs as [|x l]; [by intros [= <- <- <-]|].
  by intros ([pk order] & h1 & ->%Order_reads & [= <- <- <-])%runs_bind_inv.
Qed.

Lemma Candidates_degraded (p : Pool P) h :
  Forall (allocated h) (backends p) → healthy_of h (backends p) = [] →
  runs (Candidates p) h (p, (backends p, true)) h.
Proof.
  intros Hall Hh. unfold Candidates.
  eapply runs_bind; [by apply healthy_loop|]. unfold Backends. by rewrite Hh.
Qed.

Lemma Candidates_order (p : Pool P) h pk out :
  Forall (allocated h) (backends p) → healthy_of h (backends p) ≠ [] →
  runs (Order (picker p) (healthy_of h (backends p))) h (pk, out) h →
  runs (Candidates p) h (mkPool (backends p) pk, (out, false)) h.
Proof.
  intros Hall Hh Ho. unfold Candidates.
  eapply runs_bind; [by apply healthy_loop|]. unfold Backends.
  destruct (healthy_of h (backends p)) as [|x l]; [done|].
  by eapply runs_bind.
Qed.

Lemma Candidates_runs (p : Pool P) (h : Heap) :
  Forall (allocated h) (backends p) →
  ∃ p' out degraded,
    runs (Candidates p) h (p', (out, degraded)) h ∧ backends p' = backends p ∧
    (degraded = true ↔ healthy_of h (backends p) = []) ∧
    out ≡ₚ (if degraded then backends p else healthy_of h (backends p)) ∧
    (degraded = true → out = backends p).
Proof.
  intros Hall.
  destruct (order_healthy_runs p (backends p) (healthy_of h (backends p)) h) as (p' & out & d & Hr & Hrest);
    [by apply healthy_of_allocated|].
  exists p', out, d. split; [|done]. eapply runs_bind; [by apply healthy_loop|done].
Qed.

(** C8. [Candidates] never panics and never loses or repeats a backend, for
    every strategy that keeps the [Picker] contract: while some backend is
    healthy it returns exactly the healthy ones, each once; when none is, it
    returns the whole list in list order and says so.  It leaves every backend
    and the pool's own list alone. *)
Theorem Candidates_complete (p : Pool P) (h : Heap)
    (Hall : Forall (allocated h) (backends p)) :
  ∃ p' out degraded,
    runs (Candidates p) h (p', (out, degraded)) h ∧ backends p' = backends p ∧
    (degraded = true ↔ healthy_of h (backends p) = []) ∧
    out ≡ₚ (if degraded then backends p else healthy_of h (backends p)) ∧
    (degraded = true → out = backends p).
Proof. by apply Candidates_runs. Qed.
End candidates.

(** The first candidates of [k] consecutive calls. *)
Fixpoint first_picks {P} `{Picker P} (k : nat) (p : Pool P) : prog Heap (Pool P * list loc) :=
  match k with
  | 0%nat => mret (p, [])
  | S k' =>
      '(p1, (order, _)) ← Candidates p;
      b ← deref (λ _, head order);
      '(p2, bs) ← first_picks k' p1;
      mret (p2, b :: bs)
  end.

Lemma first_picks_cyclic bs hs t k r h :
  Forall (allocated h) bs → healthy_of h bs = hs → hs ≠ [] →
  0 <= t → t + Z.of_nat k <= 2 ^ 64 → (k ≠ 0%nat → next r = t) →
  ∃ p', runs (first_picks k (mkPool bs r)) h
          (p', cyclic (Z.to_nat (t mod Z.of_nat (length hs))) hs <$> seq 0 k) h.
Proof.
  intros Hall <- Hne. revert t r. induction k as [|k IH]; intros t r Ht Hk Hr; [by eexists|].
  specialize (Hr ltac:(done)). subst t. set (hs := healthy_of h bs) in *.
  assert (length hs ≠ 0%nat) as Hn by (by destruct hs).
  destruct (IH (next r + 1) (mkRoundRobin (uint64_add (next r) 1))) as [p' Hp']; [lia..| |].
  { intros Hk0. simpl. apply uint64_add_small. lia. }
  exists p'. simpl.
  eapply runs_bind.
  { apply (Candidates_order (mkPool bs r)); [done|exact Hne|]. by apply roundRobin_Order_runs. }
  simpl. eapply runs_bind; [apply runs_deref; by apply head_rotate|].
  eapply runs_bind; [exact Hp'|]. unfold runs, mret, prog_ret. do 3 f_equal. fold hs.
  rewrite (Z.mod_small (next r)) by lia. f_equal.
  rewrite <- fmap_S_seq, <- list_fmap_compose. apply list_fmap_ext. intros _ i _. simpl.
  unfold cyclic. f_equal. apply Nat2Z.inj.
  rewrite !Nat2Z.inj_mod, !Nat2Z.inj_add, !Z2Nat.id by (apply Z.mod_pos_bound; lia).
  rewrite !Zplus_mod_idemp_l. f_equal. lia.
Qed.

(** C28. Round robin is fair: while the set of healthy backends stays the same
    and the 64-bit counter does not wrap, [k] full turns of consecutive
    connections put every healthy backend first exactly [k] times. *)
Theorem roundRobin_fair (bs : list loc) (r : roundRobin) (k : nat) (h : Heap)
    (Hall : Forall (allocated h) bs) (Hne : healthy_of h bs ≠ [])
    (Hpos : 0 <= next r)
    (Hwrap : next r + Z.of_nat (k * length (healthy_of h bs)) <= 2 ^ 64) :
  ∃ p' firsts,
    runs (first_picks (k * length (healthy_of h bs)) (mkPool bs r)) h (p', firsts) h ∧
    firsts ≡ₚ concat (replicate k (healthy_of h bs)).
Proof.
  destruct (first_picks_cyclic bs (healthy_of h bs) (next r)
    (k * length (healthy_of h bs)) r h) as [p' Hp']; [done..|].
  eexists p', _. split; [exact Hp'|]. apply cyclic_turns.
Qed.

(** C29. Least-conn: the candidates are the healthy backends in ascending order
    of in-flight connections (so the first is a least loaded one), and backends
    with equal counts keep the order of the round-robin rotation, whose counter
    advances by one. *)
Theorem leastConn_sorted (l : leastConn) (bs : list loc) (h : Heap)
    (Hall : Forall (allocated h) bs) (Hne : healthy_of h bs ≠ []) :
  let hs := healthy_of h bs in
  let start := Z.to_nat ((next (rr l) mod 2 ^ 64) mod Z.of_nat (length hs)) in
  ∃ out,
    runs (Candidates (mkPool bs l)) h
      (mkPool bs (mkLeastConn (mkRoundRobin (uint64_add (next (rr l)) 1))), (out, false)) h ∧
    out ≡ₚ hs ∧
    StronglySorted (λ b b', active h b <= active h b') out ∧
    (∀ n, filter (λ b, active h b = n) out = filter (λ b, active h b = n) (rotate start hs)) ∧
    (∀ b0 b, head out = Some b0 → b ∈ hs → active h b0 <= active h b).
Proof.
  intros hs start. exists (stable_sort (active h) (rotate start hs)).
  assert (stable_sort (active h) (rotate start hs) ≡ₚ hs) as Hp
    by (by rewrite stable_sort_perm, rotate_perm).
  pose proof (stable_sort_sorted (active h) (rotate start hs)) as Hs.
  split; [|split; [done|split; [done|split]]].
  - apply Candidates_order; [done..|].
    by apply leastConn_Order_runs; [|apply healthy_of_allocated].
  - intros n. apply (stable_sort_stable (active h)).
  - intros b0 b Hb0 Hb. rewrite <- Hp in Hb.
    destruct (stable_sort (active h) (rotate start hs)) as [|x out]; simplify_eq/=.
    apply elem_of_cons in Hb as [->|Hb]; [lia|].
    apply StronglySorted_inv in Hs as [_ Hs]. rewrite Forall_forall in Hs. by apply Hs.
Qed.

(** ** Reconciling the backend set *)

Definition has_addr (h : Heap) (l : loc) (a : string) : Prop :=
  ∃ b, h_backend h !! l = Some b ∧ addr b = a.

(** A pool's backends, with their addresses, each address once. *)
Record wf_pool {P} (h : Heap) (p : Pool P) (addrs : list string) : Prop := {
  wf_addrs : Forall2 (has_addr h) (backends p) addrs;
  wf_nodup : NoDup addrs
}.

Lemma has_addr_inj h l a a' : has_addr h l a → has_addr h l a' → a = a'.
Proof. intros (b & Hb & <-) (b' & Hb' & <-). by simplify_eq. Qed.

Lemma wf_pool_allocated {P} h (p : Pool P) addrs :
  wf_pool h p addrs → Forall (allocated h) (backends p).
Proof.
  intros [Hf _]. induction Hf as [|l a ls as_ (b & Hb & _) _ IH]; constructor; [by exists b|done].
Qed.

(** What [SetAddrs] promises: the new list is [addrs] in order; a backend whose
    address stays is the same object in the same state; the others are new and
    healthy; [added] and [removed] are exactly the difference. *)
Record reconciled {P} (h : Heap) (p : Pool P) (addrs : list string)
    (h' : Heap) (p' : Pool P) (added removed : list loc) : Prop := {
  rec_pool : wf_pool h' p' addrs;
  rec_picker : picker p' = picker p;
  rec_state : ∀ l b, h_backend h !! l = Some b → h_backend h' !! l = Some b;
  rec_tracked : h_tracked h' = h_tracked h;
  rec_conn : h_conn h' = h_conn h;
  rec_kept : ∀ l a, has_addr h l a → l ∈ backends p' ↔ l ∈ backends p ∧ a ∈ addrs;
  rec_added : ∀ l, l ∈ added ↔ l ∈ backends p' ∧ h_backend h !! l = None;
  rec_fresh : ∀ l, l ∈ added →
    ∃ a, a ∈ addrs ∧ h_backend h' !! l = Some (New a) ∧ ∀ l0, l0 ∈ backends p → ¬ has_addr h l0 a;
  rec_removed : ∀ l a, has_addr h l a → l ∈ removed ↔ l ∈ backends p ∧ a ∉ addrs;
  rec_removed_sub : removed `sublist_of` backends p;
  rec_wf : wf_heap h → wf_heap h'
}.

Section set_addrs.
Context {P : Type}.

Lemma wf_pool_inj h (p : Pool P) addrs l l' a :
  wf_pool h p addrs → l ∈ backends p → l' ∈ backends p →
  has_addr h l a → has_addr h l' a → l = l'.
Proof.
  intros [Hf Hnd] [i Hi]%list_elem_of_lookup [j Hj]%list_elem_of_lookup Ha Ha'.
  destruct (Forall2_lookup_l _ _ _ _ _ Hf Hi) as (ai & Hai & Hia).
  destruct (Forall2_lookup_l _ _ _ _ _ Hf Hj) as (aj & Haj & Hja).
  assert (ai = a) as -> by eauto using has_addr_inj.
  assert (aj = a) as -> by eauto using has_addr_inj.
  assert (i = j) as -> by (eapply NoDup_lookup; eauto). congruence.
Qed.

Lemma wf_pool_NoDup h (p : Pool P) addrs : wf_pool h p addrs → NoDup (backends p).
Proof.
  intros Hwf. pose proof Hwf as [Hf Hnd]. apply NoDup_alt. intros i j l Hi Hj.
  destruct (Forall2_lookup_l _ _ _ _ _ Hf Hi) as (ai & Hai & Hia).
  destruct (Forall2_lookup_l _ _ _ _ _ Hf Hj) as (aj & Haj & Hja).
  assert (ai = aj) as -> by eauto using has_addr_inj. by eapply NoDup_lookup.
Qed.

Lemma has_addr_mono h h' l a :
  (∀ l b, h_backend h !! l = Some b → h_backend h' !! l = Some b) →
  has_addr h l a → has_addr h' l a.
Proof. intros Hm (b & Hb & Ha). exists b. auto. Qed.

Definition is_current (h : Heap) (bs : list loc) (m : gmap string loc) : Prop :=
  ∀ a l, m !! a = Some l ↔ l ∈ bs ∧ has_addr h l a.

Lemma current_map_runs h (p : Pool P) addrs :
  wf_pool h p addrs → ∃ m, runs (current_map (backends p)) h m h ∧ is_current h (backends p) m.
Proof.
  intros Hwf. pose proof (wf_pool_allocated _ _ _ Hwf) as Hall.
  destruct (runs_for_fold (λ m b, a ← Addr b; mret (<[a := b]> m))
    (λ pre m t, t = h ∧ is_current h pre m) (backends p) ∅ h) as (m & s' & Hr & -> & Hm).
  - split; [done|]. intros a l. rewrite lookup_empty, elem_of_nil. naive_solver.
  - intros pre x post m t Hbs [-> Hm].
    assert (allocated h x) as [b Hb].
    { rewrite Hbs, Forall_app, Forall_cons in Hall. naive_solver. }
    eexists _, h. split; [eapply runs_bind; [by apply Addr_runs|done]|].
    split; [done|]. intros a l. rewrite lookup_insert_Some, elem_of_app, elem_of_cons, elem_of_nil.
    assert (has_addr h x (addr b)) as Hx by (by exists b).
    split.
    + intros [[<- <-]|[Hne [Hin Ha]%Hm]]; eauto.
    + intros [[Hin|[->|[]]] Ha].
      * destruct (decide (addr b = a)) as [<-|Hne]; [|right; by rewrite (Hm a l)].
        left. split; [done|]. eapply wf_pool_inj; eauto; rewrite Hbs; set_solver.
      * left. split; [|done]. eapply has_addr_inj; eauto.
  - by exists m.
Qed.

(** The state of the loop that builds the new list, after the prefix [pre]. *)
Record adding (h : Heap) (bs : list loc) (current : gmap string loc) (pre : list string)
    (nxt added : list loc) (keep : gset string) (t : Heap) : Prop := {
  ad_addrs : Forall2 (has_addr t) nxt pre;
  ad_state : ∀ l b, h_backend h !! l = Some b → h_backend t !! l = Some b;
  ad_tracked : h_tracked t = h_tracked h;
  ad_conn : h_conn t = h_conn h;
  ad_wf : wf_heap h → wf_heap t;
  ad_keep : keep = list_to_set pre;
  ad_kept : ∀ l a, has_addr h l a → l ∈ nxt ↔ l ∈ bs ∧ a ∈ pre;
  ad_added : ∀ l, l ∈ added ↔ l ∈ nxt ∧ h_backend h !! l = None;
  ad_fresh : ∀ l, l ∈ added →
    ∃ a, a ∈ pre ∧ h_backend t !! l = Some (New a) ∧ current !! a = None
}.

Lemma adding_nil h bs current : adding h bs current [] [] [] ∅ h.
Proof. by split; set_solver. Qed.

Lemma adding_kept h (p : Pool P) addrs current pre nxt added keep t a l :
  wf_pool h p addrs → is_current h (backends p) current →
  adding h (backends p) current pre nxt added keep t → current !! a = Some l →
  adding h (backends p) current (pre ++ [a]) (nxt ++ [l]) added ({[a]} ∪ keep) t.
Proof.
  intros Hwf Hcur [H1 H2 H3 H4 H5 H6 H7 H8 H9] [Hin Ha]%Hcur.
  split; try done.
  - apply Forall2_app; [done|]. constructor; [|done]. by eapply has_addr_mono.
  - rewrite H6, list_to_set_app_L. set_solver.
  - intros l' a' Ha'. rewrite !elem_of_app, !elem_of_cons, !elem_of_nil, (H7 _ _ Ha').
    split.
    + intros [[? ?]|[->|[]]]; [by eauto|]. split; [done|]. right; left. eapply has_addr_inj; eauto.
    + intros [Hin' [?|[->|[]]]]; [by eauto|]. right; left. by eapply wf_pool_inj.
  - intros l'. rewrite H8, elem_of_app, elem_of_cons, elem_of_nil. destruct Ha as (b & Hb & _).
    split; [naive_solver|]. intros [[?|[->|[]]] ?]; [done|congruence].
  - intros l' (a' & ? & ? & ?)%H9. exists a'. set_solver.
Qed.

Lemma adding_new h bs current pre nxt added keep t a :
  is_current h bs current → adding h bs current pre nxt added keep t → current !! a = None →
  let l := fresh_loc (h_backend t) in
  adding h bs current (pre ++ [a]) (nxt ++ [l]) (added ++ [l]) ({[a]} ∪ keep)
    (mkHeap (<[l := New a]> (h_backend t)) (h_tracked t) (h_conn t)).
Proof.
  intros Hcur [H1 H2 H3 H4 H5 H6 H7 H8 H9] Hnone l.
  pose proof (fresh_loc_None (h_backend t)) as Hfresh. fold l in Hfresh.
  assert (h_backend h !! l = None) as Hl.
  { destruct (h_backend h !! l) as [b|] eqn:E; [|done]. apply H2 in E. congruence. }
  assert (∀ l' b, h_backend t !! l' = Some b → <[l := New a]> (h_backend t) !! l' = Some b) as Hm
    by (intros l' b Hb; rewrite lookup_insert_ne; congruence).
  split; simpl; try done.
  - apply Forall2_app.
    + eapply Forall2_impl; [done|]. intros l' a'. by apply has_addr_mono.
    + constructor; [|done]. exists (New a). simpl. by rewrite lookup_insert_eq.
  - auto.
  - intros Hwf. by apply alloc_backend_wf, H5.
  - rewrite H6, list_to_set_app_L. set_solver.
  - intros l' a' Ha'. rewrite !elem_of_app, !elem_of_cons, !elem_of_nil, (H7 _ _ Ha').
    split.
    + intros [[? ?]|[->|[]]]; [by eauto|]. destruct Ha' as (b & Hb & _). congruence.
    + intros [Hin [?|[->|[]]]]; [by eauto|]. assert (current !! a = Some l') by by apply Hcur.
      congruence.
  - intros l'. rewrite !elem_of_app, H8, !elem_of_cons, !elem_of_nil. naive_solver.
  - intros l'. rewrite elem_of_app, elem_of_cons, elem_of_nil. intros [Hin|[->|[]]].
    + destruct (H9 _ Hin) as (a' & ? & ? & ?). exists a'. split; [set_solver|]. auto.
    + exists a. rewrite lookup_insert_eq. split; [set_solver|done].
Qed.

Lemma removed_runs h t (p : Pool P) addrs keep :
  wf_pool h p addrs → (∀ l b, h_backend h !! l = Some b → h_backend t !! l = Some b) →
  ∃ r, runs (for_fold (λ r b, a ← Addr b; mret (if decide (a ∈ (keep : gset string)) then r
               else r ++ [b])) [] (backends p)) t r t ∧
    r `sublist_of` backends p ∧
    (∀ l a, has_addr h l a → l ∈ r ↔ l ∈ backends p ∧ a ∉ keep).
Proof.
  intros Hwf Hm. pose proof (wf_pool_allocated _ _ _ Hwf) as Hall.
  destruct (runs_for_fold (λ r b, a ← Addr b; mret (if decide (a ∈ (keep : gset string)) then r
               else r ++ [b]))
    (λ pre r s, s = t ∧ r `sublist_of` pre ∧
       ∀ l a, has_addr h l a → l ∈ r ↔ l ∈ pre ∧ a ∉ keep) (backends p) [] t)
    as (r & s & Hr & -> & Hsub & Hin).
  - split; [done|]. split; [done|]. intros l a _. rewrite elem_of_nil. naive_solver.
  - intros pre x post r s Hbs (-> & Hsub & Hin).
    assert (allocated h x) as [b Hb].
    { rewrite Hbs, Forall_app, Forall_cons in Hall. naive_solver. }
    eexists _, t. split; [eapply runs_bind; [by apply Addr_runs, Hm|done]|]. split; [done|].
    assert (has_addr h x (addr b)) as Hx by (by exists b).
    split.
    + case_decide; [by apply sublist_inserts_r|by apply sublist_app].
    + intros l a Ha. rewrite elem_of_app, elem_of_cons, elem_of_nil.
      case_decide; rewrite ?elem_of_app, ?elem_of_cons, ?elem_of_nil, (Hin l a Ha).
      * split; [by intros []; auto|]. intros [[?|[->|[]]] ?]; [done|].
        assert (a = addr b) as -> by eauto using has_addr_inj. done.
      * split; [|naive_solver]. intros [[? ?]|[->|[]]]; [by auto|]. split; [by auto|].
        assert (a = addr b) as -> by eauto using has_addr_inj. done.
  - by exists r.
Qed.

Lemma SetAddrs_runs (p : Pool P) (old addrs : list string) (h : Heap) :
  wf_pool h p old → NoDup addrs →
  ∃ p' added removed h',
    runs (SetAddrs p addrs) h (p', (added, removed)) h' ∧
    reconciled h p addrs h' p' added removed.
Proof.
  intros Hwf Hnd.
  destruct (current_map_runs h p old Hwf) as (m & Hcr & Hcur).
  unfold SetAddrs.
  destruct (runs_for_fold (λ '(nxt, added, keep) a,
      '(nxt', added') ←
        match (m : gmap string loc) !! a with
        | Some b => mret (nxt ++ [b], added)
        | None => b ← alloc_backend (New a); mret (nxt ++ [b], added ++ [b])
        end;
      mret (nxt', added', ({[a]} ∪ keep) : gset string))
    (λ pre '(nxt, added, keep) t, adding h (backends p) m pre nxt added keep t)
    addrs ([], [], ∅) h) as ([[nxt added] keep] & h' & Hr & Had); [apply adding_nil| |].
  { intros pre a post [[nxt added] keep] t _ Had. destruct (m !! a) as [l|] eqn:Hl.
    - eexists (_, _, _), _. split; [done|]. by eapply adding_kept.
    - eexists (_, _, _), _. split; [done|]. by apply adding_new. }
  destruct Had as [H1 H2 H3 H4 H5 H6 H7 H8 H9].
  destruct (removed_runs h h' p old keep Hwf H2) as (removed & Hrr & Hsub & Hrem).
  exists (mkPool nxt (picker p)), added, removed, h'. split.
  { eapply runs_bind; [exact Hcr|]. eapply runs_bind; [exact Hr|]. by eapply runs_bind. }
  split; simpl; try done.
  - intros l (a & Ha & Hl & Hna)%H9. exists a. split; [done|]. split; [done|].
    intros l0 Hl0 Hla. assert (m !! a = Some l0) by by apply Hcur. congruence.
  - intros l a Ha. rewrite (Hrem l a Ha), H6. by rewrite elem_of_list_to_set.
Qed.
(** C6. [SetAddrs] reconciles: given distinct addresses it never panics and
    satisfies the [reconciled] contract, in particular every backend whose
    address stays keeps its identity, health state, connections and counters. *)
Theorem SetAddrs_reconciles (p : Pool P) (old addrs : list string) (h : Heap)
    (Hwf : wf_pool h p old) (Hnd : NoDup addrs) :
  ∃ p' added removed h',
    runs (SetAddrs p addrs) h (p', (added, removed)) h' ∧
    reconciled h p addrs h' p' added removed.
Proof. by eapply SetAddrs_runs. Qed.
End set_addrs.

Lemma NewPool_pool_runs addrs pk h :
  NoDup addrs →
  ∃ bs h', runs (for_fold (λ bs a, b ← alloc_backend (New a); mret (bs ++ [b])) [] addrs) h bs h' ∧
    wf_pool h' (mkPool bs pk : Pool anyPicker) addrs ∧ healthy_of h' bs = bs ∧
    (wf_heap h → wf_heap h').
Proof.
  intros Hnd.
  destruct (runs_for_fold (λ bs a, b ← alloc_backend (New a); mret (bs ++ [b]))
    (λ pre bs t, Forall2 (λ l a, h_backend t !! l = Some (New a)) bs pre ∧ (wf_heap h → wf_heap t))
    addrs [] h) as (bs & h' & Hr & Hf & Hw).
  - by split; [constructor|].
  - intros pre a post bs t _ [Hf Hw]. eexists _, _. split; [done|].
    split; [|intros; by apply alloc_backend_wf, Hw]. apply Forall2_app; simpl.
    + eapply Forall2_impl; [done|]. intros l b Hb. simpl in *.
      rewrite lookup_insert_ne; [done|]. intros <-. by rewrite fresh_loc_None in Hb.
    + constructor; [|done]. by rewrite lookup_insert_eq.
  - exists bs, h'. split; [done|]. split; [|split; [|done]].
    + split; [|done]. eapply Forall2_impl; [done|]. intros l a Hl. by exists (New a).
    + clear -Hf. induction Hf as [|l a bs as_ Hl _ IH]; [done|].
      unfold healthy_of in *. rewrite filter_cons, (is_healthy_Some _ _ _ Hl). simpl. by rewrite IH.
Qed.

(** [NewPool] builds the pool the program starts with: for either strategy
    name, one healthy backend per address in the order given; any other name is
    an error and allocates nothing. *)
Theorem NewPool_starts_healthy (addrs : list string) (name : string) (h : Heap)
    (Hnd : NoDup addrs) :
  if decide (name = "round-robin" ∨ name = "least-conn") then
    ∃ p h', runs (NewPool addrs name) h (Some p) h' ∧ wf_pool h' p addrs ∧
      Name (picker p) = name ∧ healthy_of h' (backends p) = backends p ∧
      (wf_heap h → wf_heap h')
  else runs (NewPool addrs name) h None h.
Proof.
  unfold NewPool, newPicker.
  destruct (decide (name = "round-robin")) as [->|Hr];
    [|destruct (decide (name = "least-conn")) as [->|Hl]].
  1: rewrite decide_True by auto; set (pk := PickRoundRobin _).
  2: rewrite decide_True by auto; set (pk := PickLeastConn _).
  1-2: destruct (NewPool_pool_runs addrs pk h Hnd) as (bs & h' & Hrun & Hwf & Hh & Hheap);
    exists (mkPool bs pk), h'; split; [by eapply runs_bind|done].
  by rewrite decide_False by naive_solver.
Qed.

(** ** Witnesses *)

Definition demo_pool : Pool roundRobin := mkPool [2%positive; 3%positive] (mkRoundRobin 7).

Lemma demo_pool_wf : wf_pool demo_heap demo_pool ["10.0.0.1:6443"; "10.0.0.2:6443"].
Proof.
  split; [|by apply (bool_decide_unpack _); vm_compute].
  repeat constructor; eexists; (split; [by vm_compute|done]).
Qed.

Lemma demo_pool_allocated : Forall (allocated demo_heap) (backends demo_pool).
Proof. exact (wf_pool_allocated _ _ _ demo_pool_wf). Qed.

Lemma Candidates_complete_witness :
  ∃ p' out, runs (Candidates demo_pool) demo_heap (p', (out, false)) demo_heap ∧ length out = 2%nat.
Proof.
  destruct (Candidates_complete demo_pool demo_heap demo_pool_allocated)
    as (p' & out & deg & Hr & _ & Hdeg & Hp & _).
  destruct deg.
  - exfalso. assert (H : healthy_of demo_heap (backends demo_pool) = []) by (apply Hdeg; reflexivity).
    vm_compute in H. discriminate H.
  - exists p', out. split; [exact Hr|]. apply Permutation_length in Hp. exact Hp.
Defined.

Lemma roundRobin_fair_witness :
  ∃ p' firsts,
    runs (first_picks 6 demo_pool) demo_heap (p', firsts) demo_heap ∧
    firsts ≡ₚ [2; 3; 2; 3; 2; 3]%positive.
Proof.
  apply (roundRobin_fair [2%positive; 3%positive] (mkRoundRobin 7) 3 demo_heap
    demo_pool_allocated); [intros E; vm_compute in E; discriminate E|vm_compute; discriminate|
    vm_compute; discriminate].
Defined.

Lemma leastConn_sorted_witness :
  ∃ out, runs (Candidates (mkPool [2%positive; 3%positive] (mkLeastConn (mkRoundRobin 7)))) demo_heap
      (mkPool [2%positive; 3%positive] (mkLeastConn (mkRoundRobin 8)), (out, false)) demo_heap ∧
    StronglySorted (λ b b', active demo_heap b <= active demo_heap b') out.
Proof.
  destruct (leastConn_sorted (mkLeastConn (mkRoundRobin 7)) [2%positive; 3%positive] demo_heap
    demo_pool_allocated) as (out & Hr & _ & Hs & _).
  - intros E; vm_compute in E; discriminate E.
  - exists out. split; [exact Hr|exact Hs].
Defined.

Lemma SetAddrs_reconciles_witness :
  ∃ p' added removed h',
    runs (SetAddrs demo_pool ["10.0.0.2:6443"; "10.0.0.3:6443"]) demo_heap
      (p', (added, removed)) h' ∧
    3%positive ∈ backends p' ∧ 2%positive ∈ removed.
Proof.
  destruct (SetAddrs_reconciles demo_pool ["10.0.0.1:6443"; "10.0.0.2:6443"]
    ["10.0.0.2:6443"; "10.0.0.3:6443"] demo_heap demo_pool_wf) as (p' & added & removed & h' & Hr & Hc).
  - apply (bool_decide_unpack _). by vm_compute.
  - exists p', added, removed, h'. split; [exact Hr|]. split.
    + apply (rec_kept _ _ _ _ _ _ _ Hc 3%positive "10.0.0.2:6443").
      * eexists; split; [by vm_compute|done].
      * split; [apply (bool_decide_unpack _); by vm_compute|
          apply (bool_decide_unpack _); by vm_compute].
    + apply (rec_removed _ _ _ _ _ _ _ Hc 2%positive "10.0.0.1:6443").
      * eexists; split; [by vm_compute|done].
      * split; [apply (bool_decide_unpack _); by vm_compute|
          apply (bool_decide_unpack _); by vm_compute].
Defined.

Lemma NewPool_starts_healthy_witness :
  ∃ p h', runs (NewPool ["10.0.0.1:6443"; "10.0.0.2:6443"] "least-conn") empty_heap (Some p) h' ∧
    healthy_of h' (backends p) = backends p.
Proof.
  destruct (NewPool_starts_healthy ["10.0.0.1:6443"; "10.0.0.2:6443"] "least-conn" empty_heap)
    as (p & h' & Hr & _ & _ & Hh & _).
  - apply (bool_decide_unpack _). by vm_compute.
  - exists p, h'. split; [exact Hr|exact Hh].
Defined.
