(* ===== verification/GoStrings.v ===== *)
(** The functions of Go's [strings] and [strconv] packages the program calls,
    on byte strings. *)
From Stdlib Require Export Ascii.
From S2P Require Import Prelude.

#[global] Open Scope char_scope.
#[global] Open Scope Z_scope.
#[global] Open Scope stdpp_scope.

(** ** Slicing: [s[n:]] and [s[:n]] *)

Fixpoint sdrop (n : nat) (s : string) : string :=
  match n, s with
  | O, _ => s
  | S n', String _ s' => sdrop n' s'
  | S _, EmptyString => ""
  end.

Fixpoint stake (n : nat) (s : string) : string :=
  match n, s with
  | S n', String c s' => String c (stake n' s')
  | _, _ => ""
  end.

(** ** Prefixes and searching; [None] is Go's [-1] *)

Fixpoint HasPrefix (s p : string) {struct p} : bool :=
  match p, s with
  | EmptyString, _ => true
  | String a p', String b s' => bool_decide (a = b) && HasPrefix s' p'
  | String _ _, EmptyString => false
  end.

Definition TrimPrefix (s p : string) : string :=
  if HasPrefix s p then sdrop (String.length p) s else s.

Fixpoint Index (s sub : string) : option nat :=
  if HasPrefix s sub then Some 0%nat
  else match s with
       | EmptyString => None
       | String _ s' => S <$> Index s' sub
       end.

Definition Contains (s sub : string) : bool := bool_decide (is_Some (Index s sub)).

Fixpoint IndexByte (s : string) (c : ascii) : option nat :=
  match s with
  | EmptyString => None
  | String a s' => if bool_decide (a = c) then Some 0%nat else S <$> IndexByte s' c
  end.

Fixpoint LastIndexByte (s : string) (c : ascii) : option nat :=
  match s with
  | EmptyString => None
  | String a s' =>
      match LastIndexByte s' c with
      | Some i => Some (S i)
      | None => if bool_decide (a = c) then Some 0%nat else None
      end
  end.

(** ** Splitting on one byte: never empty *)

Fixpoint Split (s : string) (c : ascii) : list string :=
  match s with
  | EmptyString => [""]
  | String a s' =>
      if bool_decide (a = c) then "" :: Split s' c
      else match Split s' c with
           | w :: ws => String a w :: ws
           | [] => [String a ""]
           end
  end.

(** ** Trimming *)

Fixpoint TrimLeft (cut : ascii → bool) (s : string) : string :=
  match s with
  | EmptyString => ""
  | String a s' => if cut a then TrimLeft cut s' else s
  end.

Fixpoint TrimRight (cut : ascii → bool) (s : string) : string :=
  match s with
  | EmptyString => ""
  | String a s' =>
      match TrimRight cut s' with
      | EmptyString => if cut a then "" else String a ""
      | r => String a r
      end
  end.

(** [TrimSpace] strips the code points [unicode.IsSpace] accepts, here given by
    their UTF-8 encodings. *)
Definition byte_string (l : list N) : string :=
  foldr (λ b s, String (ascii_of_N b) s) "" l.

Definition space_runes : list string := map byte_string
  ([[9]; [10]; [11]; [12]; [13]; [32]; [194; 133]; [194; 160]; [225; 154; 128];
    [226; 128; 128]; [226; 128; 129]; [226; 128; 130]; [226; 128; 131]; [226; 128; 132];
    [226; 128; 133]; [226; 128; 134]; [226; 128; 135]; [226; 128; 136]; [226; 128; 137];
    [226; 128; 138]; [226; 128; 168]; [226; 128; 169]; [226; 128; 175]; [226; 129; 159];
    [227; 128; 128]])%N.

Fixpoint srev_app (s acc : string) : string :=
  match s with
  | EmptyString => acc
  | String c s' => srev_app s' (String c acc)
  end.
Definition srev (s : string) : string := srev_app s "".

Fixpoint strip_one (rs : list string) (s : string) : option string :=
  match rs with
  | [] => None
  | r :: rs' => if HasPrefix s r then Some (sdrop (String.length r) s) else strip_one rs' s
  end.

Fixpoint strip_all (fuel : nat) (rs : list string) (s : string) : string :=
  match fuel with
  | O => s
  | S f => match strip_one rs s with Some s' => strip_all f rs s' | None => s end
  end.

Definition TrimSpaceLeft (s : string) : string := strip_all (String.length s) space_runes s.
Definition TrimSpaceRight (s : string) : string :=
  srev (strip_all (String.length s) (map srev space_runes) (srev s)).
Definition TrimSpace (s : string) : string := TrimSpaceRight (TrimSpaceLeft s).

(** ** Decimal integers *)

Definition digit (c : ascii) : option Z :=
  let n := Z.of_N (N_of_ascii c) in
  if (48 <=? n) && (n <=? 57) then Some (n - 48) else None.

Fixpoint parse_digits (s : string) (acc : Z) : option Z :=
  match s with
  | EmptyString => Some acc
  | String c s' => d ← digit c; parse_digits s' (acc * 10 + d)
  end.

(** [strconv.Atoi]: an optional sign, then at least one digit, within [int]. *)
Definition Atoi (s : string) : option Z :=
  let unsigned s := match s with EmptyString => None | _ => parse_digits s 0 end in
  n ← match s with
      | String "+" s' => unsigned s'
      | String "-" s' => Z.opp <$> unsigned s'
      | _ => unsigned s
      end;
  if (- 2 ^ 63 <=? n) && (n <=? max_int) then Some n else None.

(** [strconv.Itoa]. *)
Definition digit_char (d : Z) : ascii := ascii_of_N (Z.to_N (48 + d)).

Fixpoint show_digits (fuel : nat) (n : Z) (acc : string) : string :=
  match fuel with
  | O => acc
  | S f =>
      let acc' := String (digit_char (n mod 10)) acc in
      if n <? 10 then acc' else show_digits f (n / 10) acc'
  end.

Definition Itoa (n : Z) : string :=
  if n <? 0 then String "-" (show_digits 20 (- n) "") else show_digits 20 n "".

(** ** Lemmas *)

Lemma sapp_nil_r s : s +:+ "" = s.
Proof. induction s as [|c s IH]; [done|]. change (String c (s +:+ "") = String c s). by rewrite IH. Qed.

Lemma sapp_assoc s1 s2 s3 : (s1 +:+ s2) +:+ s3 = s1 +:+ (s2 +:+ s3).
Proof.
  induction s1 as [|c s1 IH]; [done|].
  change (String c ((s1 +:+ s2) +:+ s3) = String c (s1 +:+ (s2 +:+ s3))). by rewrite IH.
Qed.

Lemma sapp_cons c s1 s2 : String c s1 +:+ s2 = String c (s1 +:+ s2).
Proof. done. Qed.

Lemma slength_app s1 s2 : String.length (s1 +:+ s2) = (String.length s1 + String.length s2)%nat.
Proof. induction s1 as [|c s1 IH]; [done|]. rewrite sapp_cons. simpl. by rewrite IH. Qed.

Lemma sdrop_app s1 s2 : sdrop (String.length s1) (s1 +:+ s2) = s2.
Proof. induction s1 as [|c s1 IH]; [done|]. rewrite sapp_cons. done. Qed.

Lemma stake_app s1 s2 : stake (String.length s1) (s1 +:+ s2) = s1.
Proof. induction s1 as [|c s1 IH]; [done|]. rewrite sapp_cons. simpl. by rewrite IH. Qed.

Lemma stake_sdrop n s : stake n s +:+ sdrop n s = s.
Proof.
  revert s. induction n as [|n IH]; intros [|c s]; [done..|].
  simpl. rewrite sapp_cons. by rewrite IH.
Qed.

Lemma HasPrefix_app s p : HasPrefix (p +:+ s) p = true.
Proof. induction p as [|c p IH]; [done|]. rewrite sapp_cons. simpl. rewrite bool_decide_eq_true_2 by done. exact IH. Qed.

Lemma HasPrefix_spec s p : HasPrefix s p = true ↔ ∃ t, s = p +:+ t.
Proof.
  split; [|intros [t ->]; apply HasPrefix_app].
  revert s. induction p as [|c p IH]; intros s Hp; [by exists s|].
  destruct s as [|b s]; [done|]. simpl in Hp.
  apply andb_prop in Hp as [->%bool_decide_eq_true_1 Hp].
  destruct (IH s Hp) as [t ->]. by exists t.
Qed.

(** Whether a byte occurs in a string. *)
Fixpoint sfree (P : ascii → bool) (s : string) : bool :=
  match s with EmptyString => true | String c s' => negb (P c) && sfree P s' end.
Definition no_byte (c : ascii) (s : string) : bool := sfree (λ a, bool_decide (a = c)) s.

Lemma sfree_app P s1 s2 : sfree P (s1 +:+ s2) = sfree P s1 && sfree P s2.
Proof.
  induction s1 as [|c s1 IH]; [done|]. rewrite sapp_cons. simpl. by rewrite IH, andb_assoc.
Qed.

Lemma IndexByte_None s c : IndexByte s c = None ↔ no_byte c s = true.
Proof.
  unfold no_byte. induction s as [|a s IH]; [done|]. simpl.
  destruct (bool_decide (a = c)); simpl; [by split|]. by rewrite fmap_None, IH.
Qed.

Lemma IndexByte_app s1 c s2 :
  no_byte c s1 = true → IndexByte (s1 +:+ String c s2) c = Some (String.length s1).
Proof.
  unfold no_byte. induction s1 as [|a s1 IH]; intros Hn; rewrite ?sapp_cons; simpl in *.
  - by rewrite bool_decide_eq_true_2.
  - destruct (bool_decide (a = c)); [done|]. simpl in *. by rewrite IH.
Qed.

Lemma LastIndexByte_None s c : LastIndexByte s c = None ↔ no_byte c s = true.
Proof.
  unfold no_byte. induction s as [|a s IH]; [done|]. simpl. split.
  - destruct (LastIndexByte s c); [done|]. destruct (bool_decide (a = c)); [done|]. naive_solver.
  - intros [Ha Hs]%andb_prop. apply IH in Hs. rewrite Hs. by destruct (bool_decide (a = c)).
Qed.

Lemma LastIndexByte_app s1 c s2 :
  no_byte c s2 = true → LastIndexByte (s1 +:+ String c s2) c = Some (String.length s1).
Proof.
  intros Hn. apply LastIndexByte_None in Hn.
  induction s1 as [|a s1 IH]; rewrite ?sapp_cons; simpl.
  - rewrite Hn. by rewrite bool_decide_eq_true_2.
  - by rewrite IH.
Qed.

Example TrimSpace_ex : TrimSpace (byte_string [32; 9; 226; 128; 128; 97; 32; 98; 194; 160; 10]%N) = "a b".
Proof. reflexivity. Qed.
Example Atoi_ex : map Atoi ["6443"; "+80"; "-1"; ""; "+"; "12a"; "007"; "9223372036854775808"] =
  [Some 6443; Some 80; Some (-1); None; None; None; Some 7; None].
Proof. reflexivity. Qed.
Example Itoa_ex : map Itoa [0; 7; 6443; -12] = ["0"; "7"; "6443"; "-12"].
Proof. reflexivity. Qed.
Example Split_ex : Split "a,,b" "," = ["a"; ""; "b"].
Proof. reflexivity. Qed.

(** *** [Atoi] inverts [Itoa] *)

Lemma digit_digit_char d : 0 <= d < 10 → digit (digit_char d) = Some d.
Proof.
  intros Hd. assert (d ∈ [0; 1; 2; 3; 4; 5; 6; 7; 8; 9]) as Hin.
  { rewrite !elem_of_cons. lia. }
  repeat (apply elem_of_cons in Hin as [->|Hin]; [reflexivity|]). by apply elem_of_nil in Hin.
Qed.

Lemma parse_show_digits f n acc :
  0 <= n < 10 ^ Z.of_nat f → parse_digits (show_digits f n acc) 0 = parse_digits acc n.
Proof.
  revert n acc. induction f as [|f IH]; intros n acc Hn.
  { simpl in *. f_equal. lia. }
  rewrite Nat2Z.inj_succ, Z.pow_succ_r in Hn by lia.
  assert (0 <= n mod 10 < 10) as Hm by (apply Z.mod_pos_bound; lia).
  simpl. destruct (Z.ltb_spec n 10) as [Hlt|Hge].
  - simpl. rewrite digit_digit_char by done. simpl. f_equal. rewrite Z.mod_small; lia.
  - rewrite IH by (split; [apply Z.div_pos; lia|apply Z.div_lt_upper_bound; lia]).
    simpl. rewrite digit_digit_char by done. simpl. f_equal.
    pose proof (Z.div_mod n 10). lia.
Qed.

Lemma show_digits_head f n acc :
  0 <= n → ∃ d s, 0 <= d < 10 ∧ show_digits (S f) n acc = String (digit_char d) s.
Proof.
  revert n acc. induction f as [|f IH]; intros n acc Hn.
  all: assert (0 <= n mod 10 < 10) as Hm by (apply Z.mod_pos_bound; lia).
  - exists (n mod 10), acc. split; [done|]. simpl. by destruct (n <? 10).
  - change (∃ d s, 0 <= d < 10 ∧ (let acc' := String (digit_char (n mod 10)) acc in
      if n <? 10 then acc' else show_digits (S f) (n / 10) acc') = String (digit_char d) s).
    cbv zeta. destruct (n <? 10); [by exists (n mod 10), acc|].
    apply IH. apply Z.div_pos; lia.
Qed.

Lemma Atoi_Itoa n : 0 <= n <= max_int → Atoi (Itoa n) = Some n.
Proof.
  unfold max_int. intros Hn. unfold Itoa. destruct (Z.ltb_spec n 0); [lia|].
  destruct (show_digits_head 19 n "") as (d & s & Hd & Hs); [lia|].
  assert (parse_digits (String (digit_char d) s) 0 = Some n) as Hp
    by (rewrite <- Hs; by apply parse_show_digits; lia).
  rewrite Hs. unfold Atoi.
  assert (d ∈ [0; 1; 2; 3; 4; 5; 6; 7; 8; 9]) as Hin by (rewrite !elem_of_cons; lia).
  assert ((- 2 ^ 63 <=? n) && (n <=? max_int) = true) as Hr by (unfold max_int; lia).
  repeat (apply elem_of_cons in Hin as [->|Hin]; [rewrite Hp; simpl; by rewrite Hr|]).
  by apply elem_of_nil in Hin.
Qed.

Lemma Itoa_inj n m : 0 <= n <= max_int → 0 <= m <= max_int → Itoa n = Itoa m → n = m.
Proof. intros Hn Hm E. apply Some_inj. by rewrite <- (Atoi_Itoa n), <- (Atoi_Itoa m), E. Qed.

Lemma show_digits_app f n acc : show_digits f n acc = show_digits f n "" +:+ acc.
Proof.
  revert n acc. induction f as [|f IH]; intros n acc; [done|]. simpl.
  destruct (n <? 10); [done|]. rewrite IH, (IH _ (String _ "")), sapp_assoc. done.
Qed.

(** The decimal form has only digits, so none of the separators. *)
Lemma Itoa_free n c : 0 <= n → digit c = None → no_byte c (Itoa n) = true.
Proof.
  intros Hn Hc. unfold Itoa. destruct (Z.ltb_spec n 0); [lia|]. clear H.
  generalize 20%nat as f. intros f. assert (∀ acc, no_byte c acc = true →
    no_byte c (show_digits f n acc) = true) as Hgen; [|by apply Hgen].
  revert n Hn. induction f as [|f IH]; intros n Hn acc Hacc; [done|].
  assert (no_byte c (String (digit_char (n mod 10)) acc) = true) as Hacc'.
  { unfold no_byte in *. simpl. rewrite Hacc, andb_true_r, negb_true_iff, bool_decide_eq_false.
    intros <-. rewrite digit_digit_char in Hc; [done|]. apply Z.mod_pos_bound. lia. }
  simpl. destruct (n <? 10); [done|]. apply IH; [|done]. apply Z.div_pos; lia.
Qed.

(** ** Lengths *)

Lemma slength_sdrop n s : String.length (sdrop n s) = (String.length s - n)%nat.
Proof. revert s. induction n as [|n IH]; intros [|c s]; simpl; [done..|]. apply IH. Qed.

Lemma slength_stake n s : (String.length (stake n s) <= String.length s)%nat.
Proof. revert s. induction n as [|n IH]; intros [|c s]; simpl; [lia..|]. specialize (IH s). lia. Qed.

Lemma slength_stake_le n s : (String.length (stake n s) <= n)%nat.
Proof. revert s. induction n as [|n IH]; intros [|c s]; simpl; [lia..|]. specialize (IH s). lia. Qed.

Lemma slength_srev_app s acc : String.length (srev_app s acc) = (String.length s + String.length acc)%nat.
Proof. revert acc. induction s as [|c s IH]; intros acc; [done|]. simpl. rewrite IH. simpl. lia. Qed.

Lemma slength_srev s : String.length (srev s) = String.length s.
Proof. unfold srev. rewrite slength_srev_app. simpl. lia. Qed.

Lemma srev_app_spec s acc : srev_app s acc = srev s +:+ acc.
Proof.
  unfold srev. revert acc. induction s as [|c s IH]; intros acc; [done|].
  simpl. rewrite IH, (IH (String c "")), sapp_assoc. done.
Qed.

Lemma srev_sapp s1 s2 : srev (s1 +:+ s2) = srev s2 +:+ srev s1.
Proof.
  induction s1 as [|c s1 IH]; [by rewrite sapp_nil_r|].
  rewrite sapp_cons. unfold srev. simpl. rewrite (srev_app_spec _ (String c "")), IH.
  by rewrite sapp_assoc, (srev_app_spec s1).
Qed.

Lemma srev_srev s : srev (srev s) = s.
Proof.
  induction s as [|c s IH]; [done|]. change (String c s) with (String c "" +:+ s) at 1.
  by rewrite !srev_sapp, IH.
Qed.

Lemma strip_one_Some rs s s' : strip_one rs s = Some s' → ∃ r, r ∈ rs ∧ s = r +:+ s'.
Proof.
  induction rs as [|r rs IH]; [done|]. simpl. destruct (HasPrefix s r) eqn:E.
  - intros [= <-]. exists r. split; [by left|]. apply HasPrefix_spec in E as [t ->].
    by rewrite sdrop_app.
  - intros H. destruct (IH H) as (r' & ? & ?). exists r'. split; [by right|done].
Qed.

Lemma slength_strip_all f rs s : (String.length (strip_all f rs s) <= String.length s)%nat.
Proof.
  revert s. induction f as [|f IH]; intros s; [done|]. simpl.
  destruct (strip_one rs s) as [s'|] eqn:E; [|done].
  apply strip_one_Some in E as (r & _ & ->). rewrite slength_app. specialize (IH s'). lia.
Qed.

Lemma slength_TrimSpace s : (String.length (TrimSpace s) <= String.length s)%nat.
Proof.
  unfold TrimSpace, TrimSpaceRight, TrimSpaceLeft. rewrite slength_srev.
  etrans; [apply slength_strip_all|]. rewrite slength_srev. apply slength_strip_all.
Qed.

Lemma slength_TrimPrefix s p : (String.length (TrimPrefix s p) <= String.length s)%nat.
Proof. unfold TrimPrefix. destruct (HasPrefix s p); [|done]. rewrite slength_sdrop. lia. Qed.

Lemma LastIndexByte_lt s c i : LastIndexByte s c = Some i → (i < String.length s)%nat.
Proof.
  revert i. induction s as [|a s IH]; intros i; [done|]. simpl.
  destruct (LastIndexByte s c) as [j|].
  - intros [= <-]. specialize (IH j eq_refl). lia.
  - destruct (bool_decide _); [|done]. intros [= <-]. lia.
Qed.

(** ** Printable text

    [plain_byte]: printable ASCII.  Over such bytes [TrimSpace] strips blanks only. *)

Definition plain_byte (c : ascii) : bool := let n := N_of_ascii c in (32 <=? n)%N && (n <=? 126)%N.
Definition is_blank (c : ascii) : bool := bool_decide (c = " "%char).
Definition ascii_text (s : string) : bool := sfree (λ c, negb (plain_byte c)) s.
(** Some byte is not a blank. *)
Definition inked (s : string) : bool := negb (sfree (λ c, negb (is_blank c)) s).

Fixpoint slast (s : string) : option ascii :=
  match s with
  | EmptyString => None
  | String c EmptyString => Some c
  | String _ s' => slast s'
  end.

Lemma strip_one_plain c s :
  plain_byte c = true → strip_one space_runes (String c s) = if is_blank c then Some s else None.
Proof. destruct c as [[] [] [] [] [] [] [] []]; intros Hc; done. Qed.

Lemma strip_one_rev_plain c s :
  plain_byte c = true → strip_one (map srev space_runes) (String c s) = if is_blank c then Some s else None.
Proof. destruct c as [[] [] [] [] [] [] [] []]; intros Hc; done. Qed.

Lemma ascii_text_cons c s : ascii_text (String c s) = plain_byte c && ascii_text s.
Proof. unfold ascii_text. simpl. by rewrite negb_involutive. Qed.

Lemma ascii_text_app s1 s2 : ascii_text (s1 +:+ s2) = ascii_text s1 && ascii_text s2.
Proof. apply sfree_app. Qed.

Lemma inked_cons c s : inked (String c s) = negb (is_blank c) || inked s.
Proof. unfold inked. simpl. by rewrite negb_involutive, negb_andb. Qed.

Lemma inked_app s1 s2 : inked (s1 +:+ s2) = inked s1 || inked s2.
Proof. unfold inked. by rewrite sfree_app, negb_andb. Qed.

Lemma sfree_srev P s : sfree P (srev s) = sfree P s.
Proof.
  induction s as [|c s IH]; [done|]. change (String c s) with (String c "" +:+ s).
  rewrite srev_sapp, !sfree_app, IH. apply andb_comm.
Qed.

Lemma strip_all_plain rs (Hrs : ∀ c s, plain_byte c = true →
    strip_one rs (String c s) = if is_blank c then Some s else None) f s :
  strip_one rs "" = None →
  ascii_text s = true → (String.length s <= f)%nat → strip_all f rs s = TrimLeft is_blank s.
Proof.
  intros H0. revert s. induction f as [|f IH]; intros [|c s] Ht Hf; simpl in Hf; [done|lia| |].
  - simpl. by rewrite H0.
  - rewrite ascii_text_cons in Ht. apply andb_prop in Ht as [Hc Ht].
    cbn [strip_all]. rewrite Hrs by done. simpl. destruct (is_blank c); [|done]. apply IH; [done|lia].
Qed.

Lemma TrimLeft_spec cut s :
  ∃ p, s = p +:+ TrimLeft cut s ∧ sfree (λ c, negb (cut c)) p = true.
Proof.
  induction s as [|c s (p & Hs & Hp)]; [by exists ""|]. simpl.
  destruct (cut c) eqn:Hc; [|by exists ""]. exists (String c p). split.
  - rewrite sapp_cons. by f_equal.
  - simpl. by rewrite Hc.
Qed.

Lemma TrimSpace_plain s :
  ascii_text s = true →
  TrimSpace s = srev (TrimLeft is_blank (srev (TrimLeft is_blank s))).
Proof.
  intros Ht. unfold TrimSpace, TrimSpaceRight, TrimSpaceLeft.
  rewrite (strip_all_plain space_runes) by (auto using strip_one_plain).
  rewrite (strip_all_plain (map srev space_runes)); [done|apply strip_one_rev_plain|done| |by rewrite slength_srev].
  unfold ascii_text. rewrite sfree_srev. destruct (TrimLeft_spec is_blank s) as (p & Hs & _).
  rewrite Hs, ascii_text_app in Ht. by apply andb_prop in Ht as [_ ?].
Qed.

Lemma inked_TrimLeft s : inked (TrimLeft is_blank s) = inked s.
Proof.
  destruct (TrimLeft_spec is_blank s) as (p & Hs & Hp). rewrite Hs at 2. rewrite inked_app.
  unfold inked at 2. by rewrite Hp.
Qed.

Lemma inked_TrimSpace s : ascii_text s = true → inked (TrimSpace s) = inked s.
Proof.
  intros Ht. rewrite TrimSpace_plain by done.
  unfold inked at 1. rewrite sfree_srev. fold (inked (TrimLeft is_blank (srev (TrimLeft is_blank s)))).
  rewrite inked_TrimLeft. unfold inked at 1. rewrite sfree_srev. apply inked_TrimLeft.
Qed.

Lemma TrimSpace_blank s : ascii_text s = true → inked s = false → TrimSpace s = "".
Proof.
  intros Ht Hi. rewrite TrimSpace_plain by done. assert (TrimLeft is_blank s = "") as ->; [|done].
  clear Ht. induction s as [|c s IH]; [done|]. rewrite inked_cons in Hi. simpl.
  apply orb_false_elim in Hi as [Hc Hi]. rewrite negb_false_iff in Hc. rewrite Hc. auto.
Qed.

Lemma inked_ne s : inked s = true → s ≠ "".
Proof. by intros H ->. Qed.

(** Every part the string functions cut out of a string is a substring: a
    byte it lacks, they lack. *)
Definition sub_of (t s : string) : Prop := ∃ p q, s = p +:+ (t +:+ q).

Lemma sub_of_refl s : sub_of s s.
Proof. exists "", "". by rewrite sapp_nil_r. Qed.
Lemma sub_of_trans a b c : sub_of a b → sub_of b c → sub_of a c.
Proof. intros (p & q & ->) (p' & q' & ->). exists (p' +:+ p), (q +:+ q'). by rewrite !sapp_assoc. Qed.
Lemma sub_of_sdrop n s : sub_of (sdrop n s) s.
Proof. exists (stake n s), "". by rewrite sapp_nil_r, stake_sdrop. Qed.
Lemma sub_of_stake n s : sub_of (stake n s) s.
Proof. exists "", (sdrop n s). by rewrite stake_sdrop. Qed.
Lemma sub_of_sfree P t s : sub_of t s → sfree P s = true → sfree P t = true.
Proof. intros (p & q & ->). rewrite !sfree_app. by intros [_ [? _]%andb_prop]%andb_prop. Qed.
Lemma sub_of_srev t s : sub_of t s → sub_of (srev t) (srev s).
Proof. intros (p & q & ->). exists (srev q), (srev p). by rewrite !srev_sapp, sapp_assoc. Qed.
Lemma sub_of_strip_all f rs s : sub_of (strip_all f rs s) s.
Proof.
  revert s. induction f as [|f IH]; intros s; [apply sub_of_refl|]. simpl.
  destruct (strip_one rs s) as [s'|] eqn:E; [|apply sub_of_refl].
  apply strip_one_Some in E as (r & _ & ->). eapply sub_of_trans; [apply IH|].
  exists r, "". by rewrite sapp_nil_r.
Qed.
Lemma sub_of_TrimSpace s : sub_of (TrimSpace s) s.
Proof.
  eapply sub_of_trans; [|apply sub_of_strip_all]. rewrite <- (srev_srev (strip_all _ _ s)).
  apply sub_of_srev, sub_of_strip_all.
Qed.
Lemma sub_of_TrimLeft cut s : sub_of (TrimLeft cut s) s.
Proof. destruct (TrimLeft_spec cut s) as (p & Hs & _). exists p, "". by rewrite sapp_nil_r. Qed.
Lemma TrimRight_spec cut s :
  ∃ q, s = TrimRight cut s +:+ q ∧ sfree (λ c, negb (cut c)) q = true.
Proof.
  induction s as [|c s (q & Hs & Hq)]; [by exists ""|]. simpl.
  destruct (TrimRight cut s) as [|a r] eqn:E.
  - destruct (cut c) eqn:Hc.
    + exists (String c q). simpl. rewrite Hc. split; [by rewrite Hs at 1|done].
    + exists q. split; [by rewrite Hs at 1|done].
  - exists q. split; [by rewrite Hs at 1|done].
Qed.
Lemma sub_of_TrimRight cut s : sub_of (TrimRight cut s) s.
Proof. destruct (TrimRight_spec cut s) as (q & Hs & _). by exists "", q. Qed.
Lemma sub_of_TrimPrefix s p : sub_of (TrimPrefix s p) s.
Proof. unfold TrimPrefix. destruct (HasPrefix s p); [apply sub_of_sdrop|apply sub_of_refl]. Qed.

Lemma TrimPrefix_suffix s p : ∃ q, s = q +:+ TrimPrefix s p.
Proof.
  unfold TrimPrefix. destruct (HasPrefix s p); [|by exists ""].
  exists (stake (String.length p) s). by rewrite stake_sdrop.
Qed.

Create HintDb substring.
#[export] Hint Resolve sub_of_refl sub_of_sdrop sub_of_stake sub_of_TrimSpace sub_of_TrimLeft
  sub_of_TrimRight sub_of_TrimPrefix : substring.

Lemma slast_TrimRight cut s c : slast (TrimRight cut s) = Some c → cut c = false.
Proof.
  induction s as [|a s IH]; [done|]. simpl. destruct (TrimRight cut s) as [|b r].
  - destruct (cut a) eqn:Ha; [done|]. simpl. by intros [= <-].
  - by apply IH.
Qed.

Lemma slast_app s t : t ≠ "" → slast (s +:+ t) = slast t.
Proof.
  intros Ht. induction s as [|c s IH]; [done|]. rewrite sapp_cons. simpl.
  destruct (s +:+ t) eqn:E; [|done]. by destruct s.
Qed.

Lemma slast_Some s : s ≠ "" → ∃ c, slast s = Some c.
Proof. induction s as [|c s IH]; [done|]. intros _. destruct s; [by eexists|]. by apply IH. Qed.

(** The last byte is not a blank. *)
Definition ends_ink (s : string) : Prop := ∃ c, slast s = Some c ∧ is_blank c = false.

Lemma ends_ink_suffix p t : t ≠ "" → ends_ink (p +:+ t) → ends_ink t.
Proof. unfold ends_ink. intros Ht. by rewrite slast_app. Qed.

Lemma ends_ink_inked s : ends_ink s → inked s = true.
Proof.
  intros (c & Hl & Hc). induction s as [|a s IH]; [done|]. rewrite inked_cons.
  destruct s; [|rewrite IH; [apply orb_true_r|done]]. simplify_eq/=. by rewrite Hc.
Qed.

Lemma Index_byte s c : Index s (String c "") = IndexByte s c.
Proof.
  induction s as [|a s IH]; [done|]. simpl Index. rewrite IH.
  change (HasPrefix (String a s) (String c "")) with (bool_decide (c = a) && HasPrefix s "").
  change (HasPrefix s "") with true. simpl. repeat case_bool_decide; naive_solver.
Qed.

Lemma no_byte_cons a c s : no_byte a (String c s) = negb (bool_decide (c = a)) && no_byte a s.
Proof. done. Qed.

Lemma no_byte_app a s1 s2 : no_byte a (s1 +:+ s2) = no_byte a s1 && no_byte a s2.
Proof. apply sfree_app. Qed.

Lemma slast_no_byte s c : slast s = Some c → no_byte c s = false.
Proof.
  induction s as [|a s IH]; [done|]. intros Hl. rewrite no_byte_cons. destruct s as [|b s].
  - simpl in Hl. simplify_eq. by rewrite bool_decide_eq_true_2.
  - rewrite IH by done. apply andb_false_r.
Qed.

Lemma sdrop_S_app s1 c s2 : sdrop (S (String.length s1)) (s1 +:+ String c s2) = s2.
Proof. induction s1 as [|a s1 IH]; [done|]. rewrite sapp_cons. exact IH. Qed.

(** ** Splitting what was joined *)

Lemma Split_app c s t : no_byte c s = true → Split (s +:+ String c t) c = s :: Split t c.
Proof.
  induction s as [|a s IH]; intros Hs; [simpl; by rewrite bool_decide_eq_true_2|].
  rewrite no_byte_cons in Hs. apply andb_prop in Hs as [Ha Hs]. rewrite negb_true_iff in Ha.
  rewrite sapp_cons. cbn [Split]. by rewrite Ha, IH.
Qed.

Lemma Split_one c s : no_byte c s = true → Split s c = [s].
Proof.
  induction s as [|a s IH]; intros Hs; [done|].
  rewrite no_byte_cons in Hs. apply andb_prop in Hs as [Ha Hs]. rewrite negb_true_iff in Ha.
  cbn [Split]. by rewrite Ha, IH.
Qed.

(** [strings.Join] with a one-byte separator. *)
Fixpoint Join (l : list string) (c : ascii) : string :=
  match l with
  | [] => ""
  | [s] => s
  | s :: l' => s +:+ String c (Join l' c)
  end.

Lemma Split_Join c l : l ≠ [] → Forall (λ s, no_byte c s = true) l → Split (Join l c) c = l.
Proof.
  intros Hne Hl. induction Hl as [|s l Hs Hl IH]; [done|]. destruct l as [|s2 l]; [by apply Split_one|].
  change (Join (s :: s2 :: l) c) with (s +:+ String c (Join (s2 :: l) c)). by rewrite Split_app, IH.
Qed.
