(* ===== verification/GoStrconv.v ===== *)
(** What the flag package calls to read a value: [strconv.ParseBool],
    [strconv.ParseInt] with base 0 and 64 bits, and [time.ParseDuration]. *)
From Stdlib Require Import Floats.SpecFloat.
From S2P Require Import Prelude GoStrings.

(** ** Booleans *)

Definition ParseBool (s : string) : option bool :=
  if bool_decide (s ∈ ["1"; "t"; "T"; "true"; "TRUE"; "True"]) then Some true
  else if bool_decide (s ∈ ["0"; "f"; "F"; "false"; "FALSE"; "False"]) then Some false
  else None.

(** ** Integers *)

Definition lower (c : ascii) : ascii :=
  let n := N_of_ascii c in if (65 <=? n)%N && (n <=? 90)%N then ascii_of_N (n + 32) else c.

(** A digit in any base up to 36. *)
Definition any_digit (c : ascii) : option Z :=
  match digit c with
  | Some d => Some d
  | None =>
      let n := Z.of_N (N_of_ascii (lower c)) in
      if (97 <=? n) && (n <=? 122) then Some (n - 87) else None
  end.

Definition max_uint64 : Z := 2 ^ 64 - 1.

(** The loop of [ParseUint]: [cutoff] is the smallest number whose product with the
    base overflows.  Underscores are skipped. *)
Fixpoint uint_digits (base : Z) (s : string) (n : Z) : option Z :=
  match s with
  | EmptyString => Some n
  | String c s' =>
      if bool_decide (c = "_"%char) then uint_digits base s' n
      else
        d ← any_digit c;
        if base <=? d then None
        else if max_uint64 / base + 1 <=? n then None
        else if max_uint64 <? n * base + d then None
        else uint_digits base s' (n * base + d)
  end.

(** Underscores only between digits, or after a base prefix. *)
Inductive saw := SawStart | SawDigit | SawUnderscore | SawOther.
Fixpoint underscores_from (hex : bool) (last : saw) (s : string) : bool :=
  match s with
  | EmptyString => match last with SawUnderscore => false | _ => true end
  | String c s' =>
      let hexdigit := match any_digit c with Some d => d <? 16 | None => false end in
      if bool_decide (is_Some (digit c)) || (hex && hexdigit) then underscores_from hex SawDigit s'
      else if bool_decide (c = "_"%char) then
        match last with SawDigit => underscores_from hex SawUnderscore s' | _ => false end
      else match last with SawUnderscore => false | _ => underscores_from hex SawOther s' end
  end.
Definition underscoreOK (s : string) : bool :=
  let s1 := match s with String "-" s' | String "+" s' => s' | _ => s end in
  match s1 with
  | String "0" (String c s2) =>
      if bool_decide (lower c ∈ ["b"; "o"; "x"]%char) then
        underscores_from (bool_decide (lower c = "x"%char)) SawDigit s2
      else underscores_from false SawStart s1
  | _ => underscores_from false SawStart s1
  end.

Definition has_underscore (s : string) : bool := negb (no_byte "_" s).

(** [ParseUint(s, 0, 64)]: the base prefix, then the digits. *)
Definition base_prefix (s : string) : Z * string :=
  match s with
  | String "0" (String c (String _ _ as s2)) =>
      if bool_decide (lower c = "b"%char) then (2, s2)
      else if bool_decide (lower c = "o"%char) then (8, s2)
      else if bool_decide (lower c = "x"%char) then (16, s2)
      else (8, sdrop 1 s)
  | String "0" s' => (8, s')
  | _ => (10, s)
  end.
Definition ParseUint (s : string) : option Z :=
  match s with
  | EmptyString => None
  | _ =>
      let '(base, s') := base_prefix s in
      n ← uint_digits base s' 0;
      if has_underscore s' && negb (underscoreOK s) then None else Some n
  end.

(** An optional sign: whether it is a minus, and what follows. *)
Definition sign (s : string) : bool * string :=
  match s with String "-" t => (true, t) | String "+" t => (false, t) | _ => (false, s) end.

Definition ParseInt (s : string) : option Z :=
  let '(neg, s') := sign s in
  un ← ParseUint s';
  if negb neg && (2 ^ 63 <=? un) then None
  else if neg && (2 ^ 63 <? un) then None
  else Some (if neg then - un else un).

(** ** Durations *)

Definition unitMap : gmap string Z := list_to_map [
  ("ns", 1); ("us", 1000); (byte_string [194; 181; 115]%N, 1000); (byte_string [206; 188; 115]%N, 1000);
  ("ms", 1000000); ("s", 1000000000); ("m", 60000000000); ("h", 3600000000000)].

(** [leadingInt]: [None] on overflow. *)
Fixpoint leadingInt (s : string) (x : Z) : option (Z * string) :=
  match s with
  | String c s' =>
      match digit c with
      | None => Some (x, s)
      | Some d =>
          if 2 ^ 63 / 10 <? x then None
          else if 2 ^ 63 <? x * 10 + d then None
          else leadingInt s' (x * 10 + d)
      end
  | EmptyString => Some (x, s)
  end.

(** [float64] arithmetic, rounding to nearest even. *)
Definition float64 (z : Z) : spec_float := binary_normalize 53 1024 z 0 false.
Definition fmul : spec_float → spec_float → spec_float := SFmul 53 1024.
Definition fdiv : spec_float → spec_float → spec_float := SFdiv 53 1024.
(** [uint64(x)] of a float that is not negative and in range. *)
Definition trunc (x : spec_float) : Z :=
  match x with
  | S754_finite _ m e => if 0 <=? e then Z.pos m * 2 ^ e else Z.pos m / 2 ^ (- e)
  | _ => 0
  end.

(** [leadingFraction]: digits that no longer fit are dropped. *)
Fixpoint leadingFraction (s : string) (x : Z) (scale : spec_float) (overflow : bool) : Z * spec_float * string :=
  match s with
  | String c s' =>
      match digit c with
      | None => (x, scale, s)
      | Some d =>
          if overflow then leadingFraction s' x scale true
          else if (2 ^ 63 - 1) / 10 <? x then leadingFraction s' x scale true
          else if 2 ^ 63 <? x * 10 + d then leadingFraction s' x scale true
          else leadingFraction s' (x * 10 + d) (fmul scale (float64 10)) false
      end
  | EmptyString => (x, scale, s)
  end.

(** The part after a dot, if there is one, and whether it has a digit. *)
Definition fraction (s : string) : Z * spec_float * string * bool :=
  match s with
  | String "." t =>
      let '(f, scale, s2) := leadingFraction t 0 (float64 1) false in
      (f, scale, s2, negb (String.length s2 =? String.length t)%nat)
  | _ => (0, float64 1, s, false)
  end.

(** The unit: up to the next dot or digit. *)
Definition unit_byte (c : ascii) : bool := negb (bool_decide (c = "."%char)) && negb (bool_decide (is_Some (digit c))).
Fixpoint take_unit (s : string) : string * string :=
  match s with
  | String c s' => if unit_byte c then let '(u, r) := take_unit s' in (String c u, r) else ("", s)
  | EmptyString => ("", "")
  end.

(** One number with its unit, in nanoseconds, and the rest. *)
Definition duration_part (s : string) : option (Z * string) :=
  match s with
  | EmptyString => None
  | String c _ =>
      if negb (bool_decide (c = "."%char)) && negb (bool_decide (is_Some (digit c))) then None
      else
        '(v, s1) ← leadingInt s 0;
        let pre := negb (String.length s1 =? String.length s)%nat in
        let '(f, scale, s2, post) := fraction s1 in
        if negb pre && negb post then None
        else
          let '(u, s3) := take_unit s2 in
          if bool_decide (u = "") then None
          else
            unit ← unitMap !! u;
            if 2 ^ 63 / unit <? v then None
            else
              let v := v * unit in
              if 0 <? f then
                let v := uint64_add v (trunc (fmul (float64 f) (fdiv (float64 unit) scale))) in
                if 2 ^ 63 <? v then None else Some (v, s3)
              else Some (v, s3)
  end.

(** Every part is at least one byte long. *)
Fixpoint duration_parts (fuel : nat) (s : string) (d : Z) : option Z :=
  match s, fuel with
  | EmptyString, _ => Some d
  | _, O => None
  | _, S fuel' =>
      '(v, s') ← duration_part s;
      let d := uint64_add d v in
      if 2 ^ 63 <? d then None else duration_parts fuel' s' d
  end.

Definition ParseDuration (s : string) : option Z :=
  let '(neg, s') := sign s in
  if bool_decide (s' = "0") then Some 0
  else if bool_decide (s' = "") then None
  else
    d ← duration_parts (String.length s') s' 0;
    if neg then Some (- d) else if 2 ^ 63 - 1 <? d then None else Some d.

Example ParseInt_ex : map ParseInt ["0"; "12"; "-0x1F"; "017"; "1_000"; "0b101"; "_1"; "1__0"; "08"; ""; "0x"; "9223372036854775808"; "-9223372036854775808"] =
  [Some 0; Some 12; Some (-31); Some 15; Some 1000; Some 5; None; None; None; None; None; None; Some (- 2 ^ 63)].
Proof. vm_compute. reflexivity. Qed.
Example ParseDuration_ex : map ParseDuration ["3s"; "1m30s"; "1.5h"; "0"; "-2ms"; ".5s"; "3"; ""; "s"; "1.s"; "1x"; "2562047h47m16.854775807s"; "2562047h47m16.854775808s"] =
  [Some 3000000000; Some 90000000000; Some 5400000000000; Some 0; Some (-2000000); Some 500000000;
   None; None; None; Some 1000000000; None; Some max_int; None].
Proof. vm_compute. reflexivity. Qed.

(** ** Reading back decimal numbers *)

Lemma digit_range c d : digit c = Some d → 0 <= d <= 9.
Proof. unfold digit. destruct (_ && _) eqn:E; [|done]. intros [= <-]. lia. Qed.

Lemma parse_digits_grows s x n : 0 <= x → parse_digits s x = Some n → x <= n.
Proof.
  revert x. induction s as [|c s IH]; intros x Hx; [intros [= ->]; lia|]. simpl.
  destruct (digit c) as [d|] eqn:Hd; [|done]. apply digit_range in Hd. simpl. intros Hp. apply IH in Hp; lia.
Qed.

Lemma digit_not_underscore c d : digit c = Some d → bool_decide (c = "_"%char) = false.
Proof. intros Hd. apply bool_decide_eq_false. by intros ->. Qed.

(** A string of digits reads the same whatever reads it, within its bound. *)
Lemma uint_digits_decimal s x n : 0 <= x → n <= max_uint64 → parse_digits s x = Some n →
  uint_digits 10 s x = Some n.
Proof.
  intros Hx Hn. revert x Hx. induction s as [|c s IH]; intros x Hx; [done|]. simpl.
  destruct (digit c) as [d|] eqn:Hd; [|done]. rewrite (digit_not_underscore _ _ Hd). unfold any_digit. rewrite Hd.
  apply digit_range in Hd. simpl. intros Hp.
  pose proof (parse_digits_grows _ _ _ (ltac:(lia) : 0 <= x * 10 + d) Hp) as Hg. unfold max_uint64 in *.
  assert ((2 ^ 64 - 1) / 10 = 1844674407370955161) as E by reflexivity. rewrite E.
  destruct (Z.leb_spec 10 d); [lia|]. destruct (Z.leb_spec (1844674407370955161 + 1) x); [lia|].
  destruct (Z.ltb_spec (2 ^ 64 - 1) (x * 10 + d)); [lia|]. apply IH; [lia|done].
Qed.

Definition no_digit_head (s : string) : Prop :=
  match s with String c _ => digit c = None | EmptyString => True end.

Lemma leadingInt_decimal s x n rest : 0 <= x → n <= 2 ^ 63 → no_digit_head rest → parse_digits s x = Some n →
  leadingInt (s +:+ rest) x = Some (n, rest).
Proof.
  intros Hx Hn Hr. revert x Hx. induction s as [|c s IH]; intros x Hx.
  { intros [= ->]. simpl. destruct rest as [|c rest]; [done|]. simpl in *. by rewrite Hr. }
  rewrite sapp_cons. simpl. destruct (digit c) as [d|] eqn:Hd; [|done]. apply digit_range in Hd. simpl. intros Hp.
  pose proof (parse_digits_grows _ _ _ (ltac:(lia) : 0 <= x * 10 + d) Hp) as Hg.
  assert (2 ^ 63 / 10 = 922337203685477580) as E by reflexivity. rewrite E.
  destruct (Z.ltb_spec 922337203685477580 x); [lia|]. destruct (Z.ltb_spec (2 ^ 63) (x * 10 + d)); [lia|].
  apply IH; [lia|done].
Qed.

(** What [Itoa] writes: digits, without a leading zero unless it is the only one. *)
Lemma show_digits_zero f n acc : 0 < n < 10 ^ Z.of_nat f →
  ∃ d s, 1 <= d <= 9 ∧ show_digits f n acc = String (digit_char d) s.
Proof.
  revert n acc. induction f as [|f IH]; intros n acc Hn; [simpl in Hn; lia|].
  rewrite Nat2Z.inj_succ, Z.pow_succ_r in Hn by lia. simpl. destruct (Z.ltb_spec n 10).
  - exists n, acc. rewrite Z.mod_small by lia. split; [lia|done].
  - apply IH. split; [|apply Z.div_lt_upper_bound; lia]. apply Z.div_str_pos. lia.
Qed.

Lemma show_parse n : 0 <= n <= 2 ^ 63 → parse_digits (show_digits 20 n "") 0 = Some n.
Proof. intros Hn. by rewrite parse_show_digits by lia. Qed.

Lemma nonzero_digit_head d (P : ascii → Prop) : 1 <= d <= 9 →
  P "1"%char → P "2"%char → P "3"%char → P "4"%char → P "5"%char → P "6"%char → P "7"%char → P "8"%char → P "9"%char →
  P (digit_char d).
Proof.
  intros Hd. assert (d ∈ [1; 2; 3; 4; 5; 6; 7; 8; 9]) as Hin by (rewrite !elem_of_cons; lia).
  intros. repeat (apply elem_of_cons in Hin as [->|Hin]; [done|]). by apply elem_of_nil in Hin.
Qed.

(** No sign, no base prefix. *)
Definition plain_number (s : string) : Prop :=
  base_prefix s = (10, s) ∧ s ≠ "" ∧ s ≠ "0" ∧ ∀ t, sign (s +:+ t) = (false, s +:+ t).

Lemma show_digits_plain n : 0 < n <= 2 ^ 63 → plain_number (show_digits 20 n "").
Proof.
  intros Hn. destruct (show_digits_zero 20 n "") as (d & s & Hd & ->); [lia|].
  apply nonzero_digit_head; [done|..]; (split; [done|]; split; [done|]; split; [done|]; by intros t).
Qed.

Lemma show_digits_no_underscore n : 0 <= n → no_byte "_" (show_digits 20 n "") = true.
Proof. intros Hn. pose proof (Itoa_free n "_" Hn eq_refl) as Hf. unfold Itoa in Hf. by destruct (Z.ltb_spec n 0); [lia|]. Qed.

Lemma ParseUint_show n : 0 <= n <= 2 ^ 63 → ParseUint (show_digits 20 n "") = Some n.
Proof.
  intros Hn. destruct (decide (n = 0)) as [->|Hne]; [by vm_compute|].
  destruct (show_digits_plain n) as (Hb & Hnil & _); [lia|]. unfold ParseUint, has_underscore.
  pose proof (show_digits_no_underscore n (proj1 Hn)) as Hu. pose proof (show_parse n Hn) as Hp.
  destruct (show_digits 20 n "") as [|c s]; [done|]. rewrite Hb.
  rewrite (uint_digits_decimal _ 0 n) by (unfold max_uint64; lia || done). simpl. by rewrite Hu.
Qed.

Lemma ParseInt_Itoa n : - 2 ^ 63 <= n <= max_int → ParseInt (Itoa n) = Some n.
Proof.
  unfold max_int. intros Hn. destruct (decide (n = 0)) as [->|Hne]; [by vm_compute|].
  unfold ParseInt, Itoa. destruct (Z.ltb_spec n 0).
  - cbn [sign]. rewrite ParseUint_show by lia. simpl. destruct (Z.ltb_spec (2 ^ 63) (- n)); [lia|]. f_equal. lia.
  - destruct (show_digits_plain n) as (_ & _ & _ & Hs); [lia|]. specialize (Hs ""). rewrite sapp_nil_r in Hs.
    rewrite Hs, ParseUint_show by lia. simpl. by destruct (Z.leb_spec (2 ^ 63) n); [lia|].
Qed.

Lemma any_digit_nonneg c d : any_digit c = Some d → 0 <= d.
Proof.
  unfold any_digit. destruct (digit c) eqn:Hd; [intros [= <-]; by apply digit_range in Hd as [? _]|].
  destruct (_ && _) eqn:E; [|done]. intros [= <-]. lia.
Qed.

Lemma uint_digits_range base s x n : 0 <= base → 0 <= x <= max_uint64 → uint_digits base s x = Some n →
  0 <= n <= max_uint64.
Proof.
  intros Hb. revert x. induction s as [|c s IH]; intros x Hx; [by intros [= <-]|]. simpl.
  destruct (bool_decide _); [by apply IH|]. destruct (any_digit c) as [d|] eqn:Hd; [|done]. simpl.
  apply any_digit_nonneg in Hd. destruct (base <=? d); [done|]. destruct (max_uint64 / base + 1 <=? x); [done|].
  destruct (Z.ltb_spec max_uint64 (x * base + d)); [done|]. apply IH. nia.
Qed.

Lemma ParseInt_range s n : ParseInt s = Some n → - 2 ^ 63 <= n <= max_int.
Proof.
  unfold ParseInt. destruct (sign s) as [neg s'].
  destruct (ParseUint s') as [un|] eqn:Hu; [|done]. simpl. unfold max_int.
  assert (0 <= un) as Hun.
  { unfold ParseUint in Hu. destruct s'; [done|]. destruct (base_prefix _) as [base t] eqn:Hb.
    destruct (uint_digits base t 0) as [m|] eqn:Hd; [|done]. simpl in Hu.
    assert (m = un) as <- by (by destruct (_ && _); [|injection Hu]).
    assert (0 <= base) as Hbase.
    { unfold base_prefix in Hb. repeat case_match; by injection Hb as <- <-. }
    apply uint_digits_range in Hd as [Hd _]; [done|done|unfold max_uint64; lia]. }
  destruct (Z.leb_spec (2 ^ 63) un), (Z.ltb_spec (2 ^ 63) un), neg; simpl; intros [= <-]; lia.
Qed.

(** *** Durations *)

Lemma take_unit_all s : sfree (λ c, negb (unit_byte c)) s = true → take_unit s = (s, "").
Proof.
  induction s as [|c s IH]; [done|]. simpl. rewrite negb_involutive. intros [-> Hs]%andb_prop. by rewrite IH.
Qed.

(** A whole number of a unit. *)
Lemma duration_part_whole s n u unit :
  (∃ c s', s = String c s' ∧ is_Some (digit c)) → parse_digits s 0 = Some n →
  0 <= n → 0 < unit → n <= 2 ^ 63 / unit → unitMap !! u = Some unit → u ≠ "" →
  sfree (λ c, negb (unit_byte c)) u = true →
  duration_part (s +:+ u) = Some (n * unit, "").
Proof.
  intros (c & s' & -> & Hc) Hp Hn Hunit Hle Hu Hne Hfree.
  assert (no_digit_head u ∧ ∀ t, u ≠ String "." t) as [Hhead Hdot].
  { destruct u as [|a u]; [done|]. simpl in Hfree. rewrite negb_involutive in Hfree. apply andb_prop in Hfree as [Ha _].
    unfold unit_byte in Ha. apply andb_prop in Ha as [H1 H2]. rewrite negb_true_iff, bool_decide_eq_false in H1, H2.
    split; [simpl; by apply eq_None_not_Some|]. intros t [= -> ->]. done. }
  assert (n <= 2 ^ 63) as Hmax.
  { etrans; [exact Hle|]. apply Z.div_le_upper_bound; [lia|]. nia. }
  rewrite sapp_cons. unfold duration_part. rewrite (bool_decide_eq_true_2 (is_Some (digit c))) by done.
  rewrite andb_false_r. rewrite <- sapp_cons. rewrite (leadingInt_decimal _ 0 n u) by (done || lia). simpl.
  rewrite slength_app. simpl. destruct (Nat.eqb_spec (String.length u) (S (String.length s' + String.length u))); [lia|].
  assert (fraction u = (0, float64 1, u, false)) as ->.
  { destruct u as [|a u]; [done|]. destruct (decide (a = "."%char)) as [->|Ha]; [by edestruct Hdot|].
    clear -Ha. by destruct a as [[] [] [] [] [] [] [] []]. }
  cbn -[take_unit unitMap Z.pow Z.div]. rewrite take_unit_all by done. rewrite bool_decide_eq_false_2 by done.
  rewrite Hu. cbn -[Z.pow Z.div]. by destruct (Z.ltb_spec (2 ^ 63 / unit) n); [lia|].
Qed.

Lemma show_digits_first n : 0 <= n <= 2 ^ 63 → ∃ c s, show_digits 20 n "" = String c s ∧ is_Some (digit c).
Proof.
  intros Hn. destruct (show_digits_head 19 n "") as (d & s & Hd & Hs); [lia|].
  exists (digit_char d), s. split; [exact Hs|]. rewrite digit_digit_char by done. by eexists.
Qed.

Lemma duration_parts_whole n u unit :
  0 <= n → 0 < unit → n * unit <= 2 ^ 63 → unitMap !! u = Some unit → u ≠ "" →
  sfree (λ c, negb (unit_byte c)) u = true →
  let s := show_digits 20 n "" +:+ u in duration_parts (String.length s) s 0 = Some (n * unit).
Proof.
  intros Hn Hunit Hle Hu Hne Hfree. cbv zeta. assert (n <= 2 ^ 63) as Hmax by nia.
  destruct (show_digits_first n) as (c & t & Hct & Hc); [lia|].
  assert (duration_part (show_digits 20 n "" +:+ u) = Some (n * unit, "")) as Hpart.
  { apply duration_part_whole; try done; [by rewrite Hct; eauto|by apply show_parse|].
    apply Z.div_le_lower_bound; [lia|]. nia. }
  rewrite Hct, sapp_cons in *. cbn [String.length duration_parts]. rewrite Hpart. cbn -[Z.pow].
  rewrite uint64_add_small by lia. rewrite Z.add_0_l. destruct (Z.ltb_spec (2 ^ 63) (n * unit)); [lia|].
  by destruct (String.length _).
Qed.

(** A whole number of a unit reads back, with its sign. *)
Lemma ParseDuration_whole n u unit :
  0 < unit → - 2 ^ 63 <= n * unit <= max_int → unitMap !! u = Some unit → u ≠ "" →
  sfree (λ c, negb (unit_byte c)) u = true →
  ParseDuration (Itoa n +:+ u) = Some (n * unit).
Proof.
  unfold max_int. intros Hunit Hr Hu Hne Hfree.
  assert (∀ m s, s = show_digits 20 m "" → s +:+ u ≠ "0" ∧ s +:+ u ≠ "") as Hnot.
  { intros m s _. destruct u as [|a u]; [done|]. split; intros E; apply (f_equal String.length) in E as E2;
      rewrite slength_app in E2; simpl in E2; [|lia].
    destruct s as [|c s]; [|simpl in E2; lia]. injection E as -> ->. simpl in Hfree. done. }
  unfold ParseDuration, Itoa. destruct (Z.ltb_spec n 0).
  - rewrite sapp_cons. cbn [sign]. destruct (Hnot (- n) _ eq_refl) as [H1 H2].
    rewrite !bool_decide_eq_false_2 by done.
    rewrite (duration_parts_whole (- n) u unit) by (done || lia). simpl. f_equal. lia.
  - destruct (Hnot n _ eq_refl) as [H1 H2].
    assert (sign (show_digits 20 n "" +:+ u) = (false, show_digits 20 n "" +:+ u)) as ->.
    { destruct (decide (n = 0)) as [->|]; [by vm_compute|]. apply show_digits_plain. nia. }
    rewrite !bool_decide_eq_false_2 by done.
    rewrite (duration_parts_whole n u unit) by (done || lia). cbn -[Z.pow].
    by destruct (Z.ltb_spec (2 ^ 63 - 1) (n * unit)); [lia|].
Qed.

Lemma duration_parts_range fuel s d n : 0 <= d <= 2 ^ 63 → duration_parts fuel s d = Some n → 0 <= n <= 2 ^ 63.
Proof.
  revert s d. induction fuel as [|fuel IH]; intros s d Hd; destruct s as [|c s]; cbn -[Z.pow duration_part];
    try (by intros [= <-]); try done.
  destruct (duration_part _) as [[v s']|]; [|done]. cbn -[Z.pow].
  pose proof (uint64_add_range d v) as [Hr _]. destruct (Z.ltb_spec (2 ^ 63) (uint64_add d v)); [done|]. by apply IH.
Qed.

Lemma ParseDuration_range s n : ParseDuration s = Some n → - 2 ^ 63 <= n <= max_int.
Proof.
  unfold ParseDuration. destruct (sign s) as [neg s']. unfold max_int.
  case_bool_decide; [intros [= <-]; lia|]. case_bool_decide; [done|].
  destruct (duration_parts _ s' 0) as [d|] eqn:Hd; [|done]. apply duration_parts_range in Hd; [|lia]. cbn -[Z.pow].
  destruct neg; [intros [= <-]; lia|]. destruct (Z.ltb_spec (2 ^ 63 - 1) d); [done|]. intros [= <-]. lia.
Qed.
