(* ===== verification/GoNet.v ===== *)
(** The functions of Go's [net] package the program calls: host:port strings,
    IP literals and the address predicates. *)
From S2P Require Import Prelude GoStrings.

(** ** host:port *)

Definition SplitHostPort (hostport : string) : option (string * string) :=
  i ← LastIndexByte hostport ":";
  '(host, j, k) ←
    (if HasPrefix hostport "[" then
       e ← IndexByte hostport "]";
       if bool_decide (S e = String.length hostport) then None
       else if bool_decide (S e = i) then
         Some (stake (e - 1) (sdrop 1 hostport), 1%nat, S e)
       else None
     else
       let host := stake i hostport in
       match IndexByte host ":" with
       | Some _ => None
       | None => Some (host, 0%nat, 0%nat)
       end);
  match IndexByte (sdrop j hostport) "[", IndexByte (sdrop k hostport) "]" with
  | None, None => Some (host, sdrop (S i) hostport)
  | _, _ => None
  end.

Definition JoinHostPort (host port : string) : string :=
  match IndexByte host ":" with
  | Some _ => "[" +:+ host +:+ "]:" +:+ port
  | None => host +:+ ":" +:+ port
  end.

(** ** IP addresses: slices of 4 or 16 bytes *)

Abbreviation IP := (list Z).

Definition v4_prefix : IP := [0; 0; 0; 0; 0; 0; 0; 0; 0; 0; 255; 255].

Fixpoint ipv4_fields (s : string) (start prev_dot : bool) (val : Z) (digLen pos : nat)
    (acc : IP) : option IP :=
  match s with
  | EmptyString => if (pos <? 3)%nat then None else Some (acc ++ [val])
  | String c s' =>
      match digit c with
      | Some d =>
          if (digLen =? 1)%nat && (val =? 0) then None
          else
            let val' := val * 10 + d in
            if 255 <? val' then None else ipv4_fields s' false false val' (S digLen) pos acc
      | None =>
          if bool_decide (c = "."%char) then
            if start || bool_decide (s' = "") || prev_dot then None
            else if (pos =? 3)%nat then None
            else ipv4_fields s' false true 0 0 (S pos) (acc ++ [val])
          else None
      end
  end.
Definition parseIPv4 (s : string) : option IP := ipv4_fields s true false 0 0 0 [].

Definition hex_digit (c : ascii) : option Z :=
  let n := Z.of_N (N_of_ascii c) in
  if (48 <=? n) && (n <=? 57) then Some (n - 48)
  else if (97 <=? n) && (n <=? 102) then Some (n - 87)
  else if (65 <=? n) && (n <=? 70) then Some (n - 55)
  else None.

(** At most four hexadecimal digits: the value, how many, and the rest. *)
Fixpoint hex_group (s : string) (off : nat) (acc : Z) : option (Z * nat * string) :=
  match s with
  | EmptyString => Some (acc, off, "")
  | String c s' =>
      match hex_digit c with
      | Some d => if (3 <? off)%nat then None else hex_group s' (S off) (acc * 16 + d)
      | None => Some (acc, off, s)
      end
  end.

(** The loop over 16-bit groups; [groups] is how many still fit. *)
Fixpoint ipv6_groups (groups : nat) (s : string) (ip : IP) (ellipsis : option nat) :
    option (string * IP * option nat) :=
  match groups with
  | O => Some (s, ip, ellipsis)
  | S groups' =>
      '(acc, off, rest) ← hex_group s 0 0;
      if (off =? 0)%nat then None
      else
        let ip' := ip ++ [acc / 256; acc mod 256] in
        match rest with
        | EmptyString => Some ("", ip', ellipsis)
        | String c rest1 =>
            if bool_decide (c = "."%char) then
              if bool_decide (ellipsis = None) && negb (length ip =? 12)%nat then None
              else if (16 <? length ip + 4)%nat then None
              else fields ← parseIPv4 s; Some ("", ip ++ fields, ellipsis)
            else if negb (bool_decide (c = ":"%char)) then None
            else match rest1 with
                 | EmptyString => None
                 | String c2 rest2 =>
                     if bool_decide (c2 = ":"%char) then
                       match ellipsis with
                       | Some _ => None
                       | None =>
                           if bool_decide (rest2 = "") then Some ("", ip', Some (length ip'))
                           else ipv6_groups groups' rest2 ip' (Some (length ip'))
                       end
                     else ipv6_groups groups' rest1 ip' ellipsis
                 end
        end
  end.

Definition parseIPv6 (s : string) : option IP :=
  '(s1, ell) ← Some (if HasPrefix s "::" then (sdrop 2 s, Some 0%nat) else (s, None));
  if bool_decide (ell = Some 0%nat) && bool_decide (s1 = "") then Some (replicate 16 0)
  else
    '(rest, ip, ellipsis) ← ipv6_groups 8 s1 [] ell;
    if negb (bool_decide (rest = "")) then None
    else match ellipsis with
         | None => if (length ip <? 16)%nat then None else Some ip
         | Some e =>
             if (length ip <? 16)%nat then
               Some (take e ip ++ replicate (16 - length ip) 0 ++ drop e ip)
             else None
         end.

(** The first of ['.'], [':'] and ['%'] selects the grammar; a literal with a
    zone is not an IP. *)
Fixpoint ip_kind (s : string) : option ascii :=
  match s with
  | EmptyString => None
  | String c s' =>
      if bool_decide (c = "."%char) || bool_decide (c = ":"%char) || bool_decide (c = "%"%char)
      then Some c else ip_kind s'
  end.

Definition ParseIP (s : string) : option IP :=
  match ip_kind s with
  | Some c =>
      if bool_decide (c = "."%char) then app v4_prefix <$> parseIPv4 s
      else if bool_decide (c = ":"%char) && no_byte "%" s then parseIPv6 s
      else None
  | None => None
  end.

Definition To4 (ip : IP) : option IP :=
  if (length ip =? 4)%nat then Some ip
  else if (length ip =? 16)%nat && bool_decide (take 12 ip = v4_prefix) then Some (drop 12 ip)
  else None.

Definition IPv6loopback : IP := replicate 15 0 ++ [1].

Definition IP_Equal (ip x : IP) : bool :=
  if bool_decide (length ip = length x) then bool_decide (ip = x)
  else if (length ip =? 4)%nat && (length x =? 16)%nat then
    bool_decide (take 12 x = v4_prefix) && bool_decide (ip = drop 12 x)
  else if (length ip =? 16)%nat && (length x =? 4)%nat then
    bool_decide (take 12 ip = v4_prefix) && bool_decide (drop 12 ip = x)
  else false.

Definition IsLoopback (ip : IP) : bool :=
  match To4 ip with
  | Some ip4 => bool_decide (head ip4 = Some 127)
  | None => IP_Equal ip IPv6loopback
  end.

(** ** Checks against the documented behaviour *)

Example SplitHostPort_ex :
  map SplitHostPort ["10.0.0.1:6443"; "[::1]:6443"; "10.0.0.1"; ":6443"; "a:b:c"; "[::1]"; "[a]b:1"; "h:+1"] =
  [Some ("10.0.0.1", "6443"); Some ("::1", "6443"); None; Some ("", "6443"); None; None; None; Some ("h", "+1")].
Proof. reflexivity. Qed.

Example ParseIP_ex :
  map ParseIP ["127.0.0.1"; "::1"; "01.2.3.4"; "1.2.3"; "fe80::1%eth0"; "::ffff:10.0.0.1"; "cp1"; "1::2::3"] =
  [Some (v4_prefix ++ [127; 0; 0; 1]); Some IPv6loopback; None; None; None;
   Some (v4_prefix ++ [10; 0; 0; 1]); None; None].
Proof. reflexivity. Qed.

Example ParseIP_ex2 :
  map ParseIP ["2001:db8::8:800:200c:417a"; "1:2:3:4:5:6:7:8"; "1:2:3:4:5:6:7"; "12345::"; "::"; "1:2:3:4:5:6:7::"] =
  [Some [32; 1; 13; 184; 0; 0; 0; 0; 0; 8; 8; 0; 32; 12; 65; 122];
   Some [0; 1; 0; 2; 0; 3; 0; 4; 0; 5; 0; 6; 0; 7; 0; 8]; None; None; Some (replicate 16 0);
   Some [0; 1; 0; 2; 0; 3; 0; 4; 0; 5; 0; 6; 0; 7; 0; 0]].
Proof. reflexivity. Qed.

Example IsLoopback_ex :
  map (λ s, IsLoopback <$> ParseIP s) ["127.5.5.5"; "::1"; "::ffff:127.0.0.1"; "10.0.0.1"; "0.0.0.0"] =
  [Some true; Some true; Some true; Some false; Some false].
Proof. reflexivity. Qed.

(** ** Round trip *)

(** Splitting a joined address returns its parts, when neither contains a
    bracket and the port contains no colon. *)
(** The host in brackets. *)
Lemma Split_brackets host port :
  no_byte "[" host = true → no_byte "]" host = true →
  no_byte ":" port = true → no_byte "[" port = true → no_byte "]" port = true →
  SplitHostPort ("[" +:+ host +:+ "]:" +:+ port) = Some (host, port).
Proof.
  intros Hl Hr Hc Hpl Hpr.
  change ("[" +:+ host +:+ "]:" +:+ port) with (String "[" (host +:+ String "]" (String ":" port))).
  set (s := String "[" (host +:+ String "]" (String ":" port))).
  assert (s = (String "[" host +:+ "]") +:+ String ":" port) as Hs
    by (unfold s; by rewrite sapp_assoc).
  assert (LastIndexByte s ":" = Some (S (S (String.length host)))) as Hlast.
  { rewrite Hs, LastIndexByte_app by done. rewrite slength_app. simpl. f_equal. lia. }
  assert (IndexByte s "]" = Some (S (String.length host))) as Hend.
  { unfold s. change (String "[" (host +:+ String "]" (String ":" port)))
      with (String "[" host +:+ String "]" (String ":" port)).
    by rewrite IndexByte_app. }
  assert (sdrop (S (S (S (String.length host)))) s = port) as Hport.
  { rewrite Hs. replace (S (S (S (String.length host))))
      with (String.length ((String "[" host +:+ "]") +:+ ":")) by (rewrite !slength_app; simpl; lia).
    change ((String "[" host +:+ "]") +:+ String ":" port)
      with ((String "[" host +:+ "]") +:+ (":" +:+ port)).
    by rewrite <- sapp_assoc, sdrop_app. }
  unfold SplitHostPort. rewrite Hlast, Hend.
  assert (s = String "[" (host +:+ String "]" (String ":" port))) as Hs' by done. clearbody s.
  assert (HasPrefix s "[" = true) as Hp by (rewrite Hs; apply (HasPrefix_app _ "[")).
  assert (S (S (String.length host)) ≠ String.length s) as Hlen
    by (rewrite Hs, !slength_app; simpl; lia).
  assert (stake (S (String.length host) - 1) (sdrop 1 s) = host) as Hhost.
  { rewrite Hs'. cbn [sdrop]. rewrite Nat.sub_1_r. apply stake_app. }
  assert (no_byte "[" (sdrop 1 s) = true) as H1.
  { rewrite Hs'. unfold no_byte in *. cbn [sdrop]. by rewrite sfree_app, Hl. }
  assert (sdrop (S (S (String.length host))) s = String ":" port) as H2.
  { rewrite Hs. replace (S (S (String.length host))) with (String.length (String "[" host +:+ "]"))
      by (rewrite slength_app; simpl; lia). apply sdrop_app. }
  assert (IndexByte (sdrop (S (S (String.length host))) s) "]" = None) as H3
    by (rewrite H2; by apply IndexByte_None).
  apply IndexByte_None in H1. rewrite Hp. cbn [mbind option_bind].
  rewrite bool_decide_eq_false_2, bool_decide_eq_true_2 by done. cbn [mbind option_bind].
  by rewrite H1, H3, Hhost, Hport.
Qed.

Lemma Split_JoinHostPort host port :
  no_byte "[" host = true → no_byte "]" host = true →
  no_byte ":" port = true → no_byte "[" port = true → no_byte "]" port = true →
  SplitHostPort (JoinHostPort host port) = Some (host, port).
Proof.
  intros Hl Hr Hc Hpl Hpr. unfold JoinHostPort. destruct (IndexByte host ":") as [i|] eqn:Ei.
  - by apply Split_brackets.
  - change (host +:+ ":" +:+ port) with (host +:+ String ":" port).
    unfold SplitHostPort. rewrite LastIndexByte_app by done. cbn [mbind option_bind].
    assert (HasPrefix (host +:+ String ":" port) "[" = false) as ->.
    { destruct host as [|c host]; [done|]. rewrite sapp_cons. simpl.
      unfold no_byte in Hl. simpl in Hl. apply andb_prop in Hl as [Hl _].
      apply negb_true_iff, bool_decide_eq_false in Hl. by rewrite bool_decide_eq_false_2. }
    rewrite stake_app, Ei. cbn [mbind option_bind sdrop].
    assert (∀ c, no_byte c host = true → no_byte c (String ":" port) = true →
      IndexByte (host +:+ String ":" port) c = None) as Hnone.
    { intros c H1 H2. apply IndexByte_None. unfold no_byte in *. by rewrite sfree_app, H1, H2. }
    rewrite !Hnone by done. rewrite <- (sdrop_app (host +:+ ":") port) at 2.
    rewrite slength_app, sapp_assoc. simpl. by rewrite Nat.add_1_r.
Qed.
