(* ===== verification/Config.v ===== *)
(** Package config, file validate.go: the checks a configuration must pass
    before it is run. *)
From S2P Require Import Prelude GoStrings GoNet.

(** ** Data *)

(** [time.Duration] is a number of nanoseconds.  [explicit] is the set of flag
    names given on the command line. *)
Record Config := mkConfig {
  Listen : string;
  Servers : list string;
  Balance : string;
  HealthCheckMode : string;
  HealthInterval : Z;
  HealthTimeout : Z;
  Fall : Z;
  Rise : Z;
  DialTimeout : Z;
  CAFile : string;
  InsecureSkipVerify : bool;
  KeepalivePeriod : Z;
  MetricsListen : string;
  LogLevel : string;
  LogFormat : string;
  AllowNonLoopback : bool;
  ShutdownGrace : Z;
  ShowVersion : bool;
  DiscoveryKubeconfig : string;
  DiscoveryInterval : Z;
  StateFile : string;
  explicit : gset string
}.

Definition Explicit (c : Config) (name : string) : bool := bool_decide (name ∈ explicit c).

Definition set_InsecureSkipVerify (v : bool) (c : Config) : Config :=
  mkConfig (Listen c) (Servers c) (Balance c) (HealthCheckMode c) (HealthInterval c)
    (HealthTimeout c) (Fall c) (Rise c) (DialTimeout c) (CAFile c) v (KeepalivePeriod c)
    (MetricsListen c) (LogLevel c) (LogFormat c) (AllowNonLoopback c) (ShutdownGrace c)
    (ShowVersion c) (DiscoveryKubeconfig c) (DiscoveryInterval c) (StateFile c) (explicit c).

(** One constructor per error the package returns. *)
Inductive hostPortError := ErrNotHostPort | ErrEmptyHost | ErrPort (port : string).

Inductive serversError :=
  | ErrNoServers
  | ErrDuplicate (s : string)
  | ErrEntry (s : string) (e : hostPortError)
  | ErrEntryResolve (s host : string)
  | ErrEntryLoopback (s : string) (ip : IP)
  | ErrEntryIsListen (s : string).

Inductive configError :=
  | ErrBalance | ErrHealthCheckMode | ErrLogLevel | ErrLogFormat
  | ErrFall | ErrRise | ErrDuration (flag : string) | ErrStateFile | ErrKeepalive
  | ErrListen (e : hostPortError) | ErrListenResolve (host : string) | ErrNonLoopback
  | ErrServers (e : serversError)
  | ErrMetricsListen (e : hostPortError)
  | ErrContradictory | ErrCAFile | ErrVerifyNeedsCA.

(** ** Results: a value or an error *)

Definition result (E A : Type) : Type := E + A.
#[export] Instance result_ret E : MRet (result E) := λ A a, inr a.
#[export] Instance result_bind E : MBind (result E) := λ A B f m,
  match m with inl e => inl e | inr a => f a end.

Definition fail_if {E} (b : bool) (e : E) : result E unit := if b then inl e else inr tt.
Definition or_error {E A} (o : option A) (e : E) : result E A :=
  match o with Some a => inr a | None => inl e end.
Definition wrap_error {E E' A} (f : E → E') (r : result E A) : result E' A :=
  match r with inl e => inl (f e) | inr a => inr a end.

(** ** host:port and server lists *)

Definition validateHostPort (s : string) : result hostPortError string :=
  '(host, port) ← or_error (SplitHostPort s) ErrNotHostPort;
  fail_if (bool_decide (host = "")) ErrEmptyHost ;;
  n ← or_error (Atoi port) (ErrPort port);
  fail_if ((n <? 1) || (65535 <? n)) (ErrPort port) ;;
  mret host.

Definition port_of (s : string) : string :=
  match SplitHostPort s with Some (_, port) => port | None => "" end.

Section validate.
(** [lookup] is the caller's resolver ([net.LookupIP] in the program), a failed
    lookup being [None]; [openable path] says whether [os.Open] succeeds. *)
Context (lookup : string → option (list IP)) (openable : string → bool).

Definition resolveHost (host : string) : option (list IP) :=
  match ParseIP host with Some ip => Some [ip] | None => lookup host end.

(** The two checks of one resolved address, in order. *)
Fixpoint check_ips (s listenPort port : string) (listenIPs ips : list IP) : result serversError unit :=
  match ips with
  | [] => mret tt
  | ip :: ips' =>
      fail_if (IsLoopback ip) (ErrEntryLoopback s ip) ;;
      fail_if (bool_decide (port = listenPort) && existsb (IP_Equal ip) listenIPs)
        (ErrEntryIsListen s) ;;
      check_ips s listenPort port listenIPs ips'
  end.

Fixpoint check_servers (listenPort : string) (listenIPs : list IP) (seen : gset string)
    (servers : list string) : result serversError unit :=
  match servers with
  | [] => mret tt
  | s :: servers' =>
      fail_if (bool_decide (s ∈ seen)) (ErrDuplicate s) ;;
      host ← wrap_error (ErrEntry s) (validateHostPort s);
      ips ← or_error (resolveHost host) (ErrEntryResolve s host);
      check_ips s listenPort (port_of s) listenIPs ips ;;
      check_servers listenPort listenIPs ({[s]} ∪ seen) servers'
  end.

Definition validateServers (servers : list string) (listen : string) (listenIPs : list IP) :
    result serversError unit :=
  fail_if (bool_decide (servers = [])) ErrNoServers ;;
  check_servers (port_of listen) listenIPs ∅ servers.

Definition ValidateServers (servers : list string) (listen : string) : result configError unit :=
  listenHost ← wrap_error ErrListen (validateHostPort listen);
  listenIPs ← or_error (resolveHost listenHost) (ErrListenResolve listenHost);
  wrap_error ErrServers (validateServers servers listen listenIPs).

(** ** The whole configuration *)

Fixpoint check_durations (ds : list (string * Z)) : result configError unit :=
  match ds with
  | [] => mret tt
  | (name, val) :: ds' => fail_if (val <=? 0) (ErrDuration name) ;; check_durations ds'
  end.

Definition Validate (c : Config) : result configError Config :=
  fail_if (negb (bool_decide (Balance c ∈ ["round-robin"; "least-conn"]))) ErrBalance ;;
  fail_if (negb (bool_decide (HealthCheckMode c ∈ ["readyz"; "tcp"]))) ErrHealthCheckMode ;;
  fail_if (negb (bool_decide (LogLevel c ∈ ["debug"; "info"; "warn"; "error"]))) ErrLogLevel ;;
  fail_if (negb (bool_decide (LogFormat c ∈ ["text"; "json"]))) ErrLogFormat ;;
  fail_if (Fall c <? 1) ErrFall ;;
  fail_if (Rise c <? 1) ErrRise ;;
  check_durations [("health-interval", HealthInterval c); ("health-timeout", HealthTimeout c);
    ("dial-timeout", DialTimeout c); ("shutdown-grace", ShutdownGrace c);
    ("discovery-interval", DiscoveryInterval c)] ;;
  fail_if (negb (bool_decide (StateFile c = "")) && bool_decide (DiscoveryKubeconfig c = ""))
    ErrStateFile ;;
  fail_if (KeepalivePeriod c <? 0) ErrKeepalive ;;
  listenHost ← wrap_error ErrListen (validateHostPort (Listen c));
  listenIPs ← or_error (resolveHost listenHost) (ErrListenResolve listenHost);
  fail_if (negb (AllowNonLoopback c) && existsb (λ ip, negb (IsLoopback ip)) listenIPs)
    ErrNonLoopback ;;
  wrap_error ErrServers (validateServers (Servers c) (Listen c) listenIPs) ;;
  (if bool_decide (MetricsListen c = "") then mret tt
   else wrap_error ErrMetricsListen (validateHostPort (MetricsListen c)) ;; mret tt) ;;
  if negb (bool_decide (CAFile c = "")) then
    fail_if (Explicit c "insecure-skip-verify" && InsecureSkipVerify c) ErrContradictory ;;
    fail_if (negb (openable (CAFile c))) ErrCAFile ;;
    mret (set_InsecureSkipVerify false c)
  else
    fail_if (Explicit c "insecure-skip-verify" && negb (InsecureSkipVerify c)) ErrVerifyNeedsCA ;;
    mret c.
End validate.

(** ** Reasoning about results *)

Section results.
Context {E : Type}.

Lemma bind_inr {A B} (m : result E A) (f : A → result E B) b :
  m ≫= f = inr b ↔ ∃ a, m = inr a ∧ f a = inr b.
Proof. destruct m; naive_solver. Qed.

Lemma fail_if_bind {B} (c : bool) (e : E) (k : result E B) b :
  (fail_if c e ;; k) = inr b ↔ c = false ∧ k = inr b.
Proof. destruct c; naive_solver. Qed.

Lemma or_error_inr {A} (o : option A) (e : E) a : or_error o e = inr a ↔ o = Some a.
Proof. destruct o; naive_solver. Qed.

Lemma wrap_error_inr {E' A} (f : E → E') (r : result E A) a : wrap_error f r = inr a ↔ r = inr a.
Proof. destruct r; naive_solver. Qed.

Lemma ret_inr {A} (a b : A) : (mret a : result E A) = inr b ↔ a = b.
Proof. unfold mret, result_ret. naive_solver. Qed.
End results.

Lemma unit_bind_inr {E B} (m : result E unit) (k : result E B) b :
  (m ;; k) = inr b ↔ m = inr tt ∧ k = inr b.
Proof. destruct m as [|[]]; naive_solver. Qed.

(** ** What the checks mean *)

(** A syntactically valid host:port with a port in [1, 65535]. *)
Definition good_hostport (s host port : string) : Prop :=
  SplitHostPort s = Some (host, port) ∧ host ≠ "" ∧
  ∃ n, Atoi port = Some n ∧ 1 <= n <= 65535.

Lemma validateHostPort_spec s host :
  validateHostPort s = inr host ↔ ∃ port, good_hostport s host port.
Proof.
  unfold validateHostPort, good_hostport. rewrite bind_inr. setoid_rewrite or_error_inr. split.
  - intros ([h p] & Hs & H). rewrite fail_if_bind, bind_inr in H.
    destruct H as (Hh%bool_decide_eq_false_1 & n & Hn%or_error_inr & H).
    rewrite fail_if_bind, ret_inr in H. destruct H as [Hr <-].
    apply orb_false_iff in Hr. exists p. split; [done|]. split; [done|]. exists n. split; [done|]. lia.
  - intros (port & Hs & Hh & n & Hn & Hr). exists (host, port). split; [done|].
    rewrite fail_if_bind, bind_inr. rewrite bool_decide_eq_false. split; [done|].
    exists n. rewrite or_error_inr, fail_if_bind, ret_inr. split; [done|]. split; [|done].
    apply orb_false_iff. lia.
Qed.

Section meaning.
Context (lookup : string → option (list IP)).

(** An address that forwards neither to loopback nor to the listen address. *)
Definition good_ip (listen : string) (listenIPs : list IP) (port : string) (ip : IP) : Prop :=
  IsLoopback ip = false ∧
  (port = port_of listen → Forall (λ lip, IP_Equal ip lip = false) listenIPs).

Definition good_entry (listen : string) (listenIPs : list IP) (s : string) : Prop :=
  ∃ host port ips, good_hostport s host port ∧ resolveHost lookup host = Some ips ∧
    Forall (good_ip listen listenIPs port) ips.

Lemma check_ips_spec s listen port listenIPs ips :
  check_ips s (port_of listen) port listenIPs ips = inr tt ↔
  Forall (good_ip listen listenIPs port) ips.
Proof.
  induction ips as [|ip ips IH]; simpl; [by rewrite Forall_nil|].
  rewrite !fail_if_bind, IH, Forall_cons. unfold good_ip.
  assert (bool_decide (port = port_of listen) && existsb (IP_Equal ip) listenIPs = false ↔
    (port = port_of listen → Forall (λ lip, IP_Equal ip lip = false) listenIPs)) as ->; [|tauto].
  case_bool_decide as Hp; simpl; [|naive_solver].
  rewrite <- not_true_iff_false, existsb_exists, Forall_forall.
  setoid_rewrite list_elem_of_In. setoid_rewrite <- not_true_iff_false. naive_solver.
Qed.

Lemma good_hostport_port s host port : good_hostport s host port → port_of s = port.
Proof. intros [Hs _]. unfold port_of. by rewrite Hs. Qed.

Lemma check_servers_spec listen listenIPs seen servers :
  check_servers lookup (port_of listen) listenIPs seen servers = inr tt ↔
  NoDup servers ∧ (∀ s, s ∈ servers → s ∉ seen) ∧ Forall (good_entry listen listenIPs) servers.
Proof.
  revert seen. induction servers as [|s servers IH]; intros seen; simpl.
  { rewrite Forall_nil, NoDup_nil. split; [|done]. intros _. set_solver. }
  rewrite fail_if_bind, bind_inr, Forall_cons, NoDup_cons, bool_decide_eq_false. split.
  - intros (Hseen & host & Hh & H). rewrite wrap_error_inr, validateHostPort_spec in Hh.
    destruct Hh as [port Hh]. rewrite bind_inr in H. destruct H as (ips & Hi%or_error_inr & H).
    rewrite unit_bind_inr, IH, (good_hostport_port _ _ _ Hh), check_ips_spec in H.
    destruct H as (Hips & Hnd & Hns & Hall). split; [set_solver|]. split; [set_solver|].
    split; [|done]. by exists host, port, ips.
  - intros ([Hs Hnd] & Hns & (host & port & ips & Hh & Hi & Hips) & Hall). split; [set_solver|].
    exists host. rewrite wrap_error_inr, validateHostPort_spec. split; [by exists port|].
    rewrite bind_inr. exists ips. rewrite or_error_inr. split; [done|].
    rewrite unit_bind_inr, IH, (good_hostport_port _ _ _ Hh), check_ips_spec.
    split; [done|]. split; [done|]. split; [set_solver|done].
Qed.

Definition good_servers (servers : list string) (listen : string) (listenIPs : list IP) : Prop :=
  servers ≠ [] ∧ NoDup servers ∧ Forall (good_entry listen listenIPs) servers.

Lemma validateServers_good servers listen listenIPs :
  validateServers lookup servers listen listenIPs = inr tt ↔ good_servers servers listen listenIPs.
Proof.
  unfold validateServers, good_servers.
  rewrite fail_if_bind, check_servers_spec, bool_decide_eq_false. set_solver.
Qed.

Lemma ValidateServers_good (servers : list string) (listen : string) :
  ValidateServers lookup servers listen = inr tt ↔
  ∃ host port listenIPs, good_hostport listen host port ∧
    resolveHost lookup host = Some listenIPs ∧ good_servers servers listen listenIPs.
Proof.
  unfold ValidateServers. rewrite bind_inr. setoid_rewrite wrap_error_inr.
  setoid_rewrite validateHostPort_spec. setoid_rewrite bind_inr. setoid_rewrite or_error_inr.
  setoid_rewrite wrap_error_inr. setoid_rewrite validateServers_good. naive_solver.
Qed.


(** ** The whole configuration *)

Context (openable : string → bool).

Record valid_config (c : Config) : Prop := {
  vc_balance : Balance c ∈ ["round-robin"; "least-conn"];
  vc_mode : HealthCheckMode c ∈ ["readyz"; "tcp"];
  vc_level : LogLevel c ∈ ["debug"; "info"; "warn"; "error"];
  vc_format : LogFormat c ∈ ["text"; "json"];
  vc_thresholds : 1 <= Fall c ∧ 1 <= Rise c;
  vc_durations : 0 < HealthInterval c ∧ 0 < HealthTimeout c ∧ 0 < DialTimeout c ∧
    0 < ShutdownGrace c ∧ 0 < DiscoveryInterval c ∧ 0 <= KeepalivePeriod c;
  vc_state : StateFile c ≠ "" → DiscoveryKubeconfig c ≠ "";
  vc_listen : ∃ host port listenIPs, good_hostport (Listen c) host port ∧
    resolveHost lookup host = Some listenIPs ∧
    (AllowNonLoopback c = false → Forall (λ ip, IsLoopback ip = true) listenIPs) ∧
    good_servers (Servers c) (Listen c) listenIPs;
  vc_metrics : MetricsListen c ≠ "" → ∃ host port, good_hostport (MetricsListen c) host port;
  vc_ca : CAFile c ≠ "" →
    openable (CAFile c) = true ∧ (Explicit c "insecure-skip-verify" = true → InsecureSkipVerify c = false);
  vc_noca : CAFile c = "" →
    Explicit c "insecure-skip-verify" = true → InsecureSkipVerify c = true
}.

(** A CA file turns verification on. *)
Definition effective (c : Config) : Config :=
  if decide (CAFile c = "") then c else set_InsecureSkipVerify false c.

Lemma check_durations_spec ds :
  check_durations ds = inr tt ↔ Forall (λ d, 0 < d.2) ds.
Proof.
  induction ds as [|[n v] ds IH]; simpl; [by rewrite Forall_nil|].
  rewrite fail_if_bind, IH, Forall_cons, Z.leb_gt. done.
Qed.

Lemma negb_bool_decide P `{Decision P} : negb (bool_decide P) = false ↔ P.
Proof. by rewrite negb_false_iff, bool_decide_eq_true. Qed.

Lemma existsb_negb_loopback ips :
  existsb (λ ip, negb (IsLoopback ip)) ips = false ↔ Forall (λ ip, IsLoopback ip = true) ips.
Proof.
  induction ips as [|ip ips IH]; simpl; [by rewrite Forall_nil|].
  by rewrite orb_false_iff, negb_false_iff, Forall_cons, IH.
Qed.

Lemma metrics_check c :
  (if bool_decide (MetricsListen c = "") then mret tt
   else wrap_error ErrMetricsListen (validateHostPort (MetricsListen c)) ;; mret tt)
  = (inr tt : result configError unit) ↔
  (MetricsListen c ≠ "" → ∃ host port, good_hostport (MetricsListen c) host port).
Proof.
  case_bool_decide as Hm; [naive_solver|].
  rewrite bind_inr. setoid_rewrite wrap_error_inr. setoid_rewrite validateHostPort_spec. naive_solver.
Qed.

Lemma tls_check c c' :
  (if negb (bool_decide (CAFile c = "")) then
     fail_if (Explicit c "insecure-skip-verify" && InsecureSkipVerify c) ErrContradictory ;;
     fail_if (negb (openable (CAFile c))) ErrCAFile ;;
     mret (set_InsecureSkipVerify false c)
   else
     fail_if (Explicit c "insecure-skip-verify" && negb (InsecureSkipVerify c)) ErrVerifyNeedsCA ;;
     mret c) = inr c' ↔
  ((CAFile c ≠ "" → openable (CAFile c) = true ∧
      (Explicit c "insecure-skip-verify" = true → InsecureSkipVerify c = false)) ∧
   (CAFile c = "" → Explicit c "insecure-skip-verify" = true → InsecureSkipVerify c = true)) ∧
  c' = effective c.
Proof.
  unfold effective. destruct (decide (CAFile c = "")) as [Hc|Hc].
  - rewrite (bool_decide_eq_true_2 _ Hc). simpl. rewrite fail_if_bind, ret_inr.
    destruct (Explicit c _), (InsecureSkipVerify c); naive_solver.
  - rewrite (bool_decide_eq_false_2 _ Hc). simpl. rewrite !fail_if_bind, ret_inr.
    destruct (Explicit c _), (InsecureSkipVerify c), (openable (CAFile c)); naive_solver.
Qed.

Lemma Validate_valid (c c' : Config) :
  Validate lookup openable c = inr c' ↔ valid_config c ∧ c' = effective c.
Proof.
  unfold Validate.
  rewrite !fail_if_bind, !negb_bool_decide, !Z.ltb_ge, unit_bind_inr, check_durations_spec.
  rewrite !Forall_cons, Forall_nil, !fail_if_bind, Z.ltb_ge, bind_inr.
  setoid_rewrite wrap_error_inr. setoid_rewrite validateHostPort_spec.
  setoid_rewrite bind_inr. setoid_rewrite or_error_inr. setoid_rewrite fail_if_bind.
  setoid_rewrite unit_bind_inr. setoid_rewrite unit_bind_inr.
  setoid_rewrite wrap_error_inr. setoid_rewrite validateServers_good.
  setoid_rewrite metrics_check. setoid_rewrite tls_check.
  rewrite andb_false_iff, bool_decide_eq_false. setoid_rewrite andb_false_iff.
  setoid_rewrite existsb_negb_loopback. setoid_rewrite negb_false_iff. rewrite bool_decide_eq_true. simpl.
  split.
  - intros (Hb & Hm & Hl & Hf & Hfall & Hrise & Hd & Hs & Hk & host & [port Hh] & ips & Hi & Hnl &
      Hsv & Hmet & [Hca Hnoca] & ->).
    split; [|done]. split; try done; [tauto|naive_solver|].
    exists host, port, ips. repeat (split; [done|]). split; [|done].
    intros Ha. by destruct Hnl; [congruence|].
  - intros ([Hb Hm Hl Hf [Hfall Hrise] Hd Hs (host & port & ips & Hh & Hi & Hnl & Hsv) Hmet Hca Hnoca] & ->).
    repeat (split; [first [done|tauto]|]).
    split; [destruct (decide (StateFile c = "")); auto|]. split; [tauto|].
    exists host. split; [by exists port|]. exists ips. split; [done|].
    split; [destruct (AllowNonLoopback c); auto|done].
Qed.

(** C23. [Validate] accepts exactly the valid configurations, and returns the
    configuration unchanged except that a CA file forces certificate
    verification on. *)
Theorem Validate_spec (c c' : Config) :
  Validate lookup openable c = inr c' ↔ valid_config c ∧ c' = effective c.
Proof. apply Validate_valid. Qed.
End meaning.

(** ** Consequences *)

Section consequences.
Context (lookup : string → option (list IP)).

(** A configuration that has been validated stays valid: validating it
    again returns it unchanged, and its server list passes the check applied to
    discovered lists. *)
Theorem Validate_idempotent (openable : string → bool) (c c' : Config)
    (H : Validate lookup openable c = inr c') :
  Validate lookup openable c' = inr c' ∧
  ValidateServers lookup (Servers c') (Listen c') = inr tt.
Proof.
  apply Validate_valid in H as [Hv ->].
  assert (valid_config lookup openable (effective c)) as Hv'.
  { unfold effective. case_decide as Hca; [done|]. destruct Hv; split; simpl; try done. tauto. }
  split.
  - apply Validate_valid. split; [done|]. unfold effective.
    destruct (decide (CAFile c = "")); [by rewrite decide_True|simpl; by rewrite decide_False].
  - apply ValidateServers_good. destruct (vc_listen _ _ _ Hv') as (host & port & ips & Hh & Hi & _ & Hs).
    by exists host, port, ips.
Qed.

(** The port of [s] is written in decimal without sign or leading zeros. *)
Definition canonical_port (s : string) : Prop :=
  ∃ n, 1 <= n <= 65535 ∧ port_of s = Itoa n.

(** No forwarding loop through an accepted list: no entry resolves to a
    loopback address, and no entry names a listen address on the listen port,
    provided both ports are written canonically. *)
Theorem ValidateServers_no_loop (servers : list string) (listen s host port lhost lport : string)
    (ips lips : list IP) (ip lip : IP)
    (Hok : ValidateServers lookup servers listen = inr tt) (Hin : s ∈ servers)
    (Hs : good_hostport s host port) (Hips : resolveHost lookup host = Some ips) (Hip : ip ∈ ips)
    (Hl : good_hostport listen lhost lport) (Hlips : resolveHost lookup lhost = Some lips)
    (Hlip : lip ∈ lips) (Hcs : canonical_port s) (Hcl : canonical_port listen) :
  IsLoopback ip = false ∧ (Atoi port = Atoi lport → IP_Equal ip lip = false).
Proof.
  apply ValidateServers_good in Hok as (lh & lp & lips' & [Hl' _] & Hlips' & _ & _ & Hall).
  destruct Hl as [Hl _]. rewrite Hl in Hl'. injection Hl' as <- <-.
  rewrite Hlips in Hlips'. injection Hlips' as <-.
  rewrite Forall_forall in Hall. destruct (Hall s Hin) as (h & p & ips' & [Hs' _] & Hips' & Hgood).
  destruct Hs as [Hs _]. rewrite Hs in Hs'. injection Hs' as <- <-.
  rewrite Hips in Hips'. injection Hips' as <-.
  rewrite Forall_forall in Hgood. destruct (Hgood ip Hip) as [Hloop Heq]. split; [done|].
  destruct Hcs as (n & Hn & Hpn), Hcl as (m & Hm & Hpm).
  unfold port_of in *. rewrite Hs in Hpn. rewrite Hl in *. subst.
  rewrite !Atoi_Itoa by (unfold max_int; lia). intros [= ->].
  specialize (Heq eq_refl). rewrite Forall_forall in Heq. by apply Heq.
Qed.

(** The proviso is needed: the self-forwarding check compares the ports as
    strings, so another spelling of the listen port gets through. *)
Lemma ValidateServers_port_spelling :
  ValidateServers lookup ["10.0.0.5:06443"] "10.0.0.5:6443" = inr tt ∧
  Atoi "06443" = Atoi "6443" ∧ resolveHost lookup "10.0.0.5" = Some [v4_prefix ++ [10; 0; 0; 5]].
Proof. done. Qed.

(** The unspecified address, which a dial takes for the local system, is not
    loopback and gets through as well. *)
Lemma ValidateServers_unspecified :
  ValidateServers lookup ["0.0.0.0:6443"; "[::]:6443"] "127.0.0.1:6443" = inr tt.
Proof. done. Qed.
End consequences.

(** ** Witnesses *)

Definition demo_lookup (host : string) : option (list IP) :=
  if decide (host = "cp1") then Some [v4_prefix ++ [10; 0; 0; 1]] else None.

Definition demo_config : Config :=
  mkConfig "127.0.0.1:6443" ["cp1:6443"; "10.0.0.2:6443"] "round-robin" "readyz"
    3000000000 3000000000 2 2 3000000000 "/etc/kubernetes/pki/ca.crt" true 30000000000
    "127.0.0.1:9299" "info" "text" false 10000000000 false "" 30000000000 "" ∅.

Lemma Validate_idempotent_witness :
  Validate demo_lookup (λ _, true) (set_InsecureSkipVerify false demo_config) =
    inr (set_InsecureSkipVerify false demo_config) ∧
  ValidateServers demo_lookup (Servers demo_config) "127.0.0.1:6443" = inr tt.
Proof.
  apply (Validate_idempotent demo_lookup (λ _, true) demo_config
    (set_InsecureSkipVerify false demo_config)). reflexivity.
Defined.

Lemma ValidateServers_no_loop_witness :
  IsLoopback (v4_prefix ++ [10; 0; 0; 1]) = false ∧
  (Atoi "6443" = Atoi "6443" → IP_Equal (v4_prefix ++ [10; 0; 0; 1]) (v4_prefix ++ [127; 0; 0; 1]) = false).
Proof.
  apply (ValidateServers_no_loop demo_lookup ["cp1:6443"; "10.0.0.2:6443"] "127.0.0.1:6443"
    "cp1:6443" "cp1" "6443" "127.0.0.1" "6443"
    [v4_prefix ++ [10; 0; 0; 1]] [v4_prefix ++ [127; 0; 0; 1]]).
  - reflexivity.
  - by left.
  - split; [reflexivity|]. split; [done|]. exists 6443. split; [reflexivity|lia].
  - reflexivity.
  - by left.
  - split; [reflexivity|]. split; [done|]. exists 6443. split; [reflexivity|lia].
  - reflexivity.
  - by left.
  - exists 6443. split; [lia|reflexivity].
  - exists 6443. split; [lia|reflexivity].
Defined.

(** Each check refuses what it is for. *)
Example Validate_rejects :
  (Validate demo_lookup (λ _, false) demo_config,
   ValidateServers demo_lookup ["127.5.5.5:6443"] "127.0.0.1:6443",
   ValidateServers demo_lookup ["a:1"; "a:1"] "127.0.0.1:6443",
   ValidateServers demo_lookup ["cp1:70000"] "127.0.0.1:6443",
   ValidateServers demo_lookup [] "127.0.0.1:6443",
   ValidateServers demo_lookup ["cp1:6443"] "10.0.0.1:6443") =
  (inl ErrCAFile,
   inl (ErrServers (ErrEntryLoopback "127.5.5.5:6443" (v4_prefix ++ [127; 5; 5; 5]))),
   inl (ErrServers (ErrEntryResolve "a:1" "a")),
   inl (ErrServers (ErrEntry "cp1:70000" (ErrPort "70000"))),
   inl (ErrServers ErrNoServers),
   inl (ErrServers (ErrEntryIsListen "cp1:6443"))).
Proof. reflexivity. Qed.
