(* ===== verification/Flags.v ===== *)
(** Package config, file config.go: the command line.

    [config.Parse] declares its flags on a [flag.FlagSet] and lets it parse; both are
    here, the flag package's loop included. *)
From S2P Require Import Prelude GoStrings GoNet GoStrconv Config.

(** ** Setting one field *)

Definition set_Listen (v : string) (c : Config) : Config :=
  mkConfig v (Servers c) (Balance c) (HealthCheckMode c) (HealthInterval c) (HealthTimeout c)
    (Fall c) (Rise c) (DialTimeout c) (CAFile c) (InsecureSkipVerify c) (KeepalivePeriod c)
    (MetricsListen c) (LogLevel c) (LogFormat c) (AllowNonLoopback c) (ShutdownGrace c)
    (ShowVersion c) (DiscoveryKubeconfig c) (DiscoveryInterval c) (StateFile c) (explicit c).
Definition set_Servers (v : list string) (c : Config) : Config :=
  mkConfig (Listen c) v (Balance c) (HealthCheckMode c) (HealthInterval c) (HealthTimeout c)
    (Fall c) (Rise c) (DialTimeout c) (CAFile c) (InsecureSkipVerify c) (KeepalivePeriod c)
    (MetricsListen c) (LogLevel c) (LogFormat c) (AllowNonLoopback c) (ShutdownGrace c)
    (ShowVersion c) (DiscoveryKubeconfig c) (DiscoveryInterval c) (StateFile c) (explicit c).
Definition set_Balance (v : string) (c : Config) : Config :=
  mkConfig (Listen c) (Servers c) v (HealthCheckMode c) (HealthInterval c) (HealthTimeout c)
    (Fall c) (Rise c) (DialTimeout c) (CAFile c) (InsecureSkipVerify c) (KeepalivePeriod c)
    (MetricsListen c) (LogLevel c) (LogFormat c) (AllowNonLoopback c) (ShutdownGrace c)
    (ShowVersion c) (DiscoveryKubeconfig c) (DiscoveryInterval c) (StateFile c) (explicit c).
Definition set_HealthCheckMode (v : string) (c : Config) : Config :=
  mkConfig (Listen c) (Servers c) (Balance c) v (HealthInterval c) (HealthTimeout c) (Fall c)
    (Rise c) (DialTimeout c) (CAFile c) (InsecureSkipVerify c) (KeepalivePeriod c)
    (MetricsListen c) (LogLevel c) (LogFormat c) (AllowNonLoopback c) (ShutdownGrace c)
    (ShowVersion c) (DiscoveryKubeconfig c) (DiscoveryInterval c) (StateFile c) (explicit c).
Definition set_HealthInterval (v : Z) (c : Config) : Config :=
  mkConfig (Listen c) (Servers c) (Balance c) (HealthCheckMode c) v (HealthTimeout c) (Fall c)
    (Rise c) (DialTimeout c) (CAFile c) (InsecureSkipVerify c) (KeepalivePeriod c)
    (MetricsListen c) (LogLevel c) (LogFormat c) (AllowNonLoopback c) (ShutdownGrace c)
    (ShowVersion c) (DiscoveryKubeconfig c) (DiscoveryInterval c) (StateFile c) (explicit c).
Definition set_HealthTimeout (v : Z) (c : Config) : Config :=
  mkConfig (Listen c) (Servers c) (Balance c) (HealthCheckMode c) (HealthInterval c) v (Fall
    c) (Rise c) (DialTimeout c) (CAFile c) (InsecureSkipVerify c) (KeepalivePeriod c)
    (MetricsListen c) (LogLevel c) (LogFormat c) (AllowNonLoopback c) (ShutdownGrace c)
    (ShowVersion c) (DiscoveryKubeconfig c) (DiscoveryInterval c) (StateFile c) (explicit c).
Definition set_Fall (v : Z) (c : Config) : Config :=
  mkConfig (Listen c) (Servers c) (Balance c) (HealthCheckMode c) (HealthInterval c)
    (HealthTimeout c) v (Rise c) (DialTimeout c) (CAFile c) (InsecureSkipVerify c)
    (KeepalivePeriod c) (MetricsListen c) (LogLevel c) (LogFormat c) (AllowNonLoopback c)
    (ShutdownGrace c) (ShowVersion c) (DiscoveryKubeconfig c) (DiscoveryInterval c) (StateFile
    c) (explicit c).
Definition set_Rise (v : Z) (c : Config) : Config :=
  mkConfig (Listen c) (Servers c) (Balance c) (HealthCheckMode c) (HealthInterval c)
    (HealthTimeout c) (Fall c) v (DialTimeout c) (CAFile c) (InsecureSkipVerify c)
    (KeepalivePeriod c) (MetricsListen c) (LogLevel c) (LogFormat c) (AllowNonLoopback c)
    (ShutdownGrace c) (ShowVersion c) (DiscoveryKubeconfig c) (DiscoveryInterval c) (StateFile
    c) (explicit c).
Definition set_DialTimeout (v : Z) (c : Config) : Config :=
  mkConfig (Listen c) (Servers c) (Balance c) (HealthCheckMode c) (HealthInterval c)
    (HealthTimeout c) (Fall c) (Rise c) v (CAFile c) (InsecureSkipVerify c) (KeepalivePeriod c)
    (MetricsListen c) (LogLevel c) (LogFormat c) (AllowNonLoopback c) (ShutdownGrace c)
    (ShowVersion c) (DiscoveryKubeconfig c) (DiscoveryInterval c) (StateFile c) (explicit c).
Definition set_CAFile (v : string) (c : Config) : Config :=
  mkConfig (Listen c) (Servers c) (Balance c) (HealthCheckMode c) (HealthInterval c)
    (HealthTimeout c) (Fall c) (Rise c) (DialTimeout c) v (InsecureSkipVerify c)
    (KeepalivePeriod c) (MetricsListen c) (LogLevel c) (LogFormat c) (AllowNonLoopback c)
    (ShutdownGrace c) (ShowVersion c) (DiscoveryKubeconfig c) (DiscoveryInterval c) (StateFile
    c) (explicit c).
Definition set_KeepalivePeriod (v : Z) (c : Config) : Config :=
  mkConfig (Listen c) (Servers c) (Balance c) (HealthCheckMode c) (HealthInterval c)
    (HealthTimeout c) (Fall c) (Rise c) (DialTimeout c) (CAFile c) (InsecureSkipVerify c) v
    (MetricsListen c) (LogLevel c) (LogFormat c) (AllowNonLoopback c) (ShutdownGrace c)
    (ShowVersion c) (DiscoveryKubeconfig c) (DiscoveryInterval c) (StateFile c) (explicit c).
Definition set_MetricsListen (v : string) (c : Config) : Config :=
  mkConfig (Listen c) (Servers c) (Balance c) (HealthCheckMode c) (HealthInterval c)
    (HealthTimeout c) (Fall c) (Rise c) (DialTimeout c) (CAFile c) (InsecureSkipVerify c)
    (KeepalivePeriod c) v (LogLevel c) (LogFormat c) (AllowNonLoopback c) (ShutdownGrace c)
    (ShowVersion c) (DiscoveryKubeconfig c) (DiscoveryInterval c) (StateFile c) (explicit c).
Definition set_LogLevel (v : string) (c : Config) : Config :=
  mkConfig (Listen c) (Servers c) (Balance c) (HealthCheckMode c) (HealthInterval c)
    (HealthTimeout c) (Fall c) (Rise c) (DialTimeout c) (CAFile c) (InsecureSkipVerify c)
    (KeepalivePeriod c) (MetricsListen c) v (LogFormat c) (AllowNonLoopback c) (ShutdownGrace c)
    (ShowVersion c) (DiscoveryKubeconfig c) (DiscoveryInterval c) (StateFile c) (explicit c).
Definition set_LogFormat (v : string) (c : Config) : Config :=
  mkConfig (Listen c) (Servers c) (Balance c) (HealthCheckMode c) (HealthInterval c)
    (HealthTimeout c) (Fall c) (Rise c) (DialTimeout c) (CAFile c) (InsecureSkipVerify c)
    (KeepalivePeriod c) (MetricsListen c) (LogLevel c) v (AllowNonLoopback c) (ShutdownGrace c)
    (ShowVersion c) (DiscoveryKubeconfig c) (DiscoveryInterval c) (StateFile c) (explicit c).
Definition set_AllowNonLoopback (v : bool) (c : Config) : Config :=
  mkConfig (Listen c) (Servers c) (Balance c) (HealthCheckMode c) (HealthInterval c)
    (HealthTimeout c) (Fall c) (Rise c) (DialTimeout c) (CAFile c) (InsecureSkipVerify c)
    (KeepalivePeriod c) (MetricsListen c) (LogLevel c) (LogFormat c) v (ShutdownGrace c)
    (ShowVersion c) (DiscoveryKubeconfig c) (DiscoveryInterval c) (StateFile c) (explicit c).
Definition set_ShutdownGrace (v : Z) (c : Config) : Config :=
  mkConfig (Listen c) (Servers c) (Balance c) (HealthCheckMode c) (HealthInterval c)
    (HealthTimeout c) (Fall c) (Rise c) (DialTimeout c) (CAFile c) (InsecureSkipVerify c)
    (KeepalivePeriod c) (MetricsListen c) (LogLevel c) (LogFormat c) (AllowNonLoopback c) v
    (ShowVersion c) (DiscoveryKubeconfig c) (DiscoveryInterval c) (StateFile c) (explicit c).
Definition set_ShowVersion (v : bool) (c : Config) : Config :=
  mkConfig (Listen c) (Servers c) (Balance c) (HealthCheckMode c) (HealthInterval c)
    (HealthTimeout c) (Fall c) (Rise c) (DialTimeout c) (CAFile c) (InsecureSkipVerify c)
    (KeepalivePeriod c) (MetricsListen c) (LogLevel c) (LogFormat c) (AllowNonLoopback c)
    (ShutdownGrace c) v (DiscoveryKubeconfig c) (DiscoveryInterval c) (StateFile c) (explicit
    c).
Definition set_DiscoveryKubeconfig (v : string) (c : Config) : Config :=
  mkConfig (Listen c) (Servers c) (Balance c) (HealthCheckMode c) (HealthInterval c)
    (HealthTimeout c) (Fall c) (Rise c) (DialTimeout c) (CAFile c) (InsecureSkipVerify c)
    (KeepalivePeriod c) (MetricsListen c) (LogLevel c) (LogFormat c) (AllowNonLoopback c)
    (ShutdownGrace c) (ShowVersion c) v (DiscoveryInterval c) (StateFile c) (explicit c).
Definition set_DiscoveryInterval (v : Z) (c : Config) : Config :=
  mkConfig (Listen c) (Servers c) (Balance c) (HealthCheckMode c) (HealthInterval c)
    (HealthTimeout c) (Fall c) (Rise c) (DialTimeout c) (CAFile c) (InsecureSkipVerify c)
    (KeepalivePeriod c) (MetricsListen c) (LogLevel c) (LogFormat c) (AllowNonLoopback c)
    (ShutdownGrace c) (ShowVersion c) (DiscoveryKubeconfig c) v (StateFile c) (explicit c).
Definition set_StateFile (v : string) (c : Config) : Config :=
  mkConfig (Listen c) (Servers c) (Balance c) (HealthCheckMode c) (HealthInterval c)
    (HealthTimeout c) (Fall c) (Rise c) (DialTimeout c) (CAFile c) (InsecureSkipVerify c)
    (KeepalivePeriod c) (MetricsListen c) (LogLevel c) (LogFormat c) (AllowNonLoopback c)
    (ShutdownGrace c) (ShowVersion c) (DiscoveryKubeconfig c) (DiscoveryInterval c) v (explicit
    c).
Definition set_explicit (v : gset string) (c : Config) : Config :=
  mkConfig (Listen c) (Servers c) (Balance c) (HealthCheckMode c) (HealthInterval c)
    (HealthTimeout c) (Fall c) (Rise c) (DialTimeout c) (CAFile c) (InsecureSkipVerify c)
    (KeepalivePeriod c) (MetricsListen c) (LogLevel c) (LogFormat c) (AllowNonLoopback c)
    (ShutdownGrace c) (ShowVersion c) (DiscoveryKubeconfig c) (DiscoveryInterval c) (StateFile
    c) v.

(** ** The flag package *)

(** The variables the flags write: the configuration and [serversCSV]. *)
Record vars := mkVars { v_cfg : Config; v_csv : string }.
Definition on_cfg (f : Config → Config) (p : vars) : vars := mkVars (f (v_cfg p)) (v_csv p).
Definition set_csv (v : string) (p : vars) : vars := mkVars (v_cfg p) v.

(** A declared flag: its name, whether it may stand without a value, its [Value.Set]. *)
Record flag := mkFlag { fl_name : string; fl_bool : bool; fl_set : string → vars → option vars }.

Definition StringVar (set : string → vars → vars) (name : string) : flag :=
  mkFlag name false (λ s p, Some (set s p)).
Definition DurationVar (set : Z → vars → vars) (name : string) : flag :=
  mkFlag name false (λ s p, d ← ParseDuration s; Some (set d p)).
Definition IntVar (set : Z → vars → vars) (name : string) : flag :=
  mkFlag name false (λ s p, n ← ParseInt s; Some (set n p)).
Definition BoolVar (set : bool → vars → vars) (name : string) : flag :=
  mkFlag name true (λ s p, b ← ParseBool s; Some (set b p)).

Inductive parseError :=
  | ErrSyntax (s : string) | ErrHelp | ErrUndefined (name : string)
  | ErrBool (value name : string) | ErrNeedsArgument (name : string) | ErrValue (value name : string)
  | ErrPositional (args : list string).

(** What one argument is. *)
Inductive token := Positional | Terminator | BadSyntax | FlagToken (name : string) (value : option string).

Definition split_value (name : string) : token :=
  match IndexByte name "=" with
  | Some i => FlagToken (stake i name) (Some (sdrop (S i) name))
  | None => FlagToken name None
  end.

Definition flag_token (s : string) : token :=
  match s with
  | String "-" (String c r) =>
      let name := if bool_decide (c = "-"%char) then r else String c r in
      match name with
      | EmptyString => Terminator
      | String a _ =>
          if bool_decide (a ∈ ["-"; "="]%char) then BadSyntax
          else split_value name
      end
  | _ => Positional
  end.

Section flagset.
Context (formal : list flag).

Definition find_flag (name : string) : option flag := find (λ f, bool_decide (fl_name f = name)) formal.

(** [FlagSet.Parse]: the arguments left, the names seen, the variables. *)
Fixpoint parse_flags (args : list string) (actual : gset string) (p : vars) :
    result parseError (list string * gset string * vars) :=
  match args with
  | [] => inr ([], actual, p)
  | s :: rest =>
      match flag_token s with
      | Positional => inr (s :: rest, actual, p)
      | Terminator => inr (rest, actual, p)
      | BadSyntax => inl (ErrSyntax s)
      | FlagToken name value =>
          match find_flag name with
          | None => inl (if bool_decide (name ∈ ["help"; "h"]) then ErrHelp else ErrUndefined name)
          | Some f =>
              if fl_bool f then
                match fl_set f (default "true" value) p with
                | None => inl (ErrBool (default "true" value) name)
                | Some p' => parse_flags rest ({[name]} ∪ actual) p'
                end
              else
                match value, rest with
                | Some v, _ =>
                    match fl_set f v p with
                    | None => inl (ErrValue v name)
                    | Some p' => parse_flags rest ({[name]} ∪ actual) p'
                    end
                | None, v :: rest' =>
                    match fl_set f v p with
                    | None => inl (ErrValue v name)
                    | Some p' => parse_flags rest' ({[name]} ∪ actual) p'
                    end
                | None, [] => inl (ErrNeedsArgument name)
                end
          end
      end
  end.
End flagset.

(** ** The flags of the program *)

Definition second : Z := 1000000000.

(** The declarations, in order, with the setter of each variable. *)
Definition flags : list flag := [
  StringVar (λ v, on_cfg (set_Listen v)) "listen";
  StringVar set_csv "servers";
  StringVar (λ v, on_cfg (set_Balance v)) "balance";
  StringVar (λ v, on_cfg (set_HealthCheckMode v)) "health-check-mode";
  DurationVar (λ v, on_cfg (set_HealthInterval v)) "health-interval";
  DurationVar (λ v, on_cfg (set_HealthTimeout v)) "health-timeout";
  IntVar (λ v, on_cfg (set_Fall v)) "fall";
  IntVar (λ v, on_cfg (set_Rise v)) "rise";
  DurationVar (λ v, on_cfg (set_DialTimeout v)) "dial-timeout";
  StringVar (λ v, on_cfg (set_CAFile v)) "ca-file";
  BoolVar (λ v, on_cfg (set_InsecureSkipVerify v)) "insecure-skip-verify";
  DurationVar (λ v, on_cfg (set_KeepalivePeriod v)) "keepalive-period";
  StringVar (λ v, on_cfg (set_MetricsListen v)) "metrics-listen";
  StringVar (λ v, on_cfg (set_LogLevel v)) "log-level";
  StringVar (λ v, on_cfg (set_LogFormat v)) "log-format";
  BoolVar (λ v, on_cfg (set_AllowNonLoopback v)) "allow-non-loopback";
  DurationVar (λ v, on_cfg (set_ShutdownGrace v)) "shutdown-grace";
  BoolVar (λ v, on_cfg (set_ShowVersion v)) "version";
  StringVar (λ v, on_cfg (set_DiscoveryKubeconfig v)) "discovery-kubeconfig";
  DurationVar (λ v, on_cfg (set_DiscoveryInterval v)) "discovery-interval";
  StringVar (λ v, on_cfg (set_StateFile v)) "state-file"].

(** Their default values. *)
Definition default_config : Config :=
  mkConfig "127.0.0.1:6443" [] "round-robin" "readyz" (3 * second) (3 * second) 2 2 (3 * second) "" true
    (30 * second) "" "info" "text" false (10 * second) false "" (30 * second) "" ∅.
Definition default_vars : vars := mkVars default_config "".

Definition splitServers (csv : string) : list string :=
  foldl (λ out s, let s' := TrimSpace s in if bool_decide (s' = "") then out else out ++ [s']) [] (Split csv ",").

(** After the flags: [explicit] from the names seen, the servers from the list. *)
Definition finish (actual : gset string) (p : vars) : Config :=
  let cfg := set_explicit actual (v_cfg p) in
  if bool_decide (v_csv p = "") then cfg else set_Servers (splitServers (v_csv p)) cfg.

Definition Parse (args : list string) : result parseError Config :=
  match parse_flags flags args ∅ default_vars with
  | inl e => inl e
  | inr (rest, actual, p) =>
      if bool_decide (rest ≠ []) then inl (ErrPositional rest)
      else
        inr (finish actual p)
  end.

Example Parse_ex :
  (λ c, (Servers c, HealthInterval c, Fall c, AllowNonLoopback c, InsecureSkipVerify c, Explicit c "fall")) <$>
    (match Parse ["--servers"; " a:1 ,, b:2 "; "-health-interval=1m30s"; "--fall"; "0x10"; "--allow-non-loopback";
       "--insecure-skip-verify=F"; "--fall=3"] with inr c => Some c | inl _ => None end) =
  Some (["a:1"; "b:2"], 90 * second, 3, true, false, true).
Proof. vm_compute. reflexivity. Qed.
Example Parse_errors_ex :
  map (λ a, match Parse a with inl e => Some e | inr _ => None end)
    [["--no-such"]; ["-h"]; ["--fall"]; ["--fall=x"]; ["--version=yes"]; ["---x"]; ["--=x"]; ["a:1"]; ["--"; "-"]; ["-"]; ["--"]; ["--fall"; "--rise"]] =
  [Some (ErrUndefined "no-such"); Some ErrHelp; Some (ErrNeedsArgument "fall"); Some (ErrValue "x" "fall");
   Some (ErrBool "yes" "version"); Some (ErrSyntax "---x"); Some (ErrSyntax "--=x"); Some (ErrPositional ["a:1"]);
   Some (ErrPositional ["-"]); Some (ErrPositional ["-"]); None; Some (ErrValue "--rise" "fall")].
Proof. vm_compute. reflexivity. Qed.

(** ** What a command line means

    A reference: a command line spells a list of occurrences of flags, in one of the
    styles the flag package takes, and each occurrence sets its variable. *)

Inductive style := Joined | Separate | Bare.
Record occurrence := mkOcc { oc_flag : flag; oc_double : bool; oc_style : style; oc_value : string }.

Definition oc_name (o : occurrence) : string := fl_name (oc_flag o).
Definition dashes (double : bool) : string := if double then "--" else "-".
Definition spell (o : occurrence) : list string :=
  let head := dashes (oc_double o) +:+ oc_name o in
  match oc_style o with
  | Joined => [head +:+ String "=" (oc_value o)]
  | Separate => [head; oc_value o]
  | Bare => [head]
  end.

(** Only flags that are not boolean take the next argument, only boolean ones none. *)
Definition occ_ok (formal : list flag) (o : occurrence) : Prop :=
  find_flag formal (oc_name o) = Some (oc_flag o) ∧
  match oc_style o with
  | Joined => True
  | Separate => fl_bool (oc_flag o) = false
  | Bare => fl_bool (oc_flag o) = true ∧ oc_value o = "true"
  end.

Fixpoint apply_occs (os : list occurrence) (p : vars) : option vars :=
  match os with
  | [] => Some p
  | o :: os' => p' ← fl_set (oc_flag o) (oc_value o) p; apply_occs os' p'
  end.

(** Where parsing stops: at [--], or before an argument that is no flag. *)
Definition stops (tail rest : list string) : Prop :=
  tail = "--" :: rest ∨ tail = rest ∧ match rest with [] => True | s :: _ => flag_token s = Positional end.

Definition name_ok (n : string) : Prop :=
  match n with EmptyString => False | String a _ => a ≠ "-"%char ∧ no_byte "=" n = true end.

Lemma flag_token_dashes d a r : a ∉ ["-"; "="]%char →
  flag_token (dashes d +:+ String a r) = split_value (String a r).
Proof.
  intros Ha. assert (a ≠ "-"%char) as Hd by (intros ->; apply Ha; left).
  destruct d; unfold dashes; rewrite !sapp_cons; change ("" +:+ ?x) with x; cbn [flag_token].
  - rewrite (bool_decide_eq_true_2 ("-"%char = "-"%char)) by done. by rewrite bool_decide_eq_false_2.
  - rewrite (bool_decide_eq_false_2 (a = "-"%char)) by done. by rewrite bool_decide_eq_false_2.
Qed.

Lemma flag_token_inv s n v : flag_token s = FlagToken n v →
  ∃ d a r, s = dashes d +:+ String a r ∧ a ∉ ["-"; "="]%char ∧ split_value (String a r) = FlagToken n v.
Proof.
  unfold flag_token. destruct s as [|x s]; [done|]. destruct (decide (x = "-"%char)) as [->|Hx].
  2:{ intros E. exfalso. destruct x as [[] [] [] [] [] [] [] []]; try done; by destruct s. }
  destruct s as [|c r]; [done|]. case_bool_decide as Hc.
  - subst. destruct r as [|a r]; [done|]. case_bool_decide as Ha; [done|]. intros E. by exists true, a, r.
  - case_bool_decide as Ha; [done|]. intros E. by exists false, c, r.
Qed.

Lemma split_value_joined n v : no_byte "=" n = true → split_value (n +:+ String "=" v) = FlagToken n (Some v).
Proof. intros Hn. unfold split_value. by rewrite IndexByte_app, stake_app, sdrop_S_app. Qed.
Lemma split_value_bare n : no_byte "=" n = true → split_value n = FlagToken n None.
Proof. intros Hn. unfold split_value. by apply IndexByte_None in Hn as ->. Qed.

Lemma IndexByte_Some s c i : IndexByte s c = Some i → s = stake i s +:+ String c (sdrop (S i) s).
Proof.
  revert i. induction s as [|a s IH]; intros i; [done|]. simpl. case_bool_decide as Ha.
  - intros [= <-]. by subst.
  - destruct (IndexByte s c) as [j|]; [|done]. intros [= <-]. specialize (IH j eq_refl). simpl in *.
    rewrite sapp_cons. by rewrite <- IH.
Qed.

Lemma split_value_inv name n v : split_value name = FlagToken n v →
  name = n +:+ match v with Some v => String "=" v | None => "" end.
Proof.
  unfold split_value. destruct (IndexByte name "=") as [i|] eqn:Hi; intros [= <- <-].
  - by apply IndexByte_Some in Hi.
  - by rewrite sapp_nil_r.
Qed.

Lemma token_bare d n : name_ok n → flag_token (dashes d +:+ n) = FlagToken n None.
Proof.
  destruct n as [|a n]; [done|]. intros [Ha Hn].
  rewrite flag_token_dashes; [by apply split_value_bare|].
  rewrite !elem_of_cons, elem_of_nil. intros [?|[->|[]]]; [done|]. by rewrite no_byte_cons in Hn.
Qed.
Lemma token_joined d n v : name_ok n → flag_token (dashes d +:+ n +:+ String "=" v) = FlagToken n (Some v).
Proof.
  destruct n as [|a n]; [done|]. intros [Ha Hn]. rewrite sapp_cons, flag_token_dashes.
  - rewrite <- sapp_cons. by apply split_value_joined.
  - rewrite !elem_of_cons, elem_of_nil. intros [?|[->|[]]]; [done|]. by rewrite no_byte_cons in Hn.
Qed.

Lemma flag_token_terminator s : flag_token s = Terminator → s = "--".
Proof.
  unfold flag_token. destruct s as [|x s]; [done|]. destruct (decide (x = "-"%char)) as [->|Hx].
  2:{ intros E. exfalso. destruct x as [[] [] [] [] [] [] [] []]; try done; by destruct s. }
  destruct s as [|c r]; [done|]. case_bool_decide as Hc; [subst; destruct r as [|a r]; [done|]|];
    (case_bool_decide; [done|]); unfold split_value; by case_match.
Qed.

Lemma flag_token_spells s n v : flag_token s = FlagToken n v →
  ∃ d, s = dashes d +:+ n +:+ match v with Some v => String "=" v | None => "" end.
Proof. intros (d & a & r & -> & _ & ->%split_value_inv)%flag_token_inv. by exists d. Qed.

Section spec.
Context (formal : list flag) (Hnames : Forall (λ f, name_ok (fl_name f)) formal).

Lemma find_flag_inv n f : find_flag formal n = Some f → fl_name f = n ∧ name_ok n.
Proof.
  intros Hf. apply find_some in Hf as [Hin Hn]. apply bool_decide_eq_true_1 in Hn. subst. split; [done|].
  rewrite Forall_forall in Hnames. apply Hnames. by apply list_elem_of_In.
Qed.

Lemma parse_occ o args actual p p' : occ_ok formal o → fl_set (oc_flag o) (oc_value o) p = Some p' →
  parse_flags formal (spell o ++ args) actual p = parse_flags formal args ({[oc_name o]} ∪ actual) p'.
Proof.
  intros [Hf Hst] Hset. pose proof (find_flag_inv _ _ Hf) as [_ Hn]. unfold spell. destruct (oc_style o); cbn [app parse_flags].
  - rewrite sapp_assoc, token_joined by done. rewrite Hf. simpl. destruct (fl_bool (oc_flag o)); simpl; by rewrite Hset.
  - rewrite token_bare by done. rewrite Hf, Hst. by rewrite Hset.
  - destruct Hst as [Hb Hv]. rewrite Hv in Hset. rewrite token_bare by done. rewrite Hf, Hb. simpl. by rewrite Hset.
Qed.

Definition names (os : list occurrence) : gset string := list_to_set (map oc_name os).

Lemma parse_occs os tail rest actual p p' :
  Forall (occ_ok formal) os → apply_occs os p = Some p' → stops tail rest →
  parse_flags formal (concat (map spell os) ++ tail) actual p = inr (rest, names os ∪ actual, p').
Proof.
  intros Hos. revert actual p. induction Hos as [|o os Ho _ IH]; intros actual p Hap Hstop.
  - injection Hap as ->. assert (names [] ∪ actual = actual) as -> by apply union_empty_l_L. simpl.
    destruct Hstop as [->|[-> Hr]]; [done|]. destruct rest as [|s rest]; [done|]. simpl. by rewrite Hr.
  - simpl in Hap. destruct (fl_set _ _ p) as [p1|] eqn:Hset; [|done]. simpl.
    rewrite <- app_assoc, (parse_occ _ _ _ _ _ Ho Hset), (IH _ _ Hap Hstop). do 3 f_equal.
    unfold names. cbn [map list_to_set]. apply leibniz_equiv. set_solver.
Qed.

(** Nothing else parses. *)
Lemma parse_flags_inv n args actual p rest actual' p' : (length args <= n)%nat →
  parse_flags formal args actual p = inr (rest, actual', p') →
  ∃ os tail, args = concat (map spell os) ++ tail ∧ Forall (occ_ok formal) os ∧
    apply_occs os p = Some p' ∧ stops tail rest ∧ actual' = names os ∪ actual.
Proof.
  revert args actual p. induction n as [|n IH]; intros args actual p Hlen Hp.
  { destruct args; [|simpl in Hlen; lia]. injection Hp as <- <- <-. exists [], []. split_and!; try done; [by right|].
    apply leibniz_equiv. set_solver. }
  assert (∀ o args', args = spell o ++ args' → occ_ok formal o →
    ∀ p1, fl_set (oc_flag o) (oc_value o) p = Some p1 →
    parse_flags formal args' ({[oc_name o]} ∪ actual) p1 = inr (rest, actual', p') →
    ∃ os tail, args = concat (map spell os) ++ tail ∧ Forall (occ_ok formal) os ∧
      apply_occs os p = Some p' ∧ stops tail rest ∧ actual' = names os ∪ actual) as Hone.
  { intros o args' -> Ho p1 Hset Hp1.
    assert (length args' <= n)%nat as Hlen'.
    { rewrite length_app in Hlen. assert (1 <= length (spell o))%nat by (unfold spell; destruct (oc_style o); simpl; lia). lia. }
    destruct (IH _ _ _ Hlen' Hp1) as (os & tail & -> & Hos & Hap & Hst & ->).
    exists (o :: os), tail. split_and!; [by rewrite (app_assoc (spell o))|by constructor|simpl; by rewrite Hset|done|].
    unfold names. cbn [map list_to_set]. apply leibniz_equiv. set_solver. }
  destruct args as [|s args]; [apply (IH [] actual p); [simpl; lia|done]|]. cbn [parse_flags] in Hp.
  destruct (flag_token s) as [| | |name value] eqn:Ht; try done.
  - injection Hp as <- <- <-. exists [], (s :: args). split_and!; try done; [by right|]. apply leibniz_equiv. set_solver.
  - injection Hp as <- <- <-. exists [], (s :: args). split_and!; try done; [left|apply leibniz_equiv; set_solver].
    by rewrite (flag_token_terminator _ Ht).
  - apply flag_token_spells in Ht as (d & Hs).
    destruct (find_flag formal name) as [f|] eqn:Hf; [|done].
    pose proof (find_flag_inv _ _ Hf) as [<- _].
    destruct (fl_bool f) eqn:Hb.
    + destruct (fl_set f _ p) as [p1|] eqn:Hset; [|done].
      apply (Hone (mkOcc f d (match value with Some _ => Joined | None => Bare end) (default "true" value)) args)
        with (p1 := p1); try done; [unfold spell; simpl; by destruct value; rewrite Hs, ?sapp_assoc, ?sapp_nil_r|].
      split; [done|]. by destruct value.
    + destruct value as [v|].
      * destruct (fl_set f v p) as [p1|] eqn:Hset; [|done].
        apply (Hone (mkOcc f d Joined v) args) with (p1 := p1); try done.
        unfold spell. simpl. by rewrite Hs, sapp_assoc.
      * destruct args as [|v args]; [done|]. destruct (fl_set f v p) as [p1|] eqn:Hset; [|done].
        apply (Hone (mkOcc f d Separate v) args) with (p1 := p1); try done.
        unfold spell. simpl. by rewrite Hs, sapp_nil_r.
Qed.
End spec.

Lemma flags_named : Forall (λ f, name_ok (fl_name f)) flags.
Proof. repeat (apply Forall_cons; split; [by split|]). apply Forall_nil. done. Qed.

Lemma Parse_spelled os dd p : Forall (occ_ok flags) os → apply_occs os default_vars = Some p →
  Parse (concat (map spell os) ++ (if (dd : bool) then ["--"] else [])) = inr (finish (names os) p).
Proof.
  intros Hos Hap. unfold Parse. rewrite (parse_occs flags flags_named os _ [] ∅ default_vars p Hos Hap).
  - simpl. by rewrite union_empty_r_L.
  - destruct dd; [by left|by right].
Qed.


(** ** Writing a configuration as a command line *)

Definition show_duration (d : Z) : string := Itoa d +:+ "ns".
Definition show_bool (b : bool) : string := if b then "true" else "false".

(** The values of all flags, in the order of their declarations. *)
Definition values (c : Config) : list string := [
  Listen c; Join (Servers c) ","; Balance c; HealthCheckMode c; show_duration (HealthInterval c);
  show_duration (HealthTimeout c); Itoa (Fall c); Itoa (Rise c); show_duration (DialTimeout c); CAFile c;
  show_bool (InsecureSkipVerify c); show_duration (KeepalivePeriod c); MetricsListen c; LogLevel c; LogFormat c;
  show_bool (AllowNonLoopback c); show_duration (ShutdownGrace c); show_bool (ShowVersion c);
  DiscoveryKubeconfig c; show_duration (DiscoveryInterval c); StateFile c].

Definition written (c : Config) : list occurrence := zip_with (λ f v, mkOcc f true Joined v) flags (values c).
Definition command_line (c : Config) : list string := concat (map spell (written c)).

(** An entry of a server list as it is written. *)
Definition clean_entry (s : string) : Prop := s ≠ "" ∧ TrimSpace s = s ∧ no_byte "," s = true.
Definition is_int64 (n : Z) : Prop := - 2 ^ 63 <= n <= max_int.

Record in_range (c : Config) : Prop := {
  ir_health : is_int64 (HealthInterval c) ∧ is_int64 (HealthTimeout c);
  ir_counts : is_int64 (Fall c) ∧ is_int64 (Rise c);
  ir_dial : is_int64 (DialTimeout c) ∧ is_int64 (KeepalivePeriod c);
  ir_rest : is_int64 (ShutdownGrace c) ∧ is_int64 (DiscoveryInterval c)
}.

Lemma splitServers_Join l : l ≠ [] → Forall clean_entry l → splitServers (Join l ",") = l.
Proof.
  intros Hne Hl. unfold splitServers. rewrite Split_Join; [|done|by eapply Forall_impl; [done|]; intros s (_ & _ & ?)].
  assert (∀ out, foldl (λ out s, let s' := TrimSpace s in if bool_decide (s' = "") then out else out ++ [s']) out l
    = out ++ l) as Hgen; [|by apply (Hgen [])].
  clear Hne. induction Hl as [|s l (Hs & Ht & _) _ IH]; intros out; [by rewrite app_nil_r|].
  cbn [foldl]. cbv zeta. rewrite Ht, bool_decide_eq_false_2, IH by done. by rewrite <- app_assoc.
Qed.

Lemma Join_nonempty c l : l ≠ [] → Forall (λ s, s ≠ "") l → Join l c ≠ "".
Proof.
  intros Hne Hl. destruct Hl as [|s l Hs _]; [done|]. destruct l; [done|]. cbn [Join].
  by destruct s.
Qed.

Lemma ParseDuration_show d : is_int64 d → ParseDuration (show_duration d) = Some d.
Proof.
  intros Hd. unfold show_duration. rewrite (ParseDuration_whole d "ns" 1); [f_equal; lia|lia| |done..].
  by rewrite Z.mul_1_r.
Qed.
Lemma ParseBool_show b : ParseBool (show_bool b) = Some b.
Proof. by destruct b. Qed.

Lemma written_ok c : Forall (occ_ok flags) (written c).
Proof. unfold written, values. repeat (apply Forall_cons; split; [by split|]). apply Forall_nil. done. Qed.

Lemma apply_written c : in_range c →
  apply_occs (written c) default_vars = Some (mkVars (set_explicit ∅ (set_Servers [] c)) (Join (Servers c) ",")).
Proof.
  intros [[H1 H2] [H3 H4] [H5 H6] [H7 H8]]. unfold written, values, flags. cbn [zip_with apply_occs].
  unfold StringVar, DurationVar, IntVar, BoolVar. cbn [oc_flag oc_value fl_set].
  rewrite !ParseDuration_show, !ParseInt_Itoa, !ParseBool_show by done. by destruct c.
Qed.

(** C39. A configuration survives the command line: writing out every flag with its
    value, for any configuration whose numbers are 64-bit integers and whose server
    entries are non-empty, trimmed and without commas, and parsing that gives the
    configuration back, with every flag explicit. *)
Theorem Parse_command_line (c : Config) (Hrange : in_range c) (Hclean : Forall clean_entry (Servers c)) :
  Parse (command_line c) = inr (set_explicit (list_to_set (map fl_name flags)) c).
Proof.
  unfold command_line. rewrite <- (app_nil_r (concat _)).
  rewrite (Parse_spelled (written c) false _ (written_ok c) (apply_written c Hrange)).
  f_equal. assert (names (written c) = list_to_set (map fl_name flags)) as -> by done.
  unfold finish. simpl. destruct (decide (Servers c = [])) as [He|Hne].
  - rewrite He. simpl. destruct c; simpl in *; by subst.
  - rewrite bool_decide_eq_false_2.
    + rewrite splitServers_Join by done. by destruct c.
    + apply Join_nonempty; [done|]. by eapply Forall_impl; [done|]; intros s (? & _).
Qed.

Lemma flags_in_range f v p p' : f ∈ flags → in_range (v_cfg p) → fl_set f v p = Some p' → in_range (v_cfg p').
Proof.
  intros Hf [[H1 H2] [H3 H4] [H5 H6] [H7 H8]] Hset. unfold flags in Hf.
  repeat (apply elem_of_cons in Hf as [->|Hf]); [..|by apply elem_of_nil in Hf];
    unfold StringVar, DurationVar, IntVar, BoolVar in Hset; cbn [fl_set] in Hset.
  all: try (injection Hset as <-; by split).
  all: try (destruct (ParseDuration v) as [d|] eqn:Hd; [|done]; apply ParseDuration_range in Hd;
            injection Hset as <-; by split).
  all: try (destruct (ParseInt v) as [d|] eqn:Hd; [|done]; apply ParseInt_range in Hd;
            injection Hset as <-; by split).
  all: destruct (ParseBool v) as [d|]; [|done]; injection Hset as <-; by split.
Qed.


(** The documented start: --servers with any valid list (non-empty trimmed entries
    without commas, none of them loopback) is a whole configuration; it parses to the
    defaults with that list, and those defaults pass [Validate] unchanged. *)
Theorem Parse_servers_valid (lookup : string → option (list IP)) (openable : string → bool) (servers : list string)
    (Hclean : Forall clean_entry servers) (Hvalid : ValidateServers lookup servers "127.0.0.1:6443" = inr tt) :
  ∃ c, Parse ["--servers=" +:+ Join servers ","] = inr c ∧ Parse ["-servers"; Join servers ","] = inr c ∧
    c = set_explicit {["servers"]} (set_Servers servers default_config) ∧ Validate lookup openable c = inr c.
Proof.
  exists (set_explicit {["servers"]} (set_Servers servers default_config)).
  apply ValidateServers_good in Hvalid as (host & port & ips & Hh & Hi & Hs).
  assert (servers ≠ []) as Hne by apply Hs.
  assert (∀ d st, Parse (spell (mkOcc (nth 1 flags (BoolVar (λ _ p, p) "")) d st (Join servers ","))) =
    inr (set_explicit {["servers"]} (set_Servers servers default_config)) ∨ st = Bare) as Hparse.
  { intros d st. assert (st = Bare ∨ st ≠ Bare) as [->|Hst] by (destruct st; auto); [by right|left].
    pose proof (Parse_spelled [mkOcc (nth 1 flags (BoolVar (λ _ p, p) "")) d st (Join servers ",")] false
      (mkVars default_config (Join servers ","))) as Hp. cbn [map concat] in Hp. rewrite !app_nil_r in Hp. rewrite Hp.
    - unfold finish. rewrite bool_decide_eq_false_2.
      + simpl. by rewrite splitServers_Join.
      + apply Join_nonempty; [done|]. by eapply Forall_impl; [done|]; intros s (? & _).
    - apply Forall_cons. split; [|done]. split; [done|]. by destruct st.
    - done. }
  split_and!; [by destruct (Hparse true Joined)|by destruct (Hparse false Separate)|done|].
  apply Validate_valid. split; [|done]. split; try done; simpl.
  - by left.
  - by left.
  - right. by left.
  - by left.
  - exists host, port, ips. split_and!; [done..| |done]. intros _. destruct Hh as (Hh & _).
    assert (SplitHostPort "127.0.0.1:6443" = Some ("127.0.0.1", "6443")) as E by (by vm_compute).
    rewrite E in Hh. injection Hh as <- <-. clear -Hi. vm_compute in Hi. injection Hi as <-.
    apply Forall_cons. split; [by vm_compute|by apply Forall_nil].
Qed.

(** ** Witnesses *)

Lemma Parse_command_line_witness :
  Parse (command_line demo_config) = inr (set_explicit (list_to_set (map fl_name flags)) demo_config).
Proof.
  apply Parse_command_line.
  - split; unfold is_int64, max_int; simpl; lia.
  - repeat (apply Forall_cons; split; [by split_and!|]). by apply Forall_nil.
Defined.


Lemma Parse_servers_valid_witness :
  ∃ c, Parse ["--servers=10.0.0.11:6443,10.0.0.12:6443,10.0.0.13:6443"] = inr c ∧
    Validate (λ _, None) (λ _, false) c = inr c.
Proof.
  destruct (Parse_servers_valid (λ _, None) (λ _, false) ["10.0.0.11:6443"; "10.0.0.12:6443"; "10.0.0.13:6443"])
    as (c & Hp & _ & _ & Hv).
  - repeat (apply Forall_cons; split; [by split_and!|]). by apply Forall_nil.
  - by vm_compute.
  - exists c. by split.
Defined.
