(* ===== verification/Yaml.v ===== *)
(** Package kubeconfig, file yaml.go: the parser for the YAML subset found in
    machine-generated kubeconfig files. *)
From S2P Require Import Prelude GoStrings.

(** ** Data *)

(** A parsed value: [string], [map[string]any] or [[]any].  A map is kept as the
    list of its entries in the order they were stored. *)
Inductive yaml :=
  | YStr (s : string)
  | YMap (m : list (string * yaml))
  | YSeq (l : list yaml).

Record yamlLine := mkLine { indent : nat; content : string; lineNo : nat }.

Inductive yamlError :=
  | ErrTab (n : nat) | ErrMultiDoc (n : nat) | ErrUnexpected (n : nat)
  | ErrEmptyItem (n : nat) | ErrDupKey (n : nat) (key : string)
  | ErrNoColon (n : nat) | ErrNoSpace (n : nat) (s : string) | ErrEmptyKey (n : nat)
  | ErrUnsupported (n : nat) | ErrUnterminated (n : nat) | ErrTrailing (n : nat) (rest : string)
  | ErrFlow (n : nat).

(** A call returns a value, returns an error, or panics (an index out of range).
    [OutOfFuel] belongs to the model alone; [parseYAMLTree_total] excludes it. *)
Inductive outcome (A : Type) :=
  | Ok (a : A)
  | Err (e : yamlError)
  | Panicked
  | OutOfFuel.
Arguments Ok {A} _.
Arguments Err {A} _.
Arguments Panicked {A}.
Arguments OutOfFuel {A}.

#[export] Instance outcome_ret : MRet outcome := λ A a, Ok a.
#[export] Instance outcome_bind : MBind outcome := λ A B f m,
  match m with Ok a => f a | Err e => Err e | Panicked => Panicked | OutOfFuel => OutOfFuel end.

(** [m[key] = val] and [m[key]]. *)
Fixpoint map_get {A} (key : string) (m : list (string * A)) : option A :=
  match m with
  | [] => None
  | (k, v) :: m' => if decide (k = key) then Some v else map_get key m'
  end.
Fixpoint map_set {A} (key : string) (val : A) (m : list (string * A)) : list (string * A) :=
  match m with
  | [] => [(key, val)]
  | (k, v) :: m' => if decide (k = key) then (k, val) :: m' else (k, v) :: map_set key val m'
  end.

(** ** Lexing *)

Definition NL : ascii := "010"%char.
Definition is_blank_cr (c : ascii) : bool := bool_decide (c = " "%char ∨ c = "013"%char).

Fixpoint lex_lines (raws : list string) (i : nat) (out : list yamlLine) : outcome (list yamlLine) :=
  match raws with
  | [] => Ok out
  | raw :: raws' =>
      let lineNo := S i in
      let line := TrimRight is_blank_cr raw in
      let trimmed := TrimLeft is_blank line in
      if bool_decide (trimmed = "") || HasPrefix trimmed "#" then lex_lines raws' (S i) out
      else
        let ind := (String.length line - String.length trimmed)%nat in
        if negb (no_byte "009" (stake ind line)) then Err (ErrTab lineNo)
        else if bool_decide (trimmed = "---") then
          match out with
          | _ :: _ => Err (ErrMultiDoc lineNo)
          | [] => lex_lines raws' (S i) out
          end
        else lex_lines raws' (S i) (out ++ [mkLine ind trimmed lineNo])
  end.

Definition lexYAML (data : string) : outcome (list yamlLine) :=
  lex_lines (Split data NL) 0 [].

(** ** Scalars, keys and flow collections *)

Definition is_quote (c : ascii) : bool := bool_decide (c = "034"%char ∨ c = "'"%char).

Definition unquote (s : string) : string :=
  match s with
  | String c s' =>
      if (2 <=? String.length s)%nat && is_quote c && bool_decide (slast s = Some c)
      then stake (String.length s - 2) s' else s
  | EmptyString => s
  end.

Definition splitKeyValue (s : string) (n : nat) : outcome (string * string) :=
  match Index s ":" with
  | None => Err (ErrNoColon n)
  | Some idx =>
      let after := sdrop (S idx) s in
      if negb (bool_decide (after = "")) && negb (HasPrefix after " ") then Err (ErrNoSpace n s)
      else
        let key := unquote (TrimSpace (stake idx s)) in
        if bool_decide (key = "") then Err (ErrEmptyKey n)
        else Ok (key, TrimSpace after)
  end.

(** [s[0]] of an empty string panics. *)
Definition isFlowOrQuoted (s : string) : outcome bool :=
  match s with
  | EmptyString => Panicked
  | String c _ => Ok (is_quote c || bool_decide (c = "["%char ∨ c = "{"%char))
  end.

Definition flowInner (s : string) (op close : ascii) (n : nat) : outcome string :=
  match s with
  | EmptyString => Panicked
  | String c _ =>
      match LastIndexByte s close with
      | None => Err (ErrFlow n)
      | Some idx =>
          if negb (bool_decide (c = op)) then Err (ErrFlow n)
          else
            let rest := TrimSpace (sdrop (S idx) s) in
            if negb (bool_decide (rest = "")) && negb (HasPrefix rest "#")
            then Err (ErrTrailing n rest)
            else Ok (stake (idx - 1) (sdrop 1 s))
      end
  end.

(** Split on commas outside quotes; [quote] is the open quote, if any. *)
Fixpoint flow_parts (s : string) (quote : option ascii) (cur : string) : list string :=
  match s with
  | EmptyString => [cur]
  | String c s' =>
      match quote with
      | Some q => flow_parts s' (if bool_decide (c = q) then None else quote) (cur +:+ String c "")
      | None =>
          if is_quote c then flow_parts s' (Some c) (cur +:+ String c "")
          else if bool_decide (c = ","%char) then cur :: flow_parts s' None ""
          else flow_parts s' None (cur +:+ String c "")
      end
  end.
Definition splitFlowParts (s : string) : list string := flow_parts s None "".

Definition quoted (s : string) (n : nat) (q : ascii) (body : string) : outcome yaml :=
  match IndexByte body q with
  | None => Err (ErrUnterminated n)
  | Some e =>
      let rest := TrimSpace (sdrop (2 + e) s) in
      if negb (bool_decide (rest = "")) && negb (HasPrefix rest "#")
      then Err (ErrTrailing n rest)
      else Ok (YStr (stake e body))
  end.

Definition plain (s : string) : string :=
  match Index s " #" with Some idx => TrimSpace (stake idx s) | None => s end.

(** [parseScalarValue], with the bodies of [parseFlowMap] and [parseFlowSeq]
    given what they call for each part. *)
Section flow.
Context (value : string → outcome yaml) (n : nat).

Fixpoint flow_map_parts (parts : list string) (m : list (string * yaml)) : outcome yaml :=
  match parts with
  | [] => Ok (YMap m)
  | p :: parts' =>
      let part := TrimSpace p in
      if bool_decide (part = "") then flow_map_parts parts' m
      else
        '(key, rest) ← splitKeyValue part n;
        val ← value rest;
        flow_map_parts parts' (map_set key val m)
  end.

Fixpoint flow_seq_parts (parts : list string) (seq : list yaml) : outcome yaml :=
  match parts with
  | [] => Ok (YSeq seq)
  | p :: parts' =>
      let part := TrimSpace p in
      if bool_decide (part = "") then flow_seq_parts parts' seq
      else val ← value part; flow_seq_parts parts' (seq ++ [val])
  end.

Definition parseFlowMap (s : string) : outcome yaml :=
  inner ← flowInner s "{" "}" n; flow_map_parts (splitFlowParts inner) [].

Definition parseFlowSeq (s : string) : outcome yaml :=
  inner ← flowInner s "[" "]" n; flow_seq_parts (splitFlowParts inner) [].

(** One call of [parseScalarValue]. *)
Definition scalar_call (s0 : string) : outcome yaml :=
  let s := TrimSpace s0 in
  if HasPrefix s "{" then parseFlowMap s
  else if HasPrefix s "[" then parseFlowSeq s
  else if HasPrefix s "&" || HasPrefix s "*" || HasPrefix s "|" || HasPrefix s ">"
  then Err (ErrUnsupported n)
  else match s with
       | EmptyString => Panicked
       | String c body =>
           if is_quote c then quoted s n c body else Ok (YStr (plain s))
       end.
End flow.

Fixpoint parse_scalar (fuel : nat) (s : string) (n : nat) : outcome yaml :=
  match fuel with
  | O => OutOfFuel
  | S f => scalar_call (λ v, parse_scalar f v n) n s
  end.

(** Each nested call is on a shorter string. *)
Definition parseScalarValue (s : string) (n : nat) : outcome yaml :=
  parse_scalar (S (String.length s)) s n.

(** ** Blocks

    The parser's cursor is the suffix [p.lines[p.pos:]] it has not consumed; the
    virtual line [parseSequence] stores at [p.pos] is the head of that suffix.
    The three methods call each other, so they share one fuel. *)

Definition is_dash (l : yamlLine) : bool :=
  HasPrefix (content l) "- " || bool_decide (content l = "-").

Fixpoint parseBlock (fuel : nat) (ls : list yamlLine) (ind : nat) {struct fuel} :
    outcome (yaml * list yamlLine) :=
  match fuel with
  | O => OutOfFuel
  | S f =>
      match ls with
      | [] => Panicked
      | l :: _ => if is_dash l then parseSequence f ls ind [] else parseMapping f ls ind []
      end
  end

with parseSequence (fuel : nat) (ls : list yamlLine) (ind : nat) (seq : list yaml) {struct fuel} :
    outcome (yaml * list yamlLine) :=
  match fuel with
  | O => OutOfFuel
  | S f =>
      match ls with
      | [] => Ok (YSeq seq, [])
      | line :: ls' =>
          if negb (bool_decide (indent line = ind)) || negb (is_dash line) then Ok (YSeq seq, ls)
          else
            let rest := TrimPrefix (TrimPrefix (content line) "-") " " in
            let itemIndent := (ind + 2)%nat in
            if bool_decide (rest = "") then
              match ls' with
              | [] => Err (ErrEmptyItem (lineNo line))
              | next :: _ =>
                  if (indent next <? itemIndent)%nat then Err (ErrEmptyItem (lineNo line))
                  else
                    '(item, ls'') ← parseBlock f ls' (indent next);
                    parseSequence f ls'' ind (seq ++ [item])
              end
            else
              scalar ← (if negb (Contains rest ":") then Ok true else isFlowOrQuoted rest);
              if (scalar : bool) then
                val ← parseScalarValue rest (lineNo line);
                parseSequence f ls' ind (seq ++ [val])
              else
                '(item, ls'') ←
                  parseMapping f (mkLine itemIndent rest (lineNo line) :: ls') itemIndent [];
                parseSequence f ls'' ind (seq ++ [item])
      end
  end

with parseMapping (fuel : nat) (ls : list yamlLine) (ind : nat) (m : list (string * yaml))
    {struct fuel} : outcome (yaml * list yamlLine) :=
  match fuel with
  | O => OutOfFuel
  | S f =>
      match ls with
      | [] => Ok (YMap m, [])
      | line :: ls' =>
          if negb (bool_decide (indent line = ind)) || is_dash line then Ok (YMap m, ls)
          else
            '(key, rest) ← splitKeyValue (content line) (lineNo line);
            if decide (is_Some (map_get key m)) then Err (ErrDupKey (lineNo line) key)
            else if negb (bool_decide (rest = "")) then
              val ← parseScalarValue rest (lineNo line);
              parseMapping f ls' ind (map_set key val m)
            else
              match ls' with
              | next :: _ =>
                  if (ind <? indent next)%nat ||
                     (bool_decide (indent next = ind) && is_dash next)
                  then
                    '(child, ls'') ← parseBlock f ls' (indent next);
                    parseMapping f ls'' ind (map_set key child m)
                  else parseMapping f ls' ind (map_set key (YStr "") m)
              | [] => parseMapping f ls' ind (map_set key (YStr "") m)
              end
      end
  end.

(** Fuel: a block of [n] lines needs three calls per line. *)
Definition block_fuel (n : nat) : nat := 3 * n + 3.

Definition parseYAMLTree (data : string) : outcome yaml :=
  lines ← lexYAML data;
  match lines with
  | [] => Ok (YMap [])
  | l :: _ =>
      '(node, rest) ← parseBlock (block_fuel (length lines)) lines (indent l);
      match rest with
      | [] => Ok node
      | l' :: _ => Err (ErrUnexpected (lineNo l'))
      end
  end.

(** ** Concrete documents *)

Definition doc (ls : list string) : string := foldr (λ l s, l +:+ String NL s) "" ls.
(** The documents below write a single quote for a quoted scalar. *)
Example parse_kubeconfig :
  parseYAMLTree (doc
    ["apiVersion: v1"; "clusters:"; "- cluster:"; "    certificate-authority: /etc/ca.crt # pinned";
     "    server: https://10.0.0.1:6443"; "  name: k"; "preferences: {}"; "users:"; "- name: 'admin'";
     "  user:"; "    exec: {command: aws, args: }x"; "list: [a, 'b, c']"; "empty:"])
  = Err (ErrTrailing 11 "x").
Proof. vm_compute. reflexivity. Qed.
Example parse_kubeconfig_ok :
  parseYAMLTree (doc
    ["---"; "apiVersion: v1"; "clusters:"; "- cluster:"; "    certificate-authority: /etc/ca.crt # pinned";
     "    server: https://10.0.0.1:6443"; "  name: k"; "preferences: {}"; "# users"; "users:"; "- name: 'admin'";
     "  user:"; "    exec: {command: aws, n: 'a, b'}"; "list: [a, 'b, c']"; "empty:"; "nested:"; "  -"; "    - x"])
  = Ok (YMap [("apiVersion", YStr "v1");
      ("clusters", YSeq [YMap [("cluster", YMap [("certificate-authority", YStr "/etc/ca.crt");
                                                 ("server", YStr "https://10.0.0.1:6443")]);
                               ("name", YStr "k")]]);
      ("preferences", YMap []);
      ("users", YSeq [YMap [("name", YStr "admin");
                            ("user", YMap [("exec", YMap [("command", YStr "aws"); ("n", YStr "a, b")])])]]);
      ("list", YSeq [YStr "a"; YStr "b, c"]); ("empty", YStr "");
      ("nested", YSeq [YSeq [YStr "x"]])]).
Proof. vm_compute. reflexivity. Qed.
Example parse_errors :
  map (λ ls, parseYAMLTree (doc ls))
    [["a: 1"; "a: 2"]; ["a: 1"; "---"; "b: 2"]; ["a: 1"; "  b: 2"]; ["-"; "a: 1"];
     ["a: &x"]; ["a:b"]; ["a"]; [": 1"]; ["a: 'x"]; ["a: [x"]; []]
  = [Err (ErrDupKey 2 "a"); Err (ErrMultiDoc 2); Err (ErrUnexpected 2); Err (ErrEmptyItem 1);
     Err (ErrUnsupported 1); Err (ErrNoSpace 1 "a:b"); Err (ErrNoColon 1); Err (ErrEmptyKey 1);
     Err (ErrUnterminated 1); Err (ErrFlow 1); Ok (YMap [])].
Proof. vm_compute. reflexivity. Qed.

(** ** The parser terminates

    [OutOfFuel] belongs to the model: no call of the source corresponds to it. *)

Create HintDb yaml.

Definition ends {A} (o : outcome A) : Prop := o ≠ OutOfFuel.

Lemma ends_bind {A B} (o : outcome A) (f : A → outcome B) :
  ends o → (∀ a, o = Ok a → ends (f a)) → ends (o ≫= f).
Proof. destruct o; simpl; auto; done. Qed.

Lemma ends_Ok {A} (a : A) : ends (Ok a).
Proof. done. Qed.
Lemma ends_Err {A} e : ends (@Err A e).
Proof. done. Qed.
Lemma ends_Panicked {A} : ends (@Panicked A).
Proof. done. Qed.
#[export] Hint Resolve ends_bind ends_Ok ends_Err ends_Panicked : yaml.

(** Follow every branch of a definition that makes no recursive call. *)
Ltac branches :=
  repeat match goal with
  | |- context [match ?x with _ => _ end] =>
      first [ is_var x; destruct x
            | match type of x with _ => destruct x eqn:? end ]
  end.

Lemma splitKeyValue_inv s n key rest :
  splitKeyValue s n = Ok (key, rest) →
  ∃ idx, Index s ":" = Some idx ∧ key = unquote (TrimSpace (stake idx s)) ∧ key ≠ "" ∧
         rest = TrimSpace (sdrop (S idx) s) ∧
         (sdrop (S idx) s = "" ∨ HasPrefix (sdrop (S idx) s) " " = true).
Proof.
  unfold splitKeyValue. destruct (Index s ":") as [idx|]; [|done].
  destruct (negb _ && _) eqn:E; [done|].
  destruct (bool_decide (unquote _ = "")) eqn:Ek; [done|]. apply bool_decide_eq_false_1 in Ek.
  intros [= <- <-]. exists idx. split_and!; [done..|].
  apply andb_false_iff in E as [E|E]; rewrite negb_false_iff in E; [|by right].
  left. by eapply bool_decide_eq_true_1.
Qed.

Lemma splitKeyValue_length s n key rest :
  splitKeyValue s n = Ok (key, rest) → (String.length rest <= String.length s)%nat.
Proof.
  intros (idx & _ & _ & _ & -> & _)%splitKeyValue_inv.
  etrans; [apply slength_TrimSpace|]. rewrite slength_sdrop. lia.
Qed.

Lemma splitKeyValue_ends s n : ends (splitKeyValue s n).
Proof. unfold splitKeyValue. by branches. Qed.

Lemma flowInner_inv s op cl n inner :
  flowInner s op cl n = Ok inner →
  ∃ c s' idx, s = String c s' ∧ c = op ∧ LastIndexByte s cl = Some idx ∧ inner = stake (idx - 1) s'.
Proof.
  unfold flowInner. destruct s as [|c s]; [done|].
  destruct (LastIndexByte (String c s) cl) as [idx|]; [|done].
  case_bool_decide as Hc; [|done]. simpl. destruct (_ && _); [done|]. intros [= <-]. by exists c, s, idx.
Qed.

Lemma flowInner_length s op cl n inner :
  flowInner s op cl n = Ok inner → (String.length inner < String.length s)%nat.
Proof.
  intros (c & s' & idx & -> & _ & _ & ->)%flowInner_inv. simpl.
  pose proof (slength_stake (idx - 1) s'). lia.
Qed.

Lemma flowInner_ends s op cl n : ends (flowInner s op cl n).
Proof. unfold flowInner. by branches. Qed.

Lemma flow_parts_length s q cur :
  Forall (λ p, String.length p <= String.length cur + String.length s)%nat (flow_parts s q cur).
Proof.
  revert q cur. induction s as [|c s IH]; intros q cur; simpl; [constructor; [lia|done]|].
  assert (∀ q' cur', (String.length cur' <= S (String.length cur))%nat →
    Forall (λ p, String.length p <= String.length cur + S (String.length s))%nat
      (flow_parts s q' cur')) as H.
  { intros q' cur' Hc. eapply Forall_impl; [apply IH|]. simpl. lia. }
  assert (String.length (cur +:+ String c "") <= S (String.length cur))%nat as Hc
    by (rewrite slength_app; simpl; lia).
  destruct q; [by apply H|]. destruct (is_quote c); [by apply H|].
  destruct (bool_decide _); [|by apply H]. constructor; [lia|]. apply H. simpl. lia.
Qed.

Lemma splitFlowParts_length s : Forall (λ p, String.length p <= String.length s)%nat (splitFlowParts s).
Proof. apply (flow_parts_length s None ""). Qed.

#[export] Hint Resolve splitKeyValue_ends flowInner_ends : yaml.

Section flow_ends.
Context (value : string → outcome yaml) (n : nat) (k : nat).
Hypothesis value_ends : ∀ v, (String.length v < k)%nat → ends (value v).

Lemma flow_map_parts_ends parts m :
  Forall (λ p, String.length p < k)%nat parts → ends (flow_map_parts value n parts m).
Proof.
  intros Hp. revert m. induction Hp as [|p parts Hlt _ IH]; intros m; [done|]. simpl.
  case_bool_decide; [apply IH|]. apply ends_bind; [auto with yaml|].
  intros [key rest] Hs. apply ends_bind; [|auto]. apply value_ends.
  apply splitKeyValue_length in Hs. pose proof (slength_TrimSpace p). lia.
Qed.

Lemma flow_seq_parts_ends parts seq :
  Forall (λ p, String.length p < k)%nat parts → ends (flow_seq_parts value parts seq).
Proof.
  intros Hp. revert seq. induction Hp as [|p parts Hlt _ IH]; intros seq; [done|]. simpl.
  case_bool_decide; [apply IH|]. apply ends_bind; [|auto]. apply value_ends.
  pose proof (slength_TrimSpace p). lia.
Qed.
End flow_ends.

Lemma parse_scalar_ends f s n : (String.length s < f)%nat → ends (parse_scalar f s n).
Proof.
  revert s. induction f as [|f IH]; intros s Hf; [lia|].
  simpl parse_scalar. unfold scalar_call.
  pose proof (slength_TrimSpace s) as Ht. cbv zeta. set (t := TrimSpace s) in *. clearbody t.
  assert (∀ op cl inner, flowInner t op cl n = Ok inner →
    Forall (λ p, String.length p < f)%nat (splitFlowParts inner)) as Hparts.
  { intros op cl inner Hi%flowInner_length. eapply Forall_impl; [apply splitFlowParts_length|].
    simpl. lia. }
  destruct (HasPrefix t "{").
  { apply ends_bind; [auto with yaml|]. intros inner Hi.
    eapply flow_map_parts_ends; [|by eauto]. intros v Hv. by apply IH. }
  destruct (HasPrefix t "[").
  { apply ends_bind; [auto with yaml|]. intros inner Hi.
    eapply flow_seq_parts_ends; [|by eauto]. intros v Hv. by apply IH. }
  destruct (_ || _); [done|]. destruct t as [|c t]; [done|].
  unfold quoted. by branches.
Qed.

Lemma parseScalarValue_ends s n : ends (parseScalarValue s n).
Proof. apply parse_scalar_ends. lia. Qed.

Lemma isFlowOrQuoted_ends s : ends (isFlowOrQuoted s).
Proof. by destruct s. Qed.
#[export] Hint Resolve parseScalarValue_ends isFlowOrQuoted_ends : yaml.

(** [leaves o P]: the call ends, and what it has not consumed satisfies [P]. *)
Definition leaves (o : outcome (yaml * list yamlLine)) (P : list yamlLine → Prop) : Prop :=
  ends o ∧ ∀ t ls', o = Ok (t, ls') → P ls'.

Lemma leaves_Ok t ls (P : list yamlLine → Prop) : P ls → leaves (Ok (t, ls)) P.
Proof. intros H. split; [done|]. by intros ?? [= <- <-]. Qed.

Lemma leaves_Err e P : leaves (Err e) P.
Proof. by split. Qed.

Lemma leaves_step {A} (o : outcome A) f P :
  ends o → (∀ a, o = Ok a → leaves (f a) P) → leaves (o ≫= f) P.
Proof. destruct o as [a|e| |]; simpl; intros He H; [by apply H|done..]. Qed.

Lemma leaves_call o f (Q P : list yamlLine → Prop) :
  leaves o Q → (∀ t ls, Q ls → leaves (f (t, ls)) P) → leaves (o ≫= f) P.
Proof. intros [He Hq] H. apply leaves_step; [done|]. intros [t ls] E. eauto. Qed.

Lemma leaves_impl o (P Q : list yamlLine → Prop) :
  leaves o P → (∀ ls, P ls → Q ls) → leaves o Q.
Proof. intros [He H] HPQ. split; [done|]. eauto. Qed.
#[export] Hint Resolve leaves_Ok leaves_Err : yaml.

(** What a mapping leaves is its input or a shorter suffix; a sequence or a block
    leaves a suffix no longer than its input. *)
Lemma block_ends f :
  (∀ ls ind, (3 * length ls + 3 <= f)%nat →
     leaves (parseBlock f ls ind) (λ ls', length ls' <= length ls)%nat) ∧
  (∀ ls ind seq, (3 * length ls + 2 <= f)%nat →
     leaves (parseSequence f ls ind seq) (λ ls', length ls' <= length ls)%nat) ∧
  (∀ ls ind m, (3 * length ls + 1 <= f)%nat →
     leaves (parseMapping f ls ind m) (λ ls', ls' = ls ∨ (length ls' < length ls)%nat)).
Proof.
  induction f as [|f (IHb & IHs & IHm)]; [split_and!; intros; lia|]. split_and!.
  - intros [|l ls] ind Hf; simpl in *; [done|]. destruct (is_dash l).
    + apply IHs. simpl. lia.
    + eapply leaves_impl; [apply IHm; simpl; lia|]. intros ls' [->|]; simpl in *; lia.
  - intros [|line ls] ind seq Hf; simpl in *; [auto with yaml|].
    destruct (_ || _); [auto with yaml|].
    set (rest := TrimPrefix _ _). clearbody rest. case_bool_decide.
    + destruct ls as [|next ls]; [auto with yaml|]. destruct (_ <? _)%nat; [auto with yaml|].
      eapply leaves_call; [apply IHb; simpl in *; lia|]. intros item ls'' E.
      eapply leaves_impl; [apply IHs; simpl in *; lia|]. simpl in *. lia.
    + apply leaves_step; [destruct (negb _); auto with yaml|]. intros sc _. destruct sc.
      * apply leaves_step; [auto with yaml|]. intros v _.
        eapply leaves_impl; [apply IHs; lia|]. simpl. lia.
      * eapply leaves_call; [apply IHm; simpl; lia|]. intros item ls'' [->|E]; simpl in *.
        -- destruct f; [lia|]. simpl. rewrite bool_decide_eq_false_2 by (simpl; lia).
           by apply leaves_Ok.
        -- eapply leaves_impl; [apply IHs; lia|]. simpl. lia.
  - assert (∀ ls ls0 ind m, (length ls < length ls0)%nat → (3 * length ls + 1 <= f)%nat →
      leaves (parseMapping f ls ind m) (λ ls', ls' = ls0 ∨ (length ls' < length ls0)%nat)) as IHm'.
    { intros ls ls0 ind m Hls Hf. eapply leaves_impl; [by apply IHm|]. intros ls' [->|]; lia. }
    intros [|line ls] ind m Hf; simpl in *; [auto with yaml|].
    destruct (_ || _); [auto with yaml|].
    apply leaves_step; [auto with yaml|]. intros [key rest] _.
    destruct (decide _); [auto with yaml|]. case_bool_decide; simpl.
    2: { apply leaves_step; [auto with yaml|]. intros v _. apply IHm'; simpl; lia. }
    destruct ls as [|next ls]; [apply IHm'; simpl in *; lia|].
    destruct (_ || _); [|apply IHm'; simpl in *; lia].
    eapply leaves_call; [apply IHb; simpl in *; lia|]. intros child ls'' E.
    apply IHm'; simpl in *; lia.
Qed.

(** The lexer's tab check never fires: the stripped prefix holds spaces only. *)
Lemma indent_no_tab line :
  no_byte "009" (stake (String.length line - String.length (TrimLeft is_blank line)) line) = true.
Proof.
  destruct (TrimLeft_spec is_blank line) as (p & Hl & Hp).
  set (t := TrimLeft is_blank line) in *. clearbody t. subst line.
  rewrite slength_app. replace (_ + _ - _)%nat with (String.length p) by lia. rewrite stake_app.
  unfold no_byte. induction p as [|c p IH]; [done|]. simpl in *.
  apply andb_prop in Hp as [Hc Hp]. rewrite IH by done.
  unfold is_blank in Hc. repeat case_bool_decide; naive_solver.
Qed.

(** The lexer without the check that cannot fire. *)
Definition lex_line (raw : string) (i : nat) : yamlLine :=
  let line := TrimRight is_blank_cr raw in
  let trimmed := TrimLeft is_blank line in
  mkLine (String.length line - String.length trimmed) trimmed (S i).

Lemma lex_lines_step raw raws i out :
  lex_lines (raw :: raws) i out =
    let l := lex_line raw i in
    if bool_decide (content l = "") || HasPrefix (content l) "#" then lex_lines raws (S i) out
    else if bool_decide (content l = "---") then
      match out with [] => lex_lines raws (S i) out | _ => Err (ErrMultiDoc (S i)) end
    else lex_lines raws (S i) (out ++ [l]).
Proof.
  unfold lex_line. simpl. destruct (_ || _); [done|].
  rewrite indent_no_tab. simpl. case_bool_decide; [by destruct out|done].
Qed.

Lemma lex_lines_cases raws i out :
  (∃ ls, lex_lines raws i out = Ok ls) ∨ (∃ n, lex_lines raws i out = Err (ErrMultiDoc n)).
Proof.
  revert i out. induction raws as [|raw raws IH]; intros i out; [by left; exists out|].
  rewrite lex_lines_step. cbv zeta. destruct (_ || _); [apply IH|].
  case_bool_decide; [|apply IH]. destruct out; [apply IH|]. right. by exists (S i).
Qed.

(** Tab-indented files are not rejected as the lexer's comment says:
    whatever the input, the only error the lexer returns is the multi-document one. *)
Theorem lexYAML_no_tab_error data :
  (∃ ls, lexYAML data = Ok ls) ∨ (∃ n, lexYAML data = Err (ErrMultiDoc n)).
Proof. apply lex_lines_cases. Qed.

(** C31. The parser terminates on every input: the fuel the model gives it,
    three calls per line and one per byte of a scalar, is always enough. *)
Theorem parseYAMLTree_total data : parseYAMLTree data ≠ OutOfFuel.
Proof.
  apply ends_bind.
  { unfold lexYAML. destruct (lex_lines_cases (Split data NL) 0 []) as [[ls ->]|[n ->]]; done. }
  intros [|l ls] _; [done|]. apply ends_bind.
  { apply (block_ends (block_fuel (length (l :: ls)))). unfold block_fuel. lia. }
  intros [node [|l' rest]] _; done.
Qed.
