(* ===== verification/YamlFacts.v ===== *)
(** What the kubeconfig parser guarantees of the trees it returns, and on which
    inputs it can panic. *)
From S2P Require Import Prelude GoStrings Yaml.

(** ** Distinct keys

    A Go map cannot repeat a key; in the model this is a property of the entry
    lists, kept by [map_set] and by the duplicate check of block mappings. *)

Fixpoint tree_ok (t : yaml) : bool :=
  match t with
  | YStr _ => true
  | YMap m => bool_decide (NoDup m.*1) && bool_decide ("" ∉ m.*1) && forallb (λ kv, tree_ok kv.2) m
  | YSeq l => forallb tree_ok l
  end.

Definition entries_ok (m : list (string * yaml)) : Prop :=
  NoDup m.*1 ∧ "" ∉ m.*1 ∧ Forall (λ kv, tree_ok kv.2 = true) m.

Lemma tree_ok_map m : tree_ok (YMap m) = true ↔ entries_ok m.
Proof.
  unfold entries_ok. simpl. rewrite !andb_true_iff, !bool_decide_eq_true, forallb_forall, Forall_forall.
  setoid_rewrite list_elem_of_In. tauto.
Qed.

Lemma tree_ok_seq l : tree_ok (YSeq l) = true ↔ Forall (λ t, tree_ok t = true) l.
Proof. simpl. rewrite forallb_forall, Forall_forall. by setoid_rewrite list_elem_of_In. Qed.

Lemma elem_of_keys_map_set {A} k key (val : A) m :
  k ∈ (map_set key val m).*1 ↔ k = key ∨ k ∈ m.*1.
Proof.
  induction m as [|[k' v'] m IH]; simpl; [set_solver|].
  case_decide; simpl; rewrite ?elem_of_cons; [set_solver|]. rewrite IH. set_solver.
Qed.

Lemma map_set_ok key val m :
  entries_ok m → key ≠ "" → tree_ok val = true → entries_ok (map_set key val m).
Proof.
  intros (Hd & He & Hv) Hk Ht. split_and!.
  - clear He Hv. induction m as [|[k v] m IH]; simpl in *; [repeat constructor; set_solver|].
    apply NoDup_cons in Hd as [Hk' Hd]. case_decide; simpl; [by constructor|].
    constructor; [|auto]. rewrite elem_of_keys_map_set. naive_solver.
  - rewrite elem_of_keys_map_set. naive_solver.
  - clear Hd He. induction Hv as [|[k v] m Hkv Hm IH]; simpl; [by repeat constructor|].
    case_decide; constructor; auto.
Qed.

Lemma entries_ok_nil : entries_ok [].
Proof. split_and!; [constructor|set_solver|constructor]. Qed.
#[export] Hint Resolve entries_ok_nil map_set_ok : yaml.

(** [returns P o]: whatever [o] returns satisfies [P]. *)
Definition returns {A} (P : A → Prop) (o : outcome A) : Prop := ∀ a, o = Ok a → P a.

Lemma returns_Ok {A} (P : A → Prop) a : P a → returns P (Ok a).
Proof. by intros H ? [= <-]. Qed.
Lemma returns_Err {A} (P : A → Prop) e : returns P (Err e).
Proof. done. Qed.
Lemma returns_bind {A B} (Q : A → Prop) (P : B → Prop) o f :
  returns Q o → (∀ a, Q a → returns P (f a)) → returns P (o ≫= f).
Proof. destruct o as [a|e| |]; intros HQ H; [|done..]. simpl. apply H. by apply HQ. Qed.
#[export] Hint Resolve returns_Ok returns_Err : yaml.

Definition tree_returned (t : yaml) : Prop := tree_ok t = true.

Lemma splitKeyValue_key s n : returns (λ kv, kv.1 ≠ "") (splitKeyValue s n).
Proof. intros [k r] (idx & _ & _ & Hk & _)%splitKeyValue_inv. done. Qed.

Lemma parse_scalar_ok f s n : returns tree_returned (parse_scalar f s n).
Proof.
  revert s. induction f as [|f IH]; intros s; [done|]. simpl. unfold scalar_call.
  set (t := TrimSpace s). clearbody t. cbv zeta. destruct (HasPrefix t "{").
  { unfold parseFlowMap. apply (returns_bind (λ _, True)); [done|]. intros inner _.
    assert (∀ parts m, entries_ok m → returns tree_returned
      (flow_map_parts (λ v, parse_scalar f v n) n parts m)) as H; [|auto with yaml].
    induction parts as [|p parts IHp]; intros m Hm; [by apply returns_Ok, tree_ok_map|]. simpl.
    case_bool_decide; [auto|]. eapply returns_bind; [apply splitKeyValue_key|].
    intros [key rest] Hk. eapply returns_bind; [apply IH|]. auto with yaml. }
  destruct (HasPrefix t "[").
  { unfold parseFlowSeq. apply (returns_bind (λ _, True)); [done|]. intros inner _.
    assert (∀ parts l, Forall tree_returned l → returns tree_returned
      (flow_seq_parts (λ v, parse_scalar f v n) parts l)) as H; [|auto with yaml].
    induction parts as [|p parts IHp]; intros l Hl; [by apply returns_Ok, tree_ok_seq|]. simpl.
    case_bool_decide; [auto|]. eapply returns_bind; [apply IH|]. intros v Hv.
    apply IHp, Forall_app. by repeat constructor. }
  destruct (_ || _); [done|]. destruct t as [|c t]; [done|].
  unfold quoted. destruct (is_quote c); [|by apply returns_Ok].
  destruct (IndexByte t c); [|done]. destruct (_ && _); [done|]. by apply returns_Ok.
Qed.

Lemma block_ok f :
  (∀ ls ind, returns (λ r, tree_returned r.1) (parseBlock f ls ind)) ∧
  (∀ ls ind seq, Forall tree_returned seq →
     returns (λ r, tree_returned r.1) (parseSequence f ls ind seq)) ∧
  (∀ ls ind m, entries_ok m → returns (λ r, tree_returned r.1) (parseMapping f ls ind m)).
Proof.
  assert (∀ l v, Forall tree_returned l → tree_returned v → Forall tree_returned (l ++ [v])) as Hsnoc.
  { intros. apply Forall_app. by repeat constructor. }
  induction f as [|f (IHb & IHs & IHm)]; [done|]. split_and!.
  - intros [|l ls] ind; [done|]. simpl. destruct (is_dash l); [by apply IHs|].
    apply IHm. auto with yaml.
  - intros [|line ls] ind seq Hs; simpl; [by apply returns_Ok, tree_ok_seq|].
    destruct (_ || _); [by apply returns_Ok, tree_ok_seq|].
    set (rest := TrimPrefix _ _). clearbody rest. case_bool_decide.
    + destruct ls as [|next ls]; [done|]. destruct (_ <? _)%nat; [done|].
      eapply returns_bind; [apply IHb|]. intros [item ls''] Hi. auto.
    + apply (returns_bind (λ _, True)); [done|]. intros [] _.
      * eapply returns_bind; [apply parse_scalar_ok|]. intros v Hv. auto.
      * eapply returns_bind; [apply IHm; auto with yaml|]. intros [item ls''] Hi. auto.
  - intros [|line ls] ind m Hm; simpl; [by apply returns_Ok, tree_ok_map|].
    destruct (_ || _); [by apply returns_Ok, tree_ok_map|].
    eapply returns_bind; [apply splitKeyValue_key|]. intros [key rest] Hk. simpl in Hk.
    destruct (decide _); [done|].
    assert (∀ ls v, tree_returned v → returns (λ r, tree_returned r.1)
      (parseMapping f ls ind (map_set key v m))) as IHm' by auto with yaml.
    case_bool_decide; simpl.
    2: { eapply returns_bind; [apply parse_scalar_ok|]. auto. }
    destruct ls as [|next ls]; [by apply IHm'|].
    destruct (_ || _); [|by apply IHm'].
    eapply returns_bind; [apply IHb|]. intros [child ls''] Hc. auto.
Qed.


Definition sample_doc : string :=
  doc ["users:"; "- name: admin"; "  user: {token: t}"; "kind: Config"].


(** ** Where the parser can panic

    [parseScalarValue] indexes its trimmed argument without a length test, so a
    blank argument is an index out of range.  Two inputs reach it: a flow mapping
    with an entry that has no value, and a dash followed by white space the lexer
    does not strip. *)

Definition safe {A} (P : A → Prop) (o : outcome A) : Prop := o ≠ Panicked ∧ returns P o.

Lemma safe_Ok {A} (P : A → Prop) a : P a → safe P (Ok a).
Proof. split; [done|by apply returns_Ok]. Qed.
Lemma safe_Err {A} (P : A → Prop) e : safe P (Err e).
Proof. done. Qed.
Lemma safe_fuel {A} (P : A → Prop) : safe P OutOfFuel.
Proof. done. Qed.
Lemma safe_bind {A B} (Q : A → Prop) (P : B → Prop) o f :
  safe Q o → (∀ a, Q a → safe P (f a)) → safe P (o ≫= f).
Proof. destruct o as [a|e| |]; intros [Hp HQ] H; [|by split..]. apply H. by apply HQ. Qed.
#[export] Hint Resolve safe_Ok safe_Err safe_fuel : yaml.

(** Printable ASCII without an opening brace. *)
Definition clean (s : string) : bool := ascii_text s && no_byte "{" s.

Lemma clean_ascii s : clean s = true → ascii_text s = true.
Proof. by intros [? _]%andb_prop. Qed.

Lemma sub_of_clean t s : sub_of t s → clean s = true → clean t = true.
Proof.
  unfold clean. intros Hs [H1 H2]%andb_prop. apply andb_true_intro. split.
  - by eapply sub_of_sfree.
  - by eapply sub_of_sfree.
Qed.

Lemma clean_no_brace s : clean s = true → HasPrefix s "{" = false.
Proof.
  intros [_ Hb]%andb_prop. destruct s as [|c s]; [done|]. simpl. unfold no_byte in Hb. simpl in Hb.
  repeat case_bool_decide; naive_solver.
Qed.

Lemma clean_trim_inked s : clean s = true → TrimSpace s ≠ "" → inked (TrimSpace s) = true.
Proof.
  intros Hc%clean_ascii Ht. rewrite inked_TrimSpace by done.
  destruct (inked s) eqn:E; [done|]. by rewrite TrimSpace_blank in Ht.
Qed.

Definition value_ready (s : string) : Prop := clean s = true ∧ inked s = true.

Lemma flow_parts_sub s q cur whole :
  sub_of (cur +:+ s) whole → Forall (λ p, sub_of p whole) (flow_parts s q cur).
Proof.
  revert q cur. induction s as [|c s IH]; intros q cur Hs; simpl.
  { rewrite sapp_nil_r in Hs. by repeat constructor. }
  assert (∀ q', Forall (λ p, sub_of p whole) (flow_parts s q' (cur +:+ String c ""))) as H.
  { intros q'. apply IH. by rewrite sapp_assoc. }
  destruct q; [apply H|]. destruct (is_quote c); [apply H|].
  destruct (bool_decide _); [|apply H]. constructor.
  - eapply sub_of_trans; [|done]. exists "", (String c s). done.
  - apply IH. eapply sub_of_trans; [|done]. exists (cur +:+ String c ""), "".
    by rewrite sapp_nil_r, sapp_assoc.
Qed.

Lemma parse_scalar_safe f s n : value_ready s → safe (λ _, True) (parse_scalar f s n).
Proof.
  revert s. induction f as [|f IH]; intros s [Hc Hi]; [done|]. simpl. unfold scalar_call.
  assert (clean (TrimSpace s) = true) as Htc by (eapply sub_of_clean; eauto with substring).
  assert (inked (TrimSpace s) = true) as Hti by (rewrite inked_TrimSpace; auto using clean_ascii).
  set (t := TrimSpace s) in *. clearbody t. cbv zeta.
  rewrite clean_no_brace by done. destruct (HasPrefix t "[").
  { unfold parseFlowSeq. apply (safe_bind (λ inner, clean inner = true)).
    - split; [destruct t; [done|simpl; repeat case_match; done]|].
      intros inner (c & s' & idx & -> & _ & _ & ->)%flowInner_inv.
      eapply sub_of_clean; [|done]. eapply sub_of_trans; [apply sub_of_stake|].
      apply (sub_of_sdrop 1 (String c s')).
    - intros inner Hinner. generalize (@nil yaml) as l.
      pose proof (flow_parts_sub inner None "" inner (sub_of_refl _)) as Hp.
      unfold splitFlowParts. induction Hp as [|p parts Hpi _ IHp]; intros l; simpl; [auto with yaml|].
      case_bool_decide; [apply IHp|]. apply (safe_bind (λ _, True)); [|auto].
      apply IH. assert (clean p = true) by (by eapply sub_of_clean). split.
      + eapply sub_of_clean; [apply sub_of_TrimSpace|done].
      + by apply clean_trim_inked. }
  destruct (_ || _); [done|]. destruct t as [|c t]; [done|].
  unfold quoted. destruct (is_quote c); [|auto with yaml].
  destruct (IndexByte t c); [|done]. destruct (_ && _); [done|]. auto with yaml.
Qed.

Lemma splitKeyValue_safe s n :
  clean s = true → safe (λ kv, kv.2 = "" ∨ value_ready kv.2) (splitKeyValue s n).
Proof.
  intros Hc. split.
  { unfold splitKeyValue. destruct (Index s ":"); [|done].
    destruct (_ && _); [done|]. by destruct (bool_decide _). }
  intros [key rest] (idx & _ & _ & _ & -> & _)%splitKeyValue_inv. simpl.
  assert (clean (sdrop (S idx) s) = true) as Hd by (eapply sub_of_clean; eauto with substring).
  destruct (decide (TrimSpace (sdrop (S idx) s) = "")); [by left|right]. split.
  - eapply sub_of_clean; eauto with substring.
  - by apply clean_trim_inked.
Qed.

(** A line the parser handles without panicking. *)
Definition line_ready (l : yamlLine) : Prop := clean (content l) = true ∧ ends_ink (content l).

Lemma line_ready_rest l :
  line_ready l → let rest := TrimPrefix (TrimPrefix (content l) "-") " " in
  rest ≠ "" → clean rest = true ∧ ends_ink rest.
Proof.
  intros [Hc Hl] rest Hr.
  assert (∃ p, content l = p +:+ rest) as [p Hp].
  { destruct (TrimPrefix_suffix (content l) "-") as [p1 H1].
    destruct (TrimPrefix_suffix (TrimPrefix (content l) "-") " ") as [p2 H2].
    exists (p1 +:+ p2). unfold rest. by rewrite sapp_assoc, <- H2. }
  split.
  - eapply sub_of_clean; [|done]. exists p, "". by rewrite sapp_nil_r.
  - rewrite Hp in Hl. by eapply ends_ink_suffix.
Qed.

Definition all_ready (r : yaml * list yamlLine) : Prop := Forall line_ready r.2.

Lemma block_safe f :
  (∀ l ls ind, Forall line_ready (l :: ls) → safe all_ready (parseBlock f (l :: ls) ind)) ∧
  (∀ ls ind seq, Forall line_ready ls → safe all_ready (parseSequence f ls ind seq)) ∧
  (∀ ls ind m, Forall line_ready ls → safe all_ready (parseMapping f ls ind m)).
Proof.
  induction f as [|f (IHb & IHs & IHm)]; [done|]. split_and!.
  - intros l ls ind Hl. simpl. destruct (is_dash l); [by apply IHs|by apply IHm].
  - intros ls ind seq [|line ls' Hl Hls]; simpl; [by apply safe_Ok; constructor|].
    destruct (_ || _); [apply safe_Ok; by constructor|].
    pose proof (line_ready_rest line Hl) as Hr. simpl in Hr.
    set (rest := TrimPrefix _ _) in *. clearbody rest. case_bool_decide as Hne.
    + destruct ls' as [|next ls']; [done|]. destruct (_ <? _)%nat; [done|].
      eapply safe_bind; [by apply IHb|]. intros [item ls''] Hi. auto.
    + destruct (Hr Hne) as [Hc Hink]. pose proof (ends_ink_inked _ Hink).
      apply (safe_bind (λ _, True)); [destruct (negb _); [done|destruct rest; [done|by apply safe_Ok]]|].
      intros [] _.
      * eapply safe_bind; [by apply parse_scalar_safe|]. auto.
      * eapply safe_bind; [apply IHm; by constructor|]. intros [item ls''] Hi. auto.
  - intros ls ind m [|line ls' [Hc Hink] Hls]; simpl; [by apply safe_Ok; constructor|].
    destruct (_ || _); [apply safe_Ok; by repeat constructor|].
    eapply safe_bind; [by apply splitKeyValue_safe|]. intros [key rest] Hk. simpl in Hk.
    destruct (decide _); [done|]. case_bool_decide; simpl.
    2: { eapply safe_bind; [apply parse_scalar_safe; naive_solver|]. auto. }
    destruct ls' as [|next ls']; [by apply IHm|]. destruct (_ || _); [|by apply IHm].
    eapply safe_bind; [by apply IHb|]. intros [child ls''] Hi. auto.
Qed.

Lemma lex_line_ready raw i :
  clean (TrimRight is_blank_cr raw) = true → content (lex_line raw i) ≠ "" → line_ready (lex_line raw i).
Proof.
  unfold lex_line, line_ready. simpl. intros Hc Ht. split; [by eapply sub_of_clean; eauto with substring|].
  destruct (TrimLeft_spec is_blank (TrimRight is_blank_cr raw)) as (p & Hs & _).
  destruct (slast_Some _ Ht) as [c Hl]. exists c. split; [done|].
  assert (slast (TrimRight is_blank_cr raw) = Some c) as H by (rewrite Hs, slast_app; done).
  apply slast_TrimRight in H. unfold is_blank, is_blank_cr in *.
  rewrite bool_decide_eq_false in H. rewrite bool_decide_eq_false. naive_solver.
Qed.

(** Printable text: lines of printable ASCII, ended by a line feed or a carriage
    return and a line feed, without an opening brace. *)
Definition printable_doc (data : string) : bool :=
  forallb (λ raw, clean (TrimRight is_blank_cr raw)) (Split data NL).

Lemma lex_lines_ready raws i out :
  forallb (λ raw, clean (TrimRight is_blank_cr raw)) raws = true → Forall line_ready out →
  returns (Forall line_ready) (lex_lines raws i out).
Proof.
  revert i out. induction raws as [|raw raws IH]; intros i out Hr Ho; [by apply returns_Ok|].
  simpl in Hr. apply andb_prop in Hr as [Hr Hrs]. rewrite lex_lines_step. cbv zeta.
  destruct (bool_decide _) eqn:E; [by apply IH|]. apply bool_decide_eq_false in E. cbn [orb].
  destruct (HasPrefix _ _); [by apply IH|].
  destruct (bool_decide _); [destruct out; [by apply IH|done]|].
  apply IH; [done|]. apply Forall_app. split; [done|]. constructor; [|done]. by apply lex_line_ready.
Qed.

(** C32. On printable text without an opening brace the parser never panics. *)
Theorem parseYAMLTree_no_panic data : printable_doc data = true → parseYAMLTree data ≠ Panicked.
Proof.
  intros Hd. apply (safe_bind (Forall line_ready) (λ _, True)).
  { split; [unfold lexYAML; destruct (lex_lines_cases (Split data NL) 0 []) as [[? ->]|[? ->]]; done|].
    by apply lex_lines_ready. }
  intros [|l ls] Hls; [by apply safe_Ok|]. eapply safe_bind; [by apply block_safe|].
  intros [node [|l' rest]] _; [by apply safe_Ok|done].
Qed.

Lemma parseYAMLTree_no_panic_witness :
  let data := doc ["users:"; "- name: 'admin' # me"; "  user:"; "    tokenFile: [a, b]"] in
  printable_doc data = true ∧ parseYAMLTree data ≠ Panicked.
Proof. split; [|apply parseYAMLTree_no_panic]; vm_compute; reflexivity. Defined.

(** Both conditions are needed: a flow mapping entry without a value, and a
    dash followed by a tab, index an empty string. *)
Theorem parseYAMLTree_panics :
  parseYAMLTree (doc ["users:"; "- name: admin"; "  user: {token: }"]) = Panicked ∧
  parseYAMLTree (doc ["- " +:+ String "009" ""]) = Panicked.
Proof. split; vm_compute; reflexivity. Qed.

Lemma splitKeyValue_colon k after n :
  no_byte ":" k = true →
  splitKeyValue (k +:+ String ":" after) n =
    if negb (bool_decide (after = "")) && negb (HasPrefix after " ")
    then Err (ErrNoSpace n (k +:+ String ":" after))
    else if bool_decide (unquote (TrimSpace k) = "") then Err (ErrEmptyKey n)
         else Ok (unquote (TrimSpace k), TrimSpace after).
Proof.
  intros Hk. unfold splitKeyValue. rewrite Index_byte, IndexByte_app by done.
  by rewrite sdrop_S_app, stake_app.
Qed.

Lemma unquote_open q k : no_byte q k = true → unquote (String q k) = String q k.
Proof.
  intros Hn. unfold unquote. destruct k as [|c k]; [done|].
  case_bool_decide as Hl; [|by rewrite andb_false_r].
  change (slast (String c k) = Some q) in Hl. apply slast_no_byte in Hl. by rewrite Hl in Hn.
Qed.

(** Quoting does not protect a colon: a quoted key with a colon inside it
    never comes out whole.  Directly followed by text it is an error, followed by a
    blank the key is cut at it, its opening quote kept. *)
Theorem splitKeyValue_ignores_quotes q k k2 v n :
  is_quote q = true → no_byte ":" k = true → TrimSpace (String q k) = String q k → no_byte q k = true →
  (let s := String q (k +:+ ": " +:+ k2 +:+ String q (": " +:+ v)) in
   ∃ rest, splitKeyValue s n = Ok (String q k, rest)) ∧
  (let s := String q (k +:+ ":x" +:+ k2 +:+ String q (": " +:+ v)) in
   splitKeyValue s n = Err (ErrNoSpace n s)).
Proof.
  intros Hq Hk Ht Hn. assert (no_byte ":" (String q k) = true) as Hqk.
  { rewrite no_byte_cons, Hk. unfold is_quote in Hq. repeat case_bool_decide; naive_solver. }
  split; cbv zeta.
  - eexists. etrans; [apply (splitKeyValue_colon (String q k) (" " +:+ k2 +:+ String q (": " +:+ v))); done|].
    rewrite HasPrefix_app, andb_false_r, Ht, unquote_open by done. done.
  - apply (splitKeyValue_colon (String q k) ("x" +:+ k2 +:+ String q (": " +:+ v))). done.
Qed.

Lemma splitKeyValue_ignores_quotes_witness :
  ∃ rest, splitKeyValue "'a: b': v" 1 = Ok ("'a", rest).
Proof.
  apply (splitKeyValue_ignores_quotes "'" "a" "b" "v" 1); vm_compute; reflexivity.
Defined.
