(* ===== verification/YamlPrint.v ===== *)
(** A printer for trees in the layout kubeadm and kubectl write, and the proof
    that the parser reads back every tree it prints. *)
From S2P Require Import Prelude GoStrings Yaml YamlFacts.

(** ** The printer

    Mappings are indented by two, a sequence sits at the indent of its key, and a
    scalar is plain when the parser reads it back as it is and quoted otherwise. *)

Definition quote_with (q : ascii) (s : string) : string := String q (s +:+ String q "").

Definition plain_ok (s : string) : bool :=
  match s with
  | EmptyString => false
  | String c _ =>
      negb (is_quote c || bool_decide (c ∈ ["["; "{"; "&"; "*"; "|"; ">"; "#"]%char))
  end && bool_decide (TrimSpace s = s) && bool_decide (TrimLeft is_blank s = s)
  && bool_decide (TrimRight is_blank_cr s = s) && bool_decide (Index s " #" = None).

Definition quote_any (s : string) : string :=
  if no_byte "034" s then quote_with "034" s else quote_with "'" s.
Definition show_value (s : string) : string := if plain_ok s then s else quote_any s.
Definition show_item (s : string) : string :=
  if plain_ok s && no_byte ":" s then s else quote_any s.

Definition dash (ls : list (nat * string)) : list (nat * string) :=
  match ls with
  | (i, c) :: ls' => ((i - 2)%nat, "- " +:+ c) :: ls'
  | [] => []
  end.

Fixpoint entry (i : nat) (k : string) (t : yaml) {struct t} : list (nat * string) :=
  match t with
  | YStr s => [(i, k +:+ ": " +:+ show_value s)]
  | YMap [] => [(i, k +:+ ": {}")]
  | YMap m => (i, k +:+ ":") :: concat (map (λ kv, entry (i + 2) kv.1 kv.2) m)
  | YSeq [] => [(i, k +:+ ": []")]
  | YSeq l => (i, k +:+ ":") :: concat (map (item i) l)
  end
with item (i : nat) (t : yaml) {struct t} : list (nat * string) :=
  match t with
  | YStr s => [(i, "- " +:+ show_item s)]
  | YMap [] => [(i, "- {}")]
  | YMap m => dash (concat (map (λ kv, entry (i + 2) kv.1 kv.2) m))
  | YSeq [] => [(i, "- []")]
  | YSeq l => (i, "-") :: concat (map (item (i + 2)) l)
  end.

Definition entries (i : nat) (m : list (string * yaml)) : list (nat * string) :=
  concat (map (λ kv, entry i kv.1 kv.2) m).
Definition items (i : nat) (l : list yaml) : list (nat * string) := concat (map (item i) l).

Fixpoint spaces (n : nat) : string := match n with O => "" | S n' => String " " (spaces n') end.

(** The text of a top-level mapping. *)
Definition print_tree (m : list (string * yaml)) : string :=
  doc (map (λ l, spaces l.1 +:+ l.2) (entries 0 m)).

(** ** The trees it prints *)

Definition str_ok (s : string) : bool := no_byte NL s && (no_byte "034" s || no_byte "'" s).

Definition key_ok (k : string) : bool :=
  match k with
  | EmptyString => false
  | String c _ => negb (is_quote c || bool_decide (c ∈ ["["; "{"; "#"; "-"]%char))
  end && bool_decide (TrimSpace k = k) && bool_decide (TrimLeft is_blank k = k)
  && no_byte ":" k && no_byte NL k.

Fixpoint printable (t : yaml) : bool :=
  match t with
  | YStr s => str_ok s
  | YMap m => bool_decide (NoDup m.*1) && forallb (λ kv, key_ok kv.1 && printable kv.2) m
  | YSeq l => forallb printable l
  end.

Definition sample_tree : list (string * yaml) :=
  [("apiVersion", YStr "v1"); ("kind", YStr "Config"); ("preferences", YMap []);
   ("clusters", YSeq [YMap [("cluster", YMap [("certificate-authority-data", YStr "LS0tLS1CRUdJTg==");
                                             ("server", YStr "https://10.0.0.1:6443")]);
                            ("name", YStr "kubernetes")]]);
   ("contexts", YSeq [YMap [("name", YStr "admin: main"); ("context", YMap [("user", YStr "")])]; YStr "x"; YStr "a: b"]);
   ("users", YSeq []); ("deep", YSeq [YSeq [YStr "it's"; YSeq []]; YMap []])].
Example sample_round : printable (YMap sample_tree) = true ∧
  parseYAMLTree (print_tree sample_tree) = Ok (YMap sample_tree).
Proof. vm_compute. done. Qed.

(** ** Running the parser without counting fuel *)

Definition fuel_le {A} (o o' : outcome A) : Prop := o = OutOfFuel ∨ o' = o.

Lemma fuel_le_refl {A} (o : outcome A) : fuel_le o o.
Proof. by right. Qed.
Lemma fuel_le_bind {A B} (o o' : outcome A) (f f' : A → outcome B) :
  fuel_le o o' → (∀ a, fuel_le (f a) (f' a)) → fuel_le (o ≫= f) (o' ≫= f').
Proof. intros [->| ->] H; [by left|]. destruct o; [apply H|..]; by right. Qed.
#[export] Hint Resolve fuel_le_refl fuel_le_bind : yaml.

(** One step of each method, given what it calls. *)
Definition seq_body (B : list yamlLine → nat → outcome (yaml * list yamlLine))
    (S : list yamlLine → list yaml → outcome (yaml * list yamlLine))
    (M : list yamlLine → nat → outcome (yaml * list yamlLine))
    (line : yamlLine) (ls : list yamlLine) (i : nat) (seq : list yaml) :=
  if negb (bool_decide (indent line = i)) || negb (is_dash line) then Ok (YSeq seq, line :: ls)
  else
    let rest := TrimPrefix (TrimPrefix (content line) "-") " " in
    if bool_decide (rest = "") then
      match ls with
      | [] => Err (ErrEmptyItem (lineNo line))
      | next :: _ =>
          if (indent next <? i + 2)%nat then Err (ErrEmptyItem (lineNo line))
          else '(item, ls') ← B ls (indent next); S ls' (seq ++ [item])
      end
    else
      scalar ← (if negb (Contains rest ":") then Ok true else isFlowOrQuoted rest);
      if (scalar : bool) then
        val ← parseScalarValue rest (lineNo line); S ls (seq ++ [val])
      else
        '(item, ls') ← M (mkLine (i + 2) rest (lineNo line) :: ls) (i + 2)%nat;
        S ls' (seq ++ [item]).

Definition map_body (B : list yamlLine → nat → outcome (yaml * list yamlLine))
    (M : list yamlLine → list (string * yaml) → outcome (yaml * list yamlLine))
    (line : yamlLine) (ls : list yamlLine) (i : nat) (m : list (string * yaml)) :=
  if negb (bool_decide (indent line = i)) || is_dash line then Ok (YMap m, line :: ls)
  else
    '(key, rest) ← splitKeyValue (content line) (lineNo line);
    if decide (is_Some (map_get key m)) then Err (ErrDupKey (lineNo line) key)
    else if negb (bool_decide (rest = "")) then
      val ← parseScalarValue rest (lineNo line); M ls (map_set key val m)
    else
      match ls with
      | next :: _ =>
          if (i <? indent next)%nat || (bool_decide (indent next = i) && is_dash next)
          then '(child, ls') ← B ls (indent next); M ls' (map_set key child m)
          else M ls (map_set key (YStr "") m)
      | [] => M ls (map_set key (YStr "") m)
      end.

Lemma parseBlock_step f l ls i :
  parseBlock (S f) (l :: ls) i =
    if is_dash l then parseSequence f (l :: ls) i [] else parseMapping f (l :: ls) i [].
Proof. done. Qed.

Lemma parseSequence_step f line ls i seq :
  parseSequence (S f) (line :: ls) i seq =
    seq_body (parseBlock f) (λ ls seq, parseSequence f ls i seq) (λ ls j, parseMapping f ls j [])
      line ls i seq.
Proof. done. Qed.

Lemma parseMapping_step f line ls i m :
  parseMapping (S f) (line :: ls) i m =
    map_body (parseBlock f) (λ ls m, parseMapping f ls i m) line ls i m.
Proof. done. Qed.

Lemma fuel_step f :
  (∀ ls i, fuel_le (parseBlock f ls i) (parseBlock (S f) ls i)) ∧
  (∀ ls i seq, fuel_le (parseSequence f ls i seq) (parseSequence (S f) ls i seq)) ∧
  (∀ ls i m, fuel_le (parseMapping f ls i m) (parseMapping (S f) ls i m)).
Proof.
  induction f as [|f (IHb & IHs & IHm)]; [split_and!; intros; by left|]. split_and!.
  - intros [|l ls] i; [by right|]. rewrite !(parseBlock_step _ l).
    destruct (is_dash l); [apply IHs|apply IHm].
  - intros [|line ls] i seq; [by right|]. rewrite !(parseSequence_step _ line). unfold seq_body.
    destruct (_ || _); [by right|]. cbv zeta. case_bool_decide.
    + destruct ls; [by right|]. destruct (_ <? _)%nat; [by right|].
      apply fuel_le_bind; [apply IHb|]. intros [item ls']. apply IHs.
    + apply fuel_le_bind; [by right|]. intros [].
      * apply fuel_le_bind; [by right|]. intros v. apply IHs.
      * apply fuel_le_bind; [apply IHm|]. intros [item ls']. apply IHs.
  - intros [|line ls] i m; [by right|]. rewrite !(parseMapping_step _ line). unfold map_body.
    destruct (_ || _); [by right|]. apply fuel_le_bind; [by right|]. intros [key rest].
    destruct (decide _); [by right|]. destruct (negb _).
    { apply fuel_le_bind; [by right|]. intros v. apply IHm. }
    destruct ls; [apply IHm|]. destruct (_ || _); [|apply IHm].
    apply fuel_le_bind; [apply IHb|]. intros [child ls']. apply IHm.
Qed.

Lemma fuel_mono {A} (o : nat → outcome A) a :
  (∀ f, fuel_le (o f) (o (S f))) → ∀ f f', (f <= f')%nat → o f = Ok a → o f' = Ok a.
Proof.
  intros Hs f f' Hle Hf. induction Hle as [|f' Hle IH]; [done|].
  destruct (Hs f') as [H|H]; by rewrite H in *.
Qed.

(** With enough fuel, [o] returns [a]. *)
Definition eventually {A} (o : nat → outcome A) (a : A) : Prop := ∃ f0, ∀ f, (f0 <= f)%nat → o f = Ok a.

Definition runsB ls i := eventually (λ f, parseBlock f ls i).
Definition runsS ls i seq := eventually (λ f, parseSequence f ls i seq).
Definition runsM ls i m := eventually (λ f, parseMapping f ls i m).

Lemma runsB_enough ls i r : runsB ls i r → parseBlock (block_fuel (length ls)) ls i = Ok r.
Proof.
  intros [f0 Hf].
  destruct (block_ends (block_fuel (length ls))) as [H _].
  destruct (H ls i) as [He _]; [unfold block_fuel; lia|].
  assert (∀ k, fuel_le (parseBlock (block_fuel (length ls)) ls i)
                 (parseBlock (k + block_fuel (length ls)) ls i)) as Hk.
  { induction k as [|k IH]; [by right|]. destruct IH as [|IH]; [by left|].
    destruct (fuel_step (k + block_fuel (length ls))) as [Hb _].
    destruct (Hb ls i) as [E|E]; [|right; by etrans].
    left. by rewrite <- IH. }
  destruct (Hk f0) as [E|E]; [done|]. rewrite <- E. apply Hf. lia.
Qed.

Lemma eventually_ret {A} (a : A) : eventually (λ _, Ok a) a.
Proof. by exists 0%nat. Qed.

Lemma eventually_S {A} (o o' : nat → outcome A) a :
  (∀ f, o (S f) = o' f) → eventually o' a → eventually o a.
Proof.
  intros Ho [f0 Hf]. exists (S f0). intros [|f] Hle; [lia|]. rewrite Ho. apply Hf. lia.
Qed.

Lemma eventually_bind {A B} (o : nat → outcome A) (k : nat → A → outcome B) a b :
  eventually o a → eventually (λ f, k f a) b → eventually (λ f, o f ≫= k f) b.
Proof.
  intros [f1 H1] [f2 H2]. exists (f1 + f2)%nat. intros f Hle. rewrite H1 by lia. simpl. apply H2. lia.
Qed.

Definition stops_map (i : nat) (tl : list yamlLine) : Prop :=
  match tl with [] => True | l :: _ => indent l ≠ i ∨ is_dash l = true end.
Definition stops_seq (i : nat) (tl : list yamlLine) : Prop :=
  match tl with [] => True | l :: _ => indent l ≠ i ∨ is_dash l = false end.

Section rules.
Context (line : yamlLine) (ls : list yamlLine) (i : nat).
Hypothesis Hi : indent line = i.

Lemma runsM_stop tl m : stops_map i tl → runsM tl i m (YMap m, tl).
Proof.
  intros Hs. eapply eventually_S; [|apply eventually_ret]. intros f. destruct tl as [|l tl]; [done|].
  rewrite parseMapping_step. unfold map_body.
  destruct Hs as [Hs|Hs]; [by rewrite bool_decide_eq_false_2|]. by rewrite Hs, orb_true_r.
Qed.

Lemma runsS_stop tl seq : stops_seq i tl → runsS tl i seq (YSeq seq, tl).
Proof.
  intros Hs. eapply eventually_S; [|apply eventually_ret]. intros f. destruct tl as [|l tl]; [done|].
  rewrite parseSequence_step. unfold seq_body.
  destruct Hs as [Hs|Hs]; [by rewrite bool_decide_eq_false_2|]. by rewrite Hs, orb_true_r.
Qed.

Lemma runsB_map r : is_dash line = false → runsM (line :: ls) i [] r → runsB (line :: ls) i r.
Proof. intros Hd. apply eventually_S. intros f. by rewrite parseBlock_step, Hd. Qed.

Lemma runsB_seq r : is_dash line = true → runsS (line :: ls) i [] r → runsB (line :: ls) i r.
Proof. intros Hd. apply eventually_S. intros f. by rewrite parseBlock_step, Hd. Qed.

Section mapping.
Context (key rest : string) (m : list (string * yaml)).
Hypothesis Hd : is_dash line = false.
Hypothesis Hkv : splitKeyValue (content line) (lineNo line) = Ok (key, rest).
Hypothesis Hm : map_get key m = None.

Lemma runsM_scalar v r :
  rest ≠ "" → parseScalarValue rest (lineNo line) = Ok v → runsM ls i (map_set key v m) r →
  runsM (line :: ls) i m r.
Proof.
  intros Hr Hv. apply eventually_S. intros f. rewrite parseMapping_step. unfold map_body.
  rewrite bool_decide_eq_true_2, Hd, Hkv by done. simpl. rewrite Hm.
  rewrite decide_False by (by intros []). rewrite bool_decide_eq_false_2, Hv by done. done.
Qed.

Lemma runsM_block next ls' ls'' child r :
  rest = "" → ls = next :: ls' → (i < indent next)%nat ∨ indent next = i ∧ is_dash next = true →
  runsB ls (indent next) (child, ls'') → runsM ls'' i (map_set key child m) r →
  runsM (line :: ls) i m r.
Proof.
  intros -> Hls Hn Hb Hr. eapply eventually_S; [|exact (eventually_bind _ (λ f '(child, ls'),
    parseMapping f ls' i (map_set key child m)) _ _ Hb Hr)].
  intros f. rewrite parseMapping_step. unfold map_body.
  rewrite bool_decide_eq_true_2, Hd, Hkv by done. simpl. rewrite Hm.
  rewrite decide_False by (by intros []). subst ls.
  destruct Hn as [Hn|[Hn ->]].
  - apply Nat.ltb_lt in Hn. by rewrite Hn.
  - rewrite (bool_decide_eq_true_2 _ Hn). by rewrite orb_true_r.
Qed.
End mapping.

Section sequence.
Context (rest : string) (seq : list yaml).
Hypothesis Hd : is_dash line = true.
Hypothesis Hrest : TrimPrefix (TrimPrefix (content line) "-") " " = rest.

Lemma runsS_scalar v r :
  rest ≠ "" → Contains rest ":" = false ∨ isFlowOrQuoted rest = Ok true →
  parseScalarValue rest (lineNo line) = Ok v → runsS ls i (seq ++ [v]) r →
  runsS (line :: ls) i seq r.
Proof.
  intros Hr Hs Hv. apply eventually_S. intros f. rewrite parseSequence_step. unfold seq_body.
  rewrite bool_decide_eq_true_2, Hd, Hrest by done. cbn [negb orb]. cbv zeta.
  rewrite bool_decide_eq_false_2 by done.
  destruct (Contains rest ":"); [destruct Hs as [|Hs]; [done|]; simpl; rewrite Hs|].
  all: simpl; by rewrite Hv.
Qed.

Lemma runsS_map item ls' r :
  Contains rest ":" = true → isFlowOrQuoted rest = Ok false →
  runsM (mkLine (i + 2) rest (lineNo line) :: ls) (i + 2) [] (item, ls') →
  runsS ls' i (seq ++ [item]) r → runsS (line :: ls) i seq r.
Proof.
  intros Hc Hf Hm Hr. eapply eventually_S; [|exact (eventually_bind _ (λ f '(item, ls'),
    parseSequence f ls' i (seq ++ [item])) _ _ Hm Hr)].
  intros f. rewrite parseSequence_step. unfold seq_body.
  rewrite bool_decide_eq_true_2, Hd, Hrest by done. cbn [negb orb]. cbv zeta.
  rewrite bool_decide_eq_false_2 by (by intros ->). rewrite Hc, Hf. done.
Qed.

Lemma runsS_block next ls' ls'' item r :
  rest = "" → ls = next :: ls' → (i + 2 <= indent next)%nat →
  runsB ls (indent next) (item, ls'') → runsS ls'' i (seq ++ [item]) r →
  runsS (line :: ls) i seq r.
Proof.
  intros -> Hls Hn Hb Hr. eapply eventually_S; [|exact (eventually_bind _ (λ f '(item, ls'),
    parseSequence f ls' i (seq ++ [item])) _ _ Hb Hr)].
  intros f. rewrite parseSequence_step. unfold seq_body.
  rewrite bool_decide_eq_true_2, Hd, Hrest by done. cbn [negb orb]. cbv zeta.
  rewrite bool_decide_eq_true_2 by done. subst ls.
  apply Nat.ltb_ge in Hn. by rewrite Hn.
Qed.
End sequence.
End rules.

(** ** The printed text of scalars and keys *)

Definition solid (c : ascii) : bool := plain_byte c && negb (is_blank c).

Lemma TrimSpace_solid c s d s' :
  String c s = s' +:+ String d "" → solid c = true → solid d = true → TrimSpace (String c s) = String c s.
Proof.
  intros E [Hc Hcb]%andb_prop [Hd Hdb]%andb_prop. rewrite negb_true_iff in Hcb, Hdb.
  assert (∀ f rs s, strip_one rs s = None → strip_all f rs s = s) as Hstop.
  { intros [|f] rs t Ht; [done|]. simpl. by rewrite Ht. }
  unfold TrimSpace, TrimSpaceRight, TrimSpaceLeft.
  rewrite (Hstop _ space_runes) by (by rewrite strip_one_plain, Hcb).
  assert (srev (String c s) = String d (srev s')) as Er.
  { rewrite E, srev_sapp. done. }
  rewrite (Hstop _ (map srev space_runes)); [by rewrite srev_srev|]. rewrite Er.
  by rewrite strip_one_rev_plain, Hdb.
Qed.

Lemma TrimSpace_blank_cons s : TrimSpace (String " " s) = TrimSpace s.
Proof. done. Qed.

Lemma quote_solid q : is_quote q = true → solid q = true.
Proof. unfold is_quote. intros [->| ->]%bool_decide_eq_true_1; done. Qed.

Lemma TrimSpace_quote q s : is_quote q = true → TrimSpace (quote_with q s) = quote_with q s.
Proof.
  intros Hq%quote_solid. unfold quote_with. by apply (TrimSpace_solid q _ q (String q s)).
Qed.

Lemma parse_quote q s n :
  is_quote q = true → no_byte q s = true → parseScalarValue (quote_with q s) n = Ok (YStr s).
Proof.
  intros Hq Hs. unfold parseScalarValue. simpl parse_scalar. unfold scalar_call.
  rewrite TrimSpace_quote by done. cbv zeta. unfold quote_with.
  assert (∀ c t, is_quote c = false → HasPrefix (String q t) (String c "") = false) as Hp.
  { intros c t Hc. simpl. rewrite bool_decide_eq_false_2; [done|]. congruence. }
  rewrite !Hp by done. cbn [orb]. rewrite Hq. unfold quoted. rewrite IndexByte_app by done.
  change (2 + String.length s)%nat with (S (S (String.length s))).
  change (sdrop (S (S (String.length s))) (String q (s +:+ String q "")))
    with (sdrop (S (String.length s)) (s +:+ String q "")).
  rewrite sdrop_S_app, stake_app. done.
Qed.

Lemma parse_quote_any s n :
  str_ok s = true → parseScalarValue (quote_any s) n = Ok (YStr s).
Proof.
  intros [_ Hs]%andb_prop. unfold quote_any. destruct (no_byte "034" s) eqn:E; by apply parse_quote.
Qed.

Lemma plain_ok_inv s :
  plain_ok s = true → s ≠ "" ∧ TrimSpace s = s ∧ TrimLeft is_blank s = s ∧ TrimRight is_blank_cr s = s ∧
  Index s " #" = None ∧ ∃ c s', s = String c s' ∧ is_quote c = false ∧ c ∉ ["["; "{"; "&"; "*"; "|"; ">"; "#"]%char.
Proof.
  unfold plain_ok. intros [[[[Hc H1]%andb_prop H2]%andb_prop H3]%andb_prop H4]%andb_prop.
  apply bool_decide_eq_true_1 in H1, H2, H3, H4. split_and!; try done; [by intros ->|].
  destruct s as [|c s]; [done|]. rewrite negb_true_iff, orb_false_iff, bool_decide_eq_false in Hc.
  exists c, s. naive_solver.
Qed.

Lemma parse_plain s n : plain_ok s = true → parseScalarValue s n = Ok (YStr s).
Proof.
  intros (_ & Ht & _ & _ & Hi & c & s' & Hs & Hq & Hc)%plain_ok_inv.
  unfold parseScalarValue. simpl parse_scalar. unfold scalar_call. rewrite Ht. cbv zeta.
  assert (∀ d, d ∈ ["["; "{"; "&"; "*"; "|"; ">"; "#"]%char → HasPrefix s (String d "") = false) as Hp.
  { intros d Hd. subst s. simpl. rewrite bool_decide_eq_false_2; [done|]. by intros ->. }
  rewrite !Hp by set_solver. cbn [orb]. unfold plain. rewrite Hi. by rewrite Hs, Hq.
Qed.

Lemma parse_show_value s n : str_ok s = true → parseScalarValue (show_value s) n = Ok (YStr s).
Proof.
  intros Hs. unfold show_value. destruct (plain_ok s) eqn:E; [by apply parse_plain|by apply parse_quote_any].
Qed.

Lemma parse_show_item s n : str_ok s = true → parseScalarValue (show_item s) n = Ok (YStr s).
Proof.
  intros Hs. unfold show_item. destruct (plain_ok s) eqn:E; simpl; [|by apply parse_quote_any].
  destruct (no_byte ":" s); [by apply parse_plain|by apply parse_quote_any].
Qed.

Lemma TrimSpace_show_value s : TrimSpace (show_value s) = show_value s.
Proof.
  unfold show_value. destruct (plain_ok s) eqn:E; [by apply plain_ok_inv in E as (_ & ? & _)|].
  unfold quote_any. destruct (no_byte _ _); by apply TrimSpace_quote.
Qed.

Lemma show_value_ne s : show_value s ≠ "".
Proof.
  unfold show_value. destruct (plain_ok s) eqn:E; [by apply plain_ok_inv in E as [? _]|].
  unfold quote_any. by destruct (no_byte _ _).
Qed.

Lemma show_item_scalar s :
  show_item s ≠ "" ∧ (Contains (show_item s) ":" = false ∨ isFlowOrQuoted (show_item s) = Ok true).
Proof.
  unfold show_item. destruct (plain_ok s && no_byte ":" s) eqn:E.
  - apply andb_prop in E as [Hp Hc]. split; [by apply plain_ok_inv in Hp as [? _]|left].
    unfold Contains. apply bool_decide_eq_false. rewrite Index_byte.
    apply IndexByte_None in Hc. rewrite Hc. by intros [].
  - unfold quote_any. destruct (no_byte "034" s); (split; [done|by right]).
Qed.

Lemma key_ok_inv k :
  key_ok k = true → TrimSpace k = k ∧ TrimLeft is_blank k = k ∧ no_byte ":" k = true ∧ no_byte NL k = true ∧
  ∃ c k', k = String c k' ∧ is_quote c = false ∧ c ∉ ["["; "{"; "#"; "-"]%char.
Proof.
  unfold key_ok. intros [[[[Hc H1]%andb_prop H2]%andb_prop H3]%andb_prop H4]%andb_prop.
  apply bool_decide_eq_true_1 in H1, H2. split_and!; try done.
  destruct k as [|c k]; [done|]. rewrite negb_true_iff, orb_false_iff, bool_decide_eq_false in Hc.
  exists c, k. naive_solver.
Qed.

Lemma split_key k after n :
  key_ok k = true → after = "" ∨ HasPrefix after " " = true →
  splitKeyValue (k +:+ String ":" after) n = Ok (k, TrimSpace after).
Proof.
  intros (Ht & _ & Hn & _ & c & k' & -> & Hq & _)%key_ok_inv Ha.
  rewrite splitKeyValue_colon, Ht by done. unfold unquote. rewrite Hq, andb_false_r. cbn [andb].
  rewrite (bool_decide_eq_false_2 (String c k' = "")) by done.
  by destruct Ha as [->| ->]; rewrite ?andb_false_r.
Qed.

Lemma key_line k s i n : key_ok k = true → is_dash (mkLine i (k +:+ s) n) = false.
Proof.
  intros (_ & _ & _ & _ & c & k' & -> & _ & Hc)%key_ok_inv. unfold is_dash. simpl content.
  rewrite sapp_cons. assert ("-"%char ≠ c) as Hne by (intros <-; set_solver).
  simpl. rewrite !bool_decide_eq_false_2; [done|by intros [= ? _]|done].
Qed.

(** ** Reading back what was printed *)

Definition shape (l : yamlLine) : nat * string := (indent l, content l).

Definition hd_is (P : yamlLine → Prop) (tl : list yamlLine) : Prop :=
  match tl with [] => True | l :: _ => P l end.
Definition after_entry (i : nat) := hd_is (λ l, indent l < i ∨ indent l = i ∧ is_dash l = false)%nat.
Definition after_item (i : nat) := hd_is (λ l, indent l <= i)%nat.
Definition below (i : nat) := hd_is (λ l, indent l < i)%nat.

Lemma yaml_ind_deep (P : yaml → Prop) :
  (∀ s, P (YStr s)) → (∀ m, Forall (λ kv, P kv.2) m → P (YMap m)) →
  (∀ l, Forall P l → P (YSeq l)) → ∀ t, P t.
Proof.
  intros Hs Hm Hl. fix IH 1. intros [s|m|l]; [apply Hs|apply Hm|apply Hl].
  - induction m as [|[k t] m IHm]; constructor; [apply IH|exact IHm].
  - induction l as [|t l IHl]; constructor; [apply IH|exact IHl].
Qed.

Lemma entry_head i k t : ∃ s r, entry i k t = (i, k +:+ String ":" s) :: r.
Proof. destruct t as [s|[|kv m]|[|t l]]; simpl; by repeat eexists. Qed.

Lemma entries_cons i k t m : entries i ((k, t) :: m) = entry i k t ++ entries i m.
Proof. done. Qed.

Lemma item_head i t : ∃ s r, item i t = (i, String "-" s) :: r ∧ (s = "" ∨ HasPrefix s " " = true).
Proof.
  destruct t as [s|[|[k t] m]|[|t l]]; simpl; try (by repeat eexists; auto).
  destruct (entry_head (i + 2) k t) as (s & r & ->). simpl.
  replace (i + 2 - 2)%nat with i by lia. eexists _, _. split; [done|by right].
Qed.

Lemma item_line i s n : s = "" ∨ HasPrefix s " " = true → is_dash (mkLine i (String "-" s) n) = true.
Proof.
  intros [->|Hs]; [done|]. unfold is_dash. apply orb_true_intro. left. simpl. by destruct s.
Qed.

Lemma map_shape_cons ls i c r :
  map shape ls = (i, c) :: r → ∃ n ls', ls = mkLine i c n :: ls' ∧ map shape ls' = r.
Proof. destruct ls as [|[i' c' n] ls']; [done|]. intros [= -> -> <-]. by exists n, ls'. Qed.

Lemma map_set_fresh {A} k (v : A) m : k ∉ m.*1 → map_set k v m = m ++ [(k, v)].
Proof.
  induction m as [|[k' v'] m IH]; simpl; [done|]. intros Hk. rewrite decide_False by set_solver.
  f_equal. apply IH. set_solver.
Qed.

Lemma map_get_fresh {A} k (m : list (string * A)) : k ∉ m.*1 → map_get k m = None.
Proof.
  induction m as [|[k' v'] m IH]; simpl; [done|]. intros Hk. rewrite decide_False by set_solver.
  apply IH. set_solver.
Qed.

Definition reads_entry (t : yaml) : Prop := ∀ i k m ls tl r,
  map shape ls = entry i k t → key_ok k = true → printable t = true → k ∉ m.*1 →
  after_entry i tl → runsM tl i (m ++ [(k, t)]) r → runsM (ls ++ tl) i m r.
Definition reads_item (t : yaml) : Prop := ∀ i seq ls tl r,
  map shape ls = item i t → printable t = true → after_item i tl →
  runsS tl i (seq ++ [t]) r → runsS (ls ++ tl) i seq r.

Definition entry_ok (kv : string * yaml) : bool := key_ok kv.1 && printable kv.2.

Lemma read_entries m :
  Forall (λ kv, reads_entry kv.2) m → ∀ i acc ls tl,
  map shape ls = entries i m → forallb entry_ok m = true → NoDup (acc.*1 ++ m.*1) → below i tl →
  runsM (ls ++ tl) i acc (YMap (acc ++ m), tl).
Proof.
  induction 1 as [|[k t] m Ht _ IH]; intros i acc ls tl Hls Hok Hd Htl.
  - apply map_eq_nil in Hls as ->. rewrite app_nil_r. apply runsM_stop.
    destruct tl; [done|]. left. simpl in Htl. lia.
  - rewrite entries_cons in Hls. apply map_eq_app in Hls as (ls1 & ls2 & -> & H1 & H2).
    simpl in Hok. apply andb_prop in Hok as [[Hk Hp]%andb_prop Hok]. simpl in Hd, Hk, Hp.
    rewrite <- app_assoc. eapply Ht; [done..| | |].
    + apply NoDup_app in Hd as (_ & Hd & _). intros Hin. apply (Hd k Hin). by left.
    + destruct m as [|[k2 t2] m].
      * apply map_eq_nil in H2 as ->. destruct tl; [done|]. by left.
      * destruct (entry_head i k2 t2) as (s & r & He). rewrite entries_cons, He in H2.
        apply map_shape_cons in H2 as (n & ls' & -> & _). simpl in Hok.
        apply andb_prop in Hok as [[Hk2 _]%andb_prop _]. right. split; [done|]. by apply key_line.
    + replace (acc ++ (k, t) :: m) with ((acc ++ [(k, t)]) ++ m) by (by rewrite <- app_assoc).
      apply IH; [done..| |done]. rewrite fmap_app, <- app_assoc. done.
Qed.

Lemma read_items l :
  Forall reads_item l → ∀ i seq ls tl,
  map shape ls = items i l → forallb printable l = true → after_entry i tl →
  runsS (ls ++ tl) i seq (YSeq (seq ++ l), tl).
Proof.
  induction 1 as [|t l Ht _ IH]; intros i seq ls tl Hls Hok Htl.
  - apply map_eq_nil in Hls as ->. rewrite app_nil_r. apply runsS_stop.
    destruct tl as [|l tl]; [done|]. simpl in *. destruct Htl as [|[]]; [left; lia|by right].
  - change (items i (t :: l)) with (item i t ++ items i l) in Hls.
    apply map_eq_app in Hls as (ls1 & ls2 & -> & H1 & H2).
    simpl in Hok. apply andb_prop in Hok as [Hp Hok].
    rewrite <- app_assoc. eapply Ht; [done..| |].
    + destruct l as [|t2 l].
      * apply map_eq_nil in H2 as ->. destruct tl; [done|]. simpl in *. lia.
      * destruct (item_head i t2) as (s & r & He & _).
        change (items i (t2 :: l)) with (item i t2 ++ items i l) in H2. rewrite He in H2.
        apply map_shape_cons in H2 as (n & ls' & -> & _). simpl. lia.
    + replace (seq ++ t :: l) with ((seq ++ [t]) ++ l) by (by rewrite <- app_assoc).
      by apply IH.
Qed.

Lemma printable_map m :
  printable (YMap m) = true → NoDup m.*1 ∧ forallb entry_ok m = true.
Proof. simpl. intros [Hd Hm]%andb_prop. by apply bool_decide_eq_true_1 in Hd. Qed.

Lemma split_bare k n : key_ok k = true → splitKeyValue (k +:+ ":") n = Ok (k, "").
Proof. intros Hk. apply (split_key k "" n); [done|by left]. Qed.

Lemma split_value k v n : key_ok k = true → splitKeyValue (k +:+ ": " +:+ v) n = Ok (k, TrimSpace v).
Proof. intros Hk. apply (split_key k (String " " v) n); [done|by right]. Qed.

(** A printed entry on one line. *)
Lemma read_inline i k m v text t tl r n :
  key_ok k = true → k ∉ m.*1 → v ≠ "" → TrimSpace text = v → parseScalarValue v n = Ok t →
  runsM tl i (m ++ [(k, t)]) r → runsM (mkLine i (k +:+ ": " +:+ text) n :: tl) i m r.
Proof.
  intros Hk Hm Hv Ht Hp Hr. eapply runsM_scalar; simpl; [done|by apply key_line| | | |done|].
  - rewrite split_value, Ht; done.
  - by apply map_get_fresh.
  - done.
  - by rewrite map_set_fresh.
Qed.

(** A printed entry whose value is the block below it. *)
Lemma read_below i k m t next ls tl r n :
  key_ok k = true → k ∉ m.*1 →
  (i < indent next)%nat ∨ indent next = i ∧ is_dash next = true →
  runsB (next :: ls) (indent next) (t, tl) → runsM tl i (m ++ [(k, t)]) r →
  runsM (mkLine i (k +:+ ":") n :: next :: ls) i m r.
Proof.
  intros Hk Hm Hn Hb Hr. eapply runsM_block; simpl; [done|by apply key_line| | |done|done|done|done|].
  - by rewrite split_bare.
  - by apply map_get_fresh.
  - by rewrite map_set_fresh.
Qed.

(** A printed item on one line. *)
Lemma read_item_inline i seq text t tl r n :
  text ≠ "" → Contains text ":" = false ∨ isFlowOrQuoted text = Ok true →
  parseScalarValue text n = Ok t → runsS tl i (seq ++ [t]) r →
  runsS (mkLine i ("- " +:+ text) n :: tl) i seq r.
Proof. intros Ht Hs Hp Hr. by apply (runsS_scalar (mkLine i ("- " +:+ text) n) tl i eq_refl text seq eq_refl eq_refl t r). Qed.

Lemma entries_lines i kv m ls :
  map shape ls = entries i (kv :: m) → forallb entry_ok (kv :: m) = true →
  ∃ k s n ls', ls = mkLine i (k +:+ String ":" s) n :: ls' ∧ key_ok k = true.
Proof.
  destruct kv as [k t]. intros Hls Hok. simpl in Hok. apply andb_prop in Hok as [[Hk _]%andb_prop _].
  destruct (entry_head i k t) as (s & r & He). rewrite entries_cons, He in Hls.
  apply map_shape_cons in Hls as (n & ls' & -> & _). by exists k, s, n, ls'.
Qed.

Lemma items_lines i t l ls :
  map shape ls = items i (t :: l) →
  ∃ s n ls', ls = mkLine i (String "-" s) n :: ls' ∧ is_dash (mkLine i (String "-" s) n) = true.
Proof.
  intros Hls. change (items i (t :: l)) with (item i t ++ items i l) in Hls.
  destruct (item_head i t) as (s & r & He & Hs). rewrite He in Hls.
  apply map_shape_cons in Hls as (n & ls' & -> & _). exists s, n, ls'. by eauto using item_line.
Qed.

Lemma key_item k s : key_ok k = true →
  Contains (k +:+ String ":" s) ":" = true ∧ isFlowOrQuoted (k +:+ String ":" s) = Ok false.
Proof.
  intros (_ & _ & Hn & _ & c & k' & -> & Hq & Hc)%key_ok_inv. split.
  - unfold Contains. apply bool_decide_eq_true. rewrite Index_byte, IndexByte_app by done. by eexists.
  - simpl. rewrite Hq. simpl. rewrite bool_decide_eq_false_2; [done|]. intros [->| ->]; set_solver.
Qed.

Lemma after_entry_nested i tl : after_item i tl → after_entry (i + 2) tl.
Proof. destruct tl; [done|]. simpl. lia. Qed.

Lemma after_entry_below i tl : after_entry i tl → below (i + 2) tl.
Proof. destruct tl; [done|]. simpl. lia. Qed.

Lemma after_item_below i tl : after_item i tl → below (i + 2) tl.
Proof. destruct tl; [done|]. simpl. lia. Qed.

Lemma read_map_value kv m :
  Forall (λ kv, reads_entry kv.2) (kv :: m) → reads_entry (YMap (kv :: m)) ∧ reads_item (YMap (kv :: m)).
Proof.
  intros IH. split.
  - intros i k m' ls tl r Hls Hk [Hd Hp]%printable_map Hm Htl Hr.
    apply map_shape_cons in Hls as (n & ls' & -> & Hls').
    change (map shape ls' = entries (i + 2) (kv :: m)) in Hls'.
    destruct (entries_lines _ _ _ _ Hls' Hp) as (k1 & s1 & n1 & ls1 & -> & Hk1).
    simpl app. eapply read_below; [done|done|left; simpl; lia| |done].
    apply runsB_map; [by apply key_line|].
    apply (read_entries (kv :: m) IH (i + 2) [] (_ :: ls1)); [done..|by apply after_entry_below].
  - intros i seq ls tl r Hls [Hd Hp]%printable_map Htl Hr.
    change (map shape ls = dash (entries (i + 2) (kv :: m))) in Hls.
    destruct (entries (i + 2) (kv :: m)) as [|[j c] rest] eqn:He.
    { destruct kv as [k t]. destruct (entry_head (i + 2) k t) as (s & r' & Hh).
      rewrite entries_cons, Hh in He. done. }
    apply map_shape_cons in Hls as (n & ls' & -> & Hls').
    assert (map shape (mkLine j c n :: ls') = entries (i + 2) (kv :: m)) as Hls.
    { rewrite He, <- Hls'. done. }
    destruct (entries_lines _ _ _ _ Hls Hp) as (k1 & s1 & n1 & ls1 & [= -> -> <- <-] & Hk1).
    replace (i + 2 - 2)%nat with i by lia. destruct (key_item k1 s1 Hk1) as [Hc Hf].
    set (c := k1 +:+ String ":" s1) in *.
    eapply (runsS_map (mkLine i ("- " +:+ c) n) (ls' ++ tl) i eq_refl c seq);
      [done|done|exact Hc|exact Hf| |exact Hr].
    apply (read_entries (kv :: m) IH (i + 2) [] (_ :: ls')); [done..|by apply after_item_below].
Qed.

Lemma read_seq_value t l :
  Forall reads_item (t :: l) → reads_entry (YSeq (t :: l)) ∧ reads_item (YSeq (t :: l)).
Proof.
  intros IH. split.
  - intros i k m ls tl r Hls Hk Hp Hm Htl Hr.
    apply map_shape_cons in Hls as (n & ls' & -> & Hls').
    change (map shape ls' = items i (t :: l)) in Hls'.
    destruct (items_lines _ _ _ _ Hls') as (s1 & n1 & ls1 & -> & Hd).
    simpl app. eapply read_below; [done|done|by right| |done].
    apply runsB_seq; [done|]. by apply (read_items (t :: l) IH i [] (_ :: ls1)).
  - intros i seq ls tl r Hls Hp Htl Hr.
    apply map_shape_cons in Hls as (n & ls' & -> & Hls').
    change (map shape ls' = items (i + 2) (t :: l)) in Hls'.
    destruct (items_lines _ _ _ _ Hls') as (s1 & n1 & ls1 & -> & Hd).
    simpl app. eapply (runsS_block (mkLine i "-" n) _ i eq_refl "" seq); [done|done|done|done|simpl; lia| |exact Hr].
    apply runsB_seq; [done|].
    apply (read_items (t :: l) IH (i + 2) [] (_ :: ls1)); [done..|by apply after_entry_nested].
Qed.

Lemma read_both t : reads_entry t ∧ reads_item t.
Proof.
  induction t as [s|m IH|l IH] using yaml_ind_deep.
  - split.
    + intros i k m ls tl r Hls Hk Hp Hm _ Hr.
      apply map_shape_cons in Hls as (n & ls' & -> & ->%map_eq_nil). simpl.
      eapply read_inline; [done|done|apply show_value_ne|apply TrimSpace_show_value|by apply parse_show_value|done].
    + intros i seq ls tl r Hls Hp _ Hr.
      apply map_shape_cons in Hls as (n & ls' & -> & ->%map_eq_nil). simpl.
      destruct (show_item_scalar s) as [Hne Hs].
      eapply read_item_inline; [done|done|by apply parse_show_item|done].
  - destruct m as [|kv m]; [|apply read_map_value; eapply Forall_impl; [done|]; by intros ? []]. split.
    + intros i k m ls tl r Hls Hk _ Hm _ Hr.
      apply map_shape_cons in Hls as (n & ls' & -> & ->%map_eq_nil).
      by apply (read_inline i k m "{}" "{}" (YMap []) tl r n).
    + intros i seq ls tl r Hls _ _ Hr.
      apply map_shape_cons in Hls as (n & ls' & -> & ->%map_eq_nil).
      apply (read_item_inline i seq "{}" (YMap []) tl r n); auto.
  - destruct l as [|t l]; [|apply read_seq_value; eapply Forall_impl; [done|]; by intros ? []]. split.
    + intros i k m ls tl r Hls Hk _ Hm _ Hr.
      apply map_shape_cons in Hls as (n & ls' & -> & ->%map_eq_nil).
      by apply (read_inline i k m "[]" "[]" (YSeq []) tl r n).
    + intros i seq ls tl r Hls _ _ Hr.
      apply map_shape_cons in Hls as (n & ls' & -> & ->%map_eq_nil).
      apply (read_item_inline i seq "[]" (YSeq []) tl r n); auto.
Qed.

(** ** From text to lines *)

Definition lexable (c : string) : Prop :=
  no_byte NL c = true ∧ c ≠ "---" ∧ TrimRight is_blank_cr c = c ∧
  ∃ a c', c = String a c' ∧ is_blank a = false ∧ a ≠ "#"%char.

Lemma TrimRight_app cut s t : TrimRight cut t = t → t ≠ "" → TrimRight cut (s +:+ t) = s +:+ t.
Proof.
  intros Ht Hne. induction s as [|c s IH]; [done|]. rewrite sapp_cons. simpl. rewrite IH.
  destruct (s +:+ t) eqn:E; [|done]. by destruct s.
Qed.

Lemma no_byte_spaces i : no_byte NL (spaces i) = true.
Proof. by induction i. Qed.

Lemma slength_spaces i : String.length (spaces i) = i.
Proof. induction i; simpl; by f_equal. Qed.

Lemma lex_line_spaces i c n : lexable c → lex_line (spaces i +:+ c) n = mkLine i c (S n).
Proof.
  intros (_ & _ & Hr & a & c' & -> & Ha & _). unfold lex_line. rewrite TrimRight_app by done.
  assert (TrimLeft is_blank (spaces i +:+ String a c') = String a c') as ->.
  { induction i as [|i IH]; simpl; [by rewrite Ha|done]. }
  rewrite slength_app, slength_spaces. f_equal. lia.
Qed.

Lemma Split_doc texts :
  Forall (λ t, no_byte NL t = true) texts → Split (doc texts) NL = texts ++ [""].
Proof.
  induction 1 as [|t texts Ht _ IH]; [done|].
  assert (∀ rest, Split (t +:+ String NL rest) NL = t :: Split rest NL) as H.
  { intros rest. induction t as [|a t IHt]; [done|]. rewrite no_byte_cons in Ht.
    apply andb_prop in Ht as [Ha Ht]. rewrite negb_true_iff, bool_decide_eq_false in Ha.
    rewrite sapp_cons. simpl. rewrite bool_decide_eq_false_2 by congruence. by rewrite IHt. }
  change (doc (t :: texts)) with (t +:+ String NL (doc texts)). by rewrite H, IH.
Qed.

Lemma lex_lines_printed ls n out :
  Forall (λ l, lexable l.2) ls →
  ∃ out', lex_lines (map (λ l, spaces l.1 +:+ l.2) ls ++ [""]) n out = Ok (out ++ out') ∧ map shape out' = ls.
Proof.
  intros Hls. revert n out. induction Hls as [|[i c] ls Hl _ IH]; intros n out.
  { exists []. by rewrite app_nil_r. }
  simpl map. simpl app. rewrite lex_lines_step. cbv zeta. simpl in Hl.
  rewrite lex_line_spaces by done. cbn [content].
  destruct (IH (S n) (out ++ [mkLine i c (S n)])) as (out' & Hout & Hs).
  exists (mkLine i c (S n) :: out'). split; [|by simpl; rewrite Hs].
  destruct Hl as (_ & Hd & _ & a & c' & -> & _ & Ha).
  rewrite (bool_decide_eq_false_2 _ Hd), bool_decide_eq_false_2 by done. cbn [orb].
  assert (HasPrefix (String a c') "#" = false) as ->.
  { simpl. by rewrite bool_decide_eq_false_2 by congruence. }
  rewrite Hout, <- app_assoc. done.
Qed.

Lemma lexable_key k t :
  key_ok k = true → no_byte NL t = true → TrimRight is_blank_cr t = t → t ≠ "" → lexable (k +:+ t).
Proof.
  intros (_ & Hl & _ & Hn & c & k' & -> & _ & Hc)%key_ok_inv Ht Hr Hne.
  assert (c ≠ "-"%char ∧ c ≠ "#"%char) as [? ?] by (split; intros ->; set_solver).
  split_and!.
  - by rewrite no_byte_app, Hn.
  - by intros [= ? _].
  - by apply TrimRight_app.
  - exists c, (k' +:+ t). split_and!; [done| |done]. simpl in Hl. destruct (is_blank c) eqn:E; [|done].
    destruct (TrimLeft_spec is_blank k') as (p & Hp & _). exfalso.
    apply (f_equal String.length) in Hp. rewrite slength_app, Hl in Hp. simpl in Hp. lia.
Qed.

Lemma lexable_item t :
  no_byte NL t = true → TrimRight is_blank_cr t = t → t ≠ "" → lexable ("- " +:+ t).
Proof.
  intros Ht Hr Hne. split_and!.
  - done.
  - done.
  - by apply TrimRight_app.
  - by exists "-"%char, (" " +:+ t).
Qed.

Lemma quote_any_text s :
  str_ok s = true → no_byte NL (quote_any s) = true ∧ TrimRight is_blank_cr (quote_any s) = quote_any s ∧
  quote_any s ≠ "".
Proof.
  intros [Hn _]%andb_prop. unfold quote_any, quote_with.
  assert (∀ q, is_quote q = true → no_byte NL (String q (s +:+ String q "")) = true ∧
    TrimRight is_blank_cr (String q (s +:+ String q "")) = String q (s +:+ String q "")) as H.
  { intros q Hq. split.
    - rewrite no_byte_cons, no_byte_app, Hn, no_byte_cons. unfold is_quote in Hq.
      by apply bool_decide_eq_true_1 in Hq as [->| ->].
    - apply (TrimRight_app _ (String q s)); [|done]. unfold is_quote in Hq.
      by apply bool_decide_eq_true_1 in Hq as [->| ->]. }
  destruct (no_byte "034" s); (split; [|split; [|done]]); by apply H.
Qed.

Lemma show_text s : str_ok s = true →
  (∀ t, t = show_value s ∨ t = show_item s →
   no_byte NL t = true ∧ TrimRight is_blank_cr t = t ∧ t ≠ "").
Proof.
  intros Hs t Ht. assert (t = quote_any s ∨ plain_ok s = true ∧ t = s) as [->|[Hp ->]].
  { unfold show_value, show_item in Ht. destruct (plain_ok s), (no_byte ":" s); naive_solver. }
  - by apply quote_any_text.
  - apply plain_ok_inv in Hp as (? & _ & _ & ? & _). apply andb_prop in Hs as [? _]. done.
Qed.

Lemma printed_lexable t : printable t = true →
  (∀ i k, key_ok k = true → Forall (λ l, lexable l.2) (entry i k t)) ∧
  (∀ i, Forall (λ l, lexable l.2) (item i t)).
Proof.
  induction t as [s|m IH|l IH] using yaml_ind_deep; intros Hp.
  - split; intros; (constructor; [|done]); simpl.
    + destruct (show_text s Hp (show_value s)) as (? & ? & ?); [by left|].
      apply lexable_key; [done|done| |done]. by apply (TrimRight_app _ ": ").
    + destruct (show_text s Hp (show_item s)) as (? & ? & ?); [by right|]. by apply lexable_item.
  - apply printable_map in Hp as [_ Hp].
    assert (∀ i, Forall (λ l, lexable l.2) (entries i m)) as He.
    { intros i. unfold entries. induction IH as [|[k t] m Ht _ IHm]; [constructor|].
      simpl in Hp. apply andb_prop in Hp as [[Hk Hpt]%andb_prop Hp].
      simpl. apply Forall_app. split; [by apply Ht|by apply IHm]. }
    destruct m as [|kv m].
    { split; intros; (constructor; [|done]); [by apply lexable_key|by apply (lexable_item "{}")]. }
    split.
    + intros i k Hk. constructor; [by apply lexable_key|apply He].
    + intros i. change (Forall (λ l, lexable l.2) (dash (entries (i + 2) (kv :: m)))).
      specialize (He (i + 2)%nat). destruct He as [|[j c] ls (Hn & _ & Hr & a & c' & Hc & _) Hls]; [constructor|].
      simpl in Hn, Hr, Hc. constructor; [|done]. apply lexable_item; [done..|]. by rewrite Hc.
  - assert (∀ i, Forall (λ l, lexable l.2) (items i l)) as He.
    { intros i. unfold items. induction IH as [|t l Ht _ IHl]; [constructor|].
      simpl in Hp. apply andb_prop in Hp as [Hpt Hp].
      simpl. apply Forall_app. split; [by apply Ht|by apply IHl]. }
    destruct l as [|t l].
    { split; intros; (constructor; [|done]); [by apply lexable_key|by apply (lexable_item "[]")]. }
    split.
    + intros i k Hk. constructor; [by apply lexable_key|apply He].
    + intros i. constructor; [|apply (He (i + 2)%nat)]. split_and!; [done..|]. by exists "-"%char, "".
Qed.

Lemma round_trip_printed m : printable (YMap m) = true → parseYAMLTree (print_tree m) = Ok (YMap m).
Proof.
  intros Hp. pose proof (printable_map _ Hp) as [Hd He].
  assert (Forall (λ l, lexable l.2) (entries 0 m)) as Hl.
  { unfold entries. clear Hp Hd. induction m as [|[k t] m IH]; [constructor|].
    simpl in He. apply andb_prop in He as [[Hk Ht]%andb_prop He].
    simpl. apply Forall_app. split; [by apply printed_lexable|by apply IH]. }
  destruct (lex_lines_printed (entries 0 m) 0 [] Hl) as (ls & Hls & Hs).
  unfold parseYAMLTree, lexYAML, print_tree. rewrite Split_doc.
  2: { apply Forall_map. eapply Forall_impl; [exact Hl|]. intros [i c] (Hn & _). simpl in *.
       by rewrite no_byte_app, no_byte_spaces, Hn. }
  rewrite Hls. simpl. destruct m as [|kv m]; [by apply map_eq_nil in Hs as ->|].
  destruct (entries_lines _ _ _ _ Hs He) as (k & s & n & ls' & -> & Hk).
  rewrite (runsB_enough _ _ (YMap (kv :: m), [])); [done|].
  apply runsB_map; [by apply key_line|].
  assert (Forall (λ kv, reads_entry kv.2) (kv :: m)) as Hr.
  { apply Forall_forall. intros kv' _. apply read_both. }
  pose proof (read_entries (kv :: m) Hr 0 [] _ [] Hs He Hd I) as H. by rewrite app_nil_r in H.
Qed.

(** C30. The parser reads back every tree the printer writes: for each mapping of
    printable keys and values, nested to any depth, parsing its text returns the
    mapping itself. *)
Theorem print_parse_round_trip m :
  printable (YMap m) = true → parseYAMLTree (print_tree m) = Ok (YMap m).
Proof. apply round_trip_printed. Qed.

Lemma print_parse_round_trip_witness :
  printable (YMap sample_tree) = true ∧ parseYAMLTree (print_tree sample_tree) = Ok (YMap sample_tree).
Proof. split; [|apply (print_parse_round_trip sample_tree)]; vm_compute; reflexivity. Defined.
