(* ===== verification/GoBase64.v ===== *)
(** [base64.StdEncoding] of Go's standard library: [DecodeString] as it is
    documented, and [EncodeToString] to state its round trip. *)
From S2P Require Import Prelude GoStrings.

(** The alphabet, as value of a character and character of a value. *)
Definition b64_val (c : ascii) : option N :=
  let n := N_of_ascii c in
  if ((65 <=? n) && (n <=? 90))%N then Some (n - 65)%N
  else if ((97 <=? n) && (n <=? 122))%N then Some (n - 71)%N
  else if ((48 <=? n) && (n <=? 57))%N then Some (n + 4)%N
  else if (n =? 43)%N then Some 62%N
  else if (n =? 47)%N then Some 63%N
  else None.

Definition b64_char (v : N) : ascii :=
  ascii_of_N (if v <? 26 then v + 65 else if v <? 52 then v + 71
              else if v <? 62 then v - 4 else if v =? 62 then 43 else 47)%N.

(** Line feeds and carriage returns are ignored wherever they stand. *)
Fixpoint drop_newlines (s : string) : string :=
  match s with
  | EmptyString => ""
  | String c s' =>
      if bool_decide (c = "010"%char ∨ c = "013"%char) then drop_newlines s'
      else String c (drop_newlines s')
  end.

Definition byte1 (a b : N) : ascii := ascii_of_N (a * 4 + b / 16).
Definition byte2 (b c : N) : ascii := ascii_of_N (b mod 16 * 16 + c / 4).
Definition byte3 (c d : N) : ascii := ascii_of_N (c mod 4 * 64 + d).

(** Groups of four; padding only at the end, and unused bits ignored. *)
Fixpoint decode_groups (s : string) : option string :=
  match s with
  | EmptyString => Some ""
  | String a (String b (String c (String d s'))) =>
      va ← b64_val a; vb ← b64_val b;
      if bool_decide (c = "="%char) then
        if bool_decide (d = "="%char ∧ s' = "") then Some (String (byte1 va vb) "") else None
      else
        vc ← b64_val c;
        if bool_decide (d = "="%char) then
          if bool_decide (s' = "") then Some (String (byte1 va vb) (String (byte2 vb vc) "")) else None
        else
          vd ← b64_val d;
          rest ← decode_groups s';
          Some (String (byte1 va vb) (String (byte2 vb vc) (String (byte3 vc vd) rest)))
  | _ => None
  end.

Definition DecodeString (s : string) : option string := decode_groups (drop_newlines s).

Fixpoint EncodeToString (s : string) : string :=
  match s with
  | EmptyString => ""
  | String x EmptyString =>
      let x := N_of_ascii x in
      String (b64_char (x / 4)) (String (b64_char (x mod 4 * 16)) "==")
  | String x (String y EmptyString) =>
      let x := N_of_ascii x in let y := N_of_ascii y in
      String (b64_char (x / 4)) (String (b64_char (x mod 4 * 16 + y / 16))
        (String (b64_char (y mod 16 * 4)) "="))
  | String x (String y (String z s')) =>
      let x := N_of_ascii x in let y := N_of_ascii y in let z := N_of_ascii z in
      String (b64_char (x / 4)) (String (b64_char (x mod 4 * 16 + y / 16))
        (String (b64_char (y mod 16 * 4 + z / 64)) (String (b64_char (z mod 64)) (EncodeToString s'))))
  end.

Example b64_ex : map EncodeToString [""; "f"; "fo"; "foo"; "foob"] = [""; "Zg=="; "Zm8="; "Zm9v"; "Zm9vYg=="] ∧
  map DecodeString ["Zm9v"; "Zg=="; "Z"; "Zg="; "Zg==Zg=="; "Z g="; ("Zm" +:+ String "010" "9v")] =
    [Some "foo"; Some "f"; None; None; None; None; Some "foo"].
Proof. split; reflexivity. Qed.

(** ** Round trip *)

Lemma string_ind3 (P : string → Prop) :
  P "" → (∀ x, P (String x "")) → (∀ x y, P (String x (String y ""))) →
  (∀ x y z s, P s → P (String x (String y (String z s)))) → ∀ s, P s.
Proof.
  intros H0 H1 H2 H3. fix IH 1. intros [|x [|y [|z s]]]; [done|apply H1|apply H2|apply H3, IH].
Qed.

(** Every value below 64 has a character, which is neither padding nor a line end. *)
Definition b64_table_ok (v : N) : bool :=
  let c := b64_char v in
  bool_decide (b64_val c = Some v) && negb (bool_decide (c = "="%char)) &&
  plain_byte c && negb (bool_decide (c = "034"%char)) && negb (is_blank c) && negb (bool_decide (c = "'"%char)).

Lemma b64_table v : (v < 64)%N → b64_table_ok v = true.
Proof.
  intros Hv. assert (forallb b64_table_ok (map N.of_nat (seq 0 64)) = true) as H by (vm_compute; reflexivity).
  rewrite forallb_forall in H. apply H, in_map_iff. exists (N.to_nat v).
  split; [by rewrite N2Nat.id|]. apply in_seq. lia.
Qed.

Lemma b64_val_char v : (v < 64)%N → b64_val (b64_char v) = Some v.
Proof. intros H%b64_table. unfold b64_table_ok in H. rewrite !andb_true_iff, bool_decide_eq_true in H. tauto. Qed.

Lemma b64_char_ne v : (v < 64)%N → b64_char v ≠ "="%char.
Proof.
  intros H%b64_table. unfold b64_table_ok in H.
  rewrite !andb_true_iff, !negb_true_iff, !bool_decide_eq_false in H. tauto.
Qed.

Lemma N_of_ascii_lt c : (N_of_ascii c < 256)%N.
Proof. apply N_ascii_bounded. Qed.

Ltac byte_arith := zify; Z.to_euclidean_division_equations; lia.

Lemma byte1_ok x r : (r < 16)%N → byte1 (N_of_ascii x / 4) (N_of_ascii x mod 4 * 16 + r) = x.
Proof.
  intros Hr. unfold byte1. transitivity (ascii_of_N (N_of_ascii x)); [|apply ascii_N_embedding].
  f_equal. byte_arith.
Qed.

Lemma byte2_ok p y r : (r < 4)%N → byte2 (p * 16 + N_of_ascii y / 16) (N_of_ascii y mod 16 * 4 + r) = y.
Proof.
  intros Hr. pose proof (N_of_ascii_lt y). unfold byte2.
  transitivity (ascii_of_N (N_of_ascii y)); [|apply ascii_N_embedding]. f_equal. byte_arith.
Qed.

Lemma byte3_ok p z : byte3 (p * 4 + N_of_ascii z / 64) (N_of_ascii z mod 64) = z.
Proof.
  pose proof (N_of_ascii_lt z). unfold byte3.
  transitivity (ascii_of_N (N_of_ascii z)); [|apply ascii_N_embedding]. f_equal. byte_arith.
Qed.

(** The four values of a group are below 64. *)
Ltac sextets :=
  repeat match goal with x : ascii |- _ =>
    lazymatch goal with H : (N_of_ascii x < 256)%N |- _ => fail | _ => pose proof (N_of_ascii_lt x) end end;
  byte_arith.

Lemma decode_encode s : decode_groups (EncodeToString s) = Some s.
Proof.
  induction s as [|x|x y|x y z s IH] using string_ind3; [done|..]; simpl.
  - rewrite !b64_val_char by sextets. simpl. rewrite <- (N.add_0_r (N_of_ascii x mod 4 * 16)).
    by rewrite byte1_ok by sextets.
  - rewrite !b64_val_char by sextets. simpl.
    rewrite bool_decide_eq_false_2 by (apply b64_char_ne; sextets). simpl.
    rewrite byte1_ok by sextets. rewrite <- (N.add_0_r (N_of_ascii y mod 16 * 4)).
    by rewrite byte2_ok by sextets.
  - rewrite !b64_val_char by sextets. simpl.
    rewrite !bool_decide_eq_false_2 by (apply b64_char_ne; sextets). simpl.
    rewrite IH. simpl. rewrite byte1_ok, byte2_ok, byte3_ok by sextets. done.
Qed.

(** The encoding is one unbroken run of printable characters. *)
Definition b64_text (s : string) : bool :=
  sfree (λ c, negb (plain_byte c) || is_blank c || bool_decide (c = "034"%char) || bool_decide (c = "'"%char)) s.

Lemma b64_text_cons v s : (v < 64)%N → b64_text s = true → b64_text (String (b64_char v) s) = true.
Proof.
  intros Hv%b64_table Hs. unfold b64_text in *. simpl. rewrite Hs. unfold b64_table_ok in Hv.
  repeat apply andb_prop in Hv as [Hv ?]. rewrite !negb_true_iff in *.
  destruct (plain_byte _), (is_blank _); simpl; repeat case_bool_decide; done.
Qed.

Lemma EncodeToString_text s : b64_text (EncodeToString s) = true.
Proof.
  induction s as [|x|x y|x y z s IH] using string_ind3; [done|..]; simpl;
    repeat (apply b64_text_cons; [sextets|]); done.
Qed.

Lemma drop_newlines_text s : b64_text s = true → drop_newlines s = s.
Proof.
  unfold b64_text. induction s as [|c s IH]; [done|]. simpl. intros [Hc Hs]%andb_prop. rewrite IH by done.
  rewrite bool_decide_eq_false_2; [done|]. by intros [->| ->].
Qed.

Lemma Decode_EncodeToString s : DecodeString (EncodeToString s) = Some s.
Proof. unfold DecodeString. rewrite drop_newlines_text by apply EncodeToString_text. apply decode_encode. Qed.

Lemma EncodeToString_nil s : EncodeToString s = "" → s = "".
Proof. destruct s as [|x [|y [|z s]]]; done. Qed.
