(* ===== verification/Kubeconfig.v ===== *)
(** Package kubeconfig, file kubeconfig.go: selecting the current context, the
    cluster CA and exactly one client credential. *)
From S2P Require Import Prelude GoStrings GoBase64 Yaml YamlFacts YamlPrint.

(** The file system as the code reads it: the contents of each readable file. *)
Definition FS := string → option string.

Inductive kubeError :=
  | ErrReadKubeconfig | ErrParse (e : yamlError) | ErrTopLevel
  | ErrNoCurrentContext | ErrMissingRef (ctx : string)
  | ErrSection (section : string) | ErrNoInner (section name inner : string)
  | ErrNotFound (name section : string)
  | ErrCABase64 | ErrCARead (path : string) | ErrNoCA | ErrCAPem
  | ErrExec | ErrAuthProvider | ErrPair | ErrFieldMissing (key : string) | ErrFieldBase64 (key : string)
  | ErrKeyPair | ErrNoCredentials | ErrTokenFile (path : string) | ErrLoadKeyPair.

Definition object := list (string * yaml).

(** [str]: the string in a value, the empty string for anything else. *)
Definition str (v : option yaml) : string := match v with Some (YStr s) => s | _ => "" end.
Definition field (m : object) (key : string) : string := str (map_get key m).

Definition present (m : object) (key : string) : bool := bool_decide (is_Some (map_get key m)).
Definition nonempty (s : string) : bool := negb (bool_decide (s = "")).

(** ** Sections and contexts *)

Fixpoint find_entry (list : list yaml) (section inner name : string) : kubeError + object :=
  match list with
  | [] => inl (ErrNotFound name section)
  | YMap entry :: list' =>
      if negb (bool_decide (field entry "name" = name)) then find_entry list' section inner name
      else match map_get inner entry with
           | Some (YMap obj) => inr obj
           | _ => inl (ErrNoInner section name inner)
           end
  | _ :: list' => find_entry list' section inner name
  end.

Definition findNamed (root : object) (section inner name : string) : kubeError + object :=
  match map_get section root with
  | Some (YSeq list) => find_entry list section inner name
  | _ => inl (ErrSection section)
  end.

Definition resolveContext (root : object) : kubeError + (string * string) :=
  let current := field root "current-context" in
  if bool_decide (current = "") then inl ErrNoCurrentContext
  else match findNamed root "contexts" "context" current with
       | inl e => inl e
       | inr ctx =>
           let clusterName := field ctx "cluster" in
           let userName := field ctx "user" in
           if bool_decide (clusterName = "") || bool_decide (userName = "")
           then inl (ErrMissingRef current) else inr (clusterName, userName)
       end.

(** ** Credentials *)

Section kubeconfig.
(** Certificate handling of [crypto/x509] and [crypto/tls]: parsing a PEM bundle
    into a pool ([None]: no valid certificate in it), and a PEM certificate with
    its key into a certificate. *)
Context {CertPool Certificate : Type}.
Context (AppendCertsFromPEM : string → option CertPool).
Context (X509KeyPair : string → string → option Certificate).

(** [tls.LoadX509KeyPair]: read both files, then parse the pair. *)
Definition LoadX509KeyPair (fs : FS) (certPath keyPath : string) : option Certificate :=
  certPEM ← fs certPath; keyPEM ← fs keyPath; X509KeyPair certPEM keyPEM.

(** The two function fields are closures; each call reads the file system as it
    is then.  [None] is a nil function. *)
Record Auth := mkAuth {
  Server : string;
  CAPool : CertPool;
  BearerToken : option (FS → kubeError + string);
  GetClientCertificate : option (FS → kubeError + Certificate)
}.

Definition loadCA (fs : FS) (cluster : object) : kubeError + CertPool :=
  let pemData :=
    if nonempty (field cluster "certificate-authority-data") then
      match DecodeString (field cluster "certificate-authority-data") with
      | Some decoded => inr decoded
      | None => inl ErrCABase64
      end
    else if nonempty (field cluster "certificate-authority") then
      match fs (field cluster "certificate-authority") with
      | Some data => inr data
      | None => inl (ErrCARead (field cluster "certificate-authority"))
      end
    else inl ErrNoCA in
  match pemData with
  | inl e => inl e
  | inr pem => match AppendCertsFromPEM pem with Some pool => inr pool | None => inl ErrCAPem end
  end.

Definition b64Field (m : object) (key : string) : kubeError + string :=
  let raw := field m key in
  if bool_decide (raw = "") then inl (ErrFieldMissing key)
  else match DecodeString raw with Some decoded => inr decoded | None => inl (ErrFieldBase64 key) end.

Definition token_from_file (path : string) (fs : FS) : kubeError + string :=
  match fs path with Some data => inr (TrimSpace data) | None => inl (ErrTokenFile path) end.

Definition cert_from_files (certPath keyPath : string) (fs : FS) : kubeError + Certificate :=
  match LoadX509KeyPair fs certPath keyPath with Some cert => inr cert | None => inl ErrLoadKeyPair end.

Definition set_BearerToken (f : FS → kubeError + string) (a : Auth) : Auth :=
  mkAuth (Server a) (CAPool a) (Some f) (GetClientCertificate a).
Definition set_GetClientCertificate (f : FS → kubeError + Certificate) (a : Auth) : Auth :=
  mkAuth (Server a) (CAPool a) (BearerToken a) (Some f).

Definition loadCredentials (auth : Auth) (user : object) : kubeError + Auth :=
  if present user "exec" then inl ErrExec
  else if present user "auth-provider" then inl ErrAuthProvider
  else if nonempty (field user "token") then
    inr (set_BearerToken (λ _, inr (field user "token")) auth)
  else if nonempty (field user "tokenFile") then
    inr (set_BearerToken (token_from_file (field user "tokenFile")) auth)
  else if nonempty (field user "client-certificate-data") || nonempty (field user "client-key-data") then
    match b64Field user "client-certificate-data" with
    | inl e => inl e
    | inr certPEM =>
        match b64Field user "client-key-data" with
        | inl e => inl e
        | inr keyPEM =>
            match X509KeyPair certPEM keyPEM with
            | None => inl ErrKeyPair
            | Some cert => inr (set_GetClientCertificate (λ _, inr cert) auth)
            end
        end
    end
  else if nonempty (field user "client-certificate") || nonempty (field user "client-key") then
    let certPath := field user "client-certificate" in
    let keyPath := field user "client-key" in
    if bool_decide (certPath = "") || bool_decide (keyPath = "") then inl ErrPair
    else inr (set_GetClientCertificate (cert_from_files certPath keyPath) auth)
  else inl ErrNoCredentials.

(** [Load] after the parse. *)
Definition load_root (fs : FS) (root : object) : kubeError + Auth :=
  match resolveContext root with
  | inl e => inl e
  | inr (clusterName, userName) =>
      match findNamed root "clusters" "cluster" clusterName with
      | inl e => inl e
      | inr cluster =>
          match findNamed root "users" "user" userName with
          | inl e => inl e
          | inr user =>
              match loadCA fs cluster with
              | inl e => inl e
              | inr pool => loadCredentials (mkAuth (field cluster "server") pool None None) user
              end
          end
      end
  end.

(** [None]: the parse panicked ([OutOfFuel] does not occur). *)
Definition Load (fs : FS) (path : string) : option (kubeError + Auth) :=
  match fs path with
  | None => Some (inl ErrReadKubeconfig)
  | Some data =>
      match parseYAMLTree data with
      | Ok (YMap root) => Some (load_root fs root)
      | Ok _ => Some (inl ErrTopLevel)
      | Err e => Some (inl (ErrParse e))
      | Panicked | OutOfFuel => None
      end
  end.
End kubeconfig.

(** ** What a lookup selects *)

(** [selects list inner name obj]: [obj] is the [inner] object of the first
    mapping of [list] that has this name; entries that are not mappings do not
    count. *)
Definition is_named (name : string) (t : yaml) : Prop :=
  ∃ entry, t = YMap entry ∧ field entry "name" = name.

Definition selects (list : list yaml) (inner name : string) (obj : object) : Prop :=
  ∃ pre entry post, list = pre ++ YMap entry :: post ∧ Forall (λ t, ¬ is_named name t) pre ∧
    field entry "name" = name ∧ map_get inner entry = Some (YMap obj).

Lemma find_entry_skip pre list section inner name :
  Forall (λ t, ¬ is_named name t) pre →
  find_entry (pre ++ list) section inner name = find_entry list section inner name.
Proof.
  induction 1 as [|[s|m|l] pre Hn _ IH]; [done|done| |done]. simpl.
  rewrite bool_decide_eq_false_2; [done|]. intros Hm. apply Hn. by exists m.
Qed.

Lemma find_entry_selects list section inner name obj :
  find_entry list section inner name = inr obj ↔ selects list inner name obj.
Proof.
  split.
  - assert (∀ t list, ¬ is_named name t → selects list inner name obj → selects (t :: list) inner name obj) as Hskip.
    { intros t l Ht (pre & entry & post & -> & Hp & ?). exists (t :: pre), entry, post. split_and!; naive_solver. }
    induction list as [|[s|m|l] list IH]; [done|..]; simpl; intros H.
    + apply Hskip; [by intros (? & ? & ?)|auto].
    + destruct (bool_decide _) eqn:E; simpl in H.
      * apply bool_decide_eq_true_1 in E. exists [], m, list. split_and!; [done..|]. by repeat case_match; simplify_eq.
      * apply bool_decide_eq_false_1 in E. apply Hskip; [|auto]. intros (? & [= <-] & ?). done.
    + apply Hskip; [by intros (? & ? & ?)|auto].
  - intros (pre & entry & post & -> & Hp & Hn & Ho). rewrite find_entry_skip by done. simpl.
    rewrite bool_decide_eq_true_2 by done. simpl. by rewrite Ho.
Qed.

(** A section lookup succeeds exactly when the section is a list whose first
    mapping with the wanted name has the inner object, and returns that object; it
    reports the name as missing exactly when no mapping of the list has it. *)
Theorem findNamed_first_match root section inner name :
  (∀ obj, findNamed root section inner name = inr obj ↔
     ∃ list, map_get section root = Some (YSeq list) ∧ selects list inner name obj) ∧
  (findNamed root section inner name = inl (ErrNotFound name section) ↔
     ∃ list, map_get section root = Some (YSeq list) ∧ Forall (λ t, ¬ is_named name t) list).
Proof.
  unfold findNamed. split.
  - intros obj. destruct (map_get section root) as [[| |list]|]; [naive_solver..| |naive_solver].
    rewrite find_entry_selects. naive_solver.
  - destruct (map_get section root) as [[s|m|list]|]; [naive_solver..| |naive_solver].
    split.
    + intros H. exists list. split; [done|].
      induction list as [|[s|m|l] list IH]; simpl in H; [done| | |];
        (constructor; [|apply IH]); try done; try (by intros (? & ? & ?)).
      * intros (? & [= <-] & Hm). rewrite bool_decide_eq_true_2 in H by done. by repeat case_match.
      * destruct (bool_decide _); [by repeat case_match|done].
    + intros (list' & [= ->] & Hl). rewrite <- (app_nil_r list'). by rewrite find_entry_skip.
Qed.

(** ** What a successful load returns *)

Section load.
Context {CertPool Certificate : Type}.
Context (AppendCertsFromPEM : string → option CertPool).
Context (X509KeyPair : string → string → option Certificate).
Implicit Types (auth : @Auth CertPool Certificate) (user : object) (fs : FS).

(** The CA bundle comes from inline data or from a file. *)
Definition ca_bundle (fs : FS) (cluster : object) (pem : string) : Prop :=
  DecodeString (field cluster "certificate-authority-data") = Some pem ∧
    field cluster "certificate-authority-data" ≠ "" ∨
  field cluster "certificate-authority-data" = "" ∧
    fs (field cluster "certificate-authority") = Some pem ∧ field cluster "certificate-authority" ≠ "".

Lemma nonempty_true s : nonempty s = true ↔ s ≠ "".
Proof. unfold nonempty. by rewrite negb_true_iff, bool_decide_eq_false. Qed.
Lemma nonempty_false s : nonempty s = false ↔ s = "".
Proof. unfold nonempty. by rewrite negb_false_iff, bool_decide_eq_true. Qed.

Lemma loadCA_inv fs cluster pool :
  loadCA AppendCertsFromPEM fs cluster = inr pool →
  ∃ pem, ca_bundle fs cluster pem ∧ AppendCertsFromPEM pem = Some pool.
Proof.
  unfold loadCA, ca_bundle. intros H.
  destruct (nonempty (field cluster "certificate-authority-data")) eqn:E1.
  - apply nonempty_true in E1. destruct (DecodeString _) as [pem|] eqn:E; [|done].
    exists pem. destruct (AppendCertsFromPEM pem); naive_solver.
  - apply nonempty_false in E1. destruct (nonempty (field cluster "certificate-authority")) eqn:E2; [|done].
    apply nonempty_true in E2. destruct (fs _) as [pem|] eqn:E; [|done].
    exists pem. destruct (AppendCertsFromPEM pem); naive_solver.
Qed.

(** The four mechanisms, in order of precedence: what the closures return against
    the file system of the moment they are called. *)
Definition uses_token user auth : Prop :=
  ∃ f, BearerToken auth = Some f ∧ GetClientCertificate auth = None ∧
  ((field user "token" ≠ "" ∧ ∀ later, f later = inr (field user "token")) ∨
   (field user "token" = "" ∧ field user "tokenFile" ≠ "" ∧
    ∀ later, (∀ data, later (field user "tokenFile") = Some data → f later = inr (TrimSpace data)) ∧
             (later (field user "tokenFile") = None → f later = inl (ErrTokenFile (field user "tokenFile"))))).

Definition uses_certificate user auth : Prop :=
  ∃ g, GetClientCertificate auth = Some g ∧ BearerToken auth = None ∧
  field user "token" = "" ∧ field user "tokenFile" = "" ∧
  ((∃ certPEM keyPEM cert,
      DecodeString (field user "client-certificate-data") = Some certPEM ∧
      DecodeString (field user "client-key-data") = Some keyPEM ∧
      X509KeyPair certPEM keyPEM = Some cert ∧ ∀ later, g later = inr cert) ∨
   (field user "client-certificate" ≠ "" ∧ field user "client-key" ≠ "" ∧
    ∀ later cert, g later = inr cert ↔
      ∃ certPEM keyPEM, later (field user "client-certificate") = Some certPEM ∧
        later (field user "client-key") = Some keyPEM ∧ X509KeyPair certPEM keyPEM = Some cert)).

Lemma b64Field_inv m key v : b64Field m key = inr v → DecodeString (field m key) = Some v.
Proof. unfold b64Field. destruct (bool_decide _); [done|]. by destruct (DecodeString _); intros [= ->]. Qed.

Lemma cert_from_files_spec certPath keyPath fs cert :
  cert_from_files X509KeyPair certPath keyPath fs = inr cert ↔
  ∃ certPEM keyPEM, fs certPath = Some certPEM ∧ fs keyPath = Some keyPEM ∧ X509KeyPair certPEM keyPEM = Some cert.
Proof.
  unfold cert_from_files, LoadX509KeyPair. destruct (fs certPath) as [c|], (fs keyPath) as [k|]; simpl; try naive_solver.
  destruct (X509KeyPair c k) eqn:E; naive_solver.
Qed.

Lemma loadCredentials_inv server pool user auth :
  loadCredentials X509KeyPair (mkAuth server pool None None) user = inr auth →
  Server auth = server ∧ CAPool auth = pool ∧
  map_get "exec" user = None ∧ map_get "auth-provider" user = None ∧
  (uses_token user auth ∨ uses_certificate user auth).
Proof.
  unfold loadCredentials, present. intros H.
  destruct (map_get "exec" user) eqn:Ee; [rewrite bool_decide_eq_true_2 in H; eauto; done|].
  rewrite bool_decide_eq_false_2 in H by (by intros []).
  destruct (map_get "auth-provider" user) eqn:Ep; [rewrite bool_decide_eq_true_2 in H; eauto; done|].
  rewrite bool_decide_eq_false_2 in H by (by intros []).
  destruct (nonempty (field user "token")) eqn:Et.
  { apply nonempty_true in Et. injection H as <-. split_and!; [done..|]. left. eexists. eauto 8. }
  apply nonempty_false in Et. destruct (nonempty (field user "tokenFile")) eqn:Ef.
  { apply nonempty_true in Ef. injection H as <-. split_and!; [done..|]. left. eexists. split_and!; [done..|].
    right. split_and!; [done..|]. intros later. unfold token_from_file. split; [by intros ? ->|by intros ->]. }
  apply nonempty_false in Ef. destruct (_ || _) eqn:Ed.
  { destruct (b64Field user "client-certificate-data") as [|certPEM] eqn:Ec; [done|].
    destruct (b64Field user "client-key-data") as [|keyPEM] eqn:Ek; [done|].
    destruct (X509KeyPair certPEM keyPEM) as [cert|] eqn:E; [|done]. injection H as <-.
    split_and!; [done..|]. right. eexists. split_and!; [done..|]. left.
    exists certPEM, keyPEM, cert. split_and!; auto using b64Field_inv. }
  destruct (nonempty (field user "client-certificate") || _) eqn:Epath; [|done].
  destruct (bool_decide (field user "client-certificate" = "")) eqn:E1; [done|].
  destruct (bool_decide (field user "client-key" = "")) eqn:E2; [done|]. injection H as <-.
  apply bool_decide_eq_false_1 in E1, E2. split_and!; [done..|]. right. eexists. split_and!; [done..|].
  right. split_and!; [done..|]. intros later cert. apply cert_from_files_spec.
Qed.

(** C26. A successful load follows current-context to its cluster and user, verifies
    with that cluster's CA, refuses exec and auth-provider users, and wires exactly
    one credential; credentials kept in files are read again at every use, inline
    ones never change. *)
Theorem Load_sound fs path auth :
  Load AppendCertsFromPEM X509KeyPair fs path = Some (inr auth) →
  ∃ data root ctx cluster user pem pool,
    fs path = Some data ∧ parseYAMLTree data = Ok (YMap root) ∧
    findNamed root "contexts" "context" (field root "current-context") = inr ctx ∧
    findNamed root "clusters" "cluster" (field ctx "cluster") = inr cluster ∧
    findNamed root "users" "user" (field ctx "user") = inr user ∧
    Server auth = field cluster "server" ∧
    ca_bundle fs cluster pem ∧ AppendCertsFromPEM pem = Some pool ∧ CAPool auth = pool ∧
    map_get "exec" user = None ∧ map_get "auth-provider" user = None ∧
    (uses_token user auth ∨ uses_certificate user auth).
Proof.
  unfold Load. destruct (fs path) as [data|]; [|done].
  destruct (parseYAMLTree data) as [[|root|]| | |] eqn:Ep; intros H; try done.
  injection H as H. unfold load_root, resolveContext in H.
  destruct (bool_decide (field root "current-context" = "")); [done|].
  destruct (findNamed root "contexts" "context" _) as [|ctx] eqn:Ex; [done|].
  destruct (_ || _); [done|].
  destruct (findNamed root "clusters" "cluster" _) as [|cluster] eqn:Ec; [done|].
  destruct (findNamed root "users" "user" _) as [|user] eqn:Eu; [done|].
  destruct (loadCA _ fs cluster) as [|pool] eqn:Eca; [done|].
  apply loadCA_inv in Eca as (pem & Hb & Hpem).
  apply loadCredentials_inv in H as (Hs & Hp & He & Ha & Hc).
  exists data, root, ctx, cluster, user, pem, pool. split_and!; done.
Qed.

(** ** The layout kubeadm writes *)

Definition kubeadm_tree (server ca cluster user ctx : string) (creds : object) : object :=
  [("apiVersion", YStr "v1");
   ("clusters", YSeq [YMap [("cluster", YMap [("certificate-authority-data", YStr (EncodeToString ca));
                                              ("server", YStr server)]); ("name", YStr cluster)]]);
   ("contexts", YSeq [YMap [("context", YMap [("cluster", YStr cluster); ("user", YStr user)]);
                            ("name", YStr ctx)]]);
   ("current-context", YStr ctx); ("kind", YStr "Config"); ("preferences", YMap []);
   ("users", YSeq [YMap [("name", YStr user); ("user", YMap creds)]])].

Lemma b64_str_ok s : str_ok (EncodeToString s) = true.
Proof.
  pose proof (EncodeToString_text s) as Ht. generalize dependent (EncodeToString s). clear s. intros s Ht.
  unfold str_ok, b64_text in *. rewrite !andb_true_iff, orb_true_iff. induction s as [|c s IH]; [auto|].
  simpl in Ht. apply andb_prop in Ht as [Hc Ht]. destruct (IH Ht) as [Hn _].
  rewrite !no_byte_cons, Hn. rewrite negb_true_iff, !orb_false_iff, negb_false_iff in Hc.
  assert (no_byte "034" s = true) as ->.
  { clear -Ht. induction s as [|a s IH]; [done|]. simpl in Ht. apply andb_prop in Ht as [Ha Ht].
    rewrite no_byte_cons, IH by done. rewrite negb_true_iff, !orb_false_iff in Ha. destruct Ha as [[_ ->] _]. done. }
  destruct Hc as [[[Hp _] ->] _]. split; [|by left].
  rewrite bool_decide_eq_false_2; [done|]. intros ->. done.
Qed.

End load.

(** ** Concrete runs

    A stand-in for certificate parsing: a pool or a certificate is the text it was
    read from, and text without a dash is not a certificate. *)

Definition demo_pem (s : string) : option string := if Contains s "-" then Some s else None.
Definition demo_pair (cert key : string) : option string :=
  if Contains cert "-" && Contains key "-" then Some (cert +:+ key) else None.

Definition demo_creds : object :=
  [("client-certificate", YStr "/pki/kubelet.pem"); ("client-key", YStr "/pki/kubelet.key")].
Definition demo_kubelet : string :=
  print_tree (kubeadm_tree "https://10.0.0.1:6443" "--ca--" "k8s" "node" "node@k8s" demo_creds).
Definition demo_fs : FS := λ path,
  if decide (path = "/etc/kubelet.conf") then Some demo_kubelet else None.

Lemma Load_sound_witness :
  ∃ auth, Load demo_pem demo_pair demo_fs "/etc/kubelet.conf" = Some (inr auth) ∧
    ∃ data root ctx cluster user pem pool,
    demo_fs "/etc/kubelet.conf" = Some data ∧ parseYAMLTree data = Ok (YMap root) ∧
    findNamed root "contexts" "context" (field root "current-context") = inr ctx ∧
    findNamed root "clusters" "cluster" (field ctx "cluster") = inr cluster ∧
    findNamed root "users" "user" (field ctx "user") = inr user ∧
    Server auth = field cluster "server" ∧
    ca_bundle demo_fs cluster pem ∧ demo_pem pem = Some pool ∧ CAPool auth = pool ∧
    map_get "exec" user = None ∧ map_get "auth-provider" user = None ∧
    (uses_token user auth ∨ uses_certificate demo_pair user auth).
Proof.
  eexists. split; [vm_compute; reflexivity|].
  apply (Load_sound demo_pem demo_pair demo_fs "/etc/kubelet.conf"). vm_compute. reflexivity.
Defined.


(** A user entry without a name, and unsupported mechanisms. *)
Example Load_errors :
  map (λ user, match loadCredentials demo_pair (mkAuth "" "" None None) user with
               | inl e => Some e | inr _ => None end)
    [[]; [("token", YStr "t"); ("exec", YMap [])]; [("client-key", YStr "k")];
     [("client-key-data", YStr "aw==")]; [("client-certificate-data", YStr "aw=="); ("client-key-data", YStr "?")]]
  = [Some ErrNoCredentials; Some ErrExec; Some ErrPair;
     Some (ErrFieldMissing "client-certificate-data"); Some (ErrFieldBase64 "client-key-data")].
Proof. vm_compute. reflexivity. Qed.
