(* ===== verification/State.v ===== *)
(** Package discovery, file state.go: the persisted backend list. *)
From S2P Require Import Prelude GoStrings GoBase64.

Record File := mkFile { data : string; mode : Z }.
Abbreviation Disk := (gmap string File).

(** [encoding/json] on [stateFile], as the code relies on it: the object that was
    marshalled is read back.  Decoding may succeed on text it did not write. *)
Class StateCodec := {
  Marshal : list string → string;
  Unmarshal : string → option (list string);
  Unmarshal_Marshal servers : Unmarshal (Marshal servers) = Some servers
}.

Inductive stateError := ErrNotExist | ErrParseState | ErrNoServersInState.

(** What the operating system does to one [saveState]: the name [CreateTemp]
    picks, or its failure; how much of the data is visible before the write
    completes; and which call fails. *)
Record osRun := mkRun {
  os_temp : option string;
  os_prefix : nat;
  os_chmod : bool; os_write : bool; os_close : bool; os_rename : bool; os_remove : bool
}.

Section state.
Context `{StateCodec}.

Definition LoadState (path : string) (d : Disk) : stateError + list string :=
  match d !! path with
  | None => inl ErrNotExist
  | Some f =>
      match Unmarshal (data f) with
      | None => inl ErrParseState
      | Some [] => inl ErrNoServersInState
      | Some servers => inr servers
      end
  end.

(** The states of the disk, in order, and whether an error is returned.  The
    deferred [Remove] is the last step; its error is ignored. *)
Definition saveState (o : osRun) (path : string) (servers : list string) (d : Disk) : list Disk * bool :=
  let content := Marshal servers in
  match os_temp o with
  | None => ([d], true)
  | Some tmp =>
      let remove (d : Disk) := if os_remove o then delete tmp d else d in
      let created := <[tmp := mkFile "" 384]> d in
      if negb (os_chmod o) then ([created; remove created], true)
      else
        let part := <[tmp := mkFile (stake (os_prefix o) content) 384]> d in
        if negb (os_write o) then ([created; part; remove part], true)
        else
          let full := <[tmp := mkFile content 384]> d in
          if negb (os_close o) then ([created; part; full; remove full], true)
          else if negb (os_rename o) then ([created; part; full; remove full], true)
          else
            let renamed := <[path := mkFile content 384]> (delete tmp full) in
            ([created; part; full; renamed; remove renamed], false)
  end.

(** The disk once the call has returned. *)
Definition saved (o : osRun) (path : string) (servers : list string) (d : Disk) : Disk :=
  default d (last (saveState o path servers d).1).
Definition save_error (o : osRun) (path : string) (servers : list string) (d : Disk) : bool :=
  (saveState o path servers d).2.

(** C35. Saving is atomic: at every moment of the call the state file is the old
    one or the complete new one, whatever step fails; an error means the old one
    is still there, no error means the new one is, readable back, and no other
    file has changed or been left behind. *)
Theorem saveState_atomic (o : osRun) (path tmp : string) (servers : list string) (d : Disk)
    (Htmp : os_temp o = Some tmp) (Hne : tmp ≠ path) (Hfresh : d !! tmp = None) :
  Forall (λ d', d' !! path = d !! path ∨ LoadState path d' = LoadState path (<[path := mkFile (Marshal servers) 384]> d))
    (saveState o path servers d).1 ∧
  (save_error o path servers d = true → saved o path servers d !! path = d !! path) ∧
  (save_error o path servers d = false → servers ≠ [] → LoadState path (saved o path servers d) = inr servers) ∧
  (∀ f, f ≠ path → f ≠ tmp → saved o path servers d !! f = d !! f) ∧
  (os_remove o = true → saved o path servers d !! tmp = None).
Proof.
  unfold saved, save_error, saveState. rewrite Htmp.
  assert (LoadState path (<[path := mkFile (Marshal servers) 384]> d) =
    match servers with [] => inl ErrNoServersInState | _ => inr servers end) as Hload.
  { unfold LoadState. rewrite lookup_insert_eq. simpl. rewrite Unmarshal_Marshal. by destruct servers. }
  assert (∀ d' : Disk, d' !! path = Some (mkFile (Marshal servers) 384) →
    LoadState path d' = LoadState path (<[path := mkFile (Marshal servers) 384]> d)) as Hnew.
  { intros d' Hd. unfold LoadState. by rewrite Hd, lookup_insert_eq. }
  destruct (os_chmod o), (os_write o), (os_close o), (os_rename o), (os_remove o); simpl;
    (split_and!; [repeat (constructor; [|]); try done|..]).
  all: try (intros; done).
  all: try (left; by simplify_map_eq).
  all: try (right; apply Hnew; by simplify_map_eq).
  all: intros; try (by simplify_map_eq).
  all: rewrite Hnew, Hload by (by simplify_map_eq); by destruct servers.
Qed.
End state.

(** ** A concrete codec

    One base64 word per server, each ended by a comma: not JSON, but it keeps the
    only fact the code relies on. *)
Definition demo_Marshal (servers : list string) : string :=
  foldr (λ s acc, EncodeToString s +:+ String "," acc) "" servers.
Definition demo_Unmarshal (s : string) : option (list string) :=
  mapM DecodeString (take (length (Split s ",") - 1) (Split s ",")).

Lemma b64_no_comma s : no_byte "," (EncodeToString s) = true.
Proof.
  assert (∀ v, (v < 64)%N → bool_decide (b64_char v = ","%char) = false) as Hc.
  { intros v Hv. apply bool_decide_eq_false. intros E. pose proof (b64_val_char v Hv) as H. by rewrite E in H. }
  induction s as [|x|x y|x y z s IH] using string_ind3; [done|..]; simpl;
    rewrite !no_byte_cons, !Hc by sextets; rewrite ?IH; done.
Qed.

#[export] Instance demo_codec : StateCodec.
Proof.
  refine {| Marshal := demo_Marshal; Unmarshal := demo_Unmarshal |}. intros servers.
  assert (Split (demo_Marshal servers) "," = map EncodeToString servers ++ [""]) as Hs.
  { induction servers as [|s servers IH]; [done|]. simpl. by rewrite Split_app, IH by apply b64_no_comma. }
  unfold demo_Unmarshal. rewrite Hs, length_app, length_map. simpl.
  replace (length servers + 1 - 1)%nat with (length (map EncodeToString servers)) by (rewrite length_map; lia).
  rewrite take_app_length. clear Hs. induction servers as [|s servers IH]; [done|].
  simpl. rewrite Decode_EncodeToString. simpl. by rewrite IH.
Defined.

Lemma saveState_atomic_witness :
  let o := mkRun (Some "/var/lib/lb/.servers-1.tmp") 3 true true true true true in
  LoadState "/var/lib/lb/servers.json"
    (saved o "/var/lib/lb/servers.json" ["10.0.0.1:6443"; "10.0.0.2:6443"] ∅) =
  inr ["10.0.0.1:6443"; "10.0.0.2:6443"].
Proof.
  intros o. apply (saveState_atomic o "/var/lib/lb/servers.json" "/var/lib/lb/.servers-1.tmp"); done.
Defined.
