(* ===== verification/Discovery.v ===== *)
(** Package discovery, file discovery.go: the poller that keeps the pool in step
    with the cluster's endpoints. *)
From S2P Require Import Prelude Backend Pool GoStrings GoNet Yaml Kubeconfig State.

Definition endpointsPath : string := "/api/v1/namespaces/default/endpoints/kubernetes".

(** ** The endpoints object *)

Record Subset := mkSubset { Addresses : list string; Ports : list Z }.

(** [sort.Strings]. *)
Definition Strings (l : list string) : list string := merge_sort String.le l.

(** The loops that build the address list; [seen] is the set of its elements. *)
Definition add_hostport (acc : gset string * list string) (hp : string) : gset string * list string :=
  if decide (hp ∈ acc.1) then acc else ({[hp]} ∪ acc.1, acc.2 ++ [hp]).

Definition collect (subsets : list Subset) : gset string * list string :=
  foldl (λ acc subset,
    foldl (λ acc ip, foldl (λ acc port, add_hostport acc (JoinHostPort ip (Itoa port))) acc (Ports subset))
      acc (Addresses subset)) (∅, []) subsets.

Definition endpoint_addrs (subsets : list Subset) : list string := Strings (collect subsets).2.

(** [sameAddrs], given the backends' addresses. *)
Definition same_addrs (addrs current : list string) : bool :=
  if negb (length addrs =? length current)%nat then false
  else forallb (λ a, bool_decide (a ∈ (list_to_set current : gset string))) addrs.

(** The response to a request, as the code looks at it: the status and the decoded
    body, [None] when it does not decode. *)
Record Response := mkResponse { StatusCode : Z; Body : option (list Subset) }.

Inductive fetchError :=
  | ErrRequest | ErrToken (e : kubeError) | ErrTransport | ErrStatus (code : Z) | ErrDecode | ErrNoBackends.

Section discovery.
Context {CertPool Certificate : Type}.
Context (AppendCertsFromPEM : string → option CertPool).
Context (X509KeyPair : string → string → option Certificate).
Context {P : Type} `{PickerLaws P} `{MapRange} `{StateCodec}.
Abbreviation Auth := (@Auth CertPool Certificate).

(** The HTTP client differs from call to call only in its TLS configuration. *)
Record Client := mkClient {
  RootCAs : CertPool;
  cl_GetClientCertificate : option (FS → kubeError + Certificate)
}.

Record Request := mkRequest { URL : string; Authorization : option string }.

(** [validate] is [Options.Validate] being nil-error. *)
Record Options := mkOptions {
  KubeconfigPath : string;
  validate : list string → bool;
  StatePath : string
}.

Record Poller := mkPoller {
  auth : option Auth;
  client : option Client;
  loggedWaiting : bool;
  loggedEmpty : bool
}.

(** The lines the poller logs. *)
Inductive Event :=
  | EvWaiting (e : kubeError) | EvActivated | EvFetchFailed (e : fetchError)
  | EvEmpty | EvRejected (addrs : list string) | EvUpdated (addrs : list string)
  | EvPersistFailed | EvAdded (addr : string) | EvRemoved (addr : string) (drained : Z).

(** What the poller works on. *)
Record World := mkWorld {
  w_heap : Heap;
  w_pool : Pool P;
  w_poller : Poller;
  w_disk : Disk;
  w_log : list Event
}.

(** What the outside does during one round: the readable files, which addresses
    make a URL, the answer to each request, and the run of [saveState]. *)
Record Env := mkEnv {
  e_fs : FS;
  e_url_ok : string → bool;
  e_do : Client → Request → option Response;
  e_os : osRun
}.

Definition set_heap (h : Heap) (w : World) : World :=
  mkWorld h (w_pool w) (w_poller w) (w_disk w) (w_log w).
Definition set_pool (p : Pool P) (w : World) : World :=
  mkWorld (w_heap w) p (w_poller w) (w_disk w) (w_log w).
Definition set_poller (p : Poller) (w : World) : World :=
  mkWorld (w_heap w) (w_pool w) p (w_disk w) (w_log w).
Definition set_disk (d : Disk) (w : World) : World :=
  mkWorld (w_heap w) (w_pool w) (w_poller w) d (w_log w).
Definition log (e : Event) : prog World unit :=
  modify (λ w, mkWorld (w_heap w) (w_pool w) (w_poller w) (w_disk w) (w_log w ++ [e])).

Definition on_heap {A} (m : prog Heap A) : prog World A := λ w,
  match m (w_heap w) with Some (a, h) => Some (a, set_heap h w) | None => None end.

Definition set_loggedEmpty (v : bool) : prog World unit :=
  modify (λ w, set_poller (mkPoller (auth (w_poller w)) (client (w_poller w))
                             (loggedWaiting (w_poller w)) v) w).
Definition set_loggedWaiting (v : bool) : prog World unit :=
  modify (λ w, set_poller (mkPoller (auth (w_poller w)) (client (w_poller w))
                             v (loggedEmpty (w_poller w))) w).

(** ** Fetching *)

Section round.
Context (opts : Options) (env : Env).

(** [BearerToken] is called before the request is sent. *)
Definition fetchFrom (a : Auth) (c : Client) (addr : string) : fetchError + list string :=
  let url := "https://" +:+ addr +:+ endpointsPath in
  if negb (e_url_ok env url) then inl ErrRequest
  else
    let token := match BearerToken a with
                 | None => inr None
                 | Some f => match f (e_fs env) with inl e => inl e | inr t => inr (Some ("Bearer " +:+ t)) end
                 end in
    match token with
    | inl e => inl (ErrToken e)
    | inr header =>
        match e_do env c (mkRequest url header) with
        | None => inl ErrTransport
        | Some resp =>
            if negb (StatusCode resp =? 200) then inl (ErrStatus (StatusCode resp))
            else match Body resp with
                 | None => inl ErrDecode
                 | Some subsets => inr (endpoint_addrs subsets)
                 end
        end
    end.

Fixpoint fetch_loop (a : Auth) (c : Client) (lastErr : fetchError) (candidates : list loc) :
    prog World (fetchError + list string) :=
  match candidates with
  | [] => mret (inl lastErr)
  | b :: candidates' =>
      addr ← on_heap (Addr b);
      match fetchFrom a c addr with
      | inr addrs => mret (inr addrs)
      | inl err => fetch_loop a c err candidates'
      end
  end.

Definition fetch (a : Auth) (c : Client) : prog World (fetchError + list string) :=
  w ← get;
  '(p', (candidates, _)) ← on_heap (Candidates (w_pool w));
  modify (set_pool p') ;;
  fetch_loop a c ErrNoBackends candidates.

(** ** Applying *)

Definition sameAddrs (addrs : list string) (backends : list loc) : prog World bool :=
  current ← on_heap (mapM Addr backends);
  mret (same_addrs addrs current).

Definition apply (addrs : list string) : prog World unit :=
  w ← get;
  if bool_decide (addrs = []) then
    if loggedEmpty (w_poller w) then mret tt else log EvEmpty ;; set_loggedEmpty true
  else
    set_loggedEmpty false ;;
    same ← sameAddrs addrs (Backends (w_pool w));
    if (same : bool) then mret tt
    else if negb (validate opts addrs) then log (EvRejected addrs)
    else
      '(p', (added, removed)) ← on_heap (SetAddrs (w_pool w) addrs);
      modify (set_pool p') ;;
      log (EvUpdated addrs) ;;
      (if bool_decide (StatePath opts = "") then mret tt
       else
         w ← get;
         put (set_disk (saved (e_os env) (StatePath opts) addrs (w_disk w)) w) ;;
         if save_error (e_os env) (StatePath opts) addrs (w_disk w) then log EvPersistFailed else mret tt) ;;
      for_each (λ b, a ← on_heap (Addr b); log (EvAdded a)) added ;;
      for_each (λ b, n ← on_heap (DrainAll b); a ← on_heap (Addr b); log (EvRemoved a n)) removed.

(** ** One round *)

Definition ensure_auth : prog World bool :=
  w ← get;
  match auth (w_poller w) with
  | Some _ => mret true
  | None =>
      r ← deref (λ _, Load AppendCertsFromPEM X509KeyPair (e_fs env) (KubeconfigPath opts));
      match r with
      | inl e =>
          (if loggedWaiting (w_poller w) then mret tt else log (EvWaiting e) ;; set_loggedWaiting true) ;;
          mret false
      | inr a =>
          modify (set_poller (mkPoller (Some a) (Some (mkClient (CAPool a) (GetClientCertificate a)))
                                (loggedWaiting (w_poller w)) (loggedEmpty (w_poller w)))) ;;
          log EvActivated ;;
          mret true
      end
  end.

Definition pollOnce : prog World unit :=
  ready ← ensure_auth;
  if negb ready then mret tt
  else
    a ← deref (λ w, auth (w_poller w));
    c ← deref (λ w, client (w_poller w));
    r ← fetch a c;
    match r with
    | inl e => log (EvFetchFailed e)
    | inr addrs => apply addrs
    end.
End round.

(** [Run]: one round at once and one per tick until the context is cancelled,
    [envs] being what each round meets. *)
Definition Run (opts : Options) (envs : list Env) : prog World unit :=
  for_each (pollOnce opts) envs.
End discovery.

(** ** The address list *)

Definition offered (subsets : list Subset) (hp : string) : Prop :=
  ∃ subset ip port, subset ∈ subsets ∧ ip ∈ Addresses subset ∧ port ∈ Ports subset ∧
    hp = JoinHostPort ip (Itoa port).

Definition collected (acc : gset string * list string) (hps : list string) : Prop :=
  acc.1 = list_to_set acc.2 ∧ NoDup acc.2 ∧ ∀ hp, hp ∈ acc.2 ↔ hp ∈ hps.

Lemma add_hostport_collected acc hps hp :
  collected acc hps → collected (add_hostport acc hp) (hps ++ [hp]).
Proof.
  destruct acc as [seen addrs]. unfold collected, add_hostport. simpl. intros (-> & Hd & Hin).
  case_decide as Hs; simpl.
  - apply elem_of_list_to_set in Hs. split_and!; [done..|]. intros x. rewrite Hin. set_solver.
  - rewrite elem_of_list_to_set in Hs. split_and!.
    + rewrite list_to_set_app_L. set_solver.
    + apply NoDup_app. split_and!; [done|set_solver|apply NoDup_singleton].
    + set_solver.
Qed.

Lemma foldl_collected {A} (f : gset string * list string → A → gset string * list string)
    (g : A → list string) (l : list A) acc hps :
  (∀ acc hps x, collected acc hps → collected (f acc x) (hps ++ g x)) →
  collected acc hps → collected (foldl f acc l) (hps ++ concat (map g l)).
Proof.
  intros Hf. revert acc hps. induction l as [|x l IH]; intros acc hps Hc; [by rewrite app_nil_r|].
  simpl. rewrite app_assoc. auto.
Qed.

Definition offered_list (subsets : list Subset) : list string :=
  concat (map (λ s, concat (map (λ ip, concat (map (λ port, [JoinHostPort ip (Itoa port)]) (Ports s)))
    (Addresses s))) subsets).

Lemma collect_collected subsets : collected (collect subsets) (offered_list subsets).
Proof.
  unfold collect, offered_list. rewrite <- (app_nil_l (concat _)).
  apply foldl_collected.
  - intros acc hps s Hc. apply foldl_collected; [|done]. intros acc' hps' ip Hc'.
    apply foldl_collected; [|done]. intros. by apply add_hostport_collected.
  - split_and!; [done|constructor|done].
Qed.

Lemma elem_of_offered_list subsets hp : hp ∈ offered_list subsets ↔ offered subsets hp.
Proof.
  unfold offered_list, offered. setoid_rewrite list_elem_of_In. rewrite in_concat. setoid_rewrite in_map_iff.
  split.
  - intros (l & (s & <- & Hs) & Hin). rewrite in_concat in Hin. destruct Hin as (l' & Hl' & Hin).
    apply in_map_iff in Hl' as (ip & <- & Hip). apply in_concat in Hin as (l'' & Hl'' & Hin).
    apply in_map_iff in Hl'' as (port & <- & Hport). destruct Hin as [<-|[]]. by exists s, ip, port.
  - intros (s & ip & port & Hs & Hip & Hport & ->). eexists. split; [by exists s|].
    apply in_concat. eexists. split; [by apply in_map|].
    apply in_concat. eexists. split; [by apply (in_map (λ port, [JoinHostPort ip (Itoa port)]))|]. by left.
Qed.

Lemma endpoint_addrs_NoDup subsets : NoDup (endpoint_addrs subsets).
Proof.
  unfold endpoint_addrs, Strings. rewrite merge_sort_Permutation. apply collect_collected.
Qed.

(** The list built from an endpoints object is strictly sorted, so without
    repeats, and holds exactly the host:port pairs the object offers, every
    address of a subset with every port of the same subset. *)
Theorem endpoint_addrs_spec (subsets : list Subset) :
  StronglySorted String.le (endpoint_addrs subsets) ∧ NoDup (endpoint_addrs subsets) ∧
  ∀ hp, hp ∈ endpoint_addrs subsets ↔ offered subsets hp.
Proof.
  split; [apply StronglySorted_merge_sort; apply _|]. split; [apply endpoint_addrs_NoDup|].
  intros hp. unfold endpoint_addrs, Strings. rewrite merge_sort_Permutation, <- elem_of_offered_list.
  apply collect_collected.
Qed.

(** Lists without repeats have the same elements when one of the same length
    includes the other. *)
Lemma same_addrs_spec addrs current :
  NoDup addrs → NoDup current → same_addrs addrs current = true ↔ addrs ≡ₚ current.
Proof.
  intros Ha Hc. unfold same_addrs. destruct (Nat.eqb_spec (length addrs) (length current)) as [Hl|Hl]; simpl.
  - rewrite forallb_forall. setoid_rewrite bool_decide_eq_true. setoid_rewrite elem_of_list_to_set.
    split.
    + intros Hin. apply submseteq_length_Permutation; [|lia].
      apply NoDup_submseteq; [done|]. intros x Hx. apply Hin. by apply list_elem_of_In.
    + intros Hp x Hx%list_elem_of_In. by rewrite <- Hp.
  - split; [done|]. intros Hp%Permutation_length. done.
Qed.

(** ** Draining the removed backends *)

(** [h'] is [h] after draining the backends [ls]: addresses and health stay, the
    drained ones have no connection left and their sockets are closed, every other
    backend is as it was and so is every socket not under a drained one. *)
Record drained (ls : list loc) (h h' : Heap) : Prop := {
  dr_backend : ∀ l b, h_backend h !! l = Some b → ∃ b', h_backend h' !! l = Some b' ∧
    addr b' = addr b ∧ healthy b' = healthy b ∧
    (l ∈ ls → conns b' = ∅) ∧ (l ∉ ls → b' = b);
  dr_tracked : ∀ tc t, h_tracked h !! tc = Some t → ∃ t', h_tracked h' !! tc = Some t' ∧
    tc_Conn t' = tc_Conn t ∧ tc_backend t' = tc_backend t;
  dr_closed : ∀ l b tc t, l ∈ ls → h_backend h !! l = Some b → tc ∈ conns b →
    h_tracked h !! tc = Some t → ∃ nc, h_conn h' !! tc_Conn t = Some nc ∧ nc_closed nc = true;
  dr_sockets : ∀ c nc, h_conn h !! c = Some nc → ∃ nc', h_conn h' !! c = Some nc' ∧
    (nc_closed nc = true → nc_closed nc' = true) ∧
    (nc' ≠ nc → ∃ l b tc t, l ∈ ls ∧ h_backend h !! l = Some b ∧ tc ∈ conns b ∧
       h_tracked h !! tc = Some t ∧ tc_Conn t = c)
}.

Lemma drained_nil h : drained [] h h.
Proof.
  split.
  - intros l b Hb. exists b. set_solver.
  - intros tc t Ht. by exists t.
  - set_solver.
  - intros c nc Hc. exists nc. naive_solver.
Qed.

Section drain_step.
Context (h h1 : Heap) (l : loc) (b : Backend) (n : Z).
Hypothesis Hwf : wf_heap h.
Hypothesis Hb : h_backend h !! l = Some b.
Hypothesis Hcs : closed_set l (conns b) h h1.
Let h2 := alter_backend (set_stats (add_Drained n)) l h1.

Lemma step_backend l' b' : h_backend h !! l' = Some b' →
  h_backend h2 !! l' = Some (if decide (l' = l) then set_stats (add_Drained n) (set_conns ∅ b') else b').
Proof.
  intros Hb'. subst h2. simpl. destruct (decide (l' = l)) as [->|Hne].
  - rewrite lookup_alter_eq, (cs_backend _ _ _ _ Hcs), decide_True, Hb' by done. simplify_eq. simpl.
    do 3 f_equal. apply difference_diag_L.
  - rewrite lookup_alter_ne, (cs_backend _ _ _ _ Hcs), decide_False by done. done.
Qed.

Lemma step_tracked tc t : h_tracked h !! tc = Some t →
  ∃ t', h_tracked h2 !! tc = Some t' ∧ tc_Conn t' = tc_Conn t ∧ tc_backend t' = tc_backend t.
Proof.
  intros Ht. subst h2. simpl. rewrite (cs_tracked _ _ _ _ Hcs), Ht. case_decide; simpl; by eexists.
Qed.

Lemma step_socket c nc : h_conn h !! c = Some nc →
  ∃ nc', h_conn h2 !! c = Some nc' ∧ (nc_closed nc = true → nc_closed nc' = true) ∧
    (c ∈ sockets_of h (conns b) → nc_closed nc' = true) ∧ (c ∉ sockets_of h (conns b) → nc' = nc).
Proof.
  intros Hc. subst h2. simpl. rewrite (cs_conn _ _ _ _ Hcs), Hc. case_decide; simpl; eexists; split_and!; done.
Qed.
End drain_step.

Lemma drained_step ls h t l b h1 n :
  drained ls h t → wf_heap t → is_Some (h_backend h !! l) →
  h_backend t !! l = Some b → closed_set l (conns b) t h1 → wf_heap h →
  drained (ls ++ [l]) h (alter_backend (set_stats (add_Drained n)) l h1).
Proof.
  intros Hdr Hwt [b0 Hb0] Hb Hcs Hwh.
  assert (∀ tc, tc ∈ conns b0 → l ∉ ls → tc ∈ conns b) as Hconns.
  { intros tc Htc Hl. destruct (dr_backend _ _ _ Hdr _ _ Hb0) as (b' & Hb' & _ & _ & _ & E).
    specialize (E Hl). congruence. }
  split.
  - intros l' b' Hb'. destruct (dr_backend _ _ _ Hdr _ _ Hb') as (b1 & Hb1 & Ha & Hh & Hin & Hout).
    eexists. split; [by eapply step_backend|]. case_decide as E; simpl.
    + subst l'. split_and!; [done..|set_solver].
    + split_and!; [done|done| |]; rewrite elem_of_app, elem_of_cons, elem_of_nil; naive_solver.
  - intros tc t0 Ht0. destruct (dr_tracked _ _ _ Hdr _ _ Ht0) as (t1 & Ht1 & Hc1 & Hb1).
    destruct (step_tracked t h1 l b n Hcs tc t1 Ht1) as (t2 & ? & ? & ?). exists t2. split_and!; congruence.
  - intros l' b' tc t0 Hl' Hb' Htc Ht0.
    destruct (dr_tracked _ _ _ Hdr _ _ Ht0) as (t1 & Ht1 & Hc1 & _).
    destruct (decide (l' ∈ ls)) as [Hin|Hnin].
    + destruct (dr_closed _ _ _ Hdr _ _ _ _ Hin Hb' Htc Ht0) as (nc & Hnc & Hcl).
      destruct (step_socket t h1 l b n Hcs _ _ Hnc) as (nc' & ? & Hmono & _). exists nc'. auto.
    + assert (l' = l) as -> by set_solver. simplify_eq.
      destruct (wf_tracked_conn _ Hwt _ _ Ht1) as (nc & Hnc & _). rewrite Hc1 in Hnc.
      destruct (step_socket t h1 l b n Hcs _ _ Hnc) as (nc' & Hnc' & _ & Hcl & _). exists nc'.
      split; [done|]. apply Hcl, elem_of_sockets_of. exists tc, t1. auto.
  - intros c nc Hc. destruct (dr_sockets _ _ _ Hdr _ _ Hc) as (nc1 & Hc1 & Hm1 & Hch1).
    destruct (step_socket t h1 l b n Hcs _ _ Hc1) as (nc2 & Hc2 & Hm2 & Hin & Hout).
    exists nc2. split_and!; [done|auto|]. intros Hne.
    destruct (decide (nc1 = nc)) as [->|Hne1].
    + destruct (decide (c ∈ sockets_of t (conns b))) as [Hs|Hs]; [|by rewrite Hout in Hne].
      apply elem_of_sockets_of in Hs as (tc & t1 & Htc & Ht1 & Hc').
      destruct (dr_backend _ _ _ Hdr _ _ Hb0) as (b' & Hb' & _ & _ & Hdrained & Hkept).
      assert (b' = b) as -> by congruence.
      destruct (decide (l ∈ ls)) as [Hl|Hl]; [rewrite Hdrained in Htc by done; set_solver|].
      rewrite (Hkept Hl) in Htc.
      pose proof (wf_conns _ Hwh _ _ tc Hb0) as Hiff. apply Hiff in Htc as Htc'.
      destruct Htc' as (t0 & Ht0 & _). destruct (dr_tracked _ _ _ Hdr _ _ Ht0) as (t' & Ht' & Hcc & _).
      exists l, b0, tc, t0. split_and!; [set_solver|done..|congruence].
    + destruct (Hch1 Hne1) as (l' & b' & tc & t' & ? & ? & ? & ? & ?).
      exists l', b', tc, t'. split_and!; [set_solver|done..].
Qed.

Section poller_theorems.
Context {CertPool Certificate : Type}.
Context {P : Type} `{PickerLaws P} `{MapRange} `{StateCodec}.
Abbreviation World := (@World CertPool Certificate P).

Lemma runs_on_heap {A} (m : prog Heap A) (w : World) a h :
  runs m (w_heap w) a h → runs (on_heap m) w a (set_heap h w).
Proof. unfold runs, on_heap. by intros ->. Qed.

Lemma set_heap_id (w : World) : set_heap (w_heap w) w = w.
Proof. by destruct w. Qed.

Lemma runs_on_heap_read {A} (m : prog Heap A) (w : World) a :
  runs m (w_heap w) a (w_heap w) → runs (on_heap m) w a w.
Proof. intros Hr%runs_on_heap. by rewrite set_heap_id in Hr. Qed.

(** Everything but the heap and the log. *)
Definition same_but_heap (w w' : World) : Prop :=
  w_pool w' = w_pool w ∧ w_poller w' = w_poller w ∧ w_disk w' = w_disk w.

Lemma drain_loop (removed : list loc) (w : World) :
  wf_heap (w_heap w) → Forall (allocated (w_heap w)) removed →
  ∃ w', runs (for_each (λ b, n ← on_heap (DrainAll b); a ← on_heap (Addr b); log (EvRemoved a n)) removed) w tt w' ∧
    wf_heap (w_heap w') ∧ drained removed (w_heap w) (w_heap w') ∧ same_but_heap w w'.
Proof.
  intros Hwf Hall.
  destruct (runs_for_each (λ b, n ← on_heap (DrainAll b); a ← on_heap (Addr b); log (EvRemoved a n))
    (λ pre (s : World), wf_heap (w_heap s) ∧ drained pre (w_heap w) (w_heap s) ∧ same_but_heap w s) removed w)
    as (w' & Hr & Hi); [| |by exists w'].
  { split_and!; [done|apply drained_nil|done..]. }
  intros pre l post s Hl (Hws & Hdr & Hp & Hpo & Hd).
  assert (allocated (w_heap w) l) as [b0 Hb0].
  { rewrite Hl, Forall_app, Forall_cons in Hall. tauto. }
  destruct (dr_backend _ _ _ Hdr _ _ Hb0) as (b & Hb & Ha & _).
  destruct (DrainAll_runs l (w_heap s) b Hws Hb) as (h1 & Hwf1 & Hcs & Hrun).
  set (n := Z.of_nat (size (conns b))) in *. cbv zeta in Hrun.
  set (h2 := alter_backend (set_stats (add_Drained n)) l h1) in *.
  assert (h_backend h2 !! l = Some (set_stats (add_Drained n) (set_conns ∅ b))) as Hb2.
  { subst h2. erewrite step_backend by done. by rewrite decide_True. }
  exists (mkWorld h2 (w_pool s) (w_poller s) (w_disk s) (w_log s ++ [EvRemoved (addr b) n])).
  split.
  - eapply runs_bind; [apply runs_on_heap, Hrun|].
    eapply runs_bind; [apply runs_on_heap_read, (Addr_runs h2 _ _ Hb2)|done].
  - simpl. split_and!; [by apply set_stats_wf| |done..].
    apply (drained_step pre (w_heap w) (w_heap s) l b h1 n); done.
Qed.

Lemma added_loop (added : list loc) (w : World) :
  Forall (allocated (w_heap w)) added →
  ∃ w', runs (for_each (λ b, a ← on_heap (Addr b); log (EvAdded a)) added) w tt w' ∧
    w_heap w' = w_heap w ∧ same_but_heap w w'.
Proof.
  intros Hall.
  destruct (runs_for_each (λ b, a ← on_heap (Addr b); log (EvAdded a))
    (λ _ (s : World), w_heap s = w_heap w ∧ same_but_heap w s) added w)
    as (w' & Hr & Hi); [| |by exists w'].
  { done. }
  intros pre l post s Hl (Hh & Hp & Hpo & Hd).
  assert (allocated (w_heap w) l) as [b Hb].
  { rewrite Hl, Forall_app, Forall_cons in Hall. tauto. }
  eexists. split.
  - eapply runs_bind; [apply runs_on_heap_read; rewrite Hh; by apply Addr_runs|]. done.
  - simpl. done.
Qed.

(** The addresses of a pool's backends, read in order. *)
Lemma addrs_runs (h : Heap) (p : Pool P) addrs :
  wf_pool h p addrs → runs (mapM Addr (backends p)) h addrs h.
Proof.
  intros [Hf _]. induction Hf as [|l a ls as_ (b & Hb & <-) _ IH]; [done|]. simpl.
  eapply runs_bind; [by apply Addr_runs|]. by eapply runs_bind.
Qed.

(** What one call of [apply] does, given its list. *)
Section apply.
Context (opts : Options) (env : @Env CertPool Certificate).

(** Nothing but the log and the log-once flags changed. *)
Definition kept (w w' : World) : Prop :=
  w_heap w' = w_heap w ∧ w_pool w' = w_pool w ∧ w_disk w' = w_disk w ∧
  auth (w_poller w') = auth (w_poller w) ∧ client (w_poller w') = client (w_poller w).

(** The pool was reconciled with [addrs], the removed backends were drained, and
    the list was written to the state file, if there is one. *)
Definition updated (addrs : list string) (w w' : World) : Prop :=
  ∃ h1 added removed,
    reconciled (w_heap w) (w_pool w) addrs h1 (w_pool w') added removed ∧
    drained removed h1 (w_heap w') ∧
    w_disk w' = (if bool_decide (StatePath opts = "") then w_disk w
                 else saved (e_os env) (StatePath opts) addrs (w_disk w)) ∧
    auth (w_poller w') = auth (w_poller w) ∧ client (w_poller w') = client (w_poller w).

(** Whether a list is applied: not empty, not what the pool has, and valid. *)
Definition applies (addrs current : list string) : bool :=
  negb (bool_decide (addrs = [])) && negb (same_addrs addrs current) && validate opts addrs.

(** Persisting the list. *)
Definition persisted (addrs : list string) (d : Disk) : Disk :=
  if bool_decide (StatePath opts = "") then d else saved (e_os env) (StatePath opts) addrs d.

Lemma persist_runs addrs (w : World) :
  ∃ w', runs (if bool_decide (StatePath opts = "") then mret tt
      else
        w ← get;
        put (set_disk (saved (e_os env) (StatePath opts) addrs (w_disk w)) w) ;;
        if save_error (e_os env) (StatePath opts) addrs (w_disk w) then log EvPersistFailed else mret tt) w tt w' ∧
    w_heap w' = w_heap w ∧ w_pool w' = w_pool w ∧ w_poller w' = w_poller w ∧ w_disk w' = persisted addrs (w_disk w).
Proof.
  unfold persisted. destruct (bool_decide (StatePath opts = "")); [by exists w|].
  destruct (save_error (e_os env) (StatePath opts) addrs (w_disk w)) eqn:Hse;
    (eexists; split; [eapply runs_bind; [done|]; eapply runs_bind; [done|]; simpl; by rewrite Hse|done]).
Qed.

Lemma apply_runs (w : World) (addrs current : list string) :
  wf_heap (w_heap w) → wf_pool (w_heap w) (w_pool w) current → NoDup addrs →
  ∃ w', runs (apply opts env addrs) w tt w' ∧ wf_heap (w_heap w') ∧
    if applies addrs current then updated addrs w w' else kept w w'.
Proof.
  intros Hwf Hp Hnd. unfold apply, applies.
  destruct (bool_decide (addrs = [])) eqn:He; simpl.
  { destruct (loggedEmpty (w_poller w)) eqn:Hl.
    - exists w. split; [unfold runs, mbind, prog_bind, get; by rewrite Hl|]. done.
    - eexists. split; [unfold runs, mbind, prog_bind, get; by rewrite Hl|]. by simpl. }
  set (w0 := set_poller (mkPoller (auth (w_poller w)) (client (w_poller w)) (loggedWaiting (w_poller w)) false) w).
  assert (runs (sameAddrs addrs (backends (w_pool w))) w0 (same_addrs addrs current) w0) as Hsame.
  { eapply runs_bind; [|done]. apply runs_on_heap_read. by apply addrs_runs. }
  destruct (same_addrs addrs current) eqn:Hs; simpl.
  { exists w0. split; [|done]. eapply runs_bind; [done|]. eapply runs_bind; [done|].
    eapply runs_bind; [exact Hsame|done]. }
  destruct (validate opts addrs) eqn:Hv; simpl.
  2: { eexists. split.
       - eapply runs_bind; [done|]. eapply runs_bind; [done|]. by eapply runs_bind; [exact Hsame|].
       - by simpl. }
  destruct (SetAddrs_runs (w_pool w) current addrs (w_heap w) Hp Hnd) as (p' & added & removed & h1 & Hset & Hrec).
  pose proof (rec_wf _ _ _ _ _ _ _ Hrec Hwf) as Hwf1.
  set (w1 := mkWorld h1 p' (w_poller w0) (w_disk w) (w_log w ++ [EvUpdated addrs])).
  destruct (persist_runs addrs w1) as (w2 & Hsave & Hh2 & Hp2 & Hpo2 & Hd2).
  destruct (added_loop added w2) as (w3 & Hadd & Hh3 & Hp3 & Hpo3 & Hd3).
  { rewrite Hh2, Forall_forall. intros l (a & _ & Hl & _)%(rec_fresh _ _ _ _ _ _ _ Hrec). by eexists. }
  destruct (drain_loop removed w3) as (w4 & Hdrain & Hwf4 & Hdr & Hp4 & Hpo4 & Hd4).
  { by rewrite Hh3, Hh2. }
  { rewrite Hh3, Hh2, Forall_forall. intros l Hl.
    assert (l ∈ backends (w_pool w)) as Hin by (eapply elem_of_sublist; [exact Hl|apply (rec_removed_sub _ _ _ _ _ _ _ Hrec)]).
    pose proof (wf_pool_allocated _ _ _ Hp) as Hall. rewrite Forall_forall in Hall.
    destruct (Hall l Hin) as [b Hb]. exists b. by apply (rec_state _ _ _ _ _ _ _ Hrec). }
  exists w4. split_and!.
  - eapply runs_bind; [done|]. eapply runs_bind; [done|]. eapply runs_bind; [exact Hsame|]. simpl.
    eapply runs_bind; [apply runs_on_heap, Hset|]. eapply runs_bind; [done|]. eapply runs_bind; [done|].
    eapply runs_bind; [exact Hsave|]. by eapply runs_bind.
  - done.
  - exists h1, added, removed. rewrite Hp4, Hp3, Hp2. split_and!; [done| | |..].
    + rewrite Hh3, Hh2 in Hdr. done.
    + by rewrite Hd4, Hd3, Hd2.
    + by rewrite Hpo4, Hpo3, Hpo2.
    + by rewrite Hpo4, Hpo3, Hpo2.
Qed.
End apply.

Lemma drained_wf_pool ls h h' (p : Pool P) addrs : drained ls h h' → wf_pool h p addrs → wf_pool h' p addrs.
Proof.
  intros Hdr [Hf Hd]. split; [|done]. eapply Forall2_impl; [done|]. intros l a (b & Hb & Ha).
  destruct (dr_backend _ _ _ Hdr _ _ Hb) as (b' & Hb' & Ha' & _). exists b'. split; [done|congruence].
Qed.

Lemma updated_wf_pool opts (env : @Env CertPool Certificate) addrs w w' :
  updated opts env addrs w w' → wf_pool (w_heap w') (w_pool w') addrs.
Proof. intros (h1 & added & removed & Hrec & Hdr & _). eapply drained_wf_pool; [done|]. apply Hrec. Qed.

(** C17. Applying a discovered list never panics.  It changes the pool exactly when
    the list is not empty, differs from the pool's addresses and passes validation;
    then the pool becomes that list, in order, backends that stay keep their object
    and state, those that go have every connection closed, and the list is written
    to the state file.  In every other case pool, heap and file are untouched. *)
Theorem apply_guarded (opts : Options) (env : @Env CertPool Certificate) (w : World)
    (addrs current : list string)
    (Hwf : wf_heap (w_heap w)) (Hpool : wf_pool (w_heap w) (w_pool w) current) (Hnd : NoDup addrs) :
  ∃ w', runs (apply opts env addrs) w tt w' ∧ wf_heap (w_heap w') ∧
    (addrs ≠ [] ∧ ¬ addrs ≡ₚ current ∧ validate opts addrs = true →
       wf_pool (w_heap w') (w_pool w') addrs ∧ updated opts env addrs w w') ∧
    (addrs = [] ∨ addrs ≡ₚ current ∨ validate opts addrs = false → kept w w').
Proof.
  destruct (apply_runs opts env w addrs current Hwf Hpool Hnd) as (w' & Hr & Hwf' & Hcase).
  exists w'. split; [done|]. split; [done|]. unfold applies in Hcase.
  pose proof (same_addrs_spec addrs current Hnd (wf_nodup _ _ _ Hpool)) as Hs.
  destruct (bool_decide (addrs = [])) eqn:He, (same_addrs addrs current), (validate opts addrs); simpl in Hcase;
    try apply bool_decide_eq_true_1 in He; try apply bool_decide_eq_false_1 in He.
  all: try (split; [intros (? & Hn & ?); exfalso; first [done|apply Hn; by apply Hs]|done]).
  split; [|intros [?|[Hp|?]]; [done|by apply Hs in Hp|done]].
  intros _. split; [by eapply updated_wf_pool|done].
Qed.

(** ** Fetching *)

Section fetching.
Context (env : @Env CertPool Certificate) (a : @Auth CertPool Certificate) (c : @Client CertPool Certificate).

(** The first answer, asking the addresses in order. *)
Fixpoint first_answer (lastErr : fetchError) (addrs : list string) : fetchError + list string :=
  match addrs with
  | [] => inl lastErr
  | addr :: addrs' =>
      match fetchFrom env a c addr with inr r => inr r | inl e => first_answer e addrs' end
  end.

Lemma fetch_loop_runs (w : World) lastErr ls addrs :
  Forall2 (has_addr (w_heap w)) ls addrs →
  runs (fetch_loop env a c lastErr ls) w (first_answer lastErr addrs) w.
Proof.
  intros Hf. revert lastErr. induction Hf as [|l addr ls addrs (b & Hb & <-) _ IH]; intros lastErr; [done|].
  simpl. eapply runs_bind; [apply runs_on_heap_read, (Addr_runs _ _ _ Hb)|].
  by destruct (fetchFrom env a c (Backend.addr b)).
Qed.

Lemma first_answer_ok lastErr addrs r :
  first_answer lastErr addrs = inr r ↔
  ∃ pre addr post, addrs = pre ++ addr :: post ∧ Forall (λ x, ∃ e, fetchFrom env a c x = inl e) pre ∧
    fetchFrom env a c addr = inr r.
Proof.
  revert lastErr. induction addrs as [|addr addrs IH]; intros lastErr; simpl.
  - split; [done|]. intros (pre & x & post & E & _). by destruct pre.
  - destruct (fetchFrom env a c addr) as [e|r'] eqn:E.
    + rewrite IH. split.
      * intros (pre & x & post & -> & Hp & Hx). exists (addr :: pre), x, post. by eauto.
      * intros ([|y pre] & x & post & [= -> ->] & Hp & Hx); [congruence|].
        inversion Hp; subst. by exists pre, x, post.
    + split.
      * intros [= ->]. by exists [], addr, addrs.
      * intros ([|y pre] & x & post & [= -> ->] & Hp & Hx); [congruence|].
        inversion Hp as [|? ? [e He]]; subst. congruence.
Qed.

Lemma has_addrs (h : Heap) (ls bs : list loc) addrs :
  Forall2 (has_addr h) bs addrs → ls ⊆ bs → ∃ as_, Forall2 (has_addr h) ls as_ ∧ as_ ⊆ addrs.
Proof.
  intros Hf. induction ls as [|l ls IH]; intros Hs; [exists []; split; [constructor|set_solver]|].
  destruct IH as (as_ & Hf2 & Hs2); [set_solver|].
  assert (l ∈ bs) as [i Hi]%list_elem_of_lookup by set_solver.
  destruct (Forall2_lookup_l _ _ _ _ _ Hf Hi) as (x & Hx & Hl).
  exists (x :: as_). split; [by constructor|]. apply list_elem_of_lookup_2 in Hx. set_solver.
Qed.

Lemma fetch_runs (w : World) addrs :
  wf_pool (w_heap w) (w_pool w) addrs →
  ∃ p' out asked degraded,
    runs (Candidates (w_pool w)) (w_heap w) (p', (out, degraded)) (w_heap w) ∧
    backends p' = backends (w_pool w) ∧ Forall2 (has_addr (w_heap w)) out asked ∧ asked ⊆ addrs ∧
    runs (fetch env a c) w (first_answer ErrNoBackends asked) (set_pool p' w).
Proof.
  intros Hp. destruct (Candidates_runs (w_pool w) (w_heap w) (wf_pool_allocated _ _ _ Hp))
    as (p' & out & degraded & Hr & Hb & _ & Hperm & _).
  destruct (has_addrs (w_heap w) out (backends (w_pool w)) addrs) as (asked & Ha & Hsub).
  { apply Hp. }
  { intros x Hx. rewrite Hperm in Hx. destruct degraded; [done|].
    unfold healthy_of in Hx. by apply list_elem_of_filter in Hx as [_ ?]. }
  exists p', out, asked, degraded. split_and!; [done..|]. unfold fetch.
  eapply runs_bind; [done|]. eapply runs_bind; [apply runs_on_heap_read, Hr|].
  eapply runs_bind; [done|]. by apply fetch_loop_runs.
Qed.
End fetching.

(** A fetch asks the pool's candidates in balancer order and returns the list
    of the first that answers; it fails only when every candidate fails.  Asking
    changes nothing but the balancer's turn. *)
Theorem fetch_first_answer (env : @Env CertPool Certificate) (a : @Auth CertPool Certificate)
    (c : @Client CertPool Certificate) (w : World) (addrs : list string)
    (Hpool : wf_pool (w_heap w) (w_pool w) addrs) :
  ∃ p' out asked degraded result,
    runs (Candidates (w_pool w)) (w_heap w) (p', (out, degraded)) (w_heap w) ∧
    Forall2 (has_addr (w_heap w)) out asked ∧
    runs (fetch env a c) w result (set_pool p' w) ∧ backends p' = backends (w_pool w) ∧
    (∀ r, result = inr r ↔ ∃ pre addr post, asked = pre ++ addr :: post ∧
       Forall (λ x, ∃ e, fetchFrom env a c x = inl e) pre ∧ fetchFrom env a c addr = inr r).
Proof.
  destruct (fetch_runs env a c w addrs Hpool) as (p' & out & asked & degraded & Hc & Hb & Ha & _ & Hr).
  exists p', out, asked, degraded, (first_answer env a c ErrNoBackends asked).
  split_and!; [done..|]. intros r. apply first_answer_ok.
Qed.

(** ** Rounds *)

Section rounds.
Context (AppendCertsFromPEM : string → option CertPool).
Context (X509KeyPair : string → string → option Certificate).
Context (opts : Options).

(** The pool is never empty, and its addresses are the ones the run started with
    or a list that passed validation. *)
Record sound (init : list string) (w : World) : Prop := {
  so_heap : wf_heap (w_heap w);
  so_pool : ∃ addrs, wf_pool (w_heap w) (w_pool w) addrs ∧ addrs ≠ [] ∧
    (addrs ≡ₚ init ∨ validate opts addrs = true);
  so_client : ∀ a, auth (w_poller w) = Some a →
    client (w_poller w) = Some (mkClient (CAPool a) (GetClientCertificate a))
}.

Lemma ensure_auth_runs (env : @Env CertPool Certificate) init (w : World) :
  sound init w → Load AppendCertsFromPEM X509KeyPair (e_fs env) (KubeconfigPath opts) ≠ None →
  ∃ ready w', runs (ensure_auth AppendCertsFromPEM X509KeyPair opts env) w ready w' ∧ sound init w' ∧
    w_heap w' = w_heap w ∧ w_pool w' = w_pool w ∧ w_disk w' = w_disk w ∧
    (ready = true → is_Some (auth (w_poller w'))).
Proof.
  intros Hs Hl. pose proof Hs as [Hh Hp Hc]. unfold ensure_auth.
  destruct (auth (w_poller w)) as [a|] eqn:Ha.
  { exists true, w. split_and!; [|first [done|by eexists]..].
    unfold runs, mbind, prog_bind, get. by rewrite Ha. }
  destruct (Load _ _ _ _) as [[e|a]|] eqn:El; [| |done].
  - destruct (loggedWaiting (w_poller w)) eqn:Ew.
    + exists false, w. split_and!; try done.
      unfold runs, mbind, prog_bind, get, deref. by rewrite Ha, Ew.
    + eexists false, _. split.
      * unfold runs, mbind, prog_bind, get, deref. by rewrite Ha, Ew.
      * simpl. split_and!; try done. split; simpl; [done..|]. rewrite Ha. done.
  - eexists true, _. split.
    + unfold runs, mbind, prog_bind, get, deref. by rewrite Ha.
    + simpl. split_and!; try done. split; simpl; [done..|]. by intros ? [= ->].
Qed.

Lemma pollOnce_runs (env : @Env CertPool Certificate) init (w : World) :
  sound init w → Load AppendCertsFromPEM X509KeyPair (e_fs env) (KubeconfigPath opts) ≠ None →
  ∃ w', runs (pollOnce AppendCertsFromPEM X509KeyPair opts env) w tt w' ∧ sound init w'.
Proof.
  intros Hs Hl. destruct (ensure_auth_runs env init w Hs Hl) as (ready & w1 & Hr & Hs1 & _ & _ & _ & Hready).
  unfold pollOnce. destruct ready; [|by exists w1; split; [by eapply runs_bind|]].
  destruct (Hready eq_refl) as [a Ha]. pose proof Hs1 as [Hh (addrs & Hp & Hne & Htr) Hc].
  pose proof (Hc a Ha) as Hcl.
  destruct (fetch_runs env a (mkClient (CAPool a) (GetClientCertificate a)) w1 addrs Hp)
    as (p' & out & asked & degraded & _ & Hb & _ & _ & Hf).
  set (w2 := set_pool p' w1) in *.
  assert (wf_pool (w_heap w2) (w_pool w2) addrs) as Hp2.
  { destruct Hp as [Hf2 Hd]. split; [|done]. simpl. by rewrite Hb. }
  assert (sound init w2) as Hs2 by (split; simpl; [done|by exists addrs|done]).
  destruct (first_answer env a _ ErrNoBackends asked) as [e|new] eqn:Efa.
  { eexists. split.
    - eapply runs_bind; [exact Hr|]. simpl. eapply runs_bind; [by apply runs_deref|].
      eapply runs_bind; [by apply runs_deref|]. eapply runs_bind; [exact Hf|]. done.
    - by destruct Hs2; split. }
  assert (NoDup new) as Hnd.
  { apply first_answer_ok in Efa as (pre & addr & post & _ & _ & Hff). revert Hff. unfold fetchFrom.
    repeat case_match; try done; intros [= <-]; apply endpoint_addrs_NoDup. }
  destruct (apply_runs opts env w2 new addrs Hh Hp2 Hnd) as (w3 & Ha3 & Hwf3 & Hcase).
  exists w3. split.
  - eapply runs_bind; [exact Hr|]. simpl. eapply runs_bind; [by apply runs_deref|].
    eapply runs_bind; [by apply runs_deref|]. eapply runs_bind; [exact Hf|]. exact Ha3.
  - destruct (applies opts new addrs) eqn:Eap.
    + pose proof Hcase as (h1 & added & removed & _ & _ & _ & Hau & Hcl3).
      unfold applies in Eap. rewrite !andb_true_iff, negb_true_iff, bool_decide_eq_false in Eap.
      destruct Eap as [[Hnn _] Hv]. split; [done| |].
      * exists new. split; [by eapply updated_wf_pool|]. auto.
      * rewrite Hau, Hcl3. done.
    + destruct Hcase as (Hh3 & Hp3 & _ & Hau & Hcl3). split; [done| |].
      * exists addrs. by rewrite Hh3, Hp3.
      * rewrite Hau, Hcl3. done.
Qed.

End rounds.
End poller_theorems.

(** ** Concrete runs *)

Definition demo_subsets : list Subset :=
  [mkSubset ["10.0.0.3"; "10.0.0.2"; "10.0.0.3"] [6443]; mkSubset ["fd00::1"] [6443; 443]].
Example demo_endpoints :
  endpoint_addrs demo_subsets = ["10.0.0.2:6443"; "10.0.0.3:6443"; "[fd00::1]:443"; "[fd00::1]:6443"].
Proof. vm_compute. reflexivity. Qed.

#[local] Instance demo_range : MapRange := range_elements.

Definition demo_opts : Options := mkOptions "/etc/kubelet.conf"
  (λ servers, bool_decide ("127.0.0.1:6443" ∉ servers)) "/var/lib/lb/servers.json".
Definition demo_auth : @Auth string string := mkAuth "https://10.0.0.1:6443" "--ca--" (Some (λ _, inr "t")) None.
Definition demo_client : @Client string string := mkClient "--ca--" None.
Definition demo_world : @World string string roundRobin :=
  mkWorld demo_heap demo_pool (mkPoller (Some demo_auth) (Some demo_client) false false) ∅ [].

(** 10.0.0.1 is down, 10.0.0.2 answers with itself and 10.0.0.3. *)
Definition demo_answer (c : @Client string string) (r : Request) : option Response :=
  if HasPrefix (URL r) "https://10.0.0.2:6443/" then
    Some (mkResponse 200 (Some [mkSubset ["10.0.0.2"; "10.0.0.3"] [6443]]))
  else None.
Definition demo_env (os : osRun) : @Env string string := mkEnv demo_fs (λ _, true) demo_answer os.
Definition os_works : osRun := mkRun (Some "/var/lib/lb/.servers-1.tmp") 3 true true true true true.
Definition os_full : osRun := mkRun (Some "/var/lib/lb/.servers-1.tmp") 3 true false true true true.

Lemma demo_sound : sound demo_opts ["10.0.0.1:6443"; "10.0.0.2:6443"] demo_world.
Proof.
  split; [apply demo_heap_wf| |by intros a [= <-]].
  eexists. split; [apply demo_pool_wf|]. split; [done|by left].
Qed.

Lemma apply_guarded_witness :
  ∃ w', runs (apply demo_opts (demo_env os_works) ["10.0.0.2:6443"; "10.0.0.3:6443"]) demo_world tt w' ∧
    wf_pool (w_heap w') (w_pool w') ["10.0.0.2:6443"; "10.0.0.3:6443"].
Proof.
  destruct (apply_guarded demo_opts (demo_env os_works) demo_world ["10.0.0.2:6443"; "10.0.0.3:6443"]
    ["10.0.0.1:6443"; "10.0.0.2:6443"] demo_heap_wf demo_pool_wf) as (w' & Hr & _ & Hu & _).
  - apply (bool_decide_unpack _). vm_compute. exact I.
  - exists w'. split; [exact Hr|]. apply Hu. split; [done|]. split; [|reflexivity].
    intros Hp. assert ("10.0.0.1:6443" ∈ ["10.0.0.2:6443"; "10.0.0.3:6443"]) as Hin by (rewrite Hp; left).
    revert Hin. rewrite !elem_of_cons, elem_of_nil. by intros [|[|]].
Defined.

Lemma fetch_first_answer_witness :
  ∃ p' result, runs (fetch (demo_env os_works) demo_auth demo_client) demo_world result (set_pool p' demo_world) ∧
    result = inr ["10.0.0.2:6443"; "10.0.0.3:6443"].
Proof.
  destruct (fetch_first_answer (demo_env os_works) demo_auth demo_client demo_world
    ["10.0.0.1:6443"; "10.0.0.2:6443"] demo_pool_wf) as (p' & out & asked & degraded & result & _ & _ & Hr & _ & _).
  exists p', result. split; [exact Hr|].
  assert (fetch (demo_env os_works) demo_auth demo_client demo_world =
    Some (inr ["10.0.0.2:6443"; "10.0.0.3:6443"], set_pool p' demo_world)) as E.
  { unfold runs in Hr. rewrite Hr. f_equal. f_equal.
    assert (fst <$> fetch (demo_env os_works) demo_auth demo_client demo_world =
      Some (inr ["10.0.0.2:6443"; "10.0.0.3:6443"])) as E by (vm_compute; reflexivity).
    rewrite Hr in E. by injection E. }
  unfold runs in Hr. rewrite Hr in E. by injection E.
Defined.


(** A list whose save failed is never written: the next rounds find the pool
    already equal to it and stop before saving.  Here the first round meets a full
    disk and the second a working one, and there is still no state file. *)
Lemma failed_save_never_retried :
  (λ r, w_disk r.2 !! "/var/lib/lb/servers.json") <$>
    Run demo_pem demo_pair demo_opts [demo_env os_full; demo_env os_works; demo_env os_works] demo_world
  = Some None ∧
  (λ r, LoadState "/var/lib/lb/servers.json" (w_disk r.2)) <$>
    Run demo_pem demo_pair demo_opts [demo_env os_works] demo_world
  = Some (inr ["10.0.0.2:6443"; "10.0.0.3:6443"]).
Proof. split; vm_compute; reflexivity. Qed.
