(* ===== verification/Prober.v ===== *)
(** Package health, file prober.go: deciding whether one backend is alive. *)
From S2P Require Import Prelude GoStrings Kubeconfig.

Inductive proberError :=
  | ErrUnknownMode (mode : string) | ErrReadCA | ErrNoPEM.

Inductive chainError := ErrNoCertificates | ErrParseCertificate | ErrVerify.

Inductive probeError :=
  | ErrDial | ErrClose | ErrProbeRequest | ErrNoAnswer | ErrChain (e : chainError) | ErrProbeStatus (code : Z).

(** What the network does when one address is probed: whether a TCP connection is
    established, and then whether closing it succeeds; the raw certificates the
    server presents in a TLS handshake; the status of the answer to GET /readyz. *)
Record Network := mkNetwork {
  n_dial : string → option bool;
  n_url_ok : string → bool;
  n_certs : string → option (list string);
  n_status : string → option Z
}.

(** [Prober]: [None] is a nil error. *)
Class Prober (T : Type) := Probe : T → Network → string → option probeError.

Section prober.
(** Certificates and their verification, of [crypto/x509].  [Verify leaf roots
    intermediates] is [Certificate.Verify] for server authentication with an empty
    [DNSName], so with no check of a host name. *)
Context {CertPool Certificate : Type}.
Context (AppendCertsFromPEM : string → option CertPool).
Context (ParseCertificate : string → option Certificate).
Context (Verify : Certificate → CertPool → list Certificate → bool).

Record TCPProber := mkTCPProber {}.

(** The TLS configuration never verifies by itself; [VerifyPeerCertificate] does
    when it is set, against these roots. *)
Record ReadyzProber := mkReadyzProber { VerifyPeerCertificate : option CertPool }.

Inductive anyProber := UseTCP (p : TCPProber) | UseReadyz (p : ReadyzProber).

Definition loadCAPool (fs : FS) (path : string) : proberError + CertPool :=
  match fs path with
  | None => inl ErrReadCA
  | Some pemData =>
      match AppendCertsFromPEM pemData with Some pool => inr pool | None => inl ErrNoPEM end
  end.

Definition NewTCPProber : TCPProber := mkTCPProber.

Definition NewReadyzProber (fs : FS) (caFile : string) : proberError + ReadyzProber :=
  if bool_decide (caFile = "") then inr (mkReadyzProber None)
  else match loadCAPool fs caFile with
       | inl e => inl e
       | inr roots => inr (mkReadyzProber (Some roots))
       end.

Definition NewProber (fs : FS) (mode caFile : string) : proberError + anyProber :=
  if bool_decide (mode = "tcp") then inr (UseTCP NewTCPProber)
  else if bool_decide (mode = "readyz") then
    match NewReadyzProber fs caFile with inl e => inl e | inr p => inr (UseReadyz p) end
  else inl (ErrUnknownMode mode).

Definition verifyChainWithoutHostname (rawCerts : list string) (roots : CertPool) : option chainError :=
  match rawCerts with
  | [] => Some ErrNoCertificates
  | _ =>
      match mapM ParseCertificate rawCerts with
      | None => Some ErrParseCertificate
      | Some certs =>
          match certs with
          | [] => Some ErrVerify
          | leaf :: intermediates =>
              if Verify leaf roots intermediates then None else Some ErrVerify
          end
      end
  end.

#[export] Instance TCPProber_Prober : Prober TCPProber := λ _ net addr,
  match n_dial net addr with
  | None => Some ErrDial
  | Some true => None
  | Some false => Some ErrClose
  end.

#[export] Instance ReadyzProber_Prober : Prober ReadyzProber := λ p net addr,
  if negb (n_url_ok net ("https://" +:+ addr +:+ "/readyz")) then Some ErrProbeRequest
  else match n_certs net addr with
       | None => Some ErrNoAnswer
       | Some rawCerts =>
           match (match VerifyPeerCertificate p with
                  | None => None
                  | Some roots => verifyChainWithoutHostname rawCerts roots
                  end) with
           | Some e => Some (ErrChain e)
           | None =>
               match n_status net addr with
               | None => Some ErrNoAnswer
               | Some code => if negb (code =? 200) then Some (ErrProbeStatus code) else None
               end
           end
       end.

#[export] Instance anyProber_Prober : Prober anyProber := λ p net addr,
  match p with UseTCP p => Probe p net addr | UseReadyz p => Probe p net addr end.

(** ** What a successful probe means *)

Definition chain_verified (roots : CertPool) (rawCerts : list string) : Prop :=
  ∃ leaf intermediates, mapM ParseCertificate rawCerts = Some (leaf :: intermediates) ∧
    Verify leaf roots intermediates = true.

Lemma verifyChain_spec rawCerts roots :
  verifyChainWithoutHostname rawCerts roots = None ↔ chain_verified roots rawCerts.
Proof.
  unfold verifyChainWithoutHostname, chain_verified. destruct rawCerts as [|r rawCerts].
  { split; [done|]. by intros (leaf & ints & [=] & _). }
  destruct (mapM ParseCertificate (r :: rawCerts)) as [[|leaf ints]|] eqn:E.
  - split; [done|]. by intros (? & ? & [=] & _).
  - destruct (Verify leaf roots ints) eqn:Ev; split; try done; [by exists leaf, ints|].
    intros (? & ? & [= <- <-] & ?). congruence.
  - split; [done|]. by intros (? & ? & [=] & _).
Qed.

(** The prober that [NewProber] builds for the configured mode and CA file
    succeeds exactly when the backend answers as that mode requires: a TCP
    connection that opens and closes; or a TLS handshake whose chain, when a CA file
    is given, parses and verifies against that CA without regard to the host name,
    and a /readyz answer of 200. *)
Theorem NewProber_probe (fs : FS) (mode caFile : string) (p : anyProber) (net : Network) (addr : string)
    (Hnew : NewProber fs mode caFile = inr p) :
  Probe p net addr = None ↔
  (mode = "tcp" ∧ n_dial net addr = Some true) ∨
  (mode = "readyz" ∧ n_url_ok net ("https://" +:+ addr +:+ "/readyz") = true ∧
   n_status net addr = Some 200 ∧
   ∃ rawCerts, n_certs net addr = Some rawCerts ∧
     (caFile ≠ "" → ∃ pem roots, fs caFile = Some pem ∧ AppendCertsFromPEM pem = Some roots ∧
        chain_verified roots rawCerts)).
Proof.
  unfold NewProber in Hnew. destruct (bool_decide (mode = "tcp")) eqn:Et.
  { apply bool_decide_eq_true_1 in Et as ->. injection Hnew as <-. simpl.
    unfold Probe, anyProber_Prober, Probe, TCPProber_Prober.
    destruct (n_dial net addr) as [[]|]; naive_solver. }
  apply bool_decide_eq_false_1 in Et.
  destruct (bool_decide (mode = "readyz")) eqn:Er; [|done]. apply bool_decide_eq_true_1 in Er as ->.
  unfold NewReadyzProber, loadCAPool in Hnew.
  assert (∃ q, p = UseReadyz q ∧ (caFile = "" ∧ VerifyPeerCertificate q = None ∨
    caFile ≠ "" ∧ ∃ pem roots, fs caFile = Some pem ∧ AppendCertsFromPEM pem = Some roots ∧
      VerifyPeerCertificate q = Some roots)) as (q & -> & Hq).
  { destruct (bool_decide (caFile = "")) eqn:Ec.
    - apply bool_decide_eq_true_1 in Ec. injection Hnew as <-. eexists. split; [done|by left].
    - apply bool_decide_eq_false_1 in Ec. destruct (fs caFile) as [pem|]; [|done].
      destruct (AppendCertsFromPEM pem) as [roots|] eqn:Ea; [|done]. injection Hnew as <-.
      eexists. split; [done|]. right. split; [done|]. by exists pem, roots. }
  unfold Probe, anyProber_Prober, Probe, ReadyzProber_Prober.
  destruct (n_url_ok net ("https://" +:+ addr +:+ "/readyz")); simpl; [|naive_solver].
  destruct (n_certs net addr) as [rawCerts|]; [|naive_solver].
  destruct Hq as [[Hc ->]|(Hc & pem & roots & Hfs & Hpem & ->)].
  - destruct (n_status net addr) as [code|]; [|naive_solver].
    destruct (Z.eqb_spec code 200) as [->|Hne]; simpl; naive_solver.
  - pose proof (verifyChain_spec rawCerts roots) as Hv.
    destruct (verifyChainWithoutHostname rawCerts roots).
    + split; [done|]. intros [[? _]|(_ & _ & _ & rc & [= <-] & Hcv)]; [done|].
      destruct (Hcv Hc) as (pem' & roots' & Hfs' & Hpem' & Hch). simplify_eq. by apply Hv in Hch.
    + destruct (n_status net addr) as [code|]; [|naive_solver].
      destruct (Z.eqb_spec code 200) as [->|Hne]; simpl; [|naive_solver].
      split; [|done]. intros _. right. split_and!; [done..|]. exists rawCerts. split; [done|].
      intros _. exists pem, roots. split_and!; [done..|]. by apply Hv.
Qed.
End prober.

(** ** A concrete probe: the server shows a chain the CA knows. *)

Definition demo_net : Network :=
  mkNetwork (λ _, Some true) (λ _, true) (λ _, Some ["leaf"; "ca"])
    (λ addr, if decide (addr = "10.0.0.1:6443") then Some 200 else Some 401).
Definition demo_ca_fs : FS := λ path, if decide (path = "/etc/ca.crt") then Some "--ca--" else None.
Definition demo_parse (raw : string) : option string := Some raw.
Definition demo_verify (leaf : string) (roots : string) (intermediates : list string) : bool :=
  bool_decide (leaf = "leaf").

Lemma NewProber_probe_witness :
  @Probe _ (anyProber_Prober demo_parse demo_verify) (UseReadyz (mkReadyzProber (Some "--ca--"))) demo_net "10.0.0.1:6443" = None ∧
  @Probe _ (anyProber_Prober demo_parse demo_verify) (UseReadyz (mkReadyzProber (Some "--ca--"))) demo_net "10.0.0.2:6443" = Some (ErrProbeStatus 401).
Proof.
  split; [|reflexivity].
  apply (NewProber_probe demo_pem demo_parse demo_verify demo_ca_fs "readyz" "/etc/ca.crt"); [reflexivity|].
  right. split_and!; [reflexivity..|]. exists ["leaf"; "ca"]. split; [reflexivity|].
  intros _. exists "--ca--", "--ca--". split_and!; [reflexivity..|].
  exists "leaf", ["ca"]. split; reflexivity.
Defined.
