(* ===== verification/Health.v ===== *)
(** Package health, file checker.go: one monitor goroutine per backend, kept in
    step with the pool.

    The goroutines interleave, so the checker is a transition system: [step_fun]
    takes one atomic action of one goroutine, and a run is any sequence of them. *)
From S2P Require Import Prelude Backend Pool.

(** ** State *)

(** Where a monitor is: about to probe; back from the probe; past the check of its
    context; after a transition; about to drain; with connections left to close of
    the [n] it found; about to count; with backends left to look at; holding the
    count it read; between two ticks; returned. *)
Inductive pc :=
  | AtProbe | Probed (ok : bool) | AtReport (ok : bool) | Transitioned
  | AtDrain | Draining (cs : list loc) (n : nat)
  | AtCount | Counting (bs : list loc) (n : Z) | AtSet (now : bool) | Waiting | Returned.

(** A monitor goroutine runs for one backend under one context of its own. *)
Record monitor := mkMonitor { m_backend : loc; m_pc : pc }.

(** Where the goroutine of [Run] is: holding the backend list it read; waiting for
    a tick; returned. *)
Inductive run_pc := Reconciling (current : list loc) | Ticking | Stopped.

Inductive healthEvent := EnterBestEffort | LeaveBestEffort.

Section health.
Context {P : Type} `{PickerLaws P} `{MapRange}.
Context (fall rise : Z).

(** [monitors] maps a backend to its context (the cancel function), [threads] a
    context to the goroutine that runs under it, [cancelled] are the contexts that
    were cancelled one by one, [root] whether the parent context was. *)
Record Checker := mkChecker {
  heap : Heap;
  pool : Pool P;
  monitors : gmap loc loc;
  degraded : bool;
  threads : gmap loc monitor;
  cancelled : gset loc;
  root : bool;
  run : run_pc;
  events : list healthEvent
}.

Definition set_heap (h : Heap) (s : Checker) : Checker :=
  mkChecker h (pool s) (monitors s) (degraded s) (threads s) (cancelled s) (root s) (run s) (events s).
Definition set_pool (p : Pool P) (s : Checker) : Checker :=
  mkChecker (heap s) p (monitors s) (degraded s) (threads s) (cancelled s) (root s) (run s) (events s).
Definition set_monitors (m : gmap loc loc) (s : Checker) : Checker :=
  mkChecker (heap s) (pool s) m (degraded s) (threads s) (cancelled s) (root s) (run s) (events s).
Definition set_threads (t : gmap loc monitor) (s : Checker) : Checker :=
  mkChecker (heap s) (pool s) (monitors s) (degraded s) t (cancelled s) (root s) (run s) (events s).
Definition set_cancelled (X : gset loc) (s : Checker) : Checker :=
  mkChecker (heap s) (pool s) (monitors s) (degraded s) (threads s) X (root s) (run s) (events s).
Definition set_run (r : run_pc) (s : Checker) : Checker :=
  mkChecker (heap s) (pool s) (monitors s) (degraded s) (threads s) (cancelled s) (root s) r (events s).
Definition set_root (s : Checker) : Checker :=
  mkChecker (heap s) (pool s) (monitors s) (degraded s) (threads s) (cancelled s) true (run s) (events s).

(** [ctx.Err() != nil] for the context [c]. *)
Definition is_cancelled (s : Checker) (c : loc) : bool := root s || bool_decide (c ∈ cancelled s).

(** ** Reconciling *)

Definition cancel (c : loc) (s : Checker) : Checker := set_cancelled ({[c]} ∪ cancelled s) s.

(** Stop the monitors whose backend left. *)
Definition stop_gone (current : list loc) (s : Checker) : Checker :=
  foldl (λ s b,
    if bool_decide (b ∈ current) then s
    else match monitors s !! b with
         | Some c => set_monitors (delete b (monitors s)) (cancel c s)
         | None => s
         end) s (map_range (dom (monitors s))).

(** [context.WithCancel], then [go c.monitor(mctx, b)]. *)
Definition spawn (b : loc) (s : Checker) : Checker :=
  let c := fresh_loc (threads s) in
  set_threads (<[c := mkMonitor b AtProbe]> (threads s)) (set_monitors (<[b := c]> (monitors s)) s).

Definition start_new (current : list loc) (s : Checker) : Checker :=
  foldl (λ s b, match monitors s !! b with Some _ => s | None => spawn b s end)
    s (map_range (list_to_set current)).

Definition reconcile (current : list loc) (s : Checker) : Checker :=
  start_new current (stop_gone current s).

(** ** One monitor *)

Definition set_pc (c : loc) (p : pc) (s : Checker) : Checker :=
  set_threads (alter (λ m, mkMonitor (m_backend m) p) c (threads s)) s.

Definition on_heap {A} (m : prog Heap A) (s : Checker) : option (A * Checker) :=
  match m (heap s) with Some (a, h) => Some (a, set_heap h s) | None => None end.

(** The swap under [c.mu] in [updateDegraded], and the line it logs. *)
Definition set_degraded (now : bool) (s : Checker) : Checker :=
  let changed := negb (Bool.eqb now (degraded s)) in
  let line := if now then EnterBestEffort else LeaveBestEffort in
  mkChecker (heap s) (pool s) (monitors s) now (threads s) (cancelled s) (root s) (run s)
    (if changed then events s ++ [line] else events s).

(** The next action of [probeOnce] after the probe itself. *)
Definition advance (c : loc) (m : monitor) (s : Checker) : option Checker :=
  let b := m_backend m in
  match m_pc m with
  | Probed ok =>
      Some (if is_cancelled s c then set_pc c Waiting s else set_pc c (AtReport ok) s)
  | AtReport ok =>
      '(transitioned, s1) ← on_heap (ReportHealth b ok fall rise) s;
      Some (set_pc c (if (transitioned : bool) then Transitioned else Waiting) s1)
  | Transitioned =>
      '(ok, s1) ← on_heap (Healthy b) s;
      Some (set_pc c (if (ok : bool) then AtCount else AtDrain) s1)
  | AtDrain =>
      '(cs, s1) ← on_heap (snapshot_conns b) s;
      Some (set_pc c (Draining cs (length cs)) s1)
  | Draining (tc :: cs) n =>
      '(_, s1) ← on_heap (close_one tc) s; Some (set_pc c (Draining cs n) s1)
  | Draining [] n =>
      '(_, s1) ← on_heap (count_drained n b) s; Some (set_pc c AtCount s1)
  | AtCount => Some (set_pc c (Counting (Backends (pool s)) 0) s)
  | Counting (b' :: bs) n =>
      '(n', s1) ← on_heap (count_healthy n b') s; Some (set_pc c (Counting bs n') s1)
  | Counting [] n => Some (set_pc c (AtSet (n =? 0)) s)
  | AtSet now => Some (set_pc c Waiting (set_degraded now s))
  | AtProbe | Waiting | Returned => None
  end.

(** ** Steps *)

(** Who moves: a probe returns; a monitor goes on; its ticker fires; it sees its
    context done; [Run] reads the list, reconciles, or stops; the outside cancels
    the parent context, or leaves another heap and pool, whichever it likes. *)
Inductive label :=
  | LProbe (c : loc) (ok : bool) | LAdvance (c : loc) | LTick (c : loc) | LReturn (c : loc)
  | LRunTick | LReconcile | LStop
  | LCancel | LOutside (h : Heap) (p : Pool P).

Definition step_fun (l : label) (s : Checker) : option Checker :=
  match l with
  | LProbe c ok =>
      m ← threads s !! c;
      match m_pc m with AtProbe => Some (set_pc c (Probed ok) s) | _ => None end
  | LAdvance c => m ← threads s !! c; advance c m s
  | LTick c =>
      m ← threads s !! c;
      match m_pc m with Waiting => Some (set_pc c AtProbe s) | _ => None end
  | LReturn c =>
      m ← threads s !! c;
      match m_pc m with
      | Waiting => if is_cancelled s c then Some (set_pc c Returned s) else None
      | _ => None
      end
  | LRunTick =>
      match run s with Ticking => Some (set_run (Reconciling (Backends (pool s))) s) | _ => None end
  | LReconcile =>
      match run s with Reconciling current => Some (set_run Ticking (reconcile current s)) | _ => None end
  | LStop =>
      match run s with
      | Ticking =>
          if root s then
            Some (set_run Stopped (set_monitors ∅
              (set_cancelled (list_to_set ((map_to_list (monitors s)).*2) ∪ cancelled s) s)))
          else None
      | _ => None
      end
  | LCancel => Some (set_root s)
  | LOutside h p => Some (set_pool p (set_heap h s))
  end.

Definition step (s s' : Checker) : Prop := ∃ l, step_fun l s = Some s'.

(** [NewChecker] on a pool, at the first [reconcile] of [Run]. *)
Definition NewChecker (h : Heap) (p : Pool P) : Checker :=
  mkChecker h p ∅ false ∅ ∅ false (Reconciling (Backends p)) [].

Definition reachable (h : Heap) (p : Pool P) : Checker → Prop := rtc step (NewChecker h p).

(** A run given by its labels. *)
Fixpoint trace (ls : list label) (s : Checker) : option Checker :=
  match ls with [] => Some s | l :: ls' => s' ← step_fun l s; trace ls' s' end.

Lemma trace_rtc ls s s' : trace ls s = Some s' → rtc step s s'.
Proof.
  revert s. induction ls as [|l ls IH]; intros s; [by intros [= ->]|]. simpl.
  destruct (step_fun l s) as [s1|] eqn:E; [|done]. intros Ht. eapply rtc_l; [by exists l|]. by apply IH.
Qed.

(** ** The monitor table *)

(** The table and the goroutines agree: an entry names a goroutine of its backend
    whose context is live, and a goroutine that is not in the table has been
    cancelled. *)
Record live (s : Checker) : Prop := {
  lv_entry : ∀ b c, monitors s !! b = Some c →
    c ∉ cancelled s ∧ ∃ m, threads s !! c = Some m ∧ m_backend m = b;
  lv_thread : ∀ c m, threads s !! c = Some m → c ∈ cancelled s ∨ monitors s !! m_backend m = Some c;
  lv_cancelled : ∀ c, c ∈ cancelled s → is_Some (threads s !! c)
}.

Lemma live_inj s b b' c : live s → monitors s !! b = Some c → monitors s !! b' = Some c → b = b'.
Proof.
  intros Hl Hb Hb'. destruct (lv_entry _ Hl _ _ Hb) as (_ & m & Hm & <-).
  destruct (lv_entry _ Hl _ _ Hb') as (_ & m' & Hm' & <-). congruence.
Qed.

Lemma cancel_live s b c :
  live s → monitors s !! b = Some c → live (set_monitors (delete b (monitors s)) (cancel c s)).
Proof.
  intros Hl Hb. pose proof (lv_entry _ Hl _ _ Hb) as (_ & m & Hm & Hmb). split; simpl.
  - intros b' c'. rewrite lookup_delete_Some. intros [Hne Hb'].
    destruct (lv_entry _ Hl _ _ Hb') as (Hc & Hm'). split; [|done].
    rewrite elem_of_union, elem_of_singleton. intros [->|?]; [|done]. apply Hne. by eapply live_inj.
  - intros c' m' Hm'. rewrite elem_of_union, elem_of_singleton, lookup_delete_Some.
    destruct (lv_thread _ Hl _ _ Hm') as [?|Hb']; [by left; right|].
    destruct (decide (b = m_backend m')) as [->|]; [left; left; congruence|by right].
  - intros c'. rewrite elem_of_union, elem_of_singleton. intros [->|?]; [by exists m|by apply Hl].
Qed.

Lemma spawn_live s b : live s → monitors s !! b = None → live (spawn b s).
Proof.
  intros Hl Hb. pose proof (fresh_loc_None (threads s)) as Hf. unfold spawn. set (c := fresh_loc (threads s)) in *.
  assert (c ∉ cancelled s) as Hc.
  { intros Hin. destruct (lv_cancelled _ Hl _ Hin). congruence. }
  split; simpl.
  - intros b' c'. rewrite lookup_insert_Some. intros [[<- <-]|[Hne Hb']].
    + split; [done|]. eexists. by rewrite lookup_insert_eq.
    + destruct (lv_entry _ Hl _ _ Hb') as (Hc' & m & Hm & Hmb). split; [done|]. exists m.
      rewrite lookup_insert_ne by congruence. done.
  - intros c' m'. rewrite lookup_insert_Some. intros [[<- <-]|[Hne Hm']].
    + right. simpl. by rewrite lookup_insert_eq.
    + destruct (lv_thread _ Hl _ _ Hm') as [?|Hb']; [by left|right].
      rewrite lookup_insert_ne; [done|]. intros E. congruence.
  - intros c' Hin. apply lookup_insert_is_Some'. right. by apply Hl.
Qed.

(** What reconciling has done after the backends [done] of the old table. *)
Record stopping (current : list loc) (s : Checker) (pre : list loc) (t : Checker) : Prop := {
  st_live : live t;
  st_threads : threads t = threads s;
  st_monitors : ∀ b, monitors t !! b =
    if decide (b ∈ pre ∧ b ∉ current) then None else monitors s !! b;
  st_cancelled : ∀ c, c ∈ cancelled t ↔
    c ∈ cancelled s ∨ ∃ b, b ∈ pre ∧ b ∉ current ∧ monitors s !! b = Some c;
  st_rest : heap t = heap s ∧ pool t = pool s ∧ degraded t = degraded s ∧ root t = root s ∧ events t = events s
}.

Lemma foldl_inv {A B} (I : list A → B → Prop) (f : B → A → B) (l : list A) (b : B) :
  I [] b → (∀ pre x post b, l = pre ++ x :: post → I pre b → I (pre ++ [x]) (f b x)) → I l (foldl f b l).
Proof.
  intros Hi0 Hs. assert (∀ post pre b, l = pre ++ post → I pre b → I l (foldl f b post)) as Hg; [|by apply (Hg l [])].
  induction post as [|x post IH]; intros pre b' -> HI; simpl; [by rewrite app_nil_r|].
  apply (IH (pre ++ [x])); [by rewrite <- app_assoc|]. by eapply Hs.
Qed.

Lemma stop_gone_spec current s : live s →
  stopping current s (map_range (dom (monitors s))) (stop_gone current s).
Proof.
  intros Hl. unfold stop_gone. apply (foldl_inv (stopping current s)).
  - split; try done. intros c. split; [by left|]. intros [?|(b & Hb & _)]; [done|by apply elem_of_nil in Hb].
  - intros pre b post t Hsplit Ht. pose proof Ht as [I1 I2 I3 I4 I5].
    assert (b ∈ pre → False) as Hfresh.
    { pose proof (NoDup_map_range (dom (monitors s))) as Hnd. rewrite Hsplit in Hnd.
      apply NoDup_app in Hnd as (_ & Hd & _). intros Hb. apply (Hd b Hb). by left. }
    destruct (bool_decide (b ∈ current)) eqn:Eb.
    + apply bool_decide_eq_true_1 in Eb. split; try done.
      * intros b'. rewrite I3. do 2 case_decide; set_solver.
      * intros c. rewrite I4. set_solver.
    + apply bool_decide_eq_false_1 in Eb.
      assert (monitors t !! b = monitors s !! b) as Hmb by (rewrite I3, decide_False by tauto; done).
      assert (b ∈ dom (monitors s)) as [c Hc]%elem_of_dom by (apply elem_of_map_range; rewrite Hsplit; set_solver).
      rewrite Hmb, Hc. split; simpl; try done.
      * apply cancel_live; [done|congruence].
      * intros b'. destruct (decide (b' = b)) as [->|Hne].
        -- rewrite lookup_delete_eq, decide_True; [done|]. set_solver.
        -- rewrite lookup_delete_ne, I3 by done. do 2 case_decide; set_solver.
      * intros c'. rewrite elem_of_union, elem_of_singleton, I4. set_solver.
Qed.

Record starting (s : Checker) (pre : list loc) (t : Checker) : Prop := {
  ss_live : live t;
  ss_kept : ∀ b c, monitors s !! b = Some c → monitors t !! b = Some c;
  ss_dom : ∀ b, is_Some (monitors t !! b) ↔ is_Some (monitors s !! b) ∨ b ∈ pre;
  ss_threads : ∀ c m, threads s !! c = Some m → threads t !! c = Some m;
  ss_new : ∀ b c, monitors t !! b = Some c → monitors s !! b = None →
    threads s !! c = None ∧ threads t !! c = Some (mkMonitor b AtProbe);
  ss_cancelled : cancelled t = cancelled s;
  ss_rest : heap t = heap s ∧ pool t = pool s ∧ degraded t = degraded s ∧ root t = root s ∧ events t = events s
}.

Lemma start_new_spec current s : live s →
  starting s (map_range (list_to_set current)) (start_new current s).
Proof.
  intros Hl. unfold start_new. apply (foldl_inv (starting s)).
  - split; try done; [set_solver|]. intros b c. congruence.
  - intros pre b post t _ [I1 I2 I3 I4 I5 I6 I7].
    destruct (monitors t !! b) as [c|] eqn:Eb.
    + split; try done. intros b'. rewrite I3, elem_of_app, elem_of_cons, elem_of_nil.
      assert (is_Some (monitors t !! b)) as Hs by by exists c. apply I3 in Hs. naive_solver.
    + pose proof (fresh_loc_None (threads t)) as Hf. split; simpl; try done.
      * by apply spawn_live.
      * intros b' c' Hc'. rewrite lookup_insert_ne; [by apply I2|]. intros <-. apply I2 in Hc'. congruence.
      * intros b'. rewrite lookup_insert_is_Some', I3, elem_of_app, elem_of_cons, elem_of_nil. naive_solver.
      * intros c' m' Hm'. rewrite lookup_insert_ne; [by apply I4|]. intros <-. apply I4 in Hm'. congruence.
      * intros b' c'. rewrite lookup_insert_Some. intros [[<- <-]|[Hne Hb']] Hn.
        -- split; [|by rewrite lookup_insert_eq].
           destruct (threads s !! fresh_loc (threads t)) eqn:E; [|done]. apply I4 in E. congruence.
        -- destruct (I5 _ _ Hb' Hn) as [Hs Ht]. split; [done|]. rewrite lookup_insert_ne; [done|]. congruence.
Qed.

(** C22. After reconciling, exactly the listed backends have a monitor: those that
    had one keep the same goroutine, untouched; each new one has a fresh goroutine
    about to make its first probe; and every other monitor has been cancelled. *)
Theorem reconcile_monitors (s : Checker) (current : list loc) (Hlive : live s) :
  let s' := reconcile current s in
  live s' ∧ dom (monitors s') = list_to_set current ∧
  (∀ b c, b ∈ current → monitors s !! b = Some c →
     monitors s' !! b = Some c ∧ threads s' !! c = threads s !! c) ∧
  (∀ b, b ∈ current → monitors s !! b = None →
     ∃ c, monitors s' !! b = Some c ∧ threads s !! c = None ∧ threads s' !! c = Some (mkMonitor b AtProbe)) ∧
  (∀ b c, b ∉ current → monitors s !! b = Some c → c ∈ cancelled s') ∧ heap s' = heap s.
Proof.
  cbv zeta. unfold reconcile. pose proof (stop_gone_spec current s Hlive) as [L1 T1 M1 C1 R1].
  set (s1 := stop_gone current s) in *. clearbody s1.
  pose proof (start_new_spec current s1 L1) as [L2 K2 D2 T2 N2 C2 R2].
  set (s2 := start_new current s1) in *. clearbody s2.
  assert (∀ b, b ∈ current → monitors s1 !! b = monitors s !! b) as Hkeep.
  { intros b Hb. rewrite M1, decide_False by tauto. done. }
  assert (∀ b, b ∉ current → monitors s1 !! b = None) as Hgone.
  { intros b Hb. rewrite M1. case_decide as Hd; [done|]. apply not_elem_of_dom_1. intros Hin. apply Hd.
    by rewrite elem_of_map_range. }
  split_and!.
  - done.
  - apply set_eq. intros b. rewrite elem_of_dom, D2, elem_of_map_range, !elem_of_list_to_set.
    split; [|by right]. intros [[c Hc]|?]; [|done]. destruct (decide (b ∈ current)); [done|].
    rewrite Hgone in Hc by done. done.
  - intros b c Hb Hc. rewrite <- (Hkeep b Hb) in Hc. split; [by apply K2|].
    destruct (lv_entry _ L1 _ _ Hc) as (_ & m & Hm & _). rewrite <- T1. rewrite Hm. by apply T2.
  - intros b Hb Hc. rewrite <- (Hkeep b Hb) in Hc.
    assert (is_Some (monitors s2 !! b)) as [c Hc2].
    { apply D2. right. by rewrite elem_of_map_range, elem_of_list_to_set. }
    exists c. split; [done|]. rewrite <- T1. by apply N2.
  - intros b c Hb Hc. rewrite C2. apply C1. right. exists b. split_and!; [|done..].
    rewrite elem_of_map_range. by apply elem_of_dom.
  - destruct R1 as (R1 & _), R2 as (R2 & _). congruence.
Qed.

(** ** Every reachable state *)

(** The table survives an update of one goroutine's position. *)
Lemma set_pc_live c p s : live s → live (set_pc c p s).
Proof.
  intros Hl. split; simpl.
  - intros b c' Hb. destruct (lv_entry _ Hl _ _ Hb) as (Hc & m & Hm & Hmb). split; [done|].
    rewrite lookup_alter. case_decide; subst; rewrite Hm; simpl; by eexists.
  - intros c' m'. rewrite lookup_alter_Some.
    intros [(<- & m & Hm & ->)|[_ Hm]]; exact (lv_thread _ Hl _ _ Hm).
  - intros c' Hc. rewrite lookup_alter_is_Some. by apply Hl.
Qed.

Lemma live_ext s s' :
  monitors s' = monitors s → threads s' = threads s → cancelled s' = cancelled s → live s → live s'.
Proof. intros Em Et Ec [L1 L2 L3]. split; rewrite ?Em, ?Et, ?Ec; done. Qed.

Lemma on_heap_inv {A} (m : prog Heap A) s a s' :
  on_heap m s = Some (a, s') → ∃ h, m (heap s) = Some (a, h) ∧ s' = set_heap h s.
Proof. unfold on_heap. destruct (m (heap s)) as [[a' h]|]; [|done]. intros [= -> <-]. by exists h. Qed.

(** Opens the run on the heap in the goal. *)
Ltac on_heap_cases :=
  match goal with |- context [on_heap ?m ?s] =>
    let v := fresh "v" in let s1 := fresh "s1" in let h := fresh "h'" in let E := fresh "E" in
    destruct (on_heap m s) as [[v s1]|] eqn:E; [|done]; apply on_heap_inv in E as (h & E & ->); simpl
  end.

(** An action of a goroutine moves that goroutine, and at most the heap, the flag
    and the log besides. *)
Lemma advance_frame c m s s' :
  advance c m s = Some s' →
  ∃ p h d e, s' = set_pc c p (mkChecker h (pool s) (monitors s) d (threads s) (cancelled s) (root s) (run s) e).
Proof.
  unfold advance. destruct s as [h po mo d th ca ro ru ev].
  destruct (m_pc m) as [|ok|ok| | |[|tc cs] n| |[|b' bs] n|now| |]; try done.
  1: intros [= <-]; destruct (is_cancelled _ c); by repeat eexists.
  all: first [on_heap_cases; intros [= <-]; by repeat eexists | intros [= <-]; by repeat eexists].
Qed.

Lemma stop_live s : live s →
  live (set_run Stopped (set_monitors ∅ (set_cancelled (list_to_set ((map_to_list (monitors s)).*2) ∪ cancelled s) s))).
Proof.
  intros Hl. assert (∀ c, c ∈ (map_to_list (monitors s)).*2 ↔ ∃ b, monitors s !! b = Some c) as Hin.
  { intros c. rewrite list_elem_of_fmap. split.
    - intros ([b c'] & -> & Hb%elem_of_map_to_list). by exists b.
    - intros [b Hb]. exists (b, c). split; [done|]. by apply elem_of_map_to_list. }
  split; simpl.
  - intros b c Hb. by rewrite lookup_empty in Hb.
  - intros c m Hm. left. rewrite elem_of_union, elem_of_list_to_set, Hin.
    destruct (lv_thread _ Hl _ _ Hm); [by right|left; by eexists].
  - intros c. rewrite elem_of_union, elem_of_list_to_set, Hin.
    intros [[b Hb]|Hc]; [|by apply Hl]. destruct (lv_entry _ Hl _ _ Hb) as (_ & m & Hm & _). by exists m.
Qed.

Lemma step_live s s' : step s s' → live s → live s'.
Proof.
  intros [l Hs] Hl. destruct l; simpl in Hs.
  - destruct (threads s !! c) as [m|]; [|done]. simpl in Hs. destruct (m_pc m); try done. simplify_eq.
    by apply set_pc_live.
  - destruct (threads s !! c) as [m|]; [|done]. simpl in Hs.
    apply advance_frame in Hs as (p & h & d & e & ->). apply set_pc_live. by eapply live_ext; [..|exact Hl].
  - destruct (threads s !! c) as [m|]; [|done]. simpl in Hs. destruct (m_pc m); try done. simplify_eq.
    by apply set_pc_live.
  - destruct (threads s !! c) as [m|]; [|done]. simpl in Hs. destruct (m_pc m); try done.
    destruct (is_cancelled s c); simplify_eq. by apply set_pc_live.
  - destruct (run s); simplify_eq. by eapply live_ext; [..|exact Hl].
  - destruct (run s); simplify_eq. eapply live_ext; [..|apply (start_new_spec current _ (st_live _ _ _ _ (stop_gone_spec current s Hl)))]; done.
  - destruct (run s); try done. destruct (root s); simplify_eq. by apply stop_live.
  - simplify_eq. by eapply live_ext; [..|exact Hl].
  - simplify_eq. by eapply live_ext; [..|exact Hl].
Qed.

Lemma reachable_live h p s : reachable h p s → live s.
Proof.
  intros Hr. assert (∀ t, live t → rtc step t s → live s) as Hgen.
  { intros t Ht Hts. clear Hr. induction Hts as [|t1 t2 t3 Hstep _ IH]; [done|]. apply IH. eapply step_live; [exact Hstep|done]. }
  eapply Hgen; [|exact Hr]. split; simpl.
  - intros b c Hb. by rewrite lookup_empty in Hb.
  - intros c m Hm. by rewrite lookup_empty in Hm.
  - set_solver.
Qed.

(** The cases of a step: a goroutine moves within its frame, [Run] moves, or the
    outside does. *)
Ltac step_cases Hs :=
  repeat first
    [ progress simplify_eq/=
    | match type of Hs with
      | context [?o ≫= _] => destruct o eqn:?; simpl in Hs
      | context [match ?x with _ => _ end] => destruct x eqn:?
      end ].

Lemma root_mono s s' : step s s' → root s = true → root s' = true.
Proof.
  intros [l Hs] Hr. destruct l; simpl in Hs.
  1,3,4,5,7,8: step_cases Hs; done.
  - destruct (threads s !! c) as [m|]; [|done]. simpl in Hs.
    by apply advance_frame in Hs as (p & h & d & e & ->).
  - destruct (run s); simplify_eq.
    pose proof (foldl_inv (λ (_ : list loc) (t : Checker), root t = true)) as Hf.
    apply Hf; [apply Hf; [done|]|]; intros pre b post t _ Ht; simpl; repeat case_match; done.
  - by simplify_eq.
Qed.

Lemma stopped_root s s' : step s s' → (run s = Stopped → root s = true) → run s' = Stopped → root s' = true.
Proof.
  intros Hst Hi Hs'. destruct (run s) eqn:Er.
  3: { eapply root_mono; [exact Hst|]. by apply Hi. }
  all: destruct Hst as [l Hs]; destruct l; simpl in Hs; rewrite ?Er in Hs; try done.
  all: try (destruct (threads s !! c) as [m|]; [|done]; simpl in Hs;
    apply advance_frame in Hs as (p & h & d & e & ->); simpl in Hs'; congruence).
  all: step_cases Hs; congruence.
Qed.

(** C20. No backend is ever probed by two monitors: in every reachable state, two
    goroutines for the same backend whose contexts are both live are the same one;
    and once [Run] has returned no context is live. *)
Theorem one_monitor_per_backend (h : Heap) (p : Pool P) (s : Checker) (Hs : reachable h p s) :
  (∀ c c' m m', threads s !! c = Some m → threads s !! c' = Some m' → m_backend m = m_backend m' →
     is_cancelled s c = false → is_cancelled s c' = false → c = c') ∧
  (run s = Stopped → ∀ c, is_cancelled s c = true).
Proof.
  split.
  - intros c c' m m' Hm Hm' Hb Hc Hc'. pose proof (reachable_live _ _ _ Hs) as Hl.
    unfold is_cancelled in *. apply orb_false_iff in Hc as [_ Hc], Hc' as [_ Hc'].
    apply bool_decide_eq_false_1 in Hc, Hc'.
    destruct (lv_thread _ Hl _ _ Hm), (lv_thread _ Hl _ _ Hm'); try done. congruence.
  - intros Hstop c. unfold is_cancelled. replace (root s) with true; [done|]. symmetry. revert Hstop.
    assert (∀ t, (run t = Stopped → root t = true) → rtc step t s → run s = Stopped → root s = true) as Hgen.
    { intros t Ht Hts. clear Hs. induction Hts as [|t1 t2 t3 Hstep _ IH]; [done|]. apply IH.
      by eapply stopped_root. }
    by apply (Hgen (NewChecker h p)).
Qed.

(** ** Cancellation *)

(** A goroutine that is not between the check of its context and the end of its
    report. *)
Definition quiet (p : pc) : Prop :=
  match p with AtProbe | Probed _ | Waiting | Returned => True | _ => False end.

(** The labels of the actions of the goroutine under [c]. *)
Definition moves (c : loc) (l : label) : Prop :=
  match l with LProbe c' _ | LAdvance c' | LTick c' | LReturn c' => c' = c | _ => False end.

#[local] Instance moves_dec c l : Decision (moves c l).
Proof. destruct l; simpl; apply _. Defined.

(** What a step leaves of a goroutine it does not move, and of cancellation. *)
Lemma step_frame l s s' c m :
  live s → step_fun l s = Some s' → threads s !! c = Some m → ¬ moves c l → threads s' !! c = Some m.
Proof.
  intros Hl Hs Hm Hn. destruct l; simpl in Hs, Hn.
  1,3,4: step_cases Hs; simpl; by rewrite lookup_alter_ne.
  1: { destruct (threads s !! c0) as [m0|]; [|done]. simpl in Hs.
       apply advance_frame in Hs as (p & h & d & e & ->). simpl. by rewrite lookup_alter_ne. }
  2: { destruct (run s); simplify_eq. pose proof (stop_gone_spec current s Hl) as Hst.
       pose proof (start_new_spec current _ (st_live _ _ _ _ Hst)) as Hss.
       apply (ss_threads _ _ _ Hss). by rewrite (st_threads _ _ _ _ Hst). }
  all: step_cases Hs; done.
Qed.

Lemma is_cancelled_mono s s' c : live s → step s s' → is_cancelled s c = true → is_cancelled s' c = true.
Proof.
  intros Hl Hst Hc. unfold is_cancelled in *. apply orb_true_iff in Hc as [Hr|Hc].
  { by rewrite (root_mono s s' Hst Hr). }
  apply bool_decide_eq_true_1 in Hc. apply orb_true_iff. right. apply bool_decide_eq_true_2.
  destruct Hst as [l Hs]. destruct l; simpl in Hs.
  2: { destruct (threads s !! c0) as [m0|]; [|done]. simpl in Hs.
       by apply advance_frame in Hs as (p & h & d & e & ->). }
  5: { destruct (run s); simplify_eq. pose proof (stop_gone_spec current s Hl) as Hst.
       pose proof (start_new_spec current _ (st_live _ _ _ _ Hst)) as Hss. simpl.
       change (c ∈ cancelled (start_new current (stop_gone current s))).
       rewrite (ss_cancelled _ _ _ Hss). apply (st_cancelled _ _ _ _ Hst). by left. }
  all: step_cases Hs; set_solver.
Qed.

(** The goroutine under [c] is cancelled and quiet. *)
Definition hushed (c : loc) (s : Checker) : Prop :=
  is_cancelled s c = true ∧ ∃ m, threads s !! c = Some m ∧ quiet (m_pc m).

Lemma hushed_step c l s s' :
  live s → hushed c s → step_fun l s = Some s' → hushed c s' ∧ (moves c l → heap s' = heap s).
Proof.
  intros Hl (Hc & m & Hm & Hq) Hs.
  assert (is_cancelled s' c = true) as Hc' by (eapply is_cancelled_mono; [done|by exists l|done]).
  destruct (decide (moves c l)) as [Hmv|Hmv].
  2: { split; [|done]. split; [done|]. exists m. split; [by eapply step_frame|done]. }
  assert (∀ p, quiet p → hushed c (set_pc c p s)) as Hset.
  { intros p Hp. split; [done|]. eexists. simpl. rewrite lookup_alter_eq, Hm. done. }
  destruct l; simpl in Hmv; try done; subst; simpl in Hs; rewrite Hm in Hs; simpl in Hs.
  - destruct (m_pc m); try done. simplify_eq. split; [by apply Hset|done].
  - unfold advance in Hs. destruct (m_pc m); try done. rewrite Hc in Hs. simplify_eq.
    split; [by apply Hset|done].
  - destruct (m_pc m); try done. simplify_eq. split; [by apply Hset|done].
  - destruct (m_pc m); try done. rewrite Hc in Hs. simplify_eq. split; [by apply Hset|done].
Qed.

(** C21. Cancellation is final: once the context of a monitor is cancelled and the
    monitor is not past its check, it stays so whatever happens next, and no action
    it still takes touches a backend.  A probe aborted by a shutdown or by the
    removal of its backend is never reported. *)
Theorem cancelled_never_reports (h : Heap) (p : Pool P) (s s1 s2 : Checker) (c : loc) (l : label)
    (Hs : reachable h p s) (Hc : hushed c s) (Hrun : rtc step s s1) (Hl : moves c l)
    (Hstep : step_fun l s1 = Some s2) :
  hushed c s1 ∧ heap s2 = heap s1.
Proof.
  assert (live s1 ∧ hushed c s1) as [Hlive Hh].
  { pose proof (reachable_live _ _ _ Hs) as Hls. clear Hs Hstep. induction Hrun as [|t1 t2 t3 Hst _ IH]; [done|].
    apply IH; [|by eapply step_live]. destruct Hst as [l' Hst]. by eapply hushed_step. }
  split; [done|]. by eapply hushed_step.
Qed.

(** ** The best-effort log *)

Definition other (e : healthEvent) : healthEvent :=
  match e with EnterBestEffort => LeaveBestEffort | LeaveBestEffort => EnterBestEffort end.

Fixpoint alternates (e : healthEvent) (es : list healthEvent) : Prop :=
  match es with [] => True | e' :: es' => e' = e ∧ alternates (other e) es' end.

(** Which line comes next after [es]. *)
Fixpoint follow (e : healthEvent) (es : list healthEvent) : healthEvent :=
  match es with [] => e | _ :: es' => follow (other e) es' end.

Lemma alternates_snoc e es e' : alternates e (es ++ [e']) ↔ alternates e es ∧ e' = follow e es.
Proof. revert e. induction es as [|x es IH]; intros e; simpl; [naive_solver|]. rewrite IH. naive_solver. Qed.

Lemma follow_snoc e es e' : follow e (es ++ [e']) = other (follow e es).
Proof. revert e. induction es as [|x es IH]; intros e; simpl; [done|]. apply IH. Qed.

(** The flag says which line was logged last. *)
Definition logged (s : Checker) : Prop :=
  alternates EnterBestEffort (events s) ∧
  follow EnterBestEffort (events s) = (if degraded s then LeaveBestEffort else EnterBestEffort).

Lemma set_degraded_logged now s : logged s → logged (set_degraded now s).
Proof.
  intros [Ha Hf]. unfold logged, set_degraded. simpl. destruct (Bool.eqb now (degraded s)) eqn:E; simpl.
  - apply Bool.eqb_prop in E as ->. done.
  - rewrite alternates_snoc, follow_snoc, Hf. destruct now, (degraded s); done.
Qed.

Lemma advance_logged c m s s' : advance c m s = Some s' → logged s → logged s'.
Proof.
  intros Hs Hl. revert Hs. unfold advance.
  destruct (m_pc m) as [|ok|ok| | |[|tc cs] n| |[|b' bs] n|now| |]; try done.
  1: by destruct (is_cancelled s c); intros [= <-].
  all: first [on_heap_cases; by intros [= <-] | intros [= <-]].
  - done.
  - done.
  - by apply (set_degraded_logged now s).
Qed.

Lemma reconcile_logged current s : logged s → logged (reconcile current s).
Proof.
  intros Hl. pose proof (foldl_inv (λ (_ : list loc) (t : Checker), logged t)) as Hf.
  apply Hf; [apply Hf; [done|]|]; intros pre b post t _ Ht; simpl; repeat case_match; done.
Qed.

Lemma step_logged s s' : step s s' → logged s → logged s'.
Proof.
  intros [l Hs] Hl. destruct l; simpl in Hs.
  2: { destruct (threads s !! c) as [m|]; [|done]. simpl in Hs. by eapply advance_logged. }
  5: { destruct (run s); simplify_eq. by apply (reconcile_logged current) in Hl. }
  all: step_cases Hs; done.
Qed.

(** The lines about best-effort mode strictly alternate, entering first, in
    every run and under every interleaving; the flag tells which came last. *)
Theorem best_effort_alternates (h : Heap) (p : Pool P) (s : Checker) (Hs : reachable h p s) :
  alternates EnterBestEffort (events s) ∧
  (degraded s = true ↔ last (events s) = Some EnterBestEffort).
Proof.
  assert (logged s) as [Ha Hf].
  { assert (∀ t, logged t → rtc step t s → logged s) as Hgen.
    { intros t Ht Hts. clear Hs. induction Hts as [|t1 t2 t3 Hst _ IH]; [done|]. apply IH. by eapply step_logged. }
    by apply (Hgen (NewChecker h p)). }
  split; [done|]. destruct (events s) as [|e es _] using rev_ind.
  - simpl in *. destruct (degraded s); done.
  - rewrite last_snoc, follow_snoc in *. apply alternates_snoc in Ha as [_ ->].
    destruct (degraded s), (follow EnterBestEffort es); simpl in *; naive_solver.
Qed.

(** ** A backend goes down *)

Lemma alter_backend_wf f l h :
  (∀ b, conns (f b) = conns b) → wf_heap h → wf_heap (alter_backend f l h).
Proof.
  intros Hf [W1 W2 W3]. split; simpl; [|intros tc t; rewrite lookup_alter_is_Some; by eauto|done].
  intros l' b tc. rewrite lookup_alter_Some.
  intros [(<- & b0 & Hb0 & ->)|[_ Hb]]; [rewrite Hf; exact (W1 _ _ tc Hb0)|exact (W1 _ _ tc Hb)].
Qed.

(** The heap after one report: the backend goes through [report_health]. *)
Lemma ReportHealth_runs l ok h b :
  h_backend h !! l = Some b →
  runs (ReportHealth l ok fall rise) h (report_health ok fall rise b).2
    (alter_backend (λ b, (report_health ok fall rise b).1) l h).
Proof.
  intros Hb. unfold ReportHealth. eapply runs_bind; [by eapply update_backend_runs|].
  assert (h_backend (alter_backend (count_probe ok) l h) !! l = Some (count_probe ok b)) as Hb1
    by (simpl; by rewrite lookup_alter_eq, Hb).
  eapply runs_bind; [by apply runs_deref|]. eapply runs_bind; [by eapply update_backend_runs|].
  unfold runs, mret, prog_ret, alter_backend, report_health. simpl. do 3 f_equal.
  by rewrite alter_alter_eq.
Qed.

Lemma report_health_conns ok b : conns (report_health ok fall rise b).1 = conns b.
Proof. unfold report_health, fall_rise, count_probe. destruct ok; simpl; repeat case_match; done. Qed.

Lemma on_heap_runs {A} (m : prog Heap A) s a h :
  runs m (heap s) a h → on_heap m s = Some (a, set_heap h s).
Proof. unfold runs, on_heap. by intros ->. Qed.

Lemma advance_step c m s s' :
  threads s !! c = Some m → advance c m s = Some s' → step_fun (LAdvance c) s = Some s'.
Proof. simpl. by intros ->. Qed.

(** The failing report that takes a backend down. *)
Lemma report_down b h bk : h_backend h !! b = Some bk → healthy bk = true →
  0 <= fails bk < max_int ∧ fall <= fails bk + 1 → wf_heap h →
  ∃ h1 bk1, runs (ReportHealth b false fall rise) h true h1 ∧ wf_heap h1 ∧ h_backend h1 !! b = Some bk1 ∧
    healthy bk1 = false ∧ conns bk1 = conns bk ∧ h_tracked h1 = h_tracked h ∧ ∀ l, allocated h l → allocated h1 l.
Proof.
  intros Hbk Hup Hfall Hwf.
  assert (report_health false fall rise bk =
    (set_streaks 0 0 (set_healthy false (set_streaks (fails bk + 1) (rises bk) (count_probe false bk))), true)) as Hrep.
  { unfold report_health, fall_rise. simpl. rewrite Hup. rewrite int_add_small by (unfold max_int in *; lia).
    destruct (Z.ltb_spec (fails bk + 1) fall); [lia|done]. }
  pose proof (ReportHealth_runs b false h bk Hbk) as Hr. rewrite Hrep in Hr. simpl in Hr.
  eexists _, _. split; [exact Hr|]. split; [apply alter_backend_wf; [apply report_health_conns|done]|].
  split; [simpl; by rewrite lookup_alter_eq, Hbk|]. rewrite Hrep. split_and!; [done..|].
  intros l Hl. unfold allocated. simpl. by rewrite lookup_alter_is_Some.
Qed.

(** The drain after it. *)
Lemma drain_down b h bk : h_backend h !! b = Some bk → wf_heap h →
  ∃ n h1 bk1, runs (DrainAll b) h n h1 ∧ h_backend h1 !! b = Some bk1 ∧ healthy bk1 = healthy bk ∧ conns bk1 = ∅ ∧
    (∀ tc t, tc ∈ conns bk → h_tracked h !! tc = Some t →
       ∃ nc, h_conn h1 !! tc_Conn t = Some nc ∧ nc_closed nc = true) ∧
    ∀ l, allocated h l → allocated h1 l.
Proof.
  intros Hbk Hwf. destruct (DrainAll_runs b h bk Hwf Hbk) as (h2 & Hwf2 & Hcs & Hr). cbv zeta in Hr.
  eexists _, _, _. split; [exact Hr|]. split.
  { simpl. by rewrite lookup_alter_eq, (cs_backend _ _ _ _ Hcs), decide_True, Hbk. }
  split; [done|]. split; [apply difference_diag_L|]. split.
  - intros tc t Htc Ht. destruct (wf_tracked_conn _ Hwf tc t Ht) as (nc & Hnc & _).
    exists (nc_close nc). split; [|done]. simpl. rewrite (cs_conn _ _ _ _ Hcs), decide_True; [by rewrite Hnc|].
    apply elem_of_sockets_of. by exists tc, t.
  - intros l [b1 Hl]. unfold allocated. simpl. rewrite lookup_alter_is_Some, (cs_backend _ _ _ _ Hcs), Hl.
    case_decide; by eexists.
Qed.

(** *** A monitor that is left alone

    [arrives c s m h]: by its own actions alone the goroutine under [c] gets from [s]
    to [m], leaving the heap [h] and the pool as it was. *)
Definition arrives (c : loc) (s : Checker) (m : monitor) (h : Heap) : Prop :=
  ∃ k s', trace (replicate k (LAdvance c)) s = Some s' ∧ threads s' !! c = Some m ∧ heap s' = h ∧ pool s' = pool s.

Lemma arrives_here c s m : threads s !! c = Some m → arrives c s m (heap s).
Proof. intros Hm. by exists 0%nat, s. Qed.

Lemma arrives_next c s b pc pc' h m h' : threads s !! c = Some (mkMonitor b pc) →
  advance c (mkMonitor b pc) s = Some (set_pc c pc' (set_heap h s)) →
  (∀ s1, threads s1 !! c = Some (mkMonitor b pc') → heap s1 = h → pool s1 = pool s → arrives c s1 m h') →
  arrives c s m h'.
Proof.
  intros Hm Ha Hk. destruct (Hk (set_pc c pc' (set_heap h s))) as (k & s' & Ht & Hm' & Hh & Hp); [|done..|].
  { simpl. by rewrite lookup_alter_eq, Hm. }
  exists (S k), s'. split; [|done]. cbn [replicate trace]. by rewrite (advance_step _ _ _ _ Hm Ha).
Qed.

Lemma arrives_trans c s m h m' h' : arrives c s m h →
  (∀ s1, threads s1 !! c = Some m → heap s1 = h → pool s1 = pool s → arrives c s1 m' h') → arrives c s m' h'.
Proof.
  intros (k & s1 & Ht & Hm & Hh & Hp) Hk. destruct (Hk s1 Hm Hh Hp) as (k' & s2 & Ht2 & Hm2 & Hh2 & Hp2).
  exists (k + k')%nat, s2. rewrite replicate_add. split_and!; [|done..|congruence].
  clear -Ht Ht2. revert s Ht. induction k as [|k IH]; intros s Ht; [by injection Ht as ->|].
  cbn [replicate app trace] in *. destruct (step_fun (LAdvance c) s); [by apply IH|done].
Qed.

(** Its closes one by one are [DrainAll], ... *)
Lemma close_steps c s b cs n h : threads s !! c = Some (mkMonitor b (Draining cs n)) →
  runs (for_each close_one cs) (heap s) tt h → arrives c s (mkMonitor b (Draining [] n)) h.
Proof.
  revert s. induction cs as [|tc cs IH]; intros s Hm Hr.
  { unfold runs in Hr. injection Hr as <-. by apply arrives_here. }
  apply runs_bind_inv in Hr as ([] & h1 & Hr1 & Hr2). eapply arrives_next; [done| |].
  - unfold advance. cbn [m_pc]. by rewrite (on_heap_runs _ _ _ _ Hr1).
  - intros s1 Hm1 Hh1 _. apply IH; [done|by rewrite Hh1].
Qed.

Lemma drain_steps c s b n h : threads s !! c = Some (mkMonitor b AtDrain) →
  runs (DrainAll b) (heap s) n h → arrives c s (mkMonitor b AtCount) h.
Proof.
  intros Hm (cs & h1 & Hr1 & ([] & h2 & Hr2 & ([] & h3 & Hr3 & Hr)%runs_bind_inv)%runs_bind_inv)%runs_bind_inv.
  unfold runs in Hr. injection Hr as _ <-. eapply arrives_next; [done| |].
  { unfold advance. cbn [m_pc m_backend]. by rewrite (on_heap_runs _ _ _ _ Hr1). }
  intros s1 Hm1 Hh1 Hp1. eapply arrives_trans; [eapply close_steps; [done|by rewrite Hh1]|].
  intros s2 Hm2 Hh2 Hp2. eapply arrives_next; [done| |].
  - unfold advance. cbn [m_pc m_backend]. rewrite <- Hh2 in Hr3. by rewrite (on_heap_runs _ _ _ _ Hr3).
  - intros s3 Hm3 Hh3 _. rewrite <- Hh3. by apply arrives_here.
Qed.

(** ... and its looks at the backends one by one are [HealthyCount]. *)
Lemma look_steps c s b bs n k h : threads s !! c = Some (mkMonitor b (Counting bs n)) →
  runs (for_fold count_healthy n bs) (heap s) k h → arrives c s (mkMonitor b (Counting [] k)) h.
Proof.
  revert s n. induction bs as [|b' bs IH]; intros s n Hm Hr.
  { unfold runs in Hr. injection Hr as <- <-. by apply arrives_here. }
  apply runs_bind_inv in Hr as (n1 & h1 & Hr1 & Hr2). eapply arrives_next; [done| |].
  - unfold advance. cbn [m_pc]. by rewrite (on_heap_runs _ _ _ _ Hr1).
  - intros s1 Hm1 Hh1 _. eapply IH; [done|by rewrite Hh1].
Qed.

Lemma count_steps c s b k h : threads s !! c = Some (mkMonitor b AtCount) →
  runs (HealthyCount (pool s)) (heap s) k h → arrives c s (mkMonitor b (AtSet (k =? 0))) h.
Proof.
  intros Hm Hr. eapply arrives_next; [done|by unfold advance|]. intros s1 Hm1 Hh1 Hp1. cbn in Hh1.
  eapply arrives_trans; [eapply look_steps; [done|by rewrite Hh1]|]. intros s2 Hm2 Hh2 _.
  eapply arrives_next; [done|by unfold advance|].
  intros s3 Hm3 Hh3 _. replace h with (heap s3) by (by etrans). by apply arrives_here.
Qed.

(** The actions of a monitor from its report to its tick, through a drain. *)
Lemma transition_steps (s : Checker) c b h1 n h2 k : threads s !! c = Some (mkMonitor b (AtReport false)) →
  runs (ReportHealth b false fall rise) (heap s) true h1 → runs (Healthy b) h1 false h1 →
  runs (DrainAll b) h1 n h2 → runs (HealthyCount (pool s)) h2 k h2 →
  ∃ j s', trace (replicate j (LAdvance c)) s = Some s' ∧ threads s' !! c = Some (mkMonitor b Waiting) ∧
    heap s' = h2 ∧ pool s' = pool s ∧ degraded s' = (k =? 0).
Proof.
  intros Hm Hr1 Hd Hr2 Hr3.
  assert (arrives c s (mkMonitor b (AtSet (k =? 0))) h2) as (j & s1 & Ht & Hm1 & Hh1 & Hp1).
  { eapply arrives_next; [done| |].
    { unfold advance. cbn [m_pc m_backend]. by rewrite (on_heap_runs _ _ _ _ Hr1). }
    intros s1 Hm1 Hh1 Hp1. eapply arrives_next; [done| |].
    { unfold advance. cbn [m_pc m_backend]. by rewrite (on_heap_runs (Healthy b) s1 false h1) by (by rewrite Hh1). }
    intros s2 Hm2 Hh2 Hp2. eapply arrives_trans; [eapply drain_steps; [done|by rewrite Hh2]|].
    intros s3 Hm3 Hh3 Hp3. apply count_steps; [done|]. by rewrite Hh3, Hp3, Hp2, Hp1. }
  exists (j + 1)%nat, (set_pc c Waiting (set_degraded (k =? 0) s1)). split.
  - rewrite replicate_add. clear -Ht Hm1. revert s Ht.
    induction j as [|j IH]; intros s Ht; cbn [replicate app trace] in *.
    + injection Ht as ->. by erewrite advance_step by done.
    + destruct (step_fun (LAdvance c) s); [by apply IH|done].
  - split; [simpl; by rewrite lookup_alter_eq, Hm1|done].
Qed.

End health.

(** ** Concrete runs *)

#[local] Instance demo_range : MapRange := range_elements.

(** Both backends of the demo pool, thresholds of one. *)
Definition demo_checker : @Checker roundRobin := NewChecker demo_heap demo_pool.
Definition demo_run (ls : list (@label roundRobin)) : option (@Checker roundRobin) := trace 1 1 ls demo_checker.

(** A probe of the monitor under [c], and [k] more of its actions. *)
Definition probe (c : loc) (ok : bool) (k : nat) : list (@label roundRobin) :=
  LProbe c ok :: replicate k (LAdvance c).

Example demo_down_up :
  (λ s, (degraded s, events s, (λ m, m_pc m) <$> (map_to_list (threads s)).*2)) <$>
    demo_run ([LReconcile] ++ probe 2 false 11 ++ probe 3 false 12 ++ [LTick 2] ++ probe 2 true 8)
  = Some (false, [EnterBestEffort; LeaveBestEffort], [Waiting; Waiting]).
Proof. vm_compute. reflexivity. Qed.

(** The flag can go stale: the monitor of the first backend reports it up between
    the moment another monitor counts no healthy backend and the moment it stores
    what it counted.  Afterwards a backend is healthy, every goroutine waits for its
    tick, and the log says best-effort mode was entered. *)
Definition stale_run : list (@label roundRobin) :=
  [LReconcile] ++ probe 2 false 11 ++ probe 3 false 11 ++ [LTick 2] ++ probe 2 true 8 ++ [LAdvance 3].

Lemma best_effort_flag_stale :
  (λ s, (degraded s, events s, (λ m, m_pc m) <$> (map_to_list (threads s)).*2,
         length (healthy_of (heap s) (backends (pool s))))) <$> demo_run stale_run
  = Some (true, [EnterBestEffort], [Waiting; Waiting], 1%nat).
Proof. vm_compute. reflexivity. Qed.

Lemma reachable_demo ls s : demo_run ls = Some s → reachable 1 1 demo_heap demo_pool s.
Proof. apply trace_rtc. Qed.

Definition demo_state (ls : list (@label roundRobin)) : @Checker roundRobin := default demo_checker (demo_run ls).

Lemma demo_state_reachable ls : is_Some (demo_run ls) → reachable 1 1 demo_heap demo_pool (demo_state ls).
Proof. intros [s Hs]. unfold demo_state. rewrite Hs. simpl. by apply (reachable_demo ls). Qed.

Lemma reconcile_monitors_witness :
  dom (monitors (reconcile [3%positive] (demo_state [LReconcile]))) = {[3%positive]}.
Proof.
  assert (Hl : live (demo_state [LReconcile])).
  { apply (reachable_live 1 1 demo_heap demo_pool). apply demo_state_reachable. vm_compute. by eexists. }
  destruct (reconcile_monitors (demo_state [LReconcile]) [3%positive] Hl) as (_ & Hd & _).
  rewrite Hd. reflexivity.
Defined.

Lemma one_monitor_per_backend_witness :
  reachable 1 1 demo_heap demo_pool (demo_state [LReconcile; LCancel; LStop]) ∧
  ∀ c, is_cancelled (demo_state [LReconcile; LCancel; LStop]) c = true.
Proof.
  assert (Hr : reachable 1 1 demo_heap demo_pool (demo_state [LReconcile; LCancel; LStop]))
    by (apply demo_state_reachable; vm_compute; by eexists).
  split; [exact Hr|]. apply (one_monitor_per_backend 1 1 demo_heap demo_pool _ Hr). vm_compute. reflexivity.
Defined.

Lemma cancelled_never_reports_witness :
  let s := demo_state [LReconcile; LProbe 2 false; LCancel] in
  ∃ s2, step_fun 1 1 (LAdvance 2) s = Some s2 ∧ heap s2 = heap s.
Proof.
  intros s. eexists. split; [vm_compute; reflexivity|].
  apply (cancelled_never_reports 1 1 demo_heap demo_pool s s _ 2 (LAdvance 2)).
  - apply demo_state_reachable. vm_compute. by eexists.
  - split; [vm_compute; reflexivity|]. eexists. split; [vm_compute; reflexivity|exact I].
  - apply rtc_refl.
  - reflexivity.
  - vm_compute. reflexivity.
Defined.

Lemma best_effort_alternates_witness :
  alternates EnterBestEffort (events (demo_state stale_run)) ∧
  (degraded (demo_state stale_run) = true ↔ last (events (demo_state stale_run)) = Some EnterBestEffort).
Proof.
  apply (best_effort_alternates 1 1 demo_heap demo_pool). apply demo_state_reachable. vm_compute. by eexists.
Defined.

