(* ===== verification/Proxy.v ===== *)
(** Package proxy, file proxy.go: the server that accepts clients, picks a backend
    for each and shuts down.

    Every goroutine of the server is a part of one state, [step_fun] takes one
    atomic action of one of them, and a run is any sequence of actions.  The bytes
    that flow through an established connection are the subject of Pipe.v; here a
    copy goroutine copies until it ends. *)
From S2P Require Import Prelude Backend Pool.

(** ** State *)

(** A copy goroutine: inside [io.Copy]; about to signal end-of-stream; returned. *)
Inductive copy_pc := Copying | CopyEnded | CopyOver.

(** Where the handler of one client is.  [HFiltering] is inside [Candidates]: the list
    it read, what is left to look at and the healthy ones so far.  [HPiping] holds
    the tracked backend connection and its two copy goroutines, client to backend
    first. *)
Inductive handler_pc :=
  | HStart | HTracked | HFiltering (all todo healthy : list loc)
  | HDialing (candidates : list loc) | HDialed (b conn : loc)
  | HPiping (tc : loc) (up down : copy_pc) | HPiped (tc : loc)
  | HUntrack | HClosing | HFinished | HDone.

Record handler := mkHandler { h_client : loc; h_pc : handler_pc }.

(** [Serve]: not called; holding the flag it read; in [Accept]; holding a client;
    after a failed [Accept]; returned ([true]: an error). *)
Inductive serve_pc :=
  | SNew | SRegistered (down : bool) | SAccepting | SAccepted (c : loc) | SFailed | SReturned (err : bool).

(** [Shutdown]: not called; holding the listener it read; waiting for the handlers
    or the context; after force-closing; returned. *)
Inductive shutdown_pc := DIdle | DFlagged (ln : bool) | DWaiting | DForced | DReturned.

Section proxy.
Context {P : Type} `{PickerLaws P} `{MapRange}.
Context (KeepalivePeriod : Z).

(** [listener] says whether [Serve] stored one, [ln_closed] whether it is closed;
    [done] whether the goroutine that waits for [wg] has closed the channel;
    [keepalive] what was set on a socket ([None]: switched off). *)
Record Server := mkServer {
  heap : Heap;
  pool : Pool P;
  listener : bool;
  ln_closed : bool;
  clientConns : gset loc;
  shuttingDown : bool;
  wg : Z;
  handlers : gmap loc handler;
  serve : serve_pc;
  shutdown : shutdown_pc;
  done : bool;
  expired : bool;
  keepalive : gmap loc (option Z)
}.

Definition set_heap (h : Heap) (s : Server) : Server :=
  mkServer h (pool s) (listener s) (ln_closed s) (clientConns s) (shuttingDown s) (wg s) (handlers s)
    (serve s) (shutdown s) (done s) (expired s) (keepalive s).
Definition set_pool (p : Pool P) (s : Server) : Server :=
  mkServer (heap s) p (listener s) (ln_closed s) (clientConns s) (shuttingDown s) (wg s) (handlers s)
    (serve s) (shutdown s) (done s) (expired s) (keepalive s).
Definition set_listener (r c : bool) (s : Server) : Server :=
  mkServer (heap s) (pool s) r c (clientConns s) (shuttingDown s) (wg s) (handlers s)
    (serve s) (shutdown s) (done s) (expired s) (keepalive s).
Definition set_clientConns (X : gset loc) (s : Server) : Server :=
  mkServer (heap s) (pool s) (listener s) (ln_closed s) X (shuttingDown s) (wg s) (handlers s)
    (serve s) (shutdown s) (done s) (expired s) (keepalive s).
Definition set_shuttingDown (s : Server) : Server :=
  mkServer (heap s) (pool s) (listener s) (ln_closed s) (clientConns s) true (wg s) (handlers s)
    (serve s) (shutdown s) (done s) (expired s) (keepalive s).
Definition set_wg (n : Z) (s : Server) : Server :=
  mkServer (heap s) (pool s) (listener s) (ln_closed s) (clientConns s) (shuttingDown s) n (handlers s)
    (serve s) (shutdown s) (done s) (expired s) (keepalive s).
Definition set_handlers (m : gmap loc handler) (s : Server) : Server :=
  mkServer (heap s) (pool s) (listener s) (ln_closed s) (clientConns s) (shuttingDown s) (wg s) m
    (serve s) (shutdown s) (done s) (expired s) (keepalive s).
Definition set_serve (pc : serve_pc) (s : Server) : Server :=
  mkServer (heap s) (pool s) (listener s) (ln_closed s) (clientConns s) (shuttingDown s) (wg s) (handlers s)
    pc (shutdown s) (done s) (expired s) (keepalive s).
Definition set_shutdown (pc : shutdown_pc) (s : Server) : Server :=
  mkServer (heap s) (pool s) (listener s) (ln_closed s) (clientConns s) (shuttingDown s) (wg s) (handlers s)
    (serve s) pc (done s) (expired s) (keepalive s).
Definition set_done (s : Server) : Server :=
  mkServer (heap s) (pool s) (listener s) (ln_closed s) (clientConns s) (shuttingDown s) (wg s) (handlers s)
    (serve s) (shutdown s) true (expired s) (keepalive s).
Definition set_expired (s : Server) : Server :=
  mkServer (heap s) (pool s) (listener s) (ln_closed s) (clientConns s) (shuttingDown s) (wg s) (handlers s)
    (serve s) (shutdown s) (done s) true (keepalive s).

(** [New], before [Serve] and [Shutdown] are called. *)
Definition New (h : Heap) (p : Pool P) : Server :=
  mkServer h p false false ∅ false 0 ∅ SNew DIdle false false ∅.

Definition on_heap {A} (m : prog Heap A) (s : Server) : option (A * Server) :=
  match m (heap s) with Some (a, h) => Some (a, set_heap h s) | None => None end.

(** ** Helpers of the handler *)

Definition trackClient (c : loc) (add : bool) (s : Server) : Server :=
  set_clientConns (if add then {[c]} ∪ clientConns s else clientConns s ∖ {[c]}) s.

(** Only TCP connections, the ones that can half-close, have a keepalive. *)
Definition configureKeepalive (c : loc) (s : Server) : option Server :=
  nc ← h_conn (heap s) !! c;
  if negb (nc_CloseWrite nc) then Some s
  else
    let value := if KeepalivePeriod <=? 0 then None else Some KeepalivePeriod in
    Some (mkServer (heap s) (pool s) (listener s) (ln_closed s) (clientConns s) (shuttingDown s) (wg s)
            (handlers s) (serve s) (shutdown s) (done s) (expired s) (<[c := value]> (keepalive s))).

(** End of the stream towards a client: half-close it if it can, else close it. *)
Definition conn_CloseWrite (c : loc) : prog Heap unit :=
  nc ← load_conn c;
  if nc_CloseWrite nc then
    if nc_closed nc then mret tt else update_conn nc_close_write c
  else conn_Close c ;; mret tt.

(** The end of [copyThenCloseWrite]: towards the backend the destination is the
    tracked connection, which has a [CloseWrite] of its own. *)
Definition signal_end (up : bool) (tc client : loc) : prog Heap unit :=
  if up then CloseWrite tc ;; mret tt else conn_CloseWrite client.

(** One attempt of the loop of [handle], the dial having succeeded or not. *)
Definition dial_failed (b : loc) : prog Heap unit := count_dial_error b.
Definition dialed (b conn : loc) : prog Heap loc := Track b conn.

(** The loop as a whole, given which addresses accept a dial. *)
Fixpoint try_candidates (reach : string → bool) (candidates : list loc) : prog Heap (option (loc * loc)) :=
  match candidates with
  | [] => mret None
  | b :: candidates' =>
      a ← Addr b;
      if reach a then
        conn ← alloc_conn true; tc ← dialed b conn; mret (Some (b, tc))
      else dial_failed b ;; try_candidates reach candidates'
  end.

(** The sockets the force-close loop closes. *)
Definition close_clients (X : gset loc) : prog Heap unit :=
  for_each (λ c, conn_Close c ;; mret tt) (map_range X).

(** ** Steps *)

Definition set_pc (i : loc) (pc : handler_pc) (s : Server) : Server :=
  set_handlers (alter (λ x, mkHandler (h_client x) pc) i (handlers s)) s.

(** What a handler does next.  [HDial ok]: a dial returns; [HCopy up]: a copy
    goroutine leaves [io.Copy]. *)
Inductive action :=
  | ATrack | ACandidates | AHealthy | AOrder | ADial (ok : bool) | AGiveUp | ATrackConn
  | ACopyEnd (up : bool) | ASignal (up : bool) | APipeDone | ACloseBackend
  | AUntrack | ACloseClient | ADone.

Definition handler_step (i : loc) (x : handler) (a : action) (s : Server) : option Server :=
  match a, h_pc x with
  | ATrack, HStart =>
      s1 ← configureKeepalive (h_client x) (trackClient (h_client x) true s);
      Some (set_pc i HTracked s1)
  | ACandidates, HTracked =>
      let all := Backends (pool s) in Some (set_pc i (HFiltering all all []) s)
  | AHealthy, HFiltering all (b :: todo) healthy =>
      '(healthy', s1) ← on_heap (add_healthy healthy b) s; Some (set_pc i (HFiltering all todo healthy') s1)
  | AOrder, HFiltering all [] healthy =>
      '((p', (candidates, _)), s1) ← on_heap (order_healthy (pool s) all healthy) s;
      Some (set_pc i (HDialing candidates) (set_pool p' s1))
  | ADial ok, HDialing (b :: candidates) =>
      if ok then
        '(conn, s1) ← on_heap (alloc_conn true) s;
        s2 ← configureKeepalive conn s1;
        Some (set_pc i (HDialed b conn) s2)
      else '(_, s1) ← on_heap (dial_failed b) s; Some (set_pc i (HDialing candidates) s1)
  | AGiveUp, HDialing [] => Some (set_pc i HUntrack s)
  | ATrackConn, HDialed b conn =>
      '(tc, s1) ← on_heap (dialed b conn) s; Some (set_pc i (HPiping tc Copying Copying) s1)
  | ACopyEnd true, HPiping tc Copying down => Some (set_pc i (HPiping tc CopyEnded down) s)
  | ACopyEnd false, HPiping tc up Copying => Some (set_pc i (HPiping tc up CopyEnded) s)
  | ASignal true, HPiping tc CopyEnded down =>
      '(_, s1) ← on_heap (signal_end true tc (h_client x)) s; Some (set_pc i (HPiping tc CopyOver down) s1)
  | ASignal false, HPiping tc up CopyEnded =>
      '(_, s1) ← on_heap (signal_end false tc (h_client x)) s; Some (set_pc i (HPiping tc up CopyOver) s1)
  | APipeDone, HPiping tc CopyOver CopyOver => Some (set_pc i (HPiped tc) s)
  | ACloseBackend, HPiped tc => '(_, s1) ← on_heap (Close tc) s; Some (set_pc i HUntrack s1)
  | AUntrack, HUntrack => Some (set_pc i HClosing (trackClient (h_client x) false s))
  | ACloseClient, HClosing => '(_, s1) ← on_heap (conn_Close (h_client x)) s; Some (set_pc i HFinished s1)
  | ADone, HFinished => Some (set_pc i HDone (set_wg (int_add (wg s) (-1)) s))
  | _, _ => None
  end.

(** Who moves: [Serve], [Shutdown] or a handler; besides, the grace period ends, the
    health checker reports, it or discovery closes a connection or counts what it has
    drained, and discovery has the strategy order a list or replaces the list. *)
Inductive label :=
  | LServe | LServeCheck | LAccept | LAcceptFails | LServeErr | LSpawn
  | LShutdown | LCloseListener | LAllDone | LReturn | LForce
  | LHandler (i : loc) (a : action)
  | LExpire | LReport (b : loc) (ok : bool) (fall rise : Z)
  | LClose (tc : loc) | LCountDrained (b : loc) (n : nat)
  | LOrder (all healthy : list loc) | LSetAddrs (addrs : list string).

Definition step_fun (l : label) (s : Server) : option Server :=
  match l with
  | LServe =>
      match serve s with
      | SNew => Some (set_serve (SRegistered (shuttingDown s)) (set_listener true (ln_closed s) s))
      | _ => None
      end
  | LServeCheck =>
      match serve s with
      | SRegistered true => Some (set_serve (SReturned false) (set_listener (listener s) true s))
      | SRegistered false => Some (set_serve SAccepting s)
      | _ => None
      end
  | LAccept =>
      match serve s with
      | SAccepting =>
          if ln_closed s then None
          else '(c, s1) ← on_heap (alloc_conn true) s; Some (set_serve (SAccepted c) s1)
      | _ => None
      end
  | LAcceptFails => match serve s with SAccepting => Some (set_serve SFailed s) | _ => None end
  | LServeErr =>
      match serve s with SFailed => Some (set_serve (SReturned (negb (shuttingDown s))) s) | _ => None end
  | LSpawn =>
      match serve s with
      | SAccepted c =>
          let i := fresh_loc (handlers s) in
          Some (set_serve SAccepting (set_handlers (<[i := mkHandler c HStart]> (handlers s))
                 (set_wg (int_add (wg s) 1) s)))
      | _ => None
      end
  | LShutdown =>
      match shutdown s with
      | DIdle => Some (set_shutdown (DFlagged (listener s)) (set_shuttingDown s))
      | _ => None
      end
  | LCloseListener =>
      match shutdown s with
      | DFlagged ln => Some (set_shutdown DWaiting (if ln then set_listener (listener s) true s else s))
      | _ => None
      end
  | LAllDone =>
      match shutdown s with
      | DWaiting | DForced => if wg s =? 0 then Some (set_done s) else None
      | _ => None
      end
  | LReturn =>
      match shutdown s with
      | DWaiting | DForced => if done s then Some (set_shutdown DReturned s) else None
      | _ => None
      end
  | LForce =>
      match shutdown s with
      | DWaiting =>
          if expired s then
            '(_, s1) ← on_heap (close_clients (clientConns s)) s; Some (set_shutdown DForced s1)
          else None
      | _ => None
      end
  | LHandler i a => x ← handlers s !! i; handler_step i x a s
  | LExpire => Some (set_expired s)
  | LReport b ok fall rise => '(_, s1) ← on_heap (ReportHealth b ok fall rise) s; Some s1
  | LClose tc => '(_, s1) ← on_heap (close_one tc) s; Some s1
  | LCountDrained b n => '(_, s1) ← on_heap (count_drained n b) s; Some s1
  | LOrder all healthy =>
      '((p', _), s1) ← on_heap (order_healthy (pool s) all healthy) s; Some (set_pool p' s1)
  | LSetAddrs addrs => '((p', _), s1) ← on_heap (SetAddrs (pool s) addrs) s; Some (set_pool p' s1)
  end.

Definition step (s s' : Server) : Prop := ∃ l, step_fun l s = Some s'.
Definition reachable (h : Heap) (p : Pool P) : Server → Prop := rtc step (New h p).

Fixpoint trace (ls : list label) (s : Server) : option Server :=
  match ls with [] => Some s | l :: ls' => s' ← step_fun l s; trace ls' s' end.

Lemma proxy_trace_rtc ls s s' : trace ls s = Some s' → rtc step s s'.
Proof.
  revert s. induction ls as [|l ls IH]; intros s; [by intros [= ->]|]. simpl.
  destruct (step_fun l s) as [s1|] eqn:E; [|done]. intros Ht. eapply rtc_l; [by exists l|]. by apply IH.
Qed.
End proxy.

(** ** Choosing a backend *)

Section dialing.
Context `{MapRange}.

(** [h'] is [h] after failed dials to [failed]: each of them has one more dial
    error, nothing else changed. *)
Record dials_failed (failed : list loc) (h h' : Heap) : Prop := {
  df_backend : ∀ l, h_backend h' !! l =
    (if decide (l ∈ failed) then set_stats (add_DialErrors 1) <$> h_backend h !! l else h_backend h !! l);
  df_tracked : h_tracked h' = h_tracked h;
  df_conn : h_conn h' = h_conn h
}.

Definition reaches (reach : string → bool) (h : Heap) (v : bool) (l : loc) : Prop :=
  ∃ b, h_backend h !! l = Some b ∧ reach (addr b) = v.

Lemma try_failing reach pre post h :
  NoDup pre → Forall (reaches reach h false) pre →
  ∃ h1, dials_failed pre h h1 ∧
    ∀ r h2, runs (try_candidates reach post) h1 r h2 → runs (try_candidates reach (pre ++ post)) h r h2.
Proof.
  revert h. induction pre as [|l pre IH]; intros h Hnd Hall.
  { exists h. split; [|done]. split; [|done..]. intros l. by rewrite decide_False by set_solver. }
  apply NoDup_cons in Hnd as [Hl Hnd]. apply Forall_cons in Hall as [(b & Hb & Hr) Hall].
  set (h0 := alter_backend (set_stats (add_DialErrors 1)) l h).
  destruct (IH h0) as (h1 & Hdf & Hrest); [done| |].
  { rewrite Forall_forall in *. intros l' Hl'. destruct (Hall l' Hl') as (b' & Hb' & Hr').
    exists b'. split; [|done]. simpl. rewrite lookup_alter_ne; [done|]. set_solver. }
  exists h1. split.
  - destruct Hdf as [D1 D2 D3]. split; [|done..]. intros l'. rewrite D1. simpl.
    destruct (decide (l' = l)) as [->|Hne].
    + rewrite decide_False, decide_True by set_solver. by rewrite lookup_alter_eq, Hb.
    + rewrite lookup_alter_ne by done. do 2 case_decide; set_solver.
  - intros r h2 Hr2. simpl. eapply runs_bind; [by apply Addr_runs|]. rewrite Hr.
    eapply runs_bind; [|by apply Hrest]. by eapply update_backend_runs.
Qed.

Lemma dials_failed_wf failed h h' : dials_failed failed h h' → wf_heap h → wf_heap h'.
Proof.
  intros [D1 D2 D3] [W1 W2 W3]. split; rewrite ?D2, ?D3; [| |done].
  - intros l b' tc. rewrite D1. case_decide; [|by apply W1].
    rewrite fmap_Some. intros (b & Hb & ->). by apply (W1 _ _ tc Hb).
  - intros tc t Ht. rewrite D1. destruct (W2 _ _ Ht) as [b ->]. case_decide; simpl; by eexists.
Qed.

Lemma split_first {A} (f : A → bool) (l : list A) :
  Forall (λ x, f x = false) l ∨ ∃ pre x post, l = pre ++ x :: post ∧ Forall (λ y, f y = false) pre ∧ f x = true.
Proof.
  induction l as [|x l IH]; [by left|]. destruct (f x) eqn:Ex; [right; by exists [], x, l|].
  destruct IH as [Hl|(pre & y & post & -> & Hp & Hy)]; [left; by constructor|right].
  exists (x :: pre), y, post. split; [done|]. split; [by constructor|done].
Qed.

(** C14. The handler connects to the first candidate that accepts a dial: each
    candidate before it gets one dial error, it gets one more connection, counted
    and tracked under a new open socket, and no other backend changes.  Only when no
    candidate accepts is the client dropped, with one dial error for each. *)
Theorem try_candidates_first (reach : string → bool) (candidates : list loc) (h : Heap)
    (Hwf : wf_heap h) (Hnd : NoDup candidates) (Hall : Forall (allocated h) candidates) :
  (∃ pre b post bk h1 tc h2,
     candidates = pre ++ b :: post ∧ Forall (reaches reach h false) pre ∧
     h_backend h !! b = Some bk ∧ reach (addr bk) = true ∧
     runs (try_candidates reach candidates) h (Some (b, tc)) h2 ∧ wf_heap h2 ∧
     dials_failed pre h h1 ∧ h_tracked h !! tc = None ∧
     h_backend h2 !! b = Some (set_conns ({[tc]} ∪ conns bk) (set_stats (add_ConnsTotal 1) bk)) ∧
     (∀ l, l ≠ b → h_backend h2 !! l = h_backend h1 !! l) ∧
     ∃ t nc, h_tracked h2 !! tc = Some t ∧ h_conn h !! tc_Conn t = None ∧
       h_conn h2 !! tc_Conn t = Some nc ∧ nc_closed nc = false) ∨
  (Forall (reaches reach h false) candidates ∧
   ∃ h1, runs (try_candidates reach candidates) h None h1 ∧ dials_failed candidates h h1).
Proof.
  assert (∀ l, l ∈ candidates → ∃ bk, h_backend h !! l = Some bk) as Hbk.
  { rewrite Forall_forall in Hall. intros l Hl. by apply Hall. }
  set (up := λ l, match h_backend h !! l with Some b => reach (addr b) | None => false end).
  destruct (split_first up candidates) as [Hno|(pre & b & post & Hc & Hpre & Hb)]; [right|left].
  - assert (Forall (reaches reach h false) candidates) as Hf.
    { rewrite Forall_forall in *. intros l Hl. destruct (Hbk l Hl) as [b0 Hb0].
      exists b0. split; [done|]. specialize (Hno l Hl). unfold up in Hno. by rewrite Hb0 in Hno. }
    split; [done|]. destruct (try_failing reach candidates [] h Hnd Hf) as (h1 & Hdf & Hrest).
    exists h1. split; [|done]. specialize (Hrest None h1 eq_refl). by rewrite app_nil_r in Hrest.
  - destruct (Hbk b) as [bk Hbkb]; [subst; set_solver|]. unfold up in Hb. rewrite Hbkb in Hb.
    assert (Forall (reaches reach h false) pre) as Hpre'.
    { rewrite Forall_forall in *. intros l Hl. destruct (Hbk l) as [b0 Hb0]; [subst; set_solver|].
      exists b0. split; [done|]. specialize (Hpre l Hl). unfold up in Hpre. by rewrite Hb0 in Hpre. }
    assert (NoDup pre ∧ b ∉ pre) as [Hndp Hbp].
    { subst. apply NoDup_app in Hnd as (? & Hd & _). split; [done|]. intros Hin. apply (Hd b Hin). by left. }
    destruct (try_failing reach pre (b :: post) h Hndp Hpre') as (h1 & Hdf & Hrest).
    assert (h_backend h1 !! b = Some bk) as Hb1 by (rewrite (df_backend _ _ _ Hdf), decide_False; done).
    set (c := fresh_loc (h_conn h1)).
    set (h1' := mkHeap (h_backend h1) (h_tracked h1) (<[c := mkConn false false true]> (h_conn h1))).
    set (tc := fresh_loc (h_tracked h1')).
    exists pre, b, post, bk, h1, tc, (track_heap b c tc h1').
    assert (h_conn h1' !! c = Some (mkConn false false true)) as Hcc by (simpl; by rewrite lookup_insert_eq).
    split_and!; try done.
    + rewrite Hc. apply Hrest. simpl. eapply runs_bind; [by apply Addr_runs|]. rewrite Hb.
      eapply runs_bind; [done|]. eapply runs_bind; [|done]. by apply (Track_runs b c h1' bk).
    + eapply track_heap_wf; [apply (alloc_conn_wf h1 true); by eapply dials_failed_wf|exact Hb1|exact Hcc].
    + rewrite <- (df_tracked _ _ _ Hdf). apply (fresh_loc_None (h_tracked h1')).
    + simpl. by rewrite lookup_alter_eq, Hb1.
    + intros l Hl. simpl. by rewrite lookup_alter_ne.
    + exists (mkTracked c b false), (mkConn false false true). simpl. split_and!.
      * by rewrite lookup_insert_eq.
      * rewrite <- (df_conn _ _ _ Hdf). apply (fresh_loc_None (h_conn h1)).
      * done.
      * done.
Qed.
End dialing.
