(* ===== verification/ProxyFacts.v ===== *)
(** Invariants of the proxy server under every interleaving of its goroutines. *)
From S2P Require Import Prelude Backend Pool Proxy.

(** ** What heap operations never do

    They reopen no socket, forget no object and change no address; and except for [Track] they leave no
    tracked connection open that was not. *)

Record grows (h h' : Heap) : Prop := {
  gr_backend : ∀ l b, h_backend h !! l = Some b → ∃ b', h_backend h' !! l = Some b' ∧ addr b' = addr b;
  gr_conn : ∀ c nc, h_conn h !! c = Some nc →
    ∃ nc', h_conn h' !! c = Some nc' ∧ (nc_closed nc = true → nc_closed nc' = true);
  gr_once : ∀ tc t, h_tracked h !! tc = Some t →
    ∃ t', h_tracked h' !! tc = Some t' ∧ tc_backend t' = tc_backend t ∧ (tc_once t = true → tc_once t' = true)
}.

Record calmly (h h' : Heap) : Prop := {
  cm_grows : grows h h';
  cm_open : ∀ tc t', h_tracked h' !! tc = Some t' → tc_once t' = false →
    ∃ t, h_tracked h !! tc = Some t ∧ tc_once t = false
}.

Definition wf_kept (h h' : Heap) : Prop := wf_heap h → wf_heap h'.

#[export] Instance grows_preorder : PreOrder grows.
Proof.
  split.
  - intros h. split; eauto.
  - intros h1 h2 h3 [A1 A2 A3] [B1 B2 B3]. split.
    + intros l b Hl. destruct (A1 _ _ Hl) as (b2 & Hl2 & <-). destruct (B1 _ _ Hl2) as (b3 & ? & ?). eauto.
    + intros c nc Hc. destruct (A2 _ _ Hc) as (nc2 & Hc2 & ?). destruct (B2 _ _ Hc2) as (nc3 & ? & ?). eauto.
    + intros tc t Ht. destruct (A3 _ _ Ht) as (t2 & Ht2 & <- & ?). destruct (B3 _ _ Ht2) as (t3 & ? & ? & ?). exists t3. auto.
Qed.
Lemma gr_allocated h h' l : grows h h' → allocated h l → allocated h' l.
Proof. intros Hg [b Hb]. destruct (gr_backend _ _ Hg _ _ Hb) as (b' & ? & _). by exists b'. Qed.
#[export] Instance calmly_preorder : PreOrder calmly.
Proof.
  split.
  - intros h. split; [done|eauto].
  - intros h1 h2 h3 [A1 A2] [B1 B2]. split; [by etrans|].
    intros tc t Ht Ho. destruct (B2 _ _ Ht Ho) as (t2 & ? & ?). eauto.
Qed.
#[export] Instance wf_kept_preorder : PreOrder wf_kept.
Proof. unfold wf_kept. split; [by intros h|by intros h1 h2 h3; auto]. Qed.

(** Every run of [m] goes from a heap to a related one. *)
Definition keeps {A} (R : Heap → Heap → Prop) (m : prog Heap A) : Prop :=
  ∀ h a h', m h = Some (a, h') → R h h'.
Notation calm := (keeps calmly).

Create HintDb calm.

Section keeps.
Context {R : Heap → Heap → Prop} `{!PreOrder R}.

Lemma keeps_ret {A} (a : A) : keeps R (mret a).
Proof. by intros h a' h' [= <- <-]. Qed.
Lemma keeps_deref {A} (f : Heap → option A) : keeps R (deref f).
Proof. intros h a h'. unfold deref. destruct (f h); [|done]. by intros [= <- <-]. Qed.
Lemma keeps_bind {A B} (m : prog Heap A) (f : A → prog Heap B) :
  keeps R m → (∀ a, keeps R (f a)) → keeps R (m ≫= f).
Proof.
  intros Hm Hf h b h2 Hr. apply runs_bind_inv in Hr as (a & h1 & Hr1 & Hr2).
  etrans; [by eapply Hm|by eapply Hf].
Qed.
Lemma keeps_for_each {A} (f : A → prog Heap unit) l : (∀ x, keeps R (f x)) → keeps R (for_each f l).
Proof. intros Hf. induction l as [|x l IH]; [apply keeps_ret|]. by apply keeps_bind. Qed.
Lemma keeps_for_fold {A B} (f : B → A → prog Heap B) b l :
  (∀ b x, keeps R (f b x)) → keeps R (for_fold f b l).
Proof. intros Hf. revert b. induction l as [|x l IH]; intros b; [apply keeps_ret|]. by apply keeps_bind. Qed.
Lemma keeps_load_backend l : keeps R (load_backend l).
Proof. apply keeps_deref. Qed.
Lemma keeps_load_tracked l : keeps R (load_tracked l).
Proof. apply keeps_deref. Qed.
Lemma keeps_load_conn l : keeps R (load_conn l).
Proof. apply keeps_deref. Qed.
Lemma keeps_update_backend f l : (∀ h, R h (alter_backend f l h)) → keeps R (update_backend f l).
Proof. intros Hf. apply keeps_bind; [apply keeps_deref|]. intros b h a h' [= <- <-]. apply Hf. Qed.
Lemma keeps_update_conn f l : (∀ h, R h (alter_conn f l h)) → keeps R (update_conn f l).
Proof. intros Hf. apply keeps_bind; [apply keeps_deref|]. intros b h a h' [= <- <-]. apply Hf. Qed.
Lemma keeps_update_tracked f l : (∀ h, R h (alter_tracked f l h)) → keeps R (update_tracked f l).
Proof. intros Hf. apply keeps_bind; [apply keeps_deref|]. intros b h a h' [= <- <-]. apply Hf. Qed.
End keeps.
#[export] Hint Resolve keeps_ret keeps_deref keeps_bind keeps_for_each keeps_for_fold keeps_load_backend
  keeps_load_tracked keeps_load_conn grows_preorder calmly_preorder wf_kept_preorder : calm.

Lemma alter_backend_grows f l h : (∀ b, addr (f b) = addr b) → grows h (alter_backend f l h).
Proof.
  intros Hf. split; simpl; [|eauto..]. intros l' b Hl. rewrite lookup_alter. case_decide; subst; rewrite Hl; simpl; eauto.
Qed.
Lemma alter_backend_calmly f l h : (∀ b, addr (f b) = addr b) → calmly h (alter_backend f l h).
Proof. intros Hf. split; [by apply alter_backend_grows|simpl; eauto]. Qed.
Lemma insert_fresh_mono {A} (m : gmap loc A) x l y : m !! l = Some y → <[fresh_loc m := x]> m !! l = Some y.
Proof. intros Hl. rewrite lookup_insert_ne; [done|]. intros <-. by rewrite fresh_loc_None in Hl. Qed.
Lemma calm_update_backend f l : (∀ b, addr (f b) = addr b) → calm (update_backend f l).
Proof. intros Hf. apply keeps_update_backend. intros h. by apply alter_backend_calmly. Qed.
Lemma calm_update_conn f l :
  (∀ nc, nc_closed nc = true → nc_closed (f nc) = true) → calm (update_conn f l).
Proof.
  intros Hf. apply keeps_update_conn. intros h. split; [split|]; simpl; [eauto| |eauto..].
  intros c nc Hc. rewrite lookup_alter. case_decide; subst; rewrite Hc; simpl; eauto.
Qed.
Lemma calm_set_once l : calm (update_tracked set_once l).
Proof.
  apply keeps_update_tracked. intros h. split; [split|]; simpl; [eauto..| |].
  - intros tc t Ht. rewrite lookup_alter. case_decide; subst; rewrite Ht; simpl; eauto.
  - intros tc t'. rewrite lookup_alter_Some. intros [(<- & t & Ht & ->)|[_ Ht]] Ho; [done|eauto].
Qed.
#[export] Hint Resolve calm_update_backend calm_set_once : calm.

Lemma calm_conn_Close c : calm (conn_Close c).
Proof.
  apply keeps_bind; [apply keeps_deref|]. intros nc. destruct (nc_closed nc); [apply keeps_ret|].
  apply keeps_bind; [by apply calm_update_conn|]. intros _. apply keeps_ret.
Qed.
#[export] Hint Resolve calm_conn_Close : calm.
Lemma calm_Close tc : calm (Close tc).
Proof.
  apply keeps_bind; [apply keeps_deref|]. intros t. apply keeps_bind; [|auto with calm].
  destruct (tc_once t); [auto with calm|]. apply keeps_bind; auto with calm.
Qed.
#[export] Hint Resolve calm_Close : calm.

(** Besides, every operation but [Track] keeps the heap well-formed. *)
Record tame (h h' : Heap) : Prop := { tm_calm : calmly h h'; tm_wf : wf_heap h → wf_heap h' }.
#[export] Instance tame_preorder : PreOrder tame.
Proof.
  split; [by intros h; split|]. intros h1 h2 h3 [A1 A2] [B1 B2]. split; [by etrans|by auto].
Qed.
#[export] Hint Resolve tame_preorder : calm.

Lemma alter_backend_tame f l h : (∀ b, addr (f b) = addr b) → (∀ b, conns (f b) = conns b) →
  tame h (alter_backend f l h).
Proof.
  intros Ha Hf. split; [by apply alter_backend_calmly|]. intros [H1 H2 H3]. split; simpl; [..|done].
  - intros l' b tc. rewrite lookup_alter_Some.
    intros [(<- & b0 & Hb0 & ->)|[_ Hb]]; [rewrite Hf; exact (H1 _ _ tc Hb0)|exact (H1 _ _ tc Hb)].
  - intros tc t. rewrite lookup_alter_is_Some. eauto.
Qed.
Lemma tame_update_backend f l : (∀ b, addr (f b) = addr b) → (∀ b, conns (f b) = conns b) →
  keeps tame (update_backend f l).
Proof. intros Ha Hf. apply keeps_update_backend. intros h. by apply alter_backend_tame. Qed.
Lemma tame_alloc_backend a : keeps tame (alloc_backend (Backend.New a)).
Proof.
  intros h l h' [= <- <-]. split; [split; [split|]|by apply alloc_backend_wf]; simpl; [|eauto..].
  intros l b' Hb. exists b'. split; [by apply insert_fresh_mono|done].
Qed.
Lemma tame_alloc_conn cw : keeps tame (alloc_conn cw).
Proof.
  intros h a h' [= <- <-]. split; [split; [split|]|by apply alloc_conn_wf]; simpl; [eauto| |eauto..].
  intros c nc Hc. exists nc. split; [|done]. by apply insert_fresh_mono.
Qed.
Lemma tame_update_conn f l :
  (∀ nc, nc_closed nc = true → nc_closed (f nc) = true) → keeps tame (update_conn f l).
Proof.
  intros Hf h a h' Hr. split; [by eapply calm_update_conn|]. intros [H1 H2 H3].
  apply runs_bind_inv in Hr as (b & h1 & Hb & Hr). unfold runs, load_conn, deref in Hb.
  destruct (h_conn h !! l); [|done]. injection Hb as <- <-. injection Hr as <- <-. split; simpl; [done..|].
  intros tc t Ht. destruct (H3 _ _ Ht) as (nc & Hnc & Hcl). rewrite lookup_alter.
  case_decide; subst; rewrite Hnc; simpl; eauto.
Qed.
Lemma tame_Close tc : keeps tame (Close tc).
Proof.
  intros h e h' Hr. split; [by eapply calm_Close|]. intros Hwf.
  destruct (h_tracked h !! tc) as [t|] eqn:Ht.
  - destruct (Close_runs h tc t Hwf Ht) as [e' He]. unfold runs in He. rewrite He in Hr.
    injection Hr as _ <-. by apply close_heap_wf.
  - unfold Close, load_tracked, deref, mbind, prog_bind in Hr. by rewrite Ht in Hr.
Qed.
#[export] Hint Resolve tame_alloc_backend tame_alloc_conn tame_Close : calm.

Lemma tame_conn_Close c : keeps tame (conn_Close c).
Proof.
  apply keeps_bind; [apply keeps_deref|]. intros nc. destruct (nc_closed nc); [apply keeps_ret|].
  apply keeps_bind; [by apply tame_update_conn|]. intros _. apply keeps_ret.
Qed.
#[export] Hint Resolve tame_conn_Close : calm.
Lemma tame_CloseWrite tc : keeps tame (CloseWrite tc).
Proof.
  apply keeps_bind; [apply keeps_deref|]. intros t. apply keeps_bind; [apply keeps_deref|]. intros nc.
  destruct (nc_CloseWrite nc); [|auto with calm]. destruct (nc_closed nc); [auto with calm|].
  apply keeps_bind; [by apply tame_update_conn|auto with calm].
Qed.
Lemma tame_conn_CloseWrite c : keeps tame (conn_CloseWrite c).
Proof.
  apply keeps_bind; [apply keeps_deref|]. intros nc. destruct (nc_CloseWrite nc); [|apply keeps_bind; auto with calm].
  destruct (nc_closed nc); [auto with calm|]. by apply tame_update_conn.
Qed.
#[export] Hint Resolve tame_CloseWrite tame_conn_CloseWrite : calm.
Lemma tame_signal_end up tc c : keeps tame (signal_end up tc c).
Proof. destruct up; [apply keeps_bind; auto with calm|apply tame_conn_CloseWrite]. Qed.
Lemma set_stats_conns f b : conns (set_stats f b) = conns b.
Proof. done. Qed.
Lemma set_stats_addr f b : addr (set_stats f b) = addr b.
Proof. done. Qed.
#[export] Hint Resolve tame_update_backend set_stats_conns set_stats_addr : calm.
Lemma tame_dial_failed b : keeps tame (dial_failed b).
Proof. apply tame_update_backend; auto with calm. Qed.
Lemma calm_dial_failed b : calm (dial_failed b).
Proof. intros h v h' Hr. apply (tm_calm _ _ (tame_dial_failed b _ _ _ Hr)). Qed.
Lemma tame_close_one tc : keeps tame (close_one tc).
Proof. apply keeps_bind; auto with calm. Qed.
Lemma tame_count_drained n l : keeps tame (count_drained n l).
Proof. apply tame_update_backend; auto with calm. Qed.
Lemma tame_close_clients `{MapRange} X : keeps tame (close_clients X).
Proof. apply keeps_for_each. intros c. apply keeps_bind; auto with calm. Qed.
Lemma count_probe_conns ok b : conns (count_probe ok b) = conns b.
Proof. by destruct ok. Qed.
Lemma fall_rise_conns ok fall rise b : conns (fall_rise ok fall rise b).1 = conns b.
Proof.
  unfold fall_rise. destruct (healthy b), ok; simpl; try done; cbv zeta; by case_match.
Qed.
Lemma count_probe_addr ok b : addr (count_probe ok b) = addr b.
Proof. by destruct ok. Qed.
Lemma fall_rise_addr ok fall rise b : addr (fall_rise ok fall rise b).1 = addr b.
Proof.
  unfold fall_rise. destruct (healthy b), ok; simpl; try done; cbv zeta; by case_match.
Qed.
#[export] Hint Resolve count_probe_conns fall_rise_conns count_probe_addr fall_rise_addr tame_conn_CloseWrite : calm.
Lemma tame_ReportHealth l ok fall rise : keeps tame (ReportHealth l ok fall rise).
Proof.
  apply keeps_bind; [auto with calm|]. intros _. apply keeps_bind; [apply keeps_deref|].
  intros b. apply keeps_bind; auto with calm.
Qed.
Lemma tame_SetAddrs {P} (p : Pool P) addrs : keeps tame (SetAddrs p addrs).
Proof.
  apply keeps_bind.
  - apply keeps_for_fold. intros m b. apply keeps_bind; [apply keeps_bind; auto with calm|auto with calm].
  - intros m. apply keeps_bind.
    + apply keeps_for_fold. intros [[nxt added] keep] a. apply keeps_bind; [|intros []; auto with calm].
      destruct (m !! a); [auto with calm|]. apply keeps_bind; auto with calm.
    + intros [[nxt added] keep]. apply keeps_bind; [|auto with calm].
      apply keeps_for_fold. intros r b. apply keeps_bind; [apply keeps_bind; auto with calm|auto with calm].
Qed.

(** A closed tracked connection is marked closed. *)
Lemma Close_once tc h e h' : Close tc h = Some (e, h') →
  ∃ t', h_tracked h' !! tc = Some t' ∧ tc_once t' = true.
Proof.
  intros Hr. apply runs_bind_inv in Hr as (t & h1 & Ht & Hr).
  unfold runs, load_tracked, deref in Ht. destruct (h_tracked h !! tc) as [t0|] eqn:E; [|done]. injection Ht as <- <-.
  apply runs_bind_inv in Hr as ([] & h2 & Hr2 & Hr3).
  assert (∃ t', h_tracked h2 !! tc = Some t' ∧ tc_once t' = true) as (t' & Ht' & Ho).
  { destruct (tc_once t0) eqn:Eo; [unfold runs in Hr2; injection Hr2 as <-; by exists t0|].
    apply runs_bind_inv in Hr2 as ([] & h3 & Hr3' & Hr4).
    unfold runs, update_tracked, load_tracked, deref, mbind, prog_bind in Hr3'. rewrite E in Hr3'.
    injection Hr3' as <-. apply runs_bind_inv in Hr4 as (b & h4 & Hb & Hr4).
    unfold runs, load_backend, deref in Hb. destruct (_ !! _) in Hb; [|done]. injection Hb as <- <-.
    injection Hr4 as <-. simpl. rewrite lookup_alter_eq, E. by eexists. }
  destruct (gr_once _ _ (cm_grows _ _ (calm_conn_Close _ _ _ _ Hr3)) _ _ Ht') as (t'' & ? & _ & ?). eauto.
Qed.

Lemma conn_Close_closed c h e h' : conn_Close c h = Some (e, h') →
  ∃ nc, h_conn h' !! c = Some nc ∧ nc_closed nc = true.
Proof.
  intros Hr. apply runs_bind_inv in Hr as (nc & h1 & Hc & Hr).
  unfold runs, load_conn, deref in Hc. destruct (h_conn h !! c) as [nc0|] eqn:E; [|done]. injection Hc as <- <-.
  destruct (nc_closed nc0) eqn:Ec; [unfold runs in Hr; injection Hr as <- <-; by exists nc0|].
  apply runs_bind_inv in Hr as ([] & h2 & Hr2 & Hr3). unfold runs in Hr3. injection Hr3 as <- <-.
  unfold runs, update_conn, load_conn, deref, mbind, prog_bind in Hr2. rewrite E in Hr2. injection Hr2 as <-.
  simpl. rewrite lookup_alter_eq, E. by eexists.
Qed.

(** What [Track] adds. *)
Lemma Track_inv l c h tc h' : Track l c h = Some (tc, h') →
  h_conn h' = h_conn h ∧ h_tracked h' = <[tc := mkTracked c l false]> (h_tracked h) ∧ h_tracked h !! tc = None.
Proof.
  intros Hr. apply runs_bind_inv in Hr as ([] & h1 & Hr1 & Hr2).
  apply runs_bind_inv in Hr2 as (tc' & h2 & Hr2 & Hr3). apply runs_bind_inv in Hr3 as ([] & h3 & Hr3 & Hr4).
  assert (∀ f l h1 h2, runs (update_backend f l) h1 tt h2 → h_conn h2 = h_conn h1 ∧ h_tracked h2 = h_tracked h1) as Hu.
  { intros f l0 g1 g2 Hr. apply runs_bind_inv in Hr as (b & g & Hb & Hr).
    unfold runs, load_backend, deref in Hb. destruct (h_backend g1 !! l0); [|done]. injection Hb as <- <-. by injection Hr as <-. }
  apply Hu in Hr1 as [C1 T1], Hr3 as [C3 T3]. unfold runs in Hr2, Hr4. injection Hr2 as <- <-. injection Hr4 as <- <-.
  simpl in *. rewrite C3, T3, C1, <- T1. split_and!; [done..|]. apply fresh_loc_None.
Qed.

Lemma run_on_heap_inv {P A} (m : prog Heap A) (s : @Server P) a s1 : on_heap m s = Some (a, s1) →
  ∃ h, m (heap s) = Some (a, h) ∧ s1 = set_heap h s.
Proof. unfold on_heap. destruct (m (heap s)) as [[a' h]|]; [|done]. intros [= <- <-]. by exists h. Qed.

(** Opens the heap run in [Hr]: its value [v], the heap [h] after it and the equation [E]. *)
Ltac run_heap Hr v h E :=
  match type of Hr with context [on_heap ?m ?s] =>
    let s1 := fresh "s1" in
    destruct (on_heap m s) as [[v s1]|] eqn:E; [|done];
    apply run_on_heap_inv in E as (h & E & ->)
  end.

#[export] Instance handler_pc_done_dec pc : Decision (pc = HDone).
Proof. destruct pc; (by left) || (by right). Defined.

Section server.
Context {P : Type} `{PickerLaws P} `{MapRange}.
Context (KeepalivePeriod : Z).
Abbreviation Server := (@Server P).

(** ** The server's books *)

(** From [trackClient(c, true)] to [trackClient(c, false)]. *)
Definition in_table (pc : handler_pc) : Prop :=
  match pc with HStart | HClosing | HFinished | HDone => False | _ => True end.
Definition client_closed (pc : handler_pc) : Prop := pc = HFinished ∨ pc = HDone.
(** The tracked backend connection a handler still has to close. *)
Definition holds (pc : handler_pc) (tc : loc) : Prop :=
  match pc with HPiping tc' _ _ | HPiped tc' => tc' = tc | _ => False end.

Definition undone (m : gmap loc handler) : gmap loc handler := filter (λ kv, h_pc kv.2 ≠ HDone) m.

Record books (s : Server) : Prop := {
  bk_wg : wg s = int_add (Z.of_nat (size (undone (handlers s)))) 0;
  bk_clients : ∀ c, c ∈ clientConns s ↔
    ∃ i x, handlers s !! i = Some x ∧ h_client x = c ∧ in_table (h_pc x);
  bk_inj : ∀ i j x y, handlers s !! i = Some x → handlers s !! j = Some y → h_client x = h_client y → i = j;
  bk_socket : ∀ i x, handlers s !! i = Some x → is_Some (h_conn (heap s) !! h_client x);
  bk_accepted : ∀ c, serve s = SAccepted c →
    is_Some (h_conn (heap s) !! c) ∧ ∀ i x, handlers s !! i = Some x → h_client x ≠ c;
  bk_closed : ∀ i x, handlers s !! i = Some x → client_closed (h_pc x) →
    ∃ nc, h_conn (heap s) !! h_client x = Some nc ∧ nc_closed nc = true;
  bk_open : ∀ tc t, h_tracked (heap s) !! tc = Some t → tc_once t = false →
    ∃ i x, handlers s !! i = Some x ∧ holds (h_pc x) tc
}.

Lemma int_add_assoc a b : int_add (int_add a 0) b = int_add (a + b) 0.
Proof.
  unfold int_add. f_equal. rewrite !Z.add_0_r.
  replace ((a + 2 ^ 63) `mod` 2 ^ 64 - 2 ^ 63 + b + 2 ^ 63) with ((a + 2 ^ 63) `mod` 2 ^ 64 + b) by lia.
  rewrite Zplus_mod_idemp_l. f_equal. lia.
Qed.

(** Nothing but the heap moves, and calmly. *)
Lemma books_heap s h : calmly (heap s) h → books s → books (set_heap h s).
Proof.
  intros [[_ G1 G2] G3] [B1 B2 B3 B4 B5 B6 B7]. split; simpl; try done.
  - intros i x Hx. destruct (B4 _ _ Hx) as [nc Hnc]. destruct (G1 _ _ Hnc) as (nc' & ? & _). by exists nc'.
  - intros c Hc. destruct (B5 _ Hc) as [[nc Hnc] ?]. split; [|done].
    destruct (G1 _ _ Hnc) as (nc' & ? & _). by exists nc'.
  - intros i x Hx Hpc. destruct (B6 _ _ Hx Hpc) as (nc & Hnc & Hcl).
    destruct (G1 _ _ Hnc) as (nc' & ? & ?). eauto.
  - intros tc t Ht Ho. destruct (G3 _ _ Ht Ho) as (t0 & ? & ?). eauto.
Qed.

(** The parts of the state the books do not read. *)
Lemma books_ext s s' :
  heap s' = heap s → clientConns s' = clientConns s → wg s' = wg s → handlers s' = handlers s →
  (serve s' = serve s ∨ ∀ c, serve s' ≠ SAccepted c) → books s → books s'.
Proof.
  intros Eh Ec Ew Em Es [B1 B2 B3 B4 B5 B6 B7]. split; rewrite ?Eh, ?Ec, ?Ew, ?Em; try done.
  intros c Hc. destruct Es as [Es|Es]; [rewrite Es in Hc; by apply B5|by apply Es in Hc].
Qed.

Lemma set_pc_lookup i pc (s : Server) j y :
  handlers (set_pc i pc s) !! j = Some y →
  ∃ x, handlers s !! j = Some x ∧ h_client y = h_client x ∧ h_pc y = if decide (j = i) then pc else h_pc x.
Proof.
  simpl. rewrite lookup_alter_Some. intros [(<- & x & Hx & ->)|[Hne Hx]].
  - exists x. by rewrite decide_True.
  - exists y. by rewrite decide_False.
Qed.

Lemma undone_alter i x pc (m : gmap loc handler) :
  m !! i = Some x → h_pc x ≠ HDone →
  size (undone m) = (size (undone (alter (λ x, mkHandler (h_client x) pc) i m)) +
                     (if decide (pc = HDone) then 1 else 0))%nat.
Proof.
  intros Hx Hpc. unfold undone.
  assert (alter (λ x, mkHandler (h_client x) pc) i m = <[i := mkHandler (h_client x) pc]> m) as ->.
  { apply map_eq. intros j. destruct (decide (i = j)) as [->|Hne].
    - by rewrite lookup_alter_eq, lookup_insert_eq, Hx.
    - by rewrite lookup_alter_ne, lookup_insert_ne. }
  assert (filter (λ kv, h_pc kv.2 ≠ HDone) m !! i = Some x) as Hf by (by apply map_lookup_filter_Some).
  case_decide as Hd.
  - rewrite map_filter_insert_False by (by simpl; intros []). rewrite map_filter_delete.
    rewrite map_size_delete_Some by done.
    assert (size (filter (λ kv, h_pc kv.2 ≠ HDone) m) ≠ 0%nat); [|lia].
    intros E%map_size_empty_inv. rewrite E in Hf. by rewrite lookup_empty in Hf.
  - rewrite map_filter_insert_True by done. rewrite map_size_insert_Some by done. lia.
Qed.

#[local] Instance in_table_dec pc : Decision (in_table pc).
Proof. destruct pc; simpl; apply _. Defined.

(** One handler moves to [pc]: what must hold of the heap and the books after it. *)
Lemma books_move s s' i x pc :
  books s → handlers s !! i = Some x → h_pc x ≠ HDone →
  handlers s' = alter (λ x, mkHandler (h_client x) pc) i (handlers s) →
  serve s' = serve s →
  clientConns s' = (if decide (in_table pc) then {[h_client x]} ∪ clientConns s
                    else clientConns s ∖ {[h_client x]}) →
  wg s' = (if decide (pc = HDone) then int_add (wg s) (-1) else wg s) →
  (∀ c nc, h_conn (heap s) !! c = Some nc →
     ∃ nc', h_conn (heap s') !! c = Some nc' ∧ (nc_closed nc = true → nc_closed nc' = true)) →
  (client_closed pc → ∃ nc, h_conn (heap s') !! h_client x = Some nc ∧ nc_closed nc = true) →
  (∀ tc t, h_tracked (heap s') !! tc = Some t → tc_once t = false →
     (∃ j y, j ≠ i ∧ handlers s !! j = Some y ∧ holds (h_pc y) tc) ∨ holds pc tc) →
  books s'.
Proof.
  intros [B1 B2 B3 B4 B5 B6 B7] Hx Hpc Hh Hs Hc Hw Hconn Hcl Hop.
  assert (∀ j y, handlers s' !! j = Some y → ∃ z, handlers s !! j = Some z ∧ h_client y = h_client z ∧
    h_pc y = if decide (j = i) then pc else h_pc z) as Hlk.
  { intros j y. rewrite Hh. apply (set_pc_lookup i pc s). }
  assert (handlers s' !! i = Some (mkHandler (h_client x) pc)) as Hi'.
  { by rewrite Hh, lookup_alter_eq, Hx. }
  assert (∀ j y, j ≠ i → handlers s !! j = Some y → handlers s' !! j = Some y) as Hj'.
  { intros j y Hne Hy. by rewrite Hh, lookup_alter_ne. }
  split.
  - rewrite Hw, Hh, B1. pose proof (undone_alter i x pc (handlers s) Hx Hpc) as E.
    case_decide; rewrite E.
    + rewrite int_add_assoc. f_equal. lia.
    + f_equal. lia.
  - intros c. rewrite Hc. split.
    + intros Hin.
      assert (c = h_client x ∧ in_table pc ∨ c ∈ clientConns s ∧ c ≠ h_client x) as [[-> Hin']|[Hin' Hne]].
      { clear -Hin. destruct (decide (in_table pc)) as [Hp|Hp].
        - apply elem_of_union in Hin as [->%elem_of_singleton|Hin]; [by left|].
          destruct (decide (c = h_client x)); [by left|by right].
        - apply elem_of_difference in Hin as [Hin Hn%not_elem_of_singleton]. by right. }
      * by exists i, (mkHandler (h_client x) pc).
      * apply B2 in Hin' as (j & y & Hy & <- & Ht). exists j, y. split_and!; [|done..].
        apply Hj'; [|done]. intros ->. congruence.
    + intros (j & y & Hy & <- & Ht). destruct (Hlk j y Hy) as (z & Hz & Ez & Ep). rewrite Ep in Ht. rewrite Ez.
      destruct (decide (j = i)) as [->|Hne].
      * replace z with x by congruence. rewrite decide_True by done.
        apply elem_of_union_l. by apply elem_of_singleton.
      * assert (h_client z ∈ clientConns s) as Hin by (apply B2; eauto).
        assert (h_client z ≠ h_client x) as Hnx by (intros E; apply Hne; by eapply B3).
        clear -Hin Hnx. case_decide; [by apply elem_of_union_r|].
        apply elem_of_difference. by rewrite not_elem_of_singleton.
  - intros j k y z Hy Hz E. destruct (Hlk j y Hy) as (y' & Hy' & Ey & _), (Hlk k z Hz) as (z' & Hz' & Ez & _).
    eapply B3; [done..|congruence].
  - intros j y Hy. destruct (Hlk j y Hy) as (z & Hz & Ez & _). rewrite Ez.
    destruct (B4 _ _ Hz) as [nc Hnc]. destruct (Hconn _ _ Hnc) as (nc' & ? & _). by exists nc'.
  - intros c Ha. rewrite Hs in Ha. destruct (B5 _ Ha) as [[nc Hnc] Hne]. split.
    + destruct (Hconn _ _ Hnc) as (nc' & ? & _). by exists nc'.
    + intros j y Hy. destruct (Hlk j y Hy) as (z & Hz & Ez & _). rewrite Ez. by eapply Hne.
  - intros j y Hy Hp. destruct (Hlk j y Hy) as (z & Hz & Ez & Ep). rewrite Ez. rewrite Ep in Hp.
    destruct (decide (j = i)) as [->|Hne]; [replace z with x by congruence; by apply Hcl|].
    destruct (B6 _ _ Hz Hp) as (nc & Hnc & Hnc'). destruct (Hconn _ _ Hnc) as (nc' & ? & ?). eauto.
  - intros tc t Ht Ho. destruct (Hop tc t Ht Ho) as [(j & y & Hne & Hy & Hh')|Hh'].
    + exists j, y. auto.
    + by exists i, (mkHandler (h_client x) pc).
Qed.

(** A handler in the table is already there, one outside is not. *)
Lemma clients_in s i x : books s → handlers s !! i = Some x → in_table (h_pc x) →
  clientConns s = {[h_client x]} ∪ clientConns s.
Proof.
  intros Hb Hx Ht. assert (h_client x ∈ clientConns s) as Hm by (apply (bk_clients _ Hb); eauto).
  clear -Hm. apply leibniz_equiv. set_solver.
Qed.
Lemma clients_out s i x : books s → handlers s !! i = Some x → ¬ in_table (h_pc x) →
  clientConns s = clientConns s ∖ {[h_client x]}.
Proof.
  intros Hb Hx Ht. assert (h_client x ∉ clientConns s) as Hm; [|clear -Hm; apply leibniz_equiv; set_solver].
  intros (j & y & Hy & E & Hy')%(bk_clients _ Hb). assert (j = i) as -> by (by eapply (bk_inj _ Hb)).
  apply Ht. congruence.
Qed.

(** The same for a calm move that holds no more and no less. *)
Lemma books_calm s s' i x pc :
  books s → handlers s !! i = Some x → h_pc x ≠ HDone →
  handlers s' = alter (λ x, mkHandler (h_client x) pc) i (handlers s) →
  serve s' = serve s → clientConns s' = clientConns s → wg s' = wg s → calmly (heap s) (heap s') →
  (in_table pc ↔ in_table (h_pc x)) → pc ≠ HDone → (client_closed pc → client_closed (h_pc x)) →
  (∀ tc, holds (h_pc x) tc → holds pc tc) → books s'.
Proof.
  intros Hb Hx Hpc Hh Hs Hc Hw [[_ G1 G2] G3] Ht Hd Hcl Hho.
  apply (books_move s s' i x pc); try done.
  - rewrite Hc. case_decide; [apply (clients_in s i x)|apply (clients_out s i x)]; tauto.
  - by rewrite decide_False.
  - intros Hp. destruct (bk_closed _ Hb _ _ Hx (Hcl Hp)) as (nc & Hnc & Hnc').
    destruct (G1 _ _ Hnc) as (nc' & ? & ?). eauto.
  - intros tc t Ht' Ho. destruct (G3 _ _ Ht' Ho) as (t0 & Ht0 & Ho0).
    destruct (bk_open _ Hb _ _ Ht0 Ho0) as (j & y & Hy & Hh').
    destruct (decide (j = i)) as [->|Hne]; [right; apply Hho; congruence|left; eauto].
Qed.

(** [configureKeepalive] touches nothing the invariants read. *)
Lemma configureKeepalive_inv c (s s1 : Server) : configureKeepalive KeepalivePeriod c s = Some s1 →
  heap s1 = heap s ∧ clientConns s1 = clientConns s ∧ wg s1 = wg s ∧ handlers s1 = handlers s ∧
  serve s1 = serve s ∧ pool s1 = pool s ∧ shutdown s1 = shutdown s.
Proof.
  unfold configureKeepalive. destruct (h_conn (heap s) !! c) as [nc|]; [|done]. simpl.
  destruct (negb _); by intros [= <-].
Qed.

(** The open tracked connections while handler [i] moves. *)
Lemma books_open_others s i x tc t h :
  books s → handlers s !! i = Some x → calmly (heap s) h →
  h_tracked h !! tc = Some t → tc_once t = false →
  (∃ j y, j ≠ i ∧ handlers s !! j = Some y ∧ holds (h_pc y) tc) ∨ holds (h_pc x) tc.
Proof.
  intros Hb Hx [_ G3] Ht Ho. destruct (G3 _ _ Ht Ho) as (t0 & Ht0 & Ho0).
  destruct (bk_open _ Hb _ _ Ht0 Ho0) as (j & y & Hy & Hh).
  destruct (decide (j = i)) as [->|Hne]; [right; congruence|left; eauto].
Qed.

(** ** Pointers

    What a handler still dereferences is allocated. *)
Definition pc_safe (h : Heap) (pc : handler_pc) : Prop :=
  match pc with
  | HFiltering all todo hs => Forall (allocated h) (all ++ todo ++ hs)
  | HDialing cs => Forall (allocated h) cs
  | HDialed b conn => allocated h b ∧ is_Some (h_conn h !! conn)
  | HPiping tc _ _ | HPiped tc => is_Some (h_tracked h !! tc)
  | _ => True
  end.

Record safe (s : Server) : Prop := {
  sf_heap : wf_heap (heap s);
  sf_pool : Forall (allocated (heap s)) (backends (pool s));
  sf_pc : ∀ i x, handlers s !! i = Some x → pc_safe (heap s) (h_pc x)
}.

Lemma allocated_mono h h' ls : grows h h' → Forall (allocated h) ls → Forall (allocated h') ls.
Proof. intros Hg Hl. eapply Forall_impl; [done|]. intros l. by apply gr_allocated. Qed.

Lemma pc_safe_mono h h' pc : grows h h' → pc_safe h pc → pc_safe h' pc.
Proof.
  intros Hg. destruct pc; simpl; try done.
  - by apply allocated_mono.
  - by apply allocated_mono.
  - intros [Hb [nc Hc]]. split; [by eapply gr_allocated|].
    destruct (gr_conn _ _ Hg _ _ Hc) as (nc' & ? & _). by exists nc'.
  - intros [t Ht]. destruct (gr_once _ _ Hg _ _ Ht) as (t' & ? & _). by exists t'.
  - intros [t Ht]. destruct (gr_once _ _ Hg _ _ Ht) as (t' & ? & _). by exists t'.
Qed.

Lemma safe_move s s' i pc :
  safe s → handlers s' = alter (λ x, mkHandler (h_client x) pc) i (handlers s) →
  grows (heap s) (heap s') → wf_heap (heap s') → backends (pool s') = backends (pool s) →
  pc_safe (heap s') pc → safe s'.
Proof.
  intros [S1 S2 S3] Hh Hg Hwf Hp Hpc. split; [done|rewrite Hp; by eapply allocated_mono|].
  intros j y. rewrite Hh. intros Hy. apply (set_pc_lookup i pc s) in Hy as (x & Hx & _ & ->).
  case_decide; [done|]. eapply pc_safe_mono; [done|]. by eapply S3.
Qed.

Lemma safe_tame s s' : safe s → handlers s' = handlers s → pool s' = pool s → tame (heap s) (heap s') → safe s'.
Proof.
  intros [S1 S2 S3] Hh Hp [[Hg _] Hwf]. split; rewrite ?Hh, ?Hp; [by apply Hwf|by eapply allocated_mono|].
  intros i x Hx. eapply pc_safe_mono; [done|]. by eapply S3.
Qed.

(** [Candidates], [SetAddrs] and the parts of [Candidates] return backends that exist. *)
Lemma add_healthy_inv hs b h hs' h' : add_healthy hs b h = Some (hs', h') →
  h' = h ∧ (hs' = hs ∨ hs' = hs ++ [b]).
Proof.
  intros (ok & h1 & (bk & h2 & Hb & Hr1)%runs_bind_inv & Hr)%runs_bind_inv.
  unfold runs, load_backend, deref in Hb. destruct (h_backend h !! b) as [bk0|]; [|done]. injection Hb as <- <-.
  injection Hr1 as <- <-. injection Hr as <- <-. split; [done|]. destruct (healthy bk0); auto.
Qed.

Lemma order_healthy_inv (p : Pool P) all hs h p' cs dg h' : Forall (allocated h) hs →
  order_healthy p all hs h = Some (p', (cs, dg), h') →
  h' = h ∧ backends p' = backends p ∧ (cs ≡ₚ all ∨ cs ≡ₚ hs).
Proof.
  intros Hall Hr. destruct (order_healthy_runs p all hs h Hall) as (p2 & out & d2 & Hr2 & Hb & _ & Hperm & _).
  unfold runs in Hr2. rewrite Hr2 in Hr. injection Hr as <- <- <- <-. split_and!; [done..|].
  destruct d2; auto.
Qed.

Lemma Candidates_inv (p : Pool P) h p' cs dg h' : Forall (allocated h) (backends p) →
  Candidates p h = Some (p', (cs, dg), h') →
  h' = h ∧ backends p' = backends p ∧ Forall (allocated h) cs.
Proof.
  intros Hall Hr. destruct (Candidates_runs p h Hall) as (p2 & out & d2 & Hr2 & Hb & _ & Hperm & _).
  unfold runs in Hr2. rewrite Hr2 in Hr. injection Hr as <- <- <- <-. split_and!; [done..|].
  rewrite Hperm. destruct d2; [done|]. by apply healthy_of_allocated.
Qed.

Lemma for_fold_inv {A B} (I : B → Heap → Prop) (f : B → A → prog Heap B) l b h b' h' :
  I b h → (∀ x c t c' t', I c t → f c x t = Some (c', t') → I c' t') →
  for_fold f b l h = Some (b', h') → I b' h'.
Proof.
  intros Hi0 Hf. revert b h Hi0. induction l as [|x l IH]; intros b h Hi Hr; [by injection Hr as <- <-|].
  apply runs_bind_inv in Hr as (c & t & Hr1 & Hr2). eapply IH; [|exact Hr2]. by eapply Hf.
Qed.

Lemma Addr_inv l h a h' : Addr l h = Some (a, h') → h' = h ∧ allocated h l.
Proof.
  intros (b & h1 & Hb & Hr)%runs_bind_inv. unfold runs, load_backend, deref in Hb. unfold allocated.
  destruct (h_backend h !! l); [|done]. injection Hb as <- <-. by injection Hr as _ <-.
Qed.

Lemma SetAddrs_inv (p : Pool P) addrs h p' r h' :
  SetAddrs p addrs h = Some (p', r, h') → Forall (allocated h') (backends p').
Proof.
  intros (m & h1 & Hm & Hr)%runs_bind_inv.
  apply (for_fold_inv (λ m t, map_Forall (λ _ l, allocated t l) m)) in Hm; [|done|].
  2:{ intros l m0 t m' t' Hm0 (a & t2 & [-> Hl]%Addr_inv & [= <- <-])%runs_bind_inv.
      by apply map_Forall_insert_2. }
  apply runs_bind_inv in Hr as ([[nxt added] keep] & h2 & Hn & Hr).
  apply (for_fold_inv (λ '(nxt, _, _) t, map_Forall (λ _ l, allocated t l) m ∧ Forall (allocated t) nxt)) in Hn as [_ Hn];
    [|by split|].
  2:{ intros a [[n0 a0] k0] t [[n1 a1] k1] t' [Hm0 Hn0] ([n2 a2] & t2 & Hr1 & [= <- <- <- <-])%runs_bind_inv.
      destruct (m !! a) as [l|] eqn:Hl; [injection Hr1 as <- <- <-; split; [done|]|].
      - apply Forall_app. split; [done|]. constructor; [by eapply Hm0|done].
      - apply runs_bind_inv in Hr1 as (l & t3 & Hl' & [= <- <- <-]).
        pose proof (λ l, gr_allocated _ _ l (cm_grows _ _ (tm_calm _ _ (tame_alloc_backend a _ _ _ Hl')))) as Hg.
        injection Hl' as <- <-. split; [by eapply map_Forall_impl; [done|]; intros ??; apply Hg|].
        apply Forall_app. split; [by eapply Forall_impl|]. constructor; [|done].
        unfold allocated. simpl. by rewrite lookup_insert_eq. }
  apply runs_bind_inv in Hr as (rm & h3 & Hrm & [= <- <- <-]). simpl.
  apply (for_fold_inv (λ _ t, t = h2)) in Hrm as ->; [done|done|].
  by intros x c t c' t' -> (a & t2 & [-> _]%Addr_inv & [= <- <-])%runs_bind_inv.
Qed.

Lemma Track_safe l c h tc h' : wf_heap h → allocated h l → is_Some (h_conn h !! c) →
  Track l c h = Some (tc, h') → wf_heap h' ∧ grows h h' ∧ h_tracked h' = <[tc := mkTracked c l false]> (h_tracked h).
Proof.
  intros Hwf [b Hb] [nc Hc] Hr. rewrite (Track_runs l c h b Hb) in Hr. injection Hr as <- <-.
  split_and!; [by eapply track_heap_wf| |done]. split; simpl; [|by eauto|].
  - intros l' b' Hl'. rewrite lookup_alter. case_decide; subst; rewrite Hl'; simpl; eauto.
  - intros tc t Ht. exists t. split; [|done]. by apply insert_fresh_mono.
Qed.

(** ** Every step keeps both *)

#[local] Opaque on_heap signal_end Close conn_Close.

(** The handler at hand moves to [pc] without opening or closing anything it holds. *)
Ltac calm_move Hb Hx pc :=
  apply (books_calm _ _ _ _ pc Hb Hx); simpl; try done; try (by intros []); try (by intros [|]).

(** The actions that open, close, register and forget nothing. *)
Definition calm_action (a : action) : bool :=
  match a with ATrack | ATrackConn | ACloseBackend | AUntrack | ACloseClient | ADone => false | _ => true end.

Lemma calm_step_books i x a (s s' : Server) : calm_action a = true →
  handlers s !! i = Some x → books s → safe s → handler_step KeepalivePeriod i x a s = Some s' → books s'.
Proof.
  intros Hca Hx Hb Hs Hr. pose proof (sf_pc _ Hs _ _ Hx) as Hpc. destruct x as [c pc].
  destruct a as [| | | |ok| | |d|d| | | | |]; try done; clear Hca;
    destruct pc as [| |all todo hs|todo|b conn|tc u w|tc| | | |]; simpl in Hr; try done; try (by destruct d).
  - (* ACandidates *)
    injection Hr as <-. calm_move Hb Hx (HFiltering (Backends (pool s)) (Backends (pool s)) []).
  - (* AHealthy *)
    destruct todo as [|b todo]; [done|]. run_heap Hr hs' h E. injection Hr as <-.
    apply add_healthy_inv in E as [-> _]. calm_move Hb Hx (HFiltering all todo hs').
  - (* AOrder *)
    destruct todo; [|done]. run_heap Hr v h E. destruct v as [p' [cs dg]]. injection Hr as <-.
    apply order_healthy_inv in E as (-> & _ & _); [|by apply Forall_app in Hpc as [_ Hpc]].
    calm_move Hb Hx (HDialing cs).
  - (* ADial *)
    destruct todo as [|b cs]; [done|]. destruct ok; run_heap Hr v h E.
    + simpl in Hr. destruct (configureKeepalive _ _ _) as [s2|] eqn:E2; [|done].
      injection Hr as <-. apply configureKeepalive_inv in E2 as (E1 & E2 & E3 & E4 & E5 & _). simpl in *.
      calm_move Hb Hx (HDialed b v); rewrite ?E1, ?E2, ?E3, ?E4, ?E5; try done.
      by apply (tm_calm _ _ (tame_alloc_conn true _ _ _ E)).
    + injection Hr as <-. calm_move Hb Hx (HDialing cs). by apply (calm_dial_failed _ _ _ _ E).
  - (* AGiveUp *)
    destruct todo; [|done]. injection Hr as <-. calm_move Hb Hx HUntrack.
  - (* ACopyEnd *)
    destruct d, u, w; try done; injection Hr as <-;
      [calm_move Hb Hx (HPiping tc CopyEnded Copying)|calm_move Hb Hx (HPiping tc CopyEnded CopyEnded)|
       calm_move Hb Hx (HPiping tc CopyEnded CopyOver)|calm_move Hb Hx (HPiping tc Copying CopyEnded)|
       calm_move Hb Hx (HPiping tc CopyEnded CopyEnded)|calm_move Hb Hx (HPiping tc CopyOver CopyEnded)].
  - (* ASignal *)
    destruct d, u, w; try done; run_heap Hr v h E; injection Hr as <-;
      apply tame_signal_end, tm_calm in E;
      [calm_move Hb Hx (HPiping tc CopyOver Copying)|calm_move Hb Hx (HPiping tc CopyOver CopyEnded)|
       calm_move Hb Hx (HPiping tc CopyOver CopyOver)|calm_move Hb Hx (HPiping tc Copying CopyOver)|
       calm_move Hb Hx (HPiping tc CopyEnded CopyOver)|calm_move Hb Hx (HPiping tc CopyOver CopyOver)].
  - (* APipeDone *)
    destruct u, w; try done. injection Hr as <-. calm_move Hb Hx (HPiped tc).
Qed.

Lemma handler_step_books i x a (s s' : Server) :
  handlers s !! i = Some x → books s → safe s → handler_step KeepalivePeriod i x a s = Some s' → books s'.
Proof.
  intros Hx Hb Hs Hr. destruct (calm_action a) eqn:Hca; [by eapply calm_step_books|].
  assert (∀ tc t, h_tracked (heap s) !! tc = Some t → tc_once t = false → (∀ tc, ¬ holds (h_pc x) tc) →
    ∃ j y, j ≠ i ∧ handlers s !! j = Some y ∧ holds (h_pc y) tc) as Hop.
  { intros tc t Ht Ho Hn. destruct (books_open_others s i _ tc t _ Hb Hx (reflexivity _) Ht Ho) as [?|Hh]; [done|].
    by destruct (Hn tc). }
  destruct x as [c pc]. destruct a; try done; clear Hca;
    destruct pc as [| |all todo hs|todo|b conn|tc u w|tc| | | |]; simpl in Hr; try done.
  - (* ATrack *)
    destruct (configureKeepalive _ _ _) as [s1|] eqn:E; [|done]. injection Hr as <-.
    apply configureKeepalive_inv in E as (E1 & E2 & E3 & E4 & E5 & _). simpl in *.
    apply (books_move s _ i _ HTracked Hb Hx); simpl; rewrite ?E1, ?E2, ?E3, ?E4, ?E5; try done.
    + intros ? nc ?. by exists nc.
    + by intros [?|?].
    + intros tc t Ht Ho. left. by eapply Hop; [..|intros ? []].
  - (* ATrackConn *)
    run_heap Hr v h E. injection Hr as <-. pose proof (sf_pc _ Hs _ _ Hx) as [Hbk Hcn].
    apply Track_safe in E as (_ & Hg & Ht); [|apply Hs|done..].
    apply (books_move s _ i _ (HPiping v Copying Copying) Hb Hx); simpl; try done.
    + by apply (clients_in s i _ Hb Hx).
    + apply (gr_conn _ _ Hg).
    + by intros [|].
    + intros tc t. rewrite Ht, lookup_insert_Some. intros [[-> _]|[_ Ht0]] Ho; [by right|].
      destruct (books_open_others s i _ tc t _ Hb Hx (reflexivity _) Ht0 Ho) as [?|[]]. by left.
  - (* ACloseBackend *)
    run_heap Hr v h E. injection Hr as <-.
    pose proof (tm_calm _ _ (tame_Close _ _ _ _ E)) as Hc.
    apply (books_move s _ i _ HUntrack Hb Hx); simpl; try done.
    + by apply (clients_in s i _ Hb Hx).
    + apply (gr_conn _ _ (cm_grows _ _ Hc)).
    + by intros [|].
    + intros tc' t Ht Ho. left.
      destruct (books_open_others s i _ tc' t _ Hb Hx Hc Ht Ho) as [?|Heq]; [done|]. simpl in Heq. subst tc'.
      destruct (Close_once _ _ _ _ E) as (t' & ? & ?). congruence.
  - (* AUntrack *)
    injection Hr as <-. apply (books_move s _ i _ HClosing Hb Hx); simpl; try done.
    + intros ? nc ?. by exists nc.
    + by intros [|].
    + intros tc t Ht Ho. left. by eapply Hop; [..|intros ? []].
  - (* ACloseClient *)
    run_heap Hr v h E. injection Hr as <-.
    pose proof (tm_calm _ _ (tame_conn_Close _ _ _ _ E)) as Hc.
    apply (books_move s _ i _ HFinished Hb Hx); simpl; try done.
    + apply (clients_out s i _ Hb Hx). by intros [].
    + apply (gr_conn _ _ (cm_grows _ _ Hc)).
    + intros _. by eapply conn_Close_closed.
    + intros tc t Ht Ho. destruct (books_open_others s i _ tc t _ Hb Hx Hc Ht Ho) as [?|[]]. by left.
  - (* ADone *)
    injection Hr as <-. apply (books_move s _ i _ HDone Hb Hx); simpl; try done.
    + apply (clients_out s i _ Hb Hx). by intros [].
    + intros ? nc ?. by exists nc.
    + intros _. apply (bk_closed _ Hb _ _ Hx). by left.
    + intros tc t Ht Ho. left. by eapply Hop; [..|intros ? []].
Qed.

(** The handler moves to [pc] by a run with effect [Ht] on the heap, or by none. *)
Lemma safe_run s s' h i pc :
  safe s → tame (heap s) h → handlers s' = alter (λ x, mkHandler (h_client x) pc) i (handlers s) →
  heap s' = h → backends (pool s') = backends (pool s) → pc_safe h pc → safe s'.
Proof.
  intros Hs [[Hg _] Hwf] Hh <- Hp Hpc. eapply safe_move; [done..| |done|done]. apply Hwf, Hs.
Qed.

Lemma handler_step_safe i x a (s s' : Server) :
  handlers s !! i = Some x → safe s → handler_step KeepalivePeriod i x a s = Some s' → safe s'.
Proof.
  intros Hx Hs Hr. pose proof (sf_pc _ Hs _ _ Hx) as Hpc. destruct x as [c pc].
  destruct a as [| | | |ok| | |d|d| | | | |], pc as [| |all todo hs|todo|b conn|tc u w|tc| | | |]; simpl in Hr, Hpc;
    try done; try (by destruct d).
  - destruct (configureKeepalive _ _ _) as [s1|] eqn:E; [|done]. injection Hr as <-.
    apply configureKeepalive_inv in E as (E1 & E2 & E3 & E4 & E5 & E6 & _).
    apply (safe_run s _ _ i HTracked Hs (reflexivity _)); simpl; by rewrite ?E1, ?E4, ?E6.
  - injection Hr as <-. apply (safe_run s _ _ i _ Hs (reflexivity _) (reflexivity _)); [done..|]. simpl.
    rewrite app_nil_r. apply Forall_app. split; apply Hs.
  - destruct todo as [|b todo]; [done|]. run_heap Hr hs' h E. injection Hr as <-.
    apply add_healthy_inv in E as [-> Hhs]. apply (safe_run s _ _ i _ Hs (reflexivity _) (reflexivity _)); [done..|]. simpl.
    revert Hpc. rewrite !Forall_app, Forall_cons. destruct Hhs as [-> | ->]; rewrite ?Forall_app, ?Forall_singleton; tauto.
  - destruct todo; [|done]. run_heap Hr v h E. destruct v as [p' [cs dg]]. injection Hr as <-.
    apply Forall_app in Hpc as [Hall Hhs]. apply order_healthy_inv in E as (-> & Hb & Hcs); [|done].
    apply (safe_run s _ _ i (HDialing cs) Hs (reflexivity _)); [done..|]. simpl. by destruct Hcs as [-> | ->].
  - destruct todo as [|b cs]; [done|]. apply Forall_cons in Hpc as [Hb Hcs].
    destruct ok; run_heap Hr v h E.
    + simpl in Hr. destruct (configureKeepalive _ _ _) as [s2|] eqn:E2; [|done].
      injection Hr as <-. apply configureKeepalive_inv in E2 as (E1 & E2 & E3 & E4 & E5 & E6 & _). simpl in *.
      pose proof (tame_alloc_conn true _ _ _ E) as Ht.
      apply (safe_run s _ _ i (HDialed b v) Hs Ht); simpl; rewrite ?E1, ?E4, ?E6; try done.
      split; [by apply (gr_allocated _ _ _ (cm_grows _ _ (tm_calm _ _ Ht)))|].
      injection E as <- <-. simpl. by rewrite lookup_insert_eq.
    + injection Hr as <-.
      pose proof (tame_dial_failed b _ _ _ E) as Ht.
      apply (safe_run s _ _ i (HDialing cs) Hs Ht); try done. simpl.
      by apply (allocated_mono _ _ _ (cm_grows _ _ (tm_calm _ _ Ht))).
  - destruct todo; [|done]. injection Hr as <-. by apply (safe_run s _ _ i HUntrack Hs (reflexivity _)).
  - destruct Hpc as [Hb Hc]. run_heap Hr v h E. injection Hr as <-.
    apply Track_safe in E as (Hwf & Hg & Ht); [|apply Hs|done..].
    apply (safe_move s _ i (HPiping v Copying Copying) Hs); try done. simpl. by rewrite Ht, lookup_insert_eq.
  - destruct d, u, w; try done; injection Hr as <-; by eapply (safe_run s _ _ i _ Hs (reflexivity _)).
  - destruct d, u, w; try done; run_heap Hr v h E; injection Hr as <-; apply tame_signal_end in E;
      (eapply (safe_run s _ _ i _ Hs E); [done..|]);
      by apply (pc_safe_mono _ _ (HPiped tc) (cm_grows _ _ (tm_calm _ _ E))).
  - destruct u, w; try done. injection Hr as <-. by eapply (safe_run s _ _ i _ Hs (reflexivity _)).
  - run_heap Hr v h E. injection Hr as <-. apply tame_Close in E. by eapply (safe_run s _ _ i _ Hs E).
  - injection Hr as <-. by eapply (safe_run s _ _ i _ Hs (reflexivity _)).
  - run_heap Hr v h E. injection Hr as <-. apply tame_conn_Close in E. by eapply (safe_run s _ _ i _ Hs E).
  - injection Hr as <-. by eapply (safe_run s _ _ i _ Hs (reflexivity _)).
Qed.

(** The other goroutines: an accepted client becomes a handler, ... *)
Lemma spawn_books s c : books s → serve s = SAccepted c →
  books (set_serve SAccepting (set_handlers (<[fresh_loc (handlers s) := mkHandler c HStart]> (handlers s))
          (set_wg (int_add (wg s) 1) s))).
Proof.
  intros [B1 B2 B3 B4 B5 B6 B7] Ha. destruct (B5 c Ha) as [Hcs Hcn].
  set (i := fresh_loc (handlers s)).
  assert (handlers s !! i = None) as Hi by apply fresh_loc_None.
  assert (∀ j y, <[i := mkHandler c HStart]> (handlers s) !! j = Some y →
    (j = i ∧ y = mkHandler c HStart) ∨ j ≠ i ∧ handlers s !! j = Some y) as Hlk.
  { intros j y [[<- <-]|[Hne Hy]]%lookup_insert_Some; auto. }
  assert (∀ j y, handlers s !! j = Some y → <[i := mkHandler c HStart]> (handlers s) !! j = Some y) as Hold.
  { intros j y Hy. rewrite lookup_insert_ne; [done|congruence]. }
  split; simpl.
  - rewrite B1. unfold undone. rewrite map_filter_insert_True by done.
    rewrite map_size_insert_None by (apply map_lookup_filter_None; by left).
    rewrite int_add_assoc. f_equal. lia.
  - intros c'. rewrite B2. split.
    + intros (j & y & Hy & ?). exists j, y. auto.
    + intros (j & y & [[-> ->]|[Hne Hy]]%Hlk & Hc' & Ht); [done|eauto].
  - intros j k y z [[-> ->]|[Hj Hy]]%Hlk [[-> ->]|[Hk Hz]]%Hlk E; simpl in *; try done.
    + exfalso. by eapply Hcn.
    + exfalso. by eapply Hcn.
    + by eapply B3.
  - intros j y [[-> ->]|[Hj Hy]]%Hlk; eauto.
  - done.
  - intros j y [[-> ->]|[Hj Hy]]%Hlk Hcl; [by destruct Hcl|eauto].
  - intros tc t Ht Ho. destruct (B7 _ _ Ht Ho) as (j & y & Hy & Hh). exists j, y. auto.
Qed.

Lemma spawn_safe s c : safe s →
  safe (set_serve SAccepting (set_handlers (<[fresh_loc (handlers s) := mkHandler c HStart]> (handlers s))
         (set_wg (int_add (wg s) 1) s))).
Proof. intros [S1 S2 S3]. split; simpl; [done..|]. by intros j y [[<- <-]|[Hne Hy]]%lookup_insert_Some; eauto. Qed.

(** ... and a client is accepted. *)
Lemma accept_books s c h : books s → alloc_conn true (heap s) = Some (c, h) →
  books (set_serve (SAccepted c) (set_heap h s)).
Proof.
  intros Hb E. pose proof (tm_calm _ _ (tame_alloc_conn true _ _ _ E)) as Hc.
  destruct (books_heap s h Hc Hb) as [B1 B2 B3 B4 B5 B6 B7]. split; try done. simpl.
  intros c' [= <-]. injection E as <- <-. split; [simpl; by rewrite lookup_insert_eq|].
  intros i x Hx Ec. destruct (bk_socket _ Hb _ _ Hx) as [nc Hnc]. by rewrite Ec, fresh_loc_None in Hnc.
Qed.

Record inv (s : Server) : Prop := { inv_books : books s; inv_safe : safe s }.

(** A run on the heap of any other goroutine. *)
Lemma inv_tame s s' : inv s → tame (heap s) (heap s') → clientConns s' = clientConns s → wg s' = wg s →
  handlers s' = handlers s → pool s' = pool s → (serve s' = serve s ∨ ∀ c, serve s' ≠ SAccepted c) → inv s'.
Proof.
  intros [Hb Hs] Ht Ec Ew Em Ep Es. split; [|by eapply safe_tame].
  by apply (books_ext (set_heap (heap s') s)); [..|apply books_heap; [apply Ht|done]].
Qed.

Ltac inv_step Hi E := eapply (inv_tame _ _ Hi); simpl; [first [exact E|reflexivity]|done..|by auto].

Lemma step_inv s s' : step KeepalivePeriod s s' → inv s → inv s'.
Proof.
  intros [l Hr] Hi. destruct l; simpl in Hr.
  - destruct (serve s); try done. injection Hr as <-. inv_step Hi I.
  - destruct (serve s) as [|[]| | | |]; try done; injection Hr as <-; inv_step Hi I.
  - destruct (serve s); try done. destruct (ln_closed s); [done|]. run_heap Hr c h E. injection Hr as <-.
    destruct Hi as [Hb Hs]. split; [by apply accept_books|].
    apply tame_alloc_conn in E. by eapply (safe_tame s).
  - destruct (serve s); try done. injection Hr as <-. inv_step Hi I.
  - destruct (serve s); try done. injection Hr as <-. inv_step Hi I.
  - destruct (serve s) eqn:E; try done. injection Hr as <-. destruct Hi as [Hb Hs].
    split; [by apply spawn_books|by apply spawn_safe].
  - destruct (shutdown s); try done. injection Hr as <-. inv_step Hi I.
  - destruct (shutdown s) as [|[]| | |]; try done; injection Hr as <-; inv_step Hi I.
  - destruct (shutdown s); try done; destruct (wg s =? 0); try done; injection Hr as <-; inv_step Hi I.
  - destruct (shutdown s); try done; destruct (done s); try done; injection Hr as <-; inv_step Hi I.
  - destruct (shutdown s); try done. destruct (expired s); [|done]. run_heap Hr u h E. injection Hr as <-.
    apply tame_close_clients in E. inv_step Hi E.
  - destruct (handlers s !! i) as [x|] eqn:Hx; [|done]. simpl in Hr. destruct Hi as [Hb Hs].
    split; [by eapply handler_step_books|by eapply handler_step_safe].
  - injection Hr as <-. inv_step Hi I.
  - run_heap Hr u h E. injection Hr as <-. apply tame_ReportHealth in E. inv_step Hi E.
  - run_heap Hr u h E. injection Hr as <-. apply tame_close_one in E. inv_step Hi E.
  - run_heap Hr u h E. injection Hr as <-. apply tame_count_drained in E. inv_step Hi E.
  - run_heap Hr v h E. destruct v as [p' r]. injection Hr as <-.
    destruct Hi as [Hb [S1 S2 S3]]. apply order_healthy_reads in E as [-> Hp]. split.
    + apply (books_ext s); auto.
    + split; simpl; [done|by rewrite Hp|done].
  - run_heap Hr v h E. destruct v as [p' r]. injection Hr as <-. pose proof (SetAddrs_inv _ _ _ _ _ _ E) as Hp.
    apply tame_SetAddrs in E. destruct Hi as [Hb Hs]. split.
    + apply (books_ext (set_heap h s)); try done; [by left|]. apply books_heap; [apply E|done].
    + destruct (safe_tame s (set_heap h s) Hs) as [S1 S2 S3]; [done..|]. by split.
Qed.

(** What the caller of [New] provides: a pool of existing backends, a heap without
    open tracked connections. *)
Record ready (h : Heap) (p : Pool P) : Prop := {
  rd_heap : wf_heap h;
  rd_pool : Forall (allocated h) (backends p);
  rd_open : ∀ tc t, h_tracked h !! tc = Some t → tc_once t = true
}.

Lemma reachable_inv h p s : ready h p → reachable KeepalivePeriod h p s → inv s.
Proof.
  intros [R1 R2 R3] Hr.
  assert (inv (New h p)) as Hi.
  { split; split; simpl; try done.
    - intros c. split; [set_solver|]. intros (i & x & Hx & _). by rewrite lookup_empty in Hx.
    - intros tc t Ht. rewrite (R3 _ _ Ht). done. }
  unfold reachable in Hr. induction Hr as [s|s1 s2 s3 Hstep Hr IH]; [done|]. apply IH. by eapply step_inv.
Qed.
End server.
