(* ===== verification/ProxyProps.v ===== *)
(** What the proxy server promises, from the invariants of ProxyFacts.v. *)
From S2P Require Import Prelude Backend Pool Proxy ProxyFacts.

Section server.
Context {P : Type} `{PickerLaws P} `{MapRange}.
Context (KeepalivePeriod : Z).
Abbreviation Server := (@Server P).
Abbreviation step := (step (P:=P) KeepalivePeriod).
Abbreviation reachable := (reachable (P:=P) KeepalivePeriod).

(** ** No leak *)

Definition all_done (s : Server) : Prop := ∀ i x, handlers s !! i = Some x → h_pc x = HDone.

Lemma undone_empty (m : gmap loc handler) :
  (∀ i x, m !! i = Some x → h_pc x = HDone) ↔ size (undone m) = 0%nat.
Proof.
  rewrite map_size_empty_iff. unfold undone. split.
  - intros Hd. apply map_empty. intros i. apply map_lookup_filter_None. right. intros x Hx. simpl.
    rewrite (Hd _ _ Hx). by intros [].
  - intros Hd i x Hx. destruct (decide (h_pc x = HDone)) as [|Hne]; [done|].
    assert (filter (λ kv, h_pc kv.2 ≠ HDone) m !! i = Some x) as Hf by (by apply map_lookup_filter_Some).
    by rewrite Hd, lookup_empty in Hf.
Qed.

Lemma books_open_conns (s : Server) l b tc : inv s → h_backend (heap s) !! l = Some b → tc ∈ conns b →
  ∃ i x, handlers s !! i = Some x ∧ holds (h_pc x) tc.
Proof.
  intros [Hb Hs] Hl Htc. apply (wf_conns _ (sf_heap _ Hs) _ _ _ Hl) in Htc as (t & Ht & _ & Ho).
  by eapply (bk_open _ Hb).
Qed.


(** ** Every handler returns *)

Definition copies_left (pc : copy_pc) : nat := match pc with Copying => 2 | CopyEnded => 1 | CopyOver => 0 end.

(** How many more actions of its own a handler can take, at most. *)
Definition actions_left (backends : nat) (pc : handler_pc) : nat :=
  match pc with
  | HStart => 14 + 2 * backends | HTracked => 13 + 2 * backends
  | HFiltering all todo healthy => 12 + length todo + length all `max` (length healthy + length todo)
  | HDialing candidates => 11 + length candidates | HDialed _ _ => 10
  | HPiping _ up down => 5 + copies_left up + copies_left down | HPiped _ => 4
  | HUntrack => 3 | HClosing => 2 | HFinished => 1 | HDone => 0
  end.

Lemma conn_CloseWrite_runs c h : is_Some (h_conn h !! c) → ∃ h', runs (conn_CloseWrite c) h tt h'.
Proof.
  intros [nc Hc]. unfold conn_CloseWrite. destruct (nc_CloseWrite nc) eqn:E1; [destruct (nc_closed nc) eqn:E2|].
  - exists h. eapply runs_bind; [by apply runs_deref|]. by rewrite E1, E2.
  - eexists. eapply runs_bind; [by apply runs_deref|]. rewrite E1, E2. by eapply update_conn_runs.
  - eexists. eapply runs_bind; [by apply runs_deref|]. rewrite E1. eapply runs_bind; [by apply conn_Close_runs|done].
Qed.

Lemma CloseWrite_runs tc h : wf_heap h → is_Some (h_tracked h !! tc) → ∃ e h', runs (CloseWrite tc) h e h'.
Proof.
  intros Hwf [t Ht]. destruct (wf_tracked_conn _ Hwf _ _ Ht) as (nc & Hnc & _). unfold CloseWrite.
  destruct (nc_CloseWrite nc) eqn:E1; [destruct (nc_closed nc) eqn:E2|].
  - do 2 eexists. do 2 (eapply runs_bind; [by apply runs_deref|]). by rewrite E1, E2.
  - do 2 eexists. do 2 (eapply runs_bind; [by apply runs_deref|]). rewrite E1, E2.
    eapply runs_bind; [by eapply update_conn_runs|done].
  - do 2 eexists. do 2 (eapply runs_bind; [by apply runs_deref|]). by rewrite E1.
Qed.

Lemma signal_end_runs up tc c h : wf_heap h → is_Some (h_tracked h !! tc) → is_Some (h_conn h !! c) →
  ∃ h', runs (signal_end up tc c) h tt h'.
Proof.
  intros Hwf Ht Hc. destruct up; [|by apply conn_CloseWrite_runs].
  destruct (CloseWrite_runs tc h Hwf Ht) as (e & h' & Hr). exists h'. by eapply runs_bind.
Qed.

Lemma run_on_heap {A} (m : prog Heap A) (s : Server) a h :
  runs m (heap s) a h → on_heap m s = Some (a, set_heap h s).
Proof. unfold runs, on_heap. by intros ->. Qed.

Lemma configureKeepalive_runs c (s : Server) : is_Some (h_conn (heap s) !! c) →
  ∃ s', configureKeepalive KeepalivePeriod c s = Some s'.
Proof. intros [nc Hc]. unfold configureKeepalive. rewrite Hc. simpl. destruct (negb _); eauto. Qed.

(** Whatever the outcome [ok] of the dial it may be waiting for. *)
Lemma handler_enabled (ok : bool) (s : Server) i x : inv s → handlers s !! i = Some x → h_pc x ≠ HDone →
  ∃ a s', a ≠ ADial (negb ok) ∧ handler_step KeepalivePeriod i x a s = Some s'.
Proof.
  intros [Hb Hs] Hx Hne. pose proof (bk_socket _ Hb _ _ Hx) as Hc. pose proof (sf_pc _ Hs _ _ Hx) as Hpc.
  pose proof (sf_heap _ Hs) as Hwf.
  destruct x as [c pc]. destruct pc as [| |all todo hs|todo|b conn|tc u w|tc| | | |]; simpl in *; try done.
  - exists ATrack. simpl. destruct (configureKeepalive_runs c (trackClient c true s) Hc) as [s' ->]. eauto.
  - exists ACandidates; by eauto.
  - apply Forall_app in Hpc as [_ Hpc]. destruct todo as [|b todo].
    + destruct (order_healthy_runs (pool s) all hs (heap s) Hpc) as (p' & out & d & Hr & _).
      exists AOrder. cbn [handler_step h_pc h_client]. rewrite (run_on_heap _ _ _ _ Hr). by eauto.
    + apply Forall_cons in Hpc as [Hb' _]. exists AHealthy. cbn [handler_step h_pc h_client].
      rewrite (run_on_heap _ _ _ _ (add_healthy_runs hs _ _ Hb')). by eauto.
  - destruct todo as [|b todo]; [exists AGiveUp; by eauto|]. apply Forall_cons in Hpc as [[bk Hbk] _].
    exists (ADial ok). cbn [handler_step h_pc h_client].
    assert (ADial ok ≠ ADial (negb ok)) as Hok by (by destruct ok). destruct ok.
    + erewrite run_on_heap by done. cbn -[configureKeepalive].
      match goal with |- context [configureKeepalive _ ?c ?s] => destruct (configureKeepalive_runs c s) as [s' ->] end;
        [simpl; by rewrite lookup_insert_eq|]. eauto.
    + erewrite run_on_heap by (by eapply update_backend_runs). eauto.
  - destruct Hpc as [[bk Hbk] _]. exists ATrackConn. cbn [handler_step h_pc h_client].
    erewrite run_on_heap by (by eapply Track_runs). by eauto.
  - destruct (signal_end_runs true tc c _ Hwf Hpc Hc) as [h1 H1up], (signal_end_runs false tc c _ Hwf Hpc Hc) as [h2 H2dn].
    destruct u; [exists (ACopyEnd true); by eauto| |].
    + exists (ASignal true). cbn [handler_step h_pc h_client]. rewrite (run_on_heap _ _ _ _ H1up). by eauto.
    + destruct w; [exists (ACopyEnd false); by eauto| |exists APipeDone; by eauto].
      exists (ASignal false). cbn [handler_step h_pc h_client]. rewrite (run_on_heap _ _ _ _ H2dn). by eauto.
  - destruct Hpc as [t Ht]. destruct (Close_runs _ _ _ Hwf Ht) as [e He].
    exists ACloseBackend. cbn [handler_step h_pc h_client]. rewrite (run_on_heap _ _ _ _ He). by eauto.
  - exists AUntrack; by eauto.
  - destruct Hc as [nc Hc]. exists ACloseClient. cbn [handler_step h_pc h_client].
    rewrite (run_on_heap _ _ _ _ (conn_Close_runs _ _ _ Hc)). by eauto.
  - exists ADone; by eauto.
Qed.

#[local] Opaque on_heap signal_end Close conn_Close.

(** The backends a handler may still connect to. *)
Definition picks (pc : handler_pc) (l : loc) : Prop :=
  match pc with
  | HFiltering all todo healthy => l ∈ all ++ todo ++ healthy
  | HDialing candidates => l ∈ candidates | HDialed b _ => l = b | _ => False
  end.

(** What one action does to its own handler, whatever its outcome. *)
Lemma handler_step_moves (s s' : Server) i x a : inv s → handlers s !! i = Some x →
  handler_step KeepalivePeriod i x a s = Some s' →
  ∃ pc, handlers s' = alter (λ x, mkHandler (h_client x) pc) i (handlers s) ∧
    length (backends (pool s')) = length (backends (pool s)) ∧ shutdown s' = shutdown s ∧
    (actions_left (length (backends (pool s))) pc < actions_left (length (backends (pool s))) (h_pc x))%nat ∧
    ∀ l, picks pc l → picks (h_pc x) l ∨ l ∈ backends (pool s).
Proof.
  intros [Hb Hs] Hx Hr. pose proof (sf_pc _ Hs _ _ Hx) as Hpc. destruct x as [c pc].
  destruct a as [| | | |ok| | |d|d| | | | |], pc as [| |all todo hs|todo|b conn|tc u w|tc| | | |]; simpl in Hr;
    try done; try (by destruct d).
  - destruct (configureKeepalive _ _ _) as [s1|] eqn:E; [|done]. injection Hr as <-.
    apply configureKeepalive_inv in E as (_ & _ & _ & E4 & _ & E6 & E7). simpl in *.
    exists HTracked. rewrite E4, E6, E7. simpl. split_and!; [done..|lia|by auto].
  - injection Hr as <-. exists (HFiltering (Backends (pool s)) (Backends (pool s)) []). unfold Backends. simpl.
    rewrite app_nil_r. split_and!; [done..|lia|]. intros l Hl. right. by apply elem_of_app in Hl as [|].
  - destruct todo as [|b todo]; [done|]. run_heap Hr hs' h E. injection Hr as <-.
    apply add_healthy_inv in E as [_ Hhs]. exists (HFiltering all todo hs'). simpl. split_and!; [done..| |].
    + destruct Hhs as [-> | ->]; rewrite ?length_app; simpl; lia.
    + intros l Hl. left. destruct Hhs as [-> | ->]; set_solver.
  - destruct todo; [|done]. run_heap Hr v h E. destruct v as [p' [cs dg]]. injection Hr as <-.
    apply order_healthy_inv in E as (_ & Hbk & Hcs); [|by apply Forall_app in Hpc as [_ Hpc]].
    exists (HDialing cs). simpl. rewrite Hbk. split_and!; [done..| |].
    + destruct Hcs as [-> | ->]; lia.
    + intros l Hl. left. rewrite elem_of_app. destruct Hcs as [Hp|Hp]; rewrite Hp in Hl; auto.
  - destruct todo as [|b cs]; [done|]. destruct ok; run_heap Hr v h E.
    + simpl in Hr. destruct (configureKeepalive _ _ _) as [s2|] eqn:E2; [|done].
      injection Hr as <-. apply configureKeepalive_inv in E2 as (_ & _ & _ & E4 & _ & E6 & E7). simpl in *.
      exists (HDialed b v). rewrite E4, E6, E7. simpl. split_and!; [done..|lia|intros l ->; left; by left].
    + injection Hr as <-. exists (HDialing cs). simpl. split_and!; [done..|lia|intros l Hl; left; by right].
  - destruct todo; [|done]. injection Hr as <-. exists HUntrack. simpl. split_and!; [done..|lia|by auto].
  - run_heap Hr v h E. injection Hr as <-. exists (HPiping v Copying Copying). simpl. split_and!; [done..|lia|by auto].
  - destruct d, u, w; try done; injection Hr as <-; eexists (HPiping _ _ _); (split_and!; [done..|simpl; lia|by auto]).
  - destruct d, u, w; try done; run_heap Hr v h E; injection Hr as <-; eexists (HPiping _ _ _);
      (split_and!; [done..|simpl; lia|by auto]).
  - destruct u, w; try done. injection Hr as <-. exists (HPiped tc). simpl. split_and!; [done..|lia|by auto].
  - run_heap Hr v h E. injection Hr as <-. exists HUntrack. simpl. split_and!; [done..|lia|by auto].
  - injection Hr as <-. exists HClosing. simpl. split_and!; [done..|lia|by auto].
  - run_heap Hr v h E. injection Hr as <-. exists HFinished. simpl. split_and!; [done..|lia|by auto].
  - injection Hr as <-. exists HDone. simpl. split_and!; [done..|lia|by auto].
Qed.

(** The others leave it alone, and may add a handler at its start. *)
Lemma other_step_handlers (s s' : Server) l : (∀ i a, l ≠ LHandler i a) → step_fun KeepalivePeriod l s = Some s' →
  handlers s' = handlers s ∨ ∃ c, handlers s' = <[fresh_loc (handlers s) := mkHandler c HStart]> (handlers s).
Proof.
  intros Hl Hr. destruct l; simpl in Hr;
    try solve [left; first [by injection Hr as <- | by destruct (serve s) as [|[]| | | |]; try done; injection Hr as <- |
                 by destruct (shutdown s) as [|[]| | |]; try done; injection Hr as <- |
                 run_heap Hr c h E; by injection Hr as <- | run_heap Hr c h E; destruct c; by injection Hr as <-]].
  - destruct (serve s), (ln_closed s); try done. run_heap Hr c h E. injection Hr as <-. by left.
  - destruct (serve s); try done. injection Hr as <-. right. by eexists.
  - destruct (shutdown s), (wg s =? 0); try done; injection Hr as <-; by left.
  - destruct (shutdown s), (done s); try done; injection Hr as <-; by left.
  - destruct (shutdown s), (expired s); try done. run_heap Hr c h E. injection Hr as <-. by left.
  - by destruct (Hl i a).
Qed.

Lemma other_step_keeps (s s' : Server) i x l : inv s → handlers s !! i = Some x →
  (∀ a, l ≠ LHandler i a) → step_fun KeepalivePeriod l s = Some s' → handlers s' !! i = Some x.
Proof.
  intros Hi Hx Hl Hr. destruct l as [| | | | | | | | | | |j a| | | | | |].
  12: { simpl in Hr. destruct (handlers s !! j) as [y|] eqn:Hy; [|done]. simpl in Hr.
    apply handler_step_moves in Hr as (pc & -> & _); [|done..].
    rewrite lookup_alter_ne; [done|]. intros ->. by eapply Hl. }
  all: apply other_step_handlers in Hr as [->|[c ->]]; [done|by apply insert_fresh_mono|done].
Qed.

Definition of_handler (i : loc) (l : label) : Prop := ∃ a, l = LHandler i a.

Lemma handler_finishes (n : nat) (s : Server) i x : inv s → handlers s !! i = Some x →
  (actions_left (length (backends (pool s))) (h_pc x) <= n)%nat →
  ∃ ls s', trace KeepalivePeriod ls s = Some s' ∧ Forall (of_handler i) ls ∧ (length ls <= n)%nat ∧
    handlers s' = <[i := mkHandler (h_client x) HDone]> (handlers s) ∧ shutdown s' = shutdown s.
Proof.
  revert s x. induction n as [|n IH]; intros s x Hi Hx Hle.
  { exists [], s. split_and!; [done..| |done]. destruct x as [c []]; simpl in *; try lia. by rewrite insert_id. }
  destruct (decide (h_pc x = HDone)) as [Hd|Hd].
  { exists [], s. split_and!; [done..|simpl; lia| |done]. destruct x; simpl in *; subst. by rewrite insert_id. }
  destruct (handler_enabled true s i x Hi Hx Hd) as (a & s1 & _ & Hr).
  assert (step_fun KeepalivePeriod (LHandler i a) s = Some s1) as Hstep by (simpl; by rewrite Hx).
  destruct (handler_step_moves _ _ _ _ _ Hi Hx Hr) as (pc & Hh & Hlen & Hsd & Hlt & _).
  destruct (IH s1 (mkHandler (h_client x) pc)) as (ls & s2 & Ht & Hall & Hls & Hd2 & Hsd2).
  - eapply step_inv; [by exists (LHandler i a)|done].
  - by rewrite Hh, lookup_alter_eq, Hx.
  - rewrite Hlen. simpl. lia.
  - exists (LHandler i a :: ls), s2. split_and!; [cbn [trace]; by rewrite Hstep| |simpl; lia| |congruence].
    + constructor; [by exists a|done].
    + rewrite Hd2, Hh. apply map_eq. intros j. destruct (decide (j = i)) as [->|Hne]; [by rewrite !lookup_insert_eq|].
      by rewrite !lookup_insert_ne, lookup_alter_ne by done.
Qed.


(** ** Shutting down *)

(** [Shutdown] is past closing the listener. *)
Definition stopping (s : Server) : Prop :=
  match shutdown s with DWaiting | DForced | DReturned => True | _ => False end.

Record life (s : Server) : Prop := {
  lf_flag : shutdown s = DIdle ↔ shuttingDown s = false;
  lf_listener : listener s = false → serve s = SNew;
  lf_nil : (serve s = SReturned false ∨ serve s = SRegistered true) → shuttingDown s = true;
  lf_flagged : shutdown s = DFlagged true → listener s = true;
  lf_closed : (stopping s ∨ shutdown s = DFlagged false) →
    serve s = SNew ∨ serve s = SRegistered true ∨ ln_closed s = true;
  lf_returned : shutdown s = DReturned → done s = true
}.

Lemma configureKeepalive_frame c (s s1 : Server) : configureKeepalive KeepalivePeriod c s = Some s1 →
  ∃ k, s1 = mkServer (heap s) (pool s) (listener s) (ln_closed s) (clientConns s) (shuttingDown s) (wg s)
             (handlers s) (serve s) (shutdown s) (done s) (expired s) k.
Proof.
  unfold configureKeepalive. destruct (h_conn (heap s) !! c) as [nc|]; [|done]. simpl.
  destruct (negb _); intros [= <-]; [|by eexists]. exists (keepalive s). by destruct s.
Qed.

(** The fields of the state [life] reads. *)
Definition phase (s : Server) := (shutdown s, shuttingDown s, listener s, serve s, ln_closed s, done s).

Lemma life_phase s s' : phase s' = phase s → life s → life s'.
Proof.
  unfold phase. intros [= E1 E2 E3 E4 E5 E6] [L1 L2 L3 L4 L5 L6]. unfold stopping in *.
  split; unfold stopping; rewrite ?E1, ?E2, ?E3, ?E4, ?E5, ?E6; done.
Qed.

Lemma handler_step_phase (s s' : Server) i x a :
  handler_step KeepalivePeriod i x a s = Some s' → phase s' = phase s.
Proof.
  intros Hr. destruct x as [c pc].
  destruct a as [| | | |ok| | |d|d| | | | |], pc as [| |all todo hs|todo|b conn|tc u w|tc| | | |]; simpl in Hr;
    try done; try (by destruct d); try (destruct todo as [|b todo]; try done); try (destruct ok);
    try (destruct d, u, w; try done); try (destruct u, w; try done);
    try (run_heap Hr v h E); simpl in Hr;
    try (destruct (configureKeepalive _ _ _) as [s1|] eqn:Ek; [|done];
         apply configureKeepalive_frame in Ek as [k ->]);
    try destruct v as [? []]; by injection Hr as <-.
Qed.

#[export] Instance action_eq_dec : EqDecision action.
Proof. solve_decision. Defined.

(** Only [AOrder] moves the pool. *)
Lemma handler_step_pool (s s' : Server) i x a : a ≠ AOrder →
  handler_step KeepalivePeriod i x a s = Some s' → pool s' = pool s.
Proof.
  intros Ha Hr. destruct x as [c pc].
  destruct a as [| | | |ok| | |d|d| | | | |], pc as [| |all todo hs|todo|b conn|tc u w|tc| | | |]; simpl in Hr;
    try done; try (by destruct d); try (destruct todo as [|b todo]; try done); try (destruct ok);
    try (destruct d, u, w; try done); try (destruct u, w; try done);
    try (run_heap Hr v h E); simpl in Hr;
    try (destruct (configureKeepalive _ _ _) as [s1|] eqn:Ek; [|done];
         apply configureKeepalive_frame in Ek as [k ->]);
    by injection Hr as <-.
Qed.

Ltac life_cases :=
  unfold stopping in *; simpl in *;
  repeat match goal with
  | H : shutdown _ = _ |- _ => rewrite H in *
  | H : serve _ = _ |- _ => rewrite H in *
  end; intuition congruence.

Lemma step_life s s' : step s s' → life s → life s'.
Proof.
  intros [l Hr] Hl. destruct l; simpl in Hr;
    try (eapply life_phase; [|done];
         solve [by injection Hr as <- | run_heap Hr v h E; by injection Hr as <- |
                run_heap Hr v h E; destruct v; by injection Hr as <-]).
  - destruct (serve s) eqn:Es; try done. injection Hr as <-. destruct Hl as [L1 L2 L3 L4 L5 L6].
    destruct (shuttingDown s) eqn:Ef; split; destruct (shutdown s) eqn:Ed; life_cases.
  - destruct (serve s) as [|[]| | | |] eqn:Es; try done; injection Hr as <-; destruct Hl as [L1 L2 L3 L4 L5 L6];
      split; destruct (shutdown s) eqn:Ed; life_cases.
  - destruct (serve s) eqn:Es; try done. destruct (ln_closed s) eqn:Ec; [done|]. run_heap Hr c h E.
    injection Hr as <-. destruct Hl as [L1 L2 L3 L4 L5 L6]. split; destruct (shutdown s) eqn:Ed; life_cases.
  - destruct (serve s) eqn:Es; try done. injection Hr as <-. destruct Hl as [L1 L2 L3 L4 L5 L6].
    split; destruct (shutdown s) eqn:Ed; life_cases.
  - destruct (serve s) eqn:Es; try done. injection Hr as <-. destruct Hl as [L1 L2 L3 L4 L5 L6].
    destruct (shuttingDown s) eqn:Ef; split; destruct (shutdown s) eqn:Ed; life_cases.
  - destruct (serve s) eqn:Es; try done. injection Hr as <-. destruct Hl as [L1 L2 L3 L4 L5 L6].
    split; destruct (shutdown s) eqn:Ed; life_cases.
  - destruct (shutdown s) eqn:Ed; try done. injection Hr as <-. destruct Hl as [L1 L2 L3 L4 L5 L6].
    destruct (listener s) eqn:Ef; split; destruct (serve s) eqn:Es; life_cases.
  - destruct (shutdown s) as [|[]| | |] eqn:Ed; try done; injection Hr as <-; destruct Hl as [L1 L2 L3 L4 L5 L6];
      split; life_cases.
  - destruct (shutdown s) eqn:Ed, (wg s =? 0); try done; injection Hr as <-; destruct Hl as [L1 L2 L3 L4 L5 L6];
      split; life_cases.
  - destruct (shutdown s) eqn:Ed, (done s) eqn:Ef; try done; injection Hr as <-; destruct Hl as [L1 L2 L3 L4 L5 L6];
      split; life_cases.
  - destruct (shutdown s) eqn:Ed, (expired s); try done. run_heap Hr u h E. injection Hr as <-.
    destruct Hl as [L1 L2 L3 L4 L5 L6]. split; life_cases.
  - destruct (handlers s !! i) as [x|]; [|done]. eapply life_phase; [|done]. by eapply handler_step_phase.
Qed.

Lemma reachable_life h p s : reachable h p s → life s.
Proof.
  intros Hr. assert (life (New h p)) as Hl by (split; unfold stopping; simpl; intuition congruence).
  unfold reachable in Hr. induction Hr as [s|s1 s2 s3 Hstep Hr IH]; [done|]. apply IH. by eapply step_life.
Qed.

Lemma tame_grows {A} (m : prog Heap A) h a h' : keeps tame m → m h = Some (a, h') → grows h h'.
Proof. intros Hm Hr. apply (cm_grows _ _ (tm_calm _ _ (Hm _ _ _ Hr))). Qed.

(** What a step does to the heap: it is tame, or tracks the connection of a dial. *)
Definition tracks_dialed (x : handler) (h h' : Heap) : Prop :=
  ∃ b conn tc, h_pc x = HDialed b conn ∧ Track b conn h = Some (tc, h').

Lemma handler_step_heap (s s' : Server) i x a : inv s → handlers s !! i = Some x →
  handler_step KeepalivePeriod i x a s = Some s' →
  tame (heap s) (heap s') ∨ tracks_dialed x (heap s) (heap s').
Proof.
  intros [_ Hs] Hx Hr. destruct x as [c pc].
  destruct a as [| | | |ok| | |d|d| | | | |], pc as [| |all todo hs|todo|b conn|tc u w|tc| | | |]; simpl in Hr;
    try done; try (by destruct d).
  7: { right. run_heap Hr v h E. injection Hr as <-. by eexists _, _, _. }
  all: left.
  - destruct (configureKeepalive _ _ _) as [s1|] eqn:Ek; [|done].
    apply configureKeepalive_frame in Ek as [k ->]. by injection Hr as <-.
  - by injection Hr as <-.
  - destruct todo as [|b todo]; [done|]. run_heap Hr hs' h E. injection Hr as <-.
    by apply add_healthy_inv in E as [-> _].
  - destruct todo; [|done]. run_heap Hr v h E. destruct v as [p' [cs dg]]. injection Hr as <-.
    apply order_healthy_inv in E as (-> & _); [done|]. pose proof (sf_pc _ Hs _ _ Hx) as Hpc.
    by apply Forall_app in Hpc as [_ Hpc].
  - destruct todo as [|b todo]; [done|]. destruct ok; run_heap Hr v h E; simpl in Hr.
    + destruct (configureKeepalive _ _ _) as [s1|] eqn:Ek; [|done].
      apply configureKeepalive_frame in Ek as [k ->]. injection Hr as <-. by eapply tame_alloc_conn.
    + injection Hr as <-. by eapply tame_dial_failed.
  - destruct todo; [|done]. by injection Hr as <-.
  - destruct d, u, w; try done; by injection Hr as <-.
  - destruct d, u, w; try done; run_heap Hr v h E; injection Hr as <-; by eapply tame_signal_end.
  - destruct u, w; try done. by injection Hr as <-.
  - run_heap Hr v h E. injection Hr as <-. by eapply tame_Close.
  - by injection Hr as <-.
  - run_heap Hr v h E. injection Hr as <-. by eapply tame_conn_Close.
  - by injection Hr as <-.
Qed.

Lemma step_heap s s' : inv s → step s s' →
  tame (heap s) (heap s') ∨ ∃ i x, handlers s !! i = Some x ∧ tracks_dialed x (heap s) (heap s').
Proof.
  intros Hi [l Hr]. destruct l; simpl in Hr;
    try solve [left; first [by injection Hr as <- | by destruct (serve s) as [|[]| | | |]; try done; injection Hr as <- |
               by destruct (shutdown s) as [|[]| | |]; try done; injection Hr as <-]].
  5: { destruct (handlers s !! i) as [x|] eqn:Hx; [|done].
    destruct (handler_step_heap _ _ _ _ _ Hi Hx Hr) as [?|?]; [by left|right; by exists i, x]. }
  all: left.
  - destruct (serve s), (ln_closed s); try done. run_heap Hr c h E. injection Hr as <-.
    by eapply tame_alloc_conn.
  - destruct (shutdown s), (wg s =? 0); try done; by injection Hr as <-.
  - destruct (shutdown s), (done s); try done; by injection Hr as <-.
  - destruct (shutdown s), (expired s); try done. run_heap Hr u h E. injection Hr as <-.
    by eapply tame_close_clients.
  - run_heap Hr u h E. injection Hr as <-. by eapply tame_ReportHealth.
  - run_heap Hr u h E. injection Hr as <-. by eapply tame_close_one.
  - run_heap Hr u h E. injection Hr as <-. by eapply tame_count_drained.
  - run_heap Hr v h E. destruct v as [p' r]. injection Hr as <-. by apply order_healthy_reads in E as [-> _].
  - run_heap Hr v h E. destruct v. injection Hr as <-. by apply tame_SetAddrs in E.
Qed.

(** No step forgets an object or reopens a socket. *)
Lemma step_grows s s' : inv s → step s s' → grows (heap s) (heap s').
Proof.
  intros Hi Hst. destruct (step_heap _ _ Hi Hst) as [[[Hg _] _]|(i & x & Hx & b & conn & tc & Epc & Ht)]; [done|].
  pose proof (sf_pc _ (inv_safe _ Hi) _ _ Hx) as Hpc. rewrite Epc in Hpc. destruct Hpc as [Hb Hc].
  apply Track_safe in Ht as (_ & Hg & _); [done|apply Hi|done..].
Qed.

Lemma steps_inv s s' : inv s → rtc step s s' → inv s' ∧ grows (heap s) (heap s').
Proof.
  intros Hi Hr. induction Hr as [s|s1 s2 s3 Hstep Hr IH]; [done|].
  destruct (IH (step_inv _ _ _ Hstep Hi)) as [Hi3 Hg]. split; [done|]. etrans; [|done]. by apply step_grows.
Qed.

(** The loop of the forced close. *)
Lemma close_list l h : (∀ c, c ∈ l → is_Some (h_conn h !! c)) →
  ∃ h', runs (for_each (λ c, conn_Close c ;; mret tt) l) h tt h' ∧ grows h h' ∧
    ∀ c, c ∈ l → ∃ nc, h_conn h' !! c = Some nc ∧ nc_closed nc = true.
Proof.
  revert h. induction l as [|c l IH]; intros h Hall; [exists h; split_and!; [done..|set_solver]|].
  destruct (Hall c) as [nc Hc]; [by left|].
  pose proof (conn_Close_runs c h nc Hc) as Hr. pose proof (tame_grows _ _ _ _ (tame_conn_Close c) Hr) as Hg.
  destruct (conn_Close_closed _ _ _ _ Hr) as (nc1 & Hc1 & Hcl).
  destruct (IH (alter_conn nc_close c h)) as (h' & Hr' & Hg' & Hcs).
  { intros c' Hc'. destruct (Hall c') as [nc' Hnc']; [by right|].
    destruct (gr_conn _ _ Hg _ _ Hnc') as (nc2 & ? & _). by exists nc2. }
  exists h'. split_and!.
  - eapply runs_for_each_cons; [by eapply runs_bind|done].
  - by etrans.
  - intros c' [->|Hc']%elem_of_cons; [|by apply Hcs].
    destruct (gr_conn _ _ Hg' _ _ Hc1) as (nc2 & ? & ?). eauto.
Qed.

Lemma step_stopping s s' : step s s' → stopping s → stopping s'.
Proof.
  unfold stopping. intros [l Hr] Hs. destruct l; simpl in Hr;
    try solve [by injection Hr as <- | by destruct (serve s) as [|[]| | | |]; try done; injection Hr as <- |
               by destruct (shutdown s) as [|[]| | |]; try done; injection Hr as <- |
               run_heap Hr u h E; by injection Hr as <-].
  - destruct (serve s), (ln_closed s); try done. run_heap Hr c h E. by injection Hr as <-.
  - destruct (shutdown s) eqn:Ed, (wg s =? 0); try done; injection Hr as <-; simpl; by rewrite Ed.
  - destruct (shutdown s), (done s); try done; by injection Hr as <-.
  - destruct (shutdown s), (expired s); try done. run_heap Hr u h E. by injection Hr as <-.
  - destruct (handlers s !! i) as [x|]; [|done]. apply handler_step_phase in Hr. by injection Hr as ->.
  - run_heap Hr v h E. destruct v. by injection Hr as <-.
  - run_heap Hr v h E. destruct v. by injection Hr as <-.
Qed.

(** C11. Shutting down stops the accept loop, whichever of [Serve] and [Shutdown]
    comes first: once [Shutdown] is past closing the listener, no client is accepted
    any more, [Serve] called later still returns without accepting, and when the
    pending [Accept] fails [Serve] returns nil. *)
Theorem Shutdown_stops_accepting (h : Heap) (p : Pool P) (s s1 : Server)
    (Hreach : reachable h p s) (Hstop : stopping s) (Hlater : rtc step s s1) :
  step_fun KeepalivePeriod LAccept s1 = None ∧
  (serve s1 = SNew → ∃ s2, trace KeepalivePeriod [LServe; LServeCheck] s1 = Some s2 ∧ serve s2 = SReturned false) ∧
  (serve s1 = SFailed → ∃ s2, step_fun KeepalivePeriod LServeErr s1 = Some s2 ∧ serve s2 = SReturned false).
Proof.
  assert (stopping s1) as Hs1.
  { clear Hreach. induction Hlater as [s|s a b Hstep Hr IH]; [done|]. apply IH. by eapply step_stopping. }
  assert (life s1) as [L1 L2 L3 L4 L5 L6] by (eapply (reachable_life h p); unfold Proxy.reachable in *; by etrans).
  assert (shuttingDown s1 = true) as Hdown.
  { apply not_false_iff_true. intros E%L1. unfold stopping in Hs1. by rewrite E in Hs1. }
  split_and!.
  - simpl. destruct (L5 (or_introl Hs1)) as [->|[->| ->]]; [done..|by destruct (serve s1)].
  - intros E. eexists. simpl. by rewrite E, Hdown.
  - intros E. eexists. simpl. by rewrite E, Hdown.
Qed.

(** C12. When the grace period has expired [Shutdown] can force-close, and then every
    client in [clientConns] is closed and stays closed. *)
Theorem Shutdown_forces (h : Heap) (p : Pool P) (s : Server)
    (Hready : ready h p) (Hreach : reachable h p s) (Hwait : shutdown s = DWaiting) (Hexp : expired s = true) :
  ∃ s', step_fun KeepalivePeriod LForce s = Some s' ∧ shutdown s' = DForced ∧
    ∀ c s'', c ∈ clientConns s → rtc step s' s'' →
      ∃ nc, h_conn (heap s'') !! c = Some nc ∧ nc_closed nc = true.
Proof.
  pose proof (reachable_inv _ _ _ _ Hready Hreach) as Hi.
  destruct (close_list (map_range (clientConns s)) (heap s)) as (h' & Hr & _ & Hcl).
  { intros c (i & x & Hx & <- & _)%elem_of_map_range%(bk_clients _ (inv_books _ Hi)).
    by eapply (bk_socket _ (inv_books _ Hi)). }
  set (s' := set_shutdown DForced (set_heap h' s)).
  assert (step_fun KeepalivePeriod LForce s = Some s') as Hstep.
  { cbn [step_fun]. rewrite Hwait, Hexp. unfold close_clients. by rewrite (run_on_heap _ _ _ _ Hr). }
  exists s'. split_and!; [done..|]. intros c s'' Hc Hr'.
  assert (inv s') as Hi' by (eapply step_inv; [by exists LForce|done]).
  destruct (steps_inv _ _ Hi' Hr') as [_ Hg]. destruct (Hcl c) as (nc & Hnc & Hc'); [by apply elem_of_map_range|].
  destruct (gr_conn _ _ Hg c nc) as (nc' & ? & ?); [done|]. eauto.
Qed.

(** One handler after the other runs to its end. *)
Lemma all_finish (s : Server) : inv s →
  ∃ ls s', trace KeepalivePeriod ls s = Some s' ∧ Forall (λ l, ∃ i, of_handler i l) ls ∧
    all_done s' ∧ shutdown s' = shutdown s.
Proof.
  remember (size (undone (handlers s))) as n eqn:Hn. revert s Hn.
  induction n as [|n IH]; intros s Hn Hi; [exists [], s; split_and!; try done; by unfold all_done; rewrite undone_empty|].
  destruct (map_choose (undone (handlers s))) as (i & x & Hx); [intros E; by rewrite E in Hn|].
  apply map_lookup_filter_Some in Hx as [Hx Hne]. simpl in Hne.
  destruct (handler_finishes _ s i x Hi Hx (le_n _)) as (ls & s1 & Ht & Hall & _ & Hh & Hsd).
  assert (inv s1) as Hi1 by (by eapply steps_inv; [|eapply proxy_trace_rtc]).
  assert (size (undone (handlers s1)) = n) as Hn1.
  { pose proof (undone_alter i x HDone (handlers s) Hx Hne) as E. rewrite decide_True in E by done.
    replace (alter _ i (handlers s)) with (handlers s1) in E; [lia|]. rewrite Hh. apply map_eq. intros j.
    destruct (decide (j = i)) as [->|Hj]; [by rewrite lookup_insert_eq, lookup_alter_eq, Hx|].
    by rewrite lookup_insert_ne, lookup_alter_ne. }
  destruct (IH s1 (eq_sym Hn1) Hi1) as (ls2 & s2 & Ht2 & Hall2 & Hd & Hsd2).
  exists (ls ++ ls2), s2. split_and!; [|apply Forall_app; split; [|done]|done|congruence].
  - clear -Ht Ht2. revert s Ht. induction ls as [|l ls IH]; intros s Ht; [by injection Ht as ->|].
    cbn [trace app] in *. destruct (step_fun _ l s); [by apply IH|done].
  - eapply Forall_impl; [done|]. intros l Hl. by exists i.
Qed.
Lemma undone_size (s : Server) : (size (undone (handlers s)) <= size (handlers s))%nat.
Proof. apply map_subseteq_size, map_filter_subseteq. Qed.

(** [wg.Wait] returns exactly when every handler has (fewer than 2^63 at a time). *)
Lemma wait_iff (s : Server) : inv s → Z.of_nat (size (undone (handlers s))) < 2 ^ 63 →
  wg s = 0 ↔ all_done s.
Proof.
  intros Hi Hsz. rewrite (bk_wg _ (inv_books _ Hi)), int_add_small by (unfold max_int; lia).
  unfold all_done. rewrite undone_empty. lia.
Qed.

Lemma trace_app ls1 ls2 (s s1 : Server) : trace KeepalivePeriod ls1 s = Some s1 →
  trace KeepalivePeriod (ls1 ++ ls2) s = trace KeepalivePeriod ls2 s1.
Proof.
  revert s. induction ls1 as [|l ls IH]; intros s Ht; [by injection Ht as ->|].
  cbn [trace app] in *. destruct (step_fun _ l s); [by apply IH|done].
Qed.

(** ** The loop over the candidates *)

Lemma handler_action (s s' : Server) i x a : handlers s !! i = Some x →
  handler_step KeepalivePeriod i x a s = Some s' → step_fun KeepalivePeriod (LHandler i a) s = Some s'.
Proof. intros Hx Hr. cbn [step_fun]. by rewrite Hx. Qed.

Lemma alter_pc (m : gmap loc handler) i c pc0 pc : m !! i = Some (mkHandler c pc0) →
  alter (λ x, mkHandler (h_client x) pc) i m = <[i := mkHandler c pc]> m.
Proof.
  intros Hm. apply map_eq. intros j. destruct (decide (j = i)) as [->|Hne].
  - by rewrite lookup_alter_eq, lookup_insert_eq, Hm.
  - by rewrite lookup_alter_ne, lookup_insert_ne.
Qed.

(** A failed and a successful dial. *)
Lemma dial_fails (s : Server) i c b cs bk :
  handlers s !! i = Some (mkHandler c (HDialing (b :: cs))) → h_backend (heap s) !! b = Some bk →
  step_fun KeepalivePeriod (LHandler i (ADial false)) s =
    Some (set_pc i (HDialing cs) (set_heap (alter_backend (set_stats (add_DialErrors 1)) b (heap s)) s)).
Proof.
  intros Hx Hb. eapply handler_action; [done|]. cbn [handler_step h_pc].
  by erewrite run_on_heap by (by eapply update_backend_runs).
Qed.

Lemma dial_connects (s : Server) i c b cs conn h1 tc h2 :
  handlers s !! i = Some (mkHandler c (HDialing (b :: cs))) →
  runs (alloc_conn true) (heap s) conn h1 → runs (dialed b conn) h1 tc h2 →
  ∃ s', trace KeepalivePeriod [LHandler i (ADial true); LHandler i ATrackConn] s = Some s' ∧ heap s' = h2 ∧
    handlers s' = <[i := mkHandler c (HPiping tc Copying Copying)]> (handlers s) ∧
    phase s' = phase s ∧ clientConns s' = clientConns s ∧ wg s' = wg s ∧ pool s' = pool s.
Proof.
  intros Hx Hr1 Hr2.
  destruct (configureKeepalive_runs conn (set_heap h1 s)) as [s1 Hk].
  { injection Hr1 as <- <-. simpl. by rewrite lookup_insert_eq. }
  pose proof (configureKeepalive_frame _ _ _ Hk) as [k ->].
  eexists. cbn [trace]. erewrite handler_action; [|done|].
  2:{ cbn [handler_step h_pc]. rewrite (run_on_heap _ _ _ _ Hr1). cbn -[configureKeepalive]. by rewrite Hk. }
  cbn -[step_fun]. split.
  { erewrite handler_action; [done| |].
    - simpl. by rewrite lookup_alter_eq, Hx.
    - cbn [handler_step h_pc]. by erewrite run_on_heap by done. }
  split_and!; try done. simpl. erewrite (alter_pc (handlers s)) by done.
  erewrite alter_pc by apply lookup_insert_eq. by rewrite insert_insert_eq.
Qed.

(** C15. The actions of a handler implement the loop of [handle]: left alone, a handler
    about to try [candidates] ends where [try_candidates] does, with the same heap,
    piping to the tracked connection of the backend that was reached, or dropping the
    client; and the server's other state is as it was. *)
Theorem handler_runs_loop (reach : string → bool) (candidates : list loc) (s : Server) (i c : loc)
    (r : option (loc * loc)) (h' : Heap)
    (Hx : handlers s !! i = Some (mkHandler c (HDialing candidates)))
    (Hr : runs (try_candidates reach candidates) (heap s) r h') :
  ∃ ls s', trace KeepalivePeriod ls s = Some s' ∧ Forall (of_handler i) ls ∧ heap s' = h' ∧
    handlers s' = <[i := mkHandler c (match r with Some (_, tc) => HPiping tc Copying Copying | None => HUntrack end)]>
                    (handlers s) ∧
    phase s' = phase s ∧ clientConns s' = clientConns s ∧ wg s' = wg s ∧ pool s' = pool s.
Proof.
  revert s Hx Hr. induction candidates as [|b cs IH]; intros s Hx Hr; simpl in Hr.
  { injection Hr as <- <-. exists [LHandler i AGiveUp]. eexists. cbn [trace].
    erewrite handler_action by done. split_and!; try done; [by repeat constructor; eexists|].
    simpl. by erewrite alter_pc. }
  apply runs_bind_inv in Hr as (a & h1 & Ha & Hr). pose proof (Addr_inv _ _ _ _ Ha) as [-> [bk Hbk]].
  destruct (reach a).
  - apply runs_bind_inv in Hr as (conn & h2 & Hr1 & (tc & h3 & Hr2 & [= <- <-])%runs_bind_inv).
    destruct (dial_connects s i c b cs conn h2 tc h3 Hx Hr1 Hr2) as (s' & Ht & Hrest).
    eexists _, s'. split; [exact Ht|]. split; [|done]. by repeat constructor; eexists.
  - apply runs_bind_inv in Hr as ([] & h2 & Hf & Hr).
    pose proof (update_backend_runs (set_stats (add_DialErrors 1)) b (heap s) bk Hbk) as Hu.
    unfold dial_failed, count_dial_error, runs in Hf, Hu. rewrite Hu in Hf. injection Hf as <-.
    set (s1 := set_pc i (HDialing cs) (set_heap (alter_backend (set_stats (add_DialErrors 1)) b (heap s)) s)).
    assert (handlers s1 = <[i := mkHandler c (HDialing cs)]> (handlers s)) as Hh1 by (simpl; by erewrite alter_pc).
    destruct (IH s1) as (ls & s' & Ht & Hall & Hh & Hhs & Hph & Hcc & Hwg & Hp); [by rewrite Hh1, lookup_insert_eq|exact Hr|].
    exists (LHandler i (ADial false) :: ls), s'. split_and!; try done.
    + cbn [trace]. by rewrite (dial_fails _ _ _ _ _ _ Hx Hbk).
    + constructor; [by eexists|done].
    + rewrite Hhs, Hh1. by rewrite insert_insert_eq.
Qed.
End server.

(** ** Concrete runs *)

Module Demo.
#[export] Instance demo_range : MapRange := range_elements.

(** Two backends, round robin; the first client becomes handler 2. *)
Definition demo_heap : Heap := demo_backend "10.0.0.2:6443" (demo_backend "10.0.0.1:6443" empty_heap).
Definition demo_pool : Pool roundRobin := mkPool [2%positive; 3%positive] (mkRoundRobin 0).
Definition demo_server : Server := New demo_heap demo_pool.
Definition run := trace (P:=roundRobin) 30.

Lemma demo_ready : ready demo_heap demo_pool.
Proof.
  split.
  - do 2 apply alloc_backend_wf. apply empty_heap_wf.
  - apply Forall_cons; split; [by eexists|]. apply Forall_cons; split; [by eexists|done].
  - intros tc t. vm_compute. by destruct tc.
Qed.

(** A client is accepted, its first dial fails and its second succeeds. *)
Definition accept : list label := [LServe; LServeCheck; LAccept; LSpawn].
Definition filtering : list action := [ATrack; ACandidates; AHealthy; AHealthy; AOrder].
Definition dial : list label :=
  map (LHandler 2) (filtering ++ [ADial false; ADial true]).
Definition stop : list label := [LShutdown; LCloseListener].

Lemma piping_run : ∃ s, run (accept ++ dial ++ [LHandler 2 ATrackConn] ++ stop ++ [LExpire]) demo_server = Some s ∧
  shutdown s = DWaiting ∧ expired s = true ∧ clientConns s = {[2%positive]} ∧
  (∃ b, h_backend (heap s) !! 3%positive = Some b ∧ conns b = {[2%positive]}) ∧
  (∃ x, handlers s !! 2%positive = Some x ∧ h_pc x = HPiping 2 Copying Copying).
Proof. eexists. split; [vm_compute; reflexivity|]. split_and!; try reflexivity; eexists; by split. Qed.

Lemma idle_run : ∃ s, run (accept ++ stop) demo_server = Some s ∧ stopping s ∧ serve s = SAccepting.
Proof. eexists. split; [vm_compute; reflexivity|done]. Qed.

Lemma demo_reachable ls s : run ls demo_server = Some s → reachable 30 demo_heap demo_pool s.
Proof. apply proxy_trace_rtc. Qed.
End Demo.
Import Demo.

(** The handler of [dial] relays, then runs to its end. *)
Definition finish : list label :=
  map (LHandler 2) [ATrackConn; ACopyEnd true; ASignal true; ACopyEnd false; ASignal false;
                    APipeDone; ACloseBackend; AUntrack; ACloseClient; ADone].



Lemma Shutdown_stops_accepting_witness : ∃ s, run (accept ++ stop) demo_server = Some s ∧
  serve s = SAccepting ∧ step_fun 30 LAccept s = None.
Proof.
  eexists. split; [vm_compute; reflexivity|]. split; [done|].
  match goal with |- step_fun 30 LAccept ?s = _ =>
    destruct (Shutdown_stops_accepting 30 demo_heap demo_pool s s) as (Hn & _) end;
    [by apply (demo_reachable (accept ++ stop)); vm_compute|exact I|done|exact Hn].
Defined.

(** Shutting down while the client is being served, the grace period over. *)
Definition forcing : list label := accept ++ dial ++ [LHandler 2 ATrackConn] ++ stop ++ [LExpire].

Lemma Shutdown_forces_witness : ∃ s s', run forcing demo_server = Some s ∧ step_fun 30 LForce s = Some s' ∧
  ∃ nc, h_conn (heap s') !! 2%positive = Some nc ∧ nc_closed nc = true.
Proof.
  assert (is_Some (run forcing demo_server)) as [s Hs] by (vm_compute; by eexists).
  destruct (Shutdown_forces 30 demo_heap demo_pool s demo_ready) as (s' & Hs' & _ & Hc);
    [by apply (demo_reachable forcing)|by vm_compute in Hs; injection Hs as <-..|].
  exists s, s'. split; [exact Hs|]. split; [exact Hs'|]. apply (Hc 2%positive s'); [|done]. vm_compute in Hs. injection Hs as <-. by vm_compute.
Defined.


Definition second_only (a : string) : bool := bool_decide (a = "10.0.0.2:6443").

Lemma handler_runs_loop_witness : ∃ s ls s' b,
  run (accept ++ map (LHandler 2) filtering) demo_server = Some s ∧
  trace 30 ls s = Some s' ∧ h_backend (heap s') !! 3%positive = Some b ∧ size (conns b) = 1%nat.
Proof.
  assert (is_Some (run (accept ++ map (LHandler 2) filtering) demo_server)) as [s Hs]
    by (vm_compute; by eexists).
  assert (is_Some (try_candidates second_only [2%positive; 3%positive] (heap s)))
    as [[r h'] Hr] by (vm_compute in Hs; injection Hs as <-; vm_compute; by eexists).
  destruct (handler_runs_loop 30 second_only [2%positive; 3%positive] s 2 2 r h') as (ls & s' & Ht & _ & Hh & _);
    [by vm_compute in Hs; injection Hs as <-|exact Hr|].
  assert (∃ b, h_backend h' !! 3%positive = Some b ∧ size (conns b) = 1%nat) as (b & Hb & Hsz).
  { vm_compute in Hs. injection Hs as <-. vm_compute in Hr. injection Hr as _ <-. eexists. by split. }
  exists s, ls, s', b. by rewrite Hh.
Defined.

Lemma try_candidates_first_witness : ∃ tc h2 b,
  runs (try_candidates second_only [2%positive; 3%positive]) demo_heap
    (Some (3%positive, tc)) h2 ∧ h_backend h2 !! 3%positive = Some b ∧ ConnsTotal (stats b) = 1.
Proof.
  destruct (try_candidates_first second_only [2%positive; 3%positive] demo_heap)
    as [(pre & b & post & bk & h1 & tc & h2 & Hc & Hf & Hb & Hr & Hruns & _ & _ & _ & Hb2 & _)|(Hf & _)].
  - apply demo_ready.
  - by apply (bool_decide_unpack (NoDup _)); vm_compute.
  - apply demo_ready.
  - assert (b = 3%positive) as ->.
    { destruct pre as [|p0 [|p1 pre]]; simplify_eq/=; [|done|by destruct pre].
      vm_compute in Hb. injection Hb as <-. by vm_compute in Hr. }
    exists tc, h2. eexists. split; [exact Hruns|]. split; [exact Hb2|]. by vm_compute in Hb; injection Hb as <-.
  - apply Forall_cons in Hf as [_ [(b & Hb & Hr) _]%Forall_cons]. by vm_compute in Hb; injection Hb as <-.
Defined.

(** ** What the interleavings allow

    Four runs that the code admits and its comments do not mention. *)

(** A client accepted just before the listener is closed: [wg.Add] comes after
    [wg.Wait] has returned, and [Shutdown] returns with a handler about to start. *)
Lemma Shutdown_misses_handler :
  ∃ s, run [LServe; LServeCheck; LAccept; LShutdown; LCloseListener; LAllDone; LReturn; LSpawn] demo_server = Some s ∧
    shutdown s = DReturned ∧ ∃ x, handlers s !! 2%positive = Some x ∧ h_pc x = HStart.
Proof. eexists. split; [vm_compute; reflexivity|]. split; [done|]. eexists. by split. Qed.

(** A handler that registers its client after the forced close: nobody closes it. *)
Lemma force_misses_client :
  ∃ s, run (accept ++ stop ++ [LExpire; LForce; LHandler 2 ATrack]) demo_server = Some s ∧
    shutdown s = DForced ∧ 2%positive ∈ clientConns s ∧
    ∃ nc, h_conn (heap s) !! 2%positive = Some nc ∧ nc_closed nc = false.
Proof.
  eexists. split; [vm_compute; reflexivity|]. split; [done|]. split; [by vm_compute|]. eexists. by split.
Qed.

(** The forced close closes clients only: the backend's side of the connection is
    open, and [Shutdown] waits for the backend to end it. *)
Lemma force_leaves_backend :
  ∃ s, run (forcing ++ [LForce; LHandler 2 (ACopyEnd true); LHandler 2 (ASignal true)]) demo_server = Some s ∧
    shutdown s = DForced ∧
    (∃ x, handlers s !! 2%positive = Some x ∧ h_pc x = HPiping 2 CopyOver Copying) ∧
    ∃ t nc, h_tracked (heap s) !! 2%positive = Some t ∧ h_conn (heap s) !! tc_Conn t = Some nc ∧ nc_closed nc = false.
Proof.
  eexists. split; [vm_compute; reflexivity|]. split; [done|].
  split; [eexists; by split|]. eexists _, _. by split_and!.
Qed.

(** A backend that goes down between a handler's dial and its [Track]: the drain
    finds nothing to close, and the connection stays on the unhealthy backend. *)
Lemma drain_misses_dialed :
  ∃ s, run (accept ++ dial ++ [LReport 3 false 1 1; LCountDrained 3 0; LHandler 2 ATrackConn]) demo_server = Some s ∧
    ∃ b, h_backend (heap s) !! 3%positive = Some b ∧ healthy b = false ∧ size (conns b) = 1%nat.
Proof. eexists. split; [vm_compute; reflexivity|]. eexists. by split_and!. Qed.
