(* ===== verification/Metrics.v ===== *)
(** Package metrics, file metrics.go: /healthz, /readyz and the Prometheus text of
    /metrics, with a reader of that text to compare it against.

    A handler is a program that returns its response; [net/http] sends it.  The
    request mux is modelled for clean paths, which it routes by equality. *)
From S2P Require Import Prelude Backend Pool GoStrings.

(** The bytes Rocq strings cannot quote. *)
Definition quote : ascii := "034".
Definition backslash : ascii := "092".
Definition newline : ascii := "010".
Definition line (s : string) : string := s +:+ String newline "".

(** [strings.NewReplacer(pairs).Replace] when every old string is one byte: the first
    pair whose old string is the byte decides. *)
Definition replace_byte (pairs : list (ascii * string)) (c : ascii) : string :=
  match find (λ p, bool_decide (p.1 = c)) pairs with Some p => p.2 | None => String c "" end.
Fixpoint Replace (pairs : list (ascii * string)) (s : string) : string :=
  match s with EmptyString => "" | String c s' => replace_byte pairs c +:+ Replace pairs s' end.

Definition label_pairs : list (ascii * string) :=
  [(backslash, String backslash (String backslash "")); (quote, String backslash (String quote ""));
   (newline, String backslash "n")].
Definition escapeLabel (s : string) : string := Replace label_pairs s.

(** [%d] of a [uint64]. *)
Definition FormatUint (n : Z) : string := show_digits 20 n "".

(** ** Families *)

Record family := mkFamily { name : string; kind : string; help : string; value : Backend → Z }.

Definition families : list family := [
  mkFamily "apiserver_lb_backend_healthy" "gauge"
    "Whether the backend is currently considered healthy (1) or not (0)."
    (λ b, if healthy b then 1 else 0);
  mkFamily "apiserver_lb_backend_connections" "gauge"
    "Number of in-flight proxied connections to the backend."
    (λ b, Z.of_nat (size (conns b)) mod 2 ^ 64);
  mkFamily "apiserver_lb_connections_total" "counter"
    "Total connections proxied to the backend."
    (λ b, ConnsTotal (stats b));
  mkFamily "apiserver_lb_dial_errors_total" "counter"
    "Total failed dial attempts to the backend."
    (λ b, DialErrors (stats b));
  mkFamily "apiserver_lb_health_check_failures_total" "counter"
    "Total failed health probes against the backend."
    (λ b, CheckFailures (stats b));
  mkFamily "apiserver_lb_connections_drained_total" "counter"
    "Total connections force-closed because the backend turned unhealthy or was removed."
    (λ b, Drained (stats b))].

(** The three format strings. *)
Definition help_line (f : family) : string := "# HELP " +:+ name f +:+ " " +:+ help f.
Definition type_line (f : family) : string := "# TYPE " +:+ name f +:+ " " +:+ kind f.
Definition sample_line (f : family) (addr : string) (v : Z) : string :=
  name f +:+ "{server=" +:+ String quote (escapeLabel addr +:+ String quote ("} " +:+ FormatUint v)).

Section metrics.
Context {P : Type} `{Picker P}.

Definition writeMetrics (p : Pool P) : prog Heap string :=
  let backends := Backends p in
  for_fold (λ w f,
    for_fold (λ w l, a ← Addr l; b ← load_backend l; mret (w +:+ line (sample_line f a (value f b))))
      (w +:+ line (help_line f) +:+ line (type_line f)) backends) "" families.

(** ** The handler *)

Record Response := mkResponse { StatusCode : Z; ContentType : option string; Body : string }.

(** [http.Error]. *)
Definition http_Error (msg : string) (code : Z) : Response :=
  mkResponse code (Some "text/plain; charset=utf-8") (line msg).
Definition ok_response : Response := mkResponse 200 None (line "ok").

Definition NewHandler (p : Pool P) : list (string * prog Heap Response) := [
  ("/healthz", mret ok_response);
  ("/readyz",
    n ← HealthyCount p;
    if n =? 0 then mret (http_Error "no healthy backends" 503) else mret ok_response);
  ("/metrics",
    w ← writeMetrics p; mret (mkResponse 200 (Some "text/plain; version=0.0.4; charset=utf-8") w))].

Definition ServeHTTP (mux : list (string * prog Heap Response)) (path : string) : prog Heap Response :=
  match find (λ r, bool_decide (r.1 = path)) mux with
  | Some r => r.2
  | None => mret (http_Error "404 page not found" 404)
  end.
End metrics.

(** ** Reading the text back *)

(** A label value up to its closing quote, unescaped, and what follows. *)
Fixpoint read_label (s : string) : option (string * string) :=
  match s with
  | EmptyString => None
  | String c s' =>
      if decide (c = quote) then Some ("", s')
      else if decide (c = backslash) then
        match s' with
        | String d s'' =>
            u ← (if decide (d = backslash) then Some backslash
                 else if decide (d = quote) then Some quote
                 else if decide (d = "n"%char) then Some newline else None);
            '(v, rest) ← read_label s''; Some (String u v, rest)
        | EmptyString => None
        end
      else '(v, rest) ← read_label s'; Some (String c v, rest)
  end.

Definition strip (p s : string) : option string := if HasPrefix s p then Some (sdrop (String.length p) s) else None.

(** One sample: [name{server="..."} value]. *)
Definition read_sample (s : string) : option (string * string * Z) :=
  i ← IndexByte s "{";
  rest ← strip ("{server=" +:+ String quote "") (sdrop i s);
  '(server, rest) ← read_label rest;
  digits ← strip "} " rest;
  v ← parse_digits digits 0;
  Some (stake i s, server, v).

(** A scrape: every line but the comments, the last one ended by a newline. *)
Definition is_sample (s : string) : bool := negb (HasPrefix s "#") && bool_decide (s ≠ "").
Definition scrape (out : string) : option (list (string * string * Z)) :=
  mapM read_sample (filter is_sample (Split out newline)).

(** ** Reading back one label and one sample *)

Lemma escapeLabel_cons c s : escapeLabel (String c s) =
  (if decide (c = backslash) then String backslash (String backslash "")
   else if decide (c = quote) then String backslash (String quote "")
   else if decide (c = newline) then String backslash "n" else String c "") +:+ escapeLabel s.
Proof.
  unfold escapeLabel. cbn [Replace]. f_equal. unfold replace_byte. cbn [find label_pairs fst].
  repeat case_bool_decide; repeat case_decide; congruence || done.
Qed.

#[local] Arguments escapeLabel : simpl never.
#[local] Arguments FormatUint : simpl never.

Lemma sapp_nil_l s : "" +:+ s = s.
Proof. done. Qed.

Lemma read_label_escape s rest : read_label (escapeLabel s +:+ String quote rest) = Some (s, rest).
Proof.
  induction s as [|c s IH]; [done|]. rewrite escapeLabel_cons.
  destruct (decide (c = backslash)) as [->|H1]; [rewrite !sapp_cons, sapp_nil_l; simpl; by rewrite IH|].
  destruct (decide (c = quote)) as [->|H2]; [rewrite !sapp_cons, sapp_nil_l; simpl; by rewrite IH|].
  destruct (decide (c = newline)) as [->|H3]; [rewrite !sapp_cons, sapp_nil_l; simpl; by rewrite IH|].
  rewrite !sapp_cons, sapp_nil_l. cbn [read_label]. rewrite !decide_False by done.
  by rewrite IH.
Qed.

Lemma escape_no_newline s : no_byte newline (escapeLabel s) = true.
Proof.
  induction s as [|c s IH]; [done|]. rewrite escapeLabel_cons, no_byte_app, IH, andb_true_r.
  repeat (case_decide; [done|]). by rewrite no_byte_cons, bool_decide_eq_false_2.
Qed.

Lemma strip_app p s : strip p (p +:+ s) = Some s.
Proof. unfold strip. by rewrite HasPrefix_app, sdrop_app. Qed.

Lemma parse_FormatUint v : is_uint64 v → parse_digits (FormatUint v) 0 = Some v.
Proof. unfold is_uint64, FormatUint. intros Hv. rewrite parse_show_digits by lia. done. Qed.

Lemma FormatUint_no_newline v : 0 <= v → no_byte newline (FormatUint v) = true.
Proof. intros Hv. pose proof (Itoa_free v newline Hv eq_refl) as Hf. unfold Itoa in Hf. by destruct (Z.ltb_spec v 0); [lia|]. Qed.

Definition plain_name (s : string) : bool := no_byte "{" s && no_byte newline s.

Lemma read_sample_line f addr v : plain_name (name f) = true → is_uint64 v →
  read_sample (sample_line f addr v) = Some (name f, addr, v).
Proof.
  intros [Hn _]%andb_prop Hv. unfold sample_line.
  set (rest := escapeLabel addr +:+ String quote ("} " +:+ FormatUint v)).
  assert (IndexByte (name f +:+ "{server=" +:+ String quote rest) "{" = Some (String.length (name f))) as Hi
    by (by apply (IndexByte_app (name f) "{" ("server=" +:+ String quote rest))).
  assert (strip ("{server=" +:+ String quote "") ("{server=" +:+ String quote rest) = Some rest) as Hs
    by apply (strip_app ("{server=" +:+ String quote "") rest).
  unfold read_sample. rewrite Hi. simpl. rewrite sdrop_app, stake_app. simpl in Hs. rewrite Hs. simpl.
  unfold rest. rewrite read_label_escape. simpl.
  by rewrite sapp_nil_l, parse_FormatUint.
Qed.

(** ** The whole text *)

Definition sample_text (h : Heap) (f : family) (l : loc) : string :=
  match h_backend h !! l with Some b => sample_line f (addr b) (value f b) | None => "" end.
Definition family_text (h : Heap) (bs : list loc) (f : family) : list string :=
  help_line f :: type_line f :: map (sample_text h f) bs.
Definition join_lines (xs : list string) : string := foldr (λ x w, line x +:+ w) "" xs.

Lemma join_lines_app xs ys : join_lines (xs ++ ys) = join_lines xs +:+ join_lines ys.
Proof. induction xs as [|x xs IH]; [done|]. simpl. by rewrite IH, sapp_assoc. Qed.
Lemma join_lines_snoc xs x : join_lines (xs ++ [x]) = join_lines xs +:+ line x.
Proof. rewrite join_lines_app. simpl. by rewrite sapp_nil_r. Qed.

Lemma Split_line s t : no_byte newline s = true → Split (line s +:+ t) newline = s :: Split t newline.
Proof. intros Hs. unfold line. rewrite sapp_assoc, sapp_cons. by apply Split_app. Qed.

Lemma Split_join xs : Forall (λ x, no_byte newline x = true) xs → Split (join_lines xs) newline = xs ++ [""].
Proof. induction 1 as [|x xs Hx _ IH]; [done|]. simpl. by rewrite Split_line, IH. Qed.

Section text.
Context {P : Type} `{Picker P}.

Lemma writeMetrics_runs (p : Pool P) h : Forall (allocated h) (backends p) →
  runs (writeMetrics p) h (join_lines (flat_map (family_text h (backends p)) families)) h.
Proof.
  intros Hall. unfold writeMetrics, Backends.
  destruct (runs_for_fold (λ w f,
    for_fold (λ w l, a ← Addr l; b ← load_backend l; mret (w +:+ line (sample_line f a (value f b))))
      (w +:+ line (help_line f) +:+ line (type_line f)) (backends p))
    (λ pre w t, t = h ∧ w = join_lines (flat_map (family_text h (backends p)) pre)) families "" h)
    as (w & t & Hr & -> & ->); [done| |done].
  intros pre f post w t _ [-> ->]. rewrite flat_map_app, join_lines_app. simpl. rewrite app_nil_r.
  set (w0 := join_lines (flat_map (family_text h (backends p)) pre)).
  destruct (runs_for_fold (λ w l, a ← Addr l; b ← load_backend l; mret (w +:+ line (sample_line f a (value f b))))
    (λ pre w t, t = h ∧ w = w0 +:+ join_lines (help_line f :: type_line f :: map (sample_text h f) pre))
    (backends p) (w0 +:+ line (help_line f) +:+ line (type_line f)) h)
    as (w' & t' & Hr & -> & ->); [simpl; by rewrite sapp_nil_r| |eauto].
  intros bs l bs' w t Hl [-> ->]. assert (allocated h l) as [b Hb].
  { rewrite Forall_forall in Hall. apply Hall. rewrite Hl. set_solver. }
  eexists _, h. split; [|split; [done|]].
  - eapply runs_bind; [by apply Addr_runs|]. eapply runs_bind; [by apply runs_deref|]. done.
  - rewrite map_app. change (map (sample_text h f) [l]) with [sample_text h f l].
    rewrite !app_comm_cons, join_lines_snoc, <- sapp_assoc.
    by replace (sample_text h f l) with (sample_line f (addr b) (value f b)) by (unfold sample_text; by rewrite Hb).
Qed.
End text.

(** What one scrape should yield. *)
Definition samples (bs : list Backend) : list (string * string * Z) :=
  flat_map (λ f, map (λ b, (name f, addr b, value f b)) bs) families.

Definition counters_ok (b : Backend) : Prop :=
  is_uint64 (ConnsTotal (stats b)) ∧ is_uint64 (DialErrors (stats b)) ∧
  is_uint64 (CheckFailures (stats b)) ∧ is_uint64 (Drained (stats b)).

Definition family_ok (f : family) : Prop :=
  plain_name (name f) = true ∧ is_sample (help_line f) = false ∧ is_sample (type_line f) = false ∧
  no_byte newline (help_line f) = true ∧ no_byte newline (type_line f) = true ∧
  HasPrefix (name f) "#" = false ∧ name f ≠ "" ∧ ∀ b, counters_ok b → is_uint64 (value f b).

Lemma families_ok : Forall family_ok families.
Proof.
  repeat (apply Forall_cons; split; [|]); [..|apply Forall_nil; done]; unfold family_ok;
    (split_and!; [reflexivity..|done|]); intros b (H1 & H2 & H3 & H4); simpl; try done.
  - unfold is_uint64. destruct (healthy b); lia.
  - unfold is_uint64. apply Z.mod_pos_bound. lia.
Qed.

Lemma sample_line_no_newline f a v : plain_name (name f) = true → 0 <= v →
  no_byte newline (sample_line f a v) = true.
Proof.
  intros [_ Hn]%andb_prop Hv. unfold sample_line.
  by rewrite !no_byte_app, !no_byte_cons, no_byte_app, no_byte_cons, no_byte_app, Hn, escape_no_newline,
    FormatUint_no_newline.
Qed.

Lemma sample_line_is_sample f a v : family_ok f → is_sample (sample_line f a v) = true.
Proof.
  intros (_ & _ & _ & _ & _ & Hp & Hne & _). unfold is_sample, sample_line.
  destruct (name f) as [|c s]; [done|]. rewrite sapp_cons. simpl in *. by rewrite Hp.
Qed.

Section round_trip.
Context (h : Heap) (ls : list loc) (bs : list Backend).
Context (Hbs : Forall2 (λ l b, h_backend h !! l = Some b) ls bs) (Hok : Forall counters_ok bs).

Lemma family_lines f : map (sample_text h f) ls = map (λ b, sample_line f (addr b) (value f b)) bs.
Proof.
  clear Hok. induction Hbs as [|l b ls' bs' Hb _ IH]; [done|]. simpl. unfold sample_text at 1.
  rewrite Hb, IH; [done|by inversion Hbs].
Qed.

Lemma family_text_no_newline f : family_ok f → Forall (λ x, no_byte newline x = true) (family_text h ls f).
Proof.
  intros Hf. pose proof Hf as (Hn & _ & _ & H1 & H2 & _ & _ & Hv). unfold family_text. rewrite family_lines.
  constructor; [done|]. constructor; [done|]. apply Forall_map. eapply Forall_impl; [done|].
  intros b Hb. apply sample_line_no_newline; [done|]. by apply Hv.
Qed.

Lemma family_text_samples f : family_ok f →
  filter is_sample (family_text h ls f) = map (λ b, sample_line f (addr b) (value f b)) bs.
Proof.
  intros Hf. pose proof Hf as (_ & H1 & H2 & _). unfold family_text. rewrite family_lines, !filter_cons.
  rewrite !decide_False by (rewrite ?H1, ?H2; by intros []). clear Hbs. induction bs as [|b bs' IH]; [done|].
  simpl. rewrite filter_cons, decide_True by (by rewrite sample_line_is_sample). f_equal. apply IH. by inversion Hok.
Qed.

Lemma read_family f : family_ok f →
  mapM read_sample (map (λ b, sample_line f (addr b) (value f b)) bs) = Some (map (λ b, (name f, addr b, value f b)) bs).
Proof.
  intros Hf. pose proof Hf as (Hn & _ & _ & _ & _ & _ & _ & Hv). clear Hbs.
  induction bs as [|b bs' IH]; [done|]. apply Forall_cons in Hok as [Hb Hok']. simpl.
  rewrite read_sample_line by auto. simpl. by rewrite IH.
Qed.

Lemma mapM_app_Some {A B} (g : A → option B) xs ys us vs :
  mapM g xs = Some us → mapM g ys = Some vs → mapM g (xs ++ ys) = Some (us ++ vs).
Proof. intros Hx Hy. apply mapM_Some. apply mapM_Some in Hx, Hy. by apply Forall2_app. Qed.

Lemma scrape_text fs : Forall family_ok fs →
  scrape (join_lines (flat_map (family_text h ls) fs)) =
    Some (flat_map (λ f, map (λ b, (name f, addr b, value f b)) bs) fs).
Proof.
  intros Hfs. unfold scrape. rewrite Split_join.
  2:{ induction Hfs as [|f fs Hf _ IH]; [constructor|]. apply Forall_app. split; [by apply family_text_no_newline|done]. }
  rewrite filter_app. change (filter is_sample [""]) with ([] : list string). rewrite app_nil_r.
  induction Hfs as [|f fs Hf _ IH]; [done|]. cbn [flat_map]. rewrite filter_app, family_text_samples by done.
  apply mapM_app_Some; [by apply read_family|done].
Qed.
End round_trip.

Lemma healthy_some h ls : Forall (allocated h) ls →
  (∃ l, l ∈ healthy_of h ls) ↔ ∃ l b, l ∈ ls ∧ h_backend h !! l = Some b ∧ healthy b = true.
Proof.
  rewrite Forall_forall. intros Hall. unfold healthy_of. setoid_rewrite list_elem_of_filter. split.
  - intros (l & Hh & Hl). destruct (Hall l Hl) as [b Hb]. exists l, b. split_and!; [done..|].
    rewrite (is_healthy_Some _ _ _ Hb) in Hh. by destruct (healthy b).
  - intros (l & b & Hl & Hb & Hh). exists l. by rewrite (is_healthy_Some _ _ _ Hb), Hh.
Qed.

Lemma ready_answer (n : Z) (a b : Response) (h : Heap) :
  runs (if n =? 0 then mret a else mret b) h (if n =? 0 then a else b) h.
Proof. by destruct (n =? 0). Qed.

Section theorems.
Context {P : Type} `{Picker P}.

(** C36. /metrics is readable: rendering never panics and changes nothing, and
    reading the text back, line by line, yields for every family and every backend,
    in order, exactly the family's name, the backend's address and its value,
    whatever bytes (quotes, backslashes, newlines) the addresses contain. *)
Theorem writeMetrics_round_trip (p : Pool P) (h : Heap) (bs : list Backend)
    (Hbs : Forall2 (λ l b, h_backend h !! l = Some b) (backends p) bs) (Hok : Forall counters_ok bs) :
  ∃ out, runs (writeMetrics p) h out h ∧ scrape out = Some (samples bs).
Proof.
  eexists. split; [apply writeMetrics_runs|by apply scrape_text; [..|apply families_ok]].
  rewrite Forall_forall. intros l Hl. apply list_elem_of_lookup in Hl as [i Hi].
  destruct (Forall2_lookup_l _ _ _ _ _ Hbs Hi) as (b & _ & Hb). by exists b.
Qed.

(** The probe endpoints: /healthz answers 200 always, /readyz answers 200
    exactly while some backend of the pool is healthy and 503 otherwise, any other
    path but /metrics 404; none of them panics or changes anything. *)
Theorem NewHandler_probes (p : Pool P) (h : Heap) (Hall : Forall (allocated h) (backends p)) :
  runs (ServeHTTP (NewHandler p) "/healthz") h ok_response h ∧
  (∃ r, runs (ServeHTTP (NewHandler p) "/readyz") h r h ∧
     (StatusCode r = 200 ↔ ∃ l b, l ∈ backends p ∧ h_backend h !! l = Some b ∧ healthy b = true) ∧
     (StatusCode r = 200 ∨ StatusCode r = 503)) ∧
  ∀ path, path ≠ "/healthz" → path ≠ "/readyz" → path ≠ "/metrics" →
    ∃ r, runs (ServeHTTP (NewHandler p) path) h r h ∧ StatusCode r = 404.
Proof.
  split_and!; [done| |].
  - eexists. split; [unfold ServeHTTP; simpl; eapply runs_bind; [by apply HealthyCount_runs|apply ready_answer]|].
    rewrite <- (healthy_some _ _ Hall). destruct (healthy_of h (backends p)) as [|l hs]; simpl.
    + split; [split; [done|]|by right]. intros [l Hl]. by apply elem_of_nil in Hl.
    + split; [split; [|done]|by left]. intros _. exists l. left.
  - intros path H1 H2 H3. eexists. unfold ServeHTTP. simpl.
    by rewrite !bool_decide_eq_false_2.
Qed.
End theorems.

Lemma writeMetrics_round_trip_witness : ∃ out l, runs (writeMetrics demo_pool) demo_heap out demo_heap ∧
  scrape out = Some l ∧ length l = 12%nat ∧
  ("apiserver_lb_backend_connections", "10.0.0.1:6443", 2) ∈ l.
Proof.
  let bs := eval vm_compute in (omap (λ l, h_backend demo_heap !! l) [2%positive; 3%positive]) in
    destruct (writeMetrics_round_trip demo_pool demo_heap bs) as (out & Hr & Hs).
  - by repeat (apply Forall2_cons; split).
  - repeat (apply Forall_cons; split); try done; unfold counters_ok, is_uint64; simpl; lia.
  - exists out. eexists. split; [exact Hr|]. split; [exact Hs|]. split; [by vm_compute|].
    apply (bool_decide_unpack (_ ∈ _)). by vm_compute.
Defined.

Lemma NewHandler_probes_witness :
  ∃ r, runs (ServeHTTP (NewHandler demo_pool) "/readyz") demo_heap r demo_heap ∧ StatusCode r = 200.
Proof.
  destruct (NewHandler_probes demo_pool demo_heap demo_pool_allocated) as (_ & (r & Hr & Hiff & _) & _).
  exists r. split; [exact Hr|]. apply Hiff. exists 2%positive. eexists. split; [left|]. by split; [vm_compute|].
Defined.
