(* ===== verification/Main.v ===== *)
(** Package main, file cmd/local-apiserver-lb/main.go: what [run] does with its
    arguments, up to the point where the goroutines of the other components run, and
    the exit code it ends with.  Also package version, file version.go. *)
From S2P Require Import Prelude Backend Pool GoStrings GoNet Config Flags Kubeconfig State Prober ProxyFacts.

(** The metadata the linker sets. *)
Record Build := mkBuild { Version : string; Commit : string; BuildDate : string }.
Definition dev_build : Build := mkBuild "dev" "unknown" "unknown".
Definition version_String (b : Build) : string :=
  "local-apiserver-lb " +:+ Version b +:+ " (commit " +:+ Commit b +:+ ", built " +:+ BuildDate b +:+ ")".

(** [slog] levels; a missing key of the map reads as 0. *)
Definition levels : gmap string Z := {["debug" := -4; "info" := 0; "warn" := 4; "error" := 8]}.
Record Logger := mkLogger { Level : Z; is_JSON : bool }.
Definition newLogger (c : Config) : Logger :=
  mkLogger (default 0 (levels !! LogLevel c)) (bool_decide (LogFormat c = "json")).

(** ** The first pool *)

Lemma NewPool_ready addrs nm : NoDup addrs → nm ∈ ["round-robin"; "least-conn"] →
  ∃ p h', runs (NewPool addrs nm) empty_heap (Some p) h' ∧ wf_pool h' p addrs ∧
    Pool.Name (picker p) = nm ∧ healthy_of h' (backends p) = backends p ∧ ready h' p.
Proof.
  intros Hnd Hnm. assert (∃ pk, newPicker nm = Some pk ∧ Pool.Name pk = nm) as (pk & Hpk & Hname).
  { apply elem_of_cons in Hnm as [->|[->|[]%elem_of_nil]%elem_of_cons]; by eexists. }
  destruct (NewPool_pool_runs addrs pk empty_heap Hnd) as (bs & h' & Hr & Hwf & Hh & Hheap).
  exists (mkPool bs pk), h'. split; [unfold NewPool; rewrite Hpk; by eapply runs_bind|].
  split_and!; [done..|]. split.
  - apply Hheap, empty_heap_wf.
  - by eapply wf_pool_allocated.
  - intros tc t Ht. destruct (tc_once t) eqn:Ho; [done|].
    assert (tame empty_heap h') as [Hc _].
    { eapply (keeps_for_fold (λ bs a, b ← alloc_backend (New a); mret (bs ++ [b]))); [|exact Hr].
      intros b a. apply keeps_bind; auto with calm. }
    by destruct (cm_open _ _ Hc _ _ Ht Ho) as (t0 & Ht0 & _).
Qed.

Section main.
Context {CertPool Certificate : Type} `{StateCodec}.
Context (AppendCertsFromPEM : string → option CertPool).
Context (lookup : string → option (list IP)).

(** What [run] finds outside: the files the flags name, the disk with the state file,
    whether an address can be listened on. *)
Record Outside := mkOutside { o_fs : FS; o_disk : Disk; o_listen : string → bool }.

(** What is running when [run] waits: the components it has started. *)
Record Process := mkProcess {
  pr_config : Config;
  pr_logger : Logger;
  pr_pool : Pool anyPicker;
  pr_prober : @anyProber CertPool;
  pr_discovery : bool;
  pr_metrics : bool
}.

(** The servers to start from: the state file's when it is there and valid. *)
Definition select_servers (cfg : Config) (d : Disk) : list string :=
  if bool_decide (StateFile cfg = "") then Servers cfg
  else match LoadState (StateFile cfg) d with
       | inr restored =>
           match ValidateServers lookup restored (Listen cfg) with
           | inl _ => Servers cfg
           | inr _ => restored
           end
       | inl _ => Servers cfg
       end.

(** Until the components run: an exit code, with what was printed on standard
    output, or the process. *)
Definition setup (args : list string) (build : Build) (o : Outside) : prog Heap ((Z * string) + Process) :=
  match Parse args with
  | inl _ => mret (inl (2, ""))
  | inr cfg0 =>
      if ShowVersion cfg0 then mret (inl (0, version_String build +:+ String "010" ""))
      else
        match Validate lookup (λ path, bool_decide (is_Some (o_fs o path))) cfg0 with
        | inl _ => mret (inl (1, ""))
        | inr cfg =>
            pool ← NewPool (select_servers cfg (o_disk o)) (Balance cfg);
            match pool with
            | None => mret (inl (1, ""))
            | Some pool =>
                match NewProber AppendCertsFromPEM (o_fs o) (HealthCheckMode cfg) (CAFile cfg) with
                | inl _ => mret (inl (1, ""))
                | inr prober =>
                    if negb (o_listen o (Listen cfg)) then mret (inl (1, ""))
                    else mret (inr (mkProcess cfg (newLogger cfg) pool prober
                           (negb (bool_decide (DiscoveryKubeconfig cfg = "")))
                           (negb (bool_decide (MetricsListen cfg = "")))))
                end
            end
        end
  end.

(** How the wait ends: a signal, then [Shutdown], which returns nil; or [Serve]
    returning first. *)
Inductive ending := Signalled | ServeFailed.
Definition exit_code (e : ending) : Z := match e with Signalled => 0 | ServeFailed => 1 end.

Definition run (args : list string) (build : Build) (o : Outside) (e : ending) : prog Heap Z :=
  r ← setup args build o; mret (match r with inl (code, _) => code | inr _ => exit_code e end).

(** ** Facts *)

Lemma ValidateServers_distinct servers listen :
  ValidateServers lookup servers listen = inr tt → servers ≠ [] ∧ NoDup servers.
Proof. by intros (host & port & ips & _ & _ & Hne & Hnd & _)%ValidateServers_good. Qed.

Lemma effective_fields c : Listen (effective c) = Listen c ∧ Servers (effective c) = Servers c ∧
  StateFile (effective c) = StateFile c ∧ Balance (effective c) = Balance c ∧
  HealthCheckMode (effective c) = HealthCheckMode c ∧ CAFile (effective c) = CAFile c.
Proof. unfold effective. by case_decide. Qed.

Lemma valid_config_servers openable c : valid_config lookup openable c →
  ValidateServers lookup (Servers c) (Listen c) = inr tt.
Proof.
  intros Hv. apply ValidateServers_good. destruct (vc_listen _ _ _ Hv) as (host & port & ips & Hh & Hi & _ & Hs).
  by exists host, port, ips.
Qed.

Lemma select_servers_cases cfg d :
  (StateFile cfg ≠ "" ∧ LoadState (StateFile cfg) d = inr (select_servers cfg d) ∧
   ValidateServers lookup (select_servers cfg d) (Listen cfg) = inr tt) ∨
  (select_servers cfg d = Servers cfg ∧
   ∀ r, StateFile cfg ≠ "" → LoadState (StateFile cfg) d = inr r → ValidateServers lookup r (Listen cfg) ≠ inr tt).
Proof.
  unfold select_servers. case_bool_decide as Hs; [by right|].
  destruct (LoadState (StateFile cfg) d) as [e|r]; [by right|].
  destruct (ValidateServers lookup r (Listen cfg)) as [e|[]] eqn:Hv; [|by left].
  right. split; [done|]. intros r' _ [= <-]. congruence.
Qed.

(** The health check can be set up. *)
Definition prober_ok (o : Outside) (c : Config) : Prop :=
  HealthCheckMode c = "readyz" → CAFile c ≠ "" →
  ∃ pem roots, o_fs o (CAFile c) = Some pem ∧ AppendCertsFromPEM pem = Some roots.

Lemma NewProber_ok o c : HealthCheckMode c ∈ ["readyz"; "tcp"] →
  (∃ p, NewProber AppendCertsFromPEM (o_fs o) (HealthCheckMode c) (CAFile c) = inr p) ↔ prober_ok o c.
Proof.
  unfold prober_ok, NewProber, NewReadyzProber, loadCAPool. intros Hm.
  apply elem_of_cons in Hm as [Hm|[Hm|[]%elem_of_nil]%elem_of_cons]; rewrite Hm; simpl; [|split; [done|eauto]].
  case_bool_decide as Hc; simpl; [split; [done|eauto]|].
  destruct (o_fs o (CAFile c)) as [pem|]; [|naive_solver].
  destruct (AppendCertsFromPEM pem) as [roots|] eqn:E; [split; [eauto|eauto]|naive_solver].
Qed.

Definition openable (o : Outside) (path : string) : bool := bool_decide (is_Some (o_fs o path)).

(** What a start needs. *)
Definition can_start (o : Outside) (c : Config) : Prop :=
  valid_config lookup (openable o) c ∧ prober_ok o c ∧ o_listen o (Listen c) = true.

(** What [setup] ends in, when the command line gives [cfg]. *)
Definition started (cfg : Config) (o : Outside) (r : (Z * string) + Process) (h' : Heap) : Prop :=
    match r with
    | inl (code, out) => code = 1 ∧ out = "" ∧ ¬ can_start o cfg
    | inr pr =>
        can_start o cfg ∧ pr_config pr = effective cfg ∧ ready h' (pr_pool pr) ∧
        Pool.Name (picker (pr_pool pr)) = Balance cfg ∧
        healthy_of h' (backends (pr_pool pr)) = backends (pr_pool pr) ∧
        ∃ servers, wf_pool h' (pr_pool pr) servers ∧ servers ≠ [] ∧
          ValidateServers lookup servers (Listen cfg) = inr tt ∧
          ((StateFile cfg ≠ "" ∧ LoadState (StateFile cfg) (o_disk o) = inr servers) ∨
           (servers = Servers cfg ∧ ∀ r, StateFile cfg ≠ "" → LoadState (StateFile cfg) (o_disk o) = inr r →
              ValidateServers lookup r (Listen cfg) ≠ inr tt))
    end.

Lemma setup_runs (args : list string) (cfg : Config) (build : Build) (o : Outside) :
  Parse args = inr cfg → ShowVersion cfg = false →
  ∃ r h', runs (setup args build o) empty_heap r h' ∧ started cfg o r h'.
Proof.
  intros Hargs Hver. unfold setup, started. rewrite Hargs, Hver. fold (openable o).
  destruct (Validate lookup (openable o) cfg) as [e|c] eqn:Hv.
  { eexists _, _. split; [done|]. simpl. split_and!; [done..|]. intros (Hvc & _).
    assert (Validate lookup (openable o) cfg = inr (effective cfg)) as E by (by apply Validate_valid). congruence. }
  apply Validate_valid in Hv as [Hv ->].
  destruct (effective_fields cfg) as (EL & ES & ESt & EB & EM & EC).
  assert (ValidateServers lookup (select_servers (effective cfg) (o_disk o)) (Listen cfg) = inr tt) as Hsel.
  { destruct (select_servers_cases (effective cfg) (o_disk o)) as [(_ & _ & H1)|[-> _]]; [by rewrite EL in H1|].
    rewrite ES. by eapply valid_config_servers. }
  destruct (ValidateServers_distinct _ _ Hsel) as [Hne Hnd].
  destruct (NewPool_ready _ (Balance cfg) Hnd (vc_balance _ _ _ Hv)) as (p & h' & Hr & Hwf & Hname & Hh & Hready).
  pose proof (NewProber_ok o cfg (vc_mode _ _ _ Hv)) as Hprober.
  rewrite EB, EM, EC, EL.
  destruct (NewProber AppendCertsFromPEM (o_fs o) (HealthCheckMode cfg) (CAFile cfg)) as [e|prober].
  { eexists _, _. split; [by eapply runs_bind|]. simpl. split_and!; [done..|]. intros (_ & Hp & _).
    by apply Hprober in Hp as [? ?]. }
  destruct (o_listen o (Listen cfg)) eqn:Hl; simpl.
  2:{ eexists _, _. split; [by eapply runs_bind|]. simpl. split_and!; [done..|]. intros (_ & _ & ?). congruence. }
  eexists _, _. split; [by eapply runs_bind|]. simpl. split_and!; try done.
  { split_and!; [done| |done]. apply Hprober. by eexists. }
  exists (select_servers (effective cfg) (o_disk o)). split_and!; [done..|].
  destruct (select_servers_cases (effective cfg) (o_disk o)) as [(H1 & H2 & _)|[H1 H2]]; rewrite ESt in *.
  - by left.
  - right. rewrite EL, ES in *. by split.
Qed.

(** C37. Starting up.  From an empty heap, a command line that parses and does not ask
    for the version never panics, and starts exactly when its configuration is
    valid, the health check can be set up and the address can be listened on; any
    failure is exit code 1.  What starts runs the effective configuration on a
    non-empty pool of distinct, healthy backends under the configured strategy: the
    list of the state file when there is one and it is valid, else the configured
    one, in that order; and nothing is in flight. *)
Theorem setup_starts (args : list string) (cfg : Config) (build : Build) (o : Outside)
    (Hargs : Parse args = inr cfg) (Hver : ShowVersion cfg = false) :
  ∃ r h', runs (setup args build o) empty_heap r h' ∧ started cfg o r h'.
Proof. by apply setup_runs. Qed.

(** A list that was saved is read back. *)
Lemma saved_loads os path tmp servers d : os_temp os = Some tmp → tmp ≠ path → servers ≠ [] →
  save_error os path servers d = false → LoadState path (saved os path servers d) = inr servers.
Proof.
  unfold save_error, saved, saveState. intros -> Hne Hs.
  destruct (os_chmod os), (os_write os), (os_close os), (os_rename os); simpl; try done. intros _.
  unfold LoadState.
  assert (∀ m : Disk, (if os_remove os then delete tmp (<[path := mkFile (Marshal servers) 384]> m)
    else <[path := mkFile (Marshal servers) 384]> m) !! path = Some (mkFile (Marshal servers) 384)) as Hm.
  { intros m. destruct (os_remove os); by rewrite ?lookup_delete_ne, lookup_insert_eq. }
  rewrite Hm. simpl. rewrite Unmarshal_Marshal. by destruct servers.
Qed.

(** C38. Discovery's list survives a restart: after a list that passes validation has
    been saved without error, the next start with that state file and listen address
    begins from exactly that list, whatever --servers still says. *)
Theorem restart_resumes (cfg : Config) (os : osRun) (tmp : string) (servers : list string) (d : Disk)
    (Hpath : StateFile cfg ≠ "") (Htmp : os_temp os = Some tmp) (Hne : tmp ≠ StateFile cfg)
    (Hok : save_error os (StateFile cfg) servers d = false)
    (Hvalid : ValidateServers lookup servers (Listen cfg) = inr tt) :
  select_servers cfg (saved os (StateFile cfg) servers d) = servers.
Proof.
  destruct (ValidateServers_distinct _ _ Hvalid) as [Hs _]. unfold select_servers.
  rewrite bool_decide_eq_false_2 by done. by rewrite (saved_loads _ _ _ _ _ Htmp Hne Hs Hok), Hvalid.
Qed.
End main.

(** ** Witnesses *)

(** A command line with discovery and a state file, and what it parses to. *)
Definition start_args : list string := [
  "--servers"; "cp1:6443, 10.0.0.2:6443"; "--balance=least-conn"; "--ca-file=/etc/kubernetes/pki/ca.crt";
  "--metrics-listen=127.0.0.1:9299"; "-log-level"; "debug"; "--log-format=json";
  "--discovery-kubeconfig=/etc/kubelet.conf"; "--state-file=/var/lib/lb/servers.json"].
Definition start_config : Config :=
  mkConfig "127.0.0.1:6443" ["cp1:6443"; "10.0.0.2:6443"] "least-conn" "readyz"
    3000000000 3000000000 2 2 3000000000 "/etc/kubernetes/pki/ca.crt" true 30000000000
    "127.0.0.1:9299" "debug" "json" false 10000000000 false "/etc/kubelet.conf" 30000000000
    "/var/lib/lb/servers.json"
    (list_to_set ["servers"; "balance"; "ca-file"; "metrics-listen"; "log-level"; "log-format";
                  "discovery-kubeconfig"; "state-file"]).
Lemma start_args_parse : Parse start_args = inr start_config.
Proof. vm_compute. reflexivity. Qed.
Definition start_disk : Disk :=
  {["/var/lib/lb/servers.json" := mkFile (Marshal ["10.0.0.9:6443"]) 384]}.
Definition start_outside (d : Disk) : Outside :=
  mkOutside (λ path, if decide (path = "/etc/kubernetes/pki/ca.crt") then Some "--ca--" else None) d (λ _, true).

Example run_codes :
  let code args o e := fst <$> run (λ pem, Some pem) demo_lookup args dev_build o e empty_heap in
  (code ["--fall"] (start_outside ∅) Signalled, code ["--version"] (start_outside ∅) Signalled,
   code [] (start_outside ∅) Signalled, code start_args (start_outside ∅) Signalled,
   code start_args (start_outside ∅) ServeFailed, code start_args (mkOutside (λ _, None) ∅ (λ _, true)) Signalled) =
  (Some 2, Some 0, Some 1, Some 0, Some 1, Some 1).
Proof. vm_compute. reflexivity. Qed.

Lemma setup_starts_witness :
  ∃ pr h', runs (setup (λ pem, Some pem) demo_lookup start_args dev_build (start_outside start_disk))
    empty_heap (inr pr) h' ∧ wf_pool h' (pr_pool pr) ["10.0.0.9:6443"].
Proof.
  destruct (setup_starts (λ pem : string, Some pem) demo_lookup start_args start_config dev_build (start_outside start_disk)
              start_args_parse)
    as ([[code out]|pr] & h' & Hr & Hs); [done|..].
  - exfalso. vm_compute in Hr. discriminate Hr.
  - destruct Hs as (_ & _ & _ & _ & _ & servers & Hwf & _ & _ & [[_ Hl]|[-> Hn]]).
    + exists pr, h'. split; [exact Hr|]. vm_compute in Hl. by injection Hl as <-.
    + exfalso. apply (Hn ["10.0.0.9:6443"]); [done|by vm_compute..].
Defined.

Lemma restart_resumes_witness :
  select_servers demo_lookup start_config
    (saved (mkRun (Some "/var/lib/lb/.servers-1.tmp") 3 true true true true true) "/var/lib/lb/servers.json"
       ["10.0.0.7:6443"; "10.0.0.8:6443"] start_disk) = ["10.0.0.7:6443"; "10.0.0.8:6443"].
Proof. apply (restart_resumes demo_lookup start_config _ "/var/lib/lb/.servers-1.tmp"); by vm_compute. Defined.
