(* ===== verification/Pipe.v ===== *)
(** Package proxy, functions pipe and copyThenCloseWrite: the bytes of an established
    connection.

    Two copy goroutines move bytes between a client socket and a backend socket while
    the peers send, half-close or fail, and while [DrainAll] and [Shutdown] may close a
    socket under them.  [io.Copy] is its loop: read some bytes, at least one, however
    many there are; write them all; until end-of-file or an error. *)
From S2P Require Import Prelude.
From Stdlib Require Import Strings.Byte.

(** ** State *)

(** One of our sockets: every byte that arrived and how many were read, whether the
    peer has finished sending; every byte written to the peer; whether our side has
    half-closed it, closed it; whether the connection failed. *)
Record sock := mkSock {
  arrived : list byte; taken : nat; fin : bool;
  written : list byte; wclosed : bool; closed : bool; broken : bool
}.
Definition fresh_sock : sock := mkSock [] 0 false [] false false false.

(** Where a copy goroutine is: reading; with the bytes it read; past [io.Copy]; done. *)
Inductive copier := CRead | CWrite (buf : list byte) | CSignal | COver.

(** The sides, and the directions: [true] from the client to the backend. *)
Inductive side := Client | BackendSide.
Definition src (up : bool) : side := if up then Client else BackendSide.
Definition dst (up : bool) : side := src (negb up).

(** A running [pipe]; [torn]: its deferred [Close], and that of [handle], have run. *)
Record pipe := mkPipe { client : sock; backend : sock; upward : copier; downward : copier; torn : bool }.

Definition sock_of (d : side) (p : pipe) : sock := match d with Client => client p | BackendSide => backend p end.
Definition set_sock (d : side) (k : sock) (p : pipe) : pipe :=
  match d with
  | Client => mkPipe k (backend p) (upward p) (downward p) (torn p)
  | BackendSide => mkPipe (client p) k (upward p) (downward p) (torn p)
  end.
Definition copy_of (up : bool) (p : pipe) : copier := if up then upward p else downward p.
Definition set_copy (up : bool) (c : copier) (p : pipe) : pipe :=
  if up then mkPipe (client p) (backend p) c (downward p) (torn p)
  else mkPipe (client p) (backend p) (upward p) c (torn p).

Definition start : pipe := mkPipe fresh_sock fresh_sock CRead CRead false.

Definition take_bytes (n : nat) (k : sock) : sock :=
  mkSock (arrived k) (taken k + n) (fin k) (written k) (wclosed k) (closed k) (broken k).
Definition write_bytes (bs : list byte) (k : sock) : sock :=
  mkSock (arrived k) (taken k) (fin k) (written k ++ bs) (wclosed k) (closed k) (broken k).
Definition sock_CloseWrite (k : sock) : sock :=
  if closed k then k else mkSock (arrived k) (taken k) (fin k) (written k) true (closed k) (broken k).
Definition sock_Close (k : sock) : sock :=
  mkSock (arrived k) (taken k) (fin k) (written k) (wclosed k) true (broken k).
Definition unread (k : sock) : list byte := drop (taken k) (arrived k).

(** ** Steps *)

(** The peers: bytes arrive, the end of the stream arrives, the connection fails.
    The rest of the program closes a socket.  A copy reads, meets the end or an error,
    writes, fails to write, signals the end of the stream; [pipe] closes. *)
Inductive action :=
  | PSend (d : side) (bs : list byte) | PFin (d : side) | PBreak (d : side) | PForce (d : side)
  | PRead (up : bool) (n : nat) | PReadEnd (up : bool) | PWrite (up : bool) | PWriteErr (up : bool) (n : nat)
  | PSignal (up : bool) | PClose.

Definition dead (k : sock) : bool := closed k || broken k.

Definition step_fun (a : action) (p : pipe) : option pipe :=
  match a with
  | PSend d bs =>
      let k := sock_of d p in
      if dead k || fin k then None
      else Some (set_sock d (mkSock (arrived k ++ bs) (taken k) (fin k) (written k) (wclosed k) (closed k) (broken k)) p)
  | PFin d =>
      let k := sock_of d p in
      if dead k then None
      else Some (set_sock d (mkSock (arrived k) (taken k) true (written k) (wclosed k) (closed k) (broken k)) p)
  | PBreak d =>
      let k := sock_of d p in
      Some (set_sock d (mkSock (arrived k) (taken k) (fin k) (written k) (wclosed k) (closed k) true) p)
  | PForce d => Some (set_sock d (sock_Close (sock_of d p)) p)
  | PRead up n =>
      let k := sock_of (src up) p in
      match copy_of up p with
      | CRead =>
          if dead k || bool_decide (n = 0%nat) || bool_decide (length (unread k) < n)%nat then None
          else Some (set_copy up (CWrite (take n (unread k))) (set_sock (src up) (take_bytes n k) p))
      | _ => None
      end
  | PReadEnd up =>
      let k := sock_of (src up) p in
      match copy_of up p with
      | CRead => if dead k || fin k && bool_decide (unread k = []) then Some (set_copy up CSignal p) else None
      | _ => None
      end
  | PWrite up =>
      let k := sock_of (dst up) p in
      match copy_of up p with
      | CWrite buf =>
          if dead k || wclosed k then None
          else Some (set_copy up CRead (set_sock (dst up) (write_bytes buf k) p))
      | _ => None
      end
  | PWriteErr up n =>
      let k := sock_of (dst up) p in
      match copy_of up p with
      | CWrite buf =>
          if (dead k || wclosed k) && bool_decide (n < length buf)%nat then
            Some (set_copy up CSignal (set_sock (dst up) (write_bytes (take n buf) k) p))
          else None
      | _ => None
      end
  | PSignal up =>
      match copy_of up p with
      | CSignal => Some (set_copy up COver (set_sock (dst up) (sock_CloseWrite (sock_of (dst up) p)) p))
      | _ => None
      end
  | PClose =>
      match upward p, downward p with
      | COver, COver =>
          if torn p then None else Some (mkPipe (sock_Close (client p)) (sock_Close (backend p)) COver COver true)
      | _, _ => None
      end
  end.

Fixpoint trace (ls : list action) (p : pipe) : option pipe :=
  match ls with [] => Some p | a :: ls' => p' ← step_fun a p; trace ls' p' end.

Definition failure (a : action) : bool := match a with PBreak _ | PForce _ => true | _ => false end.

(** Both ways at once, with chunks of any size; then the client finishes, and the
    backend's answer still comes through. *)
Definition hello : list byte := [x68; x69].
Example relay_ex :
  (λ p, (written (backend p), wclosed (backend p), written (client p), torn p)) <$>
    trace [PSend Client hello; PRead true 1; PSend Client hello; PWrite true; PRead true 3; PFin Client; PWrite true;
           PReadEnd true; PSignal true; PSend BackendSide hello; PRead false 2; PWrite false; PFin BackendSide;
           PReadEnd false; PSignal false; PClose] start
  = Some (hello ++ hello, true, hello, true).
Proof. reflexivity. Qed.

(** ** What was written is what arrived *)

(** One direction, from the socket [s] to the socket [d]. *)
Record flows (c : copier) (s d : sock) : Prop := {
  fl_taken : (taken s <= length (arrived s))%nat;
  fl_written :
    match c with
    | CRead => written d = take (taken s) (arrived s)
    | CWrite buf => written d ++ buf = take (taken s) (arrived s)
    | CSignal | COver => written d `prefix_of` take (taken s) (arrived s)
    end
}.

Definition both (R : copier → sock → sock → Prop) (p : pipe) : Prop :=
  ∀ up, R (copy_of up p) (sock_of (src up) p) (sock_of (dst up) p).

(** What one direction reads of its sockets. *)
Lemma flows_ext c s d s' d' : arrived s' = arrived s → taken s' = taken s → written d' = written d →
  flows c s d → flows c s' d'.
Proof. intros Ea Et Ew [F1 F2]. split; by rewrite ?Ea, ?Et, ?Ew. Qed.

Lemma flows_send c s d s' bs : arrived s' = arrived s ++ bs → taken s' = taken s →
  flows c s d → flows c s' d.
Proof.
  intros Ea Et [F1 F2]. split; rewrite Ea, Et; [rewrite length_app; lia|].
  rewrite take_app_le by done. done.
Qed.

Lemma flows_read s d n : (n <= length (unread s))%nat → flows CRead s d →
  flows (CWrite (take n (unread s))) (take_bytes n s) d.
Proof.
  unfold unread. rewrite length_drop. intros Hn [F1 F2]. split; simpl; [lia|]. by rewrite F2, take_take_drop.
Qed.

Lemma flows_end c s d : c = CRead ∨ c = CSignal → flows c s d → flows CSignal s d.
Proof. intros Hc [F1 F2]. split; [done|]. destruct Hc as [-> | ->]; [by rewrite F2|done]. Qed.

Lemma flows_write s d buf : flows (CWrite buf) s d → flows CRead s (write_bytes buf d).
Proof. intros [F1 F2]. by split. Qed.

Lemma flows_write_some s d buf n : flows (CWrite buf) s d → flows CSignal s (write_bytes (take n buf) d).
Proof.
  intros [F1 F2]. split; [done|]. rewrite <- F2. simpl. apply prefix_app. apply prefix_take.
Qed.

Lemma flows_over s d : flows CSignal s d → flows COver s d.
Proof. intros [F1 F2]. by split. Qed.

Lemma CloseWrite_same k : arrived (sock_CloseWrite k) = arrived k ∧ taken (sock_CloseWrite k) = taken k ∧
  fin (sock_CloseWrite k) = fin k ∧ written (sock_CloseWrite k) = written k ∧ broken (sock_CloseWrite k) = broken k ∧
  closed (sock_CloseWrite k) = closed k.
Proof. unfold sock_CloseWrite. destruct (closed k) eqn:E; by rewrite ?E. Qed.

(** Opens a step: its case, and the two directions after it. *)
Ltac open_step Hs :=
  repeat match type of Hs with
  | context [match ?x with _ => _ end] => is_var x; destruct x; cbn in Hs; try discriminate Hs
  | context [if ?b then _ else _] => destruct b eqn:?; try discriminate Hs
  end; injection Hs as <-; cbn.

Lemma step_flows a p p' : step_fun a p = Some p' → both flows p → both flows p'.
Proof.
  intros Hs Hb up. pose proof (Hb true) as Hu. pose proof (Hb false) as Hd. clear Hb. destruct p as [cl bk u w t].
  unfold both in *. cbn in Hu, Hd.
  destruct (CloseWrite_same cl) as (C1 & C2 & _ & C3 & _), (CloseWrite_same bk) as (B1 & B2 & _ & B3 & _).
  destruct a as [[] bs|[]|[]|[]|[] n|[]|[]|[] n|[]|]; cbn in Hs; open_step Hs; destruct up; cbn;
    try solve [eapply flows_ext; [..|exact Hu]; done|eapply flows_ext; [..|exact Hd]; done
              |eapply flows_send; [..|first [exact Hu|exact Hd]]; done
              |by apply flows_write|by eapply flows_write_some
              |eapply flows_end; [|first [exact Hu|exact Hd]]; auto
              |eapply flows_over, flows_ext; [..|first [exact Hu|exact Hd]]; done].
  - apply flows_read; [|done]. apply orb_false_iff in Heqb as [_ Hn%bool_decide_eq_false_1]. lia.
  - apply flows_read; [|done]. apply orb_false_iff in Heqb as [_ Hn%bool_decide_eq_false_1]. lia.
Qed.

Lemma trace_flows ls p p' : trace ls p = Some p' → both flows p → both flows p'.
Proof.
  revert p. induction ls as [|a ls IH]; intros p; [by intros [= ->]|]. simpl.
  destruct (step_fun a p) as [p1|] eqn:E; [|done]. simpl. intros Ht Hb. apply (IH p1 Ht). by eapply step_flows.
Qed.

Lemma start_flows : both flows start.
Proof. by intros []; split. Qed.

Lemma flows_prefix c s d : flows c s d → written d `prefix_of` arrived s.
Proof.
  intros [F1 F2]. etrans; [|apply (prefix_take (arrived s) (taken s))].
  destruct c; [by rewrite F2|rewrite <- F2; by apply prefix_app_r|done..].
Qed.

(** ** Runs without failures *)

(** A direction whose copy has ended passed on everything, and the end of it. *)
Definition settled (c : copier) (s d : sock) : Prop :=
  match c with
  | CRead | CWrite _ => wclosed d = false
  | CSignal => wclosed d = false ∧ fin s = true ∧ written d = arrived s
  | COver => wclosed d = true ∧ fin s = true ∧ written d = arrived s
  end.

Record unharmed (p : pipe) : Prop := {
  un_alive : ∀ d, broken (sock_of d p) = false ∧ closed (sock_of d p) = torn p;
  un_torn : torn p = true → ∀ up, copy_of up p = COver;
  un_settled : both settled p
}.

Lemma settled_ext c s d s' d' : arrived s' = arrived s → (fin s = true → fin s' = true) → written d' = written d →
  wclosed d' = wclosed d → settled c s d → settled c s' d'.
Proof. intros Ea Ef Ew Ec. unfold settled. rewrite Ea, Ew, Ec. destruct c; naive_solver. Qed.

Lemma settled_send c s d s' : fin s = false → settled c s d → settled c s' d.
Proof. unfold settled. intros Ef. destruct c; rewrite ?Ef; naive_solver. Qed.

Lemma settled_end s d : fin s = true → unread s = [] → flows CRead s d → settled CRead s d → settled CSignal s d.
Proof.
  intros Hf Hu [F1 F2] Hs. split; [done|]. split; [done|]. rewrite F2.
  apply take_ge. apply (f_equal length) in Hu. unfold unread in Hu. rewrite length_drop in Hu. simpl in Hu. lia.
Qed.

Lemma settled_over s d : closed d = false → settled CSignal s d → settled COver s (sock_CloseWrite d).
Proof. unfold sock_CloseWrite. intros ->. naive_solver. Qed.

Lemma settled_read c s d buf s' d' : c = CRead ∨ c = CWrite buf → wclosed d' = wclosed d →
  settled c s d → ∀ c', c' = CRead ∨ (∃ b, c' = CWrite b) → settled c' s' d'.
Proof. intros [-> | ->] Ec Hs c' [->|[b ->]]; simpl in *; congruence. Qed.

Lemma step_unharmed a p p' : failure a = false → step_fun a p = Some p' → both flows p → unharmed p → unharmed p'.
Proof.
  intros Hn Hs Hb [U1 U2 U3]. pose proof (Hb true) as Hu. pose proof (Hb false) as Hd.
  pose proof (U3 true) as Su. pose proof (U3 false) as Sd. destruct (U1 Client) as [A1 A2], (U1 BackendSide) as [A3 A4].
  assert (torn p = true → upward p = COver ∧ downward p = COver) as Ht by (intros E; split; [apply (U2 E true)|apply (U2 E false)]).
  clear U1 U2 U3 Hb. destruct p as [cl bk u w t]. unfold both in *. cbn in *.
  destruct (CloseWrite_same cl) as (C1 & _ & C2 & C3 & C4 & C5), (CloseWrite_same bk) as (B1 & _ & B2 & B3 & B4 & B5).
  assert (dead cl = t ∧ dead bk = t) as [D1 D2] by (unfold dead; rewrite A1, A2, A3, A4; by destruct t).
  destruct a as [[] bs|[]|[]|[]|[] n|[]|[]|[] n|[]|]; cbn in Hs; try discriminate Hn;
    rewrite ?D1, ?D2 in Hs; open_step Hs.
  all: split; cbn; [intros []; cbn; split; congruence|intros E []; cbn; naive_solver|intros []; cbn].
  all: try solve [eapply settled_ext; [..|exact Su]; first [done|congruence]
                 |eapply settled_ext; [..|exact Sd]; first [done|congruence]|done].
  - apply orb_false_iff in Heqb as [_ Hf]. by eapply settled_send.
  - apply orb_false_iff in Heqb as [_ Hf]. by eapply settled_send.
  - destruct t; [by destruct Ht|]. apply andb_true_iff in Heqb as [Hf Hr%bool_decide_eq_true_1].
    by apply settled_end.
  - destruct t; [by destruct Ht|]. apply andb_true_iff in Heqb as [Hf Hr%bool_decide_eq_true_1].
    by apply settled_end.
  - destruct t; [by destruct Ht|]. simpl in Su. by rewrite Su in Heqb.
  - destruct t; [by destruct Ht|]. simpl in Sd. by rewrite Sd in Heqb.
  - destruct t; [by destruct Ht|]. by apply settled_over.
  - destruct t; [by destruct Ht|]. by apply settled_over.
Qed.

Lemma trace_unharmed ls p p' : Forall (λ a, failure a = false) ls → trace ls p = Some p' →
  both flows p → unharmed p → unharmed p'.
Proof.
  intros Hn. revert p. induction Hn as [|a ls Ha _ IH]; intros p; [by intros [= ->]|]. simpl.
  destruct (step_fun a p) as [p1|] eqn:E; [|done]. simpl. intros Ht Hb Hu.
  apply (IH p1 Ht); [by eapply step_flows|by eapply step_unharmed].
Qed.

Lemma start_unharmed : unharmed start.
Proof. split; [by intros []|done|by intros []]. Qed.

(** C5. The relay is faithful.  Whatever the two peers do, however the bytes are cut
    into chunks, and whatever fails or is closed in between, what was written to one
    peer is always a prefix of what arrived from the other: nothing is lost in the
    middle, reordered, repeated or made up.  And while nothing fails and nobody closes a
    socket, in both directions at once: a copy ends only when its peer has finished and
    every byte has been passed on, and its end is passed on too; and a copy that has
    not ended can read whatever has arrived and write whatever it has read, so the end
    of one direction never stops the other. *)
Theorem relay_faithful (ls : list action) (p : pipe) (Hrun : trace ls start = Some p) :
  (∀ up, written (sock_of (dst up) p) `prefix_of` arrived (sock_of (src up) p)) ∧
  (Forall (λ a, failure a = false) ls → ∀ up,
     (copy_of up p = CSignal ∨ copy_of up p = COver →
        fin (sock_of (src up) p) = true ∧ written (sock_of (dst up) p) = arrived (sock_of (src up) p)) ∧
     (copy_of up p = COver → wclosed (sock_of (dst up) p) = true) ∧
     (copy_of up p = CRead → ∀ n, (0 < n <= length (unread (sock_of (src up) p)))%nat →
        is_Some (step_fun (PRead up n) p)) ∧
     (∀ buf, copy_of up p = CWrite buf → is_Some (step_fun (PWrite up) p))).
Proof.
  pose proof (trace_flows _ _ _ Hrun start_flows) as Hf.
  split; [intros up; apply (flows_prefix _ _ _ (Hf up))|]. intros Hn up.
  destruct (trace_unharmed _ _ _ Hn Hrun start_flows start_unharmed) as [U1 U2 U3].
  pose proof (U3 up) as Hs. unfold settled in Hs.
  assert (copy_of up p ≠ COver → ∀ d, dead (sock_of d p) = false) as Hlive.
  { intros Hc d. destruct (U1 d) as [Hb Hcl]. unfold dead. rewrite Hb, Hcl. destruct (torn p) eqn:Et; [|done].
    exfalso. by apply Hc, U2. }
  split; [|split; [|split]].
  - intros [E|E]; rewrite E in Hs; tauto.
  - intros E. rewrite E in Hs. apply Hs.
  - intros E n Hl. cbn. rewrite E, Hlive by congruence.
    rewrite bool_decide_eq_false_2, bool_decide_eq_false_2 by lia. by eexists.
  - intros buf E. cbn. rewrite E in Hs |- *. rewrite Hlive, Hs by congruence. by eexists.
Qed.

(** ** The pipe ends *)

(** The actions of the two copies and of [pipe] itself. *)
Definition own (a : action) : bool :=
  match a with PSend _ _ | PFin _ | PBreak _ | PForce _ => false | _ => true end.

Definition copy_todo (c : copier) (s : sock) : nat :=
  match c with
  | CRead => 2 * length (unread s) + 2
  | CWrite _ => 2 * length (unread s) + 3
  | CSignal => 1
  | COver => 0
  end.
Definition todo (p : pipe) : nat :=
  copy_todo (upward p) (client p) + copy_todo (downward p) (backend p) + (if torn p then 0 else 1).

(** A side that says nothing more: it finished, or its socket is dead. *)
Definition ended (k : sock) : bool := fin k || dead k.

Lemma unread_write bs k : unread (write_bytes bs k) = unread k.
Proof. done. Qed.
Lemma unread_CloseWrite k : unread (sock_CloseWrite k) = unread k.
Proof. unfold sock_CloseWrite. by destruct (closed k). Qed.
Lemma copy_todo_unread c s s' : unread s' = unread s → copy_todo c s' = copy_todo c s.
Proof. intros E. destruct c; simpl; by rewrite ?E. Qed.
Lemma length_unread_take n k : length (unread (take_bytes n k)) = (length (unread k) - n)%nat.
Proof. unfold unread, take_bytes. simpl. rewrite !length_drop. lia. Qed.
Lemma ended_CloseWrite k : ended (sock_CloseWrite k) = ended k.
Proof. unfold ended, dead, sock_CloseWrite. by destruct (closed k) eqn:E; rewrite ?E. Qed.
Lemma ended_Close k : ended (sock_Close k) = true.
Proof. unfold ended, dead. simpl. by rewrite orb_true_r. Qed.

Lemma own_todo a p p' : own a = true → step_fun a p = Some p' → (todo p' < todo p)%nat.
Proof.
  intros Ho Hs. destruct p as [cl bk u w t].
  destruct a as [[] bs|[]|[]|[]|[] n|[]|[]|[] n|[]|]; try discriminate Ho; cbn in Hs; open_step Hs;
    unfold todo; cbn [upward downward client backend torn copy_todo];
    rewrite ?(copy_todo_unread _ _ _ (unread_write _ _)), ?(copy_todo_unread _ _ _ (unread_CloseWrite _)),
      ?unread_write, ?unread_CloseWrite, ?length_unread_take; try lia.
  all: apply orb_false_iff in Heqb as [[_ Hn]%orb_false_iff Hl]; apply bool_decide_eq_false_1 in Hn, Hl;
    unfold unread in *; rewrite ?length_drop in *; lia.
Qed.

Lemma own_ended a p p' : own a = true → step_fun a p = Some p' →
  (∀ d, ended (sock_of d p) = true) → ∀ d, ended (sock_of d p') = true.
Proof.
  intros Ho Hs He. pose proof (He Client) as E1. pose proof (He BackendSide) as E2. clear He.
  destruct p as [cl bk u w t]. cbn in E1, E2.
  destruct a as [[] bs|[]|[]|[]|[] n|[]|[]|[] n|[]|]; try discriminate Ho; cbn in Hs; open_step Hs; intros []; cbn;
    rewrite ?ended_CloseWrite, ?ended_Close; done.
Qed.

(** A half-closed socket is one whose copy is over; a copy never holds no bytes. *)
Definition halved (c : copier) (s d : sock) : Prop :=
  (wclosed d = true → c = COver) ∧ (∀ buf, c = CWrite buf → buf ≠ []).

Lemma halved_ext c s d s' d' : wclosed d' = wclosed d → halved c s d → halved c s' d'.
Proof. unfold halved. by intros ->. Qed.

Lemma halved_read s d n : (n <> 0 ∧ n <= length (unread s))%nat → halved CRead s d → ∀ s', halved (CWrite (take n (unread s))) s' d.
Proof.
  intros [Hn Hl] [H1 _] s'. split; [by intros ?%H1|]. intros buf [= <-]. destruct (unread s); [simpl in Hl; lia|].
  by destruct n.
Qed.

Lemma halved_live c s d c' s' d' : c ≠ COver → wclosed d' = wclosed d → halved c s d → c' ≠ COver →
  (∀ buf, c' ≠ CWrite buf) → halved c' s' d'.
Proof. intros Hc Ew [H1 _] _ Hb. split; [rewrite Ew; by intros ?%H1|by intros buf ?%Hb]. Qed.

Lemma halved_over s d : halved COver s d.
Proof. by split. Qed.

Lemma step_halved a p p' : step_fun a p = Some p' → both halved p → both halved p'.
Proof.
  intros Hs Hb. pose proof (Hb true) as Hu. pose proof (Hb false) as Hd. clear Hb. destruct p as [cl bk u w t].
  unfold both in *. cbn in Hu, Hd.
  assert (∀ k, wclosed (sock_Close k) = wclosed k) as Hk by done.
  destruct a as [[] bs|[]|[]|[]|[] n|[]|[]|[] n|[]|]; cbn in Hs; open_step Hs; intros []; cbn;
    try solve [eapply halved_ext; [|exact Hu]; done|eapply halved_ext; [|exact Hd]; done|apply halved_over
              |eapply halved_live; [..|exact Hu| |]; done|eapply halved_live; [..|exact Hd| |]; done].
  all: apply orb_false_iff in Heqb as [[_ Hn]%orb_false_iff Hl]; apply bool_decide_eq_false_1 in Hn, Hl;
    eapply halved_read; [lia|done].
Qed.

Lemma trace_halved ls p p' : trace ls p = Some p' → both halved p → both halved p'.
Proof.
  revert p. induction ls as [|a ls IH]; intros p; [by intros [= ->]|]. simpl.
  destruct (step_fun a p) as [p1|] eqn:E; [|done]. simpl. intros Ht Hb. apply (IH p1 Ht). by eapply step_halved.
Qed.

Lemma copy_enabled p up : both halved p → ended (sock_of (src up) p) = true → copy_of up p ≠ COver →
  ∃ a p', own a = true ∧ step_fun a p = Some p'.
Proof.
  intros Hb He Hc. destruct (Hb up) as [Hh Hne]. destruct (copy_of up p) as [|buf| |] eqn:Ec; [| | |done].
  - destruct (dead (sock_of (src up) p)) eqn:Ed.
    { exists (PReadEnd up). eexists. split; [done|]. cbn. by rewrite Ec, Ed. }
    unfold ended in He. rewrite Ed, orb_false_r in He. destruct (unread (sock_of (src up) p)) as [|x l] eqn:Eu.
    { exists (PReadEnd up). eexists. split; [done|]. cbn. by rewrite Ec, Ed, He, Eu. }
    exists (PRead up 1). eexists. split; [done|]. cbn. by rewrite Ec, Ed, Eu.
  - assert (wclosed (sock_of (dst up) p) = false) as Hw by (destruct (wclosed _); [by discriminate Hh|done]).
    destruct (dead (sock_of (dst up) p)) eqn:Ed.
    + exists (PWriteErr up 0). eexists. split; [done|]. cbn. rewrite Ec, Ed. destruct buf; [by destruct (Hne [])|done].
    + exists (PWrite up). eexists. split; [done|]. cbn. by rewrite Ec, Ed, Hw.
  - exists (PSignal up). eexists. split; [done|]. cbn. by rewrite Ec.
Qed.

Lemma pipe_enabled p : both halved p → (∀ d, ended (sock_of d p) = true) → torn p = false →
  ∃ a p', own a = true ∧ step_fun a p = Some p'.
Proof.
  intros Hb He Ht. destruct (upward p) eqn:Eu; try (apply (copy_enabled p true); [done..|]; cbn; congruence).
  destruct (downward p) eqn:Ed; try (apply (copy_enabled p false); [done..|]; cbn; congruence).
  exists PClose. eexists. split; [done|]. cbn. by rewrite Eu, Ed, Ht.
Qed.

Lemma pipe_ends n p : (todo p <= n)%nat → both halved p → (∀ d, ended (sock_of d p) = true) →
  ∃ ls p', Forall (λ a, own a = true) ls ∧ (length ls <= n)%nat ∧ trace ls p = Some p' ∧ torn p' = true.
Proof.
  revert p. induction n as [|n IH]; intros p Hn Hb He.
  - exists [], p. split_and!; try done. unfold todo in Hn. destruct (torn p); [done|lia].
  - destruct (torn p) eqn:Et; [exists [], p; split_and!; [done|simpl; lia|done..]|].
    destruct (pipe_enabled p Hb He Et) as (a & p1 & Ho & Hs).
    pose proof (own_todo _ _ _ Ho Hs) as Hlt.
    destruct (IH p1) as (ls & p' & Hls & Hlen & Htr & Ht'); [lia|by eapply step_halved|by eapply own_ended|].
    exists (a :: ls), p'. split_and!; [by constructor|simpl; lia|cbn [trace]; by rewrite Hs|done].
Qed.


(** ** Concrete runs *)

(** The client has finished, the backend is still answering. *)
Definition half_open : list action :=
  [PSend Client hello; PRead true 2; PSend BackendSide hello; PFin Client; PWrite true; PReadEnd true; PSignal true;
   PRead false 1].

(** Closing the client alone does not end the pipe: the backend has been told that the
    stream is over, and until it says something or fails no action of ours is left. *)
Lemma force_client_waits :
  ∃ p, trace [PForce Client; PReadEnd true; PSignal true] start = Some p ∧ torn p = false ∧
    wclosed (backend p) = true ∧ ∀ a, own a = true → step_fun a p = None.
Proof.
  eexists. split; [reflexivity|]. split; [done|]. split; [done|].
  intros [[] bs|[]|[]|[]|[] [|n]|[]|[]|[] n|[]|] Ha; by try discriminate Ha.
Qed.

Lemma relay_faithful_witness :
  ∃ p, trace half_open start = Some p ∧ written (backend p) = hello ∧ is_Some (step_fun (PWrite false) p).
Proof.
  destruct (trace half_open start) as [p|] eqn:E; [|discriminate E].
  destruct (relay_faithful half_open p E) as [_ Hc].
  exists p. split; [reflexivity|].
  assert (Hok : Forall (λ a, failure a = false) half_open) by (repeat constructor).
  split.
  - destruct (Hc Hok true) as (He & _). destruct He as [_ Hw]; [right; injection E as <-; reflexivity|].
    cbn in Hw. rewrite Hw. injection E as <-. reflexivity.
  - destruct (Hc Hok false) as (_ & _ & _ & Hw). apply (Hw [x68]). injection E as <-. reflexivity.
Defined.

