(* ===== verification/System.v ===== *)
(** The whole program as one transition system: the proxy server, the health checker
    and the discovery poller take turns on one heap and one pool.

    Each component has its own file; here they run together.  The server's steps
    are those of Proxy.v, the checker's those of Health.v, and a round of the poller
    (Discovery.v) is cut at the points where the other goroutines can get between. *)
From S2P Require Import Prelude Backend Pool GoNet Config Flags Kubeconfig.
From S2P Require Import State Discovery Health Proxy ProxyFacts ProxyProps Main.

(** ** State *)

(** Where the poller is: between rounds; inside [Candidates]; holding the candidates it
    asks; with the list one of them gave; with a list that is new and valid; about to
    drain the removed backends; with connections of [b] left to close of the [n] it
    found; returned. *)
Inductive poll_pc :=
  | PIdle | PFiltering (all todo healthy : list loc) | PAsked (candidates : list loc)
  | PFetched (addrs : list string) | PChecked (addrs : list string)
  | PDraining (removed : list loc) | PClosing (b : loc) (cs : list loc) (n : nat) (removed : list loc)
  | PReturned.

(** The actions of the poller: it reads the list; it looks at the next backend; the
    strategy orders the healthy ones; the candidate at [i] answers; none does; it
    compares and validates; it replaces the list; it takes the connections of the next
    removed backend, or ends the round; it closes one; it counts them; it sees its
    context done. *)
Inductive poll_action :=
  | KAsk | KHealthy | KOrder | KAnswer (i : nat) (subsets : list Subset) | KFail | KCheck | KApply
  | KDrain | KClose | KCount | KStop.

Section system.
Context {P : Type} `{PickerLaws P} `{MapRange}.
Context (KeepalivePeriod fall rise : Z).
Context (lookup : string → option (list IP)) (listen : string).

Abbreviation Server := (@Proxy.Server P).
Abbreviation Checker := (@Health.Checker P).

(** The server's heap and pool are the shared ones. *)
Record System := mkSystem { server : Server; checker : Checker; poller : poll_pc }.

Definition heap (s : System) : Heap := Proxy.heap (server s).
Definition pool (s : System) : Pool P := Proxy.pool (server s).

(** The checker on the shared heap and pool. *)
Definition view (s : System) : Checker := Health.set_pool (pool s) (Health.set_heap (heap s) (checker s)).
Definition share (h : Heap) (p : Pool P) (s : Server) : Server := Proxy.set_pool p (Proxy.set_heap h s).

(** ** Steps *)

(** The labels that are the component's own, not its environment's. *)
Definition server_own (l : Proxy.label) : bool :=
  match l with LReport _ _ _ _ | LClose _ | LCountDrained _ _ | LOrder _ _ | Proxy.LSetAddrs _ => false | _ => true end.
Definition checker_own (l : @Health.label P) : bool := match l with LOutside _ _ => false | _ => true end.

Definition server_step (l : Proxy.label) (s : System) : option System :=
  s' ← Proxy.step_fun KeepalivePeriod l (server s); Some (mkSystem s' (checker s) (poller s)).

Definition checker_step (l : Health.label) (s : System) : option System :=
  c' ← Health.step_fun fall rise l (view s);
  Some (mkSystem (share (Health.heap c') (Health.pool c') (server s)) c' (poller s)).

(** A list discovery takes: [Options.Validate] is [config.ValidateServers]. *)
Definition valid (addrs : list string) : bool :=
  match ValidateServers lookup addrs listen with inr _ => true | inl _ => false end.

Definition set_poller (p : poll_pc) (s : System) : System := mkSystem (server s) (checker s) p.

Definition poll_step (k : poll_action) (s : System) : option System :=
  match k, poller s with
  | KAsk, PIdle =>
      let all := Backends (pool s) in Some (set_poller (PFiltering all all []) s)
  | KHealthy, PFiltering all (b :: todo) healthy =>
      '(healthy', s1) ← Proxy.on_heap (add_healthy healthy b) (server s);
      Some (mkSystem s1 (checker s) (PFiltering all todo healthy'))
  | KOrder, PFiltering all [] healthy =>
      '((p', (candidates, _)), s1) ← Proxy.on_heap (order_healthy (pool s) all healthy) (server s);
      Some (mkSystem (Proxy.set_pool p' s1) (checker s) (PAsked candidates))
  | KAnswer i subsets, PAsked candidates =>
      b ← candidates !! i;
      '(_, s1) ← Proxy.on_heap (Addr b) (server s);
      Some (mkSystem s1 (checker s) (PFetched (endpoint_addrs subsets)))
  | KFail, PAsked _ => Some (set_poller PIdle s)
  | KCheck, PFetched addrs =>
      if bool_decide (addrs = []) then Some (set_poller PIdle s)
      else
        '(current, s1) ← Proxy.on_heap (mapM Addr (Backends (pool s))) (server s);
        let pc := if same_addrs addrs current || negb (valid addrs) then PIdle else PChecked addrs in
        Some (mkSystem s1 (checker s) pc)
  | KApply, PChecked addrs =>
      '((p', (_, removed)), s1) ← Proxy.on_heap (SetAddrs (pool s) addrs) (server s);
      Some (mkSystem (Proxy.set_pool p' s1) (checker s) (PDraining removed))
  | KDrain, PDraining (b :: removed) =>
      '(cs, s1) ← Proxy.on_heap (snapshot_conns b) (server s);
      Some (mkSystem s1 (checker s) (PClosing b cs (length cs) removed))
  | KClose, PClosing b (tc :: cs) n removed =>
      '(_, s1) ← Proxy.on_heap (close_one tc) (server s); Some (mkSystem s1 (checker s) (PClosing b cs n removed))
  | KCount, PClosing b [] n removed =>
      '(_, s1) ← Proxy.on_heap (count_drained n b) (server s); Some (mkSystem s1 (checker s) (PDraining removed))
  | KDrain, PDraining [] => Some (set_poller PIdle s)
  | KStop, PIdle => if root (checker s) then Some (set_poller PReturned s) else None
  | _, _ => None
  end.

Inductive label := SServer (l : Proxy.label) | SChecker (l : @Health.label P) | SPoll (k : poll_action).

(** [main] calls [Shutdown] once the context of the other two is cancelled. *)
Definition step_fun (l : label) (s : System) : option System :=
  match l with
  | SServer LShutdown => if root (checker s) then server_step LShutdown s else None
  | SServer l => if server_own l then server_step l s else None
  | SChecker l => if checker_own l then checker_step l s else None
  | SPoll k => poll_step k s
  end.

Definition step (s s' : System) : Prop := ∃ l, step_fun l s = Some s'.

(** What [main] starts; without discovery there is no poller. *)
Definition start (discovery : bool) (h : Heap) (p : Pool P) : System :=
  mkSystem (Proxy.New h p) (NewChecker h p) (if discovery then PIdle else PReturned).

Definition reachable (discovery : bool) (h : Heap) (p : Pool P) : System → Prop := rtc step (start discovery h p).

Fixpoint trace (ls : list label) (s : System) : option System :=
  match ls with [] => Some s | l :: ls' => s' ← step_fun l s; trace ls' s' end.

Lemma system_trace_rtc ls s s' : trace ls s = Some s' → rtc step s s'.
Proof.
  revert s. induction ls as [|l ls IH]; intros s; [by intros [= ->]|]. simpl.
  destruct (step_fun l s) as [s1|] eqn:E; [|done]. intros Ht. eapply rtc_l; [by exists l|]. by apply IH.
Qed.

(** ** The checker, as the others see it *)

Lemma Healthy_keeps b : keeps eq (Healthy b).
Proof. apply keeps_bind; [apply keeps_deref|]. intros bk. apply keeps_ret. Qed.
Lemma count_healthy_keeps n b : keeps eq (count_healthy n b).
Proof. apply keeps_bind; [apply Healthy_keeps|]. intros ok. apply keeps_ret. Qed.
Lemma add_healthy_keeps hs b : keeps eq (add_healthy hs b).
Proof. apply keeps_bind; [apply Healthy_keeps|]. intros ok. apply keeps_ret. Qed.
Lemma snapshot_conns_keeps b : keeps eq (snapshot_conns b).
Proof. apply keeps_bind; [apply keeps_deref|]. intros bk. apply keeps_ret. Qed.
Lemma Addr_keeps b : keeps eq (Addr b).
Proof. apply keeps_bind; [apply keeps_deref|]. intros bk. apply keeps_ret. Qed.
Lemma mapM_Addr_keeps l : keeps eq (mapM Addr l).
Proof.
  induction l as [|b l IH]; [apply keeps_ret|]. apply keeps_bind; [apply Addr_keeps|]. intros a.
  apply keeps_bind; [done|]. intros as_. apply keeps_ret.
Qed.

(** What an action of the checker does to the heap. *)
Definition probes_heap (h h' : Heap) : Prop :=
  h' = h ∨ (∃ b ok t, ReportHealth b ok fall rise h = Some (t, h')) ∨
  (∃ tc, close_one tc h = Some (tt, h')) ∨ ∃ n b, count_drained n b h = Some (tt, h').

Lemma advance_heap c m (s s' : Checker) : advance fall rise c m s = Some s' →
  Health.pool s' = Health.pool s ∧ probes_heap (Health.heap s) (Health.heap s').
Proof.
  unfold advance, probes_heap. destruct (m_pc m) as [|ok|ok| | |[|tc cs] n| |[|b' bs] n|now| |]; try done;
    try (destruct (Health.on_heap _ _) as [[v s1]|] eqn:E; [|done]; apply on_heap_inv in E as (h' & E & ->));
    intros [= <-].
  - destruct (is_cancelled s c); split; auto.
  - split; [done|]. right. left. by eexists _, _, _.
  - apply Healthy_keeps in E as <-. split; auto.
  - apply snapshot_conns_keeps in E as <-. split; auto.
  - split; [done|]. right. right. right. destruct v. by eexists _, _.
  - split; [done|]. right. right. left. destruct v. by eexists.
  - split; auto.
  - split; auto.
  - apply count_healthy_keeps in E as <-. split; auto.
  - split; auto.
Qed.

Lemma reconcile_heap current (s : Checker) :
  Health.heap (reconcile current s) = Health.heap s ∧ Health.pool (reconcile current s) = Health.pool s.
Proof.
  pose proof (foldl_inv (λ (_ : list loc) (t : Checker), Health.heap t = Health.heap s ∧ Health.pool t = Health.pool s)) as Hf.
  apply Hf; [apply Hf; [done|]|]; intros pre b post t _ Ht; simpl; repeat case_match; done.
Qed.

Lemma checker_heap l (s s' : Checker) : checker_own l = true → Health.step_fun fall rise l s = Some s' →
  Health.pool s' = Health.pool s ∧ probes_heap (Health.heap s) (Health.heap s').
Proof.
  intros Hown Hs. assert (probes_heap (Health.heap s) (Health.heap s)) as Hid by by left.
  destruct l; simpl in Hs; try done.
  - destruct (threads s !! c) as [m|]; [|done]. simpl in Hs. destruct (m_pc m); try done. by injection Hs as <-.
  - destruct (threads s !! c) as [m|]; [|done]. by eapply advance_heap.
  - destruct (threads s !! c) as [m|]; [|done]. simpl in Hs. destruct (m_pc m); try done. by injection Hs as <-.
  - destruct (threads s !! c) as [m|]; [|done]. simpl in Hs. destruct (m_pc m); try done.
    destruct (is_cancelled s c); [|done]. by injection Hs as <-.
  - destruct (Health.run s); try done. by injection Hs as <-.
  - destruct (Health.run s); try done. injection Hs as <-. destruct (reconcile_heap current s) as [E1 E2].
    unfold Health.set_run. cbn [Health.heap Health.pool]. by rewrite E1, E2.
  - destruct (Health.run s), (root s); try done. by injection Hs as <-.
  - by injection Hs as <-.
Qed.

(** ** Each component sees a run of its own *)

Lemma share_same (s : Server) : share (Proxy.heap s) (Proxy.pool s) s = s.
Proof. by destruct s. Qed.
Lemma view_refresh (c : Checker) : Health.set_pool (Health.pool c) (Health.set_heap (Health.heap c) c) = c.
Proof. by destruct c. Qed.

(** The step of the server's model a step of the program is, if any. *)
Definition acts (l : label) (l' : Proxy.label) : Prop :=
  match l with
  | SServer l0 => l' = l0 ∧ server_own l0 = true
  | SChecker _ => (∃ b ok, l' = LReport b ok fall rise) ∨ (∃ tc, l' = LClose tc) ∨ ∃ b n, l' = LCountDrained b n
  | SPoll KOrder => ∃ all healthy, l' = LOrder all healthy
  | SPoll KApply => ∃ addrs, l' = Proxy.LSetAddrs addrs
  | SPoll KClose => ∃ tc, l' = LClose tc
  | SPoll KCount => ∃ b n, l' = LCountDrained b n
  | SPoll _ => False
  end.

Lemma on_heap_reads {A} (m : prog Heap A) (s : Server) a s1 :
  keeps eq m → Proxy.on_heap m s = Some (a, s1) → s1 = s.
Proof. intros Hm E. apply run_on_heap_inv in E as (h & E & ->). apply Hm in E as <-. by destruct s. Qed.

Lemma server_label l s s' : step_fun (SServer l) s = Some s' → server_own l = true ∧ server_step l s = Some s'.
Proof. cbn [step_fun]. destruct l; try done. by destruct (root (checker s)). Qed.

Lemma server_acts l s s' : step_fun l s = Some s' →
  server s' = server s ∨
  ∃ l', acts l l' ∧ Proxy.step_fun KeepalivePeriod l' (server s) = Some (server s').
Proof.
  intros Hs. destruct l as [l|l|k].
  - right. exists l. apply server_label in Hs as [Ho Hs']. split; [done|]. unfold server_step in Hs'. destruct (Proxy.step_fun _ _ _) as [s1|]; [|done].
    by injection Hs' as <-.
  - cbn [step_fun] in Hs. destruct (checker_own l) eqn:Ho; [|done]. unfold checker_step in Hs.
    destruct (Health.step_fun _ _ _ _) as [c'|] eqn:E; [|done]. injection Hs as <-. cbn [server].
    apply checker_heap in E as [Ep Eh]; [|done]. unfold view in Ep, Eh. cbn in Ep, Eh. rewrite Ep.
    destruct Eh as [->|[(b & ok & t & Eh)|[(tc & Eh)|(n & b & Eh)]]]; [left; apply share_same|right..].
    + exists (LReport b ok fall rise). split; [left; eauto|]. cbn [Proxy.step_fun]. unfold heap in Eh.
      by rewrite (run_on_heap _ _ _ _ Eh).
    + exists (LClose tc). split; [right; eauto|]. cbn [Proxy.step_fun]. unfold heap in Eh.
      by rewrite (run_on_heap _ _ _ _ Eh).
    + exists (LCountDrained b n). split; [right; eauto|]. cbn [Proxy.step_fun]. unfold heap in Eh.
      by rewrite (run_on_heap _ _ _ _ Eh).
  - cbn [step_fun] in Hs. destruct k, (poller s) eqn:Epc; cbn [poll_step] in Hs; rewrite ?Epc in Hs; try done.
    + left. by injection Hs as <-.
    + left. destruct todo as [|b todo]; [done|]. destruct (Proxy.on_heap _ _) as [[hs s1]|] eqn:E; [|done].
      injection Hs as <-. by apply (on_heap_reads _ _ _ _ (add_healthy_keeps _ b)) in E.
    + right. destruct todo; [|done]. exists (LOrder all healthy). split; [by eexists _, _|]. cbn [Proxy.step_fun].
      change (Proxy.pool (server s)) with (pool s).
      destruct (Proxy.on_heap _ _) as [[[p' [cs dg]] s1]|]; [|done]. by injection Hs as <-.
    + left. destruct (candidates !! i) as [b|]; [|done]. cbn in Hs.
      destruct (Proxy.on_heap _ _) as [[a s1]|] eqn:E; [|done]. injection Hs as <-.
      by apply (on_heap_reads _ _ _ _ (Addr_keeps b)) in E.
    + left. by injection Hs as <-.
    + left. case_bool_decide; [by injection Hs as <-|].
      destruct (Proxy.on_heap _ _) as [[a s1]|] eqn:E; [|done]. injection Hs as <-.
      by apply (on_heap_reads _ _ _ _ (mapM_Addr_keeps _)) in E.
    + right. exists (Proxy.LSetAddrs addrs). split; [by eexists|]. cbn [Proxy.step_fun].
      change (Proxy.pool (server s)) with (pool s).
      destruct (Proxy.on_heap _ _) as [[[p' [ad rm]] s1]|]; [|done]. by injection Hs as <-.
    + left. destruct removed as [|b removed]; [by injection Hs as <-|].
      destruct (Proxy.on_heap _ _) as [[cs s1]|] eqn:E; [|done]. injection Hs as <-.
      by apply (on_heap_reads _ _ _ _ (snapshot_conns_keeps b)) in E.
    + right. destruct cs as [|tc cs]; [done|]. exists (LClose tc). split; [by eexists|]. cbn [Proxy.step_fun].
      destruct (Proxy.on_heap _ _) as [[u s1]|]; [|done]. by injection Hs as <-.
    + right. destruct cs; [|done]. exists (LCountDrained b n). split; [by eexists _, _|]. cbn [Proxy.step_fun].
      destruct (Proxy.on_heap _ _) as [[u s1]|]; [|done]. by injection Hs as <-.
    + left. destruct (root (checker s)); [|done]. by injection Hs as <-.
Qed.

Lemma poll_checker k s s' : poll_step k s = Some s' → checker s' = checker s.
Proof.
  unfold poll_step. intros Hs.
  destruct k, (poller s) as [|all [|b todo] hs|cs|as_|as_|[|b rm]|b [|tc cs] n rm|]; try done;
    try (destruct (cs !! i); [|done]); cbn [mbind option_bind] in Hs; try (case_bool_decide; [by injection Hs as <-|]);
    first [by injection Hs as <-
          | destruct (Proxy.on_heap _ _) as [[v s1]|]; [|done]; first [by injection Hs as <- | destruct v; by injection Hs as <-
              | destruct v as [p' [cs' dg]]; by injection Hs as <-]
          | destruct (root (checker s)); [|done]; by injection Hs as <-].
Qed.

Lemma checker_acts l s s' : step_fun l s = Some s' → Health.step fall rise (view s) (view s').
Proof.
  intros Hs. assert (checker s' = checker s ∨
    ∃ l', l = SChecker l' ∧ checker_own l' = true ∧ checker_step l' s = Some s') as [Ec|(l' & -> & Ho & Hs')].
  { destruct l as [l|l|k]; [|cbn [step_fun] in Hs..].
    - left. apply server_label in Hs as [_ Hs']. unfold server_step in Hs'. destruct (Proxy.step_fun _ _ _) as [s1|]; [|done]. by injection Hs' as <-.
    - right. exists l. by destruct (checker_own l).
    - left. by eapply poll_checker. }
  - exists (LOutside (heap s') (pool s')). unfold view. by rewrite Ec.
  - unfold checker_step in Hs'. destruct (Health.step_fun _ _ _ _) as [c'|] eqn:E; [|done]. injection Hs' as <-.
    exists l'. rewrite E. f_equal. unfold view, share, heap, pool. cbn. by rewrite view_refresh.
Qed.

Lemma server_sim s s' : step s s' → rtc (Proxy.step KeepalivePeriod) (server s) (server s').
Proof.
  intros [l Hs]. apply server_acts in Hs as [->|(l' & _ & Hs)]; [done|]. apply rtc_once. by exists l'.
Qed.

(** ** Invariant *)

Lemma valid_distinct addrs : valid addrs = true → addrs ≠ [] ∧ NoDup addrs.
Proof.
  unfold valid. destruct (ValidateServers lookup addrs listen) as [e|[]] eqn:E; [done|]. intros _.
  by eapply ValidateServers_distinct.
Qed.

Lemma wf_pool_grows h h' (p p' : Pool P) addrs :
  grows h h' → backends p' = backends p → wf_pool h p addrs → wf_pool h' p' addrs.
Proof.
  intros Hg Hb [Hf Hnd]. split; [|done]. rewrite Hb. eapply Forall2_impl; [exact Hf|].
  intros l a (b & Hl & <-). destruct (gr_backend _ _ Hg _ _ Hl) as (b' & ? & ?). by exists b'.
Qed.

Lemma handler_backends (s s' : Server) i x a : inv s → handlers s !! i = Some x →
  handler_step KeepalivePeriod i x a s = Some s' → backends (Proxy.pool s') = backends (Proxy.pool s).
Proof.
  intros Hi Hx Hs. destruct (decide (a = AOrder)) as [->|Ha].
  - destruct x as [c pc]. destruct pc as [| |all [|b todo] hs| | | | | | | |]; try done. cbn [handler_step h_pc] in Hs.
    run_heap Hs v h E. destruct v as [p' [cs dg]]. injection Hs as <-. by apply order_healthy_reads in E as [_ ?].
  - f_equal. by eapply handler_step_pool.
Qed.

(** Only [SetAddrs] changes which backends are in the pool. *)
Lemma step_backends l (s s' : Server) : inv s → Proxy.step_fun KeepalivePeriod l s = Some s' →
  (∀ addrs, l ≠ Proxy.LSetAddrs addrs) → backends (Proxy.pool s') = backends (Proxy.pool s).
Proof.
  intros Hi Hs Hl. destruct l; cbn [Proxy.step_fun] in Hs; try done;
    try solve [by injection Hs as <- | by destruct (serve s) as [|[]| | | |]; try done; injection Hs as <- |
               by destruct (shutdown s) as [|[]| | |]; try done; injection Hs as <- |
               run_heap Hs u h E; by injection Hs as <-].
  - destruct (serve s), (ln_closed s); try done. run_heap Hs c h E. by injection Hs as <-.
  - destruct (shutdown s), (wg s =? 0); try done; by injection Hs as <-.
  - destruct (shutdown s), (done s); try done; by injection Hs as <-.
  - destruct (shutdown s), (expired s); try done. run_heap Hs u h E. by injection Hs as <-.
  - destruct (handlers s !! i) as [x|] eqn:Hx; [|done]. cbn in Hs. by eapply handler_backends.
  - run_heap Hs v h E. destruct v as [p' r]. injection Hs as <-. by apply order_healthy_reads in E as [_ ?].
  - exfalso. by eapply Hl.
Qed.

(** What the checker holds exists in the heap: the backends its monitors watch and
    look at, the connections they close, and the list [Run] read. *)
Definition tracked (h : Heap) (tc : loc) : Prop := is_Some (h_tracked h !! tc).

Definition mon_fits (h : Heap) (m : monitor) : Prop :=
  allocated h (m_backend m) ∧
  match m_pc m with Draining cs _ => Forall (tracked h) cs | Counting bs _ => Forall (allocated h) bs | _ => True end.

Definition watched (h : Heap) (c : Checker) : Prop :=
  (∀ x m, threads c !! x = Some m → mon_fits h m) ∧
  (∀ current, Health.run c = Reconciling current → Forall (allocated h) current).

Lemma gr_tracked h h' tc : grows h h' → tracked h tc → tracked h' tc.
Proof. intros Hg [t Ht]. destruct (gr_once _ _ Hg _ _ Ht) as (t' & ? & _). by exists t'. Qed.

Lemma mon_fits_mono h h' m : grows h h' → mon_fits h m → mon_fits h' m.
Proof.
  intros Hg [Hb Hpc]. split; [by eapply gr_allocated|]. destruct (m_pc m); try done.
  - eapply Forall_impl; [done|]. intros tc. by apply gr_tracked.
  - by eapply allocated_mono.
Qed.

Lemma watched_mono h h' (c : Checker) : grows h h' → watched h c → watched h' c.
Proof.
  intros Hg [Ht Hr]. split; [intros x m Hm; by eapply mon_fits_mono, Ht|]. intros cur Hc. by eapply allocated_mono, Hr.
Qed.

Lemma watched_set_pc h x pc (c : Checker) : watched h c →
  (∀ m, threads c !! x = Some m → mon_fits h (mkMonitor (m_backend m) pc)) → watched h (Health.set_pc x pc c).
Proof.
  intros [Ht Hr] Hpc. split; [|done]. intros y m. simpl. rewrite lookup_alter_Some.
  intros [(<- & m0 & Hm & ->)|[_ Hm]]; [by apply Hpc|by eapply Ht].
Qed.

(** The connections a drain finds are there. *)
Lemma snapshot_tracked h b cs h' : wf_heap h → snapshot_conns b h = Some (cs, h') → Forall (tracked h) cs.
Proof.
  intros Hwf (bk & h1 & [Hb ->]%deref_inv & [= <- <-])%runs_bind_inv. apply Forall_forall. intros tc Htc.
  rewrite elem_of_map_range in Htc. apply (wf_conns _ Hwf _ _ _ Hb) in Htc as (t & Ht & _). by exists t.
Qed.

Lemma advance_watched x m (c c' : Checker) : wf_heap (Health.heap c) →
  Forall (allocated (Health.heap c)) (backends (Health.pool c)) → threads c !! x = Some m →
  watched (Health.heap c) c → advance fall rise x m c = Some c' → watched (Health.heap c) c'.
Proof.
  intros Hwf Hp Hm Hw Ha. pose proof (proj1 Hw _ _ Hm) as Hf.
  assert (∀ pc p h mo d ca ro e, mon_fits (Health.heap c) (mkMonitor (m_backend m) pc) →
    watched (Health.heap c) (Health.set_pc x pc (mkChecker h p mo d (threads c) ca ro (Health.run c) e))) as Hgo.
  { intros pc p h mo d ca ro e Hpc. apply watched_set_pc; [exact Hw|]. simpl. rewrite Hm. by intros m' [= <-]. }
  destruct Hf as [Hb Hpc]. unfold advance in Ha. destruct c as [h p mo d th ca ro ru ev].
  destruct (m_pc m) as [|ok|ok| | |[|tc cs] n| |[|b' bs] n|now| |] eqn:Epc; try done;
    try (destruct (Health.on_heap _ _) as [[v s1]|] eqn:E; [|done]; apply on_heap_inv in E as (h' & E & ->));
    injection Ha as <-; try (by apply (Hgo _ p h' mo d ca ro ev)); try (by apply (Hgo _ p h mo d ca ro ev)).
  - destruct (is_cancelled _ x); by apply (Hgo _ p h mo d ca ro ev).
  - destruct v; by apply (Hgo _ p h' mo d ca ro ev).
  - destruct v; by apply (Hgo _ p h' mo d ca ro ev).
  - apply (Hgo _ p h' mo d ca ro ev). split; [done|]. by eapply snapshot_tracked.
  - apply (Hgo _ p h' mo d ca ro ev). split; [done|]. by apply Forall_cons in Hpc as [_ Hpc].
  - apply (Hgo _ p h' mo d ca ro ev). split; [done|]. by apply Forall_cons in Hpc as [_ Hpc].
Qed.

Lemma watched_reconcile h current (c : Checker) :
  watched h c → Forall (allocated h) current → watched h (reconcile current c).
Proof.
  intros Hw Hc. unfold reconcile, start_new.
  apply (foldl_inv (λ (_ : list loc) (t : Checker), watched h t)).
  - unfold stop_gone. apply (foldl_inv (λ (_ : list loc) (t : Checker), watched h t)); [done|].
    intros pre b post t _ Ht. by repeat case_match.
  - intros pre b post t Hsplit [T1 T2]. case_match; [done|]. split; [|done]. intros x m. simpl.
    rewrite lookup_insert_Some. intros [[_ <-]|[_ Hm]]; [|by eapply T1].
    rewrite Forall_forall in Hc. split; [|done]. apply Hc.
    assert (b ∈ map_range (list_to_set current)) as Hb by (rewrite Hsplit; set_solver).
    by rewrite elem_of_map_range, elem_of_list_to_set in Hb.
Qed.

Lemma checker_watched l (c c' : Checker) : checker_own l = true → Health.step_fun fall rise l c = Some c' →
  wf_heap (Health.heap c) → Forall (allocated (Health.heap c)) (backends (Health.pool c)) →
  watched (Health.heap c) c → watched (Health.heap c) c'.
Proof.
  intros Ho Hs Hwf Hp Hw.
  assert (∀ x m pc, threads c !! x = Some m → match pc with Draining _ _ | Counting _ _ => False | _ => True end →
    watched (Health.heap c) (Health.set_pc x pc c)) as Hset.
  { intros x m pc Hm Hpc. apply watched_set_pc; [done|]. intros m' Hm'. split; [exact (proj1 (proj1 Hw _ _ Hm'))|by destruct pc]. }
  destruct l; simpl in Hs; try done.
  - destruct (threads c !! c0) as [m|] eqn:Hm; [|done]. simpl in Hs. destruct (m_pc m); try done. injection Hs as <-.
    by eapply Hset.
  - destruct (threads c !! c0) as [m|] eqn:Hm; [|done]. by eapply advance_watched.
  - destruct (threads c !! c0) as [m|] eqn:Hm; [|done]. simpl in Hs. destruct (m_pc m); try done. injection Hs as <-.
    by eapply Hset.
  - destruct (threads c !! c0) as [m|] eqn:Hm; [|done]. simpl in Hs. destruct (m_pc m); try done.
    destruct (is_cancelled c c0); [|done]. injection Hs as <-. by eapply Hset.
  - destruct (Health.run c); try done. injection Hs as <-. split; [apply Hw|]. by intros cur [= <-].
  - destruct (Health.run c) eqn:Er; try done. injection Hs as <-.
    destruct (watched_reconcile (Health.heap c) current c Hw) as [T1 T2]; [by apply Hw|]. by split.
  - destruct (Health.run c), (root c); try done. injection Hs as <-. split; [apply Hw|done].
  - by injection Hs as <-.
Qed.

#[local] Instance is_apply_dec (l : label) : Decision (l = SPoll KApply).
Proof. destruct l as [| |[]]; (by left) || (by right). Defined.

(** What the poller holds fits the pool. *)
Definition gone (h : Heap) (p : Pool P) (l : loc) : Prop := allocated h l ∧ l ∉ backends p.

Definition poller_fits (h : Heap) (p : Pool P) (pc : poll_pc) : Prop :=
  match pc with
  | PFiltering all todo healthy => Forall (allocated h) (all ++ todo ++ healthy)
  | PAsked candidates => Forall (allocated h) candidates
  | PChecked addrs => valid addrs = true
  | PDraining removed => Forall (gone h p) removed
  | PClosing b cs _ removed => gone h p b ∧ Forall (tracked h) cs ∧ Forall (gone h p) removed
  | _ => True
  end.

Record sound (init : list string) (s : System) : Prop := {
  so_server : inv (server s);
  so_pool : ∃ addrs, wf_pool (heap s) (pool s) addrs ∧ addrs ≠ [] ∧ (addrs = init ∨ valid addrs = true);
  so_checker : watched (heap s) (checker s);
  so_poller : poller_fits (heap s) (pool s) (poller s)
}.

Lemma so_allocated init s : sound init s → Forall (allocated (heap s)) (backends (pool s)).
Proof. intros [_ (addrs & Hp & _) _ _]. by eapply wf_pool_allocated. Qed.

Lemma gone_mono h h' (p p' : Pool P) l : grows h h' → backends p' = backends p → gone h p l → gone h' p' l.
Proof. intros Hg Hb [? ?]. split; [by eapply gr_allocated|by rewrite Hb]. Qed.

Lemma poller_fits_mono h h' (p p' : Pool P) pc :
  grows h h' → backends p' = backends p → poller_fits h p pc → poller_fits h' p' pc.
Proof.
  intros Hg Hb. destruct pc; simpl; try done.
  - by apply allocated_mono.
  - by apply allocated_mono.
  - intros Hr. eapply Forall_impl; [done|]. intros l. by apply gone_mono.
  - intros (Hl & Ht & Hr). split; [by eapply gone_mono|]. split; [eapply Forall_impl; [done|]; intros tc; by apply gr_tracked|].
    eapply Forall_impl; [done|]. intros l. by apply gone_mono.
Qed.

(** [SetAddrs] on a valid list. *)
Lemma apply_sound init s s' addrs : sound init s → poller s = PChecked addrs → poll_step KApply s = Some s' →
  ∃ added removed, reconciled (heap s) (pool s) addrs (heap s') (pool s') added removed ∧
    poller s' = PDraining removed ∧ checker s' = checker s ∧ valid addrs = true.
Proof.
  intros [_ (old & Hp & _) _ Hc] Epc Hs. rewrite Epc in Hc. destruct (valid_distinct _ Hc) as [_ Hnd].
  destruct (SetAddrs_runs (pool s) old addrs (heap s) Hp Hnd) as (p' & added & removed & h' & Hr & Hrec).
  unfold poll_step in Hs. rewrite Epc in Hs. unfold heap in Hr. rewrite (run_on_heap _ _ _ _ Hr) in Hs.
  injection Hs as <-. by exists added, removed.
Qed.

Lemma removed_fit h (p : Pool P) addrs h' p' added removed old : wf_pool h p old →
  reconciled h p addrs h' p' added removed → Forall (gone h' p') removed.
Proof.
  intros Hwf Hrec. apply Forall_forall. intros l Hl.
  assert (l ∈ backends p) as Hin by (eapply elem_of_sublist; [exact Hl|apply Hrec]).
  pose proof (wf_pool_allocated _ _ _ Hwf) as Hall. rewrite Forall_forall in Hall.
  destruct (Hall l Hin) as [b Hb]. assert (has_addr h l (addr b)) as Ha by by exists b.
  split; [exists b; by apply (rec_state _ _ _ _ _ _ _ Hrec)|].
  rewrite (rec_kept _ _ _ _ _ _ _ Hrec _ _ Ha). apply (rec_removed _ _ _ _ _ _ _ Hrec _ _ Ha) in Hl. tauto.
Qed.

(** Where the poller goes, [SetAddrs] apart. *)
Lemma poll_moves init k s s' : sound init s → k ≠ KApply → poll_step k s = Some s' →
  poller_fits (heap s) (pool s) (poller s').
Proof.
  intros Hso Hk Hs. pose proof (so_poller _ _ Hso) as Hf. pose proof (so_allocated _ _ Hso) as Hall.
  pose proof (sf_heap _ (inv_safe _ (so_server _ _ Hso))) as Hwf. unfold poll_step in Hs.
  destruct k, (poller s) as [|all [|b todo] hs|cs|as_|as_|[|b rm]|b [|tc cs] n rm|]; try done; try by injection Hs as <-.
  - injection Hs as <-. cbn. rewrite app_nil_r. by apply Forall_app.
  - destruct (Proxy.on_heap _ _) as [[hs' s1]|] eqn:E; [|done]. injection Hs as <-.
    apply run_on_heap_inv in E as (h & E & _). apply add_healthy_inv in E as [_ Hhs]. cbn.
    revert Hf. cbn. rewrite !Forall_app, Forall_cons. destruct Hhs as [-> | ->]; rewrite ?Forall_app, ?Forall_singleton; tauto.
  - apply Forall_app in Hf as [Hf1 Hf2].
    destruct (Proxy.on_heap _ _) as [[[p' [cs dg]] s1]|] eqn:E; [|done]. injection Hs as <-.
    apply run_on_heap_inv in E as (h & E & _). apply order_healthy_inv in E as (_ & _ & Hcs); [|done].
    cbn. by destruct Hcs as [-> | ->].
  - destruct (cs !! i) as [b|]; [|done]. cbn in Hs. destruct (Proxy.on_heap _ _) as [[a s1]|]; [|done]. by injection Hs as <-.
  - case_bool_decide; [by injection Hs as <-|].
    destruct (Proxy.on_heap _ _) as [[a s1]|]; [|done]. injection Hs as <-. cbn.
    destruct (same_addrs as_ a), (valid as_) eqn:Ev; done.
  - destruct (Proxy.on_heap _ _) as [[cs s1]|] eqn:E; [|done]. injection Hs as <-.
    apply run_on_heap_inv in E as (h & E & _). apply Forall_cons in Hf as [Hb Hf]. split; [done|]. split; [|done].
    by eapply snapshot_tracked.
  - destruct (Proxy.on_heap _ _) as [[u s1]|]; [|done]. injection Hs as <-. destruct Hf as (Hb & Hcs & Hf).
    by apply Forall_cons in Hcs as [_ Hcs].
  - destruct (Proxy.on_heap _ _) as [[u s1]|]; [|done]. injection Hs as <-. apply Hf.
  - destruct (root (checker s)); [|done]. by injection Hs as <-.
Qed.

Lemma step_poller init l s s' : sound init s → l ≠ SPoll KApply → step_fun l s = Some s' →
  poller_fits (heap s) (pool s) (poller s').
Proof.
  intros Hso Hl Hs. destruct l as [l|l|k].
  - apply server_label in Hs as [_ Hs]. unfold server_step in Hs. destruct (Proxy.step_fun _ _ _); [|done].
    injection Hs as <-. apply (so_poller _ _ Hso).
  - cbn [step_fun] in Hs. destruct (checker_own l); [|done]. unfold checker_step in Hs.
    destruct (Health.step_fun _ _ _ _); [|done]. injection Hs as <-. apply (so_poller _ _ Hso).
  - eapply poll_moves; [done| |exact Hs]. congruence.
Qed.

Lemma step_checker init l s s' : sound init s → step_fun l s = Some s' → watched (heap s) (checker s').
Proof.
  intros Hso Hs. pose proof (so_checker _ _ Hso) as Hw. destruct l as [l|l|k].
  - apply server_label in Hs as [_ Hs]. unfold server_step in Hs. destruct (Proxy.step_fun _ _ _); [|done].
    by injection Hs as <-.
  - cbn [step_fun] in Hs. destruct (checker_own l) eqn:Ho; [|done]. unfold checker_step in Hs.
    destruct (Health.step_fun _ _ _ _) as [c'|] eqn:E; [|done]. injection Hs as <-.
    apply (checker_watched l (view s)); [done..|apply (inv_safe _ (so_server _ _ Hso))|by eapply so_allocated|done].
  - cbn [step_fun] in Hs. by rewrite (poll_checker _ _ _ Hs).
Qed.

(** Only the poller's [SetAddrs] changes which backends are in the pool. *)
Lemma system_backends init l s s' : sound init s → l ≠ SPoll KApply → step_fun l s = Some s' →
  backends (pool s') = backends (pool s).
Proof.
  intros Hso Hl Hs. apply server_acts in Hs as [Es|(l' & Ha & Hs)]; [unfold pool; by rewrite Es|].
  apply step_backends in Hs; [done|apply Hso|]. intros addrs ->. destruct l as [l|l|[]]; simpl in Ha; try done.
  - destruct Ha as [<- ?]. done.
  - by destruct Ha as [(? & ? & ?)|[(? & ?)|(? & ? & ?)]].
  - by destruct Ha as (? & ? & ?).
  - by destruct Ha.
  - by destruct Ha as (? & ? & ?).
Qed.

Lemma step_sound init s s' : step s s' → sound init s → sound init s' ∧ grows (heap s) (heap s').
Proof.
  intros Hst Hso. pose proof Hso as [S1 (old & S2 & S2') S3 S4].
  destruct (steps_inv _ _ _ S1 (server_sim _ _ Hst)) as [S1' Hg].
  split; [|done]. destruct Hst as [l Hs].
  assert (watched (heap s') (checker s')) as S3' by (by eapply watched_mono, step_checker).
  destruct (decide (l = SPoll KApply)) as [->|Hl].
  - destruct (poller s) as [| | | |addrs| | |] eqn:Epc; try (unfold step_fun, poll_step in Hs; by rewrite Epc in Hs).
    destruct (apply_sound init s s' addrs Hso Epc Hs) as (added & removed & Hrec & Epc' & _ & Hv).
    split; [done| |done|].
    + exists addrs. split; [apply Hrec|]. split; [by apply valid_distinct|by right].
    + rewrite Epc'. by eapply removed_fit.
  - pose proof (system_backends _ _ _ _ Hso Hl Hs) as Hb. split; [done| |done|].
    + exists old. split; [by eapply wf_pool_grows|done].
    + eapply poller_fits_mono; [done..|]. by eapply step_poller.
Qed.

(** What [main] hands to the components: a heap in order and a pool of distinct
    addresses. *)
Record boots (h : Heap) (p : Pool P) (init : list string) : Prop := {
  bt_ready : ready h p;
  bt_pool : wf_pool h p init;
  bt_nonempty : init ≠ []
}.

Lemma start_sound discovery h p init : boots h p init → sound init (start discovery h p).
Proof.
  intros [B1 B2 B3]. split.
  - apply (reachable_inv KeepalivePeriod h p); [exact B1|apply rtc_refl].
  - exists init. split_and!; [done..|by left].
  - split; [|by intros cur [= <-]; apply B1]. intros x m Hm. cbn in Hm. by rewrite lookup_empty in Hm.
  - by destruct discovery.
Qed.

Lemma steps_sound init s s' : sound init s → rtc step s s' → sound init s'.
Proof.
  intros Hs Hr. induction Hr as [s|s1 s2 s3 Hst Hr IH]; [done|]. apply IH. by eapply step_sound.
Qed.

(** ** Refinement *)

Lemma step_shuttingDown l (s s' : Server) : l ≠ LShutdown → Proxy.step_fun KeepalivePeriod l s = Some s' →
  shuttingDown s' = shuttingDown s.
Proof.
  intros Hl Hs. destruct l; cbn [Proxy.step_fun] in Hs; try done;
    try solve [by injection Hs as <- | by destruct (serve s) as [|[]| | | |]; try done; injection Hs as <- |
               by destruct (shutdown s) as [|[]| | |]; try done; injection Hs as <- |
               run_heap Hs u h E; by injection Hs as <- | run_heap Hs u h E; destruct u; by injection Hs as <-].
  - destruct (serve s), (ln_closed s); try done. run_heap Hs c h E. by injection Hs as <-.
  - destruct (shutdown s), (wg s =? 0); try done; by injection Hs as <-.
  - destruct (shutdown s), (done s); try done; by injection Hs as <-.
  - destruct (shutdown s), (expired s); try done. run_heap Hs u h E. by injection Hs as <-.
  - destruct (handlers s !! i) as [x|]; [|done]. apply handler_step_phase in Hs. by injection Hs.
Qed.

Definition signalled (s : System) : Prop := shuttingDown (server s) = true → root (checker s) = true.

Lemma step_signalled s s' : step s s' → signalled s → signalled s'.
Proof.
  intros [l Hs] Hi Hd. pose proof (checker_acts _ _ _ Hs) as Hc.
  apply (root_mono fall rise) in Hc; [done|]. cbn.
  destruct (server_acts _ _ _ Hs) as [E|(l' & Ha & Hs')]; [apply Hi; congruence|].
  destruct (root (checker s)) eqn:Er; [done|]. assert (l' ≠ LShutdown) as Hl.
  { intros ->. destruct l as [l|l|[]]; simpl in Ha; try done.
    - destruct Ha as [<- _]. cbn [step_fun] in Hs. by rewrite Er in Hs.
    - by destruct Ha as [(? & ? & ?)|[(? & ?)|(? & ? & ?)]].
    - by destruct Ha as (? & ? & ?).
    - by destruct Ha.
    - by destruct Ha.
    - by destruct Ha as (? & ? & ?). }
  rewrite <- Er. apply Hi. by rewrite <- (step_shuttingDown _ _ _ Hl Hs').
Qed.


(** ** Nobody gets stuck *)

Lemma run_enabled {A} (m : prog Heap A) (s : System) a h' :
  runs m (heap s) a h' → Proxy.on_heap m (server s) = Some (a, Proxy.set_heap h' (server s)).
Proof. apply run_on_heap. Qed.

Lemma view_run {A} (m : prog Heap A) (s : System) a h' :
  runs m (heap s) a h' → Health.on_heap m (view s) = Some (a, Health.set_heap h' (view s)).
Proof. intros Hr. unfold Health.on_heap. change (Health.heap (view s)) with (heap s). by rewrite Hr. Qed.
Lemma view_heap s : Health.set_heap (heap s) (view s) = view s.
Proof. done. Qed.

Lemma close_one_enabled h tc : wf_heap h → tracked h tc → ∃ h', runs (close_one tc) h tt h'.
Proof. intros Hwf [t Ht]. eexists. by apply close_one_runs. Qed.
Lemma advance_enabled init s c m : sound init s → threads (checker s) !! c = Some m →
  match m_pc m with AtProbe | Waiting | Returned => True | _ => is_Some (advance fall rise c m (view s)) end.
Proof.
  intros Hso Hm. destruct (so_checker _ _ Hso) as [Ht _]. destruct (Ht _ _ Hm) as [[b Hb] Hpc].
  pose proof (sf_heap _ (inv_safe _ (so_server _ _ Hso))) as Hwf. unfold advance.
  destruct (m_pc m) as [|ok|ok| | |[|tc cs] n| |[|b' bs] n|now| |] eqn:Epc; try done.
  - pose proof (ReportHealth_runs fall rise (m_backend m) ok (heap s) b Hb) as Hr.
    rewrite (view_run _ s _ _ Hr). by eexists.
  - rewrite (view_run _ s _ _ (Healthy_runs _ _ _ Hb)). by eexists.
  - rewrite (view_run _ s _ _ (snapshot_conns_runs _ _ _ Hb)). by eexists.
  - rewrite (view_run _ s _ _ (count_drained_runs _ _ _ _ Hb)). by eexists.
  - apply Forall_cons in Hpc as [Htc _]. destruct (close_one_enabled _ _ Hwf Htc) as [h' Hr].
    rewrite (view_run _ s _ _ Hr). by eexists.
  - apply Forall_cons in Hpc as [Hb' _].
    rewrite (view_run _ s _ _ (count_healthy_runs n _ _ Hb')). by eexists.
Qed.

Lemma checker_enabled init s l c' : sound init s → checker_own l = true →
  Health.step_fun fall rise l (view s) = Some c' → is_Some (step_fun (SChecker l) s).
Proof. intros _ Ho Hs. cbn [step_fun]. rewrite Ho. unfold checker_step. rewrite Hs. by eexists. Qed.

Definition monitor_can (s : System) (c : loc) (m : monitor) : Prop :=
  match m_pc m with
  | AtProbe => ∀ ok, is_Some (step_fun (SChecker (LProbe c ok)) s)
  | Waiting => is_Some (step_fun (SChecker (LTick c)) s)
  | Returned => True
  | _ => is_Some (step_fun (SChecker (LAdvance c)) s)
  end.

Lemma monitor_enabled init s c m : sound init s → threads (checker s) !! c = Some m → monitor_can s c m.
Proof.
  intros Hso Hm. pose proof (advance_enabled _ _ _ _ Hso Hm) as Ha. unfold monitor_can.
  destruct (m_pc m) eqn:Epc; try done.
  1: { intros ok. eapply (checker_enabled _ _ _ _ Hso); [done|]. simpl. by rewrite Hm; simpl; rewrite Epc. }
  9: { eapply (checker_enabled _ _ _ _ Hso); [done|]. simpl. by rewrite Hm; simpl; rewrite Epc. }
  all: destruct Ha as [c' Ha]; eapply (checker_enabled _ _ _ _ Hso); [done|]; simpl; rewrite Hm; exact Ha.
Qed.

Definition poller_can (s : System) : Prop :=
  match poller s with
  | PIdle => is_Some (step_fun (SPoll KAsk) s)
  | PFiltering _ (_ :: _) _ => is_Some (step_fun (SPoll KHealthy) s)
  | PFiltering _ [] _ => is_Some (step_fun (SPoll KOrder) s)
  | PAsked candidates => is_Some (step_fun (SPoll KFail) s) ∧
      ∀ i subsets, (i < length candidates)%nat → is_Some (step_fun (SPoll (KAnswer i subsets)) s)
  | PFetched _ => is_Some (step_fun (SPoll KCheck) s)
  | PChecked _ => is_Some (step_fun (SPoll KApply) s)
  | PDraining _ => is_Some (step_fun (SPoll KDrain) s)
  | PClosing _ (_ :: _) _ _ => is_Some (step_fun (SPoll KClose) s)
  | PClosing _ [] _ _ => is_Some (step_fun (SPoll KCount) s)
  | PReturned => True
  end.

Lemma poller_enabled init s : sound init s → poller_can s.
Proof.
  intros Hso. pose proof (so_poller _ _ Hso) as Hf. destruct (so_pool _ _ Hso) as (old & Hp & _).
  pose proof (so_allocated _ _ Hso) as Hall. unfold poller_can, poller_fits in *.
  pose proof (sf_heap _ (inv_safe _ (so_server _ _ Hso))) as Hwf.
  destruct (poller s) as [|all [|b todo] hs|cs|addrs|addrs|[|b rm]|b [|tc cs] n rm|] eqn:Epc; cbn [step_fun]; unfold poll_step;
    rewrite ?Epc; try done.
  - apply Forall_app in Hf as [_ Hhs]. destruct (order_healthy_runs (pool s) all hs (heap s) Hhs) as (p' & out & d & Hr & _).
    rewrite (run_enabled _ _ _ _ Hr). by eexists.
  - apply Forall_app in Hf as [_ [Hb _]%Forall_cons].
    rewrite (run_enabled _ _ _ _ (add_healthy_runs hs _ _ Hb)). by eexists.
  - split; [by eexists|]. intros i subsets Hi. apply lookup_lt_is_Some in Hi as [l Hl]. rewrite Hl.
    rewrite Forall_forall in Hf. destruct (Hf l) as [b Hb]; [by eapply list_elem_of_lookup_2|]. simpl.
    rewrite (run_enabled _ _ _ _ (Addr_runs _ _ _ Hb)). by eexists.
  - case_bool_decide; [by eexists|]. unfold Backends. rewrite (run_enabled _ _ _ _ (addrs_runs _ _ _ Hp)). by eexists.
  - destruct (valid_distinct _ Hf) as [_ Hnd]. destruct (SetAddrs_runs _ _ addrs _ Hp Hnd) as (p' & ad & rm & h' & Hr & _).
    rewrite (run_enabled _ _ _ _ Hr). by eexists.
  - apply Forall_cons in Hf as [[[bk Hb] _] _]. rewrite (run_enabled _ _ _ _ (snapshot_conns_runs _ _ _ Hb)). by eexists.
  - destruct Hf as ([[bk Hb] _] & _). rewrite (run_enabled _ _ _ _ (count_drained_runs _ _ _ _ Hb)). by eexists.
  - destruct Hf as (_ & [Htc _]%Forall_cons & _). destruct (close_one_enabled _ _ Hwf Htc) as [h' Hr].
    rewrite (run_enabled _ _ _ _ Hr). by eexists.
Qed.

(** ** A removed backend *)

(** [l] is out of the pool, no handler may still connect to it, and it has no
    connection but those of [X]. *)
Record leaving (l : loc) (X : gset loc) (s : System) : Prop := {
  lg_allocated : allocated (heap s) l;
  lg_pool : l ∉ backends (pool s);
  lg_unpicked : ∀ i x, handlers (server s) !! i = Some x → ¬ picks (h_pc x) l;
  lg_conns : ∀ b, h_backend (heap s) !! l = Some b → conns b ⊆ X
}.

(** Tame runs open no connection, [Track] opens one to its backend only. *)
Lemma conns_kept l (h h' : Heap) (X : gset loc) : wf_heap h → wf_heap h' → allocated h l →
  (tame h h' ∨ ∃ b conn tc, b ≠ l ∧ Track b conn h = Some (tc, h')) →
  (∀ b, h_backend h !! l = Some b → conns b ⊆ X) → ∀ b, h_backend h' !! l = Some b → conns b ⊆ X.
Proof.
  intros Hwf Hwf' [b0 Hb0] Hst Hno b Hb tc Htc. apply (Hno _ Hb0).
  apply (wf_conns _ Hwf' _ _ _ Hb) in Htc as (t' & Ht' & Hl & Ho). apply (wf_conns _ Hwf _ _ _ Hb0).
  destruct Hst as [[[Hg Hopen] _]|(b' & conn & tc' & Hne & Htr)].
  - destruct (Hopen _ _ Ht' Ho) as (t & Ht & Ho'). destruct (gr_once _ _ Hg _ _ Ht) as (t2 & Ht2 & Hbk & _).
    exists t. split_and!; [done|congruence|done].
  - apply Track_inv in Htr as (_ & E & _). rewrite E in Ht'. apply lookup_insert_Some in Ht' as [[_ <-]|[_ Ht']]; [done|].
    by exists t'.
Qed.

Lemma step_unpicked l (s s' : Server) : inv s → Proxy.step KeepalivePeriod s s' → l ∉ backends (Proxy.pool s) →
  (∀ i x, handlers s !! i = Some x → ¬ picks (h_pc x) l) → ∀ i x, handlers s' !! i = Some x → ¬ picks (h_pc x) l.
Proof.
  intros Hi [l' Hs] Hp Hn j y Hy.
  destruct l' as [| | | | | | | | | | |i a| | | | | |];
    try (apply other_step_handlers in Hs as [E|[c E]]; [..|done]; rewrite E in Hy;
         [by apply (Hn _ _ Hy)|apply lookup_insert_Some in Hy as [[_ <-]|[_ Hy]]; [by intros []|by apply (Hn _ _ Hy)]]).
  cbn [Proxy.step_fun] in Hs. destruct (handlers s !! i) as [x|] eqn:Hx; [|done]. simpl in Hs.
  destruct (handler_step_moves _ _ _ _ _ _ Hi Hx Hs) as (pc & E & _ & _ & _ & Hpk). rewrite E in Hy.
  apply lookup_alter_Some in Hy as [(<- & y0 & Hy & ->)|[_ Hy]]; [|by apply (Hn _ _ Hy)].
  cbn. intros [Hx'|Hin]%Hpk; [by apply (Hn _ _ Hx)|done].
Qed.

Lemma system_pool_without init l s s' : sound init s → step s s' → allocated (heap s) l →
  l ∉ backends (pool s) → l ∉ backends (pool s').
Proof.
  intros Hso [lb Hs] [b Hb] Hl. destruct (decide (lb = SPoll KApply)) as [->|Hne].
  - destruct (poller s) as [| | | |addrs| | |] eqn:Epc; try (unfold step_fun, poll_step in Hs; by rewrite Epc in Hs).
    destruct (apply_sound init s s' addrs Hso Epc Hs) as (added & removed & Hrec & _).
    rewrite (rec_kept _ _ _ _ _ _ _ Hrec l (addr b)); [tauto|by exists b].
  - by rewrite (system_backends _ _ _ _ Hso Hne Hs).
Qed.

Lemma step_leaving init l X s s' : sound init s → step s s' → leaving l X s → leaving l X s'.
Proof.
  intros Hso Hst [L1 L2 L3 L4]. destruct (step_sound _ _ _ Hst Hso) as [Hso' Hg].
  pose proof (so_server _ _ Hso) as Hi. split.
  - exact (gr_allocated _ _ _ Hg L1).
  - exact (system_pool_without _ _ _ _ Hso Hst L1 L2).
  - destruct Hst as [lb Hs]. destruct (server_acts _ _ _ Hs) as [->|(l' & _ & Hs')]; [done|].
    eapply step_unpicked; [done|by exists l'|done..].
  - destruct Hst as [lb Hs]. unfold heap in *. destruct (server_acts _ _ _ Hs) as [->|(l' & _ & Hs')]; [done|].
    apply (conns_kept l (Proxy.heap (server s))); [apply Hi|apply Hso'|done| |done].
    destruct (step_heap _ _ _ Hi (ex_intro _ l' Hs')) as [?|(i & x & Hx & b & conn & tc & Epc & Ht)]; [by left|right].
    exists b, conn, tc. split; [|done]. intros ->. apply (L3 _ _ Hx). by rewrite Epc.
Qed.

Lemma steps_leaving init l X s s' : sound init s → rtc step s s' → leaving l X s → leaving l X s'.
Proof.
  intros Hso Hr. induction Hr as [s|s1 s2 s3 Hst Hr IH]; [done|]. intros Hl.
  apply IH; [by eapply step_sound|by eapply step_leaving].
Qed.

(** How far the drain of [l] is, [rest] being drained after it: its turn has come; the
    connections not yet closed are among those left to close; or it has none. *)
Definition drain_phase (l : loc) (rest : list loc) (s : System) : Prop :=
  (poller s = PDraining (l :: rest) ∧ ∃ X, leaving l X s) ∨
  (∃ cs n, poller s = PClosing l cs n rest ∧ leaving l (list_to_set cs) s) ∨ leaving l ∅ s.

Lemma drain_phase_starts init l rest s : sound init s → poller s = PDraining (l :: rest) →
  (∀ i x, handlers (server s) !! i = Some x → ¬ picks (h_pc x) l) → drain_phase l rest s.
Proof.
  intros Hso Epc Hn. left. split; [done|]. pose proof (so_poller _ _ Hso) as Hf. rewrite Epc in Hf.
  apply Forall_cons in Hf as [[[b Hb] Hout] _]. exists (conns b). split; [by exists b|done..|]. intros b'. by rewrite Hb; intros [= ->].
Qed.

(** Closing one takes it out of the set. *)
Lemma close_leaves tc h h' l b X : wf_heap h → wf_heap h' → close_one tc h = Some (tt, h') →
  (∀ b0, h_backend h !! l = Some b0 → conns b0 ⊆ {[tc]} ∪ X) → allocated h l →
  h_backend h' !! l = Some b → conns b ⊆ X.
Proof.
  intros Hwf Hwf' Hr Hsub Hl Hb tc' Htc'.
  assert (tc' ∈ {[tc]} ∪ X) as Hin.
  { eapply (conns_kept l h h'); [done..| |exact Hsub|exact Hb|done]. left. by eapply tame_close_one. }
  apply elem_of_union in Hin as [->%elem_of_singleton|?]; [exfalso|done].
  apply (wf_conns _ Hwf' _ _ _ Hb) in Htc' as (t' & Ht' & _ & Ho).
  apply runs_bind_inv in Hr as (e & h1 & Hr & [= <-]). destruct (Close_once _ _ _ _ Hr) as (t2 & Ht2 & Ho2). congruence.
Qed.

(** The poller's own actions on the backend it drains. *)
Lemma poll_drain_phase init l rest k s s' : sound init s → sound init s' → step s s' → poll_step k s = Some s' →
  drain_phase l rest s → drain_phase l rest s'.
Proof.
  intros Hso Hso' Hst Hs [[Epc [X HX]]|[(cs & n & Epc & Hlg)|Hlg]]; [| |right; right; exact (step_leaving _ _ _ _ _ Hso Hst Hlg)].
  - pose proof (step_leaving _ _ _ _ _ Hso Hst HX) as HX'. unfold poll_step in Hs. rewrite Epc in Hs.
    destruct k; try done. destruct (lg_allocated _ _ _ HX) as [b Hb].
    rewrite (run_enabled _ _ _ _ (snapshot_conns_runs _ _ _ Hb)) in Hs. injection Hs as <-.
    right. left. eexists _, _. split; [done|]. destruct HX' as [L1 L2 L3 _]. split; [done..|].
    intros b' Hb'. assert (h_backend (heap s) !! l = Some b') as E by exact Hb'. rewrite Hb in E. injection E as <-.
    intros tc. by rewrite elem_of_list_to_set, elem_of_map_range.
  - pose proof (step_leaving _ _ _ _ _ Hso Hst Hlg) as Hlg'. unfold poll_step in Hs. rewrite Epc in Hs.
    destruct k, cs as [|tc cs]; try done; destruct (Proxy.on_heap _ _) as [[u s1]|] eqn:E; try done; injection Hs as <-.
    + right. left. exists cs, n. split; [done|]. destruct Hlg' as [L1 L2 L3 _]. split; [done..|].
      apply run_on_heap_inv in E as (h & E & ->). destruct u. intros b Hb.
      eapply close_leaves; [apply Hso|apply Hso'|exact E|apply Hlg|apply Hlg|exact Hb].
    + by right; right.
Qed.

Lemma step_drain_phase init l rest s s' : sound init s → step s s' → drain_phase l rest s → drain_phase l rest s'.
Proof.
  intros Hso Hst Hd. destruct (step_sound _ _ _ Hst Hso) as [Hso' _]. pose proof Hst as [lb Hs].
  assert (poller s' = poller s ∨ ∃ k, poll_step k s = Some s') as [Ep|[k Hk]].
  { destruct lb as [lb|lb|k]; [left|left|right; by exists k].
    - apply server_label in Hs as [_ Hs]. unfold server_step in Hs. destruct (Proxy.step_fun _ _ _); [|done]. by injection Hs as <-.
    - cbn [step_fun] in Hs. destruct (checker_own lb); [|done]. unfold checker_step in Hs.
      destruct (Health.step_fun _ _ _ _); [|done]. by injection Hs as <-. }
  - destruct Hd as [[Epc [X HX]]|[(cs & n & Epc & Hlg)|Hlg]].
    + left. split; [by rewrite Ep|]. exists X. exact (step_leaving _ _ _ _ _ Hso Hst HX).
    + right. left. exists cs, n. split; [by rewrite Ep|]. exact (step_leaving _ _ _ _ _ Hso Hst Hlg).
    + right. right. exact (step_leaving _ _ _ _ _ Hso Hst Hlg).
  - exact (poll_drain_phase _ _ _ _ _ _ Hso Hso' Hst Hk Hd).
Qed.

Lemma steps_drain_phase init l rest s s' : sound init s → rtc step s s' → drain_phase l rest s → drain_phase l rest s'.
Proof.
  intros Hso Hr. induction Hr as [s|s1 s2 s3 Hst Hr IH]; [done|]. intros Hl.
  apply IH; [by eapply step_sound|exact (step_drain_phase _ _ _ _ _ Hso Hst Hl)].
Qed.

(** The poller's own actions drain it. *)
Lemma closing_finishes init l rest cs n s : sound init s → poller s = PClosing l cs n rest →
  ∃ ks s', trace (map SPoll ks) s = Some s' ∧ poller s' = PDraining rest.
Proof.
  revert s. induction cs as [|tc cs IH]; intros s Hso Epc; pose proof (poller_enabled _ _ Hso) as Hp;
    unfold poller_can in Hp; rewrite Epc in Hp; destruct Hp as [s1 Hs].
  - exists [KCount], s1. cbn [map trace]. rewrite Hs. split; [done|]. cbn [step_fun] in Hs. unfold poll_step in Hs.
    rewrite Epc in Hs. destruct (Proxy.on_heap _ _) as [[u s2]|]; [|done]. by injection Hs as <-.
  - assert (poller s1 = PClosing l cs n rest) as Epc1.
    { cbn [step_fun] in Hs. unfold poll_step in Hs. rewrite Epc in Hs. destruct (Proxy.on_heap _ _) as [[u s2]|]; [|done].
      by injection Hs as <-. }
    destruct (IH s1) as (ks & s' & Ht & Hp'); [by eapply step_sound; [by eexists|]|done|].
    exists (KClose :: ks), s'. cbn [map trace]. by rewrite Hs.
Qed.

Lemma drain_finishes init l rest s : sound init s → poller s = PDraining (l :: rest) →
  ∃ ks s', trace (map SPoll ks) s = Some s' ∧ poller s' = PDraining rest.
Proof.
  intros Hso Epc. pose proof (poller_enabled _ _ Hso) as Hp. unfold poller_can in Hp. rewrite Epc in Hp. destruct Hp as [s1 Hs].
  assert (∃ cs n, poller s1 = PClosing l cs n rest) as (cs & n & Epc1).
  { cbn [step_fun] in Hs. unfold poll_step in Hs. rewrite Epc in Hs. destruct (Proxy.on_heap _ _) as [[cs s2]|]; [|done].
    injection Hs as <-. by eexists _, _. }
  destruct (closing_finishes init l rest cs n s1) as (ks & s' & Ht & Hp'); [by eapply step_sound; [by eexists|]|done|].
  exists (KDrain :: ks), s'. cbn [map trace]. by rewrite Hs.
Qed.
End system.
