(* ===== verification/Program.v ===== *)
(** The program from its command line to its last goroutine: a round of discovery is a
    run of the poller of System.v, and what [main] starts keeps every promise of that
    file. *)
From S2P Require Import Prelude Backend Pool GoNet Config Flags Kubeconfig State.
From S2P Require Import Prober Discovery Health Proxy ProxyFacts ProxyProps Main System.

(** ** A round of discovery *)

Section rounds.
Context {CertPool Certificate : Type}.
Context (AppendCertsFromPEM : string → option CertPool).
Context (X509KeyPair : string → string → option Certificate).
Context {P : Type} `{PickerLaws P} `{MapRange} `{StateCodec}.
Context (KeepalivePeriod fall rise : Z).
Context (lookup : string → option (list IP)) (listen : string).
Abbreviation World := (@World CertPool Certificate P).
Abbreviation trace := (System.trace (P:=P) KeepalivePeriod fall rise lookup listen).

(** The poller alone goes from [pc] in the world [w] to [pc'] in [w'], whatever the
    other components are doing. *)
Definition emulates (w : World) (pc : poll_pc) (w' : World) (pc' : poll_pc) : Prop :=
  ∀ sv c, ∃ ks, trace (map SPoll ks) (mkSystem (share (w_heap w) (w_pool w) sv) c pc) =
    Some (mkSystem (share (w_heap w') (w_pool w') sv) c pc').

Lemma system_trace_app ls1 ls2 (s s1 : @System P) : trace ls1 s = Some s1 → trace (ls1 ++ ls2) s = trace ls2 s1.
Proof.
  revert s. induction ls1 as [|l ls1 IH]; intros s; [by intros [= ->]|]. simpl.
  destruct (step_fun _ _ _ _ _ _ s) as [s2|]; [|done]. apply IH.
Qed.

Lemma emulates_trans w1 pc1 w2 pc2 w3 pc3 : emulates w1 pc1 w2 pc2 → emulates w2 pc2 w3 pc3 → emulates w1 pc1 w3 pc3.
Proof.
  intros E1 E2 sv c. destruct (E1 sv c) as [k1 H1'], (E2 sv c) as [k2 H2']. exists (k1 ++ k2).
  by rewrite map_app, (system_trace_app _ _ _ _ H1').
Qed.

Lemma emulates_same w w' pc : w_heap w' = w_heap w → w_pool w' = w_pool w → emulates w pc w' pc.
Proof. intros Eh Ep sv c. exists []. by rewrite Eh, Ep. Qed.

Lemma emulates_step k w pc w' pc' :
  (∀ sv c, poll_step lookup listen k (mkSystem (share (w_heap w) (w_pool w) sv) c pc) =
    Some (mkSystem (share (w_heap w') (w_pool w') sv) c pc')) → emulates w pc w' pc'.
Proof. intros Hs sv c. exists [k]. cbn [map System.trace System.step_fun]. by rewrite Hs. Qed.

Lemma world_run_inv {A} (m : prog Heap A) (w : World) a w' : runs (Discovery.on_heap m) w a w' →
  ∃ h, runs m (w_heap w) a h ∧ w' = Discovery.set_heap h w.
Proof. unfold runs, Discovery.on_heap. destruct (m (w_heap w)) as [[a' h]|]; [|done]. intros [= -> <-]. by exists h. Qed.

Lemma read_inv {A} (m : prog Heap A) (w : World) a w' : keeps eq m → runs (Discovery.on_heap m) w a w' →
  w' = w ∧ runs m (w_heap w) a (w_heap w).
Proof.
  intros Hm (h & Hr & ->)%world_run_inv. pose proof (Hm _ _ _ Hr) as <-. split; [by destruct w|done].
Qed.

(** A run of the poller on the shared heap, from a run on the heap of the world. *)
Lemma poll_on_heap {A} (m : prog Heap A) (w : World) (sv : @Proxy.Server P) a h :
  runs m (w_heap w) a h → Proxy.on_heap m (share (w_heap w) (w_pool w) sv) = Some (a, share h (w_pool w) sv).
Proof. intros Hr. unfold Proxy.on_heap. change (Proxy.heap (share _ _ _)) with (w_heap w). by rewrite Hr. Qed.

Section round.
Context (opts : Options) (env : @Env CertPool Certificate).

Lemma fetch_loop_emulates a c lastErr candidates (w : World) r w' :
  runs (fetch_loop env a c lastErr candidates) w r w' →
  w' = w ∧ match r with
           | inl _ => True
           | inr addrs => ∃ i b subsets ad, candidates !! i = Some b ∧ runs (Addr b) (w_heap w) ad (w_heap w) ∧
               addrs = endpoint_addrs subsets
           end.
Proof.
  revert lastErr. induction candidates as [|b bs IH]; intros lastErr Hr; simpl in Hr; [by injection Hr as <- <-|].
  apply runs_bind_inv in Hr as (ad & w1 & (-> & Hb)%read_inv & Hr); [|apply Addr_keeps].
  destruct (fetchFrom env a c ad) as [err|addrs] eqn:Ef.
  - destruct (IH _ Hr) as [-> Hm]. split; [done|]. destruct r as [|addrs]; [done|].
    destruct Hm as (i & b' & subsets & ad' & Hi & Hm). by exists (S i), b', subsets, ad'.
  - injection Hr as <- <-. split; [done|].
    assert (∃ subsets, addrs = endpoint_addrs subsets) as [subsets ->].
    { unfold fetchFrom in Ef. repeat case_match; simplify_eq; by eexists. }
    by exists 0%nat, b, subsets, ad.
Qed.

(** [Candidates] in one go, and cut in pieces. *)
Lemma filter_emulates all todo hs (w : World) hs' h : runs (for_fold add_healthy hs todo) (w_heap w) hs' h →
  emulates w (PFiltering all todo hs) (Discovery.set_heap h w) (PFiltering all [] hs').
Proof.
  revert w hs. induction todo as [|b todo IH]; intros w hs Hr.
  { injection Hr as <- <-. by apply emulates_same. }
  apply runs_bind_inv in Hr as (hs1 & h1 & Hr1 & Hr).
  eapply (emulates_trans _ _ (Discovery.set_heap h1 w)); [|exact (IH (Discovery.set_heap h1 w) _ Hr)].
  apply (emulates_step KHealthy). intros sv ch. unfold poll_step. cbn [poller server].
  by rewrite (poll_on_heap _ _ _ _ _ Hr1).
Qed.

Lemma candidates_emulates (w : World) p' cs dg h : runs (Candidates (w_pool w)) (w_heap w) (p', (cs, dg)) h →
  emulates w PIdle (Discovery.set_pool p' (Discovery.set_heap h w)) (PAsked cs).
Proof.
  intros (hs & h1 & Hf & Ho)%runs_bind_inv.
  apply (emulates_trans _ _ w (PFiltering (Backends (w_pool w)) (Backends (w_pool w)) [])); [by apply (emulates_step KAsk)|].
  eapply emulates_trans; [by apply filter_emulates|]. apply (emulates_step KOrder). intros sv ch.
  unfold poll_step. cbn [poller server]. change (pool _) with (w_pool w).
  pose proof (poll_on_heap _ (Discovery.set_heap h1 w) sv _ _ Ho) as E. cbn in E |- *. by rewrite E.
Qed.

Lemma fetch_emulates a c (w : World) r w' : runs (fetch env a c) w r w' →
  emulates w PIdle w' (match r with inl _ => PIdle | inr addrs => PFetched addrs end).
Proof.
  intros (w0 & w1 & Hg & Hr)%runs_bind_inv. injection Hg as <- <-.
  apply runs_bind_inv in Hr as ([p' [cs dg]] & w1 & (h & Hc & ->)%world_run_inv & Hr).
  apply runs_bind_inv in Hr as ([] & w2 & Hm & Hr). injection Hm as <-.
  apply fetch_loop_emulates in Hr as [-> Hr].
  eapply emulates_trans; [by eapply candidates_emulates|].
  destruct r as [e|addrs].
  - by apply (emulates_step KFail).
  - destruct Hr as (i & b & subsets & ad & Hi & Hb & ->). apply (emulates_step (KAnswer i subsets)).
    intros sv ch. unfold poll_step. cbn [poller server]. rewrite Hi. cbn [mbind option_bind].
    by rewrite (poll_on_heap _ _ _ _ _ Hb).
Qed.

(** [DrainAll] in one go, and cut in pieces. *)
Lemma closes_emulate b cs n removed (w : World) h : runs (for_each close_one cs) (w_heap w) tt h →
  emulates w (PClosing b cs n removed) (Discovery.set_heap h w) (PClosing b [] n removed).
Proof.
  revert w. induction cs as [|tc cs IH]; intros w Hr; [injection Hr as <-; by apply emulates_same|].
  apply runs_bind_inv in Hr as ([] & h1 & Hr1 & Hr).
  eapply (emulates_trans _ _ (Discovery.set_heap h1 w)); [|exact (IH (Discovery.set_heap h1 w) Hr)].
  apply (emulates_step KClose). intros sv ch. unfold poll_step. cbn [poller server].
  by rewrite (poll_on_heap _ _ _ _ _ Hr1).
Qed.

Lemma drain_emulates b removed (w : World) n h : runs (DrainAll b) (w_heap w) n h →
  emulates w (PDraining (b :: removed)) (Discovery.set_heap h w) (PDraining removed).
Proof.
  intros (cs & h1 & Hs & ([] & h2 & Hc & ([] & h3 & Hd & [= _ <-])%runs_bind_inv)%runs_bind_inv)%runs_bind_inv.
  eapply (emulates_trans _ _ (Discovery.set_heap h1 w)).
  { apply (emulates_step KDrain). intros sv ch. unfold poll_step. cbn [poller server]. by rewrite (poll_on_heap _ _ _ _ _ Hs). }
  eapply emulates_trans; [by apply closes_emulate|]. apply (emulates_step KCount). intros sv ch.
  unfold poll_step. cbn [poller server].
  pose proof (poll_on_heap _ (Discovery.set_heap h2 (Discovery.set_heap h1 w)) sv _ _ Hd) as E. cbn in E |- *. by rewrite E.
Qed.

Lemma drains_emulate (removed : list loc) (w : World) w' :
  runs (for_each (λ b, n ← Discovery.on_heap (DrainAll b); a ← Discovery.on_heap (Addr b); log (EvRemoved a n)) removed)
    w tt w' → emulates w (PDraining removed) w' PIdle.
Proof.
  revert w. induction removed as [|b removed IH]; intros w Hr.
  { injection Hr as <-. by apply (emulates_step KDrain). }
  apply runs_bind_inv in Hr as ([] & w1 & Hr1 & Hr).
  apply runs_bind_inv in Hr1 as (n & w2 & (h & Hd & ->)%world_run_inv & Hr1).
  apply runs_bind_inv in Hr1 as (a & w2 & (-> & _)%read_inv & Hl); [|apply Addr_keeps]. injection Hl as <-.
  eapply emulates_trans; [|by apply IH]. exact (drain_emulates _ _ _ _ _ Hd).
Qed.

(** Runs that only log, mark or save. *)
Definition same_store (w w' : World) : Prop := w_heap w' = w_heap w ∧ w_pool w' = w_pool w.

Lemma adds_same (added : list loc) (w w' : World) :
  runs (for_each (λ b, a ← Discovery.on_heap (Addr b); log (EvAdded a)) added) w tt w' → same_store w w'.
Proof.
  revert w. induction added as [|b added IH]; intros w Hr; [by injection Hr as <-|].
  apply runs_bind_inv in Hr as ([] & w1 & Hr1 & Hr).
  apply runs_bind_inv in Hr1 as (a & w2 & (-> & _)%read_inv & Hl); [|apply Addr_keeps]. injection Hl as <-.
  by apply IH in Hr.
Qed.

Lemma persist_same addrs (w w' : World) :
  runs (if bool_decide (StatePath opts = "") then mret tt
        else
          w ← get;
          put (set_disk (saved (e_os env) (StatePath opts) addrs (w_disk w)) w) ;;
          if save_error (e_os env) (StatePath opts) addrs (w_disk w) then log EvPersistFailed else mret tt) w tt w' →
  same_store w w'.
Proof.
  destruct (bool_decide _); [by intros [= <-]|].
  intros (w0 & w1 & Hg & Hr)%runs_bind_inv. injection Hg as <- <-.
  apply runs_bind_inv in Hr as ([] & w1 & Hp & Hr). injection Hp as <-.
  destruct (save_error _ _ _ _); by injection Hr as <-.
Qed.

Lemma apply_emulates addrs (w w' : World) : Discovery.validate opts addrs = valid lookup listen addrs →
  runs (apply opts env addrs) w tt w' → emulates w (PFetched addrs) w' PIdle.
Proof.
  intros Hv (w0 & w1 & Hg & Hr)%runs_bind_inv. injection Hg as <- <-.
  destruct (bool_decide (addrs = [])) eqn:He.
  { assert (same_store w w') as [Eh Ep].
    { destruct (loggedEmpty _); [by injection Hr as <-|].
      apply runs_bind_inv in Hr as ([] & w1 & Hl & Hr). injection Hl as <-. by injection Hr as <-. }
    apply (emulates_step KCheck). intros sv ch. unfold poll_step. cbn [poller]. by rewrite He, Eh, Ep. }
  apply runs_bind_inv in Hr as ([] & w1 & Hf & Hr). injection Hf as <-.
  apply runs_bind_inv in Hr as (same & w1 & Hs & Hr).
  apply runs_bind_inv in Hs as (current & w2 & (-> & Hcur)%read_inv & Hs); [|apply mapM_Addr_keeps]. injection Hs as <- <-.
  assert (emulates w (PFetched addrs) w (if same_addrs addrs current || negb (valid lookup listen addrs) then PIdle
    else PChecked addrs)) as Hcheck.
  { apply (emulates_step KCheck). intros sv ch. unfold poll_step. cbn [poller server]. rewrite He.
    change (pool _) with (w_pool w). by rewrite (poll_on_heap _ w _ _ _ Hcur). }
  destruct (same_addrs addrs current); cbn [orb] in Hcheck.
  { injection Hr as <-. eapply emulates_trans; [exact Hcheck|by apply emulates_same]. }
  rewrite Hv in Hr. destruct (valid lookup listen addrs); cbn [negb] in Hr, Hcheck.
  2:{ injection Hr as <-. eapply emulates_trans; [exact Hcheck|by apply emulates_same]. }
  eapply emulates_trans; [exact Hcheck|]. clear Hcheck Hcur.
  apply runs_bind_inv in Hr as ([p' [added removed]] & w1 & (h & Hset & ->)%world_run_inv & Hr).
  apply runs_bind_inv in Hr as ([] & w1 & Hm & Hr). injection Hm as <-.
  apply runs_bind_inv in Hr as ([] & w1 & Hm & Hr). injection Hm as <-.
  apply runs_bind_inv in Hr as ([] & w2 & [Eh2 Ep2]%persist_same & Hr).
  apply runs_bind_inv in Hr as ([] & w3 & [Eh3 Ep3]%adds_same & Hr).
  eapply emulates_trans; [|by eapply drains_emulate].
  apply (emulates_step KApply). intros sv ch. unfold poll_step. cbn [poller server]. change (pool _) with (w_pool w).
  cbn in Hset. rewrite (poll_on_heap _ w _ _ _ Hset). by rewrite Eh3, Ep3, Eh2, Ep2.
Qed.

Lemma ensure_auth_same (w : World) r w' :
  runs (ensure_auth AppendCertsFromPEM X509KeyPair opts env) w r w' → same_store w w'.
Proof.
  intros (w0 & w1 & Hg & Hr)%runs_bind_inv. injection Hg as <- <-.
  destruct (auth (w_poller w)); [by injection Hr as <- <-|].
  apply runs_bind_inv in Hr as (l & w1 & Hl & Hr). unfold runs, deref in Hl.
  destruct (Load _ _ _ _) as [l'|]; [|done]. injection Hl as <- <-. destruct l' as [e|a].
  - apply runs_bind_inv in Hr as ([] & w1 & Hl & Hr). injection Hr as <- <-.
    destruct (loggedWaiting _); [by injection Hl as <-|].
    apply runs_bind_inv in Hl as ([] & w2 & Hl & Hr). injection Hl as <-. by injection Hr as <-.
  - by injection Hr as <- <-.
Qed.

End round.
End rounds.

(** ** What [main] starts *)

Section program.
Context {CertPool : Type} `{StateCodec} `{MapRange}.
Context (AppendCertsFromPEM : string → option CertPool).
Context (lookup : string → option (list IP)).
Abbreviation System := (@System.System anyPicker).
Abbreviation Process := (@Process CertPool).
Abbreviation setup := (setup AppendCertsFromPEM lookup).

(** The steps of a process, under its configuration. *)
Definition process_fun (pr : Process) : label → System → option System :=
  let cfg := pr_config pr in
  step_fun (Config.KeepalivePeriod cfg) (Fall cfg) (Rise cfg) lookup (Listen cfg).
Definition process_trace (pr : Process) : list label → System → option System :=
  let cfg := pr_config pr in
  System.trace (Config.KeepalivePeriod cfg) (Fall cfg) (Rise cfg) lookup (Listen cfg).
Definition process_step (pr : Process) (s s' : System) : Prop := ∃ l, process_fun pr l s = Some s'.

(** The states of a process from the heap [setup] leaves. *)
Definition process_reaches (pr : Process) (h : Heap) : System → Prop :=
  rtc (process_step pr) (start (pr_discovery pr) h (pr_pool pr)).

Lemma setup_boots args build o pr h : runs (setup args build o) empty_heap (inr pr) h →
  ∃ init, boots h (pr_pool pr) init ∧ valid lookup (Listen (pr_config pr)) init = true.
Proof.
  intros Hr. destruct (Parse args) as [e|cfg] eqn:Hp.
  { unfold Main.setup in Hr. by rewrite Hp in Hr. }
  destruct (ShowVersion cfg) eqn:Hv.
  { unfold Main.setup in Hr. by rewrite Hp, Hv in Hr. }
  destruct (setup_runs AppendCertsFromPEM lookup args cfg build o Hp Hv) as (r & h' & Hr' & Hs).
  unfold runs in *. rewrite Hr in Hr'. injection Hr' as <- <-.
  destruct Hs as (_ & -> & Hready & _ & _ & servers & Hwf & Hne & Hval & _).
  exists servers. split; [by split|]. unfold valid. destruct (effective_fields cfg) as [-> _]. by rewrite Hval.
Qed.

Lemma process_sound args build o pr h s : runs (setup args build o) empty_heap (inr pr) h → process_reaches pr h s →
  ∃ init, sound lookup (Listen (pr_config pr)) init s ∧ valid lookup (Listen (pr_config pr)) init = true.
Proof.
  intros (init & Hb & Hv)%setup_boots Hr. exists init. split; [|done].
  eapply (steps_sound (Config.KeepalivePeriod (pr_config pr)) (Fall (pr_config pr)) (Rise (pr_config pr))); [|exact Hr].
  by apply (start_sound (Config.KeepalivePeriod (pr_config pr))).
Qed.


(** C4. A backend that discovery removed stays drained.  Suppose its turn to be drained
    has come and no handler has picked it (a handler that has can still connect to it).
    Then the poller gets past it by its own actions; and whatever the others do before,
    during and after the drain, it is never in the pool again, its connections are among
    those the poller has left to close, and once the poller is past it, it never has a
    connection again. *)
Theorem removed_stays_drained (args : list string) (build : Build) (o : Outside) (pr : Process) (h : Heap) (s : System)
    (l : loc) (rest : list loc)
    (Hstart : runs (setup args build o) empty_heap (inr pr) h) (Hreach : process_reaches pr h s)
    (Hturn : poller s = PDraining (l :: rest))
    (Hpicked : ∀ i x, handlers (server s) !! i = Some x → ¬ picks (h_pc x) l) :
  (∃ ks s1, process_trace pr (map SPoll ks) s = Some s1 ∧ poller s1 = PDraining rest) ∧
  ∀ s2, rtc (process_step pr) s s2 →
    l ∉ backends (pool s2) ∧ ∃ b, h_backend (heap s2) !! l = Some b ∧
      (poller s2 = PDraining (l :: rest) ∨
       (∃ cs n, poller s2 = PClosing l cs n rest ∧ conns b ⊆ list_to_set cs) ∨
       ∀ s3, rtc (process_step pr) s2 s3 → ∃ b3, h_backend (heap s3) !! l = Some b3 ∧ conns b3 = ∅).
Proof.
  destruct (process_sound _ _ _ _ _ _ Hstart Hreach) as (init & Hso & _).
  split; [by eapply drain_finishes|]. intros s2 Hr.
  assert (sound lookup (Listen (pr_config pr)) init s2) as Hso2 by by eapply steps_sound.
  destruct (steps_drain_phase _ _ _ _ _ init l rest s s2 Hso Hr) as [[Epc [X [[b Hb] L2 _ L4]]]|[(cs & n & Epc & [[b Hb] L2 _ L4])|Hlg]].
  - by eapply drain_phase_starts.
  - split; [done|]. exists b. split; [done|by left].
  - split; [done|]. exists b. split; [done|]. right. left. exists cs, n. split; [done|by apply L4].
  - pose proof Hlg as [[b Hb] L2 _ L4]. split; [done|]. exists b. split; [done|]. right. right. intros s3 Hr3.
    destruct (steps_leaving _ _ _ _ _ init l ∅ s2 s3 Hso2 Hr3 Hlg) as [[b3 Hb3] _ _ L4']. exists b3. split; [done|].
    pose proof (L4' _ Hb3). set_solver.
Qed.
End program.

(** ** Concrete runs *)

#[local] Instance demo_range : MapRange := range_elements.

(** The command line of Main.v, started without a state file. *)
Abbreviation demo_setup := (setup (λ pem : string, Some pem) demo_lookup start_args dev_build (start_outside ∅)).
Definition demo_process : @Process string * Heap :=
  match demo_setup empty_heap with
  | Some (inr pr, h) => (pr, h)
  | _ => (mkProcess start_config (newLogger start_config) (mkPool [] (PickRoundRobin (mkRoundRobin 0)))
            (UseTCP mkTCPProber) false false, empty_heap)
  end.
Definition demo_pr := demo_process.1.
Definition demo_start : @System anyPicker := start (pr_discovery demo_pr) demo_process.2 (pr_pool demo_pr).

Lemma demo_started : runs demo_setup empty_heap (inr demo_pr) demo_process.2.
Proof. vm_compute. reflexivity. Qed.

Definition demo_run (ls : list label) : option (@System anyPicker) :=
  let cfg := pr_config demo_pr in
  trace (Config.KeepalivePeriod cfg) (Fall cfg) (Rise cfg) demo_lookup (Listen cfg) ls demo_start.
Definition demo_state (ls : list label) : @System anyPicker := default demo_start (demo_run ls).

(** A client is connected to the first backend when discovery replaces the list. *)
Definition serve_one : list (@label anyPicker) :=
  map SServer ([LServe; LServeCheck; LAccept; LSpawn] ++
    map (LHandler 2) [ATrack; ACandidates; AHealthy; AHealthy; AOrder; ADial true; ATrackConn]).
Definition discover : list (@label anyPicker) :=
  map SPoll [KAsk; KHealthy; KHealthy; KOrder; KAnswer 0 [mkSubset ["10.0.0.2"; "10.0.0.3"] [6443]]; KCheck; KApply].

Lemma demo_reaches ls : is_Some (demo_run ls) → process_reaches demo_lookup demo_pr demo_process.2 (demo_state ls).
Proof.
  intros [s Hs]. unfold demo_state. rewrite Hs. simpl. unfold demo_run in Hs. by apply system_trace_rtc in Hs.
Qed.


Lemma removed_stays_drained_witness :
  let s := demo_state (serve_one ++ discover) in
  let s2 := demo_state (serve_one ++ discover ++ map SPoll [KDrain; KClose; KCount]) in
  (conns <$> h_backend (heap s) !! (2%positive : loc)) = Some {[2%positive]} ∧
  poller s2 = PDraining [] ∧ (2%positive : loc) ∉ backends (pool s2) ∧
  ∃ b, h_backend (heap s2) !! (2%positive : loc) = Some b ∧ conns b = ∅.
Proof.
  intros s s2.
  assert (Hh : handlers (server s) = {[(2%positive : loc) := mkHandler 2 (HPiping 2 Copying Copying)]})
    by (vm_compute; reflexivity).
  assert (Hp2 : poller s2 = PDraining []) by (vm_compute; reflexivity).
  assert (Hr2 : rtc (process_step demo_lookup demo_pr) s s2).
  { apply (system_trace_rtc _ _ _ _ _ (map SPoll [KDrain; KClose; KCount])). vm_compute. reflexivity. }
  destruct (removed_stays_drained (λ pem : string, Some pem) demo_lookup start_args dev_build (start_outside ∅)
    demo_pr demo_process.2 s 2%positive [] demo_started) as (_ & Hl).
  - apply demo_reaches. vm_compute. by eexists.
  - vm_compute. reflexivity.
  - intros i x. rewrite Hh, lookup_singleton_Some. intros [_ <-] [].
  - split; [vm_compute; reflexivity|]. split; [exact Hp2|].
    destruct (Hl s2 Hr2) as (Hout & b & Hb & [E|[(cs & n & E & _)|Hd]]); [congruence|congruence|].
    split; [exact Hout|]. exact (Hd s2 (rtc_refl _ _)).
Defined.

(** The poller of Discovery.v over the heap and pool of the process. *)
Definition demo_round_opts : Options :=
  mkOptions "/etc/kubelet.conf" (valid demo_lookup (Listen (pr_config demo_pr))) "/var/lib/lb/servers.json".
Definition demo_round_world : @World string string anyPicker :=
  mkWorld (heap demo_start) (pool demo_start) (mkPoller (Some demo_auth) (Some demo_client) false false) ∅ [].

Lemma demo_round_validate : Discovery.validate demo_round_opts = valid demo_lookup (Listen (pr_config demo_pr)).
Proof. unfold demo_round_opts. cbn [Discovery.validate]. reflexivity. Qed.
Lemma demo_round_store : heap demo_start = w_heap demo_round_world ∧ pool demo_start = w_pool demo_round_world ∧
  poller demo_start = PIdle.
Proof. unfold demo_round_world. cbn [w_heap w_pool]. split; [reflexivity|]. split; [reflexivity|vm_compute; reflexivity]. Qed.


